(* ===== verification/_CoqProject ===== *)
-Q . S2P
Prelude.v
KV.v
Leaf.v
Inner.v
Store.v
Tree.v
TreeRep.v
TreeFoot.v
TreeInsert.v
TreeSearch.v
TreeDelete.v
TreeClose.v
Barrier.v
Alloc.v
PullState.v
PullTree.v
TreeSpec.v
IndexedList.v
Lru.v
BlkCache.v
FileAccessor.v
Estimator.v
Metrics.v
NvmeAccessor.v
LockManager.v
ConcurrentTree.v
TreeRoute.v
TreePlace.v
ConcurrentMachine.v
ConcurrentSpec.v
ConcurrentPath.v
ConcurrentInv.v
ConcurrentSteps.v
ConcurrentLin.v
ConcurrentTerm.v
BarrierFrame.v
PullSafe.v
PullAnswers.v
PullSpec.v
Bytes.v
PullTerminates.v
NodeSpec.v
SharedAccessor.v
PullSearch.v
PullAlone.v
PullInsert.v
PullClient.v
OptimizedTree.v
ProbeTimer.v
PullSession.v
Workload.v
IoTask.v
Zipf.v
Sync.v
DedicatedAccessor.v
RwLock.v
ToString.v
