(* ===== verification/Prelude.v ===== *)
(** Verification library of the PA-tree: a B+-tree on block devices with a
    sequential, a lock-based concurrent and a pull-mode asynchronous
    implementation (C++ headers under src/src).

    * The program and its model

    Keys and values are 32-bit integers in every instantiation of the
    repository; they are [Z] here, and CAPACITY is any number from 3 on. C++
    code that can fail (an access outside an array, a null pointer, a failed
    [assert]) returns an [option]; code that changes state takes and returns a
    record with the fields of the class; the pull-mode machine has a state
    monad of its own.

    - Nodes. [Leaf] and [Inner] are LeafNode (tree/leaf_node.h) and InnerNode
      (tree/inner_node.h): fixed arrays of which the first [size_] entries are
      live, with the loops of the source that move entries, binary search,
      split, deletion and balancing. [NodeSpec] states their contract. [KV] is
      the specification: sorted lists of pairs and what insertion, deletion and
      lookup do to them.
    - Blocks. [Store] has the contents of a block, the allocator interface (a
      class with laws) and blk_node_reference (tree/blk_node_reference.h); [Alloc]
      is the allocator of the accessors (blk/file_blk_accessor.h,
      blk/nvme_blk_accessor.h), an instance of the interface; [Bytes] is the
      layout of a node in the bytes of its block ([serialize], [deserialize]).
    - The sequential tree. [Tree] is VanillaBPlusTree (tree/vanilla_b_plus_tree.h)
      with the recursive parts of InnerNode: init, insert, delete, search,
      iteration, range search, close and clear. [TreeRep] is the representation
      predicate: which blocks form a tree with given entries; [TreeFoot] the
      footprint lemmas; [TreeInsert], [TreeSearch], [TreeDelete], [TreeClose] the
      proofs per operation; [TreeSpec] the contract: a finite map.
    - The pull-mode tree. [Barrier] is the callback context, the read/write
      barrier of a node and the barrier table (context/call_back.h,
      context/context_barrier.h, context/barrier_manager.h), with [BarrierFrame]
      on who is woken. [PullState] and [PullTree] are
      tree/pull_based_b_plus_tree.h: the insert and search contexts as state
      machines (states 0, 1, 2, 9 to 13 and 10001 of the source), admission of
      requests, the three ready queues and a round of both schedulers, over the
      asynchronous interface of blk/file_blk_accessor.h. [PullSafe] is the
      invariant of the machine, [PullAnswers] the accounting of requests,
      [PullSpec] their consequences under every schedule, [PullTerminates] the
      termination of the recursion of [run], [PullSearch] the total correctness
      of machines that only search. [PullAlone] and [PullInsert] follow one
      insertion through its states, [PullClient] a client that waits with [sync]
      after each request, [ProbeTimer] the decision of the latency-aware scheduler
      to poll, [PullSession] the life of a tree from [init] to [close].
      [OptimizedTree] are the blocking operations of
      tree/disk_optimized_b_plus_tree.h and tree/nvme_optimized_b_plus_tree.h.
    - The concurrent tree. [LockManager] is sync/lock_manager.h, [ConcurrentTree]
      tree/concurrent_b_plus_tree.h: search and both insertions with the locks
      they take and release. [ConcurrentMachine] is the same code as threads that
      stop at every lock operation and are interleaved in any order,
      [ConcurrentSpec] the atomic object they implement; [TreeRoute] and
      [TreePlace] say where the nodes of a tree are and that an insertion leaves
      those off its path in place, [ConcurrentPath] what a pessimistic insertion
      owes on its way up, [ConcurrentInv] and [ConcurrentSteps] the invariant,
      [ConcurrentLin] and [ConcurrentTerm] the theorems.
    - Caches and accessors. [IndexedList] is the std::list with an index of
      iterators that [Lru] (blk/lru.h) and [BlkCache] (blk/blk_cache.h) share;
      [FileAccessor] is the synchronous part of blk/file_blk_accessor.h;
      [NvmeAccessor] is blk/nvme_blk_accessor.h with its callbacks;
      [SharedAccessor] is blk/nvme_blk_shared_working_thread_accessor_.h: client
      threads, a working thread, and the device, interleaved;
      [DedicatedAccessor] is blk/nvme_blk_thread_dediciated_accessor_.h with the
      queue pairs of accessor/qpair_context.h.
    - [Sync] is utils/sync.h: spin lock, semaphore and barrier; [RwLock] its mutex
      and sync/rwlock.h. [ToString] prints nodes and trees, and replays the unit
      tests of src/test on the model.
    - Clients. [Workload] is the interface BTree (tree/b_tree.h), a class with laws
      of which the three trees are instances, with the drivers perf/insert.h and
      perf/tree_operation_executor.h; [IoTask] is perf/io_task.h with its access
      patterns and the operations of a queue pair; [Zipf] is utils/generator.h.
    - Statistics. [Estimator] is scheduler/ready_state_estimator.h with the
      histogram of scheduler/linear_regression_estimator.h; [Metrics] is
      blk/blk_metrics.h, and tree/tree_perf_metrics.h with utils/aggregator.h.

    * What the theorems show

    - The sequential tree is a finite map: each operation, every sequence of
      operations, iteration and range search; an operation touches only blocks
      of the tree and new ones; closing frees all of them (TreeSpec).
    - The nodes: binary search is the linear scan, operations keep the shape of
      the arrays (NodeSpec); nodes survive their bytes (Bytes).
    - The pull-mode tree, for every sequence of requests, rounds and completion
      orders: write barriers exclude, the first waiter of a barrier is always
      blocked by a holder, a context is in one place, every request is answered
      once (PullSpec), and [run] recurses at most five times (PullTerminates);
      searches alone are all answered, with the values of the tree, once a
      bounded number of rounds has polled (PullSearch).
    - The pull-mode tree, for a client that waits for its requests: it is a finite
      map, and its blocks are those of the sequential tree (PullClient,
      OptimizedTree); calls return within a bounded number of cycles when the
      scheduler decides by its clock (ProbeTimer); a session gives back every block
      (PullSession). Insertions that overlap are covered by the safety theorems of
      PullSpec, not by a refinement.
    - Clients: threads that share the tuples of a benchmark insert each of them
      once, on any tree with the laws of the interface (Workload); a task of
      accesses issues the commands of its pattern and never overfills its queue
      (IoTask).
    - The concurrent tree, one thread at a time: search and insertion give the
      result of the sequential tree and release every lock; the lock manager
      excludes writers (ConcurrentTree, LockManager).
    - The concurrent tree, for every number of threads and every interleaving: it
      is linearizable, no thread goes wrong, no two threads race for a block,
      there is no deadlock, and a schedule is bounded by the calls in it, if the
      root id is read before the height; in the other order, which C++ allows too,
      an insertion is lost (ConcurrentLin, ConcurrentTerm).
    - The caches are lists in order of use (Lru, BlkCache); the accessors return
      what was written last, under the conditions their theorems state
      (FileAccessor, NvmeAccessor, SharedAccessor, DedicatedAccessor); calls of
      the accessors with threads are answered once and do not get stuck.
    - Sections under the spin lock are atomic, which is why the machines above
      take them in one step (Sync).
    - Flaws that the model exhibits are theorems too: a search that misses a
      key while the root is split, lost updates of the caches, an insertion
      lost to a stale height, a range search below the leftmost key, an index outside the
      histogram, a search of the NVMe tree that asserts, a task that never ends and
      one that ends too early, a generator that reads outside its table, and a
      read-write lock whose write lock is final.

    * Bounds and fuel

    The binary searches have fuel [size_] + 1, which their equivalence with the
    scans shows to be enough. The recursion of the sequential and concurrent
    trees has the depth of the tree as fuel; the refinement theorems give a
    result, so it is enough. [run] of a context has fuel for its recursive
    calls; six are enough (PullTerminates), five for a client that waits.
    Loops that wait for another thread or the device take the list of its rounds
    or polls; the theorems say how many are enough. [release_all_barriers] loops
    once per token. The interleaved threads have no fuel: each action of a
    schedule is one step. Block addresses are kept at their width with an assumption [room]
    on the addresses left; time stamps, counters of the estimator and the
    histogram index are kept at their width; request and statistics counters
    are unbounded.

    * Not modelled

    The device and SPDK (a parameter: commands complete in any order), file
    system calls (a map of blocks), real time (counter values are inputs, with
    the condition that they advance), floating-point regression coefficients and
    probabilities, the third-party queue utils/concurrent_queue.h, the programs
    that start benchmarks, and their output. Nothing calls [context_based_process] of
    the pull-mode tree; only tests use the tree on in-memory references
    (tree/in_memory_node_reference.h, blk/void_blk_accessor.h). *)
From Stdlib Require Import ZArith Lia.
From stdpp Require Import base list gmap sorting numbers.

(** * Fallible code

    A computation that the C++ source performs is an [option]: [None] stands
    for an access outside an array, a failed [assert] or a dereference of a
    null pointer. The monadic notation is stdpp's [x ← m; k]. *)

Definition aset {A} (i : nat) (x : A) (a : list A) : option (list A) :=
  if decide (i < length a) then Some (<[i := x]> a) else None.

(** [for_up i n body]: the loop [for (j = i; j < i + n; ++j) body(j)].
    [for_down i n body]: the loop [for (j = i + n - 1; j >= i; --j) body(j)]. *)
Fixpoint for_up {S} (i n : nat) (body : nat → S → option S) (s : S) : option S :=
  match n with
  | 0 => Some s
  | S n' => s' ← body i s; for_up (i + 1) n' body s'
  end.

Fixpoint for_down {S} (i n : nat) (body : nat → S → option S) (s : S) : option S :=
  match n with
  | 0 => Some s
  | S n' => s' ← body (i + n') s; for_down i n' body s'
  end.

(** The three loop bodies of the node arrays. *)
Definition move_right {A} (i : nat) (a : list A) : option (list A) :=
  x ← a !! i; aset (i + 1) x a.

Definition move_left {A} (i : nat) (a : list A) : option (list A) :=
  x ← a !! (i + 1); aset i x a.

Definition copy_from {A} (src : list A) (s d : nat) (j : nat) (dst : list A) : option (list A) :=
  x ← src !! (s + j); aset (d + j) x dst.

#[global] Arguments aset : simpl never.
#[global] Arguments Nat.div : simpl never.
#[global] Arguments Nat.modulo : simpl never.
#[global] Arguments Z.div : simpl never.
#[global] Arguments Z.modulo : simpl never.
#[global] Arguments Z.of_nat : simpl never.
#[global] Arguments Z.to_nat : simpl never.

(** * Tactics *)
Ltac simpl_len :=
  repeat first
    [ rewrite length_app | rewrite length_take | rewrite length_drop
    | rewrite length_insert | rewrite length_cons | rewrite length_replicate
    | rewrite length_fmap ].

(** Unfold a bind whose head is already a [Some]. *)
Ltac bind_step E := rewrite E; simpl.

Create HintDb nvm.

(** * Arrays *)
Section arrays.
Context {A : Type}.
Implicit Types (a l src dst : list A) (x : A).

Lemma aset_Some i x a : i < length a → aset i x a = Some (take i a ++ x :: drop (S i) a).
Proof.
  intros Hi. unfold aset. rewrite decide_True by done.
  f_equal. apply insert_take_drop. done.
Qed.

Lemma aset_insert i x a : i < length a → aset i x a = Some (<[i := x]> a).
Proof. intros Hi. unfold aset. by rewrite decide_True. Qed.

Lemma aset_None i x a : length a ≤ i → aset i x a = None.
Proof. intros Hi. unfold aset. rewrite decide_False by lia. done. Qed.

Lemma aset_length i x a a' : aset i x a = Some a' → length a' = length a.
Proof. unfold aset. case_decide; intros; simplify_eq. apply length_insert. Qed.

Lemma lookup_lt_exists a i : i < length a → ∃ x, a !! i = Some x.
Proof. intros H. apply lookup_lt_is_Some_2 in H as [x ?]. eauto. Qed.

Lemma take_drop_app3 i n a :
  i + n ≤ length a → a = take i a ++ take n (drop i a) ++ drop (i + n) a.
Proof.
  intros H. rewrite <- (take_drop i a) at 1. f_equal.
  rewrite <- (take_drop n (drop i a)) at 1. by rewrite drop_drop.
Qed.

Lemma move_right_Some i x a :
  a !! i = Some x → S i < length a → move_right i a = Some (<[S i := x]> a).
Proof.
  intros Hx Hl. unfold move_right. rewrite Hx. simpl.
  rewrite Nat.add_1_r. by apply aset_insert.
Qed.

Lemma move_left_Some i x a :
  a !! (S i) = Some x → move_left i a = Some (<[i := x]> a).
Proof.
  intros Hx. unfold move_left. rewrite Nat.add_1_r, Hx. simpl.
  apply lookup_lt_Some in Hx. apply aset_insert. lia.
Qed.

Lemma copy_from_Some src s d j x dst :
  src !! (s + j) = Some x → d + j < length dst →
  copy_from src s d j dst = Some (<[d + j := x]> dst).
Proof. intros Hx Hl. unfold copy_from. rewrite Hx. simpl. by apply aset_insert. Qed.

Lemma for_down_move_right i n a :
  i + n < length a →
  for_down i n move_right a = Some (take (S i) a ++ take n (drop i a) ++ drop (S (i + n)) a).
Proof.
  revert a. induction n as [|n IH]; intros a Hlen; simpl.
  { rewrite Nat.add_0_r. by rewrite take_drop. }
  destruct (lookup_lt_exists a (i + n)) as [x Hx]; [lia|].
  rewrite (move_right_Some _ x) by (done || lia). simpl.
  rewrite IH by (rewrite length_insert; lia). f_equal.
  rewrite take_insert_ge by lia. f_equal.
  rewrite (take_S_r (drop i a) n x) by (rewrite lookup_drop; done).
  rewrite <- app_assoc. f_equal.
  { rewrite !take_drop_commute. rewrite take_insert_ge by lia. done. }
  apply list_eq. intros j. rewrite lookup_drop, list_lookup_insert.
  destruct j as [|j]; simpl.
  - rewrite Nat.add_0_r. case_decide as Hd; [|lia]. f_equal.
  - rewrite lookup_drop. case_decide; [lia|]. f_equal. lia.
Qed.

Lemma for_up_move_left i n a :
  i + n < length a →
  for_up i n move_left a = Some (take i a ++ take n (drop (S i) a) ++ drop (i + n) a).
Proof.
  revert i a. induction n as [|n IH]; intros i a Hlen; simpl.
  { rewrite Nat.add_0_r. by rewrite take_drop. }
  destruct (lookup_lt_exists a (S i)) as [x Hx]; [lia|].
  rewrite (move_left_Some _ x) by done. simpl.
  rewrite IH by (rewrite length_insert; lia). f_equal.
  rewrite Nat.add_1_r.
  rewrite (take_S_r _ i x) by (rewrite list_lookup_insert_eq by lia; done).
  rewrite take_insert_ge by lia. rewrite <- app_assoc. f_equal.
  rewrite !drop_insert_lt by lia.
  rewrite (drop_S a x (S i)) by done. simpl. f_equal. f_equal.
  f_equal. lia.
Qed.

Lemma for_up_copy src s d n dst j0 :
  s + j0 + n ≤ length src → d + j0 + n ≤ length dst →
  for_up j0 n (copy_from src s d) dst =
    Some (take (d + j0) dst ++ take n (drop (s + j0) src) ++ drop (d + j0 + n) dst).
Proof.
  revert j0 dst. induction n as [|n IH]; intros j0 dst Hs Hd; simpl.
  { by rewrite !Nat.add_0_r, take_drop. }
  destruct (lookup_lt_exists src (s + j0)) as [x Hx]; [lia|].
  rewrite (copy_from_Some _ _ _ _ x) by (done || lia). simpl.
  rewrite IH by (rewrite ?length_insert; lia). f_equal.
  replace (d + (j0 + 1)) with (S (d + j0)) by lia.
  rewrite (take_S_r _ (d + j0) x) by (rewrite list_lookup_insert_eq by lia; done).
  rewrite take_insert_ge by lia. rewrite <- app_assoc. f_equal.
  rewrite (drop_S src x (s + j0)) by done. simpl. f_equal.
  rewrite !drop_insert_lt by lia. f_equal; [f_equal; f_equal; lia|].
  f_equal. lia.
Qed.

Lemma take_app_exact l1 l2 n : n = length l1 → take n (l1 ++ l2) = l1.
Proof. intros ->. apply take_app_length. Qed.

Lemma drop_app_exact l1 l2 n : n = length l1 → drop n (l1 ++ l2) = l2.
Proof. intros ->. apply drop_app_length. Qed.

(** The live part of an array after making room at [pos] and writing [x]. *)
Lemma insert_view pos s x a :
  pos ≤ s → s < length a →
  let r := take (S pos) a ++ take (s - pos) (drop pos a) ++ drop (S (pos + (s - pos))) a in
  take (s + 1) (take pos r ++ x :: drop (S pos) r) = take pos (take s a) ++ x :: drop pos (take s a).
Proof.
  intros Hp Hs r.
  assert (H1 : take pos r = take pos a).
  { unfold r. rewrite take_app_le by (rewrite length_take; lia). rewrite take_take. f_equal. lia. }
  assert (H2 : drop (S pos) r = take (s - pos) (drop pos a) ++ drop (S s) a).
  { unfold r. rewrite drop_app_exact by (rewrite length_take; lia).
    by replace (pos + (s - pos)) with s by lia. }
  rewrite H1, H2. rewrite take_app_ge by (rewrite length_take; lia).
  rewrite length_take, Nat.min_l, take_take, Nat.min_l by lia. f_equal.
  replace (s + 1 - pos) with (S (s - pos)) by lia. simpl. f_equal.
  rewrite take_app_exact by (simpl_len; lia).
  rewrite take_drop_commute. f_equal. f_equal. lia.
Qed.

End arrays.

(** * Two arrays moved by one loop

    The loops over an inner node move [key_[i]] and [child_rep_[i]] in the same
    iteration. On arrays of equal length they act on the array of pairs. *)
Definition both {A B} (f : nat → list A → option (list A)) (g : nat → list B → option (list B))
    (i : nat) (s : list A * list B) : option (list A * list B) :=
  a ← f i s.1; b ← g i s.2; Some (a, b).

Section pairs.
Context {A B : Type}.
Implicit Types (a : list A) (b : list B) (f : nat → list A → option (list A))
  (g : nat → list B → option (list B)).

Lemma for_up_both f g i n a b a' b' :
  for_up i n f a = Some a' → for_up i n g b = Some b' →
  for_up i n (both f g) (a, b) = Some (a', b').
Proof.
  revert i a b. induction n as [|n IH]; intros i a b Ha Hb; simpl in *; [congruence|].
  unfold both at 2. simpl.
  destruct (f i a) as [a1|]; [|done]. destruct (g i b) as [b1|]; [|done]. simpl in *. auto.
Qed.

Lemma for_down_both f g i n a b a' b' :
  for_down i n f a = Some a' → for_down i n g b = Some b' →
  for_down i n (both f g) (a, b) = Some (a', b').
Proof.
  revert a b. induction n as [|n IH]; intros a b Ha Hb; simpl in *; [congruence|].
  unfold both at 2. simpl.
  destruct (f (i + n) a) as [a1|]; [|done]. destruct (g (i + n) b) as [b1|]; [|done].
  simpl in *. auto.
Qed.

Definition same_shape a b (p : list A * list B) (z : list (A * B)) : Prop :=
  length p.1 = length a ∧ length p.2 = length b ∧ zip p.1 p.2 = z.

Ltac zip_solve :=
  repeat first
    [ rewrite zip_with_app by (simpl_len; lia)
    | rewrite zip_with_take | rewrite zip_with_drop ]; try done.

Lemma both_move_right i n a b :
  length a = length b → i + n < length a →
  ∃ p, for_down i n (both move_right move_right) (a, b) = Some p ∧
    same_shape a b p (take (S i) (zip a b) ++ take n (drop i (zip a b)) ++
                      drop (S (i + n)) (zip a b)).
Proof.
  intros Hl Hi. eexists. split.
  { apply for_down_both; apply for_down_move_right; lia. }
  unfold same_shape. simpl. split_and!; [simpl_len; lia..|]. zip_solve.
Qed.

Lemma both_move_left i n a b :
  length a = length b → i + n < length a →
  ∃ p, for_up i n (both move_left move_left) (a, b) = Some p ∧
    same_shape a b p (take i (zip a b) ++ take n (drop (S i) (zip a b)) ++
                      drop (i + n) (zip a b)).
Proof.
  intros Hl Hi. eexists. split.
  { apply for_up_both; apply for_up_move_left; lia. }
  unfold same_shape. simpl. split_and!; [simpl_len; lia..|]. zip_solve.
Qed.

Lemma both_copy sa sb s d n a b :
  length a = length b → length sa = length sb → s + n ≤ length sa → d + n ≤ length a →
  ∃ p, for_up 0 n (both (copy_from sa s d) (copy_from sb s d)) (a, b) = Some p ∧
    same_shape a b p (take d (zip a b) ++ take n (drop s (zip sa sb)) ++
                      drop (d + n) (zip a b)).
Proof.
  intros Hl Hls Hs Hd. eexists. split.
  { apply for_up_both; apply for_up_copy; lia. }
  unfold same_shape. simpl. rewrite !Nat.add_0_r.
  split_and!; [simpl_len; lia..|]. zip_solve.
Qed.

Lemma both_aset i x y a b :
  length a = length b → i < length a →
  ∃ a' b', aset i x a = Some a' ∧ aset i y b = Some b' ∧
    same_shape a b (a', b') (take i (zip a b) ++ (x, y) :: drop (S i) (zip a b)).
Proof.
  intros Hl Hi. eexists _, _. split; [by apply aset_Some|].
  split; [apply aset_Some; lia|]. unfold same_shape. simpl.
  split_and!; [simpl_len; lia..|].
  rewrite zip_with_app by (simpl_len; lia). simpl. zip_solve.
Qed.

End pairs.

Lemma keys_zip {A B} (a : list A) (b : list B) : length a = length b → fst <$> zip a b = a.
Proof. intros H. apply fst_zip. lia. Qed.

Lemma filter_none {A} (P : A → Prop) `{!∀ x, Decision (P x)} (l : list A) :
  (∀ x, x ∈ l → ¬ P x) → filter P l = [].
Proof.
  induction l as [|a l IH]; intros Hn; [done|]. rewrite filter_cons, decide_False.
  - apply IH. intros x Hx. apply Hn. by constructor.
  - apply Hn. constructor.
Qed.
