(* ===== verification/KV.v ===== *)
(** Sorted lists of keys and of key/value pairs: the abstract contents of a
    node and of a whole tree, and the specification of insertion, deletion and
    lookup that the node and tree operations are proved to implement. *)
From Stdlib Require Import ZArith Lia.
From stdpp Require Import base list gmap sorting numbers.
From S2P Require Import Prelude.

Declare Scope kv_scope.
Delimit Scope kv_scope with kv.

Abbreviation kv := (list (Z * Z)).
Abbreviation keys l := (fmap (M := list) fst l).

(** Keys in strictly increasing order. *)
Definition ksorted (ks : list Z) : Prop := StronglySorted Z.lt ks.

#[global] Instance ksorted_dec ks : Decision (ksorted ks).
Proof. unfold ksorted. apply _. Defined.

(** Number of keys smaller than [k]: the linear scan that the comments of
    [search_key_position] keep as the reference of the binary search. *)
Fixpoint lower_bound (k : Z) (ks : list Z) : nat :=
  match ks with
  | [] => 0
  | x :: ks' => if (x <? k)%Z then S (lower_bound k ks') else 0
  end.

Fixpoint kv_insert (k v : Z) (l : kv) : kv :=
  match l with
  | [] => [(k, v)]
  | (x, y) :: l' =>
      if (x <? k)%Z then (x, y) :: kv_insert k v l'
      else if (x =? k)%Z then (k, v) :: l'
      else (k, v) :: (x, y) :: l'
  end.

Fixpoint kv_delete (k : Z) (l : kv) : kv :=
  match l with
  | [] => []
  | (x, y) :: l' => if (x =? k)%Z then l' else (x, y) :: kv_delete k l'
  end.

Fixpoint kv_find (k : Z) (l : kv) : option Z :=
  match l with
  | [] => None
  | (x, y) :: l' => if (x =? k)%Z then Some y else kv_find k l'
  end.

(** The entries from the first key not below [lo] up to and including [hi]. *)
Definition kv_range (lo hi : Z) (l : kv) : kv :=
  filter (λ e, (lo ≤ e.1 ∧ e.1 ≤ hi)%Z) l.

(** Half-open key intervals with optional bounds. *)
Definition above (lo : option Z) (k : Z) : Prop :=
  match lo with None => True | Some l => (l ≤ k)%Z end.
Definition below (hi : option Z) (k : Z) : Prop :=
  match hi with None => True | Some h => (k < h)%Z end.
Definition within (lo hi : option Z) (k : Z) : Prop := above lo k ∧ below hi k.

(** ** Sorted lists *)
Lemma ksorted_nil : ksorted [].
Proof. constructor. Qed.

Lemma ksorted_cons x ks : ksorted (x :: ks) ↔ Forall (Z.lt x) ks ∧ ksorted ks.
Proof. apply StronglySorted_cons. Qed.

Lemma ksorted_app l1 l2 :
  ksorted (l1 ++ l2) ↔ ksorted l1 ∧ ksorted l2 ∧ (∀ x y, x ∈ l1 → y ∈ l2 → (x < y)%Z).
Proof.
  unfold ksorted. induction l1 as [|a l1 IH]; simpl.
  - split; [intros H; repeat split; [constructor|done|set_solver]|tauto].
  - rewrite !StronglySorted_cons, IH, Forall_app, !list.Forall_forall.
    setoid_rewrite elem_of_cons. split.
    + intros [[H1 H2] (H3 & H4 & H5)]. repeat split; try done.
      intros x y [->|Hx] Hy; [by apply H2|by apply H5].
    + intros ([H1 H2] & H3 & H4). repeat split; auto.
Qed.

Lemma ksorted_lookup ks i j x y :
  ksorted ks → ks !! i = Some x → ks !! j = Some y → i < j → (x < y)%Z.
Proof.
  intros Hs Hi Hj Hij. rewrite <- (take_drop j ks) in Hs.
  apply ksorted_app in Hs as (_ & _ & H). apply H.
  - apply list_elem_of_lookup. exists i. by rewrite lookup_take_lt.
  - apply list_elem_of_lookup. exists 0. by rewrite lookup_drop, Nat.add_0_r.
Qed.

Lemma ksorted_lookup_le ks i j x y :
  ksorted ks → ks !! i = Some x → ks !! j = Some y → i ≤ j → (x ≤ y)%Z.
Proof.
  intros Hs Hi Hj Hij. destruct (decide (i = j)) as [->|Hne].
  - simplify_eq. lia.
  - assert (x < y)%Z; [|lia]. eapply ksorted_lookup; eauto. lia.
Qed.

Lemma ksorted_take n ks : ksorted ks → ksorted (take n ks).
Proof. rewrite <- (take_drop n ks) at 1. rewrite ksorted_app. tauto. Qed.

Lemma ksorted_drop n ks : ksorted ks → ksorted (drop n ks).
Proof. rewrite <- (take_drop n ks) at 1. rewrite ksorted_app. tauto. Qed.

(** ** lower_bound *)
Lemma lower_bound_le k ks : lower_bound k ks ≤ length ks.
Proof. induction ks as [|x ks IH]; simpl; [lia|]. destruct (x <? k)%Z; lia. Qed.

Lemma lower_bound_below k ks i x :
  ks !! i = Some x → i < lower_bound k ks → (x < k)%Z.
Proof.
  revert i. induction ks as [|y ks IH]; intros [|i] Hi Hlt; simpl in *; try done.
  - simplify_eq. destruct (Z.ltb_spec x k); [done|lia].
  - destruct (Z.ltb_spec y k); [|lia]. eapply IH; [done|lia].
Qed.

Lemma lower_bound_above k ks i x :
  ksorted ks → ks !! i = Some x → lower_bound k ks ≤ i → (k ≤ x)%Z.
Proof.
  revert i. induction ks as [|y ks IH]; intros i Hs Hi Hle; [done|].
  apply ksorted_cons in Hs as [Hall Hs]. simpl in Hle.
  destruct (Z.ltb_spec y k).
  - destruct i as [|i]; [lia|]. eapply IH; [done|done|lia].
  - destruct i as [|i]; simpl in Hi; [simplify_eq; lia|].
    rewrite Forall_lookup in Hall. apply Hall in Hi. lia.
Qed.

(** The position is determined by what is below and what is not. *)
Lemma lower_bound_unique k ks n :
  n ≤ length ks →
  (∀ i x, ks !! i = Some x → i < n → (x < k)%Z) →
  (∀ i x, ks !! i = Some x → n ≤ i → (k ≤ x)%Z) →
  lower_bound k ks = n.
Proof.
  revert n. induction ks as [|y ks IH]; intros n Hn Hlo Hhi; simpl in *; [lia|].
  destruct n as [|n].
  - pose proof (Hhi 0 y eq_refl ltac:(lia)). destruct (Z.ltb_spec y k); [lia|done].
  - pose proof (Hlo 0 y eq_refl ltac:(lia)). destruct (Z.ltb_spec y k); [|lia].
    f_equal. apply IH; [lia| |].
    + intros i x Hi Hl. apply (Hlo (S i)); [done|lia].
    + intros i x Hi Hl. apply (Hhi (S i)); [done|lia].
Qed.

Lemma lower_bound_found k ks :
  ksorted ks → k ∈ ks → ks !! lower_bound k ks = Some k.
Proof.
  intros Hs Hin. apply list_elem_of_lookup in Hin as [i Hi].
  assert (lower_bound k ks = i) as ->; [|done].
  apply lower_bound_unique.
  - apply lookup_lt_Some in Hi. lia.
  - intros j x Hj Hlt. eapply ksorted_lookup; eauto.
  - intros j x Hj Hle. eapply ksorted_lookup_le; eauto.
Qed.

Lemma lower_bound_missing k ks i x :
  ksorted ks → k ∉ ks → ks !! i = Some x → lower_bound k ks ≤ i → (k < x)%Z.
Proof.
  intros Hs Hin Hi Hle. pose proof (lower_bound_above k ks i x Hs Hi Hle).
  assert (x ≠ k); [|lia]. intros ->. apply Hin. apply list_elem_of_lookup. eauto.
Qed.

(** ** Insertion, deletion, lookup *)
Lemma kvsorted_cons x (l : kv) :
  ksorted (x :: keys l) ↔ (∀ z, z ∈ keys l → (x < z)%Z) ∧ ksorted (keys l).
Proof. rewrite ksorted_cons, list.Forall_forall. done. Qed.

Lemma kv_insert_split k v l :
  ksorted (keys l) →
  kv_insert k v l =
    let i := lower_bound k (keys l) in
    take i l ++ (k, v) :: drop (if bool_decide (k ∈ keys l) then S i else i) l.
Proof.
  induction l as [|[x y] l IH]; intros Hs; simpl; [done|].
  apply kvsorted_cons in Hs as [Hall Hs]; simpl in Hall.
  destruct (Z.ltb_spec x k) as [Hlt|Hge]; simpl.
  - rewrite IH by done. simpl.
    case_bool_decide as H1; case_bool_decide as H2; try done; exfalso.
    + apply H2. by constructor.
    + apply elem_of_cons in H2 as [?|?]; [lia|done].
  - destruct (Z.eqb_spec x k) as [->|Hne].
    + rewrite bool_decide_true by (constructor). done.
    + rewrite bool_decide_false; [done|]. rewrite elem_of_cons. intros [Hk|Hin]; [simpl in Hk; lia|].
      apply Hall in Hin. simpl in *. lia.
Qed.

Lemma kv_delete_split k l :
  ksorted (keys l) → k ∈ keys l →
  kv_delete k l = take (lower_bound k (keys l)) l ++ drop (S (lower_bound k (keys l))) l.
Proof.
  induction l as [|[x y] l IH]; intros Hs Hin; simpl; [done|].
  apply kvsorted_cons in Hs as [Hall Hs]; simpl in Hall. simpl in Hin. apply elem_of_cons in Hin.
  destruct (Z.eqb_spec x k) as [->|Hne].
  - rewrite Z.ltb_irrefl. done.
  - destruct Hin as [?|Hin]; [lia|].
    specialize (Hall _ Hin). destruct (Z.ltb_spec x k); [|lia]. simpl.
    f_equal. by apply IH.
Qed.

Lemma kv_delete_missing k l : k ∉ keys l → kv_delete k l = l.
Proof.
  induction l as [|[x y] l IH]; intros Hin; simpl in *; [done|].
  apply not_elem_of_cons in Hin as [? ?]. destruct (Z.eqb_spec x k); [lia|].
  f_equal. auto.
Qed.

Lemma kv_find_missing k l : k ∉ keys l → kv_find k l = None.
Proof.
  induction l as [|[x y] l IH]; intros Hin; simpl in *; [done|].
  apply not_elem_of_cons in Hin as [? ?]. destruct (Z.eqb_spec x k); [lia|auto].
Qed.

Lemma kv_find_lookup k l i v :
  ksorted (keys l) → l !! i = Some (k, v) → kv_find k l = Some v.
Proof.
  revert i. induction l as [|[x y] l IH]; intros i Hs Hi; simpl in *; [done|].
  apply kvsorted_cons in Hs as [Hall Hs]; simpl in Hall. destruct i as [|i]; simplify_eq/=.
  - by rewrite Z.eqb_refl.
  - destruct (Z.eqb_spec x k) as [->|]; [|by apply (IH i)].
    exfalso. apply (Z.lt_irrefl k), Hall.
    apply list_elem_of_fmap. exists (k, v). split; [done|].
    apply list_elem_of_lookup. by exists i.
Qed.

Lemma elem_of_kv_insert k v l x : x ∈ keys (kv_insert k v l) ↔ x = k ∨ x ∈ keys l.
Proof.
  induction l as [|[a b] l IH]; simpl; [set_solver|].
  destruct (a <? k)%Z; simpl; [rewrite !elem_of_cons, IH; tauto|].
  destruct (Z.eqb_spec a k) as [->|]; simpl; rewrite !elem_of_cons; tauto.
Qed.

Lemma kv_insert_sorted k v l : ksorted (keys l) → ksorted (keys (kv_insert k v l)).
Proof.
  induction l as [|[x y] l IH]; intros Hs; simpl.
  { apply ksorted_cons. split; constructor. }
  apply kvsorted_cons in Hs as [Hall Hs]; simpl in Hall.
  destruct (Z.ltb_spec x k); simpl.
  - apply kvsorted_cons. split; [|auto]. intros z.
    rewrite elem_of_kv_insert. intros [->|?]; [done|auto].
  - destruct (Z.eqb_spec x k) as [->|]; simpl; [by apply kvsorted_cons|].
    apply (kvsorted_cons k ((x, y) :: l)). split; [|by apply kvsorted_cons].
    intros z Hz. apply elem_of_cons in Hz as [->|Hz]; simpl in *; [lia|].
    apply Hall in Hz. lia.
Qed.

Lemma elem_of_kv_delete k l x : x ∈ keys (kv_delete k l) → x ∈ keys l.
Proof.
  induction l as [|[a b] l IH]; simpl; [done|].
  destruct (a =? k)%Z; simpl; rewrite ?elem_of_cons; intuition.
Qed.

Lemma kv_delete_sorted k l : ksorted (keys l) → ksorted (keys (kv_delete k l)).
Proof.
  induction l as [|[x y] l IH]; intros Hs; simpl; [done|].
  apply kvsorted_cons in Hs as [Hall Hs]; simpl in Hall.
  destruct (x =? k)%Z; simpl; [done|]. apply kvsorted_cons. split; [|auto].
  intros z Hz. apply Hall. by eapply elem_of_kv_delete.
Qed.

(** Locality: an operation on a concatenation happens in the part that owns
    the key. *)
Lemma kv_insert_app_l k v l1 l2 :
  (∀ x, x ∈ keys l2 → (k < x)%Z) →
  kv_insert k v (l1 ++ l2) = kv_insert k v l1 ++ l2.
Proof.
  intros Hr. induction l1 as [|[x y] l1 IH]; simpl.
  - destruct l2 as [|[a b] l2]; simpl; [done|].
    assert (k < a)%Z by (apply Hr; simpl; constructor).
    destruct (Z.ltb_spec a k); [lia|]. destruct (Z.eqb_spec a k); [lia|done].
  - destruct (x <? k)%Z; [by rewrite IH|]. by destruct (x =? k)%Z.
Qed.

Lemma kv_insert_app_r k v l1 l2 :
  (∀ x, x ∈ keys l1 → (x < k)%Z) →
  kv_insert k v (l1 ++ l2) = l1 ++ kv_insert k v l2.
Proof.
  induction l1 as [|[x y] l1 IH]; intros Hl; simpl; [done|].
  assert (x < k)%Z by (apply Hl; simpl; constructor).
  destruct (Z.ltb_spec x k); [|lia]. f_equal. apply IH.
  intros z Hz. apply Hl. simpl. by constructor.
Qed.

Lemma kv_delete_app_l k l1 l2 :
  k ∉ keys l2 → kv_delete k (l1 ++ l2) = kv_delete k l1 ++ l2.
Proof.
  intros Hr. induction l1 as [|[x y] l1 IH]; simpl; [by apply kv_delete_missing|].
  destruct (x =? k)%Z; [done|]. simpl. by rewrite IH.
Qed.

Lemma kv_delete_app_r k l1 l2 :
  k ∉ keys l1 → kv_delete k (l1 ++ l2) = l1 ++ kv_delete k l2.
Proof.
  induction l1 as [|[x y] l1 IH]; intros Hl; simpl in *; [done|].
  apply not_elem_of_cons in Hl as [? ?]. destruct (Z.eqb_spec x k); [lia|].
  f_equal. auto.
Qed.

Lemma kv_find_app k l1 l2 :
  kv_find k (l1 ++ l2) = match kv_find k l1 with Some v => Some v | None => kv_find k l2 end.
Proof. induction l1 as [|[x y] l1 IH]; simpl; [done|]. by destruct (x =? k)%Z. Qed.

(** ** The finite map of a sorted list *)
Definition kv_map (l : kv) : gmap Z Z := list_to_map l.

Lemma kv_map_lookup l k : kv_map l !! k = kv_find k l.
Proof.
  unfold kv_map. induction l as [|[x y] l IH]; simpl; [by rewrite lookup_empty|].
  destruct (Z.eqb_spec x k) as [->|].
  - by rewrite lookup_insert_eq.
  - by rewrite lookup_insert_ne.
Qed.

Lemma kv_find_insert k v l k' :
  ksorted (keys l) →
  kv_find k' (kv_insert k v l) = if decide (k = k') then Some v else kv_find k' l.
Proof.
  induction l as [|[x y] l IH]; intros Hs; simpl.
  { destruct (Z.eqb_spec k k'); case_decide; try done. }
  apply kvsorted_cons in Hs as [Hall Hs]; simpl in Hall.
  destruct (Z.ltb_spec x k); simpl.
  - rewrite IH by done. destruct (Z.eqb_spec x k'); [|done].
    case_decide; [lia|done].
  - destruct (Z.eqb_spec x k) as [->|]; simpl.
    + destruct (Z.eqb_spec k k'); case_decide; done.
    + destruct (Z.eqb_spec k k'); case_decide; done.
Qed.

Lemma kv_find_delete k l k' :
  ksorted (keys l) →
  kv_find k' (kv_delete k l) = if decide (k = k') then None else kv_find k' l.
Proof.
  induction l as [|[x y] l IH]; intros Hs; simpl; [by case_decide|].
  apply kvsorted_cons in Hs as [Hall Hs]; simpl in Hall.
  destruct (Z.eqb_spec x k) as [->|]; simpl.
  - case_decide as Hd; [subst k'|by destruct (Z.eqb_spec k k')].
    apply kv_find_missing. intros Hin.
    by apply (Z.lt_irrefl k), Hall.
  - rewrite IH by done. destruct (Z.eqb_spec x k'); [|done]. case_decide; [lia|done].
Qed.

Lemma kv_map_insert k v l :
  ksorted (keys l) → kv_map (kv_insert k v l) = <[k := v]> (kv_map l).
Proof.
  intros Hs. apply map_eq. intros k'. rewrite kv_map_lookup, kv_find_insert by done.
  rewrite lookup_insert, kv_map_lookup. done.
Qed.

Lemma kv_map_delete k l :
  ksorted (keys l) → kv_map (kv_delete k l) = delete k (kv_map l).
Proof.
  intros Hs. apply map_eq. intros k'. rewrite kv_map_lookup, kv_find_delete by done.
  rewrite lookup_delete, kv_map_lookup. done.
Qed.

#[export] Hint Resolve ksorted_take ksorted_drop kv_insert_sorted kv_delete_sorted ksorted_nil : nvm.
