(* ===== verification/Leaf.v ===== *)
(** The leaf node of the B+-tree (src/src/tree/leaf_node.h): a fixed array of
    CAPACITY entries of which the first [size_] are live and sorted by key. *)
From Stdlib Require Import ZArith Lia.
From stdpp Require Import base list gmap sorting numbers.
From S2P Require Import Prelude KV.

(** UNDERFLOW_BOUND of node.h. *)
Definition UNDERFLOW_BOUND (N : nat) : nat := (N + 1) / 2.

Lemma UNDERFLOW_BOUND_merge N a b :
  a < UNDERFLOW_BOUND N → b ≤ UNDERFLOW_BOUND N → a + b ≤ N.
Proof.
  unfold UNDERFLOW_BOUND. intros Ha Hb.
  pose proof (Nat.div_mod_eq (N + 1) 2). pose proof (Nat.mod_upper_bound (N + 1) 2). lia.
Qed.

Lemma UNDERFLOW_BOUND_le N : 1 ≤ N → 1 ≤ UNDERFLOW_BOUND N ≤ N.
Proof.
  unfold UNDERFLOW_BOUND. intros H.
  pose proof (Nat.div_mod_eq (N + 1) 2). pose proof (Nat.mod_upper_bound (N + 1) 2). lia.
Qed.

Lemma UNDERFLOW_BOUND_two N : 3 ≤ N → 2 ≤ UNDERFLOW_BOUND N.
Proof. intros HN. unfold UNDERFLOW_BOUND. apply Nat.div_le_lower_bound; lia. Qed.

Module LeafNode.

Record LeafNode := mk {
  entries_ : list (Z * Z);
  size_ : nat;
  right_sibling_ : Z;
  self_rep_ : Z;
  modified_ : bool }.

Definition with_entries (n : LeafNode) (e : list (Z * Z)) (s : nat) : LeafNode :=
  mk e s (right_sibling_ n) (self_rep_ n) (modified_ n).

Definition mark_modified (n : LeafNode) : LeafNode :=
  mk (entries_ n) (size_ n) (right_sibling_ n) (self_rep_ n) true.

Section leaf.
Context (CAPACITY : nat).

(** A new node: the entries array is not initialised, [junk] is what it holds. *)
Definition create (junk : list (Z * Z)) (rep : Z) : LeafNode :=
  mk junk 0 (-1) rep false.

(** The binary search of [search_key_position]; [l] and [r] are C ints, [r] may
    be -1. *)
Fixpoint search_loop (fuel : nat) (e : list (Z * Z)) (key l r : Z) : option (bool * nat) :=
  match fuel with
  | 0 => None
  | S fuel' =>
      if (l <=? r)%Z then
        let m := Z.shiftr (l + r) 1 in
        x ← e !! Z.to_nat m;
        if (x.1 <? key)%Z then search_loop fuel' e key (m + 1) r
        else if (x.1 =? key)%Z then Some (true, Z.to_nat m)
        else search_loop fuel' e key l (m - 1)
      else Some (false, Z.to_nat l)
  end.

Definition search_key_position (n : LeafNode) (key : Z) : option (bool * nat) :=
  search_loop (S (size_ n)) (entries_ n) key 0 (Z.of_nat (size_ n) - 1).

(** [entries_[i].val = val]. *)
Definition set_val (i : nat) (val : Z) (e : list (Z * Z)) : option (list (Z * Z)) :=
  x ← e !! i; aset i (x.1, val) e.

Definition insert_at (pos : nat) (key val : Z) (n : LeafNode) : option LeafNode :=
  e ← for_down pos (size_ n - pos) move_right (entries_ n);
  e ← aset pos (key, val) e;
  Some (with_entries n e (size_ n + 1)).

Definition insert (key val : Z) (n : LeafNode) : option (bool * LeafNode) :=
  let n := mark_modified n in
  '(found, pos) ← search_key_position n key;
  if (found : bool) then
    e ← set_val pos val (entries_ n); Some (true, with_entries n e (size_ n))
  else if CAPACITY <=? size_ n then Some (false, n)
  else n' ← insert_at pos key val n; Some (true, n').

(** [rrep] is the representation the block accessor allocates for the new
    right node and [junk] the uninitialised array of that node. The result is
    the node itself and, if it was split, the right node with the boundary
    key. *)
Definition insert_with_split_support (rrep : Z) (junk : list (Z * Z)) (key val : Z)
    (n : LeafNode) : option (LeafNode * option (LeafNode * Z)) :=
  let n := mark_modified n in
  '(found, pos) ← search_key_position n key;
  if (found : bool) then
    e ← set_val pos val (entries_ n); Some (with_entries n e (size_ n), None)
  else if size_ n <? CAPACITY then
    n' ← insert_at pos key val n; Some (n', None)
  else
    let insert_to_first_half := pos <? CAPACITY / 2 in
    let entry_index_for_right_node := CAPACITY / 2 in
    let right := mark_modified (create junk rrep) in
    re ← for_up 0 (CAPACITY - entry_index_for_right_node)
           (copy_from (entries_ n) entry_index_for_right_node 0) (entries_ right);
    let moved := CAPACITY - entry_index_for_right_node in
    let right := mk re moved (right_sibling_ n) (self_rep_ right) (modified_ right) in
    let left := mk (entries_ n) (size_ n - moved) (self_rep_ right) (self_rep_ n) (modified_ n) in
    '(left, right) ←
      (if insert_to_first_half
       then '(_, l) ← insert key val left; Some (l, right)
       else '(_, r) ← insert key val right; Some (left, r));
    b ← entries_ right !! 0;
    Some (left, Some (right, b.1)).

Definition search (k : Z) (n : LeafNode) : option (option Z) :=
  '(found, pos) ← search_key_position n k;
  if (found : bool) then e ← entries_ n !! pos; Some (Some e.2) else Some None.

(** [update] changes the value in place (and does not mark the node modified). *)
Definition update (k v : Z) (n : LeafNode) : option (bool * LeafNode) :=
  '(found, pos) ← search_key_position n k;
  if (found : bool) then
    e ← set_val pos v (entries_ n); Some (true, with_entries n e (size_ n))
  else Some (false, n).

(** [underflow] is a reference parameter: it keeps its value when the key is
    not found. *)
Definition delete_key (k : Z) (underflow : bool) (n : LeafNode) : option (bool * bool * LeafNode) :=
  '(found, pos) ← search_key_position n k;
  if (found : bool) then
    let n := mark_modified n in
    e ← for_up pos (size_ n - 1 - pos) move_left (entries_ n);
    let n := with_entries n e (size_ n - 1) in
    Some (true, size_ n <? (CAPACITY + 1) / 2, n)
  else Some (false, underflow, n).

(** The result: whether the nodes were merged, the new boundary if not, and
    both nodes. *)
Definition balance (n right : LeafNode) : option (bool * option Z * LeafNode * LeafNode) :=
  let n := mark_modified n in
  let right := mark_modified right in
  let underflow_bound := UNDERFLOW_BOUND CAPACITY in
  if (size_ n <? underflow_bound) && (underflow_bound <? size_ right) then
    x ← entries_ right !! 0;
    e ← aset (size_ n) x (entries_ n);
    re ← for_up 0 (size_ right - 1) move_left (entries_ right);
    b ← re !! 0;
    Some (false, Some b.1, with_entries n e (size_ n + 1),
          with_entries right re (size_ right - 1))
  else if (size_ right <? underflow_bound) && (underflow_bound <? size_ n) then
    re ← for_down 0 (size_ right) move_right (entries_ right);
    x ← entries_ n !! (size_ n - 1);
    re ← aset 0 x re;
    b ← re !! 0;
    Some (false, Some b.1, with_entries n (entries_ n) (size_ n - 1),
          with_entries right re (size_ right + 1))
  else
    e ← for_up 0 (size_ right) (copy_from (entries_ right) 0 (size_ n)) (entries_ n);
    Some (true, None,
          mk e (size_ n + size_ right) (right_sibling_ right) (self_rep_ n) (modified_ n),
          with_entries right (entries_ right) 0).

Definition getEntry (i : nat) (n : LeafNode) : option (option (Z * Z)) :=
  if size_ n <=? i then Some None
  else e ← entries_ n !! i; Some (Some e).

Definition get_leftmost_key (n : LeafNode) : option Z := e ← entries_ n !! 0; Some e.1.

(** The live entries, and the well-formedness of a node. *)
Definition live (n : LeafNode) : kv := take (size_ n) (entries_ n).

Definition wf (n : LeafNode) : Prop :=
  length (entries_ n) = CAPACITY ∧ size_ n ≤ CAPACITY ∧ ksorted (keys (live n)).

(** ** Search *)
Lemma lookup_live n i e :
  i < size_ n → entries_ n !! i = Some e → live n !! i = Some e.
Proof. intros Hi He. unfold live. by rewrite lookup_take_lt. Qed.

Lemma live_lookup n i e : live n !! i = Some e → i < size_ n ∧ entries_ n !! i = Some e.
Proof. unfold live. rewrite lookup_take_Some. tauto. Qed.

Lemma length_live n : wf n → length (live n) = size_ n.
Proof. intros (H1 & H2 & _). unfold live. rewrite length_take. lia. Qed.

(** The binary search returns the position the linear scan finds, within
    [size_] + 1 iterations. *)
Lemma search_loop_spec fuel e s key l r :
  let ks := keys (take s e) in
  ksorted ks → s ≤ length e →
  (0 ≤ l ≤ r + 1)%Z → (r < Z.of_nat s)%Z →
  (∀ i x, ks !! i = Some x → (Z.of_nat i < l)%Z → (x < key)%Z) →
  (∀ i x, ks !! i = Some x → (r < Z.of_nat i)%Z → (key < x)%Z) →
  (r - l + 1 < Z.of_nat fuel)%Z →
  search_loop fuel e key l r = Some (bool_decide (key ∈ ks), lower_bound key ks).
Proof.
  intros ks Hs Hse. revert l r. induction fuel as [|fuel IH]; intros l r Hl Hr Hlo Hhi Hf; [lia|].
  simpl. destruct (Z.leb_spec l r) as [Hle|Hgt].
  - rewrite Z.shiftr_div_pow2 by lia. change (2 ^ 1)%Z with 2%Z.
    pose proof (Z.div_mod (l + r) 2 ltac:(lia)). pose proof (Z.mod_pos_bound (l + r) 2 ltac:(lia)).
    set (m := ((l + r) / 2)%Z) in *.
    destruct (lookup_lt_exists e (Z.to_nat m)) as [x Hx]; [lia|]. rewrite Hx. simpl.
    assert (Hk : ks !! Z.to_nat m = Some x.1).
    { unfold ks. rewrite list_lookup_fmap, lookup_take_lt by lia. by rewrite Hx. }
    destruct (Z.ltb_spec x.1 key).
    + apply IH; try lia; try done. intros i y Hi Hlt.
      destruct (decide (i = Z.to_nat m)) as [->|]; [congruence|].
      assert (y < x.1)%Z; [|lia]. eapply (ksorted_lookup ks i); eauto. lia.
    + destruct (Z.eqb_spec x.1 key) as [Heq|].
      * subst key. rewrite bool_decide_true by (apply list_elem_of_lookup; by exists (Z.to_nat m)).
        f_equal. f_equal. symmetry. apply lower_bound_unique.
        -- apply lookup_lt_Some in Hk. lia.
        -- intros i y Hi Hlt. eapply (ksorted_lookup ks i); eauto.
        -- intros i y Hi Hlt. eapply (ksorted_lookup_le ks (Z.to_nat m)); eauto.
      * apply IH; try lia; try done. intros i y Hi Hlt.
        destruct (decide (i = Z.to_nat m)) as [->|]; [simplify_eq; lia|].
        assert (x.1 < y)%Z; [|lia]. eapply (ksorted_lookup ks (Z.to_nat m)); eauto. lia.
  - assert (Hlen : length ks = s) by (unfold ks; rewrite length_fmap, length_take; lia).
    assert (Hlb : lower_bound key ks = Z.to_nat l).
    { apply lower_bound_unique; [lia| |].
      - intros i x Hi Hlt. apply (Hlo i x Hi). lia.
      - intros i x Hi Hlt. assert (key < x)%Z; [|lia]. apply (Hhi i x Hi). lia. }
    rewrite Hlb. rewrite bool_decide_false; [done|]. intros Hin.
    apply list_elem_of_lookup in Hin as [i Hi].
    destruct (Z.lt_ge_cases (Z.of_nat i) l).
    + specialize (Hlo i key Hi). lia.
    + specialize (Hhi i key Hi). lia.
Qed.

Lemma search_key_position_live n key :
  wf n →
  search_key_position n key =
    Some (bool_decide (key ∈ keys (live n)), lower_bound key (keys (live n))).
Proof.
  intros (Hlen & Hsz & Hs). unfold search_key_position.
  apply search_loop_spec; try done; try lia.
  intros i x Hi Hlt. apply lookup_lt_Some in Hi. rewrite length_fmap, length_take in Hi. lia.
Qed.

(** ** Insertion *)
Lemma insert_at_live pos key val n :
  pos ≤ size_ n → size_ n < length (entries_ n) →
  ∃ n', insert_at pos key val n = Some n' ∧
    length (entries_ n') = length (entries_ n) ∧ size_ n' = size_ n + 1 ∧
    live n' = take pos (live n) ++ (key, val) :: drop pos (live n) ∧
    right_sibling_ n' = right_sibling_ n ∧ self_rep_ n' = self_rep_ n ∧
    modified_ n' = modified_ n.
Proof.
  intros Hp Hs. unfold insert_at.
  rewrite for_down_move_right by lia. simpl.
  rewrite aset_Some by (simpl_len; lia). simpl. eexists. split; [done|]. simpl.
  split_and!; try done; [simpl_len; lia|]. by apply insert_view.
Qed.

Lemma keys_take n (l : kv) : keys (take n l) = take n (keys l).
Proof. apply fmap_take. Qed.

Lemma set_val_live pos v n k y :
  live n !! pos = Some (k, y) →
  ∃ e, set_val pos v (entries_ n) = Some e ∧ length e = length (entries_ n) ∧
    take (size_ n) e = take pos (live n) ++ (k, v) :: drop (S pos) (live n).
Proof.
  intros H. apply live_lookup in H as [Hlt He]. unfold set_val. rewrite He. simpl.
  pose proof (lookup_lt_Some _ _ _ He) as Hl.
  rewrite aset_insert by done. eexists. split; [done|]. rewrite length_insert. split; [done|].
  rewrite <- insert_take_drop by (unfold live; rewrite length_take; lia).
  unfold live. by rewrite take_insert_lt.
Qed.

Lemma kv_at_lower_bound k (l : kv) :
  ksorted (keys l) → k ∈ keys l → ∃ y, l !! lower_bound k (keys l) = Some (k, y).
Proof.
  intros Hs Hin. apply lower_bound_found in Hin as Hk; [|done].
  rewrite list_lookup_fmap in Hk. apply fmap_Some in Hk as ([k' y] & H1 & H2).
  simpl in H2. subst k'. eauto.
Qed.

Lemma insert_live k v n :
  wf n → k ∈ keys (live n) ∨ size_ n < CAPACITY →
  ∃ n', insert k v n = Some (true, n') ∧ wf n' ∧
    live n' = kv_insert k v (live n) ∧
    right_sibling_ n' = right_sibling_ n ∧ self_rep_ n' = self_rep_ n ∧ modified_ n' = true.
Proof.
  intros Hwf Hroom. pose proof Hwf as (Hlen & Hsz & Hs). unfold insert.
  rewrite search_key_position_live by done. simpl.
  change (live (mark_modified n)) with (live n).
  rewrite kv_insert_split by done. simpl.
  case_bool_decide as Hin.
  - destruct (kv_at_lower_bound k (live n)) as [y Hy]; [done..|].
    destruct (set_val_live _ v n k y Hy) as (e & He & Hel & Het).
    change (entries_ (mark_modified n)) with (entries_ n). rewrite He. simpl.
    eexists. split; [done|].
    assert (Hlive : live (with_entries (mark_modified n) e (size_ n)) = kv_insert k v (live n)).
    { rewrite kv_insert_split by done. simpl. rewrite bool_decide_true by done. done. }
    split; [|done]. repeat split; simpl; [lia|lia|]. rewrite Hlive. auto with nvm.
  - destruct Hroom as [?|Hroom]; [done|].
    destruct (Nat.leb_spec CAPACITY (size_ n)); [lia|].
    pose proof (lower_bound_le k (keys (live n))) as Hlb.
    rewrite length_fmap, length_live in Hlb by done.
    destruct (insert_at_live (lower_bound k (keys (live n))) k v (mark_modified n))
      as (n' & Hn' & H1 & H2 & H3 & H4 & H5 & H6); [done|simpl; lia|].
    rewrite Hn'. simpl. exists n'. split; [done|]. simpl in *.
    split; [|done]. repeat split; [lia|lia|]. rewrite H3.
    change (live (mark_modified n)) with (live n).
    pose proof (kv_insert_sorted k v (live n) Hs) as Hks.
    rewrite kv_insert_split in Hks by done. simpl in Hks.
    by rewrite bool_decide_false in Hks.
Qed.

Lemma insert_full k v n :
  wf n → k ∉ keys (live n) → size_ n = CAPACITY →
  insert k v n = Some (false, mark_modified n).
Proof.
  intros Hwf Hin Hf. unfold insert. rewrite search_key_position_live by done. simpl.
  change (live (mark_modified n)) with (live n). rewrite bool_decide_false by done.
  destruct (Nat.leb_spec CAPACITY (size_ n)); [done|lia].
Qed.

Lemma kv_insert_split_at k v (l : kv) i :
  ksorted (keys l) → k ∉ keys l →
  kv_insert k v l =
    if decide (lower_bound k (keys l) < i) then kv_insert k v (take i l) ++ drop i l
    else take i l ++ kv_insert k v (drop i l).
Proof.
  intros Hs Hin. rewrite <- (take_drop i l) at 1. case_decide as Hd.
  - apply kv_insert_app_l. intros x Hx. rewrite fmap_drop in Hx.
    apply list_elem_of_lookup in Hx as [j Hj]. rewrite lookup_drop in Hj.
    eapply lower_bound_missing; [done|done|exact Hj|lia].
  - apply kv_insert_app_r. intros x Hx. rewrite fmap_take in Hx.
    apply list_elem_of_lookup in Hx as [j Hj]. apply lookup_take_Some in Hj as [Hj Hlt].
    eapply lower_bound_below; [exact Hj|lia].
Qed.

(** What [insert_with_split_support] promises to its caller. *)
Definition split_post (rrep k v : Z) (n n' : LeafNode) (r : option (LeafNode * Z)) : Prop :=
  wf n' ∧ self_rep_ n' = self_rep_ n ∧ modified_ n' = true ∧
  match r with
  | None => live n' = kv_insert k v (live n) ∧ right_sibling_ n' = right_sibling_ n ∧
      (k ∈ keys (live n) ∨ size_ n < CAPACITY)
  | Some (rt, b) =>
      wf rt ∧ self_rep_ rt = rrep ∧ modified_ rt = true ∧
      live n' ++ live rt = kv_insert k v (live n) ∧
      right_sibling_ n' = rrep ∧ right_sibling_ rt = right_sibling_ n ∧
      live n' ≠ [] ∧ (∃ y rest, live rt = (b, y) :: rest) ∧
      k ∉ keys (live n) ∧ size_ n = CAPACITY
  end.

Lemma live_head n : wf n → live n ≠ [] →
  ∃ b y rest, entries_ n !! 0 = Some (b, y) ∧ live n = (b, y) :: rest.
Proof.
  intros (Hl & Hs & _) Hne. unfold live in *.
  destruct (entries_ n) as [|[b y] e]; [by rewrite take_nil in Hne|].
  destruct (size_ n) as [|s]; [done|]. simpl. eauto.
Qed.

Lemma insert_nonempty k v (l : kv) : kv_insert k v l ≠ [].
Proof. destruct l as [|[x y] l]; simpl; [done|]. destruct (x <? k)%Z, (x =? k)%Z; done. Qed.

(** The two halves of a full node, before the new entry goes to one of them. *)
Lemma halves (n : LeafNode) :
  2 ≤ CAPACITY → wf n → size_ n = CAPACITY →
  let h := CAPACITY / 2 in
  1 ≤ h < CAPACITY ∧ live n = entries_ n ∧
  length (take h (entries_ n)) = h ∧ length (drop h (entries_ n)) = CAPACITY - h.
Proof.
  intros HC (Hlen & _ & _) Hf h.
  assert (1 ≤ h < CAPACITY).
  { unfold h. split; [apply Nat.div_le_lower_bound; lia|apply Nat.div_lt; lia]. }
  split; [done|]. split; [unfold live; apply take_ge; lia|]. simpl_len. lia.
Qed.

Lemma insert_with_split_live rrep junk k v n :
  2 ≤ CAPACITY → wf n → length junk = CAPACITY →
  ∃ n' r, insert_with_split_support rrep junk k v n = Some (n', r) ∧
    split_post rrep k v n n' r.
Proof.
  intros HC Hwf Hj. pose proof Hwf as (Hlen & Hsz & Hs).
  unfold insert_with_split_support. rewrite search_key_position_live by done. simpl.
  change (live (mark_modified n)) with (live n).
  destruct (decide (k ∈ keys (live n) ∨ size_ n < CAPACITY)) as [Hroom|Hfull].
  { destruct (insert_live k v n Hwf Hroom) as (n' & Hins & H1 & H2 & H3 & H4 & H5).
    exists n', None. split; [|split_and!; try done].
    unfold insert in Hins. rewrite search_key_position_live in Hins by done. simpl in *.
    change (live (mark_modified n)) with (live n) in Hins.
    case_bool_decide as Hin.
    - destruct (set_val _ _ _); simplify_eq/=. done.
    - destruct (Nat.leb_spec CAPACITY (size_ n)); [simplify_eq|].
      destruct (Nat.ltb_spec (size_ n) CAPACITY); [|lia].
      destruct (insert_at _ _ _ _); simplify_eq/=. done. }
  assert (Hin : k ∉ keys (live n)) by tauto.
  assert (Hf : size_ n = CAPACITY) by (assert (¬ size_ n < CAPACITY) by tauto; lia).
  rewrite bool_decide_false by done.
  destruct (Nat.ltb_spec (size_ n) CAPACITY); [lia|].
  destruct (halves n HC Hwf Hf) as (Hh & Hlv & Hh1 & Hh2). set (h := CAPACITY / 2) in *.
  rewrite for_up_copy by (simpl; lia). simpl. rewrite !Nat.add_0_r.
  rewrite (take_ge (drop h _)) by lia.
  set (rt := mk (drop h (entries_ n) ++ drop (CAPACITY - h) junk) (CAPACITY - h)
               (right_sibling_ n) rrep true).
  set (lt := mk (entries_ n) (size_ n - (CAPACITY - h)) rrep (self_rep_ n) true).
  assert (Hll : live lt = take h (live n)).
  { rewrite Hlv. unfold live, lt. simpl. f_equal. lia. }
  assert (Hlr : live rt = drop h (live n)).
  { rewrite Hlv. unfold live, rt. simpl. apply take_app_exact. lia. }
  assert (Hwl : wf lt).
  { split_and!; simpl; [done|lia|]. rewrite Hll, fmap_take. auto with nvm. }
  assert (Hwr : wf rt).
  { split_and!; simpl; [simpl_len; lia|lia|]. rewrite Hlr, fmap_drop. auto with nvm. }
  pose proof (kv_insert_split_at k v (live n) h Hs Hin) as Hspl.
  destruct (Nat.ltb_spec (lower_bound k (keys (live n))) h) as [Hlt|Hge].
  - rewrite decide_True in Hspl by done.
    destruct (insert_live k v lt Hwl) as (l' & Hl' & H1 & H2 & H3 & H4 & H5);
      [right; simpl; lia|].
    rewrite Hl'. simpl.
    destruct (live_head rt Hwr) as (b & y & rest & Hb & Hrest).
    { rewrite Hlr, Hlv. intros E. rewrite E in Hh2. simpl in Hh2. lia. }
    simpl in Hb. rewrite Hb. simpl. eexists l', (Some (rt, b)). split; [done|].
    split_and!; try done.
    + rewrite H2, Hll, Hlr. done.
    + rewrite H2. apply insert_nonempty.
    + by exists y, rest.
  - rewrite decide_False in Hspl by lia.
    destruct (insert_live k v rt Hwr) as (r' & Hr' & H1 & H2 & H3 & H4 & H5);
      [right; simpl; lia|].
    rewrite Hr'. simpl.
    destruct (live_head r' H1) as (b & y & rest & Hb & Hrest).
    { rewrite H2. apply insert_nonempty. }
    rewrite Hb. simpl. eexists lt, (Some (r', b)). split; [done|].
    split_and!; try done.
    + rewrite H2, Hll, Hlr. done.
    + rewrite Hll, Hlv. intros E. rewrite E in Hh1. simpl in Hh1. lia.
    + by exists y, rest.
Qed.

(** ** Lookup and deletion *)
Lemma search_live k n : wf n → search k n = Some (kv_find k (live n)).
Proof.
  intros Hwf. pose proof Hwf as (_ & _ & Hs). unfold search.
  rewrite search_key_position_live by done. simpl. case_bool_decide as Hin.
  - destruct (kv_at_lower_bound k (live n)) as [y Hy]; [done..|].
    rewrite (kv_find_lookup _ _ _ _ Hs Hy). apply live_lookup in Hy as [_ Hy].
    by rewrite Hy.
  - by rewrite kv_find_missing.
Qed.

Lemma delete_key_missing k u n :
  wf n → k ∉ keys (live n) → delete_key k u n = Some (false, u, n).
Proof.
  intros Hwf Hin. unfold delete_key. rewrite search_key_position_live by done.
  simpl. by rewrite bool_decide_false.
Qed.

Lemma delete_key_live k u n :
  wf n → k ∈ keys (live n) →
  ∃ n', delete_key k u n = Some (true, size_ n' <? UNDERFLOW_BOUND CAPACITY, n') ∧
    wf n' ∧ live n' = kv_delete k (live n) ∧ right_sibling_ n' = right_sibling_ n ∧
    self_rep_ n' = self_rep_ n ∧ modified_ n' = true.
Proof.
  intros Hwf Hin. pose proof Hwf as (Hlen & Hsz & Hs). unfold delete_key.
  rewrite search_key_position_live by done. simpl. rewrite bool_decide_true by done.
  destruct (kv_at_lower_bound k (live n)) as [y Hy]; [done..|].
  set (pos := lower_bound k (keys (live n))) in *.
  apply lookup_lt_Some in Hy. rewrite length_live in Hy by done.
  rewrite for_up_move_left by (simpl; lia). simpl.
  match goal with |- ∃ n', Some (_, _, ?m) = _ ∧ _ => exists m end. split; [done|].
  assert (Hlive : take (size_ n - 1) (take pos (entries_ n) ++
      take (size_ n - 1 - pos) (drop (S pos) (entries_ n)) ++
      drop (pos + (size_ n - 1 - pos)) (entries_ n)) = kv_delete k (live n)).
  { rewrite kv_delete_split by done. fold pos. rewrite app_assoc.
    rewrite take_app_exact by (simpl_len; lia). f_equal.
    - unfold live. rewrite take_take. f_equal. lia.
    - unfold live. rewrite take_drop_commute. f_equal. f_equal. lia. }
  split; [|split_and!; try done; exact Hlive].
  unfold wf. unfold live at 1. simpl. rewrite Hlive.
  split_and!; [simpl_len; lia|lia|auto with nvm].
Qed.

(** ** Balancing two siblings

    One of the two nodes underflows. Either an entry is moved and the new
    boundary is the first key of the right node, or all entries end up in the
    left node; the merge never exceeds the capacity. *)
Definition balance_post (n rt n' rt' : LeafNode) (merged : bool) (b : option Z) : Prop :=
  wf n' ∧ wf rt' ∧ modified_ n' = true ∧ modified_ rt' = true ∧
  self_rep_ n' = self_rep_ n ∧ self_rep_ rt' = self_rep_ rt ∧
  live n' ++ live rt' = live n ++ live rt ∧
  if merged then live rt' = [] ∧ right_sibling_ n' = right_sibling_ rt
  else right_sibling_ n' = right_sibling_ n ∧ right_sibling_ rt' = right_sibling_ rt ∧
    1 ≤ size_ n' ∧ ∃ k y rest, b = Some k ∧ live rt' = (k, y) :: rest.

Lemma wf_sorted_split n rt (l1 l2 : kv) :
  ksorted (keys (live n ++ live rt)) → l1 ++ l2 = live n ++ live rt →
  ksorted (keys l1) ∧ ksorted (keys l2).
Proof.
  intros Hs E. rewrite <- E, fmap_app in Hs. apply ksorted_app in Hs. tauto.
Qed.

(** The arrays after moving one entry, or all of them. *)
Lemma push_back_live n x :
  size_ n < length (entries_ n) →
  take (size_ n + 1) (take (size_ n) (entries_ n) ++ x :: drop (S (size_ n)) (entries_ n))
  = live n ++ [x].
Proof.
  intros H. unfold live. rewrite take_app_ge by (simpl_len; lia). f_equal. simpl_len.
  replace (size_ n + 1 - size_ n `min` length (entries_ n)) with 1 by lia. done.
Qed.

Lemma live_cons n x :
  entries_ n !! 0 = Some x → 0 < size_ n → live n = x :: drop 1 (live n).
Proof.
  intros Hx Hs. unfold live. destruct (entries_ n) as [|x' e]; simplify_eq/=.
  destruct (size_ n); [lia|done].
Qed.

Lemma live_snoc n x :
  size_ n ≤ length (entries_ n) → entries_ n !! (size_ n - 1) = Some x → 0 < size_ n →
  live n = take (size_ n - 1) (entries_ n) ++ [x].
Proof.
  intros Hl Hx Hs. unfold live. replace (size_ n) with (S (size_ n - 1)) at 1 by lia.
  by apply take_S_r.
Qed.

Lemma balance_borrow_right n rt :
  1 ≤ CAPACITY → wf n → wf rt → ksorted (keys (live n ++ live rt)) →
  size_ n < UNDERFLOW_BOUND CAPACITY → UNDERFLOW_BOUND CAPACITY < size_ rt →
  ∃ b n' rt', balance n rt = Some (false, b, n', rt') ∧ balance_post n rt n' rt' false b.
Proof.
  intros HC Hwn Hwr Hs Hn Hr. pose proof Hwn as (Hln & Hsn & _). pose proof Hwr as (Hlr & Hsr & _).
  pose proof (UNDERFLOW_BOUND_le CAPACITY HC) as HB.
  unfold balance. simpl. apply Nat.ltb_lt in Hn as Hnb. apply Nat.ltb_lt in Hr as Hrb.
  rewrite Hnb, Hrb. simpl.
  destruct (lookup_lt_exists (entries_ rt) 0) as [x Hx]; [lia|]. rewrite Hx. simpl.
  rewrite aset_Some by lia. simpl. rewrite for_up_move_left by lia. simpl.
  destruct (lookup_lt_exists (entries_ rt) 1) as [[k y] Hk]; [lia|].
  set (re := take (size_ rt - 1) (drop 1 (entries_ rt)) ++ drop (size_ rt - 1) (entries_ rt)).
  assert (Hre : re !! 0 = Some (k, y)).
  { unfold re. rewrite lookup_app_l by (simpl_len; lia).
    rewrite lookup_take_lt by lia. by rewrite lookup_drop. }
  rewrite Hre. simpl. eexists (Some k), _, _. split; [done|].
  assert (Hl2 : take (size_ rt - 1) re = drop 1 (live rt)).
  { unfold re, live. rewrite take_app_exact by (simpl_len; lia).
    rewrite take_drop_commute. f_equal. f_equal. lia. }
  assert (Happ : (live n ++ [x]) ++ drop 1 (live rt) = live n ++ live rt).
  { rewrite (live_cons rt x) at 2 by (done || lia). by rewrite <- app_assoc. }
  destruct (wf_sorted_split n rt _ _ Hs Happ) as [Hs1 Hs2].
  unfold balance_post, wf. unfold live at 1 2 3 4 7. simpl. rewrite push_back_live, Hl2 by lia.
  split_and!; try done; try (unfold re; simpl_len; lia).
  exists k, y, (drop 2 (live rt)). split; [done|].
  rewrite (drop_S (live rt) (k, y) 1); [done|]. unfold live. by rewrite lookup_take_lt by lia.
Qed.

Lemma balance_borrow_left n rt :
  1 ≤ CAPACITY → wf n → wf rt → ksorted (keys (live n ++ live rt)) →
  size_ rt < UNDERFLOW_BOUND CAPACITY → UNDERFLOW_BOUND CAPACITY < size_ n →
  ∃ b n' rt', balance n rt = Some (false, b, n', rt') ∧ balance_post n rt n' rt' false b.
Proof.
  intros HC Hwn Hwr Hs Hr Hn. pose proof Hwn as (Hln & Hsn & _). pose proof Hwr as (Hlr & Hsr & _).
  pose proof (UNDERFLOW_BOUND_le CAPACITY HC) as HB.
  unfold balance. simpl. apply Nat.ltb_lt in Hn as Hnb. apply Nat.ltb_lt in Hr as Hrb.
  destruct (Nat.ltb_spec (size_ n) (UNDERFLOW_BOUND CAPACITY)); [lia|].
  rewrite Hnb, Hrb. simpl. rewrite for_down_move_right by lia. simpl.
  destruct (lookup_lt_exists (entries_ n) (size_ n - 1)) as [[k y] Hx]; [lia|]. rewrite Hx. simpl.
  rewrite aset_Some by (simpl_len; lia). simpl.
  eexists (Some k), _, _. split; [done|].
  assert (Hl2 : take (size_ rt) (drop 1 (take 1 (entries_ rt) ++
       take (size_ rt) (drop 0 (entries_ rt)) ++ drop (S (size_ rt)) (entries_ rt)))
       = live rt).
  { rewrite drop_0, drop_app_exact by (simpl_len; lia).
    unfold live. apply take_app_exact. simpl_len. lia. }
  assert (Happ : take (size_ n - 1) (entries_ n) ++ ((k, y) :: live rt) = live n ++ live rt).
  { rewrite (live_snoc n (k, y)) by (done || lia). by rewrite <- app_assoc. }
  destruct (wf_sorted_split n rt _ _ Hs Happ) as [Hs1 Hs2].
  unfold balance_post, wf. unfold live at 1 2 3 4 7. simpl.
  rewrite Nat.add_1_r. simpl. rewrite Hl2.
  split_and!; try done; try (simpl_len; lia).
  by exists k, y, (live rt).
Qed.

Lemma balance_merge n rt :
  wf n → wf rt → ksorted (keys (live n ++ live rt)) →
  size_ n + size_ rt ≤ CAPACITY →
  (UNDERFLOW_BOUND CAPACITY ≤ size_ n ∨ size_ rt ≤ UNDERFLOW_BOUND CAPACITY) →
  (UNDERFLOW_BOUND CAPACITY ≤ size_ rt ∨ size_ n ≤ UNDERFLOW_BOUND CAPACITY) →
  ∃ n' rt', balance n rt = Some (true, None, n', rt') ∧ balance_post n rt n' rt' true None.
Proof.
  intros Hwn Hwr Hs Hsum Hn Hr. pose proof Hwn as (Hln & Hsn & _). pose proof Hwr as (Hlr & Hsr & _).
  unfold balance. simpl. set (B := UNDERFLOW_BOUND CAPACITY) in *.
  destruct ((size_ n <? B) && (B <? size_ rt)) eqn:E1.
  { apply andb_prop in E1 as [E1 E2]. apply Nat.ltb_lt in E1, E2. lia. }
  destruct ((size_ rt <? B) && (B <? size_ n)) eqn:E2.
  { apply andb_prop in E2 as [E2 E3]. apply Nat.ltb_lt in E2, E3. lia. }
  rewrite for_up_copy by lia. simpl. eexists _, _. split; [done|].
  rewrite !Nat.add_0_r, drop_0.
  assert (Hl : take (size_ n + size_ rt) (take (size_ n) (entries_ n) ++
      take (size_ rt) (entries_ rt) ++ drop (size_ n + size_ rt) (entries_ n)) = live n ++ live rt).
  { rewrite app_assoc. apply take_app_exact. unfold live. simpl_len. lia. }
  unfold balance_post, wf. unfold live at 1 2 3 4 7. simpl. rewrite Hl, app_nil_r.
  split_and!; try done; try (simpl_len; lia). constructor.
Qed.

Lemma balance_live n rt :
  1 ≤ CAPACITY → wf n → wf rt → ksorted (keys (live n ++ live rt)) →
  size_ n < UNDERFLOW_BOUND CAPACITY ∨ size_ rt < UNDERFLOW_BOUND CAPACITY →
  ∃ merged b n' rt', balance n rt = Some (merged, b, n', rt') ∧
    balance_post n rt n' rt' merged b.
Proof.
  intros HC Hwn Hwr Hs Hu. set (B := UNDERFLOW_BOUND CAPACITY) in *.
  destruct (decide (size_ n < B ∧ B < size_ rt)) as [[H1 H2]|E1].
  { destruct (balance_borrow_right n rt) as (b & n' & rt' & ? & ?); eauto 10. }
  destruct (decide (size_ rt < B ∧ B < size_ n)) as [[H1 H2]|E2].
  { destruct (balance_borrow_left n rt) as (b & n' & rt' & ? & ?); eauto 10. }
  destruct (balance_merge n rt) as (n' & rt' & ? & ?); eauto 10; fold B; try lia.
  destruct Hu.
  - apply (UNDERFLOW_BOUND_merge CAPACITY); fold B; lia.
  - rewrite Nat.add_comm. apply (UNDERFLOW_BOUND_merge CAPACITY); fold B; lia.
Qed.

End leaf.

End LeafNode.
