(* ===== verification/Inner.v ===== *)
(** The inner node of the B+-tree (src/src/tree/inner_node.h): two arrays,
    [key_] and [child_rep_], of which the first [size_] positions are live.
    [key_[0]] is the smallest key of the node.

    The array [child_] of the source caches, for each child, a node reference
    built from [child_rep_[i]]; it holds nothing that [child_rep_] does not
    determine and is not part of the record. *)
From Stdlib Require Import ZArith Lia.
From stdpp Require Import base list gmap sorting numbers.
From S2P Require Import Prelude KV Leaf.

Module InnerNode.

Record InnerNode := mk {
  key_ : list Z;
  size_ : nat;
  child_rep_ : list Z;
  self_rep_ : Z;
  modified_ : bool }.

Definition with_arrays (n : InnerNode) (p : list Z * list Z) (s : nat) : InnerNode :=
  mk p.1 s p.2 (self_rep_ n) (modified_ n).

Definition mark_modified (n : InnerNode) : InnerNode :=
  mk (key_ n) (size_ n) (child_rep_ n) (self_rep_ n) true.

Section inner.
Context (CAPACITY : nat).

(** [InnerNode(blk_accessor, allocate)]: children initialised to -1. *)
Definition create (junk : list Z) (rep : Z) : InnerNode :=
  mk junk 0 (replicate CAPACITY (-1)%Z) rep false.

(** [InnerNode(left, right, accessor)]: the new root above two nodes. *)
Definition create_root (junk : list Z) (rep : Z) (lkey lrep rkey rrep : Z) : option InnerNode :=
  let n := create junk rep in
  ks ← aset 0 lkey (key_ n); cs ← aset 0 lrep (child_rep_ n);
  ks ← aset 1 rkey ks; cs ← aset 1 rrep cs;
  if (lrep =? -1)%Z || (rrep =? -1)%Z then None
  else Some (mk ks 2 cs rep false).

Fixpoint locate_loop (fuel : nat) (ks : list Z) (key l r : Z) : option Z :=
  match fuel with
  | 0 => None
  | S fuel' =>
      if (l <=? r)%Z then
        let m := Z.shiftr (l + r) 1 in
        x ← ks !! Z.to_nat m;
        if (x <? key)%Z then locate_loop fuel' ks key (m + 1) r
        else if (key <? x)%Z then locate_loop fuel' ks key l (m - 1)
        else Some m
      else Some (l - 1)%Z
  end.

Definition locate_child_index (key : Z) (n : InnerNode) : option Z :=
  if size_ n =? 0 then Some (-1)%Z
  else locate_loop (S (size_ n)) (key_ n) key 0 (Z.of_nat (size_ n) - 1).

Definition get_leftmost_key (n : InnerNode) : option Z := key_ n !! 0.

Definition has_free_slot (n : InnerNode) : bool := size_ n <? CAPACITY.

Definition insert_inner_node (crep boundary_key : Z) (pos : nat) (n : InnerNode) : option InnerNode :=
  let n := mark_modified n in
  '(ks, cs) ← for_down pos (size_ n - pos) (both move_right move_right) (key_ n, child_rep_ n);
  ks ← aset pos boundary_key ks;
  cs ← aset pos crep cs;
  Some (with_arrays n (ks, cs) (size_ n + 1)).

(** [key_[0] = key; mark_modified()], when the key is below the left boundary. *)
Definition set_left_boundary (key : Z) (n : InnerNode) : option InnerNode :=
  ks ← aset 0 key (key_ n);
  Some (mk ks (size_ n) (child_rep_ n) (self_rep_ n) true).

(** The split of a full node that receives the child [crep] with boundary
    [bkey]; [target] is the index of the child that was split. *)
Definition split_insert (rrep : Z) (junk : list Z) (target : nat) (crep bkey : Z)
    (n : InnerNode) : option (InnerNode * InnerNode * Z) :=
  let n := mark_modified n in
  let insert_to_first_half := target <? CAPACITY / 2 in
  let start_index_for_right := CAPACITY / 2 in
  let rt := mark_modified (create junk rrep) in
  p ← for_up 0 (size_ n - start_index_for_right)
        (both (copy_from (key_ n) start_index_for_right 0)
              (copy_from (child_rep_ n) start_index_for_right 0))
        (key_ rt, child_rep_ rt);
  let moved := size_ n - start_index_for_right in
  let lt := with_arrays n (key_ n, child_rep_ n) (size_ n - moved) in
  let rt := with_arrays rt p moved in
  '(lt, rt) ←
    (if insert_to_first_half then
       pos ← locate_child_index bkey lt;
       l ← insert_inner_node crep bkey (Z.to_nat (pos + 1)) lt; Some (l, rt)
     else
       pos ← locate_child_index bkey rt;
       r ← insert_inner_node crep bkey (Z.to_nat (pos + 1)) rt; Some (lt, r));
  b ← get_leftmost_key rt;
  Some (lt, rt, b).

(** Removal of the child at [idx]: the loop of [delete_key] after a merge. *)
Definition remove_child (idx : nat) (n : InnerNode) : option InnerNode :=
  cs ← aset idx (-1)%Z (child_rep_ n);
  p ← for_up idx (size_ n - 1 - idx) (both move_left move_left) (key_ n, cs);
  Some (with_arrays n p (size_ n - 1)).

Definition set_key (i : nat) (k : Z) (n : InnerNode) : option InnerNode :=
  ks ← aset i k (key_ n); Some (mk ks (size_ n) (child_rep_ n) (self_rep_ n) (modified_ n)).

(** The borrowing loop of [balance] reads one position past the live ones; when
    the right node is full that is past the end of the array, and [oob] stands
    for what the memory holds there. *)
Definition move_left_oob (oob : Z) (i : nat) (a : list Z) : option (list Z) :=
  aset i (default oob (a !! (i + 1))) a.

Definition balance (oob : Z) (n rt : InnerNode) : option (bool * option Z * InnerNode * InnerNode) :=
  let n := mark_modified n in
  let rt := mark_modified rt in
  let underflow_bound := UNDERFLOW_BOUND CAPACITY in
  if (size_ n <? underflow_bound) && (underflow_bound <? size_ rt) then
    k ← key_ rt !! 0; c ← child_rep_ rt !! 0;
    ks ← aset (size_ n) k (key_ n); cs ← aset (size_ n) c (child_rep_ n);
    p ← for_up 0 (size_ rt) (both (move_left_oob oob) (move_left_oob oob)) (key_ rt, child_rep_ rt);
    b ← p.1 !! 0;
    Some (false, Some b, with_arrays n (ks, cs) (size_ n + 1), with_arrays rt p (size_ rt - 1))
  else if (size_ rt <? underflow_bound) && (underflow_bound <? size_ n) then
    '(rk, rc) ← for_down 0 (size_ rt + 1) (both move_right move_right) (key_ rt, child_rep_ rt);
    k ← key_ n !! (size_ n - 1); c ← child_rep_ n !! (size_ n - 1);
    rk ← aset 0 k rk; rc ← aset 0 c rc;
    cs ← aset (size_ n - 1) (-1)%Z (child_rep_ n);
    b ← rk !! 0;
    Some (false, Some b, with_arrays n (key_ n, cs) (size_ n - 1),
          with_arrays rt (rk, rc) (size_ rt + 1))
  else
    p ← for_up 0 (size_ rt) (both (copy_from (key_ rt) 0 (size_ n))
                                 (copy_from (child_rep_ rt) 0 (size_ n))) (key_ n, child_rep_ n);
    Some (true, None, with_arrays n p (size_ n + size_ rt),
          with_arrays rt (key_ rt, child_rep_ rt) 0).

(** The live (key, child) pairs, and the well-formedness of a node. *)
Definition live (n : InnerNode) : list (Z * Z) := take (size_ n) (zip (key_ n) (child_rep_ n)).

Definition wf (n : InnerNode) : Prop :=
  length (key_ n) = CAPACITY ∧ length (child_rep_ n) = CAPACITY ∧
  size_ n ≤ CAPACITY ∧ ksorted (keys (live n)).

(** ** Views of the arrays *)
Lemma keys_live n : wf n → keys (live n) = take (size_ n) (key_ n).
Proof. intros (H1 & H2 & _). unfold live. rewrite fmap_take, keys_zip by lia. done. Qed.

Lemma length_zip_arrays n : wf n → length (zip (key_ n) (child_rep_ n)) = CAPACITY.
Proof. intros (H1 & H2 & _). rewrite length_zip_with. lia. Qed.

Lemma inner_length_live n : wf n → length (live n) = size_ n.
Proof.
  intros Hwf. pose proof (length_zip_arrays n Hwf). destruct Hwf as (_ & _ & ? & _).
  unfold live. rewrite length_take. lia.
Qed.

Lemma inner_live_lookup n i k c :
  live n !! i = Some (k, c) ↔ i < size_ n ∧ key_ n !! i = Some k ∧ child_rep_ n !! i = Some c.
Proof.
  unfold live. rewrite lookup_take_Some, lookup_zip_with_Some. split.
  - intros [(x & y & ? & ? & ?) ?]. simplify_eq. done.
  - intros (? & ? & ?). split; [|done]. eauto.
Qed.

(** ** Locating a child *)
Lemma locate_loop_spec fuel s (es : list Z) key l r :
  let ks := take s es in
  ksorted ks → s ≤ length es →
  (0 ≤ l ≤ r + 1)%Z → (r < Z.of_nat s)%Z →
  (∀ i x, ks !! i = Some x → (Z.of_nat i < l)%Z → (x < key)%Z) →
  (∀ i x, ks !! i = Some x → (r < Z.of_nat i)%Z → (key < x)%Z) →
  (r - l + 1 < Z.of_nat fuel)%Z →
  locate_loop fuel es key l r = Some (Z.of_nat (lower_bound (key + 1) ks) - 1)%Z.
Proof.
  intros ks Hs Hse. revert l r. induction fuel as [|fuel IH]; intros l r Hl Hr Hlo Hhi Hf; [lia|].
  simpl. destruct (Z.leb_spec l r) as [Hle|Hgt].
  - rewrite Z.shiftr_div_pow2 by lia. change (2 ^ 1)%Z with 2%Z.
    pose proof (Z.div_mod (l + r) 2 ltac:(lia)). pose proof (Z.mod_pos_bound (l + r) 2 ltac:(lia)).
    set (m := ((l + r) / 2)%Z) in *.
    destruct (lookup_lt_exists es (Z.to_nat m)) as [x Hx]; [lia|]. rewrite Hx. simpl.
    assert (Hk : ks !! Z.to_nat m = Some x) by (unfold ks; rewrite lookup_take_lt by lia; done).
    destruct (Z.ltb_spec x key).
    + apply IH; try lia; try done. intros i y Hi Hlt.
      destruct (decide (i = Z.to_nat m)) as [->|]; [congruence|].
      assert (y < x)%Z; [|lia]. eapply (ksorted_lookup ks i); eauto. lia.
    + destruct (Z.ltb_spec key x).
      * apply IH; try lia; try done. intros i y Hi Hlt.
        destruct (decide (i = Z.to_nat m)) as [->|]; [simplify_eq; lia|].
        assert (x < y)%Z; [|lia]. eapply (ksorted_lookup ks (Z.to_nat m)); eauto. lia.
      * assert (x = key) as -> by lia. f_equal.
        rewrite (lower_bound_unique _ ks (S (Z.to_nat m))); [lia| | |].
        -- apply lookup_lt_Some in Hk. lia.
        -- intros i y Hi Hlt. assert (y ≤ key)%Z; [|lia].
           eapply (ksorted_lookup_le ks i); eauto. lia.
        -- intros i y Hi Hlt. assert (key < y)%Z; [|lia].
           eapply (ksorted_lookup ks (Z.to_nat m)); eauto.
  - f_equal. assert (length ks = s) by (unfold ks; rewrite length_take; lia).
    rewrite (lower_bound_unique _ ks (Z.to_nat l)); [lia|lia| |].
    + intros i x Hi Hlt. assert (x < key)%Z; [|lia]. apply (Hlo i x Hi). lia.
    + intros i x Hi Hlt. assert (key < x)%Z; [|lia]. apply (Hhi i x Hi). lia.
Qed.

(** The child to visit is the last one whose key is not above the searched
    key; -1 when the key is below the node. *)
Lemma locate_child_index_live key n :
  wf n →
  locate_child_index key n = Some (Z.of_nat (lower_bound (key + 1) (keys (live n))) - 1)%Z.
Proof.
  intros Hwf. pose proof Hwf as (Hl1 & Hl2 & Hsz & Hs). unfold locate_child_index.
  rewrite keys_live in * by done. destruct (Nat.eqb_spec (size_ n) 0) as [E|].
  { rewrite E. done. }
  apply locate_loop_spec; try done; try lia.
  intros i x Hi Hlt. apply lookup_lt_Some in Hi. rewrite length_take in Hi. lia.
Qed.

(** ** Insertion of a child *)
Lemma insert_inner_node_at crep b pos n :
  wf n → pos ≤ size_ n → size_ n < CAPACITY →
  ∃ n', insert_inner_node crep b pos n = Some n' ∧
    length (key_ n') = CAPACITY ∧ length (child_rep_ n') = CAPACITY ∧ size_ n' = size_ n + 1 ∧
    live n' = take pos (live n) ++ (b, crep) :: drop pos (live n) ∧
    self_rep_ n' = self_rep_ n ∧ modified_ n' = true.
Proof.
  intros Hwf Hp Hs. pose proof (length_zip_arrays n Hwf) as Hz.
  destruct Hwf as (Hl1 & Hl2 & Hsz & _). unfold insert_inner_node. simpl.
  destruct (both_move_right pos (size_ n - pos) (key_ n) (child_rep_ n))
    as ([ks cs] & Hp1 & Hk1 & Hk2 & Hzip); [lia|lia|]. rewrite Hp1. simpl in *.
  destruct (both_aset pos b crep ks cs) as (ks' & cs' & H1 & H2 & H3 & H4 & H5); [lia|lia|].
  rewrite H1. simpl. rewrite H2. simpl. eexists. split; [done|]. simpl in *.
  split_and!; try done; try lia.
  unfold live. simpl. rewrite H5, Hzip. apply insert_view; lia.
Qed.

Lemma insert_inner_node_live crep b n :
  wf n → size_ n < CAPACITY → b ∉ keys (live n) →
  ∃ n', insert_inner_node crep b (lower_bound b (keys (live n))) n = Some n' ∧ wf n' ∧
    live n' = kv_insert b crep (live n) ∧ self_rep_ n' = self_rep_ n ∧ modified_ n' = true ∧
    size_ n' = size_ n + 1.
Proof.
  intros Hwf Hs Hin. pose proof Hwf as (_ & _ & _ & Hsort).
  pose proof (lower_bound_le b (keys (live n))) as Hlb.
  rewrite length_fmap, inner_length_live in Hlb by done.
  destruct (insert_inner_node_at crep b _ n Hwf Hlb Hs) as (n' & H0 & H1 & H2 & H3 & H4 & H5 & H6).
  assert (Hlive : live n' = kv_insert b crep (live n)).
  { rewrite H4, kv_insert_split by done. simpl. by rewrite bool_decide_false. }
  exists n'. split; [done|]. split; [|done].
  split_and!; [done|done|lia|]. rewrite Hlive. auto with nvm.
Qed.

Lemma lower_bound_succ b ks : b ∉ ks → lower_bound (b + 1) ks = lower_bound b ks.
Proof.
  induction ks as [|x ks IH]; intros Hin; simpl; [done|].
  apply not_elem_of_cons in Hin as [Hne Hin]. rewrite IH by done.
  destruct (Z.ltb_spec x (b + 1)), (Z.ltb_spec x b); done || lia.
Qed.

Lemma kv_insert_at_l k v (l : kv) i :
  ksorted (keys l) → k ∉ keys l → lower_bound k (keys l) ≤ i →
  kv_insert k v l = kv_insert k v (take i l) ++ drop i l.
Proof.
  intros Hs Hin Hi. rewrite <- (take_drop i l) at 1.
  apply kv_insert_app_l. intros x Hx. rewrite fmap_drop in Hx.
  apply list_elem_of_lookup in Hx as [j Hj]. rewrite lookup_drop in Hj.
  eapply lower_bound_missing; [done|done|exact Hj|lia].
Qed.

Lemma kv_insert_at_r k v (l : kv) i :
  i ≤ lower_bound k (keys l) → kv_insert k v l = take i l ++ kv_insert k v (drop i l).
Proof.
  intros Hi. rewrite <- (take_drop i l) at 1.
  apply kv_insert_app_r. intros x Hx. rewrite fmap_take in Hx.
  apply list_elem_of_lookup in Hx as [j Hj]. apply lookup_take_Some in Hj as [Hj Hlt].
  eapply lower_bound_below; [exact Hj|lia].
Qed.

(** [host->insert_inner_node(child, b, host->locate_child_index(b) + 1)]. *)
Lemma locate_and_insert crep b n :
  wf n → size_ n < CAPACITY → b ∉ keys (live n) →
  ∃ n', (pos ← locate_child_index b n;
         insert_inner_node crep b (Z.to_nat (pos + 1)) n) = Some n' ∧ wf n' ∧
    live n' = kv_insert b crep (live n) ∧ self_rep_ n' = self_rep_ n ∧ modified_ n' = true.
Proof.
  intros Hwf Hs Hin. rewrite locate_child_index_live, lower_bound_succ by done. simpl.
  replace (Z.to_nat (Z.of_nat (lower_bound b (keys (live n))) - 1 + 1))
    with (lower_bound b (keys (live n))) by lia.
  destruct (insert_inner_node_live crep b n) as (n' & ? & ? & ? & ? & ? & _); eauto 10.
Qed.

Definition split_post (rrep crep b : Z) (n lt rt : InnerNode) (k : Z) : Prop :=
  wf lt ∧ wf rt ∧ live lt ++ live rt = kv_insert b crep (live n) ∧
  self_rep_ lt = self_rep_ n ∧ self_rep_ rt = rrep ∧
  modified_ lt = true ∧ modified_ rt = true ∧
  live lt ≠ [] ∧ ∃ c rest, live rt = (k, c) :: rest.

Lemma inner_live_head n : wf n → live n ≠ [] → ∃ k c rest, key_ n !! 0 = Some k ∧ live n = (k, c) :: rest.
Proof.
  intros Hwf Hne. destruct (live n) as [|[k c] rest] eqn:E; [done|].
  exists k, c, rest. split; [|done].
  apply (inner_live_lookup n 0 k c). by rewrite E.
Qed.

Lemma inner_insert_nonempty k v (l : kv) : kv_insert k v l ≠ [].
Proof. destruct l as [|[x y] l]; simpl; [done|]. destruct (x <? k)%Z, (x =? k)%Z; done. Qed.

Lemma not_elem_of_part b (l l1 l2 : kv) :
  b ∉ keys l → l1 ++ l2 = l → b ∉ keys l1 ∧ b ∉ keys l2.
Proof. intros Hin <-. rewrite fmap_app, elem_of_app in Hin. tauto. Qed.

Lemma split_insert_live rrep junk target crep b n :
  2 ≤ CAPACITY → wf n → size_ n = CAPACITY → length junk = CAPACITY →
  b ∉ keys (live n) → lower_bound b (keys (live n)) = S target →
  ∃ lt rt k, split_insert rrep junk target crep b n = Some (lt, rt, k) ∧
    split_post rrep crep b n lt rt k.
Proof.
  intros HC Hwf Hf Hj Hin Ht. pose proof Hwf as (Hl1 & Hl2 & _ & Hs).
  pose proof (length_zip_arrays n Hwf) as Hz. unfold split_insert. simpl.
  assert (Hh : 1 ≤ CAPACITY / 2 < CAPACITY).
  { split; [apply Nat.div_le_lower_bound; lia|apply Nat.div_lt; lia]. }
  set (h := CAPACITY / 2) in *.
  destruct (both_copy (key_ n) (child_rep_ n) h 0 (size_ n - h) junk (replicate CAPACITY (-1)%Z))
    as ([rk rc] & Hp & Hk1 & Hk2 & Hzip); [simpl_len; lia|lia|lia|lia|].
  rewrite Hp. simpl in *. rewrite length_replicate in Hk2.
  set (lt := with_arrays (mark_modified n) (key_ n, child_rep_ n) (size_ n - (size_ n - h))).
  set (rt := with_arrays (mark_modified (create junk rrep)) (rk, rc) (size_ n - h)).
  assert (Hll : live lt = take h (live n)).
  { unfold live, lt. simpl. rewrite take_take. f_equal. lia. }
  assert (Hlr : live rt = drop h (live n)).
  { unfold live, rt. simpl. rewrite Hzip. rewrite take_app_exact by (simpl_len; lia).
    rewrite take_drop_commute. f_equal. f_equal. lia. }
  assert (Hwl : wf lt).
  { split_and!; simpl; [done|done|lia|]. rewrite Hll, fmap_take. auto with nvm. }
  assert (Hwr : wf rt).
  { split_and!; simpl; [lia|lia|lia|]. rewrite Hlr, fmap_drop. auto with nvm. }
  destruct (not_elem_of_part b (live n) (live lt) (live rt)) as [Hin1 Hin2]; [done| |].
  { by rewrite Hll, Hlr, take_drop. }
  assert (Hllen : length (live lt) = h) by (rewrite inner_length_live by done; unfold lt; simpl; lia).
  destruct (Nat.ltb_spec target h) as [Hlt|Hge].
  - destruct (locate_and_insert crep b lt) as (l' & Hl' & H1 & H2 & H3 & H4);
      [done|unfold lt; simpl; lia|done|].
    destruct (locate_child_index b lt) as [pos|] eqn:E; simpl in *; [|done].
    rewrite Hl'. simpl.
    destruct (inner_live_head rt Hwr) as (k & c & rest & Hk & Hrest).
    { intros E0. apply (f_equal length) in E0. rewrite inner_length_live in E0 by done.
      unfold rt in E0. simpl in E0. lia. }
    unfold get_leftmost_key. rewrite Hk. simpl.
    eexists l', rt, k. split; [done|]. split_and!; try done; eauto.
    + rewrite H2, Hll, Hlr. symmetry. apply kv_insert_at_l; [done|done|lia].
    + rewrite H2. apply inner_insert_nonempty.
  - destruct (locate_and_insert crep b rt) as (r' & Hr' & H1 & H2 & H3 & H4);
      [done|unfold rt; simpl; lia|done|].
    destruct (locate_child_index b rt) as [pos|] eqn:E; simpl in *; [|done].
    rewrite Hr'. simpl.
    destruct (inner_live_head r' H1) as (k & c & rest & Hk & Hrest).
    { rewrite H2. apply inner_insert_nonempty. }
    unfold get_leftmost_key. rewrite Hk. simpl.
    eexists lt, r', k. split; [done|]. split_and!; try done; eauto.
    + rewrite H2, Hll, Hlr. symmetry. apply kv_insert_at_r. lia.
    + intros E0. rewrite E0 in Hllen. simpl in Hllen. lia.
Qed.

(** ** Removal of a child *)
Lemma remove_child_live idx n :
  wf n → idx < size_ n →
  ∃ n', remove_child idx n = Some n' ∧ wf n' ∧
    live n' = take idx (live n) ++ drop (S idx) (live n) ∧
    self_rep_ n' = self_rep_ n ∧ modified_ n' = modified_ n ∧ size_ n' = size_ n - 1.
Proof.
  intros Hwf Hi. pose proof (length_zip_arrays n Hwf) as Hz.
  pose proof Hwf as (Hl1 & Hl2 & Hsz & Hs). unfold remove_child.
  rewrite aset_insert by lia. simpl.
  destruct (both_move_left idx (size_ n - 1 - idx) (key_ n) (<[idx := (-1)%Z]> (child_rep_ n)))
    as ([ks cs] & Hp & Hk1 & Hk2 & Hzip); [simpl_len; lia|lia|].
  rewrite Hp. simpl in *. rewrite length_insert in Hk2. eexists. split; [done|]. simpl.
  assert (Hzi : ∀ j, j ≠ idx → zip (key_ n) (<[idx:=(-1)%Z]> (child_rep_ n)) !! j
                            = zip (key_ n) (child_rep_ n) !! j).
  { intros j Hj. rewrite !lookup_zip_with. by rewrite list_lookup_insert_ne. }
  set (z' := zip (key_ n) (<[idx:=(-1)%Z]> (child_rep_ n))) in *.
  assert (Hz' : length z' = CAPACITY).
  { unfold z'. rewrite length_zip_with, length_insert. lia. }
  assert (Ht : take idx z' = take idx (zip (key_ n) (child_rep_ n))).
  { apply list_eq. intros j. destruct (decide (j < idx)).
    - rewrite !lookup_take_lt by done. apply Hzi. lia.
    - rewrite !lookup_take_ge by lia. done. }
  assert (Hd : drop (S idx) z' = drop (S idx) (zip (key_ n) (child_rep_ n))).
  { apply list_eq. intros j. rewrite !lookup_drop. apply Hzi. lia. }
  assert (Hlive : take (size_ n - 1) (zip ks cs) = take idx (live n) ++ drop (S idx) (live n)).
  { rewrite Hzip, app_assoc, take_app_exact by (simpl_len; lia). unfold live.
    rewrite Ht, Hd, take_take, take_drop_commute. f_equal; f_equal; [lia|f_equal; lia]. }
  split_and!; try done. unfold wf, live at 1. simpl. rewrite Hlive.
  split_and!; [lia|lia|lia|].
  rewrite fmap_app, fmap_take, fmap_drop.
  rewrite <- (take_drop idx (keys (live n))) in Hs.
  apply ksorted_app in Hs as (Hs1 & Hs2 & Hs3). apply ksorted_app. split_and!; [done| |].
  - rewrite <- (Nat.add_1_r idx), <- drop_drop. auto with nvm.
  - intros x y Hx Hy. apply Hs3; [done|]. rewrite <- (Nat.add_1_r idx), <- drop_drop in Hy.
    eapply elem_of_subseteq; [|exact Hy]. apply subseteq_drop.
Qed.

(** ** Balancing two siblings *)
Lemma for_up_move_left_oob oob i n a :
  i + n ≤ length a →
  ∃ a', for_up i n (move_left_oob oob) a = Some a' ∧ length a' = length a ∧
    ∀ j, a' !! j = if decide (i ≤ j < i + n ∧ S j < length a) then a !! S j
                   else if decide (i ≤ j < i + n) then Some oob else a !! j.
Proof.
  revert i a. induction n as [|n IH]; intros i a Hl; simpl.
  { exists a. split_and!; [done|done|]. intros j. rewrite !decide_False by lia. done. }
  unfold move_left_oob at 2. rewrite aset_insert by lia. simpl.
  destruct (IH (i + 1) (<[i:=default oob (a !! (i + 1))]> a)) as (a' & H1 & H2 & H3).
  { rewrite length_insert. lia. }
  exists a'. rewrite length_insert in *. split_and!; [done|done|].
  intros j. rewrite H3. destruct (decide (j = i)) as [->|Hji].
  - rewrite list_lookup_insert_eq by lia. rewrite Nat.add_1_r.
    repeat (case_decide; try lia).
    + destruct (lookup_lt_exists a (S i)) as [x Hx]; [lia|]. by rewrite Hx.
    + by rewrite lookup_ge_None_2 by lia.
  - repeat case_decide; try lia; rewrite ?list_lookup_insert_ne by lia; done.
Qed.

Lemma both_move_left_oob oob s (a b : list Z) :
  length a = length b → 1 ≤ s → s ≤ length a →
  ∃ p, for_up 0 s (both (move_left_oob oob) (move_left_oob oob)) (a, b) = Some p ∧
    length p.1 = length a ∧ length p.2 = length b ∧
    take (s - 1) (zip p.1 p.2) = drop 1 (take s (zip a b)).
Proof.
  intros Hl Hs Hle.
  destruct (for_up_move_left_oob oob 0 s a) as (a' & Ha1 & Ha2 & Ha3); [lia|].
  destruct (for_up_move_left_oob oob 0 s b) as (b' & Hb1 & Hb2 & Hb3); [lia|].
  exists (a', b'). split; [by apply for_up_both|]. simpl. split_and!; [done|done|].
  assert (Hshift : ∀ c c' : list Z, length c = length a →
    (∀ j, c' !! j = if decide (0 ≤ j < 0 + s ∧ S j < length c) then c !! S j
                   else if decide (0 ≤ j < 0 + s) then Some oob else c !! j) →
    take (s - 1) c' = take (s - 1) (drop 1 c)).
  { intros c c' Hc H. apply list_eq. intros j. destruct (decide (j < s - 1)).
    - rewrite !lookup_take_lt by done. rewrite H, decide_True by lia. by rewrite lookup_drop.
    - by rewrite !lookup_take_ge by lia. }
  rewrite zip_with_take. rewrite (Hshift a a'), (Hshift b b') by (done || lia).
  replace s with (1 + (s - 1)) at 3 by lia.
  rewrite <- take_drop_commute, zip_with_drop, zip_with_take. done.
Qed.

Definition balance_post (n rt n' rt' : InnerNode) (merged : bool) (b : option Z) : Prop :=
  wf n' ∧ wf rt' ∧ modified_ n' = true ∧ modified_ rt' = true ∧
  self_rep_ n' = self_rep_ n ∧ self_rep_ rt' = self_rep_ rt ∧
  live n' ++ live rt' = live n ++ live rt ∧
  if merged then live rt' = []
  else ∃ k c rest, b = Some k ∧ live rt' = (k, c) :: rest ∧ live n' ≠ [].

Lemma wf_intro n :
  length (key_ n) = CAPACITY → length (child_rep_ n) = CAPACITY → size_ n ≤ CAPACITY →
  ksorted (keys (live n)) → wf n.
Proof. by unfold wf. Qed.

Lemma inner_live_cons n k c :
  key_ n !! 0 = Some k → child_rep_ n !! 0 = Some c → 0 < size_ n →
  live n = (k, c) :: drop 1 (live n).
Proof.
  intros Hk Hc Hs. unfold live. destruct (key_ n), (child_rep_ n); simplify_eq/=.
  destruct (size_ n); [lia|]. done.
Qed.

Lemma inner_live_snoc n k c :
  key_ n !! (size_ n - 1) = Some k → child_rep_ n !! (size_ n - 1) = Some c → 0 < size_ n →
  live n = take (size_ n - 1) (zip (key_ n) (child_rep_ n)) ++ [(k, c)].
Proof.
  intros Hk Hc Hs. unfold live. replace (size_ n) with (S (size_ n - 1)) at 1 by lia.
  apply take_S_r. rewrite lookup_zip_with. by rewrite Hk, Hc.
Qed.

Lemma sorted_parts (l l1 l2 : kv) :
  ksorted (keys l) → l1 ++ l2 = l → ksorted (keys l1) ∧ ksorted (keys l2).
Proof. intros Hs <-. rewrite fmap_app in Hs. apply ksorted_app in Hs. tauto. Qed.

Lemma live_push_back n k c a b :
  size_ n < CAPACITY → length (zip (key_ n) (child_rep_ n)) = CAPACITY →
  zip a b = take (size_ n) (zip (key_ n) (child_rep_ n)) ++
            (k, c) :: drop (S (size_ n)) (zip (key_ n) (child_rep_ n)) →
  take (size_ n + 1) (zip a b) = live n ++ [(k, c)].
Proof.
  intros Hs Hz ->. unfold live. rewrite take_app_ge by (simpl_len; lia). f_equal. simpl_len.
  replace (size_ n + 1 - size_ n `min` length (zip (key_ n) (child_rep_ n))) with 1 by lia. done.
Qed.

Lemma inner_balance_borrow_right oob n rt :
  1 ≤ CAPACITY → wf n → wf rt → ksorted (keys (live n ++ live rt)) →
  size_ n < UNDERFLOW_BOUND CAPACITY → UNDERFLOW_BOUND CAPACITY < size_ rt →
  ∃ b n' rt', balance oob n rt = Some (false, b, n', rt') ∧ balance_post n rt n' rt' false b.
Proof.
  intros HC Hwn Hwr Hs Hn Hr. pose proof (length_zip_arrays n Hwn) as Hzn.
  pose proof Hwn as (Hn1 & Hn2 & Hn3 & _). pose proof Hwr as (Hr1 & Hr2 & Hr3 & _).
  pose proof (UNDERFLOW_BOUND_le CAPACITY HC) as HB.
  unfold balance. simpl. apply Nat.ltb_lt in Hn as Hnb. apply Nat.ltb_lt in Hr as Hrb.
  rewrite Hnb, Hrb. simpl.
  destruct (lookup_lt_exists (key_ rt) 0) as [k Hk]; [lia|]. rewrite Hk. simpl.
  destruct (lookup_lt_exists (child_rep_ rt) 0) as [c Hc]; [lia|]. rewrite Hc. simpl.
  destruct (both_aset (size_ n) k c (key_ n) (child_rep_ n)) as (ks & cs & Ha1 & Ha2 & Ha3 & Ha4 & Ha5);
    [lia|lia|]. rewrite Ha1. simpl. rewrite Ha2. simpl. simpl in *.
  destruct (both_move_left_oob oob (size_ rt) (key_ rt) (child_rep_ rt))
    as ([rk rc] & Hp & Hp1 & Hp2 & Hp3); [lia|lia|lia|]. rewrite Hp. simpl in *.
  fold (live rt) in Hp3.
  destruct (drop 1 (live rt)) as [|[k1 c1] rest] eqn:Ed.
  { apply (f_equal length) in Ed. rewrite length_drop, inner_length_live in Ed by done. simpl in Ed. lia. }
  assert (Hrk : rk !! 0 = Some k1).
  { assert (take (size_ rt - 1) (zip rk rc) !! 0 = Some (k1, c1)) as H by (by rewrite Hp3).
    apply lookup_take_Some in H as [H _]. apply lookup_zip_with_Some in H as (? & ? & ? & ? & ?).
    by simplify_eq. }
  rewrite Hrk. simpl. eexists (Some k1), _, _. split; [done|].
  assert (Happ : (live n ++ [(k, c)]) ++ ((k1, c1) :: rest) = live n ++ live rt).
  { rewrite (inner_live_cons rt k c) by (done || lia). rewrite Ed. by rewrite <- app_assoc. }
  destruct (sorted_parts _ _ _ Hs Happ) as [Hs1 Hs2].
  pose proof (live_push_back n k c ks cs ltac:(lia) Hzn Ha5) as Hl1.
  unfold balance_post, wf. unfold live at 1 2 3 4 7 8. simpl. rewrite Hl1, Hp3.
  split_and!; try done; try lia. exists k1, c1, rest. split_and!; [done|done|].
  by destruct (live n).
Qed.

Lemma inner_balance_borrow_left oob n rt :
  3 ≤ CAPACITY → wf n → wf rt → ksorted (keys (live n ++ live rt)) →
  size_ rt < UNDERFLOW_BOUND CAPACITY → UNDERFLOW_BOUND CAPACITY < size_ n →
  ∃ b n' rt', balance oob n rt = Some (false, b, n', rt') ∧ balance_post n rt n' rt' false b.
Proof.
  intros HC Hwn Hwr Hs Hr Hn. pose proof (length_zip_arrays rt Hwr) as Hzr.
  pose proof Hwn as (Hn1 & Hn2 & Hn3 & _). pose proof Hwr as (Hr1 & Hr2 & Hr3 & _).
  pose proof (UNDERFLOW_BOUND_le CAPACITY ltac:(lia)) as HB.
  unfold balance. simpl. apply Nat.ltb_lt in Hn as Hnb. apply Nat.ltb_lt in Hr as Hrb.
  destruct (Nat.ltb_spec (size_ n) (UNDERFLOW_BOUND CAPACITY)); [lia|].
  rewrite Hnb, Hrb. simpl.
  assert (S (size_ rt) < CAPACITY) by lia.
  destruct (both_move_right 0 (size_ rt + 1) (key_ rt) (child_rep_ rt))
    as ([rk rc] & Hp & Hp1 & Hp2 & Hp3); [lia|lia|]. rewrite Hp. simpl in *.
  destruct (lookup_lt_exists (key_ n) (size_ n - 1)) as [k Hk]; [lia|]. rewrite Hk. simpl.
  destruct (lookup_lt_exists (child_rep_ n) (size_ n - 1)) as [c Hc]; [lia|]. rewrite Hc. simpl.
  destruct (both_aset 0 k c rk rc) as (rk' & rc' & Ha1 & Ha2 & Ha3 & Ha4 & Ha5); [lia|lia|].
  rewrite Ha1. simpl. rewrite Ha2. simpl. rewrite (aset_insert (size_ n - 1)) by lia. simpl in *.
  assert (Hrk : rk' !! 0 = Some k).
  { unfold aset in Ha1. rewrite decide_True in Ha1 by lia. simplify_eq.
    by rewrite list_lookup_insert_eq by lia. }
  rewrite Hrk. simpl. eexists (Some k), _, _. split; [done|].
  assert (Hl2 : take (size_ rt + 1) (zip rk' rc') = (k, c) :: live rt).
  { rewrite Ha5, Hp3, Nat.add_1_r. simpl. f_equal.
    rewrite drop_0, drop_app_exact by (simpl_len; lia). rewrite take_app_le by (simpl_len; lia).
    rewrite take_take. unfold live. f_equal. lia. }
  assert (Hl1 : take (size_ n - 1) (zip (key_ n) (<[size_ n - 1:=(-1)%Z]> (child_rep_ n)))
                = take (size_ n - 1) (zip (key_ n) (child_rep_ n))).
  { rewrite !zip_with_take. by rewrite take_insert_ge by lia. }
  assert (Happ : take (size_ n - 1) (zip (key_ n) (child_rep_ n)) ++ ((k, c) :: live rt)
                 = live n ++ live rt).
  { rewrite (inner_live_snoc n k c) by (done || lia). by rewrite <- app_assoc. }
  destruct (sorted_parts _ _ _ Hs Happ) as [Hs1 Hs2].
  unfold balance_post, wf. unfold live at 1 2 3 4 7 8. simpl. rewrite Hl1, Hl2.
  split_and!; try done; try (simpl_len; lia); try lia.
  exists k, c, (live rt). split_and!; [done|done|].
  intros E. apply (f_equal length) in E. revert E.
  rewrite length_take, length_zip_with. simpl. lia.
Qed.

Lemma inner_balance_merge oob n rt :
  wf n → wf rt → ksorted (keys (live n ++ live rt)) →
  size_ n + size_ rt ≤ CAPACITY →
  (UNDERFLOW_BOUND CAPACITY ≤ size_ n ∨ size_ rt ≤ UNDERFLOW_BOUND CAPACITY) →
  (UNDERFLOW_BOUND CAPACITY ≤ size_ rt ∨ size_ n ≤ UNDERFLOW_BOUND CAPACITY) →
  ∃ n' rt', balance oob n rt = Some (true, None, n', rt') ∧ balance_post n rt n' rt' true None.
Proof.
  intros Hwn Hwr Hs Hsum Hn Hr.
  pose proof (length_zip_arrays n Hwn) as Hzn. pose proof (length_zip_arrays rt Hwr) as Hzr.
  pose proof Hwn as (Hn1 & Hn2 & Hn3 & _). pose proof Hwr as (Hr1 & Hr2 & Hr3 & _).
  unfold balance. simpl. set (B := UNDERFLOW_BOUND CAPACITY) in *.
  destruct ((size_ n <? B) && (B <? size_ rt)) eqn:E1.
  { apply andb_prop in E1 as [E1 E2]. apply Nat.ltb_lt in E1, E2. lia. }
  destruct ((size_ rt <? B) && (B <? size_ n)) eqn:E2.
  { apply andb_prop in E2 as [E2 E3]. apply Nat.ltb_lt in E2, E3. lia. }
  destruct (both_copy (key_ rt) (child_rep_ rt) 0 (size_ n) (size_ rt) (key_ n) (child_rep_ n))
    as ([ks cs] & Hp & Hp1 & Hp2 & Hp3); [lia..|]. rewrite Hp. simpl in *.
  eexists _, _. split; [done|].
  assert (Hl : take (size_ n + size_ rt) (zip ks cs) = live n ++ live rt).
  { rewrite Hp3, app_assoc, take_app_exact by (simpl_len; lia). done. }
  unfold balance_post, wf. unfold live at 1 2 3 4 7. simpl. rewrite Hl, app_nil_r.
  split_and!; try done; try lia. constructor.
Qed.

Lemma inner_balance_live oob n rt :
  3 ≤ CAPACITY → wf n → wf rt → ksorted (keys (live n ++ live rt)) →
  size_ n < UNDERFLOW_BOUND CAPACITY ∨ size_ rt < UNDERFLOW_BOUND CAPACITY →
  ∃ merged b n' rt', balance oob n rt = Some (merged, b, n', rt') ∧
    balance_post n rt n' rt' merged b.
Proof.
  intros HC Hwn Hwr Hs Hu. set (B := UNDERFLOW_BOUND CAPACITY) in *.
  destruct (decide (size_ n < B ∧ B < size_ rt)) as [[H1 H2]|E1].
  { destruct (inner_balance_borrow_right oob n rt) as (b & n' & rt' & ? & ?); eauto 10. lia. }
  destruct (decide (size_ rt < B ∧ B < size_ n)) as [[H1 H2]|E2].
  { destruct (inner_balance_borrow_left oob n rt) as (b & n' & rt' & ? & ?); eauto 10. }
  destruct (inner_balance_merge oob n rt) as (n' & rt' & ? & ?); eauto 10; fold B; try lia.
  destruct Hu.
  - apply (UNDERFLOW_BOUND_merge CAPACITY); fold B; lia.
  - rewrite Nat.add_comm. apply (UNDERFLOW_BOUND_merge CAPACITY); fold B; lia.
Qed.

Lemma create_root_live junk rep lkey lrep rkey rrep :
  2 ≤ CAPACITY → length junk = CAPACITY → (lkey < rkey)%Z → lrep ≠ (-1)%Z → rrep ≠ (-1)%Z →
  ∃ n, create_root junk rep lkey lrep rkey rrep = Some n ∧ wf n ∧
    live n = [(lkey, lrep); (rkey, rrep)] ∧ self_rep_ n = rep ∧ modified_ n = false ∧ size_ n = 2.
Proof.
  intros HC Hj Hk Hl Hr. unfold create_root. simpl.
  unfold wf. destruct CAPACITY as [|[|C]] eqn:E; [lia|lia|]. clear E HC.
  destruct junk as [|j0 [|j1 junk]]; [done|done|]. simpl in Hj.
  unfold aset. simpl.
  destruct (Z.eqb_spec lrep (-1)); [done|]. destruct (Z.eqb_spec rrep (-1)); [done|]. simpl.
  eexists. split; [done|]. split; [|done]. split_and!; simpl; [lia|by rewrite length_replicate|lia|].
  unfold live. simpl. repeat constructor. done.
Qed.

Lemma set_left_boundary_live key n k c rest :
  wf n → live n = (k, c) :: rest → (key < k)%Z →
  ∃ n', set_left_boundary key n = Some n' ∧ wf n' ∧ live n' = (key, c) :: rest ∧
    self_rep_ n' = self_rep_ n ∧ modified_ n' = true ∧ size_ n' = size_ n.
Proof.
  intros Hwf Hl Hk. pose proof Hwf as (H1 & H2 & H3 & Hs). unfold set_left_boundary.
  assert (Hlen : 0 < length (key_ n)).
  { pose proof (inner_length_live n Hwf) as E. rewrite Hl in E. simpl in E. lia. }
  rewrite aset_insert by done. simpl. eexists. split; [done|].
  assert (Hlive : live (mk (<[0:=key]> (key_ n)) (size_ n) (child_rep_ n) (self_rep_ n) true)
                  = (key, c) :: rest).
  { unfold live in *. simpl. destruct (key_ n) as [|k0 ks], (child_rep_ n) as [|c0 cs]; simpl in *;
      rewrite ?take_nil in *; try done. destruct (size_ n); simpl in *; [done|]. by simplify_eq. }
  split; [|done]. split_and!; simpl; [by rewrite length_insert|done|done|].
  rewrite Hlive. rewrite Hl in Hs. apply kvsorted_cons in Hs as [Hs1 Hs2].
  apply kvsorted_cons. split; [|done]. intros z Hz. apply Hs1 in Hz. simpl in *. lia.
Qed.

Lemma set_key_live i key n :
  wf n → i < size_ n →
  ksorted (<[i := key]> (keys (live n))) →
  ∃ n' c, set_key i key n = Some n' ∧ live n !! i = Some c ∧ wf n' ∧
    live n' = <[i := (key, c.2)]> (live n) ∧
    self_rep_ n' = self_rep_ n ∧ modified_ n' = modified_ n ∧ size_ n' = size_ n.
Proof.
  intros Hwf Hi Hs. pose proof Hwf as (H1 & H2 & H3 & _). unfold set_key.
  rewrite aset_insert by lia. simpl.
  destruct (lookup_lt_exists (live n) i) as [[k c] Hc]; [rewrite inner_length_live; done|].
  eexists _, (k, c). split; [done|]. split; [done|].
  apply inner_live_lookup in Hc as (_ & Hk & Hc).
  assert (Hlive : live (mk (<[i:=key]> (key_ n)) (size_ n) (child_rep_ n) (self_rep_ n) (modified_ n))
                  = <[i := (key, c)]> (live n)).
  { unfold live. simpl. rewrite <- take_insert_lt by done. f_equal.
    apply list_eq. intros j. rewrite !lookup_zip_with, !list_lookup_insert, !lookup_zip_with,
      length_zip_with.
    destruct (decide (i = j ∧ i < length (key_ n))) as [[-> ?]|Hd]; simpl.
    - rewrite Hc. simpl. rewrite decide_True by lia. done.
    - destruct (decide (i = j ∧ i < length (key_ n) `min` length (child_rep_ n))); [lia|done]. }
  split; [|done]. split_and!; simpl; [by rewrite length_insert|done|done|].
  rewrite Hlive, list_fmap_insert. done.
Qed.

End inner.

End InnerNode.
