(* ===== verification/Store.v ===== *)
(** The block store under the tree: nodes as the blocks they are serialised to,
    the allocator interface of the block accessors (src/src/blk/blk.h), and the
    node references (src/src/tree/blk_node_reference.h) that load and flush
    node instances. *)
From Stdlib Require Import ZArith Lia.
From stdpp Require Import base list gmap sorting numbers.
From S2P Require Import Prelude KV Leaf Inner.

(** What a block holds: the fields [serialize] writes. *)
Inductive blk :=
  | BLeaf (entries : kv) (right_sibling self : Z)
  | BInner (ks cs : list Z) (self : Z).

(** A node instance in memory. *)
Inductive node :=
  | NLeaf (l : LeafNode.LeafNode)
  | NInner (i : InnerNode.InnerNode).

Definition node_modified (n : node) : bool :=
  match n with NLeaf l => LeafNode.modified_ l | NInner i => InnerNode.modified_ i end.
Definition node_self_rep (n : node) : Z :=
  match n with NLeaf l => LeafNode.self_rep_ l | NInner i => InnerNode.self_rep_ i end.
Definition node_size (n : node) : nat :=
  match n with NLeaf l => LeafNode.size_ l | NInner i => InnerNode.size_ i end.
Definition node_leftmost_key (n : node) : option Z :=
  match n with
  | NLeaf l => LeafNode.get_leftmost_key l
  | NInner i => InnerNode.get_leftmost_key i
  end.

(** The interface the tree uses of a block accessor's allocator:
    [in_use] are the addresses handed out, [room a n] says that [n] more
    allocations do not exhaust the address counter. *)
Class Allocator (A : Type) := {
  allocate : A → Z * A;
  deallocate : Z → A → A;
  in_use : A → gset Z;
  alloc_wf : A → Prop;
  room : A → nat → Prop }.

Class AllocatorLaws (A : Type) `{Allocator A} := {
  room_le a n n' : n' ≤ n → room a n → room a n';
  allocate_fresh a n i a' :
    alloc_wf a → room a (S n) → allocate a = (i, a') →
    i ∉ in_use a ∧ (0 ≤ i)%Z ∧ in_use a' = {[i]} ∪ in_use a ∧ alloc_wf a' ∧ room a' n;
  deallocate_free a n i :
    alloc_wf a → room a n → i ∈ in_use a →
    in_use (deallocate i a) = in_use a ∖ {[i]} ∧ alloc_wf (deallocate i a) ∧
    room (deallocate i a) n }.

(** The assumptions on the template parameter and on the uninitialised arrays
    of a new node. *)
Definition params_ok (CAPACITY : nat) (junkE : list (Z * Z)) (junkK : list Z) : Prop :=
  3 ≤ CAPACITY ∧ length junkE = CAPACITY ∧ length junkK = CAPACITY.

Section store.
Context {A : Type} `{Allocator A}.
Context (CAPACITY : nat) (junkE : list (Z * Z)) (junkK : list Z).

(** The state an operation of the tree works on. *)
Record tree_state := mk_state {
  blocks : gmap Z blk;
  alloc : A;
  root_ : Z;
  depth_ : nat }.

Definition set_blocks (m : gmap Z blk) (st : tree_state) : tree_state :=
  mk_state m (alloc st) (root_ st) (depth_ st).
Definition set_alloc (a : A) (st : tree_state) : tree_state :=
  mk_state (blocks st) a (root_ st) (depth_ st).

(** [serialize] copies the first [size_] entries; [deserialize] restores them
    into a node whose arrays hold junk. *)
Definition serialize (n : node) : blk :=
  match n with
  | NLeaf l => BLeaf (LeafNode.live l) (LeafNode.right_sibling_ l) (LeafNode.self_rep_ l)
  | NInner i => BInner (take (InnerNode.size_ i) (InnerNode.key_ i))
                       (take (InnerNode.size_ i) (InnerNode.child_rep_ i)) (InnerNode.self_rep_ i)
  end.

Definition deserialize (b : blk) : option node :=
  match b with
  | BLeaf es sib self =>
      if length es <=? CAPACITY then
        Some (NLeaf (LeafNode.mk (es ++ drop (length es) junkE) (length es) sib self false))
      else None
  | BInner ks cs self =>
      if (length ks <=? CAPACITY) && (length cs =? length ks) then
        Some (NInner (InnerNode.mk (ks ++ drop (length ks) junkK) (length ks)
                        (cs ++ drop (length cs) (replicate CAPACITY (-1)%Z)) self false))
      else None
  end.

(** [blk_node_reference]: an address and, between [get] and [close], the node
    instance. *)
Record blk_node_reference := mk_ref { blk_address_ : Z; instance_ : option node }.

Definition create_null_ref : blk_node_reference := mk_ref (-1) None.
Definition restore_by_unified_representation (value : Z) : blk_node_reference := mk_ref value None.
Definition is_null_ptr (r : blk_node_reference) : bool := (blk_address_ r =? -1)%Z.
Definition ref_bind (n : option node) (r : blk_node_reference) : blk_node_reference :=
  mk_ref (blk_address_ r) n.
Definition ref_copy (src : option blk_node_reference) : blk_node_reference :=
  match src with
  | Some r => mk_ref (blk_address_ r) (instance_ r)
  | None => mk_ref (-1) None
  end.

Definition ref_get (r : blk_node_reference) (st : tree_state) : option (node * blk_node_reference) :=
  if (blk_address_ r <? 0)%Z then None
  else match instance_ r with
  | Some n => Some (n, r)
  | None =>
      b ← blocks st !! blk_address_ r;
      n ← deserialize b;
      Some (n, mk_ref (blk_address_ r) (Some n))
  end.

Definition ref_close (r : blk_node_reference) (st : tree_state) : tree_state * blk_node_reference :=
  match instance_ r with
  | None => (st, r)
  | Some n =>
      ((if node_modified n then set_blocks (<[blk_address_ r := serialize n]> (blocks st)) st
        else st), mk_ref (blk_address_ r) None)
  end.

(** Loading the node at an address, and closing a node at its address. *)
Definition load (id : Z) (st : tree_state) : option node :=
  fst <$> ref_get (restore_by_unified_representation id) st.
Definition close_at (id : Z) (n : node) (st : tree_state) : tree_state :=
  (ref_close (mk_ref id (Some n)) st).1.

End store.
Arguments tree_state : clear implicits.
