(* ===== verification/Tree.v ===== *)
(** The B+-tree over a block store: the recursive node operations of
    src/src/tree/inner_node.h and the tree of
    src/src/tree/vanilla_b_plus_tree.h (init, insert, search, delete_key,
    the iterators, close and clear).

    Recursion goes down one level per call; the fuel is the depth of the tree. *)
From Stdlib Require Import ZArith Lia.
From stdpp Require Import base list gmap sorting numbers.
From S2P Require Import Prelude KV Leaf Inner Store.

Section tree.
Context {A : Type} `{!Allocator A}.
Context (CAPACITY : nat) (junkE : list (Z * Z)) (junkK : list Z) (oob : Z).

Local Abbreviation state := (tree_state A).
Local Abbreviation load := (load CAPACITY junkE junkK).

(** ** Insertion *)
Fixpoint insert_with_split_support (fuel : nat) (n : node) (key val : Z) (st : state)
    : option (node * option (node * Z) * state) :=
  match n with
  | NLeaf l =>
      let '(rrep, a') := allocate (alloc st) in
      '(l', r) ← LeafNode.insert_with_split_support CAPACITY rrep junkE key val l;
      match r with
      | None => Some (NLeaf l', None, st)
      | Some (rt, b) => Some (NLeaf l', Some (NLeaf rt, b), set_alloc a' st)
      end
  | NInner i =>
      match fuel with
      | 0 => None
      | S fuel' =>
          index ← InnerNode.locate_child_index key i;
          let exceed_left_boundary := (index <? 0)%Z in
          let target_node_index := Z.to_nat (Z.max 0 index) in
          i ← (if exceed_left_boundary then InnerNode.set_left_boundary key i else Some i);
          c ← InnerNode.child_rep_ i !! target_node_index;
          child ← load c st;
          '(child', local_split, st) ← insert_with_split_support fuel' child key val st;
          match local_split with
          | None => Some (NInner i, None, close_at c child' st)
          | Some (rchild, bkey) =>
              let i := InnerNode.mark_modified i in
              if InnerNode.size_ i <? CAPACITY then
                i' ← InnerNode.insert_inner_node (node_self_rep rchild) bkey (target_node_index + 1) i;
                let st := close_at (node_self_rep child') child' st in
                let st := close_at (node_self_rep rchild) rchild st in
                Some (NInner i', None, st)
              else
                let '(rrep, a') := allocate (alloc st) in
                '(lt, rt, b) ← InnerNode.split_insert CAPACITY rrep junkK target_node_index
                                 (node_self_rep rchild) bkey i;
                let st := set_alloc a' st in
                let st := close_at (node_self_rep child') child' st in
                let st := close_at (node_self_rep rchild) rchild st in
                Some (NInner lt, Some (NInner rt, b), st)
          end
      end
  end.

Definition insert (key val : Z) (st : state) : option state :=
  root_instance ← load (root_ st) st;
  '(root', split, st) ← insert_with_split_support (depth_ st) root_instance key val st;
  match split with
  | None => Some (close_at (root_ st) root' st)
  | Some (rchild, _) =>
      lkey ← node_leftmost_key root';
      rkey ← node_leftmost_key rchild;
      let '(rep, a') := allocate (alloc st) in
      new_inner_node ← InnerNode.create_root CAPACITY junkK rep lkey (node_self_rep root')
                         rkey (node_self_rep rchild);
      let new_inner_node := InnerNode.mark_modified new_inner_node in
      let st := mk_state (blocks st) a' rep (depth_ st + 1) in
      let st := close_at (node_self_rep root') root' st in
      let st := close_at (node_self_rep rchild) rchild st in
      Some (close_at rep (NInner new_inner_node) st)
  end.

(** ** Search *)
Fixpoint node_search (fuel : nat) (n : node) (k : Z) (st : state) : option (option Z) :=
  match n with
  | NLeaf l => LeafNode.search k l
  | NInner i =>
      match fuel with
      | 0 => None
      | S fuel' =>
          index ← InnerNode.locate_child_index k i;
          if (index <? 0)%Z then Some None
          else c ← InnerNode.child_rep_ i !! Z.to_nat index;
               child ← load c st; node_search fuel' child k st
      end
  end.

Definition search (k : Z) (st : state) : option (option Z) :=
  n ← load (root_ st) st; node_search (depth_ st) n k st.

(** ** Deletion *)
Definition node_balance (l r : node) : option (bool * option Z * node * node) :=
  match l, r with
  | NLeaf l, NLeaf r =>
      '(merged, b, l, r) ← LeafNode.balance CAPACITY l r; Some (merged, b, NLeaf l, NLeaf r)
  | NInner l, NInner r =>
      '(merged, b, l, r) ← InnerNode.balance CAPACITY oob l r; Some (merged, b, NInner l, NInner r)
  | _, _ => None
  end.

(** [reference.remove]: [InnerNode::close] loads and removes every child of the
    node, then the address is given back. *)
Fixpoint remove_node (fuel : nat) (id : Z) (n : node) (st : state) : option state :=
  match n with
  | NLeaf _ => Some (set_alloc (deallocate id (alloc st)) st)
  | NInner i =>
      match fuel with
      | 0 => if InnerNode.size_ i =? 0 then Some (set_alloc (deallocate id (alloc st)) st) else None
      | S fuel' =>
          st ← for_up 0 (InnerNode.size_ i) (λ j st,
                 c ← InnerNode.child_rep_ i !! j; child ← load c st;
                 remove_node fuel' c child st) st;
          Some (set_alloc (deallocate id (alloc st)) st)
      end
  end.

(** The instance behind [child_[j]]: the reference to the child that was just
    visited still holds it, the other one is loaded. *)
Definition sibling (j ci : nat) (child : node) (i : InnerNode.InnerNode) (st : state)
    : option (Z * node) :=
  c ← InnerNode.child_rep_ i !! j;
  if j =? ci then Some (c, child) else n ← load c st; Some (c, n).

Fixpoint delete_key (fuel : nat) (n : node) (k : Z) (underflow : bool) (st : state)
    : option (bool * bool * node * state) :=
  match n with
  | NLeaf l =>
      '(deleted, underflow, l') ← LeafNode.delete_key CAPACITY k underflow l;
      Some (deleted, underflow, NLeaf l', st)
  | NInner i =>
      match fuel with
      | 0 => None
      | S fuel' =>
          index ← InnerNode.locate_child_index k i;
          if (index <? 0)%Z then Some (false, underflow, NInner i, st) else
          let child_index := Z.to_nat index in
          c ← InnerNode.child_rep_ i !! child_index;
          child ← load c st;
          '(deleted, underflow, child, st) ← delete_key fuel' child k underflow st;
          if negb deleted then Some (false, underflow, NInner i, close_at c child st) else
          if negb underflow || (InnerNode.size_ i <? 2) then
            Some (true, underflow, NInner i, close_at c child st) else
          let left_child_index := if 1 <=? child_index then child_index - 1 else child_index in
          let right_child_index := if 1 <=? child_index then child_index else child_index + 1 in
          '(lc, left_child) ← sibling left_child_index child_index child i st;
          '(rc, right_child) ← sibling right_child_index child_index child i st;
          '(merged, boundary, left_child, right_child) ← node_balance left_child right_child;
          let i := InnerNode.mark_modified i in
          if negb merged then
            b ← boundary;
            i ← InnerNode.set_key right_child_index b i;
            Some (true, false, NInner i, close_at rc right_child (close_at lc left_child st))
          else
            let st := close_at lc left_child st in
            st ← remove_node 0 rc right_child st;
            i ← InnerNode.remove_child right_child_index i;
            Some (true, InnerNode.size_ i <? UNDERFLOW_BOUND CAPACITY, NInner i, st)
      end
  end.

Definition tree_delete_key (k : Z) (st : state) : option (bool * state) :=
  root_node ← load (root_ st) st;
  '(ret, underflow, root_node, st) ← delete_key (depth_ st) root_node k false st;
  match root_node with
  | NInner i =>
      if underflow && (InnerNode.size_ i =? 1) then
        c ← InnerNode.child_rep_ i !! 0;
        let emptied := InnerNode.with_arrays i (InnerNode.key_ i, InnerNode.child_rep_ i) 0 in
        st ← remove_node 0 (root_ st) (NInner emptied) st;
        Some (ret, mk_state (blocks st) (alloc st) c (depth_ st - 1))
      else Some (ret, close_at (root_ st) root_node st)
  | NLeaf _ => Some (ret, close_at (root_ st) root_node st)
  end.

(** ** Creation, close and clear *)
Definition init (m : gmap Z blk) (a : A) : state :=
  let '(rep, a') := allocate a in
  let leaf := LeafNode.mark_modified (LeafNode.create junkE rep) in
  close_at rep (NLeaf leaf) (mk_state m a' rep 1).

(** [close] loads the root and removes the whole tree. *)
Definition close_tree (st : state) : option state :=
  root_instance ← load (root_ st) st;
  remove_node (depth_ st) (root_ st) root_instance st.

Definition clear (st : state) : option state :=
  st ← close_tree st; Some (init (blocks st) (alloc st)).

(** ** Iteration *)
Fixpoint get_leftmost_leaf_node (fuel : nat) (n : node) (st : state) : option Z :=
  match n with
  | NLeaf l => Some (LeafNode.self_rep_ l)
  | NInner i =>
      match fuel with
      | 0 => None
      | S fuel' => c ← InnerNode.child_rep_ i !! 0; child ← load c st;
                   get_leftmost_leaf_node fuel' child st
      end
  end.

(** [locate_key]: the leaf that may hold the key and the position in it. When
    the key is below the leftmost key the reference parameter is left
    unassigned: [None] in the second component. *)
Fixpoint locate_key (fuel : nat) (n : node) (k : Z) (st : state) : option (bool * option (Z * nat)) :=
  match n with
  | NLeaf l =>
      '(found, pos) ← LeafNode.search_key_position l k;
      Some (found, Some (LeafNode.self_rep_ l, pos))
  | NInner i =>
      match fuel with
      | 0 => None
      | S fuel' =>
          index ← InnerNode.locate_child_index k i;
          if (index <? 0)%Z then Some (false, None)
          else c ← InnerNode.child_rep_ i !! Z.to_nat index;
               child ← load c st; locate_key fuel' child k st
      end
  end.

(** The iterator: a leaf address, an offset, and the upper bound of a range
    search. *)
Record Iterator := mk_iter { leaf_node_ref_ : Z; offset_ : nat; key_high_ : option Z }.

Definition get_iterator (st : state) : option Iterator :=
  n ← load (root_ st) st;
  l ← get_leftmost_leaf_node (depth_ st) n st;
  Some (mk_iter l 0 None).

(** [range_search]: the result of [locate_key] is not tested; an unassigned
    reference is dereferenced ([None]). *)
Definition range_search (key_low key_high : Z) (st : state) : option Iterator :=
  n ← load (root_ st) st;
  '(_, r) ← locate_key (depth_ st) n key_low st;
  '(l, offset) ← r;
  Some (mk_iter l offset (Some key_high)).

(** [next]: the fuel bounds the number of empty leaves that are skipped. The
    result says whether [next] returned true, and the entry it stored. *)
Fixpoint next (fuel : nat) (it : Iterator) (st : state)
    : option (bool * option (Z * Z) * Iterator) :=
  match fuel with
  | 0 => None
  | S fuel' =>
      if (leaf_node_ref_ it =? -1)%Z then Some (false, None, it) else
      n ← load (leaf_node_ref_ it) st;
      match n with
      | NInner _ => None
      | NLeaf l =>
          e ← LeafNode.getEntry (offset_ it) l;
          match e with
          | Some (k, v) =>
              let it' := mk_iter (leaf_node_ref_ it) (offset_ it + 1) (key_high_ it) in
              let ok := match key_high_ it with
                        | Some h => (k <? h)%Z || (k =? h)%Z
                        | None => true
                        end in
              Some (ok, Some (k, v), it')
          | None =>
              if negb (LeafNode.right_sibling_ l =? -1)%Z then
                next fuel' (mk_iter (LeafNode.right_sibling_ l) 0 (key_high_ it)) st
              else Some (false, None, it)
          end
      end
  end.

(** The entries a client obtains by calling [next] until it returns false. *)
Fixpoint drain (calls : nat) (fuel : nat) (it : Iterator) (st : state) : option kv :=
  match calls with
  | 0 => Some []
  | S calls' =>
      '(ok, e, it') ← next fuel it st;
      if (ok : bool) then e ← e; rest ← drain calls' fuel it' st; Some (e :: rest)
      else Some []
  end.

End tree.
