(* ===== verification/TreeRep.v ===== *)
(** The representation invariant of the tree: which sorted list of entries the
    blocks reachable from the root hold, the key intervals of the subtrees, the
    chain of leaves, and the frame property. *)
From Stdlib Require Import ZArith Lia.
From stdpp Require Import base list gmap sorting numbers.
From S2P Require Import Prelude KV Leaf Inner Store Tree.

Section rep.
Context (CAPACITY : nat).

(** Upper bound of the first of the subtrees [kcs]. *)
Definition next_hi (kcs : list (Z * Z)) (hi : option Z) : option Z :=
  match kcs with [] => hi | (k, _) :: _ => Some k end.

(** A relation on subtrees [R c lo hi fst nxt l ids] says: the subtree at [c]
    holds the entries [l], all within [lo, hi); its first leaf is [fst], the
    right sibling of its last leaf is [nxt], and its blocks are [ids]. [reps]
    extends it to the children of an inner node. *)
Definition subtree := Z → option Z → option Z → Z → Z → kv → list Z → Prop.

Fixpoint reps (R : subtree) (kcs : list (Z * Z)) (hi : option Z) (f nx : Z) (l : kv) (ids : list Z) : Prop :=
  match kcs with
  | [] => f = nx ∧ l = [] ∧ ids = []
  | (k, c) :: rest =>
      ∃ mid l1 l2 i1 i2,
        R c (Some k) (next_hi rest hi) f mid l1 i1 ∧ reps R rest hi mid nx l2 i2 ∧
        l = l1 ++ l2 ∧ ids = i1 ++ i2
  end.

Fixpoint rep (h : nat) (m : gmap Z blk) (id : Z) (lo hi : option Z) (f nx : Z) (l : kv) (ids : list Z) : Prop :=
  match h with
  | 0 =>
      m !! id = Some (BLeaf l nx id) ∧ f = id ∧ ids = [id] ∧ (0 ≤ id)%Z ∧
      length l ≤ CAPACITY ∧ ksorted (keys l) ∧ (∀ k, k ∈ keys l → within lo hi k)
  | S h' =>
      ∃ kcs ids',
        m !! id = Some (BInner kcs.*1 kcs.*2 id) ∧ ids = id :: ids' ∧ (0 ≤ id)%Z ∧
        kcs ≠ [] ∧ length kcs ≤ CAPACITY ∧ ksorted (keys kcs) ∧
        (∀ k, k ∈ keys kcs → within lo hi k) ∧
        reps (rep h' m) kcs hi f nx l ids'
  end.

Implicit Types (R : subtree) (kcs : list (Z * Z)) (l : kv).

Lemma next_hi_app a b hi : next_hi (a ++ b) hi = next_hi a (next_hi b hi).
Proof. by destruct a as [|[k c] a]. Qed.

Lemma reps_app R a b hi f nx l ids :
  reps R (a ++ b) hi f nx l ids ↔
  ∃ mid l1 l2 i1 i2, reps R a (next_hi b hi) f mid l1 i1 ∧ reps R b hi mid nx l2 i2 ∧
    l = l1 ++ l2 ∧ ids = i1 ++ i2.
Proof.
  revert f l ids. induction a as [|[k c] a IH]; intros f l ids; simpl.
  - split.
    + intros H. by exists f, [], l, [], ids.
    + intros (mid & l1 & l2 & i1 & i2 & (-> & -> & ->) & H & -> & ->). done.
  - setoid_rewrite next_hi_app. setoid_rewrite IH. split.
    + intros (mid & l1 & l2 & i1 & i2 & HR & (mid' & l3 & l4 & i3 & i4 & Ha & Hb & -> & ->) & -> & ->).
      exists mid', (l1 ++ l3), l4, (i1 ++ i3), i4. split_and!; [|done|by rewrite app_assoc..].
      by exists mid, l1, l3, i1, i3.
    + intros (mid & l1 & l2 & i1 & i2 & (mid' & l3 & l4 & i3 & i4 & HR & Ha & -> & ->) & Hb & -> & ->).
      exists mid', l3, (l4 ++ l2), i3, (i4 ++ i2). split_and!; [done| |by rewrite app_assoc..].
      by exists mid, l4, l2, i4, i2.
Qed.

(** The children around one of them. *)
Lemma reps_middle R a k c b hi f nx l ids :
  reps R (a ++ (k, c) :: b) hi f nx l ids ↔
  ∃ m1 m2 la lc lb ia ic ib,
    reps R a (Some k) f m1 la ia ∧ R c (Some k) (next_hi b hi) m1 m2 lc ic ∧
    reps R b hi m2 nx lb ib ∧ l = la ++ lc ++ lb ∧ ids = ia ++ ic ++ ib.
Proof.
  rewrite reps_app. simpl. split.
  - intros (m1 & la & l2 & ia & i2 & Ha & (m2 & lc & lb & ic & ib & Hc & Hb & -> & ->) & -> & ->).
    by exists m1, m2, la, lc, lb, ia, ic, ib.
  - intros (m1 & m2 & la & lc & lb & ia & ic & ib & Ha & Hc & Hb & -> & ->).
    exists m1, la, (lc ++ lb), ia, (ic ++ ib). split_and!; try done.
    by exists m2, lc, lb, ic, ib.
Qed.

(** [reps] is monotone in the relation on the blocks it mentions. *)
Lemma reps_impl R R' kcs hi f nx l ids :
  (∀ c lo h f n l i, (∀ j, j ∈ i → j ∈ ids) → R c lo h f n l i → R' c lo h f n l i) →
  reps R kcs hi f nx l ids → reps R' kcs hi f nx l ids.
Proof.
  revert f l ids. induction kcs as [|[k c] kcs IH]; intros f l ids HR; simpl; [done|].
  intros (mid & l1 & l2 & i1 & i2 & H1 & H2 & -> & ->).
  exists mid, l1, l2, i1, i2. split_and!; try done.
  - apply HR; [|done]. intros j Hj. apply elem_of_app. auto.
  - apply IH; [|done]. intros. apply HR; [|done]. intros j Hj. apply elem_of_app. auto.
Qed.

(** Frame: a subtree only depends on its blocks. *)
Lemma rep_frame h m m' id lo hi f nx l ids :
  (∀ j, j ∈ ids → m' !! j = m !! j) →
  rep h m id lo hi f nx l ids → rep h m' id lo hi f nx l ids.
Proof.
  revert id lo hi f nx l ids. induction h as [|h IH]; intros id lo hi f nx l ids Hm; simpl.
  - intros (H1 & H2 & -> & H4). split; [|done]. rewrite Hm; [done|by constructor].
  - intros (kcs & ids' & H1 & -> & H3 & H4 & H5 & H6 & H7 & H8). exists kcs, ids'.
    split_and!; try done.
    + rewrite Hm; [done|by constructor].
    + eapply reps_impl; [|exact H8]. intros c lo' hi' f' n' l' i' Hsub HR.
      eapply IH; [|exact HR]. intros j Hj. apply Hm. constructor. auto.
Qed.

Lemma reps_frame h m m' kcs hi f nx l ids :
  (∀ j, j ∈ ids → m' !! j = m !! j) →
  reps (rep h m) kcs hi f nx l ids → reps (rep h m') kcs hi f nx l ids.
Proof.
  intros Hm. apply reps_impl. intros c lo' hi' f' n' l' i' Hsub HR.
  eapply rep_frame; [|exact HR]. auto.
Qed.

(** Keys of a subtree lie in its interval and are sorted. *)
Definition good (R : subtree) : Prop :=
  ∀ c lo hi f n l i, R c lo hi f n l i →
    ksorted (keys l) ∧ (∀ k, k ∈ keys l → within lo hi k) ∧ c ∈ i.

Lemma reps_good R kcs hi f nx l ids :
  good R → ksorted (keys kcs) → (∀ k, k ∈ keys kcs → below hi k) →
  reps R kcs hi f nx l ids →
  ksorted (keys l) ∧
  (∀ k, k ∈ keys l → below hi k ∧ ∃ k0 c0 r, kcs = (k0, c0) :: r ∧ (k0 ≤ k)%Z).
Proof.
  intros HR. revert f l ids. induction kcs as [|[k c] kcs IH]; intros f l ids Hs Hb; simpl.
  { intros (_ & -> & _). split; [constructor|]. intros k Hk. by apply elem_of_nil in Hk. }
  intros (mid & l1 & l2 & i1 & i2 & H1 & H2 & -> & ->).
  apply ksorted_cons in Hs as [Hall Hs]. rewrite list.Forall_forall in Hall. simpl in Hall.
  destruct (HR _ _ _ _ _ _ _ H1) as (Hs1 & Hw1 & _).
  destruct (IH mid l2 i2 Hs) as [Hs2 Hw2]; [|done|].
  { intros k' Hk'. apply Hb. simpl. by constructor. }
  rewrite fmap_app. split.
  - apply ksorted_app. split_and!; [done|done|]. intros x y Hx Hy.
    destruct (Hw1 _ Hx) as [_ Hx2]. destruct (Hw2 _ Hy) as (_ & k0 & c0 & r & -> & Hle).
    simpl in Hx2. lia.
  - intros x Hx. apply elem_of_app in Hx as [Hx|Hx].
    + destruct (Hw1 _ Hx) as [Hx1 Hx2]. simpl in Hx1. split; [|by exists k, c, kcs].
      destruct kcs as [|[k0 c0] r]; simpl in Hx2; [done|].
      assert (below hi k0) as Hb0 by (apply Hb; simpl; by repeat constructor).
      destruct hi as [h|]; simpl in *; [lia|done].
    + destruct (Hw2 _ Hx) as (Hx1 & k0 & c0 & r & -> & Hle). split; [done|].
      exists k, c, ((k0, c0) :: r). split; [done|].
      specialize (Hall k0). simpl in Hall. assert (k < k0)%Z; [|lia]. apply Hall. constructor.
Qed.

Lemma rep_good h m : good (rep h m).
Proof.
  induction h as [|h IH]; intros id lo hi f nx l ids; simpl.
  - intros (_ & _ & -> & _ & _ & Hs & Hw). split_and!; [done|done|by constructor].
  - intros (kcs & ids' & _ & -> & _ & Hne & _ & Hs & Hw & HR).
    assert (Hb : ∀ k, k ∈ keys kcs → below hi k) by (intros k Hk; by apply Hw).
    destruct (reps_good _ _ _ _ _ _ _ IH Hs Hb HR) as [Hs' Hw'].
    split_and!; [done| |by constructor].
    intros k Hk. destruct (Hw' k Hk) as (Hb' & k0 & c0 & r & -> & Hle). split; [|done].
    destruct (Hw k0) as [Ha _]; [by constructor|].
    destruct lo as [lo|]; simpl in *; [lia|done].
Qed.

(** Every block of a subtree exists. *)
Lemma rep_dom h m id lo hi f nx l ids :
  rep h m id lo hi f nx l ids → ∀ j, j ∈ ids → (0 ≤ j)%Z ∧ is_Some (m !! j).
Proof.
  revert id lo hi f nx l ids. induction h as [|h IH]; intros id lo hi f nx l ids; simpl.
  - intros (H1 & _ & -> & H2 & _) j Hj. apply list_elem_of_singleton in Hj as ->. by eauto.
  - intros (kcs & ids' & H1 & -> & H3 & _ & _ & _ & _ & HR) j Hj.
    apply elem_of_cons in Hj as [->|Hj]; [by eauto|].
    clear H1 H3. revert f l ids' HR Hj. induction kcs as [|[k c] kcs IHk]; intros f l ids'; simpl.
    { intros (_ & _ & ->) Hj. by apply elem_of_nil in Hj. }
    intros (mid & l1 & l2 & i1 & i2 & H1 & H2 & -> & ->) Hj.
    apply elem_of_app in Hj as [Hj|Hj]; [by eapply IH|by eapply IHk].
Qed.

Lemma rep_head h m id lo hi f nx l ids :
  rep h m id lo hi f nx l ids → (0 ≤ id)%Z ∧ ∃ rest, ids = id :: rest.
Proof. destruct h; simpl; [naive_solver|]. intros (kcs & ids' & _ & -> & ? & _). eauto. Qed.

(** The first leaf is a real block. *)
Lemma rep_first h m id lo hi f nx l ids :
  rep h m id lo hi f nx l ids → (0 ≤ f)%Z.
Proof.
  revert id lo hi nx l ids. induction h as [|h IH]; intros id lo hi nx l ids; simpl.
  - intros (_ & -> & _ & ? & _). done.
  - intros (kcs & ids' & _ & _ & _ & Hne & _ & _ & _ & HR).
    destruct kcs as [|[k c] kcs]; [done|]. destruct HR as (mid & l1 & l2 & i1 & i2 & H1 & _).
    by eapply IH.
Qed.

(** Widening the interval of a subtree. *)
Lemma within_weaken lo hi lo' hi' k :
  (∀ k, above lo k → above lo' k) → (∀ k, below hi k → below hi' k) →
  within lo hi k → within lo' hi' k.
Proof. intros Hl Hh [? ?]. split; auto. Qed.

(** The two levels as rewriting rules; afterwards [rep] is opaque. *)
Lemma rep_0 m id lo hi f nx l ids :
  rep 0 m id lo hi f nx l ids ↔
  m !! id = Some (BLeaf l nx id) ∧ f = id ∧ ids = [id] ∧ (0 ≤ id)%Z ∧
  length l ≤ CAPACITY ∧ ksorted (keys l) ∧ (∀ k, k ∈ keys l → within lo hi k).
Proof. done. Qed.

Lemma rep_S h m id lo hi f nx l ids :
  rep (S h) m id lo hi f nx l ids ↔
  ∃ kcs ids',
    m !! id = Some (BInner kcs.*1 kcs.*2 id) ∧ ids = id :: ids' ∧ (0 ≤ id)%Z ∧
    kcs ≠ [] ∧ length kcs ≤ CAPACITY ∧ ksorted (keys kcs) ∧
    (∀ k, k ∈ keys kcs → within lo hi k) ∧
    reps (rep h m) kcs hi f nx l ids'.
Proof. done. Qed.

End rep.

#[global] Opaque rep.
