(* ===== verification/TreeFoot.v ===== *)
(** Shared lemmas of the tree operations: widening key intervals, the footprint
    of an operation on the blocks, and loading and closing nodes. *)
From Stdlib Require Import ZArith Lia.
From stdpp Require Import base list gmap sorting numbers.
From S2P Require Import Prelude KV Leaf Inner Store Tree TreeRep.

(** ** Key lists *)
Lemma head_min (k : Z) (c : Z) (rest : kv) x :
  ksorted (keys ((k, c) :: rest)) → x ∈ keys ((k, c) :: rest) → (k ≤ x)%Z.
Proof.
  intros Hs Hx. apply kvsorted_cons in Hs as [Hall _]. simpl in *.
  apply elem_of_cons in Hx as [->|Hx]; [done|]. apply Hall in Hx. lia.
Qed.

Lemma sorted_middle (pre post : kv) k c :
  ksorted (keys (pre ++ (k, c) :: post)) →
  (∀ x, x ∈ keys pre → (x < k)%Z) ∧ (∀ x, x ∈ keys post → (k < x)%Z) ∧
  ksorted (keys pre) ∧ ksorted (keys post).
Proof.
  rewrite fmap_app. simpl. intros Hs. apply ksorted_app in Hs as (H1 & H2 & H3).
  apply kvsorted_cons in H2 as [H2 H4]. split_and!; [|done|done|done].
  intros x Hx. apply H3; [done|constructor].
Qed.

Lemma below_next_hi (post : kv) hi k :
  ksorted (keys post) → below (next_hi post hi) k → ∀ x, x ∈ keys post → (k < x)%Z.
Proof.
  destruct post as [|[k0 c0] post]; intros Hs Hb x Hx; [by apply elem_of_nil in Hx|].
  simpl in Hb. apply (head_min _ _ _ _ Hs) in Hx. lia.
Qed.

Lemma kv_insert_middle b v pre k c (post : kv) hi :
  ksorted (keys (pre ++ (k, c) :: post)) → (k < b)%Z → below (next_hi post hi) b →
  kv_insert b v (pre ++ (k, c) :: post) = pre ++ (k, c) :: (b, v) :: post ∧
  lower_bound b (keys (pre ++ (k, c) :: post)) = S (length pre) ∧
  b ∉ keys (pre ++ (k, c) :: post).
Proof.
  intros Hs Hkb Hb. pose proof Hs as Hs0.
  apply sorted_middle in Hs as (Hpre & Hpost & _ & Hs2).
  pose proof (below_next_hi _ _ _ Hs2 Hb) as Hbp.
  assert (Hnin : b ∉ keys (pre ++ (k, c) :: post)).
  { rewrite fmap_app. simpl. rewrite elem_of_app, elem_of_cons. intros [Hx|[->|Hx]]; [|lia|].
    - apply Hpre in Hx. lia.
    - apply Hbp in Hx. lia. }
  split_and!; [| |done].
  - rewrite kv_insert_app_r by (intros x Hx; apply Hpre in Hx; lia). f_equal.
    simpl. destruct (Z.ltb_spec k b); [|lia]. f_equal.
    rewrite <- (app_nil_l post) at 1. by rewrite kv_insert_app_l.
  - apply lower_bound_unique.
    + simpl_len. lia.
    + intros i x Hi Hlt. rewrite fmap_app in Hi. simpl in Hi.
      apply lookup_app_Some in Hi as [Hi|[Hle Hi]].
      * apply list_elem_of_lookup_2, Hpre in Hi. lia.
      * rewrite length_fmap in *. replace (i - length pre) with 0 in Hi by lia. by simplify_eq/=.
    + intros i x Hi Hlt. rewrite fmap_app in Hi. simpl in Hi.
      rewrite lookup_app_r in Hi by (rewrite length_fmap; lia). rewrite length_fmap in Hi.
      destruct (i - length pre) as [|j] eqn:E; [lia|]. simpl in Hi.
      apply list_elem_of_lookup_2, Hbp in Hi. lia.
Qed.

Lemma split_at_lower_bound (k : Z) (l : kv) n :
  lower_bound (k + 1) (keys l) = S n → ksorted (keys l) →
  ∃ pre kt c post, l = pre ++ (kt, c) :: post ∧ length pre = n ∧ (kt ≤ k)%Z ∧
    (∀ x, x ∈ keys post → (k < x)%Z).
Proof.
  intros Hn Hs. pose proof (lower_bound_le (k + 1) (keys l)) as Hle.
  destruct (lookup_lt_exists l n) as [[kt c] Hc]; [rewrite length_fmap in Hle; lia|].
  exists (take n l), kt, c, (drop (S n) l).
  assert (Hk : keys l !! n = Some kt) by (by rewrite list_lookup_fmap, Hc).
  split_and!.
  - by rewrite take_drop_middle.
  - apply lookup_lt_Some in Hc. rewrite length_take. lia.
  - apply (lower_bound_below (k + 1)) in Hk; lia.
  - intros x Hx. rewrite fmap_drop in Hx. apply list_elem_of_lookup in Hx as [j Hj].
    rewrite lookup_drop in Hj. apply (lower_bound_above (k + 1)) in Hj; [lia|done|lia].
Qed.

Lemma next_hi_below (post : kv) hi k :
  below hi k → (∀ x, x ∈ keys post → (k < x)%Z) → below (next_hi post hi) k.
Proof. destruct post as [|[k0 c0] post]; [done|]. intros _ H. apply H. constructor. Qed.

(** The insertion into the contents happens in the region of the child. *)
Lemma kv_insert_region k v (la lc lb : kv) :
  (∀ x, x ∈ keys la → (x < k)%Z) → (∀ x, x ∈ keys lb → (k < x)%Z) →
  kv_insert k v (la ++ lc ++ lb) = la ++ kv_insert k v lc ++ lb.
Proof. intros Ha Hb. rewrite kv_insert_app_r by done. by rewrite kv_insert_app_l. Qed.

(** Where the search for a key continues: below the leftmost key, or in the
    last child whose key is not above it. *)
Lemma locate_cases CAPACITY i k :
  InnerNode.wf CAPACITY i →
  (InnerNode.locate_child_index k i = Some (-1)%Z ∧
   ∀ x, x ∈ keys (InnerNode.live i) → (k < x)%Z) ∨
  ∃ index pre kt c post,
    InnerNode.locate_child_index k i = Some index ∧ (0 ≤ index)%Z ∧
    Z.to_nat index = length pre ∧ InnerNode.child_rep_ i !! length pre = Some c ∧
    InnerNode.live i = pre ++ (kt, c) :: post ∧ (kt ≤ k)%Z ∧
    (∀ x, x ∈ keys post → (k < x)%Z).
Proof.
  intros Hwf. pose proof Hwf as (_ & _ & _ & Hs).
  rewrite (InnerNode.locate_child_index_live CAPACITY) by done.
  destruct (lower_bound (k + 1) (keys (InnerNode.live i))) as [|n] eqn:En.
  - left. split; [done|]. intros x Hx. apply list_elem_of_lookup in Hx as [j Hj].
    apply (lower_bound_above (k + 1)) in Hj; [lia|done|lia].
  - right. destruct (split_at_lower_bound _ _ _ En Hs) as (pre & kt & c & post & El & Hl & Hle & Hp).
    exists (Z.of_nat (S n) - 1)%Z, pre, kt, c, post. split_and!; try done; try lia.
    assert (Hi : InnerNode.live i !! length pre = Some (kt, c)).
    { rewrite El. by rewrite list_lookup_middle. }
    by apply InnerNode.inner_live_lookup in Hi as (_ & _ & Hi).
Qed.

Lemma live_head_kv (l : kv) : l ≠ [] → ∃ k y t, l = (k, y) :: t.
Proof. destruct l as [|[k y] t]; [done|eauto]. Qed.

Section foot.
Context {A : Type} `{!Allocator A} `{!AllocatorLaws A}.
Context (CAPACITY : nat) (junkE : list (Z * Z)) (junkK : list Z) (oob : Z).

Local Abbreviation state := (tree_state A).
Local Abbreviation load := (load CAPACITY junkE junkK).
Local Abbreviation rep := (rep CAPACITY).
Implicit Types (st : state).

(** ** Weakening the interval *)
Lemma rep_weaken h m id lo hi lo' hi' f nx l ids :
  (∀ k, above lo k → above lo' k) → (∀ k, below hi k → below hi' k) →
  rep h m id lo hi f nx l ids → rep h m id lo' hi' f nx l ids.
Proof.
  revert id lo hi lo' hi' f nx l ids.
  induction h as [|h IH]; intros id lo hi lo' hi' f nx l ids Hl Hh.
  - rewrite !rep_0. intros (H1 & H2 & H3 & H4 & H5 & H6 & H7). split_and!; try done.
    intros k Hk. eapply within_weaken; [exact Hl|exact Hh|auto].
  - rewrite !rep_S. intros (kcs & ids' & H1 & H2 & H3 & H4 & H5 & H6 & H7 & H8). exists kcs, ids'.
    split_and!; try done.
    { intros k Hk. eapply within_weaken; [exact Hl|exact Hh|auto]. }
    clear -IH H8 Hh. revert f l ids' H8.
    induction kcs as [|[k c] kcs IHk]; intros f l ids'; simpl; [done|].
    intros (mid & l1 & l2 & i1 & i2 & H1 & H2 & -> & ->).
    exists mid, l1, l2, i1, i2. split_and!; try done; [|by apply IHk].
    eapply IH; [done| |exact H1].
    destruct kcs as [|[k' c'] kcs]; simpl; [exact Hh|done].
Qed.

Lemma reps_weaken h m kcs hi hi' f nx l ids :
  (∀ k, below hi k → below hi' k) →
  reps (rep h m) kcs hi f nx l ids → reps (rep h m) kcs hi' f nx l ids.
Proof.
  intros Hh. revert f l ids. induction kcs as [|[k c] kcs IH]; intros f l ids; simpl; [done|].
  intros (mid & l1 & l2 & i1 & i2 & H1 & H2 & -> & ->).
  exists mid, l1, l2, i1, i2. split_and!; try done; [|by apply IH].
  eapply rep_weaken; [done| |exact H1]. destruct kcs as [|[k' c'] kcs]; simpl; [exact Hh|done].
Qed.

(** ** Footprints *)
(** [step_ok m m' a a' ids ids' q]: an operation that started on the blocks
    [ids] ended with the blocks [ids']; what it gained is fresh, what it lost
    was given back, no other allocated block changed, and [q] more allocations
    are possible. *)
Definition step_ok (m m' : gmap Z blk) (a a' : A) (ids ids' : list Z) (q : nat) : Prop :=
  NoDup ids' ∧ (∀ j, j ∈ ids → j ∈ in_use a) ∧
  (∀ j, j ∈ ids' → j ∈ ids ∨ j ∉ in_use a) ∧
  (∀ j, j ∈ in_use a' ↔ (j ∈ in_use a ∧ j ∉ ids) ∨ j ∈ ids') ∧
  alloc_wf a' ∧ room a' q ∧
  (∀ j, j ∈ in_use a → j ∉ ids → m' !! j = m !! j).

Lemma step_ok_refl m a ids q :
  NoDup ids → (∀ j, j ∈ ids → j ∈ in_use a) → alloc_wf a → room a q →
  step_ok m m a a ids ids q.
Proof.
  intros Hnd Hin Hwf Hr. split_and!; auto.
  intros j. split; [|naive_solver]. intros Hj.
  destruct (decide (j ∈ ids)); auto.
Qed.

Lemma step_ok_nodup m m' a a' ids ids' q : step_ok m m' a a' ids ids' q → NoDup ids'.
Proof. by intros (?&_). Qed.

(** What a client learns of the allocator and of the other blocks. *)
Lemma step_ok_facts m m' a a' ids ids' q : step_ok m m' a a' ids ids' q →
  (∀ j, j ∈ in_use a' ↔ (j ∈ in_use a ∧ j ∉ ids) ∨ j ∈ ids') ∧ alloc_wf a' ∧ room a' q ∧
  (∀ j, j ∈ in_use a → j ∉ ids → m' !! j = m !! j).
Proof. by intros (_&_&_&?&?&?&?). Qed.

Lemma step_ok_room m m' a a' ids ids' q q' :
  q' ≤ q → step_ok m m' a a' ids ids' q → step_ok m m' a a' ids ids' q'.
Proof. intros Hq (?&?&?&?&?&?&?). split_and!; auto. by eapply room_le. Qed.

Lemma step_ok_perm m m' a a' ids ids1 ids2 q :
  ids1 ≡ₚ ids2 → step_ok m m' a a' ids ids1 q → step_ok m m' a a' ids ids2 q.
Proof.
  intros Hp (H1&H2&H3&H4&H5&H6&H7). split_and!; auto.
  - by rewrite <- Hp.
  - intros j. rewrite <- Hp. auto.
  - intros j. rewrite <- Hp. auto.
Qed.

Lemma step_ok_write m m' a a' ids ids' q i b :
  i ∈ ids' → step_ok m m' a a' ids ids' q → step_ok m (<[i := b]> m') a a' ids ids' q.
Proof.
  intros Hi (H1&H2&H3&H4&H5&H6&H7). split_and!; auto.
  intros j Hj Hn. rewrite lookup_insert_ne; [auto|]. intros ->.
  destruct (H3 _ Hi); done.
Qed.

Lemma step_ok_alloc m m' a a' a'' ids ids' q i :
  allocate a' = (i, a'') → step_ok m m' a a' ids ids' (S q) →
  step_ok m m' a a'' ids (i :: ids') q ∧ (0 ≤ i)%Z ∧ i ∉ ids'.
Proof.
  intros Ha (H1&H2&H3&H4&H5&H6&H7).
  destruct (allocate_fresh _ _ _ _ H5 H6 Ha) as (Hf & H0 & Hu & Hw & Hr).
  assert (i ∉ ids') by (intros Hi; apply Hf, H4; auto).
  split; [|done]. split_and!; auto.
  - by constructor.
  - intros j Hj. apply elem_of_cons in Hj as [->|Hj]; [|auto].
    destruct (decide (i ∈ ids)); [auto|]. right. intros Hin. apply Hf, H4. auto.
  - intros j. rewrite Hu, elem_of_union, elem_of_singleton, H4, elem_of_cons. tauto.
Qed.

Lemma step_ok_free m m' a a' ids ids1 ids' q i :
  ids1 ≡ₚ i :: ids' → step_ok m m' a a' ids ids1 q →
  step_ok m m' a (deallocate i a') ids ids' q.
Proof.
  intros Hp H. apply (step_ok_perm _ _ _ _ _ _ _ _ Hp) in H. destruct H as (H1&H2&H3&H4&H5&H6&H7).
  apply list.NoDup_cons in H1 as [Hni H1].
  destruct (deallocate_free a' q i H5 H6) as (Hu & Hw & Hr).
  { apply H4. right. constructor. }
  split_and!; auto.
  - intros j Hj. apply H3. by constructor.
  - intros j. rewrite Hu, elem_of_difference, elem_of_singleton, H4, elem_of_cons. split.
    + naive_solver.
    + intros [[Hj1 Hj2]|Hj]; [|split; [auto|by intros ->]].
      split; [auto|]. intros ->. destruct (H3 i); [constructor|done|done].
Qed.

(** The footprint of an operation on a part of the blocks. *)
Lemma step_ok_context m m' a a' ids ids' part part' rest q :
  NoDup ids → (∀ j, j ∈ ids → j ∈ in_use a) →
  ids ≡ₚ part ++ rest → ids' ≡ₚ part' ++ rest →
  step_ok m m' a a' part part' q → step_ok m m' a a' ids ids' q.
Proof.
  intros Hnd Hin Hp Hp' (H1&H2&H3&H4&H5&H6&H7).
  rewrite Hp in Hnd. apply list.NoDup_app in Hnd as (Hn1 & Hn2 & Hn3).
  assert (Hin' : ∀ j, j ∈ part ∨ j ∈ rest → j ∈ in_use a).
  { intros j Hj. apply Hin. rewrite Hp. by apply elem_of_app. }
  split_and!; auto.
  - rewrite Hp'. apply list.NoDup_app. split_and!; auto. intros j Hj Hr.
    destruct (H3 _ Hj) as [Hj'|Hj']; [by apply (Hn2 j)|]. auto.
  - intros j. rewrite Hp', Hp, !elem_of_app. intros [Hj|Hj]; [|auto].
    destruct (H3 _ Hj); auto.
  - intros j. rewrite Hp', Hp, H4, !elem_of_app. split; [|naive_solver].
    intros [[Hj Hn]|Hj]; [|auto]. destruct (decide (j ∈ rest)); [auto|]. left. tauto.
  - intros j Hj Hn. apply H7; [done|]. intros Hp1. apply Hn. rewrite Hp. by apply elem_of_app; auto.
Qed.

(** ** Loading and closing nodes *)
Lemma load_leaf st id l nx :
  params_ok CAPACITY junkE junkK → blocks st !! id = Some (BLeaf l nx id) → (0 ≤ id)%Z → length l ≤ CAPACITY → ksorted (keys l) →
  ∃ n, load id st = Some (NLeaf n) ∧ LeafNode.wf CAPACITY n ∧ LeafNode.live n = l ∧
    LeafNode.right_sibling_ n = nx ∧ LeafNode.self_rep_ n = id ∧ LeafNode.modified_ n = false.
Proof.
  intros (_ & HjE & HjK) Hb H0 Hl Hs. unfold Store.load, ref_get. simpl.
  destruct (Z.ltb_spec id 0); [lia|]. rewrite Hb. simpl.
  destruct (Nat.leb_spec (length l) CAPACITY); [|lia]. simpl.
  eexists. split; [done|]. simpl. unfold LeafNode.wf, LeafNode.live. simpl.
  rewrite take_app_exact by done. split_and!; try done. simpl_len. lia.
Qed.

Lemma zip_fst_snd_app (kcs : list (Z * Z)) (x y : list Z) :
  zip (kcs.*1 ++ x) (kcs.*2 ++ y) = kcs ++ zip x y.
Proof. induction kcs as [|[k c] kcs IH]; simpl; [done|]. f_equal. apply IH. Qed.

Lemma load_inner st id kcs :
  params_ok CAPACITY junkE junkK → blocks st !! id = Some (BInner kcs.*1 kcs.*2 id) → (0 ≤ id)%Z →
  length kcs ≤ CAPACITY → ksorted (keys kcs) →
  ∃ i, load id st = Some (NInner i) ∧ InnerNode.wf CAPACITY i ∧ InnerNode.live i = kcs ∧
    InnerNode.self_rep_ i = id ∧ InnerNode.modified_ i = false.
Proof.
  intros (_ & HjE & HjK) Hb H0 Hl Hs. unfold Store.load, ref_get. simpl.
  destruct (Z.ltb_spec id 0); [lia|]. rewrite Hb. simpl. rewrite !length_fmap.
  destruct (Nat.leb_spec (length kcs) CAPACITY); [|lia]. rewrite Nat.eqb_refl. simpl.
  eexists. split; [done|].
  assert (Hlive : take (length kcs) (zip (kcs.*1 ++ drop (length kcs) junkK)
      (kcs.*2 ++ drop (length kcs) (replicate CAPACITY (-1)%Z))) = kcs).
  { rewrite zip_fst_snd_app. by rewrite take_app_exact. }
  unfold InnerNode.wf, InnerNode.live. simpl. rewrite Hlive.
  split_and!; try done; rewrite length_app, length_fmap, length_drop, ?length_replicate; lia.
Qed.

Lemma serialize_inner i :
  InnerNode.wf CAPACITY i →
  serialize (NInner i) =
    BInner (InnerNode.live i).*1 (InnerNode.live i).*2 (InnerNode.self_rep_ i).
Proof.
  intros (H1 & H2 & H3 & _). simpl. unfold InnerNode.live.
  rewrite !fmap_take, fst_zip, snd_zip by lia. done.
Qed.

Lemma close_blocks id n st :
  blocks (close_at id n st) =
    if node_modified n then <[id := serialize n]> (blocks st) else blocks st.
Proof. unfold close_at, ref_close. simpl. by destruct (node_modified n). Qed.

Lemma close_rest id n st :
  alloc (close_at id n st) = alloc st ∧ root_ (close_at id n st) = root_ st ∧
  depth_ (close_at id n st) = depth_ st.
Proof. unfold close_at, ref_close. simpl. by destruct (node_modified n). Qed.

Lemma close_alloc id n st : alloc (close_at id n st) = alloc st.
Proof. apply close_rest. Qed.
Lemma close_root id n st : root_ (close_at id n st) = root_ st.
Proof. apply close_rest. Qed.
Lemma close_depth id n st : depth_ (close_at id n st) = depth_ st.
Proof. apply close_rest. Qed.

Lemma close_lookup_ne id n st j : j ≠ id → blocks (close_at id n st) !! j = blocks st !! j.
Proof. intros Hj. rewrite close_blocks. destruct (node_modified n); [by rewrite lookup_insert_ne|done]. Qed.

Lemma close_set_alloc a id n st : close_at id n (set_alloc a st) = set_alloc a (close_at id n st).
Proof. unfold close_at, ref_close. simpl. by destruct (node_modified n). Qed.

Lemma rep_loadable (Hpar : params_ok CAPACITY junkE junkK) h st id lo hi f nx l ids :
  rep h (blocks st) id lo hi f nx l ids → ∃ n, load id st = Some n.
Proof.
  destruct h as [|h].
  - rewrite rep_0. intros (Hb & _ & _ & H0 & Hl & Hs & _).
    destruct (load_leaf st id l nx Hpar Hb H0 Hl Hs) as (n & Hn & _). eauto.
  - rewrite rep_S. intros (kcs & ids' & Hb & _ & H0 & _ & Hl & Hs & _).
    destruct (load_inner st id kcs Hpar Hb H0 Hl Hs) as (n & Hn & _). eauto.
Qed.

(** A node instance agrees with its block or will be written. *)
Definition in_sync (n : node) st : Prop :=
  node_modified n = true ∨ blocks st !! node_self_rep n = Some (serialize n).

Lemma close_lookup n st :
  in_sync n st → blocks (close_at (node_self_rep n) n st) !! node_self_rep n = Some (serialize n).
Proof.
  intros Hs. rewrite close_blocks. destruct (node_modified n) eqn:E; [by rewrite lookup_insert_eq|].
  destruct Hs; [congruence|done].
Qed.

Lemma step_ok_close m st a ids ids' q id n :
  id ∈ ids' → step_ok m (blocks st) a (alloc st) ids ids' q →
  step_ok m (blocks (close_at id n st)) a (alloc (close_at id n st)) ids ids' q.
Proof.
  intros Hi H. rewrite close_blocks, close_alloc.
  destruct (node_modified n); [by apply step_ok_write|done].
Qed.

Lemma rep_leaf_intro st n lo hi :
  in_sync (NLeaf n) st → LeafNode.wf CAPACITY n → (0 ≤ LeafNode.self_rep_ n)%Z →
  (∀ k, k ∈ keys (LeafNode.live n) → within lo hi k) →
  rep 0 (blocks (close_at (LeafNode.self_rep_ n) (NLeaf n) st)) (LeafNode.self_rep_ n) lo hi
    (LeafNode.self_rep_ n) (LeafNode.right_sibling_ n) (LeafNode.live n) [LeafNode.self_rep_ n].
Proof.
  intros Hs Hwf H0 Hw. rewrite rep_0. pose proof (close_lookup _ _ Hs) as Hc. simpl in Hc.
  pose proof (LeafNode.length_live _ _ Hwf) as Hl. destruct Hwf as (H1 & H2 & H3).
  split_and!; try done. lia.
Qed.

Lemma rep_inner_intro h st i lo hi f nx l ids :
  in_sync (NInner i) st → InnerNode.wf CAPACITY i → (0 ≤ InnerNode.self_rep_ i)%Z →
  InnerNode.live i ≠ [] → (∀ k, k ∈ keys (InnerNode.live i) → within lo hi k) →
  InnerNode.self_rep_ i ∉ ids →
  reps (rep h (blocks st)) (InnerNode.live i) hi f nx l ids →
  rep (S h) (blocks (close_at (InnerNode.self_rep_ i) (NInner i) st)) (InnerNode.self_rep_ i) lo hi
    f nx l (InnerNode.self_rep_ i :: ids).
Proof.
  intros Hs Hwf H0 Hne Hw Hni HR. rewrite rep_S. exists (InnerNode.live i), ids.
  pose proof (close_lookup _ _ Hs) as Hc. rewrite serialize_inner in Hc by done. simpl in Hc.
  pose proof (InnerNode.inner_length_live _ _ Hwf) as Hl. pose proof Hwf as (_ & _ & H3 & H4).
  split_and!; try done; [lia|].
  eapply reps_frame; [|exact HR]. intros j Hj. apply close_lookup_ne. by intros ->.
Qed.

(** ** Replacing some children of an inner node *)
(** What lies outside the footprint keeps its blocks. *)
Lemma step_ok_outside m m' a a' id ia ir ir' ib q :
  NoDup (id :: ia ++ ir ++ ib) → (∀ j, j ∈ id :: ia ++ ir ++ ib → j ∈ in_use a) →
  step_ok m m' a a' ir ir' q → ∀ j, j ∈ id :: ia ++ ib → m' !! j = m !! j.
Proof.
  intros Hnd Hin (_ & _ & _ & _ & _ & _ & Hfr) j Hj. apply Hfr.
  - apply Hin. rewrite elem_of_cons, !elem_of_app in *. tauto.
  - intros Hr. rewrite !list.NoDup_cons, !list.NoDup_app in Hnd.
    rewrite elem_of_cons, !elem_of_app in *. set_solver.
Qed.

(** The children [reg] of a node with blocks [ids] are replaced by [reg'],
    whose first key is the same; the other children are not touched. *)
Lemma region_update h m m' a a' id (pre reg reg' post : kv) hi f nx m1 m2 la lr' lb ia ir ir' ib q :
  NoDup (id :: ia ++ ir ++ ib) → (∀ j, j ∈ id :: ia ++ ir ++ ib → j ∈ in_use a) →
  reps (rep h m) pre (next_hi reg (next_hi post hi)) f m1 la ia →
  reps (rep h m) post hi m2 nx lb ib →
  step_ok m m' a a' ir ir' q →
  reps (rep h m') reg' (next_hi post hi) m1 m2 lr' ir' →
  next_hi reg' None = next_hi reg None → reg' ≠ [] →
  reps (rep h m') (pre ++ reg' ++ post) hi f nx (la ++ lr' ++ lb) (ia ++ ir' ++ ib) ∧
  step_ok m m' a a' (id :: ia ++ ir ++ ib) (id :: ia ++ ir' ++ ib) q ∧
  m' !! id = m !! id.
Proof.
  intros Hnd Hin Hpre Hpost Hst Hreg Hk Hne.
  pose proof (step_ok_outside _ _ _ _ _ _ _ _ _ _ Hnd Hin Hst) as Hout.
  split_and!.
  - rewrite reps_app. exists m1, la, (lr' ++ lb), ia, (ir' ++ ib). split_and!; [| |done|done].
    + eapply reps_frame.
      { intros j Hj. apply Hout. rewrite elem_of_cons, elem_of_app. auto. }
      destruct reg' as [|[k' c'] reg']; [done|]. simpl in *.
      destruct reg as [|[k0 c0] reg]; simplify_eq/=. done.
    + rewrite reps_app. exists m2, lr', lb, ir', ib. split_and!; [done| |done|done].
      eapply reps_frame; [|done]. intros j Hj. apply Hout. rewrite elem_of_cons, elem_of_app. auto.
  - eapply (step_ok_context _ _ _ _ _ _ ir ir' (id :: ia ++ ib)); [done|done| | |done]; solve_Permutation.
  - apply Hout. constructor.
Qed.

(** The keys of the children before and after a region. *)
Lemma region_keys h m (pre reg post : kv) hi f nx m1 m2 la lb ia ib kt :
  ksorted (keys (pre ++ reg ++ post)) → (∀ x, x ∈ keys (pre ++ reg ++ post) → below hi x) →
  next_hi reg None = Some kt →
  reps (rep h m) pre (next_hi reg (next_hi post hi)) f m1 la ia →
  reps (rep h m) post hi m2 nx lb ib →
  (∀ x, x ∈ keys la → (x < kt)%Z) ∧
  (∀ x k, x ∈ keys lb → below (next_hi post hi) k → (k < x)%Z).
Proof.
  intros Hs Hw Hk Hpre Hpost. destruct reg as [|[k0 c0] reg]; simplify_eq/=.
  assert (Hs' := Hs). rewrite app_comm_cons, app_assoc, fmap_app in Hs'.
  apply ksorted_app in Hs' as (_ & Hsp & _). apply sorted_middle in Hs as (Hlt & _ & Hs1 & _).
  split.
  - intros x Hx. eapply reps_good in Hpre as [_ Hp]; [|apply rep_good|done|by intros ? ?; apply Hlt].
    by apply Hp in Hx as [? _].
  - intros x k Hx Hb. eapply reps_good in Hpost as [_ Hp]; [|apply rep_good|done|].
    + apply Hp in Hx as (_ & k1 & c1 & r & -> & Hle). simpl in Hb. lia.
    + intros y Hy. apply Hw. rewrite app_comm_cons, app_assoc, fmap_app. apply elem_of_app. auto.
Qed.

(** ** The invariant of a tree *)
(** The tree at [root_] has [depth_] levels, holds the entries [l] in the
    blocks [ids], all of which are allocated, and its last leaf has no right
    sibling. *)
Definition tree_ok st (l : kv) (ids : list Z) : Prop :=
  1 ≤ depth_ st ∧ (∃ f, rep (depth_ st - 1) (blocks st) (root_ st) None None f (-1)%Z l ids) ∧
  NoDup ids ∧ (∀ j, j ∈ ids → j ∈ in_use (alloc st)) ∧ alloc_wf (alloc st).

(** The abstract state: the finite map from keys to values, the number of
    blocks still available. *)
Definition represents st (M : gmap Z Z) : Prop :=
  ∃ l ids, tree_ok st l ids ∧ kv_map l = M.

Lemma tree_ok_sorted st l ids : tree_ok st l ids → ksorted (keys l).
Proof. intros (_ & (f & Hrep) & _). by apply rep_good in Hrep as (? & _). Qed.

Lemma tree_ok_step m a st l ids0 ids f h q :
  step_ok m (blocks st) a (alloc st) ids0 ids q → depth_ st = S h →
  rep h (blocks st) (root_ st) None None f (-1)%Z l ids → tree_ok st l ids.
Proof.
  intros (H1 & H2 & H3 & H4 & H5 & H6 & H7) Hd Hrep. rewrite <- (Nat.sub_0_r h) in Hrep.
  split_and!; auto; [lia|exists f|]; [by rewrite Hd|]. intros j Hj. apply H4. auto.
Qed.

End foot.

Arguments step_ok {A _} m m' a a' ids ids' q.
#[global] Opaque step_ok.
