(* ===== verification/TreeInsert.v ===== *)
(** Insertion into the tree preserves the representation invariant and adds the
    entry to the abstract contents. *)
From Stdlib Require Import ZArith Lia.
From stdpp Require Import base list gmap sorting numbers.
From S2P Require Import Prelude KV Leaf Inner Store Tree TreeRep TreeFoot.

Section insert.
Context {A : Type} `{!Allocator A} `{!AllocatorLaws A}.
Context (CAPACITY : nat) (junkE : list (Z * Z)) (junkK : list Z).
Context (Hpar : params_ok CAPACITY junkE junkK).

Local Abbreviation state := (tree_state A).
Local Abbreviation load := (load CAPACITY junkE junkK).
Local Abbreviation rep := (rep CAPACITY).
Local Abbreviation insert_ws := (insert_with_split_support CAPACITY junkE junkK).
Implicit Types (st : state).

(** ** The child an insertion descends to *)
Lemma descend i k lo hi :
  InnerNode.wf CAPACITY i → InnerNode.live i ≠ [] →
  (∀ x, x ∈ keys (InnerNode.live i) → within lo hi x) → within lo hi k →
  ∃ index i1 pre k0 kt c post,
    InnerNode.locate_child_index k i = Some index ∧
    (if (index <? 0)%Z then InnerNode.set_left_boundary k i else Some i) = Some i1 ∧
    Z.to_nat (Z.max 0 index) = length pre ∧ InnerNode.child_rep_ i1 !! length pre = Some c ∧
    InnerNode.wf CAPACITY i1 ∧ InnerNode.live i = pre ++ (k0, c) :: post ∧
    InnerNode.live i1 = pre ++ (kt, c) :: post ∧
    InnerNode.self_rep_ i1 = InnerNode.self_rep_ i ∧
    (InnerNode.modified_ i1 = true ∨ i1 = i) ∧
    (kt ≤ k)%Z ∧ (kt ≤ k0)%Z ∧ (pre = [] ∨ k0 = kt) ∧ below (next_hi post hi) k ∧
    (∀ x, x ∈ keys (InnerNode.live i1) → within lo hi x).
Proof.
  intros Hwf Hne Hw Hk. pose proof Hwf as (_ & _ & _ & Hs).
  destruct (locate_cases CAPACITY i k Hwf) as
    [[Hloc Hlt]|(index & pre & kt & c & post & Hloc & H0 & Hpre & Hc & Hl & Hle & Hp)].
  - destruct (live_head_kv _ Hne) as (k0 & c & post & El). rewrite El in Hs, Hw, Hlt.
    assert (Hk0 : (k < k0)%Z) by (apply Hlt; constructor).
    destruct (InnerNode.set_left_boundary_live CAPACITY k i k0 c post) as (i1 & H1 & H2 & H3 & H4 & H5 & _);
      [done..|].
    exists (-1)%Z, i1, [], k0, k, c, post. rewrite H3. split_and!; try done; try lia; auto.
    + assert (Hi : InnerNode.live i1 !! 0 = Some (k, c)) by (by rewrite H3).
      by apply InnerNode.inner_live_lookup in Hi as (_ & _ & Hi).
    + apply next_hi_below; [apply Hk|]. intros x Hx. apply Hlt. by constructor.
    + intros x Hx. simpl in Hx. apply elem_of_cons in Hx as [->|Hx]; [done|].
      apply Hw. simpl. by constructor.
  - exists index, i, pre, kt, kt, c, post.
    destruct (Z.ltb_spec index 0); [lia|]. split_and!; try done; try lia; auto.
    + apply next_hi_below; [apply Hk|done].
Qed.

(** ** What the recursive insertion promises *)
Definition insert_post (h : nat) st (k v : Z) (id : Z) (lo hi : option Z) (f nx : Z) (l : kv)
    (ids : list Z) (q : nat) (n' : node) (r : option (node * Z)) (st' : state) : Prop :=
  root_ st' = root_ st ∧ depth_ st' = depth_ st ∧ node_self_rep n' = id ∧
  match r with
  | None => ∃ ids', let st1 := close_at id n' st' in
      rep h (blocks st1) id lo hi f nx (kv_insert k v l) ids' ∧
      step_ok (blocks st) (blocks st1) (alloc st) (alloc st1) ids ids' q
  | Some (rn, b) => ∃ lk mid l1 l2 i1 i2,
      let st2 := close_at (node_self_rep rn) rn (close_at id n' st') in
      rep h (blocks st2) id (Some lk) (Some b) f mid l1 i1 ∧
      rep h (blocks st2) (node_self_rep rn) (Some b) hi mid nx l2 i2 ∧
      l1 ++ l2 = kv_insert k v l ∧ above lo lk ∧ (lk < b)%Z ∧ below hi b ∧
      node_leftmost_key n' = Some lk ∧ node_leftmost_key rn = Some b ∧
      step_ok (blocks st) (blocks st2) (alloc st) (alloc st2) ids (i1 ++ i2) q
  end.

Lemma leftmost_leaf n b y rest :
  LeafNode.live n = (b, y) :: rest → LeafNode.get_leftmost_key n = Some b.
Proof.
  intros Hl. assert (Hi : LeafNode.live n !! 0 = Some (b, y)) by (by rewrite Hl).
  apply LeafNode.live_lookup in Hi as [_ Hi]. unfold LeafNode.get_leftmost_key. by rewrite Hi.
Qed.

Lemma leftmost_inner n b y rest :
  InnerNode.live n = (b, y) :: rest → InnerNode.get_leftmost_key n = Some b.
Proof.
  intros Hl. assert (Hi : InnerNode.live n !! 0 = Some (b, y)) by (by rewrite Hl).
  by apply InnerNode.inner_live_lookup in Hi as (_ & Hi & _).
Qed.

(** The keys of the two halves of a split node. *)
Lemma split_bounds (l1 l2 : kv) lk b y1 y2 t1 t2 lo hi :
  ksorted (keys (l1 ++ l2)) → (∀ x, x ∈ keys (l1 ++ l2) → within lo hi x) →
  l1 = (lk, y1) :: t1 → l2 = (b, y2) :: t2 →
  above lo lk ∧ below hi b ∧ (lk < b)%Z ∧
  (∀ x, x ∈ keys l1 → within (Some lk) (Some b) x) ∧
  (∀ x, x ∈ keys l2 → within (Some b) hi x).
Proof.
  intros Hs Hw -> ->. rewrite fmap_app in Hs. apply ksorted_app in Hs as (Hs1 & Hs2 & Hx).
  assert (Hlk : lk ∈ keys ((lk, y1) :: t1)) by constructor.
  assert (Hb : b ∈ keys ((b, y2) :: t2)) by constructor.
  assert (Hin : ∀ x, x ∈ keys ((lk, y1) :: t1) ∨ x ∈ keys ((b, y2) :: t2) → within lo hi x).
  { intros x Hx'. apply Hw. rewrite fmap_app. by apply elem_of_app. }
  split_and!.
  - apply Hin; auto.
  - apply Hin; auto.
  - by apply Hx.
  - intros x Hx1. split; simpl; [by eapply head_min|by apply Hx].
  - intros x Hx1. split; simpl; [by eapply head_min|apply Hin; auto].
Qed.

Lemma within_insert k v l lo hi :
  within lo hi k → (∀ x, x ∈ keys l → within lo hi x) →
  ∀ x, x ∈ keys (kv_insert k v l) → within lo hi x.
Proof. intros Hk Hl x Hx. apply elem_of_kv_insert in Hx as [->|]; auto. Qed.

Lemma insert_leaf fuel st k v id lo hi f nx l ids q n :
  rep 0 (blocks st) id lo hi f nx l ids → NoDup ids → (∀ j, j ∈ ids → j ∈ in_use (alloc st)) →
  alloc_wf (alloc st) → room (alloc st) (1 + q) → within lo hi k →
  load id st = Some n →
  ∃ n' r st', insert_ws fuel n k v st = Some (n', r, st') ∧
    insert_post 0 st k v id lo hi f nx l ids q n' r st'.
Proof.
  rewrite rep_0. intros (Hb & -> & -> & H0 & Hl & Hs & Hw) Hnd Hin Hwf Hroom Hk Hload.
  destruct (load_leaf CAPACITY junkE junkK st id l nx Hpar Hb H0 Hl Hs)
    as (n0 & Hn & Hwn & Hlive & Hsib & Hself & _).
  rewrite Hn in Hload. simplify_eq. set (id := LeafNode.self_rep_ n0) in *.
  assert (E : ∀ fuel, insert_ws fuel (NLeaf n0) k v st =
    let '(rrep, a') := allocate (alloc st) in
    '(l', r) ← LeafNode.insert_with_split_support CAPACITY rrep junkE k v n0;
    match r with
    | None => Some (NLeaf l', None, st)
    | Some (rt, b) => Some (NLeaf l', Some (NLeaf rt, b), set_alloc a' st)
    end) by (intros []; done).
  rewrite E. clear E. destruct (allocate (alloc st)) as [rrep a'] eqn:Ea.
  destruct (LeafNode.insert_with_split_live CAPACITY rrep junkE k v n0) as (n' & r & Hins & Hpost);
    [destruct Hpar; lia|done|apply Hpar|]. rewrite Hins. simpl.
  destruct Hpost as (Hwn' & Hself' & Hmod & Hpost).
  pose proof (within_insert k v _ lo hi Hk Hw) as Hw'.
  pose proof (step_ok_refl (blocks st) (alloc st) [id] (1 + q) Hnd Hin Hwf Hroom) as Hst.
  destruct r as [[rt b]|].
  - destruct Hpost as (Hwr & Hsr & Hmr & Happ & Hs1 & Hs2 & Hne & (y2 & t2 & Hrt) & _ & _).
    destruct (live_head_kv (LeafNode.live n') Hne) as (lk & y1 & t1 & Hlt).
    destruct (step_ok_alloc _ _ _ _ _ _ _ _ _ Ea Hst) as (Hst' & Hr0 & Hrn).
    eexists _, _, _. split; [done|].
    split_and!; simpl; [done|done|done|].
    destruct (split_bounds (LeafNode.live n') (LeafNode.live rt) lk b y1 y2 t1 t2 lo hi)
      as (B1 & B2 & B3 & B4 & B5); rewrite ?Happ; auto with nvm.
    assert (Hrid : rrep ≠ id) by (intros ->; apply Hrn; constructor).
    exists lk, rrep, (LeafNode.live n'), (LeafNode.live rt), [id], [rrep].
    rewrite Hsr. split_and!; auto.
    + apply (rep_frame CAPACITY 0 (blocks (close_at id (NLeaf n') (set_alloc a' st)))).
      { intros j Hj. apply list_elem_of_singleton in Hj as ->. by apply close_lookup_ne. }
      rewrite <- Hs1. unfold id. rewrite <- Hself'.
      apply rep_leaf_intro; [by left|done|rewrite Hself'; done|done].
    + rewrite <- Hs2, <- Hsr. apply rep_leaf_intro; [by left|done|by rewrite Hsr|done].
    + by eapply leftmost_leaf.
    + by eapply leftmost_leaf.
    + apply (step_ok_perm _ _ _ _ _ [rrep; id]); [constructor|].
      apply step_ok_close; [constructor|]. apply step_ok_close; [by repeat constructor|]. done.
  - destruct Hpost as (Happ & Hs1 & _). eexists _, _, _. split; [done|].
    split_and!; simpl; [done|done|done|]. exists [id]. split.
    + rewrite <- Happ, <- Hs1. unfold id. rewrite <- Hself'.
      apply rep_leaf_intro; [by left|done|by rewrite Hself'|by rewrite Happ].
    + apply step_ok_close; [constructor|].
      eapply step_ok_room; [|exact Hst]. lia.
Qed.

(** ** The inner node *)
Lemma in_sync_frame n st st1 :
  in_sync n st → blocks st1 !! node_self_rep n = blocks st !! node_self_rep n → in_sync n st1.
Proof. intros [?|?] E; [by left|right]. congruence. Qed.

(** A full node after its split: two nodes that share the children. *)
Lemma split_close h st lt rt kcs lo hi f nx l ids b y t :
  InnerNode.wf CAPACITY lt → InnerNode.wf CAPACITY rt →
  InnerNode.modified_ lt = true → InnerNode.modified_ rt = true →
  InnerNode.live lt ++ InnerNode.live rt = kcs → ksorted (keys kcs) →
  (∀ x, x ∈ keys kcs → within lo hi x) →
  InnerNode.live lt ≠ [] → InnerNode.live rt = (b, y) :: t →
  (0 ≤ InnerNode.self_rep_ lt)%Z → (0 ≤ InnerNode.self_rep_ rt)%Z →
  NoDup (InnerNode.self_rep_ rt :: InnerNode.self_rep_ lt :: ids) →
  reps (rep h (blocks st)) kcs hi f nx l ids →
  ∃ lk mid l1 l2 i1 i2,
    let st1 := close_at (InnerNode.self_rep_ lt) (NInner lt) st in
    let st2 := close_at (InnerNode.self_rep_ rt) (NInner rt) st1 in
    rep (S h) (blocks st2) (InnerNode.self_rep_ lt) (Some lk) (Some b) f mid l1
      (InnerNode.self_rep_ lt :: i1) ∧
    rep (S h) (blocks st2) (InnerNode.self_rep_ rt) (Some b) hi mid nx l2
      (InnerNode.self_rep_ rt :: i2) ∧
    l = l1 ++ l2 ∧ ids = i1 ++ i2 ∧ above lo lk ∧ (lk < b)%Z ∧ below hi b ∧
    InnerNode.get_leftmost_key lt = Some lk ∧ InnerNode.get_leftmost_key rt = Some b.
Proof.
  intros Hwl Hwr Hml Hmr <- Hs Hw Hne Hrt H0l H0r Hnd HR.
  destruct (live_head_kv _ Hne) as (lk & y1 & t1 & Hlt).
  destruct (split_bounds _ _ _ _ _ _ _ _ lo hi Hs Hw Hlt Hrt) as (B1 & B2 & B3 & B4 & B5).
  apply reps_app in HR as (mid & l1 & l2 & i1 & i2 & HR1 & HR2 & -> & ->).
  rewrite Hrt in HR1. simpl in HR1.
  apply list.NoDup_cons in Hnd as [Hn1 Hnd]. apply list.NoDup_cons in Hnd as [Hn2 Hnd].
  rewrite elem_of_cons, elem_of_app in Hn1. rewrite elem_of_app in Hn2.
  exists lk, mid, l1, l2, i1, i2. split_and!; auto.
  - apply (rep_frame CAPACITY (S h) (blocks (close_at (InnerNode.self_rep_ lt) (NInner lt) st)));
      [|apply rep_inner_intro; eauto; by left].
    intros j Hj. apply close_lookup_ne. rewrite elem_of_cons in Hj. intros ->. tauto.
  - apply rep_inner_intro; eauto; [by left|by rewrite Hrt|].
    eapply reps_frame; [|exact HR2]. intros j Hj. apply close_lookup_ne. intros ->. tauto.
  - by eapply leftmost_inner.
  - by eapply leftmost_inner.
Qed.

(** The child was split: the node receives the right half, or is split too. *)
Lemma insert_child_split h st st' i pre kt c post (rn : node) child' b lo hi f nx l k v m1 m2 la lc lb
    ia ic ib q :
  InnerNode.wf CAPACITY i → (0 ≤ InnerNode.self_rep_ i)%Z →
  InnerNode.live i = pre ++ (kt, c) :: post →
  (∀ x, x ∈ keys (InnerNode.live i) → within lo hi x) →
  (kt ≤ k)%Z → below (next_hi post hi) k → l = la ++ lc ++ lb →
  NoDup (InnerNode.self_rep_ i :: ia ++ ic ++ ib) →
  (∀ j, j ∈ InnerNode.self_rep_ i :: ia ++ ic ++ ib → j ∈ in_use (alloc st)) →
  reps (rep h (blocks st)) pre (Some kt) f m1 la ia →
  reps (rep h (blocks st)) post hi m2 nx lb ib →
  insert_post h st k v c (Some kt) (next_hi post hi) m1 m2 lc ic (S q) child' (Some (rn, b)) st' →
  ∃ n' r st2,
    (let i := InnerNode.mark_modified i in
     if InnerNode.size_ i <? CAPACITY then
       i' ← InnerNode.insert_inner_node (node_self_rep rn) b (length pre + 1) i;
       let st := close_at (node_self_rep child') child' st' in
       let st := close_at (node_self_rep rn) rn st in
       Some (NInner i', None, st)
     else
       let '(rrep, a') := allocate (alloc st') in
       '(lt, rt, b) ← InnerNode.split_insert CAPACITY rrep junkK (length pre)
                        (node_self_rep rn) b i;
       let st := set_alloc a' st' in
       let st := close_at (node_self_rep child') child' st in
       let st := close_at (node_self_rep rn) rn st in
       Some (NInner lt, Some (NInner rt, b), st)) = Some (n', r, st2) ∧
    insert_post (S h) st k v (InnerNode.self_rep_ i) lo hi f nx l
      (InnerNode.self_rep_ i :: ia ++ ic ++ ib) q n' r st2.
Proof.
  intros Hwf H0 Hlive Hw Hkt Hb -> Hnd Hin Hpre Hpost
    (Hroot & Hdep & Hcs & lk & mid & l1 & l2 & i1 & i2 & HL & HR & Happ & Hlk & Hlkb & Hbb & _ & _ & Hst).
  pose proof Hwf as (_ & _ & Hsz & Hs). rewrite Hlive in Hs, Hw. rewrite Hcs in *. simpl in Hlk.
  set (st3 := close_at (node_self_rep rn) rn (close_at c child' st')) in *.
  destruct (kv_insert_middle b (node_self_rep rn) pre kt c post hi Hs) as (Hins & Hlb & Hnb); [lia|done|].
  assert (Hreg : reps (rep h (blocks st3)) [(kt, c); (b, node_self_rep rn)] (next_hi post hi) m1 m2
                   (kv_insert k v lc) (i1 ++ i2)).
  { exists mid, l1, l2, i1, i2. split_and!; [|by exists m2, l2, [], i2, []; rewrite !app_nil_r|done|done].
    eapply rep_weaken; [|done|exact HL]. simpl. lia. }
  destruct (region_update CAPACITY h (blocks st) (blocks st3) (alloc st) (alloc st3)
    (InnerNode.self_rep_ i) pre [(kt, c)] _ post hi f nx m1 m2 la _ lb ia ic _ ib (S q)
    Hnd Hin Hpre Hpost Hst Hreg eq_refl) as (HR' & Hst' & Hid); [done|].
  destruct (region_keys CAPACITY h (blocks st) pre [(kt, c)] post hi f nx m1 m2 la lb ia ib kt Hs)
    as [Hka Hkb]; [intros x Hx; by apply Hw|done|done|done|].
  assert (Hcont : kv_insert k v (la ++ lc ++ lb) = la ++ kv_insert k v lc ++ lb).
  { apply kv_insert_region; [intros x Hx; apply Hka in Hx; lia|intros x Hx; by apply (Hkb x)]. }
  assert (Hw' : ∀ x, x ∈ keys (kv_insert b (node_self_rep rn) (pre ++ (kt, c) :: post)) → within lo hi x).
  { apply within_insert; [|done]. destruct (Hw kt) as [Ha Hbk]; [rewrite fmap_app; simpl; set_solver|].
    split; [destruct lo; simpl in *; lia|]. destruct post as [|[k1 c1] post]; simpl in Hbb; [done|].
    destruct (Hw k1) as [_ Hk1]; [rewrite fmap_app; simpl; set_solver|].
    destruct hi; simpl in *; lia. }
  pose proof (step_ok_nodup _ _ _ _ _ _ _ Hst') as Hnd'.
  pose proof Hnd' as [Hni _]%list.NoDup_cons.
  cbn zeta. change (InnerNode.size_ (InnerNode.mark_modified i)) with (InnerNode.size_ i).
  destruct (Nat.ltb_spec (InnerNode.size_ i) CAPACITY) as [Hroom|Hfull].
  - destruct (InnerNode.insert_inner_node_live CAPACITY (node_self_rep rn) b (InnerNode.mark_modified i))
      as (i' & Hi' & Hwf' & Hlive' & Hself' & Hmod' & _); [done|done|by rewrite (Hlive : InnerNode.live (InnerNode.mark_modified i) = _)|].
    rewrite (Hlive : InnerNode.live (InnerNode.mark_modified i) = _) in Hi', Hlive'.
    rewrite Hlb in Hi'. rewrite Nat.add_1_r. rewrite Hi'. simpl.
    eexists _, _, _. split; [done|]. fold st3. split_and!.
    { unfold st3. by rewrite !close_root. } { unfold st3. by rewrite !close_depth. } { done. }
    exists (InnerNode.self_rep_ i :: ia ++ (i1 ++ i2) ++ ib). simpl in Hself'. rewrite <- Hself'. split.
    + rewrite Hcont. apply rep_inner_intro; [by left|done|by rewrite Hself'| | |by rewrite Hself'|].
      * rewrite Hlive'. apply InnerNode.inner_insert_nonempty.
      * by rewrite Hlive'.
      * rewrite Hlive', Hins. done.
    + apply step_ok_close; [constructor|]. rewrite Hself'.
      eapply step_ok_room; [|exact Hst']. lia.
  - destruct (allocate (alloc st')) as [rrep a'] eqn:Ea.
    assert (Ea3 : allocate (alloc st3) = (rrep, a')) by (unfold st3; by rewrite !close_alloc).
    destruct (step_ok_alloc _ _ _ _ _ _ _ _ _ Ea3 Hst') as (Hst4 & Hr0 & Hrn).
    destruct (InnerNode.split_insert_live CAPACITY rrep junkK (length pre) (node_self_rep rn) b
                (InnerNode.mark_modified i)) as (lt & rt & b' & Hsp & Hpost');
      [destruct Hpar; lia|done|simpl; lia|apply Hpar|
       by rewrite (Hlive : InnerNode.live (InnerNode.mark_modified i) = _)|
       by rewrite (Hlive : InnerNode.live (InnerNode.mark_modified i) = _)|].
    rewrite Hsp. simpl.
    destruct Hpost' as (Hwl & Hwr & Happ' & Hsl & Hsr & Hml & Hmr & Hne & y & t & Hrt).
    rewrite (Hlive : InnerNode.live (InnerNode.mark_modified i) = _) in Happ'. simpl in Hsl.
    eexists _, _, _. split; [done|]. rewrite !close_set_alloc. fold st3.
    destruct (split_close h (set_alloc a' st3) lt rt _ lo hi f nx (la ++ kv_insert k v lc ++ lb)
                (ia ++ (i1 ++ i2) ++ ib) b' y t Hwl Hwr Hml Hmr Happ')
      as (lk' & mid' & l1' & l2' & i1' & i2' & R1 & R2 & Hl' & Hi' & B1 & B2 & B3 & K1 & K2);
      auto with nvm; [by rewrite Hsl|by rewrite Hsr|rewrite Hsl, Hsr; by constructor|by rewrite Hins|].
    split_and!; [by unfold st3; simpl; rewrite !close_root|by unfold st3; simpl; rewrite !close_depth|done|].
    exists lk', mid', l1', l2', (InnerNode.self_rep_ i :: i1'), (InnerNode.self_rep_ rt :: i2').
    simpl. rewrite Hsl in *. split_and!; try done; [by rewrite Hcont|].
    apply (step_ok_perm _ _ _ _ _ (rrep :: InnerNode.self_rep_ i :: ia ++ (i1 ++ i2) ++ ib)).
    { rewrite Hi', Hsr. solve_Permutation. }
    apply step_ok_close; [rewrite Hsr; constructor|]. apply step_ok_close; [by repeat constructor|]. done.
Qed.

(** ** The recursive insertion *)
Lemma insert_rec h : ∀ fuel st k v id lo hi f nx l ids q n,
  h ≤ fuel →
  rep h (blocks st) id lo hi f nx l ids → NoDup ids → (∀ j, j ∈ ids → j ∈ in_use (alloc st)) →
  alloc_wf (alloc st) → room (alloc st) (S h + q) → within lo hi k →
  load id st = Some n →
  ∃ n' r st', insert_ws fuel n k v st = Some (n', r, st') ∧
    insert_post h st k v id lo hi f nx l ids q n' r st'.
Proof.
  induction h as [|h IH]; intros fuel st k v id lo hi f nx l ids q n Hfuel Hrep Hnd Hin Hwf Hroom Hk Hload.
  { by eapply insert_leaf. }
  apply rep_S in Hrep as (kcs & ids' & Hb & -> & H0 & Hne & Hlen & Hs & Hw & HR).
  destruct (load_inner CAPACITY junkE junkK st id kcs Hpar Hb H0 Hlen Hs)
    as (i & Hi & Hwi & Hlive & Hself & _).
  rewrite Hi in Hload. simplify_eq. set (id := InnerNode.self_rep_ i) in *.
  destruct fuel as [|fuel]; [lia|]. simpl.
  destruct (descend i k lo hi Hwi Hne Hw Hk)
    as (index & i1 & pre & k0 & kt & c & post & Hidx & Hi1 & Htgt & Hc & Hwi1 & Hl0 & Hl1 & Hs1 &
        Hm1 & Hkt & Hkt0 & Hp & Hbl & Hw1).
  rewrite Hidx. simpl. rewrite Hi1. simpl. rewrite Htgt, Hc. simpl.
  rewrite Hl0 in HR.
  apply reps_middle in HR as (m1 & m2 & la & lc & lb & ia & ic & ib & Hpre & Hch & Hpost & -> & ->).
  assert (Hpre' : reps (rep h (blocks st)) pre (Some kt) f m1 la ia).
  { destruct Hp as [->|<-]; done. }
  assert (Hch' : rep h (blocks st) c (Some kt) (next_hi post hi) m1 m2 lc ic).
  { eapply rep_weaken; [|done|exact Hch]. simpl. lia. }
  assert (Hsub : ∀ j, j ∈ ic → j ∈ id :: ia ++ ic ++ ib) by (intros j; set_solver).
  destruct (rep_loadable CAPACITY junkE junkK Hpar _ _ _ _ _ _ _ _ _ Hch') as [child Hchild].
  rewrite Hchild. simpl.
  destruct (IH fuel st k v c (Some kt) (next_hi post hi) m1 m2 lc ic (S q) child)
    as (child' & r & st' & Hrec & Hres); auto; [lia| | | |].
  { apply list.NoDup_cons in Hnd as [_ Hnd]. rewrite !list.NoDup_app in Hnd. tauto. }
  { by eapply room_le; [|exact Hroom]; lia. }
  { by split. }
  rewrite Hrec. simpl. destruct r as [[rn b]|].
  - unfold id in *. clear id. rewrite <- Hs1 in *. eapply insert_child_split; eauto.
  - destruct Hres as (Hroot & Hdep & Hcs & ic' & Hrep' & Hst').
    eexists _, _, _. split; [done|].
    set (st1 := close_at c child' st') in *.
    destruct (region_update CAPACITY h (blocks st) (blocks st1) (alloc st) (alloc st1) id pre [(kt, c)] [(kt, c)]
      post hi f nx m1 m2 la (kv_insert k v lc) lb ia ic ic' ib (S q) Hnd Hin Hpre' Hpost Hst')
      as (HR' & Hst2 & Hid); [|done|done|].
    { exists m2, (kv_insert k v lc), [], ic', []. rewrite !app_nil_r. done. }
    destruct (region_keys CAPACITY h (blocks st) pre [(kt, c)] post hi f nx m1 m2 la lb ia ib kt)
      as [Hka Hkb]; try done.
    { change (ksorted (keys (pre ++ (kt, c) :: post))). rewrite <- Hl1. apply Hwi1. }
    { change ([(kt, c)] ++ post) with ((kt, c) :: post). rewrite <- Hl1. intros x Hx. by apply Hw1. }
    split_and!; [by unfold st1; rewrite close_root|by unfold st1; rewrite close_depth|done|].
    exists (id :: ia ++ ic' ++ ib). unfold id. rewrite <- Hs1. split.
    + rewrite kv_insert_region; [|intros x Hx; apply Hka in Hx; lia|intros x Hx; by apply (Hkb x)].
      apply rep_inner_intro; auto.
      * destruct Hm1 as [Hm1| ->]; [by left|right].
        rewrite (serialize_inner CAPACITY) by done. cbn [node_self_rep]. fold id. by rewrite Hid.
      * by rewrite Hs1.
      * by rewrite Hl1; destruct pre.
      * rewrite Hs1. by apply step_ok_nodup, list.NoDup_cons in Hst2 as [? _].
      * rewrite Hl1. done.
    + apply step_ok_close; [constructor|]. rewrite Hs1. eapply step_ok_room; [|exact Hst2]. lia.
Qed.

(** ** Insertion into the tree *)
(** The new root above the two halves of a split root. *)
Lemma insert_new_root h st k v id l ids q n' rn b st' f rep0 a' :
  insert_post h st k v id None None f (-1)%Z l ids (S q) n' (Some (rn, b)) st' →
  depth_ st = S h → allocate (alloc st') = (rep0, a') →
  ∃ lkey rkey root ids', node_leftmost_key n' = Some lkey ∧ node_leftmost_key rn = Some rkey ∧
    InnerNode.create_root CAPACITY junkK rep0 lkey (node_self_rep n') rkey (node_self_rep rn) = Some root ∧
    let st1 := mk_state (blocks st') a' rep0 (depth_ st' + 1) in
    let st2 := close_at (node_self_rep rn) rn (close_at (node_self_rep n') n' st1) in
    let st3 := close_at rep0 (NInner (InnerNode.mark_modified root)) st2 in
    tree_ok CAPACITY st3 (kv_insert k v l) ids' ∧
    step_ok (blocks st) (blocks st3) (alloc st) (alloc st3) ids ids' q.
Proof.
  intros (Hroot & Hdep & Hself & lk & mid & l1 & l2 & i1 & i2 & HL & HR & Happ & _ & Hlt & _ & Hk1 & Hk2 & Hst) Hd Ha.
  rewrite Hself. set (st2 := close_at (node_self_rep rn) rn (close_at id n' st')) in *.
  assert (Ha2 : allocate (alloc st2) = (rep0, a')) by (unfold st2; by rewrite !close_alloc).
  destruct (step_ok_alloc _ _ _ _ _ _ _ _ _ Ha2 Hst) as (Hst2 & Hr0 & Hrn).
  destruct (rep_head _ _ _ _ _ _ _ _ _ _ HL) as [H0l _].
  destruct (rep_head _ _ _ _ _ _ _ _ _ _ HR) as [H0r _].
  destruct (InnerNode.create_root_live CAPACITY junkK rep0 lk id b (node_self_rep rn))
    as (root & Hcr & Hwr & Hlr & Hsr & _ & _);
    [destruct Hpar; lia|apply Hpar|done|lia|lia|].
  exists lk, b, root, (rep0 :: i1 ++ i2). split_and!; [done..|].
  set (st1 := mk_state (blocks st') a' rep0 (depth_ st' + 1)).
  set (st2' := close_at (node_self_rep rn) rn (close_at id n' st1)).
  assert (Hb2 : blocks st2' = blocks st2) by (unfold st2', st2; by rewrite !close_blocks).
  assert (Hst3 : step_ok (blocks st) (blocks (close_at rep0 (NInner (InnerNode.mark_modified root)) st2'))
    (alloc st) (alloc (close_at rep0 (NInner (InnerNode.mark_modified root)) st2')) ids (rep0 :: i1 ++ i2) q).
  { apply step_ok_close; [constructor|]. rewrite Hb2. unfold st2'. by rewrite !close_alloc. }
  split; [|done].
  eapply (tree_ok_step _ _ _ _ _ _ _ f (S h)); [exact Hst3| |].
  { unfold st2'. rewrite !close_depth. simpl. lia. }
  assert (E : root_ (close_at rep0 (NInner (InnerNode.mark_modified root)) st2') = rep0).
  { unfold st2'. by rewrite !close_root. }
  fold st2'.  rewrite E, <- Happ. rewrite <- Hsr at 1 2 3.
  change (InnerNode.self_rep_ root) with (InnerNode.self_rep_ (InnerNode.mark_modified root)).
  apply rep_inner_intro; [by left|done|simpl; by rewrite Hsr|..];
    change (InnerNode.live (InnerNode.mark_modified root)) with (InnerNode.live root); rewrite ?Hlr;
    [done|by intros|simpl; by rewrite Hsr|].
  rewrite Hb2. exists mid, l1, l2, i1, i2. split_and!; [exact HL| |done|done].
  exists (-1)%Z, l2, [], i2, []. by rewrite !app_nil_r.
Qed.

Lemma insert_ok k v st l ids q :
  tree_ok CAPACITY st l ids → room (alloc st) (depth_ st + 1 + q) →
  ∃ st' ids', insert CAPACITY junkE junkK k v st = Some st' ∧
    tree_ok CAPACITY st' (kv_insert k v l) ids' ∧
    step_ok (blocks st) (blocks st') (alloc st) (alloc st') ids ids' q ∧ depth_ st' ≤ depth_ st + 1.
Proof.
  intros (Hd & (f & Hrep) & Hnd & Hin & Hwf) Hroom.
  destruct (depth_ st) as [|h] eqn:Ed; [lia|]. simpl in Hrep. rewrite Nat.sub_0_r in Hrep.
  unfold insert. destruct (rep_loadable CAPACITY junkE junkK Hpar _ _ _ _ _ _ _ _ _ Hrep) as [n Hn].
  rewrite Hn, Ed. cbn [mbind option_bind].
  destruct (insert_rec h (S h) st k v (root_ st) None None f (-1)%Z l ids (S q) n)
    as (n' & r & st' & Hrec & Hres); auto; [by eapply room_le; [|exact Hroom]; lia|done|].
  rewrite Hrec. cbn [mbind option_bind]. destruct r as [[rn b]|].
  - destruct (allocate (alloc st')) as [rep0 a'] eqn:Ea.
    destruct (insert_new_root _ _ _ _ _ _ _ _ _ _ _ _ _ _ _ Hres Ed Ea)
      as (lkey & rkey & root & ids' & H1 & H2 & H3 & H4 & H5).
    rewrite H1, H2. simpl. rewrite H3. simpl. eexists _, ids'. split; [done|].
    split; [done|]. split; [done|]. rewrite !close_depth. simpl. destruct Hres as (_ & -> & _). lia.
  - destruct Hres as (Hroot & Hdep & Hself & ids' & Hrep' & Hst). eexists _, ids'.
    rewrite Hroot. split; [done|]. split; [|split].
    + eapply (tree_ok_step _ _ _ _ _ _ _ f h); [exact Hst| |].
      * rewrite close_depth. congruence.
      * by rewrite close_root, Hroot.
    + eapply step_ok_room; [|exact Hst]. lia.
    + rewrite close_depth. lia.
Qed.

End insert.
