(* ===== verification/TreeSearch.v ===== *)
(** Creation, search and iteration: [search] looks the key up in the abstract
    contents, a new tree is empty, the iterators enumerate the contents in key
    order. *)
From Stdlib Require Import ZArith Lia.
From stdpp Require Import base list gmap sorting numbers.
From S2P Require Import Prelude KV Leaf Inner Store Tree TreeRep TreeFoot.

Section search.
Context {A : Type} `{!Allocator A} `{!AllocatorLaws A}.
Context (CAPACITY : nat) (junkE : list (Z * Z)) (junkK : list Z).
Context (Hpar : params_ok CAPACITY junkE junkK).

Local Abbreviation state := (tree_state A).
Local Abbreviation load := (load CAPACITY junkE junkK).
Local Abbreviation rep := (rep CAPACITY).
Implicit Types (st : state).

(** The instance of a subtree's root, once for the induction on the height. *)
Lemma load_rep_0 st id lo hi f nx l ids n :
  rep 0 (blocks st) id lo hi f nx l ids → load id st = Some n →
  f = id ∧ ids = [id] ∧ (0 ≤ id)%Z ∧ blocks st !! id = Some (BLeaf l nx id) ∧
  (∀ k, k ∈ keys l → within lo hi k) ∧
  ∃ n0, n = NLeaf n0 ∧ LeafNode.wf CAPACITY n0 ∧ LeafNode.live n0 = l ∧
    LeafNode.right_sibling_ n0 = nx ∧ LeafNode.self_rep_ n0 = id ∧ LeafNode.modified_ n0 = false.
Proof.
  rewrite rep_0. intros (Hb & -> & -> & H0 & Hl & Hs & Hw) Hload.
  destruct (load_leaf CAPACITY junkE junkK st id l nx Hpar Hb H0 Hl Hs) as (n0 & Hn & H1).
  rewrite Hn in Hload. injection Hload as <-. split_and!; auto. by exists n0.
Qed.

Lemma load_rep_S h st id lo hi f nx l ids n :
  rep (S h) (blocks st) id lo hi f nx l ids → load id st = Some n →
  ∃ i ids', n = NInner i ∧ InnerNode.wf CAPACITY i ∧ InnerNode.self_rep_ i = id ∧
    InnerNode.modified_ i = false ∧ in_sync (NInner i) st ∧
    InnerNode.live i ≠ [] ∧ ids = id :: ids' ∧ (0 ≤ id)%Z ∧
    (∀ k, k ∈ keys (InnerNode.live i) → within lo hi k) ∧
    reps (rep h (blocks st)) (InnerNode.live i) hi f nx l ids'.
Proof.
  rewrite rep_S. intros (kcs & ids' & Hb & -> & H0 & Hne & Hl & Hs & Hw & HR) Hload.
  destruct (load_inner CAPACITY junkE junkK st id kcs Hpar Hb H0 Hl Hs) as (i & Hi & Hwf & <- & Hself & Hm).
  rewrite Hi in Hload. injection Hload as <-. exists i, ids'. split_and!; auto.
  right. rewrite (serialize_inner CAPACITY) by done. cbn [node_self_rep]. by rewrite Hself.
Qed.

(** ** Search *)
Lemma node_search_ok h : ∀ fuel st k id lo hi f nx l ids n,
  h ≤ fuel → below hi k → rep h (blocks st) id lo hi f nx l ids → load id st = Some n →
  node_search CAPACITY junkE junkK fuel n k st = Some (kv_find k l).
Proof.
  induction h as [|h IH]; intros fuel st k id lo hi f nx l ids n Hf Hbk Hrep Hload.
  { destruct (load_rep_0 _ _ _ _ _ _ _ _ _ Hrep Hload) as (_ & _ & _ & _ & _ & n0 & -> & Hwf & <- & _).
    assert (E : node_search CAPACITY junkE junkK fuel (NLeaf n0) k st = LeafNode.search k n0)
      by (by destruct fuel).
    rewrite E. by eapply LeafNode.search_live. }
  destruct (load_rep_S _ _ _ _ _ _ _ _ _ _ Hrep Hload)
    as (i & ids' & -> & Hwf & Hself & _ & _ & Hne & -> & H0 & Hw & HR).
  pose proof Hwf as (_ & _ & _ & Hs).
  destruct fuel as [|fuel]; [lia|]. simpl.
  destruct (locate_cases CAPACITY i k Hwf) as
    [[Hloc Hlt]|(index & pre & kt & c & post & Hloc & Hi0 & Hpre & Hc & Hl & Hle & Hp)];
    rewrite Hloc; simpl.
  - rewrite kv_find_missing; [done|]. intros Hin.
    eapply reps_good in HR as [_ Hg]; [|apply rep_good|done|intros x Hx; by apply Hw].
    apply Hg in Hin as (_ & k0 & c0 & r & E & Hle). specialize (Hlt k0). rewrite E in Hlt.
    assert (k < k0)%Z by (apply Hlt; constructor). lia.
  - destruct (Z.ltb_spec index 0); [lia|]. rewrite Hpre, Hc. simpl. rewrite Hl in HR, Hs, Hw.
    apply reps_middle in HR as (m1 & m2 & la & lc & lb & ia & ic & ib & HRa & HRc & HRb & -> & ->).
    destruct (rep_loadable CAPACITY junkE junkK Hpar _ _ _ _ _ _ _ _ _ HRc) as [child Hch].
    pose proof (next_hi_below post hi k Hbk Hp) as Hbn.
    rewrite Hch. simpl. erewrite (IH fuel); [|lia|exact Hbn|done|done].
    destruct (region_keys CAPACITY h (blocks st) pre [(kt, c)] post hi f nx m1 m2 la lb ia ib kt Hs)
      as [Hka Hkb]; [intros x Hx; by apply Hw|done|done|done|].
    rewrite !kv_find_app. rewrite (kv_find_missing k la) by (intros Hx; apply Hka in Hx; lia).
    rewrite (kv_find_missing k lb); [by destruct (kv_find k lc)|].
    intros Hx. apply (Hkb _ k) in Hx; [lia|done].
Qed.

Lemma search_ok k st l ids :
  tree_ok CAPACITY st l ids → search CAPACITY junkE junkK k st = Some (kv_map l !! k).
Proof.
  intros (Hd & (f & Hrep) & _). unfold search.
  destruct (rep_loadable CAPACITY junkE junkK Hpar _ _ _ _ _ _ _ _ _ Hrep) as [n Hn].
  rewrite Hn. cbn [mbind option_bind]. rewrite kv_map_lookup.
  eapply (node_search_ok (depth_ st - 1) _ _ _ _ None None); [lia|done|exact Hrep|done].
Qed.

(** ** Creation *)
Lemma init_ok m a q :
  alloc_wf a → room a (S q) →
  ∃ id, let st := init junkE m a in
    tree_ok CAPACITY st [] [id] ∧ step_ok m (blocks st) a (alloc st) [] [id] q.
Proof.
  intros Hwf Hroom. unfold init. destruct (allocate a) as [id a'] eqn:Ea. exists id.
  destruct (step_ok_alloc m m a a a' [] [] q id Ea) as (Hst & H0 & _).
  { apply step_ok_refl; auto; [constructor|]. intros j Hj. by apply elem_of_nil in Hj. }
  set (n := LeafNode.mark_modified (LeafNode.create junkE id)).
  set (st := close_at id (NLeaf n) (mk_state m a' id 1)).
  assert (Hst' : step_ok m (blocks st) a (alloc st) [] [id] q).
  { apply step_ok_close; [constructor|done]. }
  split; [|done]. eapply (tree_ok_step _ _ _ _ _ _ _ id 0); [exact Hst'|by unfold st; rewrite close_depth|].
  assert (E : root_ st = id) by (unfold st; by rewrite close_root). rewrite E.
  pose proof (rep_leaf_intro CAPACITY (mk_state m a' id 1) n None None) as Hr. simpl in Hr.
  apply Hr; [by left| |done|done].
  split_and!; simpl; [apply Hpar|lia|constructor].
Qed.

(** ** The chain of leaves *)
(** [chain m f nx segs]: from leaf [f] the right siblings visit the leaves
    [segs], and the last one points to [nx]. *)
Fixpoint chain (m : gmap Z blk) (f nx : Z) (segs : list (Z * kv)) : Prop :=
  match segs with
  | [] => f = nx
  | (id, l) :: segs' =>
      f = id ∧ (0 ≤ id)%Z ∧ length l ≤ CAPACITY ∧ ksorted (keys l) ∧
      ∃ nxt, m !! id = Some (BLeaf l nxt id) ∧ chain m nxt nx segs'
  end.

Definition entries (segs : list (Z * kv)) : kv := concat segs.*2.

Lemma entries_app s1 s2 : entries (s1 ++ s2) = entries s1 ++ entries s2.
Proof. unfold entries. by rewrite fmap_app, concat_app. Qed.

Lemma chain_app m f mid nx s1 s2 :
  chain m f mid s1 → chain m mid nx s2 → chain m f nx (s1 ++ s2).
Proof.
  revert f. induction s1 as [|[id l] s1 IH]; intros f; simpl; [by intros ->|].
  intros (-> & H0 & Hl & Hs & nxt & Hb & Hc) H2. split_and!; eauto 10.
Qed.

Lemma reps_chain R m kcs hi f nx l ids :
  (∀ c lo hi f nx l ids, R c lo hi f nx l ids →
    ∃ segs, chain m f nx segs ∧ entries segs = l ∧ length segs ≤ length ids) →
  reps R kcs hi f nx l ids →
  ∃ segs, chain m f nx segs ∧ entries segs = l ∧ length segs ≤ length ids.
Proof.
  intros HR. revert f l ids. induction kcs as [|[k c] kcs IH]; intros f l ids; simpl.
  { intros (-> & -> & ->). by exists []. }
  intros (mid & l1 & l2 & i1 & i2 & H1 & H2 & -> & ->).
  destruct (HR _ _ _ _ _ _ _ H1) as (s1 & C1 & <- & L1).
  destruct (IH _ _ _ H2) as (s2 & C2 & <- & L2).
  exists (s1 ++ s2). split_and!; [by eapply chain_app|apply entries_app|].
  rewrite !length_app. lia.
Qed.

Lemma rep_chain h m : ∀ id lo hi f nx l ids,
  rep h m id lo hi f nx l ids →
  ∃ segs, chain m f nx segs ∧ entries segs = l ∧ length segs ≤ length ids.
Proof.
  induction h as [|h IH]; intros id lo hi f nx l ids.
  - rewrite rep_0. intros (Hb & -> & -> & H0 & Hl & Hs & _). exists [(id, l)].
    split_and!; simpl; eauto 10. unfold entries. simpl. by rewrite app_nil_r.
  - rewrite rep_S. intros (kcs & ids' & _ & -> & _ & _ & _ & _ & _ & HR).
    destruct (reps_chain _ _ _ _ _ _ _ _ IH HR) as (segs & H1 & H2 & H3).
    exists segs. simpl. split_and!; auto.
Qed.

(** ** Iteration *)
(** The iterator stands in a chain that ends the tree, with the entries [rem]
    ahead of it, in fewer than [fuel] leaves. *)
Definition ahead st (it : Iterator) (fuel : nat) (rem : kv) : Prop :=
  ∃ l segs, chain (blocks st) (leaf_node_ref_ it) (-1)%Z ((leaf_node_ref_ it, l) :: segs) ∧
    length segs < fuel ∧ rem = drop (offset_ it) l ++ entries segs.

Definition accepts (it : Iterator) (k : Z) : bool :=
  match key_high_ it with Some h => (k <? h)%Z || (k =? h)%Z | None => true end.

Local Abbreviation next := (next CAPACITY junkE junkK).
Local Abbreviation drain := (drain CAPACITY junkE junkK).

Lemma next_ok fuel st it rem :
  ahead st it fuel rem →
  ∃ it', next fuel it st = Some (match rem with
                                 | [] => (false, None, it')
                                 | e :: _ => (accepts it e.1, Some e, it')
                                 end) ∧
    key_high_ it' = key_high_ it ∧
    (∀ e rem', rem = e :: rem' → ahead st it' fuel rem').
Proof.
  intros (l & segs & Hch & Hf & ->). revert it l segs Hch Hf.
  induction fuel as [|fuel IH]; intros it l segs Hch Hf; [lia|].
  pose proof Hch as (_ & H0 & Hl & Hs & nxt & Hb & Hrest). simpl.
  destruct (Z.eqb_spec (leaf_node_ref_ it) (-1)) as [?|_]; [lia|].
  destruct (load_leaf CAPACITY junkE junkK st _ l nxt Hpar Hb H0 Hl Hs)
    as (n & Hn & Hwf & Hlive & Hsib & _).
  rewrite Hn. simpl. unfold LeafNode.getEntry.
  pose proof (LeafNode.length_live CAPACITY n Hwf) as Hlen. rewrite Hlive in Hlen.
  destruct (Nat.leb_spec (LeafNode.size_ n) (offset_ it)) as [Hge|Hlt]; simpl.
  - rewrite drop_ge by lia. simpl. rewrite Hsib. destruct segs as [|[id2 l2] segs].
    + simpl in Hrest. subst nxt. simpl. exists it. split_and!; done.
    + pose proof Hrest as (-> & H02 & _). destruct (Z.eqb_spec id2 (-1)) as [?|_]; [lia|]. simpl.
      destruct (IH (mk_iter id2 0 (key_high_ it)) l2 segs Hrest) as (it' & H1 & H2 & H3);
        [simpl in Hf; lia|].
      exists it'. simpl in *. change (entries ((id2, l2) :: segs)) with (l2 ++ entries segs).
      rewrite drop_0 in *. split_and!; [done|done|].
      intros e rem' E. destruct (H3 e rem' E) as (l3 & segs3 & C3 & L3 & E3).
      exists l3, segs3. split_and!; [done|lia|done].
  - destruct (lookup_lt_exists l (offset_ it)) as [e He]; [lia|].
    assert (He' : LeafNode.entries_ n !! offset_ it = Some e).
    { rewrite <- Hlive in He. by apply LeafNode.live_lookup in He as [_ ?]. }
    rewrite He'. simpl. destruct e as [k v].
    exists (mk_iter (leaf_node_ref_ it) (offset_ it + 1) (key_high_ it)).
    rewrite (drop_S _ _ _ He). simpl. split_and!; [done|done|].
    intros e rem' E. injection E as <- <-. exists l, segs. split_and!; [exact Hch|done|].
    simpl. by rewrite Nat.add_1_r.
Qed.

Fixpoint take_while (p : Z → bool) (l : kv) : kv :=
  match l with [] => [] | e :: l' => if p e.1 then e :: take_while p l' else [] end.

Lemma drain_ok calls fuel st it rem :
  ahead st it fuel rem → length rem < calls →
  drain calls fuel it st = Some (take_while (accepts it) rem).
Proof.
  revert it rem. induction calls as [|calls IH]; intros it rem Ha Hc; [lia|]. simpl.
  destruct (next_ok _ _ _ _ Ha) as (it' & Hn & Hkh & Hstep). rewrite Hn. simpl.
  destruct rem as [|e rem]; simpl; [done|].
  assert (Hacc : accepts it' = accepts it) by (unfold accepts; by rewrite Hkh).
  destruct (accepts it e.1); simpl; [|done].
  rewrite (IH it' rem); [by rewrite Hacc|by apply (Hstep e)|simpl in Hc; lia].
Qed.

Lemma take_while_true (l : kv) : take_while (λ _, true) l = l.
Proof. induction l as [|e l IH]; simpl; [done|]. by rewrite IH. Qed.

(** On a sorted list the entries up to the first one above [hi] are those not
    above it. *)
Lemma take_while_range lo hi (l : kv) :
  ksorted (keys l) → (∀ x, x ∈ keys l → (lo ≤ x)%Z) →
  take_while (λ k, (k <? hi)%Z || (k =? hi)%Z) l = kv_range lo hi l.
Proof.
  induction l as [|[k v] l IH]; intros Hs Hlo; [done|]. unfold kv_range.
  pose proof Hs as Hs'. apply kvsorted_cons in Hs' as [Hall Hs']. simpl in Hall.
  assert (lo ≤ k)%Z by (apply Hlo; constructor). simpl.
  assert (Hlo' : ∀ x, x ∈ keys l → (lo ≤ x)%Z) by (intros x Hx; apply Hlo; by constructor).
  rewrite filter_cons. simpl.
  destruct (Z.ltb_spec k hi); simpl; [rewrite decide_True by lia; f_equal; by apply IH|].
  destruct (Z.eqb_spec k hi) as [->|]; [rewrite decide_True by lia; f_equal; by apply IH|].
  rewrite decide_False by lia. symmetry. apply filter_none. intros [x y] Hx. simpl.
  assert (k < x)%Z; [|lia]. apply Hall. apply list_elem_of_fmap. by exists (x, y).
Qed.

Lemma leftmost_leaf_ok h : ∀ fuel st id lo hi f nx l ids n,
  h ≤ fuel → rep h (blocks st) id lo hi f nx l ids → load id st = Some n →
  get_leftmost_leaf_node CAPACITY junkE junkK fuel n st = Some f.
Proof.
  induction h as [|h IH]; intros fuel st id lo hi f nx l ids n Hf Hrep Hload.
  { destruct (load_rep_0 _ _ _ _ _ _ _ _ _ Hrep Hload)
      as (-> & _ & _ & _ & _ & n0 & -> & _ & _ & _ & <- & _). by destruct fuel. }
  destruct (load_rep_S _ _ _ _ _ _ _ _ _ _ Hrep Hload)
    as (i & ids' & -> & Hwf & Hself & _ & _ & Hne & -> & H0 & Hw & HR).
  destruct fuel as [|fuel]; [lia|]. simpl.
  destruct (live_head_kv _ Hne) as (k & c & t & El).
  assert (Hc : InnerNode.live i !! 0 = Some (k, c)) by (by rewrite El).
  apply InnerNode.inner_live_lookup in Hc as (_ & _ & Hc). rewrite Hc. simpl.
  rewrite El in HR. destruct HR as (mid & l1 & l2 & i1 & i2 & H1 & _).
  destruct (rep_loadable CAPACITY junkE junkK Hpar _ _ _ _ _ _ _ _ _ H1) as [child Hch].
  rewrite Hch. simpl. eapply IH; [lia|exact H1|done].
Qed.

Lemma iterator_ok st l ids :
  tree_ok CAPACITY st l ids →
  ∃ it, get_iterator CAPACITY junkE junkK st = Some it ∧
    ∀ calls fuel, length l < calls → length ids ≤ fuel → drain calls fuel it st = Some l.
Proof.
  intros (Hd & (f & Hrep) & _). unfold get_iterator.
  destruct (rep_loadable CAPACITY junkE junkK Hpar _ _ _ _ _ _ _ _ _ Hrep) as [n Hn].
  rewrite Hn. cbn [mbind option_bind].
  erewrite (leftmost_leaf_ok (depth_ st - 1) (depth_ st)); [|lia|exact Hrep|exact Hn]. simpl.
  eexists. split; [done|]. intros calls fuel Hc Hf.
  destruct (rep_chain _ _ _ _ _ _ _ _ _ Hrep) as (segs & Hch & He & Hlen).
  destruct segs as [|[id0 l0] segs].
  { simpl in Hch. subst f. apply rep_first in Hrep. lia. }
  rewrite (drain_ok calls fuel st _ l); [|exists l0, segs|done].
  - f_equal. apply take_while_true.
  - pose proof Hch as (-> & _). split; [exact Hch|]. simpl in Hlen.
    split; [lia|]. cbn [offset_]. by rewrite drop_0, <- He.
Qed.

(** [locate_key]: the leaf and the position from which the entries not below
    the key follow. *)
Lemma locate_key_ok h : ∀ fuel st k id lo hi f nx l ids n,
  h ≤ fuel → below hi k → rep h (blocks st) id lo hi f nx l ids → load id st = Some n →
  ∃ found r, locate_key CAPACITY junkE junkK fuel n k st = Some (found, r) ∧
    (k ∈ keys l → found = true) ∧
    match r with
    | None => found = false
    | Some (leaf, pos) => ∃ s1 lf s2, chain (blocks st) f leaf s1 ∧
        chain (blocks st) leaf nx ((leaf, lf) :: s2) ∧ length s2 < length ids ∧
        l = (entries s1 ++ take pos lf) ++ drop pos lf ++ entries s2 ∧
        (∀ x, x ∈ keys (entries s1 ++ take pos lf) → (x < k)%Z) ∧
        (∀ x, x ∈ keys (drop pos lf ++ entries s2) → (k ≤ x)%Z)
    end.
Proof.
  induction h as [|h IH]; intros fuel st k id lo hi f nx l ids n Hf Hbk Hrep Hload.
  { destruct (load_rep_0 _ _ _ _ _ _ _ _ _ Hrep Hload)
      as (-> & -> & H0 & Hb & Hw & n0 & -> & Hwf & Hl & _ & Hself & _).
    assert (E : locate_key CAPACITY junkE junkK fuel (NLeaf n0) k st =
      Some (bool_decide (k ∈ keys l), Some (id, lower_bound k (keys l)))).
    { assert (E : ∀ fuel, locate_key CAPACITY junkE junkK fuel (NLeaf n0) k st =
        '(found, pos) ← LeafNode.search_key_position n0 k; Some (found, Some (LeafNode.self_rep_ n0, pos)))
        by (by intros []).
      rewrite E, (LeafNode.search_key_position_live CAPACITY) by done. simpl. by rewrite Hself, Hl. }
    eexists _, _. split; [exact E|]. split; [by intros; rewrite bool_decide_true|].
    pose proof (LeafNode.length_live CAPACITY n0 Hwf) as Hlen.
    destruct Hwf as (_ & Hsz & Hs). rewrite Hl in Hs, Hlen.
    exists [], l, []. split; [done|]. split; [split_and!; [done|done|lia|done|by exists nx]|].
    rewrite app_nil_r. simpl. rewrite take_drop. split_and!; [lia|done| |].
    - intros x Hx. rewrite fmap_take in Hx. apply list_elem_of_lookup in Hx as [j Hj].
      apply lookup_take_Some in Hj as [Hj Hlt]. by eapply lower_bound_below.
    - intros x Hx. rewrite fmap_drop in Hx. apply list_elem_of_lookup in Hx as [j Hj].
      rewrite lookup_drop in Hj. eapply lower_bound_above; [exact Hs|exact Hj|lia]. }
  destruct (load_rep_S _ _ _ _ _ _ _ _ _ _ Hrep Hload)
    as (i & ids' & -> & Hwf & Hself & _ & _ & Hne & -> & H0 & Hw & HR).
  pose proof Hwf as (_ & _ & _ & Hs).
  destruct fuel as [|fuel]; [lia|]. simpl.
  destruct (locate_cases CAPACITY i k Hwf) as
    [[Hloc Hlt]|(index & pre & kt & c & post & Hloc & Hi0 & Hpre & Hc & Hl & Hle & Hp)];
    rewrite Hloc; simpl.
  { eexists _, None. split; [done|]. split; [|done]. intros Hin.
    eapply reps_good in HR as [_ Hg]; [|apply rep_good|done|intros x Hx; by apply Hw].
    apply Hg in Hin as (_ & k0 & c0 & r & E & Hle). specialize (Hlt k0). rewrite E in Hlt.
    assert (k < k0)%Z by (apply Hlt; constructor). lia. }
  destruct (Z.ltb_spec index 0); [lia|]. rewrite Hpre, Hc. simpl. rewrite Hl in HR, Hs, Hw.
  apply reps_middle in HR as (m1 & m2 & la & lc & lb & ia & ic & ib & HRa & HRc & HRb & -> & ->).
  destruct (rep_loadable CAPACITY junkE junkK Hpar _ _ _ _ _ _ _ _ _ HRc) as [child Hch].
  pose proof (next_hi_below post hi k Hbk Hp) as Hbn.
  destruct (region_keys CAPACITY h (blocks st) pre [(kt, c)] post hi f nx m1 m2 la lb ia ib kt Hs)
    as [Hka Hkb]; [intros x Hx; by apply Hw|done|done|done|].
  rewrite Hch. simpl.
  destruct (IH fuel st k c _ _ m1 m2 lc ic child ltac:(lia) Hbn HRc Hch) as (found & r & E & Hfound & Hr).
  exists found, r. split; [done|]. split.
  { intros Hin. apply Hfound. rewrite !fmap_app, !elem_of_app in Hin.
    destruct Hin as [Hin|[Hin|Hin]]; [apply Hka in Hin; lia|done|apply (Hkb _ k) in Hin; [lia|done]]. }
  destruct r as [[leaf pos]|]; [|done].
  destruct Hr as (s1 & lf & s2 & C1 & C2 & Hlen & -> & Hx1 & Hx2).
  destruct (reps_chain _ (blocks st) _ _ _ _ _ _ (rep_chain h (blocks st)) HRa) as (sa & Ca & <- & La).
  destruct (reps_chain _ (blocks st) _ _ _ _ _ _ (rep_chain h (blocks st)) HRb) as (sb & Cb & <- & Lb).
  exists (sa ++ s1), lf, (s2 ++ sb). split; [by eapply chain_app|].
  split; [by apply (chain_app _ _ m2 _ ((leaf, lf) :: s2))|].
  rewrite !entries_app. simpl. rewrite !length_app. split_and!; [lia| | |].
  - by rewrite <- !app_assoc.
  - intros x Hx. rewrite <- app_assoc, fmap_app, elem_of_app in Hx. destruct Hx as [Hx|Hx]; [|auto].
    apply Hka in Hx. lia.
  - intros x Hx. rewrite app_assoc, fmap_app, elem_of_app in Hx. destruct Hx as [Hx|Hx]; [auto|].
    apply (Hkb _ k) in Hx; [lia|done].
Qed.

(** [range_search]: whenever it yields an iterator, that iterator enumerates
    the entries between the bounds; it does so for every stored lower bound. *)
Lemma range_search_ok lo hi st l ids :
  tree_ok CAPACITY st l ids →
  (lo ∈ keys l → is_Some (range_search CAPACITY junkE junkK lo hi st)) ∧
  (∀ it calls fuel, range_search CAPACITY junkE junkK lo hi st = Some it →
    length l < calls → length ids ≤ fuel → drain calls fuel it st = Some (kv_range lo hi l)).
Proof.
  intros Hok. pose proof (tree_ok_sorted _ _ _ _ Hok) as Hs. destruct Hok as (Hd & (f & Hrep) & _).
  unfold range_search.
  destruct (rep_loadable CAPACITY junkE junkK Hpar _ _ _ _ _ _ _ _ _ Hrep) as [n Hn].
  rewrite Hn. cbn [mbind option_bind].
  destruct (locate_key_ok (depth_ st - 1) (depth_ st) st lo (root_ st) None None f (-1)%Z l ids n)
    as (found & r & E & Hfound & Hr); [lia|done|done|done|].
  rewrite E. simpl. split.
  { intros Hin. apply Hfound in Hin as ->. by destruct r as [[leaf pos]|]. }
  intros it calls fuel Hit Hc Hf. destruct r as [[leaf pos]|]; simplify_eq/=.
  destruct Hr as (s1 & lf & s2 & _ & C2 & Hlen & El & Hx1 & Hx2).
  rewrite (drain_ok calls fuel st _ (drop pos lf ++ entries s2)).
  - f_equal. unfold accepts. simpl. rewrite (take_while_range lo).
    + rewrite El. unfold kv_range. rewrite (list.filter_app _ (entries s1 ++ take pos lf)).
      rewrite (filter_none _ (entries s1 ++ take pos lf)); [done|].
      intros [x y] Hx [? _]. assert (x < lo)%Z; [|simpl in *; lia]. apply Hx1.
      apply list_elem_of_fmap. by exists (x, y).
    + rewrite El, fmap_app in Hs. by apply ksorted_app in Hs as (_ & ? & _).
    + done.
  - exists lf, s2. split; [exact C2|]. split; [lia|done].
  - rewrite El, length_app in Hc. lia.
Qed.

End search.
