(* ===== verification/TreeDelete.v ===== *)
(** Deletion from the tree: borrowing from and merging with a sibling preserve
    the representation invariant, and the key disappears from the contents. *)
From Stdlib Require Import ZArith Lia.
From stdpp Require Import base list gmap sorting numbers.
From S2P Require Import Prelude KV Leaf Inner Store Tree TreeRep TreeFoot TreeSearch.

Section delete.
Context {A : Type} `{!Allocator A} `{!AllocatorLaws A}.
Context (CAPACITY : nat) (junkE : list (Z * Z)) (junkK : list Z) (oob : Z).
Context (Hpar : params_ok CAPACITY junkE junkK).

Local Abbreviation state := (tree_state A).
Local Abbreviation load := (load CAPACITY junkE junkK).
Local Abbreviation rep := (rep CAPACITY).
Local Abbreviation B := (UNDERFLOW_BOUND CAPACITY).
Implicit Types (st : state).

(** ** Subtrees whose root is in memory *)
Definition irep (h : nat) (m : gmap Z blk) (n : node) (id : Z) (lo hi : option Z) (f nx : Z)
    (l : kv) (ids : list Z) : Prop :=
  (0 ≤ id)%Z ∧ node_self_rep n = id ∧
  match h, n with
  | 0, NLeaf x => LeafNode.wf CAPACITY x ∧ LeafNode.live x = l ∧ LeafNode.right_sibling_ x = nx ∧
      f = id ∧ ids = [id] ∧ (∀ k, k ∈ keys l → within lo hi k)
  | S h', NInner i => ∃ ids', InnerNode.wf CAPACITY i ∧ InnerNode.live i ≠ [] ∧ ids = id :: ids' ∧
      id ∉ ids' ∧ (∀ k, k ∈ keys (InnerNode.live i) → within lo hi k) ∧
      reps (rep h' m) (InnerNode.live i) hi f nx l ids'
  | _, _ => False
  end.

Lemma irep_load h st id lo hi f nx l ids n :
  rep h (blocks st) id lo hi f nx l ids → NoDup ids → load id st = Some n →
  irep h (blocks st) n id lo hi f nx l ids ∧ in_sync n st ∧ node_modified n = false.
Proof.
  intros Hrep Hnd Hload. destruct h as [|h].
  - destruct (load_rep_0 CAPACITY junkE junkK Hpar _ _ _ _ _ _ _ _ _ Hrep Hload)
      as (-> & -> & H0 & Hb & Hw & n0 & -> & Hwf & Hl & Hs & Hself & Hm).
    split; [|split; [|done]]; [by split_and!|]. right. simpl. rewrite Hself, Hl, Hs. done.
  - destruct (load_rep_S CAPACITY junkE junkK Hpar _ _ _ _ _ _ _ _ _ _ Hrep Hload)
      as (i & ids' & -> & Hwf & Hself & Hm & Hsync & Hne & -> & H0 & Hw & HR).
    apply list.NoDup_cons in Hnd as [Hni _]. split; [|done].
    split_and!; [done|done|]. exists ids'. by split_and!.
Qed.

Lemma irep_close h st n id lo hi f nx l ids :
  irep h (blocks st) n id lo hi f nx l ids → in_sync n st →
  rep h (blocks (close_at id n st)) id lo hi f nx l ids.
Proof.
  intros (H0 & Hself & H) Hsync. destruct h as [|h], n as [x|i]; try done; simpl in Hself; subst id.
  - destruct H as (Hwf & <- & <- & -> & -> & Hw). by apply rep_leaf_intro.
  - destruct H as (ids' & Hwf & Hne & -> & Hni & Hw & HR). by apply rep_inner_intro.
Qed.

Lemma irep_frame h m m' n id lo hi f nx l ids :
  (∀ j, j ∈ ids → j ≠ id → m' !! j = m !! j) →
  irep h m n id lo hi f nx l ids → irep h m' n id lo hi f nx l ids.
Proof.
  intros Hm (H0 & Hself & H). split_and!; [done|done|]. destruct h as [|h], n as [x|i]; try done.
  destruct H as (ids' & Hwf & Hne & -> & Hni & Hw & HR). exists ids'. split_and!; try done.
  eapply reps_frame; [|exact HR]. intros j Hj. apply Hm; [by constructor|]. by intros ->.
Qed.

Lemma irep_good h m n id lo hi f nx l ids :
  irep h m n id lo hi f nx l ids →
  ksorted (keys l) ∧ (∀ k, k ∈ keys l → within lo hi k) ∧ id ∈ ids.
Proof.
  intros (H0 & Hself & H). destruct h as [|h], n as [x|i]; try done.
  - destruct H as (Hwf & <- & _ & _ & -> & Hw). split_and!; [apply Hwf|done|constructor].
  - destruct H as (ids' & Hwf & Hne & -> & Hni & Hw & HR). pose proof Hwf as (_ & _ & _ & Hs).
    eapply reps_good in HR as [Hs' Hg]; [|apply rep_good|done|intros x Hx; by apply Hw].
    split_and!; [done| |constructor]. intros k Hk.
    destruct (Hg k Hk) as (Hb & k0 & c0 & r & E & Hle). split; [|done].
    destruct (Hw k0) as [Ha _]; [rewrite E; constructor|]. destruct lo; simpl in *; [lia|done].
Qed.

(** ** Balancing two siblings *)
(** What [balance] promises for the subtrees of the two nodes. *)
Definition balanced (h : nat) (m : gmap Z blk) (idl idr : Z) lo hi f nx (l : kv) (ids : list Z)
    (merged : bool) (b : option Z) (L R : node) : Prop :=
  node_modified L = true ∧ node_modified R = true ∧
  if merged then
    ∃ ids', irep h m L idl lo hi f nx l ids' ∧ ids ≡ₚ idr :: ids' ∧
      ∀ st, remove_node CAPACITY junkE junkK 0 idr R st = Some (set_alloc (deallocate idr (alloc st)) st)
  else
    ∃ bk mid l1 l2 i1 i2, b = Some bk ∧ irep h m L idl lo (Some bk) f mid l1 i1 ∧
      irep h m R idr (Some bk) hi mid nx l2 i2 ∧ l = l1 ++ l2 ∧ ids ≡ₚ i1 ++ i2 ∧
      below hi bk ∧ (∀ lk, lo = Some lk → (lk < bk)%Z).

(** Splitting sorted keys at the first key of the second part. *)
Lemma boundary_bounds (l1 l2 : kv) bk y t lo hi :
  ksorted (keys (l1 ++ l2)) → (∀ x, x ∈ keys (l1 ++ l2) → within lo hi x) → l2 = (bk, y) :: t →
  (∀ x, x ∈ keys l1 → within lo (Some bk) x) ∧ (∀ x, x ∈ keys l2 → within (Some bk) hi x) ∧
  below hi bk ∧ (l1 ≠ [] → ∀ lk, lo = Some lk → (lk < bk)%Z).
Proof.
  intros Hs Hw ->. rewrite fmap_app in Hs. apply ksorted_app in Hs as (_ & Hs2 & Hx).
  assert (Hb : bk ∈ keys ((bk, y) :: t)) by constructor.
  assert (Hin : ∀ x, x ∈ keys l1 ∨ x ∈ keys ((bk, y) :: t) → within lo hi x).
  { intros x Hx'. apply Hw. rewrite fmap_app. by apply elem_of_app. }
  split_and!.
  - intros x Hx1. split; [apply Hin; auto|by apply Hx].
  - intros x Hx1. split; [by eapply head_min|apply Hin; auto].
  - apply Hin; auto.
  - intros Hne lk ->. destruct l1 as [|[x z] l1]; [done|].
    assert (Hx1 : x ∈ keys ((x, z) :: l1)) by constructor.
    destruct (Hin x (or_introl Hx1)) as [Ha _]. simpl in Ha. specialize (Hx x bk Hx1 Hb). lia.
Qed.

Lemma sorted_join (l1 l2 : kv) b lo hi :
  ksorted (keys l1) → ksorted (keys l2) → (∀ x, x ∈ keys l1 → within lo (Some b) x) →
  (∀ x, x ∈ keys l2 → within (Some b) hi x) → below hi b → above lo b →
  ksorted (keys (l1 ++ l2)) ∧ (∀ x, x ∈ keys (l1 ++ l2) → within lo hi x).
Proof.
  intros Hs1 Hs2 H1 H2 Hb Ha. rewrite fmap_app. split.
  - apply ksorted_app. split_and!; [done|done|]. intros x y Hx Hy.
    destruct (H1 x Hx) as [_ ?]. destruct (H2 y Hy) as [? _]. simpl in *. lia.
  - intros x Hx. apply elem_of_app in Hx as [Hx|Hx].
    + destruct (H1 x Hx) as [? Hx2]. split; [done|]. destruct hi; simpl in *; [lia|done].
    + destruct (H2 x Hx) as [Hx1 ?]. split; [|done]. destruct lo; simpl in *; [lia|done].
Qed.

Lemma balance_leaf m x y idl idr b lo hi f mid nx l1 l2 i1 i2 :
  irep 0 m (NLeaf x) idl lo (Some b) f mid l1 i1 → irep 0 m (NLeaf y) idr (Some b) hi mid nx l2 i2 →
  below hi b → above lo b →
  LeafNode.size_ x < B ∨ LeafNode.size_ y < B →
  ∃ merged bk L R, node_balance CAPACITY oob (NLeaf x) (NLeaf y) = Some (merged, bk, L, R) ∧
    balanced 0 m idl idr lo hi f nx (l1 ++ l2) (i1 ++ i2) merged bk L R.
Proof.
  intros (H0l & Hsl & Hwl & Hl1 & Hnl & -> & -> & Hb1) (H0r & Hsr & Hwr & Hl2 & Hnr & -> & -> & Hb2) Hbb Hab Hu.
  simpl in Hsl, Hsr. pose proof Hwl as (_ & _ & Hs1). pose proof Hwr as (_ & _ & Hs2).
  rewrite Hl1 in Hs1. rewrite Hl2 in Hs2.
  destruct (sorted_join l1 l2 b lo hi Hs1 Hs2 Hb1 Hb2 Hbb Hab) as [Hsj Hwj].
  destruct (LeafNode.balance_live CAPACITY x y) as (merged & bk & x' & y' & Hbal & Hpost);
    [destruct Hpar; lia|done|done|by rewrite Hl1, Hl2|done|].
  simpl. rewrite Hbal. simpl. eexists merged, bk, _, _. split; [done|].
  destruct Hpost as (Hwx & Hwy & Hmx & Hmy & Hsx & Hsy & Happ & Hcase). rewrite Hl1, Hl2 in Happ.
  split; [done|]. split; [done|]. destruct merged.
  - destruct Hcase as [Hy0 Hsib]. rewrite Hy0, app_nil_r in Happ. exists [idl]. split_and!; [| |done].
    + split_and!; simpl; try done; congruence.
    + simpl. constructor.
  - destruct Hcase as (Hsib1 & Hsib2 & Hsz & k & v & t & -> & Hy).
    destruct (boundary_bounds (LeafNode.live x') (LeafNode.live y') k v t lo hi) as (P1 & P2 & P3 & P4);
      [by rewrite Happ..|done|].
    exists k, idr, (LeafNode.live x'), (LeafNode.live y'), [idl], [idr].
    split; [done|]. split; [split_and!; simpl; try done; congruence|].
    split; [split_and!; simpl; try done; congruence|]. split_and!; [done|done|done|].
    apply P4. intros E. apply (f_equal length) in E. rewrite (LeafNode.length_live CAPACITY) in E by done.
    simpl in E. lia.
Qed.

Lemma balance_inner h m x y idl idr b lo hi f mid nx l1 l2 i1 i2 :
  irep (S h) m (NInner x) idl lo (Some b) f mid l1 i1 →
  irep (S h) m (NInner y) idr (Some b) hi mid nx l2 i2 →
  NoDup (i1 ++ i2) → below hi b → above lo b →
  InnerNode.size_ x < B ∨ InnerNode.size_ y < B →
  ∃ merged bk L R, node_balance CAPACITY oob (NInner x) (NInner y) = Some (merged, bk, L, R) ∧
    balanced (S h) m idl idr lo hi f nx (l1 ++ l2) (i1 ++ i2) merged bk L R.
Proof.
  intros (H0l & Hsl & j1 & Hwl & Hnel & -> & Hni1 & Hb1 & HR1)
    (H0r & Hsr & j2 & Hwr & Hner & -> & Hni2 & Hb2 & HR2) Hnd Hbb Hab Hu.
  simpl in Hsl, Hsr. pose proof Hwl as (_ & _ & _ & Hs1). pose proof Hwr as (_ & _ & _ & Hs2).
  destruct (sorted_join _ _ b lo hi Hs1 Hs2 Hb1 Hb2 Hbb Hab) as [Hsj Hwj].
  assert (HR : reps (rep h m) (InnerNode.live x ++ InnerNode.live y) hi f nx (l1 ++ l2) (j1 ++ j2)).
  { apply reps_app. exists mid, l1, l2, j1, j2. split_and!; try done.
    eapply reps_weaken; [|exact HR1]. intros k Hk. destruct (live_head_kv _ Hner) as (k0 & c0 & t & E).
    rewrite E. simpl. destruct (Hb2 k0) as [Hk0 _]; [rewrite E; constructor|]. simpl in *. lia. }
  assert (Hdisj : idl ∉ j1 ++ j2 ∧ idr ∉ j1 ++ j2).
  { simpl in Hnd. apply list.NoDup_cons in Hnd as [Ha Hnd]. apply list.NoDup_app in Hnd as (_ & Hd & Hnd).
    apply list.NoDup_cons in Hnd as [Hb _]. set_solver. }
  destruct (InnerNode.inner_balance_live CAPACITY oob x y) as (merged & bk & x' & y' & Hbal & Hpost);
    [apply Hpar|done|done|done|done|].
  simpl. rewrite Hbal. simpl. eexists merged, bk, _, _. split; [done|].
  destruct Hpost as (Hwx & Hwy & Hmx & Hmy & Hsx & Hsy & Happ & Hcase).
  rewrite <- Happ in HR, Hsj, Hwj.
  split; [done|]. split; [done|]. destruct merged.
  - rewrite Hcase, app_nil_r in HR, Happ, Hwj. exists (idl :: j1 ++ j2).
    split_and!; [| |].
    + split_and!; simpl; [done|congruence|]. exists (j1 ++ j2). split_and!; try done; [|tauto].
      intros E. rewrite E in Happ. symmetry in Happ. apply app_eq_nil in Happ as [? _]. done.
    + solve_Permutation.
    + intros st. simpl. pose proof (InnerNode.inner_length_live CAPACITY y' Hwy) as Hlen.
      rewrite Hcase in Hlen. simpl in Hlen. by rewrite <- Hlen.
  - destruct Hcase as (k & c & t & -> & Hy & Hne).
    destruct (boundary_bounds _ _ k c t lo hi Hsj Hwj Hy) as (P1 & P2 & P3 & P4).
    apply reps_app in HR as (mid' & l1' & l2' & j1' & j2' & HR1' & HR2' & El & Ej).
    rewrite Ej in Hdisj. rewrite Hy in HR1'. simpl in HR1'.
    exists k, mid', l1', l2', (idl :: j1'), (idr :: j2'). split; [done|].
    split; [|split; [|split_and!; auto]].
    + split_and!; simpl; [done|congruence|]. exists j1'. split_and!; try done. set_solver.
    + split_and!; simpl; [done|congruence|]. exists j2'. split_and!; try done; [by rewrite Hy|set_solver].
    + simpl. rewrite <- !Permutation_middle, Ej. done.
Qed.

Lemma node_balance_ok h m L R idl idr b lo hi f mid nx l1 l2 i1 i2 :
  irep h m L idl lo (Some b) f mid l1 i1 → irep h m R idr (Some b) hi mid nx l2 i2 →
  NoDup (i1 ++ i2) → below hi b → above lo b → node_size L < B ∨ node_size R < B →
  ∃ merged bk L' R', node_balance CAPACITY oob L R = Some (merged, bk, L', R') ∧
    balanced h m idl idr lo hi f nx (l1 ++ l2) (i1 ++ i2) merged bk L' R'.
Proof.
  intros HL HR Hnd Hb Ha Hu.
  assert (H : (h = 0 ∧ ∃ x y, L = NLeaf x ∧ R = NLeaf y) ∨
              (∃ h' x y, h = S h' ∧ L = NInner x ∧ R = NInner y)).
  { destruct h, L, R; destruct HL as (_ & _ & HL), HR as (_ & _ & HR); try done;
      [left|right]; eauto 10. }
  destruct H as [(-> & x & y & -> & ->)|(h' & x & y & -> & -> & ->)].
  - by eapply balance_leaf.
  - by eapply balance_inner.
Qed.

(** ** The parent of a rebalanced pair *)
Definition delete_post (h : nat) (m : gmap Z blk) (a : A) (st st' : state) (n' : node) (id : Z)
    (lo hi : option Z) (f nx : Z) (l : kv) (ids : list Z) (u : bool) (q : nat) : Prop :=
  root_ st' = root_ st ∧ depth_ st' = depth_ st ∧
  ∃ ids', irep h (blocks st') n' id lo hi f nx l ids' ∧ in_sync n' st' ∧
    step_ok m (blocks st') a (alloc st') ids ids' q ∧ (u = true → node_size n' < B).

Lemma nodup_parts (id : Z) (ia x y ib : list Z) :
  NoDup (id :: ia ++ (x ++ y) ++ ib) →
  id ∉ ia ++ (x ++ y) ++ ib ∧ NoDup (x ++ y) ∧
  (∀ j, j ∈ x → j ∉ y ∧ j ∉ ia ∧ j ∉ ib ∧ j ≠ id) ∧
  (∀ j, j ∈ y → j ∉ x ∧ j ∉ ia ∧ j ∉ ib ∧ j ≠ id).
Proof.
  intros Hnd. apply list.NoDup_cons in Hnd as [Hid Hnd].
  apply list.NoDup_app in Hnd as (Ha & Had & Hnd). apply list.NoDup_app in Hnd as (Hxy & Hxyb & Hb).
  pose proof Hxy as (Hx & Hxyd & Hy)%list.NoDup_app. rewrite !elem_of_app in Hid.
  split_and!; [by rewrite !elem_of_app|done|..]; intros j Hj; split_and!; intros H.
  - by apply (Hxyd j).
  - apply (Had j H). rewrite !elem_of_app. auto.
  - apply (Hxyb j); [rewrite elem_of_app; auto|done].
  - subst j. tauto.
  - by apply (Hxyd j).
  - apply (Had j H). rewrite !elem_of_app. auto.
  - apply (Hxyb j); [rewrite elem_of_app; auto|done].
  - subst j. tauto.
Qed.

Lemma sorted_replace (pre post : kv) k1 c1 k2 c2 b hi :
  ksorted (keys (pre ++ (k1, c1) :: (k2, c2) :: post)) → (k1 < b)%Z → below (next_hi post hi) b →
  ksorted (keys (pre ++ (k1, c1) :: (b, c2) :: post)).
Proof.
  intros Hs Hb Hbp. pose proof Hs as (H1 & H2 & H3 & H4)%sorted_middle.
  apply (kvsorted_cons k2) in H4 as [H5 H6].
  rewrite fmap_app in *. apply ksorted_app in Hs as (_ & _ & Hx). apply ksorted_app.
  assert (Hbk : ∀ x, x ∈ keys post → (b < x)%Z) by (by eapply below_next_hi).
  split_and!; [done| |].
  - apply (kvsorted_cons k1 ((b, c2) :: post)). split; [|by apply (kvsorted_cons b)].
    simpl. intros z Hz. apply elem_of_cons in Hz as [->|Hz]; [done|].
    apply H2. simpl. by constructor.
  - intros x y Hx' Hy. specialize (H1 x Hx'). simpl in Hy. rewrite !elem_of_cons in Hy.
    destruct Hy as [->|[->|Hy]]; [done|lia|]. apply Hbk in Hy. lia.
Qed.

Definition rebalance_step (j : nat) (lc rc : Z) (L R : node) (i : InnerNode.InnerNode) st
    : option (bool * bool * node * state) :=
  '(merged, boundary, left_child, right_child) ← node_balance CAPACITY oob L R;
  let i := InnerNode.mark_modified i in
  if negb merged then
    b ← boundary;
    i ← InnerNode.set_key j b i;
    Some (true, false, NInner i, close_at rc right_child (close_at lc left_child st))
  else
    let st := close_at lc left_child st in
    st ← remove_node CAPACITY junkE junkK 0 rc right_child st;
    i ← InnerNode.remove_child j i;
    Some (true, InnerNode.size_ i <? B, NInner i, st).

Section rebalance.
Context (h : nat) (m : gmap Z blk) (a : A) (st : state) (i : InnerNode.InnerNode).
Context (pre post : kv) (kl lc kr rc : Z) (L R : node) (id : Z) (lo hi : option Z) (f nx : Z).
Context (m1 mid m2 : Z) (la l1 l2 lb : kv) (ia il ir ib ids0 : list Z) (q : nat).
Context (Hwf : InnerNode.wf CAPACITY i) (H0 : (0 ≤ id)%Z) (Hself : InnerNode.self_rep_ i = id).
Context (Hlive : InnerNode.live i = pre ++ (kl, lc) :: (kr, rc) :: post).
Context (Hw : ∀ k, k ∈ keys (InnerNode.live i) → within lo hi k).
Context (Hpre : reps (rep h (blocks st)) pre (Some kl) f m1 la ia).
Context (Hpost : reps (rep h (blocks st)) post hi m2 nx lb ib).
Context (Hst : step_ok m (blocks st) a (alloc st) ids0 (id :: ia ++ (il ++ ir) ++ ib) q).

Lemma rebalance_borrow L' R' bk :
  balanced h (blocks st) lc rc (Some kl) (next_hi post hi) m1 m2 (l1 ++ l2) (il ++ ir) false (Some bk) L' R' →
  ∃ i', InnerNode.set_key (S (length pre)) bk (InnerNode.mark_modified i) = Some i' ∧
    delete_post (S h) m a st (close_at rc R' (close_at lc L' st)) (NInner i') id lo hi f nx
      (la ++ (l1 ++ l2) ++ lb) ids0 false q.
Proof using Hwf H0 Hself Hlive Hw Hpre Hpost Hst Hpar AllocatorLaws0.
  intros (HmL & HmR & bk' & mid' & l1' & l2' & i1 & i2 & Eb & HL & HR & El & Ei & Hbb & Hab).
  injection Eb as <-. specialize (Hab kl eq_refl).
  assert (Hst' : step_ok m (blocks st) a (alloc st) ids0 (id :: ia ++ (i1 ++ i2) ++ ib) q).
  { eapply step_ok_perm; [|exact Hst]. by rewrite Ei. }
  pose proof (step_ok_nodup _ _ _ _ _ _ _ Hst') as Hnd.
  destruct (nodup_parts _ _ _ _ _ Hnd) as (Hid & Hnd12 & Hd1 & Hd2).
  destruct (irep_good _ _ _ _ _ _ _ _ _ _ HL) as (_ & _ & Hlc).
  destruct (irep_good _ _ _ _ _ _ _ _ _ _ HR) as (_ & _ & Hrc).
  pose proof Hwf as (_ & _ & _ & Hs). rewrite Hlive in Hs.
  pose proof (sorted_replace _ _ _ _ _ _ _ _ Hs Hab Hbb) as Hs'.
  set (st1 := close_at lc L' st). set (st2 := close_at rc R' st1).
  assert (Hlk : <[S (length pre) := (bk, rc)]> (InnerNode.live i) = pre ++ (kl, lc) :: (bk, rc) :: post).
  { rewrite Hlive, insert_app_r_alt by lia. replace (S (length pre) - length pre) with 1 by lia. done. }
  assert (Hsz : InnerNode.size_ i = length pre + S (S (length post))).
  { rewrite <- (InnerNode.inner_length_live CAPACITY i Hwf), Hlive, length_app. done. }
  destruct (InnerNode.set_key_live CAPACITY (S (length pre)) bk (InnerNode.mark_modified i))
    as (i' & c & Hset & Hc & Hwf' & Hlive' & Hself' & Hmod' & Hsz'); [done|simpl; lia| |].
  { change (InnerNode.live (InnerNode.mark_modified i)) with (InnerNode.live i).
    rewrite <- Hlk, list_fmap_insert in Hs'. done. }
  change (InnerNode.live (InnerNode.mark_modified i)) with (InnerNode.live i) in *.
  assert (c.2 = rc) as E.
  { rewrite Hlive, lookup_app_r in Hc by lia. replace (S (length pre) - length pre) with 1 in Hc by lia.
    simpl in Hc. by simplify_eq. }
  rewrite E, Hlk in Hlive'. exists i'. split; [done|].
  assert (R1 : rep h (blocks st2) lc (Some kl) (Some bk) m1 mid' l1' i1).
  { apply (rep_frame _ _ (blocks st1)); [intros j Hj; apply close_lookup_ne; intros ->; by destruct (Hd1 rc Hj)|].
    apply irep_close; [done|by left]. }
  assert (R2 : rep h (blocks st2) rc (Some bk) (next_hi post hi) mid' m2 l2' i2).
  { apply irep_close; [|by left]. eapply irep_frame; [|exact HR].
    intros j Hj _. apply close_lookup_ne. intros ->. by destruct (Hd2 lc Hj). }
  assert (Hfr : ∀ j, j ∉ i1 → j ∉ i2 → blocks st2 !! j = blocks st !! j).
  { intros j Hj1 Hj2. unfold st2, st1. rewrite !close_lookup_ne; [done|by intros ->..]. }
  split_and!; [by unfold st2, st1; rewrite !close_root|by unfold st2, st1; rewrite !close_depth|].
  exists (id :: ia ++ (i1 ++ i2) ++ ib). split_and!; [| | |done].
  - split_and!; [done|by simpl; rewrite Hself'|]. exists (ia ++ (i1 ++ i2) ++ ib).
    rewrite Hlive'. split_and!; [done|by destruct pre|done|done| |].
    + intros k Hk. rewrite fmap_app, elem_of_app in Hk. simpl in Hk. rewrite !elem_of_cons in Hk.
      assert (Hw' : ∀ k, k ∈ keys pre ∨ k = kl ∨ k ∈ keys post → within lo hi k).
      { intros k' Hk'. apply Hw. rewrite Hlive, fmap_app, elem_of_app. simpl. rewrite !elem_of_cons. tauto. }
      destruct Hk as [Hk|[->|[->|Hk]]]; auto.
      destruct (Hw' kl) as [Ha _]; [auto|]. split; [destruct lo; simpl in *; lia|].
      destruct post as [|[k2 c2] post']; [done|]. destruct (Hw' k2) as [_ Hb]; [simpl; set_solver|].
      simpl in Hbb. destruct hi; simpl in *; lia.
    + apply reps_app. exists m1, la, ((l1 ++ l2) ++ lb), ia, ((i1 ++ i2) ++ ib). split_and!; [|simpl|done|done].
      { eapply reps_frame; [|exact Hpre]. intros j Hj. apply Hfr; intros Hx; [by destruct (Hd1 j Hx) as (_&?&?&_)|by destruct (Hd2 j Hx) as (_&?&?&_)]. }
      exists mid', l1', (l2' ++ lb), i1, (i2 ++ ib). rewrite El, <- !app_assoc. split_and!; [done| |done|done].
      exists m2, l2', lb, i2, ib. split_and!; [done| |done|done].
      eapply reps_frame; [|exact Hpost]. intros j Hj. apply Hfr; intros Hx; [by destruct (Hd1 j Hx) as (_&?&?&_)|by destruct (Hd2 j Hx) as (_&?&?&_)].
  - left. simpl. by rewrite Hmod'.
  - apply step_ok_close; [set_solver|]. apply step_ok_close; [set_solver|done].
Qed.

Lemma rebalance_merge L' R' :
  balanced h (blocks st) lc rc (Some kl) (next_hi post hi) m1 m2 (l1 ++ l2) (il ++ ir) true None L' R' →
  ∃ i', InnerNode.remove_child (S (length pre)) (InnerNode.mark_modified i) = Some i' ∧
    (∀ st1, remove_node CAPACITY junkE junkK 0 rc R' st1 = Some (set_alloc (deallocate rc (alloc st1)) st1)) ∧
    let st1 := close_at lc L' st in
    delete_post (S h) m a st (set_alloc (deallocate rc (alloc st1)) st1) (NInner i') id lo hi f nx
      (la ++ (l1 ++ l2) ++ lb) ids0 (InnerNode.size_ i' <? B) q.
Proof using Hwf H0 Hself Hlive Hw Hpre Hpost Hst Hpar AllocatorLaws0.
  intros (HmL & HmR & js & HL & Ei & Hrem).
  destruct (irep_good _ _ _ _ _ _ _ _ _ _ HL) as (_ & _ & Hlc).
  assert (Hst' : step_ok m (blocks st) a (alloc st) ids0 (id :: ia ++ (js ++ [rc]) ++ ib) q).
  { eapply step_ok_perm; [|exact Hst]. rewrite Ei. solve_Permutation. }
  pose proof (step_ok_nodup _ _ _ _ _ _ _ Hst') as Hnd.
  destruct (nodup_parts _ _ _ _ _ Hnd) as (Hid & _ & Hd1 & _).
  assert (Hsz : InnerNode.size_ i = length pre + S (S (length post))).
  { rewrite <- (InnerNode.inner_length_live CAPACITY i Hwf), Hlive, length_app. done. }
  destruct (InnerNode.remove_child_live CAPACITY (S (length pre)) (InnerNode.mark_modified i))
    as (i' & Hrc & Hwf' & Hlive' & Hself' & Hmod' & Hsz'); [done|simpl; lia|].
  change (InnerNode.live (InnerNode.mark_modified i)) with (InnerNode.live i) in *.
  assert (El : InnerNode.live i' = pre ++ (kl, lc) :: post).
  { rewrite Hlive', Hlive. rewrite take_app_ge, drop_app_ge by lia.
    replace (S (length pre) - length pre) with 1 by lia.
    replace (S (S (length pre)) - length pre) with 2 by lia. simpl. by rewrite <- app_assoc. }
  exists i'. split; [done|]. split; [done|]. set (st1 := close_at lc L' st). cbn zeta.
  split_and!; [by unfold st1; simpl; rewrite close_root|by unfold st1; simpl; rewrite close_depth|].
  assert (Hfr : ∀ j, j ∉ js → blocks st1 !! j = blocks st !! j).
  { intros j Hj. unfold st1. apply close_lookup_ne. by intros ->. }
  exists (id :: ia ++ js ++ ib). split_and!.
  - split_and!; [done|by simpl; rewrite Hself'|]. exists (ia ++ js ++ ib). rewrite El.
    split_and!; [done|by destruct pre|done| | |].
    + rewrite !elem_of_app in *. tauto.
    + intros k Hk. apply Hw. rewrite Hlive. rewrite fmap_app, elem_of_app in *. simpl in *.
      rewrite !elem_of_cons in *. tauto.
    + apply reps_middle. exists m1, m2, la, (l1 ++ l2), lb, ia, js, ib. split_and!; [| | |done|done]; simpl.
      * eapply reps_frame; [|exact Hpre]. intros j Hj. apply Hfr. intros Hx. by destruct (Hd1 j Hx) as (_&?&_).
      * apply irep_close; [done|by left].
      * eapply reps_frame; [|exact Hpost]. intros j Hj. apply Hfr. intros Hx. by destruct (Hd1 j Hx) as (_&_&?&_).
  - left. simpl. by rewrite Hmod'.
  - apply (step_ok_free _ _ _ _ _ (id :: ia ++ (js ++ [rc]) ++ ib)); [solve_Permutation|].
    apply step_ok_close; [set_solver|done].
  - simpl. intros Hu. by apply Nat.ltb_lt.
Qed.

Lemma rebalance_ok :
  irep h (blocks st) L lc (Some kl) (Some kr) m1 mid l1 il →
  irep h (blocks st) R rc (Some kr) (next_hi post hi) mid m2 l2 ir →
  node_size L < B ∨ node_size R < B →
  ∃ u n' st', rebalance_step (S (length pre)) lc rc L R i st = Some (true, u, n', st') ∧
    delete_post (S h) m a st st' n' id lo hi f nx (la ++ (l1 ++ l2) ++ lb) ids0 u q.
Proof using Hwf H0 Hself Hlive Hw Hpre Hpost Hst Hpar AllocatorLaws0.
  intros HL HR Hu. pose proof Hwf as (_ & _ & _ & Hs). rewrite Hlive in Hs.
  apply sorted_middle in Hs as (_ & Hlt & _ & Hsp). apply (kvsorted_cons kr) in Hsp as [Hkp _].
  destruct (nodup_parts _ _ _ _ _ (step_ok_nodup _ _ _ _ _ _ _ Hst)) as (_ & Hnd & _).
  destruct (node_balance_ok h (blocks st) L R lc rc kr (Some kl) (next_hi post hi) m1 mid m2 l1 l2 il ir)
    as (merged & bk & L' & R' & Hbal & Hpo); auto.
  { apply next_hi_below; [|done]. apply Hw. rewrite Hlive, fmap_app, elem_of_app. simpl. set_solver. }
  { simpl. assert (kl < kr)%Z; [|lia]. apply Hlt. constructor. }
  unfold rebalance_step. rewrite Hbal. cbn [mbind option_bind]. destruct merged; cbn [negb].
  - assert (Hpo' : balanced h (blocks st) lc rc (Some kl) (next_hi post hi) m1 m2 (l1 ++ l2) (il ++ ir)
      true None L' R') by done.
    destruct (rebalance_merge L' R' Hpo') as (i' & H1 & H2 & H3). rewrite H2. cbn. rewrite H1. cbn. eauto.
  - assert (Hb : ∃ b, bk = Some b) by (destruct Hpo as (_ & _ & b & ? & ? & ? & ? & ? & -> & _); eauto).
    destruct Hb as [b ->]. simpl.
    destruct (rebalance_borrow L' R' b Hpo) as (i' & H1 & H2). rewrite H1. simpl. eauto.
Qed.

End rebalance.

(** ** The recursive deletion *)
Lemma kv_delete_region k (la lc lb : kv) :
  k ∉ keys la → k ∉ keys lb → kv_delete k (la ++ lc ++ lb) = la ++ kv_delete k lc ++ lb.
Proof. intros Ha Hb. rewrite kv_delete_app_r by done. by rewrite kv_delete_app_l. Qed.

Lemma delete_post_trans h m a st st' st2 n id lo hi f nx l ids u q :
  root_ st' = root_ st → depth_ st' = depth_ st →
  delete_post h m a st' st2 n id lo hi f nx l ids u q →
  delete_post h m a st st2 n id lo hi f nx l ids u q.
Proof. intros H1 H2 (H3 & H4 & H5). split_and!; [congruence|congruence|done]. Qed.

(** The situation after the deletion in child [c] of the node [i]. *)
Section delete_child.
Context (h : nat) (st st' : state) (i : InnerNode.InnerNode) (pre post : kv) (kt c : Z) (child : node).
Context (id : Z) (lo hi : option Z) (f nx m1 m2 : Z) (la lc lb : kv) (ia ic ic' ib : list Z) (q : nat).
Context (Hwf : InnerNode.wf CAPACITY i) (H0 : (0 ≤ id)%Z) (Hself : InnerNode.self_rep_ i = id).
Context (Hsync : in_sync (NInner i) st).
Context (Hlive : InnerNode.live i = pre ++ (kt, c) :: post).
Context (Hw : ∀ k, k ∈ keys (InnerNode.live i) → within lo hi k).
Context (Hnd : NoDup (id :: ia ++ ic ++ ib)).
Context (Hin : ∀ j, j ∈ id :: ia ++ ic ++ ib → j ∈ in_use (alloc st)).
Context (Hpre : reps (rep h (blocks st)) pre (Some kt) f m1 la ia).
Context (Hpost : reps (rep h (blocks st)) post hi m2 nx lb ib).
Context (Hchild : irep h (blocks st') child c (Some kt) (next_hi post hi) m1 m2 lc ic').
Context (Hcsync : in_sync child st').
Context (Hst : step_ok (blocks st) (blocks st') (alloc st) (alloc st') ic ic' q).
Context (Hroot : root_ st' = root_ st) (Hdep : depth_ st' = depth_ st).

Lemma delete_keep u :
  (u = true → InnerNode.size_ i < B) →
  delete_post (S h) (blocks st) (alloc st) st (close_at c child st') (NInner i) id lo hi f nx
    (la ++ lc ++ lb) (id :: ia ++ ic ++ ib) u q.
Proof using All.
  intros Hu. set (st1 := close_at c child st').
  destruct (irep_good _ _ _ _ _ _ _ _ _ _ Hchild) as (_ & _ & Hc).
  assert (Hst1 : step_ok (blocks st) (blocks st1) (alloc st) (alloc st1) ic ic' q).
  { by apply step_ok_close. }
  destruct (region_update CAPACITY h (blocks st) (blocks st1) (alloc st) (alloc st1) id pre [(kt, c)] [(kt, c)]
    post hi f nx m1 m2 la lc lb ia ic ic' ib q Hnd Hin Hpre Hpost Hst1) as (HR & Hst2 & Hid); [|done|done|].
  { exists m2, lc, [], ic', []. rewrite !app_nil_r. split_and!; try done. by apply irep_close. }
  split_and!; [by unfold st1; rewrite close_root|by unfold st1; rewrite close_depth|].
  exists (id :: ia ++ ic' ++ ib). split_and!; [| |done|done].
  - split_and!; [done|done|]. exists (ia ++ ic' ++ ib). rewrite Hlive in *.
    split_and!; try done; [by destruct pre|].
    by apply step_ok_nodup, list.NoDup_cons in Hst2 as [? _].
  - destruct Hsync as [Hm|Hb]; [by left|right]. simpl in *. rewrite Hself in *. by rewrite Hid.
Qed.

Lemma delete_frame :
  reps (rep h (blocks st')) pre (Some kt) f m1 la ia ∧ reps (rep h (blocks st')) post hi m2 nx lb ib ∧
  step_ok (blocks st) (blocks st') (alloc st) (alloc st') (id :: ia ++ ic ++ ib) (id :: ia ++ ic' ++ ib) q.
Proof using All.
  pose proof (step_ok_outside _ _ _ _ _ _ _ _ _ _ Hnd Hin Hst) as Hout.
  split_and!.
  - eapply reps_frame; [|exact Hpre]. intros j Hj. apply Hout. set_solver.
  - eapply reps_frame; [|exact Hpost]. intros j Hj. apply Hout. set_solver.
  - eapply (step_ok_context _ _ _ _ _ _ ic ic' (id :: ia ++ ib)); [done|done| | |done]; solve_Permutation.
Qed.

(** Rebalancing with the left sibling. *)
Lemma delete_left pre' kl lc0 :
  pre = pre' ++ [(kl, lc0)] → node_size child < B →
  ∃ L u n' st2, InnerNode.child_rep_ i !! length pre' = Some lc0 ∧ load lc0 st' = Some L ∧
    rebalance_step (length pre) lc0 c L child i st' = Some (true, u, n', st2) ∧
    delete_post (S h) (blocks st) (alloc st) st st2 n' id lo hi f nx (la ++ lc ++ lb)
      (id :: ia ++ ic ++ ib) u q.
Proof using All.
  destruct delete_frame as (HpreF & HpostF & HstF). intros -> Hu.
  apply reps_app in HpreF as (ml & la' & ll & ia' & il & Hp' & (ml2 & ll2 & ? & il2 & ? & HL & (<- & -> & ->) & -> & ->) & -> & ->).
  rewrite !app_nil_r in *. simpl in Hp', HL.
  destruct (rep_loadable CAPACITY junkE junkK Hpar _ _ _ _ _ _ _ _ _ HL) as [L HLd].
  assert (E : id :: (ia' ++ il2) ++ ic' ++ ib = id :: ia' ++ (il2 ++ ic') ++ ib) by (by rewrite <- !app_assoc).
  rewrite E in HstF. pose proof (step_ok_nodup _ _ _ _ _ _ _ HstF) as Hnd'.
  destruct (nodup_parts _ _ _ _ _ Hnd') as (_ & (Hndl & _)%list.NoDup_app & _).
  destruct (irep_load _ _ _ _ _ _ _ _ _ _ HL Hndl HLd) as (HLi & _ & _).
  assert (Hl' : InnerNode.live i = pre' ++ (kl, lc0) :: (kt, c) :: post) by (by rewrite Hlive, <- app_assoc).
  destruct (rebalance_ok h (blocks st) (alloc st) st' i pre' post kl lc0 kt c L child id lo hi f nx ml ml2 m2 la' ll2 lc lb
              ia' il2 ic' ib (id :: (ia' ++ il2) ++ ic ++ ib) q) as (u & n' & st2 & Hstep & Hpo); auto.
  exists L, u, n', st2. split_and!; [|done| |].
  - assert (Hi : InnerNode.live i !! length pre' = Some (kl, lc0)) by (by rewrite Hl', list_lookup_middle).
    by apply InnerNode.inner_live_lookup in Hi as (_ & _ & ?).
  - rewrite length_app, Nat.add_1_r. done.
  - eapply delete_post_trans; [done|done|]. rewrite <- app_assoc in Hpo. by rewrite <- (app_assoc la').
Qed.

(** Rebalancing with the right sibling. *)
Lemma delete_right post' kr rc :
  post = (kr, rc) :: post' → node_size child < B →
  ∃ R u n' st2, InnerNode.child_rep_ i !! S (length pre) = Some rc ∧ load rc st' = Some R ∧
    rebalance_step (S (length pre)) c rc child R i st' = Some (true, u, n', st2) ∧
    delete_post (S h) (blocks st) (alloc st) st st2 n' id lo hi f nx (la ++ lc ++ lb)
      (id :: ia ++ ic ++ ib) u q.
Proof using All.
  destruct delete_frame as (HpreF & HpostF & HstF). intros -> Hu.
  destruct HpostF as (m3 & lr & lb' & ir & ib' & HR & Hp' & -> & ->).
  destruct (rep_loadable CAPACITY junkE junkK Hpar _ _ _ _ _ _ _ _ _ HR) as [R HRd].
  assert (E : id :: ia ++ ic' ++ ir ++ ib' = id :: ia ++ (ic' ++ ir) ++ ib') by (by rewrite <- !app_assoc).
  rewrite E in HstF. pose proof (step_ok_nodup _ _ _ _ _ _ _ HstF) as Hnd'.
  destruct (nodup_parts _ _ _ _ _ Hnd') as (_ & (_ & _ & Hndr)%list.NoDup_app & _).
  destruct (irep_load _ _ _ _ _ _ _ _ _ _ HR Hndr HRd) as (HRi & _ & _).
  destruct (rebalance_ok h (blocks st) (alloc st) st' i pre post' kt c kr rc child R id lo hi f nx m1 m2 m3 la lc lr lb'
              ia ic' ir ib' (id :: ia ++ ic ++ ir ++ ib') q) as (u & n' & st2 & Hstep & Hpo); auto.
  exists R, u, n', st2. split_and!; [|done|done|].
  - assert (Hi : InnerNode.live i !! S (length pre) = Some (kr, rc)).
    { rewrite Hlive, lookup_app_r by lia. by replace (S (length pre) - length pre) with 1 by lia. }
    by apply InnerNode.inner_live_lookup in Hi as (_ & _ & ?).
  - eapply delete_post_trans; [done|done|]. by rewrite <- app_assoc in Hpo.
Qed.

End delete_child.

Local Abbreviation delete_key := (delete_key CAPACITY junkE junkK oob).

(** [delete_key] of an inner node after the call on the child. *)
Lemma delete_key_inner_eq fuel i k u st :
  delete_key (S fuel) (NInner i) k u st =
  (index ← InnerNode.locate_child_index k i;
   if (index <? 0)%Z then Some (false, u, NInner i, st) else
   let ci := Z.to_nat index in
   c ← InnerNode.child_rep_ i !! ci;
   child ← load c st;
   '(deleted, underflow, child, st) ← delete_key fuel child k u st;
   if negb deleted then Some (false, underflow, NInner i, close_at c child st) else
   if negb underflow || (InnerNode.size_ i <? 2) then
     Some (true, underflow, NInner i, close_at c child st) else
   let l := if 1 <=? ci then ci - 1 else ci in
   let r := if 1 <=? ci then ci else ci + 1 in
   '(lc, left_child) ← sibling CAPACITY junkE junkK l ci child i st;
   '(rc, right_child) ← sibling CAPACITY junkE junkK r ci child i st;
   rebalance_step r lc rc left_child right_child i st).
Proof. done. Qed.

Lemma delete_leaf fuel st k u id lo hi f nx l ids q n :
  rep 0 (blocks st) id lo hi f nx l ids → NoDup ids → (∀ j, j ∈ ids → j ∈ in_use (alloc st)) →
  alloc_wf (alloc st) → room (alloc st) q → load id st = Some n →
  ∃ u' n' st', delete_key fuel n k u st = Some (bool_decide (k ∈ keys l), u', n', st') ∧
    (k ∉ keys l → u' = u) ∧
    delete_post 0 (blocks st) (alloc st) st st' n' id lo hi f nx (kv_delete k l) ids
      (bool_decide (k ∈ keys l) && u') q.
Proof.
  intros Hrep Hnd Hin Hwfa Hroom Hload.
  pose proof (irep_load _ _ _ _ _ _ _ _ _ _ Hrep Hnd Hload) as (Hirep & Hsync & _).
  destruct (load_rep_0 CAPACITY junkE junkK Hpar _ _ _ _ _ _ _ _ _ Hrep Hload)
    as (-> & -> & H0 & Hb & Hw & x & -> & Hwf & Hl & Hs & Hself & _).
  assert (E : ∀ fuel, delete_key fuel (NLeaf x) k u st =
    '(deleted, underflow, l') ← LeafNode.delete_key CAPACITY k u x;
    Some (deleted, underflow, NLeaf l', st)) by (by intros []).
  rewrite E. clear E. case_bool_decide as Hk; rewrite <- Hl in Hk.
  - destruct (LeafNode.delete_key_live CAPACITY k u x Hwf Hk) as (x' & Hd & Hwf' & Hl' & Hs' & Hself' & Hm').
    rewrite Hd. simpl. eexists _, _, _. split; [done|]. split; [by rewrite <- Hl|].
    split_and!; [done|done|]. exists [id]. split_and!; [|by left|by apply step_ok_refl|].
    + split_and!; simpl; try done; [congruence|congruence|congruence|].
      intros z Hz. apply Hw. by eapply elem_of_kv_delete.
    + intros Hu. by apply Nat.ltb_lt.
  - rewrite LeafNode.delete_key_missing by done. simpl. eexists _, _, _. split; [done|]. split; [done|].
    rewrite kv_delete_missing by (by rewrite <- Hl). split_and!; [done|done|].
    exists [id]. split_and!; [done|done|by apply step_ok_refl|done].
Qed.

Lemma delete_rec h : ∀ fuel st k u id lo hi f nx l ids q n,
  h ≤ fuel →
  rep h (blocks st) id lo hi f nx l ids → NoDup ids → (∀ j, j ∈ ids → j ∈ in_use (alloc st)) →
  alloc_wf (alloc st) → room (alloc st) q → below hi k → load id st = Some n →
  ∃ u' n' st', delete_key fuel n k u st = Some (bool_decide (k ∈ keys l), u', n', st') ∧
    (k ∉ keys l → u' = u) ∧
    delete_post h (blocks st) (alloc st) st st' n' id lo hi f nx (kv_delete k l) ids
      (bool_decide (k ∈ keys l) && u') q.
Proof.
  induction h as [|h IH]; intros fuel st k u id lo hi f nx l ids q n Hfuel Hrep Hnd Hin Hwfa Hroom Hbk Hload.
  { by eapply delete_leaf. }
  pose proof (irep_load _ _ _ _ _ _ _ _ _ _ Hrep Hnd Hload) as (Hirep & Hsync & Hmod).
  destruct (load_rep_S CAPACITY junkE junkK Hpar _ _ _ _ _ _ _ _ _ _ Hrep Hload)
    as (i & ids' & -> & Hwf & Hself & _ & _ & Hne & -> & H0 & Hw & HR).
  pose proof Hwf as (_ & _ & _ & Hs).
  destruct fuel as [|fuel]; [lia|]. rewrite delete_key_inner_eq.
  destruct (locate_cases CAPACITY i k Hwf) as
    [[Hloc Hlt]|(index & pre & kt & c & post & Hloc & Hi0 & Hpre & Hc & Hl & Hle & Hp)];
    rewrite Hloc; cbn [mbind option_bind].
  { assert (Hnin : k ∉ keys l).
    { intros Hk. eapply reps_good in HR as [_ Hg]; [|apply rep_good|done|intros x Hx; by apply Hw].
      apply Hg in Hk as (_ & k0 & c0 & r & E & Hle). specialize (Hlt k0). rewrite E in Hlt.
      assert (k < k0)%Z by (apply Hlt; constructor). lia. }
    eexists _, _, _. rewrite bool_decide_false by done. split; [done|]. split; [done|].
    rewrite kv_delete_missing by done. split_and!; [done|done|].
    exists (id :: ids'). split_and!; [done|done|by apply step_ok_refl|done]. }
  destruct (Z.ltb_spec index 0); [lia|]. rewrite Hpre, Hc. cbn [mbind option_bind].
  rewrite Hl in HR, Hs.
  apply reps_middle in HR as (m1 & m2 & la & lc & lb & ia & ic & ib & HRa & HRc & HRb & -> & ->).
  destruct (rep_loadable CAPACITY junkE junkK Hpar _ _ _ _ _ _ _ _ _ HRc) as [child Hch].
  pose proof (next_hi_below post hi k Hbk Hp) as Hbn.
  destruct (region_keys CAPACITY h (blocks st) pre [(kt, c)] post hi f nx m1 m2 la lb ia ib kt Hs)
    as [Hka Hkb]; [intros x Hx; apply Hw; by rewrite Hl|done|done|done|].
  assert (Hna : k ∉ keys la) by (intros Hx; apply Hka in Hx; lia).
  assert (Hnb : k ∉ keys lb) by (intros Hx; apply (Hkb _ k) in Hx; [lia|done]).
  assert (Hiff : bool_decide (k ∈ keys (la ++ lc ++ lb)) = bool_decide (k ∈ keys lc)).
  { apply bool_decide_ext. rewrite !fmap_app, !elem_of_app. tauto. }
  destruct (IH fuel st k u c (Some kt) (next_hi post hi) m1 m2 lc ic q child)
    as (u' & child' & st' & Hrec & Hu & Hroot & Hdep & ic' & Hci & Hcs & Hcst & Hsz); auto; [lia| |set_solver|].
  { apply list.NoDup_cons in Hnd as [_ Hnd]. rewrite !list.NoDup_app in Hnd. tauto. }
  rewrite Hch. cbn [mbind option_bind]. rewrite Hrec. cbn [mbind option_bind].
  rewrite Hiff, kv_delete_region by done.
  case_bool_decide as Hk; cbn [negb andb] in *.
  2: { eexists _, _, _. split; [done|]. split; [by intros _; apply Hu|]. by eapply delete_keep. }
  assert (Hrest : ∀ u'' n' st2,
    delete_post (S h) (blocks st) (alloc st) st st2 n' id lo hi f nx (la ++ kv_delete k lc ++ lb)
      (id :: ia ++ ic ++ ib) u'' q →
    ∃ u''' n'' st'', Some (true, u'', n', st2) = Some (true, u''', n'', st'') ∧
      (k ∉ keys (la ++ lc ++ lb) → u''' = u) ∧
      delete_post (S h) (blocks st) (alloc st) st st'' n'' id lo hi f nx (la ++ kv_delete k lc ++ lb)
        (id :: ia ++ ic ++ ib) u''' q).
  { intros u'' n' st2 Hpo. eexists _, _, _. split; [done|]. split; [|done].
    intros Hn. exfalso. apply Hn. rewrite !fmap_app, !elem_of_app. auto. }
  pose proof (InnerNode.inner_length_live CAPACITY i Hwf) as Hlen. rewrite Hl, length_app in Hlen. simpl in Hlen.
  destruct u'; cbn [negb orb]; [|apply Hrest; eapply delete_keep; eauto; done].
  destruct (Nat.ltb_spec (InnerNode.size_ i) 2) as [Hsmall|Hbig].
  { apply Hrest. eapply delete_keep; eauto. intros _.
    destruct Hpar as [HC _]. pose proof (UNDERFLOW_BOUND_two CAPACITY HC). lia. }
  destruct (Nat.leb_spec 1 (length pre)) as [Hleft|Hright].
  - destruct pre as [|x pre' _] using rev_ind; [simpl in Hleft; lia|]. destruct x as [kl lc0].
    destruct (delete_left h st st' i (pre' ++ [(kl, lc0)]) post kt c child' id lo hi f nx m1 m2 la
      (kv_delete k lc) lb ia ic ic' ib q) with pre' kl lc0
      as (L & u2 & n' & st2 & HcL & HLd & Hstep & Hpo); auto.
    rewrite length_app in *. cbn [length] in *. unfold sibling. cbn zeta.
    replace (length pre' + 1 - 1) with (length pre') by lia. rewrite HcL. cbn [mbind option_bind].
    destruct (Nat.eqb_spec (length pre') (length pre' + 1)); [lia|]. rewrite HLd. cbn [mbind option_bind].
    rewrite Hc, Nat.eqb_refl. cbn [mbind option_bind]. rewrite Hstep. by apply Hrest.
  - destruct post as [|[kr rc] post']; [simpl in Hlen; lia|].
    destruct (delete_right h st st' i pre ((kr, rc) :: post') kt c child' id lo hi f nx m1 m2 la
      (kv_delete k lc) lb ia ic ic' ib q) with post' kr rc
      as (R & u2 & n' & st2 & HcR & HRd & Hstep & Hpo); auto.
    unfold sibling. cbn zeta. rewrite Hc, Nat.eqb_refl. cbn [mbind option_bind].
    rewrite Nat.add_1_r, HcR. cbn [mbind option_bind].
    destruct (Nat.eqb_spec (S (length pre)) (length pre)); [lia|]. rewrite HRd. cbn [mbind option_bind].
    rewrite Hstep. by apply Hrest.
Qed.

(** ** Deletion from the tree *)
(** A root with one child is removed, its child becomes the root. *)
Lemma shrink_root h st0 st i l ids0 ids f q :
  irep (S h) (blocks st) (NInner i) (root_ st) None None f (-1)%Z l ids →
  step_ok (blocks st0) (blocks st) (alloc st0) (alloc st) ids0 ids q →
  InnerNode.size_ i = 1 → depth_ st = S (S h) →
  ∃ c, InnerNode.child_rep_ i !! 0 = Some c ∧
    let emptied := InnerNode.with_arrays i (InnerNode.key_ i, InnerNode.child_rep_ i) 0 in
    let st1 := set_alloc (deallocate (root_ st) (alloc st)) st in
    let st2 := mk_state (blocks st1) (alloc st1) c (depth_ st1 - 1) in
    remove_node CAPACITY junkE junkK 0 (root_ st) (NInner emptied) st = Some st1 ∧
    ∃ ids', tree_ok CAPACITY st2 l ids' ∧
      step_ok (blocks st0) (blocks st2) (alloc st0) (alloc st2) ids0 ids' q.
Proof.
  intros (H0 & Hself & ids' & Hwf & Hne & -> & Hni & Hw & HR) Hst Hsz Hd.
  pose proof (InnerNode.inner_length_live CAPACITY i Hwf) as Hlen. rewrite Hsz in Hlen.
  destruct (live_head_kv _ Hne) as (k0 & c & t & E). rewrite E in *.
  destruct t; [|done]. destruct HR as (mid & l1 & l2 & i1 & i2 & HR & (-> & -> & ->) & -> & ->).
  rewrite !app_nil_r in *. exists c. split.
  { assert (Hi : InnerNode.live i !! 0 = Some (k0, c)) by (by rewrite E).
    by apply InnerNode.inner_live_lookup in Hi as (_ & _ & ?). }
  cbn zeta. split; [done|]. exists i1.
  assert (Hst' : step_ok (blocks st0) (blocks st) (alloc st0) (deallocate (root_ st) (alloc st)) ids0 i1 q).
  { by eapply step_ok_free. }
  split; [|done]. eapply (tree_ok_step _ _ _ _ _ _ _ f h); [exact Hst'|simpl; lia|]. simpl.
  eapply rep_weaken; [| |exact HR]; done.
Qed.

Lemma delete_ok k st l ids q :
  tree_ok CAPACITY st l ids → room (alloc st) q →
  ∃ st' ids', tree_delete_key CAPACITY junkE junkK oob k st = Some (bool_decide (k ∈ keys l), st') ∧
    tree_ok CAPACITY st' (kv_delete k l) ids' ∧
    step_ok (blocks st) (blocks st') (alloc st) (alloc st') ids ids' q ∧ depth_ st' ≤ depth_ st.
Proof.
  intros (Hd & (f & Hrep) & Hnd & Hin & Hwf) Hroom.
  destruct (depth_ st) as [|h] eqn:Ed; [lia|]. simpl in Hrep. rewrite Nat.sub_0_r in Hrep.
  unfold tree_delete_key. destruct (rep_loadable CAPACITY junkE junkK Hpar _ _ _ _ _ _ _ _ _ Hrep) as [n Hn].
  rewrite Hn, Ed. cbn [mbind option_bind].
  destruct (delete_rec h (S h) st k false (root_ st) None None f (-1)%Z l ids q n)
    as (u & n' & st' & Hrec & Hu & Hroot & Hdep & ids' & Hir & Hsync & Hst & Hsz); auto; [done|].
  rewrite Hrec. cbn [mbind option_bind].
  assert (Hkeep : ∃ st2 ids2, Some (bool_decide (k ∈ keys l), close_at (root_ st') n' st')
      = Some (bool_decide (k ∈ keys l), st2) ∧ tree_ok CAPACITY st2 (kv_delete k l) ids2 ∧
      step_ok (blocks st) (blocks st2) (alloc st) (alloc st2) ids ids2 q ∧ depth_ st2 ≤ S h).
  { rewrite Hroot. eexists _, ids'. split; [done|].
    destruct (irep_good _ _ _ _ _ _ _ _ _ _ Hir) as (_ & _ & Hid).
    assert (Hst1 : step_ok (blocks st) (blocks (close_at (root_ st) n' st')) (alloc st)
      (alloc (close_at (root_ st) n' st')) ids ids' q) by (by apply step_ok_close).
    split; [|split; [done|rewrite close_depth; lia]].
    eapply (tree_ok_step _ _ _ _ _ _ _ f h); [exact Hst1|rewrite close_depth; congruence|].
    rewrite close_root, Hroot. by apply irep_close. }
  destruct n' as [x|i]; [done|].
  destruct (u && (InnerNode.size_ i =? 1)) eqn:Eu; [|done].
  apply andb_prop in Eu as [-> Esz]. apply Nat.eqb_eq in Esz.
  destruct h as [|h]; [by destruct Hir as (_ & _ & ?)|]. rewrite <- Hroot in Hir.
  destruct (shrink_root h st st' i _ ids ids' f q Hir Hst Esz) as (c & Hc & Hrem & ids2 & Hok & Hst2);
    [congruence|].
  rewrite Hc. cbn [mbind option_bind]. rewrite Hrem. cbn [mbind option_bind].
  eexists _, ids2. split; [done|]. split; [done|]. split; [done|]. simpl. lia.
Qed.

End delete.
