(* ===== verification/TreeClose.v ===== *)
(** Closing and clearing the tree give every block back. *)
From Stdlib Require Import ZArith Lia.
From stdpp Require Import base list gmap sorting numbers.
From S2P Require Import Prelude KV Leaf Inner Store Tree TreeRep TreeFoot TreeSearch.

Section close.
Context {A : Type} `{!Allocator A} `{!AllocatorLaws A}.
Context (CAPACITY : nat) (junkE : list (Z * Z)) (junkK : list Z).
Context (Hpar : params_ok CAPACITY junkE junkK).
Context (m : gmap Z blk) (a : A) (ids0 : list Z) (q : nat).

Local Abbreviation state := (tree_state A).
Local Abbreviation load := (load CAPACITY junkE junkK).
Local Abbreviation rep := (rep CAPACITY).
Local Abbreviation remove_node := (remove_node CAPACITY junkE junkK).
Implicit Types (st : state).

(** [st'] is [st] with the blocks [rest] left of what it held. *)
Definition freed st st' (rest : list Z) : Prop :=
  blocks st' = blocks st ∧ root_ st' = root_ st ∧ depth_ st' = depth_ st ∧
  step_ok m (blocks st') a (alloc st') ids0 rest q.

Lemma freed_trans st st1 st2 r1 r2 : freed st st1 r1 → freed st1 st2 r2 → freed st st2 r2.
Proof. intros (H1&H2&H3&_) (H4&H5&H6&H7). split_and!; congruence || done. Qed.

Lemma freed_one st id ids rest :
  ids ≡ₚ id :: rest → step_ok m (blocks st) a (alloc st) ids0 ids q →
  freed st (set_alloc (deallocate id (alloc st)) st) rest.
Proof. intros Hp Hst. split_and!; try done. by eapply step_ok_free. Qed.

(** The children, one after the other. *)
Lemma remove_children h fuel i :
  (∀ st id lo hi f nx l ids rest n,
    rep h (blocks st) id lo hi f nx l ids → load id st = Some n →
    step_ok m (blocks st) a (alloc st) ids0 (ids ++ rest) q →
    ∃ st', remove_node fuel id n st = Some st' ∧ freed st st' rest) →
  ∀ kcs pre st hi f nx l ids rest,
    InnerNode.live i = pre ++ kcs → reps (rep h (blocks st)) kcs hi f nx l ids →
    step_ok m (blocks st) a (alloc st) ids0 (ids ++ rest) q →
    ∃ st', for_up (length pre) (length kcs) (λ j st,
        c ← InnerNode.child_rep_ i !! j; child ← load c st; remove_node fuel c child st) st = Some st' ∧
      freed st st' rest.
Proof.
  intros IH kcs. induction kcs as [|[k c] kcs IHk]; intros pre st hi f nx l ids rest Hl HR Hst.
  { destruct HR as (_ & _ & ->). exists st. by split_and!. }
  destruct HR as (mid & l1 & l2 & i1 & i2 & H1 & H2 & -> & ->). simpl.
  assert (Hi : InnerNode.live i !! length pre = Some (k, c)) by (by rewrite Hl, list_lookup_middle).
  apply InnerNode.inner_live_lookup in Hi as (_ & _ & ->). simpl.
  destruct (rep_loadable CAPACITY junkE junkK Hpar _ _ _ _ _ _ _ _ _ H1) as [n Hn]. rewrite Hn. simpl.
  rewrite <- app_assoc in Hst.
  destruct (IH _ _ _ _ _ _ _ _ (i2 ++ rest) n H1 Hn Hst) as (st1 & -> & Hf1). simpl.
  pose proof Hf1 as (Eb & _ & _ & Hst1).
  destruct (IHk (pre ++ [(k, c)]) st1 hi mid nx l2 i2 rest) as (st2 & E2 & Hf2).
  { by rewrite Hl, <- app_assoc. }
  { by rewrite Eb. }
  { done. }
  exists st2. rewrite length_app in E2. split; [done|]. by eapply freed_trans.
Qed.

Lemma remove_rec h : ∀ fuel st id lo hi f nx l ids rest n,
  h ≤ fuel → rep h (blocks st) id lo hi f nx l ids → load id st = Some n →
  step_ok m (blocks st) a (alloc st) ids0 (ids ++ rest) q →
  ∃ st', remove_node fuel id n st = Some st' ∧ freed st st' rest.
Proof.
  induction h as [|h IH]; intros fuel st id lo hi f nx l ids rest n Hf Hrep Hload Hst.
  { destruct (load_rep_0 CAPACITY junkE junkK Hpar _ _ _ _ _ _ _ _ _ Hrep Hload)
      as (_ & -> & _ & _ & _ & n0 & -> & _).
    assert (E : remove_node fuel id (NLeaf n0) st = Some (set_alloc (deallocate id (alloc st)) st))
      by (by destruct fuel).
    rewrite E. eexists. split; [done|]. by eapply freed_one. }
  destruct (load_rep_S CAPACITY junkE junkK Hpar _ _ _ _ _ _ _ _ _ _ Hrep Hload)
    as (i & ids' & -> & Hwf & Hself & _ & _ & Hne & -> & H0 & Hw & HR).
  destruct fuel as [|fuel]; [lia|]. simpl.
  rewrite <- (InnerNode.inner_length_live CAPACITY i Hwf).
  destruct (remove_children h fuel i) with (kcs := InnerNode.live i) (pre := @nil (Z * Z))
    (st := st) (hi := hi) (f := f) (nx := nx) (l := l) (ids := ids') (rest := id :: rest)
    as (st1 & E1 & Hf1); [|done|done| |].
  { intros. eapply IH; eauto. lia. }
  { eapply step_ok_perm; [|exact Hst]. solve_Permutation. }
  simpl in E1. rewrite E1. simpl. eexists. split; [done|].
  eapply freed_trans; [exact Hf1|]. destruct Hf1 as (_ & _ & _ & Hst1). by eapply freed_one.
Qed.

End close.

Section clear.
Context {A : Type} `{!Allocator A} `{!AllocatorLaws A}.
Context (CAPACITY : nat) (junkE : list (Z * Z)) (junkK : list Z).
Context (Hpar : params_ok CAPACITY junkE junkK).
Implicit Types (st : tree_state A).

Lemma close_ok st l ids q :
  tree_ok CAPACITY st l ids → room (alloc st) q →
  ∃ st', close_tree CAPACITY junkE junkK st = Some st' ∧
    step_ok (blocks st) (blocks st') (alloc st) (alloc st') ids [] q.
Proof.
  intros (Hd & (f & Hrep) & Hnd & Hin & Hwf) Hroom. unfold close_tree.
  destruct (rep_loadable CAPACITY junkE junkK Hpar _ _ _ _ _ _ _ _ _ Hrep) as [n Hn].
  rewrite Hn. cbn [mbind option_bind].
  destruct (remove_rec CAPACITY junkE junkK Hpar (blocks st) (alloc st) ids q (depth_ st - 1)
    (depth_ st) st (root_ st) None None f (-1)%Z l ids [] n) as (st' & E & Hf); auto; [lia| |].
  { rewrite app_nil_r. by apply step_ok_refl. }
  exists st'. split; [done|]. by destruct Hf as (_ & _ & _ & ?).
Qed.

Lemma clear_ok st l ids q :
  tree_ok CAPACITY st l ids → room (alloc st) (S q) →
  ∃ st' id, clear CAPACITY junkE junkK st = Some st' ∧ tree_ok CAPACITY st' [] [id] ∧
    room (alloc st') q ∧
    (∀ j, j ∈ in_use (alloc st') ↔ j ∈ in_use (alloc st) ∧ j ∉ ids ∨ j = id).
Proof.
  intros Hok Hroom. destruct (close_ok st l ids (S q) Hok Hroom) as (st1 & E1 & Hst1).
  unfold clear. rewrite E1. simpl.
  destruct (step_ok_facts _ _ _ _ _ _ _ Hst1) as (Hu1 & Hwf1 & Hr1 & _).
  destruct (init_ok CAPACITY junkE junkK Hpar (blocks st1) (alloc st1) q Hwf1 Hr1) as (id & Hok2 & Hst2).
  destruct (step_ok_facts _ _ _ _ _ _ _ Hst2) as (Hu2 & _ & Hr2 & _).
  eexists _, id. split; [done|]. split_and!; [done|done|].
  intros j. rewrite Hu2, Hu1, elem_of_nil, list_elem_of_singleton. tauto.
Qed.

End clear.
