(* ===== verification/Barrier.v ===== *)
(** Callback contexts and the barriers that order them: the context record of
    src/src/context/call_back.h, one read/write barrier per tree node
    (src/src/context/context_barrier.h), and the table of barriers with its
    queue of ready contexts (src/src/context/barrier_manager.h).

    A context is referred to by its index in the array of contexts that the tree
    allocates once; barriers hold such indices in their queues and update the
    context they fire, as the source does through pointers. *)
From Stdlib Require Import ZArith Lia.
From stdpp Require Import base list gmap sorting numbers.
From S2P Require Import Prelude.

Module Barrier.

Inductive barrier_type := READ_BARRIER | WRITE_BARRIER.

#[global] Instance barrier_type_eq_dec : EqDecision barrier_type.
Proof. solve_decision. Defined.

Record barrier_token := mk_token { barrier_id_ : Z; type_ : barrier_type }.

#[global] Instance barrier_token_eq_dec : EqDecision barrier_token.
Proof. solve_decision. Defined.

Definition INT32_MAX : Z := 2147483647.
Definition UINT64_MAX : Z := 18446744073709551615.
Definition CONTEXT_WRITE_BARRIER : Z := 0.
Definition CONTEXT_READ_BARRIER : Z := 1.
Definition CONTEXT_WRITE_IO : Z := 0.
Definition CONTEXT_READ_IO : Z := 1.

(** ** The callback context *)
Record call_back_context := mk_ctx {
  status : Z;
  current_state : Z;
  next_state : Z;
  id : Z;
  tag : Z;
  obtained_barriers_ : list barrier_token }.

Definition new_context : call_back_context := mk_ctx 0 0 (-1) UINT64_MAX INT32_MAX [].

Definition set_id (i : Z) (c : call_back_context) : call_back_context :=
  mk_ctx (status c) (current_state c) (next_state c) i (tag c) (obtained_barriers_ c).
Definition set_tag (t : Z) (c : call_back_context) : call_back_context :=
  mk_ctx (status c) (current_state c) (next_state c) (id c) t (obtained_barriers_ c).
Definition reset_state (c : call_back_context) : call_back_context :=
  mk_ctx 0 0 (-1) (id c) (tag c) (obtained_barriers_ c).
Definition transition_to_state (s : Z) (c : call_back_context) : call_back_context :=
  mk_ctx s (current_state c) (next_state c) (id c) (tag c) (obtained_barriers_ c).
Definition set_next_state (s : Z) (c : call_back_context) : call_back_context :=
  mk_ctx (status c) (current_state c) s (id c) (tag c) (obtained_barriers_ c).

(** The assertion [next_state >= 0] is the failure case. *)
Definition transition_to_next_state (c : call_back_context) : option call_back_context :=
  if (0 <=? next_state c)%Z then
    Some (mk_ctx (status c) (next_state c) (next_state c) (id c) (tag c) (obtained_barriers_ c))
  else None.

Definition set_tokens (ts : list barrier_token) (c : call_back_context) : call_back_context :=
  mk_ctx (status c) (current_state c) (next_state c) (id c) (tag c) ts.
Definition add_barrier_token (t : barrier_token) (c : call_back_context) : call_back_context :=
  set_tokens (obtained_barriers_ c ++ [t]) c.

(** ** One barrier *)
Record context_barrier := mk_barrier {
  b_id : Z;
  read_barriers : Z;
  write_barriers : Z;
  pending_barrier_requests : list (nat * barrier_type) }.

Definition new_barrier (i : Z) : context_barrier := mk_barrier i 0 0 [].

Definition is_clear (b : context_barrier) : bool :=
  (write_barriers b =? 0)%Z && (read_barriers b =? 0)%Z.

Definition grant_read_barrier_request (b : context_barrier) : option context_barrier :=
  if (write_barriers b =? 0)%Z then
    Some (mk_barrier (b_id b) (read_barriers b + 1) (write_barriers b) (pending_barrier_requests b))
  else None.

Definition grant_write_barrier_request (b : context_barrier) : option context_barrier :=
  if (write_barriers b =? 0)%Z && (read_barriers b =? 0)%Z then
    Some (mk_barrier (b_id b) (read_barriers b) (write_barriers b + 1) (pending_barrier_requests b))
  else None.

Definition grant (t : barrier_type) : context_barrier → option context_barrier :=
  match t with
  | READ_BARRIER => grant_read_barrier_request
  | WRITE_BARRIER => grant_write_barrier_request
  end.

(** The contexts and the queue of contexts that are ready to run. *)
Record world := mk_world { contexts : list call_back_context; ready_contexts_ : list nat }.

Definition update_context (p : nat) (f : call_back_context → option call_back_context) (w : world)
    : option world :=
  c ← contexts w !! p; c' ← f c;
  Some (mk_world (<[p := c']> (contexts w)) (ready_contexts_ w)).

(** [set_read_barrier] and [set_write_barrier]. *)
Definition set_barrier (t : barrier_type) (p : nat) (b : context_barrier) (w : world)
    : option (bool * context_barrier * world) :=
  match grant t b with
  | Some b' =>
      w' ← update_context p (λ c, Some (add_barrier_token (mk_token (b_id b) t) c)) w;
      Some (true, b', w')
  | None =>
      Some (false, mk_barrier (b_id b) (read_barriers b) (write_barriers b)
                     (pending_barrier_requests b ++ [(p, t)]), w)
  end.

Definition barrier_tag (t : barrier_type) : Z :=
  match t with WRITE_BARRIER => CONTEXT_WRITE_BARRIER | READ_BARRIER => CONTEXT_READ_BARRIER end.

Definition notify (i : Z) (t : barrier_type) (c : call_back_context) : option call_back_context :=
  transition_to_next_state (add_barrier_token (mk_token i t) (set_tag (barrier_tag t) c)).

Definition fire_context (i : Z) (p : nat) (t : barrier_type) (w : world) : option world :=
  w' ← update_context p (notify i t) w;
  Some (mk_world (contexts w') (ready_contexts_ w' ++ [p])).

(** The loop of [offer_barrier] over the pending requests, first come first
    served. *)
Fixpoint offer_loop (i r w : Z) (pending : list (nat * barrier_type)) (wd : world)
    : option (context_barrier * world) :=
  match pending with
  | [] => Some (mk_barrier i r w [], wd)
  | (p, READ_BARRIER) :: rest =>
      if (w =? 0)%Z then
        wd' ← fire_context i p READ_BARRIER wd; offer_loop i (r + 1) w rest wd'
      else Some (mk_barrier i r w pending, wd)
  | (p, WRITE_BARRIER) :: rest =>
      if (r =? 0)%Z && (w =? 0)%Z then
        wd' ← fire_context i p WRITE_BARRIER wd; offer_loop i r (w + 1) rest wd'
      else Some (mk_barrier i r w pending, wd)
  end.

Definition offer_barrier (b : context_barrier) (w : world) : option (context_barrier * world) :=
  offer_loop (b_id b) (read_barriers b) (write_barriers b) (pending_barrier_requests b) w.

Definition remove_barrier (t : barrier_type) (b : context_barrier) (w : world)
    : option (context_barrier * world) :=
  let b := match t with
           | READ_BARRIER =>
               mk_barrier (b_id b) (read_barriers b - 1) (write_barriers b) (pending_barrier_requests b)
           | WRITE_BARRIER =>
               mk_barrier (b_id b) (read_barriers b) (write_barriers b - 1) (pending_barrier_requests b)
           end in
  offer_barrier b w.

(** ** The table of barriers *)
Record barrier_manager := mk_manager {
  barrier_map_ : list (option context_barrier);
  wd : world }.

(** The table grows up to the requested index. A negative index is converted
    to a huge unsigned number and the loop never ends: no result. *)
Definition get_or_create_barrier (node_id : Z) (m : barrier_manager)
    : option (context_barrier * barrier_manager) :=
  if (node_id <? 0)%Z then None
  else
    let i := Z.to_nat node_id in
    let map := barrier_map_ m ++ replicate (S i - length (barrier_map_ m)) None in
    match map !! i with
    | Some (Some b) => Some (b, mk_manager map (wd m))
    | _ => let b := new_barrier node_id in Some (b, mk_manager (<[i := Some b]> map) (wd m))
    end.

(** Writing back through the pointer that [get_or_create_barrier] returned. *)
Definition put_barrier (node_id : Z) (b : context_barrier) (w : world) (m : barrier_manager)
    : barrier_manager :=
  mk_manager (<[Z.to_nat node_id := Some b]> (barrier_map_ m)) w.

(** [request_read_barrier] and [request_write_barrier]. *)
Definition request_barrier (t : barrier_type) (node_id : Z) (p : nat) (m : barrier_manager)
    : option (bool * barrier_manager) :=
  '(b, m) ← get_or_create_barrier node_id m;
  '(ok, b, w) ← set_barrier t p b (wd m);
  Some (ok, put_barrier node_id b w m).

(** [remove_read_barrier] and [remove_write_barrier]. *)
Definition manager_remove (t : barrier_type) (node_id : Z) (m : barrier_manager)
    : option barrier_manager :=
  '(b, m) ← get_or_create_barrier node_id m;
  '(b, w) ← remove_barrier t b (wd m);
  Some (put_barrier node_id b w m).

(** One round of [release_all_barriers]: the last token is given back. *)
Definition release_one (p : nat) (t : barrier_token) (m : barrier_manager) : option barrier_manager :=
  w ← update_context p (λ c, Some (set_tokens (removelast (obtained_barriers_ c)) c)) (wd m);
  manager_remove (type_ t) (barrier_id_ t) (mk_manager (barrier_map_ m) w).

Fixpoint release_loop (fuel : nat) (p : nat) (m : barrier_manager) : option barrier_manager :=
  match fuel with
  | 0 => None
  | S fuel' =>
      c ← contexts (wd m) !! p;
      match list.last (obtained_barriers_ c) with
      | None => Some m
      | Some t => m ← release_one p t m; release_loop fuel' p m
      end
  end.

(** The loop ends after one round per token, since a running context waits for
    no barrier. *)
Definition release_all_barriers (p : nat) (m : barrier_manager) : option barrier_manager :=
  c ← contexts (wd m) !! p;
  release_loop (S (length (obtained_barriers_ c))) p m.

(** ** The invariant *)
Definition ntok (i : Z) (t : barrier_type) (c : call_back_context) : nat :=
  length (filter (λ k, k = mk_token i t) (obtained_barriers_ c)).

(** The number of tokens of barrier [i] that the contexts hold. *)
Definition held (i : Z) (t : barrier_type) (w : world) : nat := sum_list_with (ntok i t) (contexts w).

Definition waiting_ok (w : world) (p : nat) : Prop :=
  ∃ c, contexts w !! p = Some c ∧ (0 ≤ next_state c)%Z.

(** Mutual exclusion, on the counters of a barrier. *)
Definition exclusive (r w : Z) : Prop := (0 ≤ r)%Z ∧ (0 ≤ w ≤ 1)%Z ∧ (w = 1 → r = 0)%Z.

(** The first pending request cannot be granted: nobody waits in vain. *)
Definition blocked (b : context_barrier) : Prop :=
  match pending_barrier_requests b with [] => True | (_, t) :: _ => grant t b = None end.

(** A correction to the token counts, for the moments in which a token has been
    taken out of a context and its barrier not yet given back, or the other way
    round; [settled] between operations. *)
Definition delta : Type := Z → barrier_type → Z.
Definition settled : delta := λ _ _, 0%Z.
Definition due (δ : delta) (i : Z) (t : barrier_type) (w : world) : Z := (Z.of_nat (held i t w) + δ i t)%Z.

Definition barrier_ok (δ : delta) (w : world) (i : Z) (b : context_barrier) : Prop :=
  b_id b = i ∧ read_barriers b = due δ i READ_BARRIER w ∧
  write_barriers b = due δ i WRITE_BARRIER w ∧
  exclusive (read_barriers b) (write_barriers b) ∧ blocked b ∧
  (∀ p t, (p, t) ∈ pending_barrier_requests b → waiting_ok w p).

Definition barrier_at (i : Z) (m : barrier_manager) : option context_barrier :=
  if (i <? 0)%Z then None else mjoin (barrier_map_ m !! Z.to_nat i).

Definition manager_ok (δ : delta) (m : barrier_manager) : Prop :=
  ∀ i, match barrier_at i m with
       | Some b => barrier_ok δ (wd m) i b
       | None => ∀ t, due δ i t (wd m) = 0%Z
       end.

(** The context is in no queue of a barrier. *)
Definition not_waiting (m : barrier_manager) (p : nat) : Prop :=
  ∀ i b t, barrier_at i m = Some b → (p, t) ∉ pending_barrier_requests b.

(** ** Token counts *)
Lemma sum_list_with_insert {X} (f : X → nat) (l : list X) p x y :
  l !! p = Some x → sum_list_with f (<[p := y]> l) + f x = sum_list_with f l + f y.
Proof.
  intros Hp. pose proof (lookup_lt_Some _ _ _ Hp).
  rewrite insert_take_drop by done. rewrite <- (take_drop_middle l p x Hp) at 3.
  rewrite !sum_list_with_app. simpl. lia.
Qed.

Lemma ntok_app i t c ts :
  ntok i t (set_tokens (obtained_barriers_ c ++ ts) c) =
  ntok i t c + length (filter (λ k, k = mk_token i t) ts).
Proof. unfold ntok. simpl. by rewrite list.filter_app, length_app. Qed.

Definition one (i : Z) (t : barrier_type) (k : barrier_token) : nat :=
  if decide (k = mk_token i t) then 1 else 0.

Lemma ntok_add i t k c : ntok i t (add_barrier_token k c) = ntok i t c + one i t k.
Proof.
  unfold add_barrier_token. rewrite ntok_app. f_equal. unfold one.
  rewrite filter_cons. by case_decide.
Qed.

Lemma ntok_removelast i t c k :
  list.last (obtained_barriers_ c) = Some k →
  ntok i t (set_tokens (removelast (obtained_barriers_ c)) c) + one i t k = ntok i t c.
Proof.
  intros Hl. apply last_Some in Hl as [ts Ht]. rewrite Ht, removelast_last.
  unfold ntok. simpl. rewrite Ht, list.filter_app, length_app, filter_cons. unfold one.
  case_decide; simpl; lia.
Qed.

(** ** Updating one context *)
Definition same_next (w w' : world) : Prop := ∀ p, waiting_ok w p → waiting_ok w' p.

Lemma same_next_trans w1 w2 w3 : same_next w1 w2 → same_next w2 w3 → same_next w1 w3.
Proof. intros H1 H2 p Hp. auto. Qed.

Lemma update_context_ok p f w c c' :
  contexts w !! p = Some c → f c = Some c' → (0 ≤ next_state c → 0 ≤ next_state c')%Z →
  ∃ w', update_context p f w = Some w' ∧ same_next w w' ∧ length (contexts w') = length (contexts w) ∧
    ready_contexts_ w' = ready_contexts_ w ∧ contexts w' = <[p := c']> (contexts w) ∧
    ∀ i t, held i t w' + ntok i t c = held i t w + ntok i t c'.
Proof.
  intros Hp Hf Hn. unfold update_context. rewrite Hp. simpl. rewrite Hf. simpl.
  eexists. split; [done|]. split_and!; [|by simpl; rewrite length_insert|done|done|].
  - intros p' (c0 & Hc0 & H0). destruct (decide (p = p')) as [->|Hne].
    + exists c'. simpl. rewrite list_lookup_insert_eq by (by eapply lookup_lt_Some). split; [done|].
      simplify_eq. auto.
    + exists c0. simpl. by rewrite list_lookup_insert_ne.
  - intros i t. unfold held. simpl. by apply sum_list_with_insert.
Qed.

(** Firing a context hands it one token. *)
Lemma fire_context_ok i t p w :
  waiting_ok w p →
  ∃ w', fire_context i p t w = Some w' ∧ same_next w w' ∧
    length (contexts w') = length (contexts w) ∧
    ready_contexts_ w' = ready_contexts_ w ++ [p] ∧
    (∀ i' t', held i' t' w' = held i' t' w + one i' t' (mk_token i t)) ∧
    (∀ p', p' ≠ p → contexts w' !! p' = contexts w !! p').
Proof.
  intros (c & Hc & Hn). unfold fire_context.
  destruct (update_context_ok p (notify i t) w c
    (mk_ctx (status c) (next_state c) (next_state c) (id c) (barrier_tag t)
       (obtained_barriers_ c ++ [mk_token i t]))) as (w' & Hu & Hs & Hl & Hr & Hcs & Hh); [done| |done|].
  { unfold notify, transition_to_next_state. simpl. by destruct (Z.leb_spec 0 (next_state c)); [|lia]. }
  rewrite Hu. simpl. eexists. split; [done|]. simpl. split_and!; [done|done|by rewrite Hr| |].
  2: { intros p' Hp'. rewrite Hcs. by rewrite list_lookup_insert_ne. }
  intros i' t'. change (held i' t' (mk_world (contexts w') (ready_contexts_ w' ++ [p]))) with (held i' t' w').
  pose proof (Hh i' t') as Hh'. pose proof (ntok_add i' t' (mk_token i t) c) as Ha.
  change (ntok i' t' (add_barrier_token (mk_token i t) c)) with
    (ntok i' t' (set_tokens (obtained_barriers_ c ++ [mk_token i t]) c)) in Ha.
  unfold ntok in *. simpl in *. lia.
Qed.

(** ** Offering a barrier *)
Section invariant.
Context (δ : delta).

Lemma one_eq i t : one i t (mk_token i t) = 1.
Proof. unfold one. by rewrite decide_True. Qed.
Lemma one_ne i t i' t' : i ≠ i' ∨ t ≠ t' → one i t (mk_token i' t') = 0.
Proof. unfold one. intros H. rewrite decide_False; [done|]. intros [=]. naive_solver. Qed.

Lemma offer_loop_ok i pending : ∀ r wr w,
  r = due δ i READ_BARRIER w → wr = due δ i WRITE_BARRIER w → exclusive r wr →
  (∀ p t, (p, t) ∈ pending → waiting_ok w p) →
  ∃ b w' fired, offer_loop i r wr pending w = Some (b, w') ∧ barrier_ok δ w' i b ∧ same_next w w' ∧
    length (contexts w') = length (contexts w) ∧
    pending = fired ++ pending_barrier_requests b ∧
    ready_contexts_ w' = ready_contexts_ w ++ fired.*1 ∧
    (∀ i' t, i' ≠ i → held i' t w' = held i' t w) ∧
    (∀ p, p ∉ fired.*1 → contexts w' !! p = contexts w !! p).
Proof.
  induction pending as [|[p t] pending IH]; intros r wr w Hr Hw Hex Hp; simpl.
  { exists (mk_barrier i r wr []), w, []. split; [done|]. split.
    - unfold barrier_ok. simpl. by split_and!.
    - split_and!; try done; [by intros ?|]. by rewrite app_nil_r. }
  assert (Hstop : grant t (mk_barrier i r wr ((p, t) :: pending)) = None →
    ∃ b w' fired, Some (mk_barrier i r wr ((p, t) :: pending), w) = Some (b, w') ∧ barrier_ok δ w' i b ∧
      same_next w w' ∧ length (contexts w') = length (contexts w) ∧
      (p, t) :: pending = fired ++ pending_barrier_requests b ∧
      ready_contexts_ w' = ready_contexts_ w ++ fired.*1 ∧
      (∀ i' t, i' ≠ i → held i' t w' = held i' t w) ∧
      (∀ p, p ∉ fired.*1 → contexts w' !! p = contexts w !! p)).
  { intros Hg. eexists _, w, []. split; [done|]. split; [by unfold barrier_ok|].
    split_and!; try done; [by intros ?|]. by rewrite app_nil_r. }
  destruct (fire_context_ok i t p w) as (w1 & Hf & Hs & Hl & Hrd & Hh & Hoth); [apply (Hp p t); constructor|].
  assert (Hgo : ∀ r' wr', r' = due δ i READ_BARRIER w1 →
    wr' = due δ i WRITE_BARRIER w1 → exclusive r' wr' →
    ∃ b w' fired, offer_loop i r' wr' pending w1 = Some (b, w') ∧ barrier_ok δ w' i b ∧
      same_next w w' ∧ length (contexts w') = length (contexts w) ∧
      (p, t) :: pending = fired ++ pending_barrier_requests b ∧
      ready_contexts_ w' = ready_contexts_ w ++ fired.*1 ∧
      (∀ i' t, i' ≠ i → held i' t w' = held i' t w) ∧
      (∀ p, p ∉ fired.*1 → contexts w' !! p = contexts w !! p)).
  { intros r' wr' Hr' Hw' Hex'.
    destruct (IH r' wr' w1 Hr' Hw' Hex') as (b & w' & fired & H1 & H2 & H3 & H4 & H5 & H6 & H7 & H8).
    { intros p' t' Hin. apply Hs, (Hp p' t'). by constructor. }
    exists b, w', ((p, t) :: fired). split; [done|]. split; [done|]. split_and!; try done.
    - by eapply same_next_trans.
    - by rewrite H4.
    - simpl. by rewrite H5 at 1.
    - rewrite H6, Hrd. simpl. by rewrite <- app_assoc.
    - intros i' t' Hne. rewrite H7, Hh by done. rewrite one_ne; [lia|auto].
    - intros p' Hp'. simpl in Hp'. apply not_elem_of_cons in Hp' as [? ?]. by rewrite H8, Hoth. }
  destruct Hex as (E1 & E2 & E3). destruct t; simpl in Hstop.
  - unfold grant_read_barrier_request in Hstop. simpl in Hstop.
    destruct (Z.eqb_spec wr 0) as [->|Hne]; [|by apply Hstop]. rewrite Hf. simpl. apply Hgo.
    + unfold due. rewrite Hh, one_eq. unfold due in *. lia.
    + unfold due. rewrite Hh, one_ne; [unfold due in *; lia|by right].
    + unfold exclusive. lia.
  - unfold grant_write_barrier_request in Hstop. simpl in Hstop.
    rewrite andb_comm in Hstop.
    destruct ((r =? 0)%Z && (wr =? 0)%Z) eqn:E; [|by apply Hstop].
    apply andb_prop in E as [Er Ew]. apply Z.eqb_eq in Er, Ew. subst. rewrite Hf. simpl. apply Hgo.
    + unfold due. rewrite Hh, one_ne; [unfold due in *; lia|by right].
    + unfold due. rewrite Hh, one_eq. unfold due in *. lia.
    + unfold exclusive. lia.
Qed.

(** ** The table *)
Lemma get_or_create_barrier_ok i m :
  manager_ok δ m → (0 ≤ i)%Z →
  ∃ b m', get_or_create_barrier i m = Some (b, m') ∧ wd m' = wd m ∧
    (∀ j, j ≠ i → barrier_at j m' = barrier_at j m) ∧
    Z.to_nat i < length (barrier_map_ m') ∧ barrier_ok δ (wd m) i b.
Proof.
  intros Hok Hi. unfold get_or_create_barrier. destruct (Z.ltb_spec i 0); [lia|].
  set (n := S (Z.to_nat i) - length (barrier_map_ m)).
  set (map := barrier_map_ m ++ replicate n None).
  assert (Hlen : Z.to_nat i < length map).
  { unfold map, n. rewrite length_app, length_replicate. lia. }
  assert (Hmap : ∀ j, mjoin (map !! j) = mjoin (barrier_map_ m !! j)).
  { intros j. unfold map. rewrite lookup_app. destruct (barrier_map_ m !! j); [done|].
    destruct (replicate n None !! _) eqn:E; simpl; [|done].
    apply lookup_replicate_1 in E as [-> _]. done. }
  pose proof (Hok i) as Hi'. unfold barrier_at in Hi'.
  destruct (Z.ltb_spec i 0); [lia|]. rewrite <- Hmap in Hi'.
  destruct (map !! Z.to_nat i) as [[b|]|] eqn:E; simpl in Hi'.
  - eexists b, _. split; [done|]. split_and!; try done.
    intros j Hj. unfold barrier_at. simpl. destruct (j <? 0)%Z; [done|]. apply Hmap.
  - eexists _, _. split; [done|]. split_and!; simpl; [done| |by rewrite length_insert|].
    + intros j Hj. unfold barrier_at. simpl. destruct (Z.ltb_spec j 0); [done|].
      rewrite list_lookup_insert_ne by lia. apply Hmap.
    + unfold barrier_ok, exclusive, blocked. simpl. rewrite !Hi'. split_and!; try done.
      intros p t Ht. by apply elem_of_nil in Ht.
  - apply lookup_ge_None in E. lia.
Qed.

Lemma barrier_ok_world δ' w w' i b :
  barrier_ok δ w i b → same_next w w' → (∀ t, due δ' i t w' = due δ i t w) → barrier_ok δ' w' i b.
Proof.
  intros (H1 & H2 & H3 & H4 & H5 & H6) Hs Hh. unfold barrier_ok. rewrite !Hh.
  split; [done|]. split; [done|]. split; [done|]. split; [done|]. split; [done|].
  intros p t Hp. apply Hs. by eapply H6.
Qed.

(** Only the barrier [i] changes. *)
Lemma manager_ok_put δ' m m1 i b w :
  manager_ok δ m → (0 ≤ i)%Z → (∀ j, j ≠ i → barrier_at j m1 = barrier_at j m) →
  Z.to_nat i < length (barrier_map_ m1) → same_next (wd m) w →
  (∀ j t, j ≠ i → due δ' j t w = due δ j t (wd m)) → barrier_ok δ' w i b →
  manager_ok δ' (put_barrier i b w m1).
Proof.
  intros Hok Hi Hat Hlen Hs Hh Hb j. unfold barrier_at, put_barrier. simpl.
  destruct (decide (j = i)) as [->|Hne].
  - destruct (Z.ltb_spec i 0); [lia|]. by rewrite list_lookup_insert_eq.
  - specialize (Hat j Hne). specialize (Hok j). unfold barrier_at in Hat, Hok.
    destruct (Z.ltb_spec j 0); [intros t; rewrite Hh by done; apply Hok|].
    rewrite list_lookup_insert_ne by lia. rewrite Hat.
    destruct (mjoin (barrier_map_ m !! Z.to_nat j)) as [b'|].
    + eapply barrier_ok_world; eauto.
    + intros t. rewrite Hh by done. apply Hok.
Qed.

(** The contexts change, the barriers do not. *)
Lemma manager_ok_world δ' m w :
  manager_ok δ m → same_next (wd m) w → (∀ i t, due δ' i t w = due δ i t (wd m)) →
  manager_ok δ' (mk_manager (barrier_map_ m) w).
Proof.
  intros Hok Hs Hh i. specialize (Hok i). unfold barrier_at in *. simpl.
  destruct (if (i <? 0)%Z then None else mjoin (barrier_map_ m !! Z.to_nat i)) as [b|].
  - by eapply barrier_ok_world.
  - intros t. rewrite Hh. apply Hok.
Qed.

(** ** The operations preserve the invariant *)
Lemma grant_ok w i b t b' :
  barrier_ok δ w i b → grant t b = Some b' →
  b_id b' = i ∧ pending_barrier_requests b' = pending_barrier_requests b ∧
  read_barriers b' = (read_barriers b + Z.of_nat (one i READ_BARRIER (mk_token i t)))%Z ∧
  write_barriers b' = (write_barriers b + Z.of_nat (one i WRITE_BARRIER (mk_token i t)))%Z ∧
  exclusive (read_barriers b') (write_barriers b') ∧ blocked b'.
Proof.
  intros (H1 & H2 & H3 & (E1 & E2 & E3) & H5 & H6). unfold exclusive, blocked in *.
  destruct t; simpl; unfold grant_read_barrier_request, grant_write_barrier_request.
  - destruct (Z.eqb_spec (write_barriers b) 0) as [Ew|]; [|done]. intros [= <-]. simpl.
    rewrite one_eq, one_ne by (by right). split_and!; try lia; [done|].
    destruct (pending_barrier_requests b) as [|[p []] rest]; [done| |].
    + simpl in *. unfold grant_read_barrier_request in H5. by rewrite Ew in H5.
    + simpl. unfold grant_write_barrier_request. simpl. rewrite andb_false_intro2; [done|].
      apply Z.eqb_neq. lia.
  - destruct (Z.eqb_spec (write_barriers b) 0) as [Ew|]; [|done]. simpl.
    destruct (Z.eqb_spec (read_barriers b) 0) as [Er|]; [|done]. intros [= <-]. simpl.
    rewrite one_eq, one_ne by (by right). split_and!; try lia; [done|].
    destruct (pending_barrier_requests b) as [|[p []] rest]; [done| |].
    + simpl in *. unfold grant_read_barrier_request. simpl. by rewrite Ew.
    + simpl in *. unfold grant_write_barrier_request. simpl. by rewrite Ew.
Qed.

Lemma grant_none t b pend :
  grant t b = None → grant t (mk_barrier (b_id b) (read_barriers b) (write_barriers b) pend) = None.
Proof.
  destruct t; simpl; unfold grant_read_barrier_request, grant_write_barrier_request; simpl.
  - by destruct (write_barriers b =? 0)%Z.
  - by destruct ((write_barriers b =? 0)%Z && (read_barriers b =? 0)%Z).
Qed.

(** A request is granted at once or queued. *)
Lemma request_barrier_ok t i p m :
  manager_ok δ m → (0 ≤ i)%Z → waiting_ok (wd m) p →
  ∃ ok m', request_barrier t i p m = Some (ok, m') ∧ manager_ok δ m' ∧ same_next (wd m) (wd m') ∧
    ready_contexts_ (wd m') = ready_contexts_ (wd m) ∧
    length (contexts (wd m')) = length (contexts (wd m)) ∧
    (∀ i' t', held i' t' (wd m') = held i' t' (wd m) + if ok then one i' t' (mk_token i t) else 0).
Proof.
  intros Hok Hi (c & Hc & Hn). unfold request_barrier.
  destruct (get_or_create_barrier_ok i m Hok Hi) as (b & m1 & -> & Hwd & Hat & Hlen & Hb). simpl.
  rewrite Hwd. pose proof Hb as (Hid & Hr & Hw & _ & Hbl & Hpend).
  unfold set_barrier. destruct (grant t b) as [b'|] eqn:Eg.
  - destruct (grant_ok _ _ _ _ _ Hb Eg) as (G1 & G2 & G3 & G4 & G5 & G6).
    destruct (update_context_ok p (λ c, Some (add_barrier_token (mk_token (b_id b) t) c)) (wd m) c
      (add_barrier_token (mk_token i t) c)) as (w' & -> & Hs & Hl & Hrd & _ & Hh); [done|by rewrite Hid|done|].
    simpl. eexists true, _. split; [done|].
    assert (Hh' : ∀ i' t', held i' t' w' = held i' t' (wd m) + one i' t' (mk_token i t)).
    { intros i' t'. specialize (Hh i' t'). rewrite ntok_add in Hh. lia. }
    split; [|done]. eapply manager_ok_put; eauto.
    + intros j t' Hj. unfold due. rewrite Hh', one_ne by (by left). lia.
    + unfold barrier_ok, due in *. rewrite !Hh', G2. split; [done|]. split; [lia|]. split; [lia|].
      split; [done|]. split; [done|]. intros p' t' Hp'. apply Hs. by eapply Hpend.
  - simpl. eexists false, _. split; [done|]. split.
    + eapply manager_ok_put; eauto; [by intros ?|].
      destruct Hb as (H1 & H2 & H3 & H4 & H5 & H6). split; [done|]. split; [done|]. split; [done|].
      split; [done|]. split.
      * unfold blocked in *. simpl. destruct (pending_barrier_requests b) as [|[p0 t0] rest]; by apply grant_none.
      * simpl. intros p' t' Hp'. apply elem_of_app in Hp' as [Hp'|Hp']; [by eapply H6|].
        apply list_elem_of_singleton in Hp'. simplify_eq. by exists c.
    + split; [by intros ?|]. split; [done|]. split; [done|]. intros i' t'. simpl. lia.
Qed.

End invariant.

(** A correction by the token [k]. *)
Definition lose (k : barrier_token) (δ : delta) : delta := λ i t, (δ i t - Z.of_nat (one i t k))%Z.

Lemma manager_ok_ext δ δ' m : (∀ i t, δ i t = δ' i t) → manager_ok δ m → manager_ok δ' m.
Proof.
  intros Hd Hok. destruct m as [bs w]. apply (manager_ok_world δ δ' (mk_manager bs w) w Hok).
  - by intros ?.
  - intros i t. unfold due. by rewrite Hd.
Qed.

(** A barrier that is due exists. *)
Lemma due_barrier δ m i t :
  manager_ok δ m → (1 ≤ due δ i t (wd m))%Z → ∃ b, (0 ≤ i)%Z ∧ barrier_at i m = Some b ∧
    barrier_map_ m !! Z.to_nat i = Some (Some b) ∧ barrier_ok δ (wd m) i b.
Proof.
  intros Hok Hd. specialize (Hok i). unfold barrier_at in *. destruct (Z.ltb_spec i 0).
  { specialize (Hok t). lia. }
  destruct (barrier_map_ m !! Z.to_nat i) as [[b|]|] eqn:E; simpl in *; [|specialize (Hok t); lia..].
  by exists b.
Qed.

(** The context [p] and the queues around it are as before. *)
Definition undisturbed (p : nat) (m m' : barrier_manager) : Prop :=
  not_waiting m p → not_waiting m' p ∧ contexts (wd m') !! p = contexts (wd m) !! p.

(** What giving one barrier back does: some requests at the head of its queue
    are fired, in order, and become ready. *)
Definition offered (i : Z) (m m' : barrier_manager) : Prop :=
  ∃ b b' fired, barrier_at i m = Some b ∧ barrier_at i m' = Some b' ∧
    pending_barrier_requests b = fired ++ pending_barrier_requests b' ∧
    ready_contexts_ (wd m') = ready_contexts_ (wd m) ++ fired.*1 ∧
    (∀ j, j ≠ i → barrier_at j m' = barrier_at j m) ∧
    (∀ p, p ∉ fired.*1 → contexts (wd m') !! p = contexts (wd m) !! p).

Lemma offered_undisturbed i m m' p : offered i m m' → undisturbed p m m'.
Proof.
  intros (b & b' & fired & Hb & Hb' & Hp & _ & Hoth & Hc) Hnw. split.
  - intros j b0 t Hb0 Hin. destruct (decide (j = i)) as [->|Hne].
    + simplify_eq. apply (Hnw i b t Hb). rewrite Hp. apply elem_of_app. auto.
    + apply (Hnw j b0 t); [|done]. by rewrite <- Hoth.
  - apply Hc. intros Hin. apply list_elem_of_fmap in Hin as ([p' t] & -> & Hin).
    apply (Hnw i b t Hb). rewrite Hp. apply elem_of_app. auto.
Qed.

Lemma manager_remove_ok δ t i m :
  manager_ok δ m → (1 ≤ due δ i t (wd m))%Z →
  ∃ m', manager_remove t i m = Some m' ∧ manager_ok (lose (mk_token i t) δ) m' ∧
    same_next (wd m) (wd m') ∧ length (contexts (wd m')) = length (contexts (wd m)) ∧ offered i m m'.
Proof.
  intros Hok Hd. destruct (due_barrier δ m i t Hok Hd) as (b & Hi & Hb & Hlk & Hbok).
  unfold manager_remove, get_or_create_barrier. destruct (Z.ltb_spec i 0); [lia|]. simpl.
  rewrite lookup_app, Hlk. simpl.
  destruct Hbok as (H1 & H2 & H3 & (E1 & E2 & E3) & H5 & H6).
  set (r := (read_barriers b - Z.of_nat (one i READ_BARRIER (mk_token i t)))%Z).
  set (w := (write_barriers b - Z.of_nat (one i WRITE_BARRIER (mk_token i t)))%Z).
  destruct (offer_loop_ok (lose (mk_token i t) δ) i (pending_barrier_requests b) r w (wd m))
    as (b' & w2 & fired & Ho & Hb' & Hs2 & Hl2 & Hp & Hrd2 & Hh2 & Hoth).
  { unfold r, due, lose in *. lia. }
  { unfold w, due, lose in *. lia. }
  { unfold exclusive, r, w. destruct t; rewrite ?one_eq, ?one_ne in * by (by right); lia. }
  { done. }
  assert (Er : remove_barrier t b (wd m) = Some (b', w2)).
  { unfold remove_barrier, offer_barrier. rewrite <- Ho. unfold r, w.
    destruct t; simpl; rewrite H1, ?one_eq, ?one_ne by (by right); simpl; by rewrite Z.sub_0_r. }
  rewrite Er. simpl. eexists. split; [done|].
  set (m1 := mk_manager (barrier_map_ m ++ replicate (S (Z.to_nat i) - length (barrier_map_ m)) None) (wd m)).
  assert (Hm1 : ∀ j, j ≠ i → barrier_at j m1 = barrier_at j m).
  { intros j Hj. unfold barrier_at, m1. simpl. destruct (j <? 0)%Z; [done|].
    rewrite lookup_app. destruct (barrier_map_ m !! Z.to_nat j); [done|].
    destruct (replicate _ None !! _) eqn:E; simpl; [|done]. by apply lookup_replicate_1 in E as [-> _]. }
  assert (Hlen1 : Z.to_nat i < length (barrier_map_ m1)).
  { unfold m1. simpl. rewrite length_app, length_replicate. lia. }
  split.
  - apply (manager_ok_put δ _ m m1); try done.
    intros j t' Hj. unfold due, lose. rewrite Hh2, one_ne by auto. lia.
  - split; [done|]. split; [done|]. exists b, b', fired. split; [done|]. split.
    { unfold barrier_at, put_barrier. simpl. destruct (Z.ltb_spec i 0); [lia|].
      by rewrite list_lookup_insert_eq. }
    split; [done|]. split; [done|]. split; [|done].
    intros j Hj. rewrite <- Hm1 by done. unfold barrier_at, put_barrier, m1. simpl.
    destruct (Z.ltb_spec j 0); [done|]. by rewrite list_lookup_insert_ne by lia.
Qed.

(** Changing the tokens of a context without telling the barriers. *)
Lemma set_tokens_ok δ δ' p ts m c :
  manager_ok δ m → contexts (wd m) !! p = Some c →
  (∀ i t, (Z.of_nat (ntok i t (set_tokens ts c)) + δ' i t = Z.of_nat (ntok i t c) + δ i t)%Z) →
  ∃ w, update_context p (λ c, Some (set_tokens ts c)) (wd m) = Some w ∧
    manager_ok δ' (mk_manager (barrier_map_ m) w) ∧ same_next (wd m) w ∧
    contexts w = <[p := set_tokens ts c]> (contexts (wd m)) ∧ ready_contexts_ w = ready_contexts_ (wd m).
Proof.
  intros Hok Hc Hd.
  destruct (update_context_ok p (λ c, Some (set_tokens ts c)) (wd m) c (set_tokens ts c))
    as (w & -> & Hs & _ & Hrd & Hcs & Hh); [done..|].
  exists w. split; [done|]. split; [|done]. apply (manager_ok_world δ); [done|done|].
  intros i t. specialize (Hh i t). specialize (Hd i t). unfold due. lia.
Qed.

Lemma held_ge i t w p c : contexts w !! p = Some c → ntok i t c ≤ held i t w.
Proof. intros Hc. unfold held. rewrite <- (take_drop_middle _ _ _ Hc), sum_list_with_app. simpl. lia. Qed.

Lemma ntok_in i t c : mk_token i t ∈ obtained_barriers_ c → 1 ≤ ntok i t c.
Proof.
  intros Hk. assert (Hin : mk_token i t ∈ filter (λ x, x = mk_token i t) (obtained_barriers_ c)).
  { by apply list_elem_of_filter. }
  unfold ntok. destruct (filter _ (obtained_barriers_ c)); [by apply elem_of_nil in Hin|simpl; lia].
Qed.

Section settled.
Context (δ : delta) (Hδ : ∀ i t, (0 ≤ δ i t)%Z).

(** One token of a context is given back. *)
Lemma release_one_ok p k m c :
  manager_ok δ m → contexts (wd m) !! p = Some c → list.last (obtained_barriers_ c) = Some k →
  ∃ m', release_one p k m = Some m' ∧ manager_ok δ m' ∧ same_next (wd m) (wd m') ∧
    length (contexts (wd m')) = length (contexts (wd m)) ∧
    ∃ w, w = mk_world (<[p := set_tokens (removelast (obtained_barriers_ c)) c]> (contexts (wd m)))
               (ready_contexts_ (wd m)) ∧ offered (barrier_id_ k) (mk_manager (barrier_map_ m) w) m'.
Proof using Hδ.
  intros Hok Hc Hlast. unfold release_one.
  set (δ1 := λ i t, (δ i t + Z.of_nat (one i t k))%Z).
  destruct (set_tokens_ok δ δ1 p (removelast (obtained_barriers_ c)) m c)
    as (w1 & Hu & Hok1 & Hs1 & Hcs1 & Hrd1); [done|done| |].
  { intros i t. pose proof (ntok_removelast i t c k Hlast). unfold δ1. lia. }
  unfold update_context in *. rewrite Hc in *. simpl in *. simplify_eq. destruct k as [i t]. simpl in *.
  destruct (manager_remove_ok δ1 t i _ Hok1) as (m' & Hr & Hm' & Hs & Hl & Hof).
  { unfold due, δ1. rewrite one_eq. specialize (Hδ i t). lia. }
  rewrite Hr. simpl in *. eexists. split; [done|]. split.
  { revert Hm'. apply manager_ok_ext. intros i' t'. unfold lose, δ1. lia. }
  split; [by eapply same_next_trans|]. split; [by rewrite Hl, length_insert|].
  eexists. split; [done|done].
Qed.

Lemma release_loop_eq fuel p m :
  release_loop (S fuel) p m =
    (c ← contexts (wd m) !! p;
     match list.last (obtained_barriers_ c) with
     | None => Some m
     | Some t => m ← release_one p t m; release_loop fuel p m
     end).
Proof. done. Qed.

(** [release_all_barriers] gives every token back and returns. *)
Lemma release_loop_ok n : ∀ p m c,
  manager_ok δ m → not_waiting m p → contexts (wd m) !! p = Some c →
  length (obtained_barriers_ c) = n →
  ∃ m', release_loop (S n) p m = Some m' ∧ manager_ok δ m' ∧ not_waiting m' p ∧
    same_next (wd m) (wd m') ∧ contexts (wd m') !! p = Some (set_tokens [] c) ∧
    length (contexts (wd m')) = length (contexts (wd m)) ∧
    ∃ fired, ready_contexts_ (wd m') = ready_contexts_ (wd m) ++ fired.
Proof using Hδ.
  induction n as [|n IH]; intros p m c Hok Hnw Hc Hn;
    rewrite release_loop_eq, Hc; cbn [mbind option_bind].
  { destruct (obtained_barriers_ c) as [|] eqn:E; [|done]. simpl. exists m.
    split_and!; try done; [by intros ?| |exists []; by rewrite app_nil_r].
    rewrite Hc. f_equal. destruct c. simpl in *. by subst. }
  destruct (list.last (obtained_barriers_ c)) as [k|] eqn:El.
  2: { apply last_None in El. by rewrite El in Hn. }
  destruct (release_one_ok p k m c Hok Hc El) as (m1 & -> & Hok1 & Hs1 & Hl1 & w & Hw & Hof).
  destruct (offered_undisturbed _ _ _ p Hof) as [Hnw' Hc1]; [done|].
  rewrite Hw in Hc1. simpl in Hc1. rewrite list_lookup_insert_eq in Hc1 by (by eapply lookup_lt_Some).
  cbn [mbind option_bind].
  destruct (IH p m1 _ Hok1 Hnw' Hc1) as (m2 & -> & Hok2 & Hnw2 & Hs2 & Hc2 & Hl2 & f2 & Hrd2).
  { simpl. apply last_Some in El as [ts Ets]. rewrite Ets in *. rewrite removelast_last.
    rewrite length_app in Hn. simpl in Hn. lia. }
  exists m2. split_and!; try done; [by eapply same_next_trans|lia|].
  destruct Hof as (_ & _ & fired & _ & _ & _ & Hrd & _). exists (fired.*1 ++ f2).
  rewrite Hrd2, Hrd, Hw. simpl. by rewrite app_assoc.
Qed.

Lemma release_all_barriers_ok p m c :
  manager_ok δ m → not_waiting m p → contexts (wd m) !! p = Some c →
  ∃ m', release_all_barriers p m = Some m' ∧ manager_ok δ m' ∧ not_waiting m' p ∧
    same_next (wd m) (wd m') ∧ contexts (wd m') !! p = Some (set_tokens [] c) ∧
    length (contexts (wd m')) = length (contexts (wd m)) ∧
    ∃ fired, ready_contexts_ (wd m') = ready_contexts_ (wd m) ++ fired.
Proof using Hδ.
  intros Hok Hnw Hc. unfold release_all_barriers. rewrite Hc. simpl. by eapply release_loop_ok.
Qed.

End settled.

(** ** The barriers as a transition system *)
(** A running context asks for a barrier (having chosen its next state), gives
    all of its barriers back, or the scheduler takes the ready contexts. *)
Inductive bstep : barrier_manager → barrier_manager → Prop :=
  | bs_request m w m' p t i ns ok :
      not_waiting m p → (0 ≤ i)%Z → (0 ≤ ns)%Z →
      update_context p (λ c, Some (set_next_state ns c)) (wd m) = Some w →
      request_barrier t i p (mk_manager (barrier_map_ m) w) = Some (ok, m') →
      bstep m m'
  | bs_release m m' p :
      not_waiting m p → release_all_barriers p m = Some m' → bstep m m'
  | bs_take m taken rest :
      ready_contexts_ (wd m) = taken ++ rest →
      bstep m (mk_manager (barrier_map_ m) (mk_world (contexts (wd m)) rest)).

Inductive reachable (n : nat) : barrier_manager → Prop :=
  | reach_init : reachable n (mk_manager [] (mk_world (replicate n new_context) []))
  | reach_step m m' : reachable n m → bstep m m' → reachable n m'.

Lemma held_new i t n : held i t (mk_world (replicate n new_context) []) = 0.
Proof. unfold held. simpl. induction n as [|n IH]; simpl; [done|]. by rewrite IH. Qed.

Lemma reachable_ok n m : reachable n m → manager_ok settled m.
Proof.
  induction 1 as [|m m' _ IH Hstep].
  { intros i. unfold barrier_at, due. simpl. destruct (i <? 0)%Z; intros t; by rewrite held_new. }
  destruct Hstep as [m w m' p t i ns ok Hnw Hi Hns Hu Hreq|m m' p Hnw Hrel|m taken rest Hrd].
  - unfold update_context in Hu. destruct (contexts (wd m) !! p) as [c|] eqn:Hc; simplify_eq/=.
    destruct (update_context_ok p (λ c, Some (set_next_state ns c)) (wd m) c (set_next_state ns c))
      as (w & Hu & Hs & _ & _ & Hcs & Hh); [done|done|by intros _|].
    unfold update_context in Hu. rewrite Hc in Hu. simplify_eq/=.
    set (w := mk_world (<[p:=set_next_state ns c]> (contexts (wd m))) (ready_contexts_ (wd m))) in *.
    assert (Hok' : manager_ok settled (mk_manager (barrier_map_ m) w)).
    { apply (manager_ok_world settled); [done|done|]. intros i' t'. specialize (Hh i' t').
      unfold ntok in Hh. simpl in Hh. unfold due. lia. }
    destruct (request_barrier_ok settled t i p _ Hok' Hi) as (ok' & m2 & Hreq' & Hm2 & _).
    { exists (set_next_state ns c). split; [|done]. simpl.
      apply list_lookup_insert_eq. by eapply lookup_lt_Some. }
    rewrite Hreq in Hreq'. by simplify_eq.
  - destruct (contexts (wd m) !! p) as [c|] eqn:Hc.
    2: { unfold release_all_barriers in Hrel. by rewrite Hc in Hrel. }
    destruct (release_all_barriers_ok settled (λ _ _, Z.le_refl 0) p m c IH Hnw Hc) as (m2 & Hrel' & Hm2 & _).
    rewrite Hrel in Hrel'. by simplify_eq.
  - apply (manager_ok_world settled); [done|by intros ?|done].
Qed.

(** A write token excludes every other token of its barrier. *)
Lemma held_two i t w p q c d :
  p ≠ q → contexts w !! p = Some c → contexts w !! q = Some d → ntok i t c + ntok i t d ≤ held i t w.
Proof.
  intros Hne Hc Hd.
  assert (Hd' : (<[p := set_tokens [] c]> (contexts w)) !! q = Some d) by (by rewrite list_lookup_insert_ne).
  pose proof (held_ge i t (mk_world (<[p := set_tokens [] c]> (contexts w)) []) q d Hd') as H2.
  pose proof (sum_list_with_insert (ntok i t) (contexts w) p c (set_tokens [] c) Hc) as Hs.
  unfold held in *. simpl in *. unfold ntok at 4 in Hs. simpl in Hs. lia.
Qed.

Lemma exclusion m i p q c d t :
  manager_ok settled m → p ≠ q → contexts (wd m) !! p = Some c → contexts (wd m) !! q = Some d →
  mk_token i WRITE_BARRIER ∈ obtained_barriers_ c → mk_token i t ∉ obtained_barriers_ d.
Proof.
  intros Hok Hne Hc Hd Hk%ntok_in Hk'%ntok_in.
  pose proof (held_ge i WRITE_BARRIER (wd m) p c Hc). pose proof (held_ge i t (wd m) q d Hd).
  specialize (Hok i). destruct (barrier_at i m) as [b|]; [|specialize (Hok t); unfold due, settled in Hok; lia].
  destruct Hok as (_ & E1 & E2 & (E3 & E4 & E5) & _). unfold due, settled in *. destruct t; [lia|].
  pose proof (held_two i WRITE_BARRIER (wd m) p q c d Hne Hc Hd). lia.
Qed.

End Barrier.
