(* ===== verification/Alloc.v ===== *)
(** Address allocation of the block accessors
    (src/src/blk/file_blk_accessor.h, src/src/blk/nvme_blk_accessor.h): a cursor
    of [width] bits and the set of freed addresses. It implements the interface
    [Allocator] that the tree is verified against. *)
From Stdlib Require Import ZArith Lia.
From stdpp Require Import base list gmap sorting numbers.
From S2P Require Import Prelude Store.

(** [unordered_set::begin]: some element of a non-empty set, which one is not
    specified. *)
Class SetBegin := {
  set_begin : gset Z → Z;
  set_begin_in X : X ≠ ∅ → set_begin X ∈ X }.

#[global] Instance first_element : SetBegin.
Proof.
  refine {| set_begin := λ X, default 0%Z (head (elements X)) |}.
  intros X HX. destruct (elements X) as [|x xs] eqn:E.
  - apply elements_empty_iff in E. set_solver.
  - simpl. apply elem_of_elements. rewrite E. constructor.
Defined.

Module Alloc.
Section alloc.
Context `{!SetBegin} (width : Z).

Record allocator := mk { cursor_ : Z; freed_blk_addresses_ : gset Z }.

Definition new_allocator : allocator := mk 0 ∅.

Definition allocate (a : allocator) : Z * allocator :=
  if decide (freed_blk_addresses_ a = ∅) then
    (cursor_ a, mk ((cursor_ a + 1) mod 2 ^ width) (freed_blk_addresses_ a))
  else
    let blk_addr := set_begin (freed_blk_addresses_ a) in
    (blk_addr, mk (cursor_ a) (freed_blk_addresses_ a ∖ {[blk_addr]})).

(** [cursor_ == address - 1]: both sides are compared as 64-bit integers. *)
Definition deallocate (address : Z) (a : allocator) : allocator :=
  if (cursor_ a =? (address - 1) mod 2 ^ 64)%Z then
    mk ((cursor_ a - 1) mod 2 ^ width) (freed_blk_addresses_ a)
  else mk (cursor_ a) ({[address]} ∪ freed_blk_addresses_ a).

Definition is_address_valid (a : allocator) (address : Z) : bool :=
  (address <? cursor_ a)%Z && bool_decide (address ∉ freed_blk_addresses_ a).

Definition allocated (a : allocator) : gset Z :=
  list_to_set (Z.of_nat <$> seq 0 (Z.to_nat (cursor_ a))) ∖ freed_blk_addresses_ a.

Definition wf (a : allocator) : Prop :=
  (0 ≤ cursor_ a < 2 ^ width)%Z ∧ ∀ x, x ∈ freed_blk_addresses_ a → (0 ≤ x < cursor_ a)%Z.

(** [n] allocations do not wrap the cursor around. *)
Definition has_room (a : allocator) (n : nat) : Prop := (cursor_ a + Z.of_nat n < 2 ^ width)%Z.

Lemma elem_of_allocated a x :
  x ∈ allocated a ↔ (0 ≤ x < cursor_ a)%Z ∧ x ∉ freed_blk_addresses_ a.
Proof.
  unfold allocated. rewrite elem_of_difference, elem_of_list_to_set, list_elem_of_fmap.
  split.
  - intros [(n & -> & Hn) Hx]. apply elem_of_seq in Hn. split; [lia|done].
  - intros [Hr Hx]. split; [|done]. exists (Z.to_nat x). split; [lia|]. apply elem_of_seq. lia.
Qed.

(** Valid addresses are the ones handed out and not given back. *)
Lemma is_address_valid_spec a x :
  (0 ≤ x)%Z → is_address_valid a x = true ↔ x ∈ allocated a.
Proof.
  intros Hx. unfold is_address_valid. rewrite andb_true_iff, Z.ltb_lt, bool_decide_eq_true, elem_of_allocated.
  intuition lia.
Qed.

Lemma allocate_ok a n i a' :
  wf a → has_room a (S n) → allocate a = (i, a') →
  i ∉ allocated a ∧ (0 ≤ i)%Z ∧ allocated a' = {[i]} ∪ allocated a ∧ wf a' ∧ has_room a' n.
Proof.
  intros [Hc Hf] Hr. unfold has_room in Hr. unfold allocate. case_decide as He; intros [= <- <-].
  - rewrite He. rewrite Z.mod_small by lia. split_and!.
    + rewrite elem_of_allocated. lia.
    + lia.
    + apply set_eq. intros x. rewrite elem_of_union, elem_of_singleton, !elem_of_allocated, He. simpl.
      set_solver by lia.
    + split; simpl; [lia|set_solver].
    + unfold has_room. simpl. lia.
  - pose proof (set_begin_in (freed_blk_addresses_ a) He) as Hb.
    set (x := set_begin (freed_blk_addresses_ a)) in *. specialize (Hf x Hb) as Hx.
    split_and!.
    + rewrite elem_of_allocated. tauto.
    + lia.
    + apply set_eq. intros y. rewrite elem_of_union, elem_of_singleton, !elem_of_allocated. simpl.
      destruct (decide (y = x)) as [->|]; set_solver by lia.
    + split; simpl; [lia|]. intros y Hy. apply Hf. set_solver.
    + unfold has_room. simpl. lia.
Qed.

Lemma deallocate_cursor a i :
  (cursor_ a < 2 ^ 63)%Z → wf a → i ∈ allocated a →
  deallocate i a = mk (cursor_ a) ({[i]} ∪ freed_blk_addresses_ a).
Proof.
  intros Hw [Hc _] Hi. apply elem_of_allocated in Hi as [Hi _]. unfold deallocate.
  destruct (Z.eqb_spec (cursor_ a) ((i - 1) mod 2 ^ 64)) as [E|]; [|done]. exfalso.
  destruct (decide (i = 0%Z)) as [->|Hne].
  - change ((0 - 1) mod 2 ^ 64)%Z with (2 ^ 64 - 1)%Z in E. lia.
  - rewrite Z.mod_small in E by lia. lia.
Qed.

Lemma deallocate_ok a n i :
  (cursor_ a < 2 ^ 63)%Z → wf a → has_room a n → i ∈ allocated a →
  allocated (deallocate i a) = allocated a ∖ {[i]} ∧ wf (deallocate i a) ∧ has_room (deallocate i a) n.
Proof.
  intros Hw Hwf Hr Hi. rewrite deallocate_cursor by done. apply elem_of_allocated in Hi as [Hi Hn].
  destruct Hwf as [Hc Hf]. split_and!; [| |done].
  - apply set_eq. intros x. rewrite elem_of_difference, elem_of_singleton, !elem_of_allocated. simpl.
    set_solver.
  - split; simpl; [done|]. intros x. set_solver.
Qed.

End alloc.
End Alloc.

(** The two accessors as instances of the interface of the tree; the cursor of
    the file accessor is a uint32_t, the one of the NVMe accessor a uint64_t. *)
Record file_allocator := mk_file { file_alloc : Alloc.allocator }.
Record nvme_allocator := mk_nvme { nvme_alloc : Alloc.allocator }.

Section instances.
Context `{!SetBegin}.

#[global] Instance file_Allocator : Allocator file_allocator := {
  allocate a := let '(i, a') := Alloc.allocate 32 (file_alloc a) in (i, mk_file a');
  deallocate i a := mk_file (Alloc.deallocate 32 i (file_alloc a));
  in_use a := Alloc.allocated (file_alloc a);
  alloc_wf a := Alloc.wf 32 (file_alloc a);
  room a n := Alloc.has_room 32 (file_alloc a) n }.

#[global] Instance file_AllocatorLaws : AllocatorLaws file_allocator.
Proof.
  split; simpl.
  - unfold Alloc.has_room. intros. lia.
  - intros [a] n i [a'] Hw Hr E. simpl in *. destruct (Alloc.allocate 32 a) as [i0 a0] eqn:Ea.
    injection E as <- <-. by eapply Alloc.allocate_ok.
  - intros [a] n i Hw Hr Hi. apply Alloc.deallocate_ok; try done. destruct Hw. simpl in *. lia.
Qed.

#[global] Instance nvme_Allocator : Allocator nvme_allocator := {
  allocate a := let '(i, a') := Alloc.allocate 64 (nvme_alloc a) in (i, mk_nvme a');
  deallocate i a := mk_nvme (Alloc.deallocate 64 i (nvme_alloc a));
  in_use a := Alloc.allocated (nvme_alloc a);
  alloc_wf a := Alloc.wf 64 (nvme_alloc a);
  room a n := Alloc.has_room 64 (nvme_alloc a) n ∧ Alloc.has_room 63 (nvme_alloc a) n }.

#[global] Instance nvme_AllocatorLaws : AllocatorLaws nvme_allocator.
Proof.
  split; simpl.
  - unfold Alloc.has_room. intros a n n' Hn [H1 H2]. lia.
  - intros [a] n i [a'] Hw [Hr Hr'] E. simpl in *. destruct (Alloc.allocate 64 a) as [i0 a0] eqn:Ea.
    injection E as <- <-.
    destruct (Alloc.allocate_ok 64 a n i0 a0 Hw Hr Ea) as (H1 & H2 & H3 & H4 & H5). split_and!; try done.
    unfold Alloc.has_room, Alloc.allocate in *. destruct Hw as [Hc _].
    case_decide; injection Ea as <- <-; simpl in *; [|lia]. rewrite Z.mod_small; lia.
  - intros [a] n i Hw [Hr Hr'] Hi. simpl in *.
    destruct (Alloc.deallocate_ok 64 a n i ltac:(unfold Alloc.has_room in Hr'; lia) Hw Hr Hi) as (H1 & H2 & H3). split_and!; try done.
    unfold Alloc.has_room in *. rewrite Alloc.deallocate_cursor by (done || lia). done.
Qed.

End instances.
