(* ===== verification/PullState.v ===== *)
(** The state of the pull-mode tree (src/src/tree/pull_based_b_plus_tree.h): the
    tree, the barrier table with the generic part of every context, the data of
    the insert and search contexts, the asynchronous accessor
    (src/src/blk/file_blk_accessor.h: [asynch_read], [asynch_write],
    [process_completion]), the request queue and the pools of free contexts.

    Operations are written in a state monad whose failure is an assertion that
    does not hold or an undefined access of the source. *)
From Stdlib Require Import ZArith Lia.
From stdpp Require Import base list gmap sorting numbers.
From S2P Require Import Prelude KV Leaf Inner Store Barrier.

Module Pull.
Import Barrier.

(** ** Contexts *)
(** The members of [insert_context]; [i_key] and [i_val] are those of the
    request. A buffer holds the last block read into or serialised to it. *)
Record insert_context := mk_insert {
  i_key : Z;
  i_val : Z;
  node_ref_ : Z;
  buffer_ : option blk;
  buffer_2 : option blk;
  pending_parent_nodes_ : list (InnerNode.InnerNode * nat);
  write_back_completion_count_ : nat;
  write_back_completion_target_ : nat;
  child_node_split_ : bool;
  split_ : option (node * node * Z);
  free_slot_available_in_parent_ : bool;
  parent_boundary_update_ : bool;
  refer_to_root_ : bool;
  optimistic_ : bool;
  next_visit_is_leaf_node_ : bool;
  current_node_level_ : Z;
  last_state_1 : bool }.

Definition set_node_ref (x0 : Z) (c : insert_context) : insert_context :=
  mk_insert (i_key c) (i_val c) x0 (buffer_ c) (buffer_2 c) (pending_parent_nodes_ c)
    (write_back_completion_count_ c) (write_back_completion_target_ c) (child_node_split_ c)
    (split_ c) (free_slot_available_in_parent_ c) (parent_boundary_update_ c) (refer_to_root_ c)
    (optimistic_ c) (next_visit_is_leaf_node_ c) (current_node_level_ c) (last_state_1 c).
Definition set_buffer (x0 : option blk) (c : insert_context) : insert_context :=
  mk_insert (i_key c) (i_val c) (node_ref_ c) x0 (buffer_2 c) (pending_parent_nodes_ c)
    (write_back_completion_count_ c) (write_back_completion_target_ c) (child_node_split_ c)
    (split_ c) (free_slot_available_in_parent_ c) (parent_boundary_update_ c) (refer_to_root_ c)
    (optimistic_ c) (next_visit_is_leaf_node_ c) (current_node_level_ c) (last_state_1 c).
Definition set_buffers (x0 : option blk) (x1 : option blk) (c : insert_context) : insert_context :=
  mk_insert (i_key c) (i_val c) (node_ref_ c) x0 x1 (pending_parent_nodes_ c)
    (write_back_completion_count_ c) (write_back_completion_target_ c) (child_node_split_ c)
    (split_ c) (free_slot_available_in_parent_ c) (parent_boundary_update_ c) (refer_to_root_ c)
    (optimistic_ c) (next_visit_is_leaf_node_ c) (current_node_level_ c) (last_state_1 c).
Definition set_parents (x0 : list (InnerNode.InnerNode * nat)) (c : insert_context) : insert_context :=
  mk_insert (i_key c) (i_val c) (node_ref_ c) (buffer_ c) (buffer_2 c) x0
    (write_back_completion_count_ c) (write_back_completion_target_ c) (child_node_split_ c)
    (split_ c) (free_slot_available_in_parent_ c) (parent_boundary_update_ c) (refer_to_root_ c)
    (optimistic_ c) (next_visit_is_leaf_node_ c) (current_node_level_ c) (last_state_1 c).
Definition set_count (x0 : nat) (c : insert_context) : insert_context :=
  mk_insert (i_key c) (i_val c) (node_ref_ c) (buffer_ c) (buffer_2 c) (pending_parent_nodes_ c)
    x0 (write_back_completion_target_ c) (child_node_split_ c) (split_ c)
    (free_slot_available_in_parent_ c) (parent_boundary_update_ c) (refer_to_root_ c)
    (optimistic_ c) (next_visit_is_leaf_node_ c) (current_node_level_ c) (last_state_1 c).
Definition set_write_back (x0 : nat) (x1 : nat) (c : insert_context) : insert_context :=
  mk_insert (i_key c) (i_val c) (node_ref_ c) (buffer_ c) (buffer_2 c) (pending_parent_nodes_ c)
    x0 x1 (child_node_split_ c) (split_ c) (free_slot_available_in_parent_ c)
    (parent_boundary_update_ c) (refer_to_root_ c) (optimistic_ c) (next_visit_is_leaf_node_ c)
    (current_node_level_ c) (last_state_1 c).
Definition set_split (x0 : bool) (x1 : option (node * node * Z)) (c : insert_context) : insert_context :=
  mk_insert (i_key c) (i_val c) (node_ref_ c) (buffer_ c) (buffer_2 c) (pending_parent_nodes_ c)
    (write_back_completion_count_ c) (write_back_completion_target_ c) x0 x1
    (free_slot_available_in_parent_ c) (parent_boundary_update_ c) (refer_to_root_ c)
    (optimistic_ c) (next_visit_is_leaf_node_ c) (current_node_level_ c) (last_state_1 c).
Definition set_child_split (x0 : bool) (c : insert_context) : insert_context :=
  mk_insert (i_key c) (i_val c) (node_ref_ c) (buffer_ c) (buffer_2 c) (pending_parent_nodes_ c)
    (write_back_completion_count_ c) (write_back_completion_target_ c) x0 (split_ c)
    (free_slot_available_in_parent_ c) (parent_boundary_update_ c) (refer_to_root_ c)
    (optimistic_ c) (next_visit_is_leaf_node_ c) (current_node_level_ c) (last_state_1 c).
Definition set_refer (x0 : bool) (c : insert_context) : insert_context :=
  mk_insert (i_key c) (i_val c) (node_ref_ c) (buffer_ c) (buffer_2 c) (pending_parent_nodes_ c)
    (write_back_completion_count_ c) (write_back_completion_target_ c) (child_node_split_ c)
    (split_ c) (free_slot_available_in_parent_ c) (parent_boundary_update_ c) x0 (optimistic_ c)
    (next_visit_is_leaf_node_ c) (current_node_level_ c) (last_state_1 c).
Definition set_last_state_1 (x0 : bool) (c : insert_context) : insert_context :=
  mk_insert (i_key c) (i_val c) (node_ref_ c) (buffer_ c) (buffer_2 c) (pending_parent_nodes_ c)
    (write_back_completion_count_ c) (write_back_completion_target_ c) (child_node_split_ c)
    (split_ c) (free_slot_available_in_parent_ c) (parent_boundary_update_ c) (refer_to_root_ c)
    (optimistic_ c) (next_visit_is_leaf_node_ c) (current_node_level_ c) x0.
Definition start_at_root (x0 : bool) (x1 : Z) (x2 : Z) (c : insert_context) : insert_context :=
  mk_insert (i_key c) (i_val c) x1 (buffer_ c) (buffer_2 c) (pending_parent_nodes_ c)
    (write_back_completion_count_ c) (write_back_completion_target_ c) (child_node_split_ c)
    (split_ c) (free_slot_available_in_parent_ c) (parent_boundary_update_ c) x0 (optimistic_ c)
    (next_visit_is_leaf_node_ c) x2 (last_state_1 c).
Definition restart (x0 : bool) (x1 : bool) (x2 : bool) (x3 : bool) (x4 : Z) (c : insert_context) : insert_context :=
  mk_insert (i_key c) (i_val c) (node_ref_ c) (buffer_ c) (buffer_2 c) (pending_parent_nodes_ c)
    (write_back_completion_count_ c) (write_back_completion_target_ c) (child_node_split_ c)
    (split_ c) x1 (parent_boundary_update_ c) x2 x0 x3 x4 (last_state_1 c).
Definition visit_child (x0 : list (InnerNode.InnerNode * nat)) (x1 : Z) (x2 : bool) (x3 : bool) (x4 : bool) (x5 : Z) (c : insert_context) : insert_context :=
  mk_insert (i_key c) (i_val c) x1 (buffer_ c) (buffer_2 c) x0 (write_back_completion_count_ c)
    (write_back_completion_target_ c) (child_node_split_ c) (split_ c) x2 x3 (refer_to_root_ c)
    (optimistic_ c) x4 x5 (last_state_1 c).


(** [init] of a context for a request. *)
Definition init_insert (key val : Z) (depth : nat) (c : insert_context) : insert_context :=
  mk_insert key val (-1) (buffer_ c) (buffer_2 c) [] (write_back_completion_count_ c)
    (write_back_completion_target_ c) (child_node_split_ c) (split_ c) false
    (parent_boundary_update_ c) false true (depth =? 1) (Z.of_nat depth) (last_state_1 c).

Definition new_insert_context : insert_context :=
  mk_insert 0 0 (-1) None None [] 0 0 false None false false false false false 0 false.

(** The members of [search_context]. *)
Record search_context := mk_search { s_key : Z; s_node_ref_ : Z; s_buffer_ : option blk }.

Inductive context_data := CInsert (c : insert_context) | CSearch (c : search_context).

Inductive request := SEARCH_REQUEST (key : Z) | INSERT_REQUEST (key val : Z).

(** What the callback of a request reports. *)
Inductive answer := Searched (key : Z) (found : option Z) | Inserted (key val : Z).

Inductive io_type := read_io | write_io.

(** What [run] returns, and [Again] for a state change followed by a recursive
    call of [run]. *)
Inductive outcome := Again | CONTEXT_TRANSIT | CONTEXT_TERMINATED.

Section pull.
Context {A : Type} `{!Allocator A}.

Record pstate := mk_pstate {
  tree : tree_state A;
  manager : barrier_manager;
  datas : list context_data;
  pending_contexts_ : list nat;
  pending_ids_ : list io_type;
  blk_ready_contexts : list nat;
  request_queue_ : list request;
  pending_request_ : Z;
  free_context_slots_ : Z;
  free_insert_contexts_ : list nat;
  free_search_contexts_ : list nat;
  admission_contexts_ : list nat;
  context_id_generator_ : Z;
  answers : list answer }.

Definition with_tree (t : tree_state A) (s : pstate) : pstate :=
  mk_pstate t (manager s) (datas s) (pending_contexts_ s) (pending_ids_ s) (blk_ready_contexts s)
    (request_queue_ s) (pending_request_ s) (free_context_slots_ s) (free_insert_contexts_ s)
    (free_search_contexts_ s) (admission_contexts_ s) (context_id_generator_ s) (answers s).
Definition with_manager (m : barrier_manager) (s : pstate) : pstate :=
  mk_pstate (tree s) m (datas s) (pending_contexts_ s) (pending_ids_ s) (blk_ready_contexts s)
    (request_queue_ s) (pending_request_ s) (free_context_slots_ s) (free_insert_contexts_ s)
    (free_search_contexts_ s) (admission_contexts_ s) (context_id_generator_ s) (answers s).
Definition with_datas (d : list context_data) (s : pstate) : pstate :=
  mk_pstate (tree s) (manager s) d (pending_contexts_ s) (pending_ids_ s) (blk_ready_contexts s)
    (request_queue_ s) (pending_request_ s) (free_context_slots_ s) (free_insert_contexts_ s)
    (free_search_contexts_ s) (admission_contexts_ s) (context_id_generator_ s) (answers s).
Definition with_io (pc : list nat) (pi : list io_type) (rd : list nat) (s : pstate) : pstate :=
  mk_pstate (tree s) (manager s) (datas s) pc pi rd
    (request_queue_ s) (pending_request_ s) (free_context_slots_ s) (free_insert_contexts_ s)
    (free_search_contexts_ s) (admission_contexts_ s) (context_id_generator_ s) (answers s).
Definition with_requests (q : list request) (n : Z) (s : pstate) : pstate :=
  mk_pstate (tree s) (manager s) (datas s) (pending_contexts_ s) (pending_ids_ s) (blk_ready_contexts s)
    q n (free_context_slots_ s) (free_insert_contexts_ s)
    (free_search_contexts_ s) (admission_contexts_ s) (context_id_generator_ s) (answers s).
Definition with_pools (slots : Z) (fi fs : list nat) (s : pstate) : pstate :=
  mk_pstate (tree s) (manager s) (datas s) (pending_contexts_ s) (pending_ids_ s) (blk_ready_contexts s)
    (request_queue_ s) (pending_request_ s) slots fi fs
    (admission_contexts_ s) (context_id_generator_ s) (answers s).
Definition with_admission (l : list nat) (g : Z) (s : pstate) : pstate :=
  mk_pstate (tree s) (manager s) (datas s) (pending_contexts_ s) (pending_ids_ s) (blk_ready_contexts s)
    (request_queue_ s) (pending_request_ s) (free_context_slots_ s) (free_insert_contexts_ s)
    (free_search_contexts_ s) l g (answers s).
Definition with_answers (l : list answer) (s : pstate) : pstate :=
  mk_pstate (tree s) (manager s) (datas s) (pending_contexts_ s) (pending_ids_ s) (blk_ready_contexts s)
    (request_queue_ s) (pending_request_ s) (free_context_slots_ s) (free_insert_contexts_ s)
    (free_search_contexts_ s) (admission_contexts_ s) (context_id_generator_ s) l.

(** ** The monad *)
Definition cmd (X : Type) : Type := pstate → option (X * pstate).

#[global] Instance cmd_ret : MRet cmd := λ X x s, Some (x, s).
#[global] Instance cmd_bind : MBind cmd := λ X Y k c s,
  match c s with Some (x, s') => k x s' | None => None end.

Definition get {X} (f : pstate → X) : cmd X := λ s, Some (f s, s).
Definition modify (f : pstate → pstate) : cmd unit := λ s, Some (tt, f s).
Definition require {X} (o : option X) : cmd X := λ s, x ← o; Some (x, s).
Definition assert_ (b : bool) : cmd unit := require (if b then Some tt else None).

(** ** The generic part of a context *)
Definition get_context (p : nat) : cmd call_back_context := λ s,
  c ← contexts (wd (manager s)) !! p; Some (c, s).

Definition update_call_back (p : nat) (f : call_back_context → option call_back_context) : cmd unit := λ s,
  w ← update_context p f (wd (manager s));
  Some (tt, with_manager (mk_manager (barrier_map_ (manager s)) w) s).

Definition goto_next (p : nat) (state : Z) : cmd unit :=
  update_call_back p (λ c, Some (set_next_state state c)).
Definition do_transition (p : nat) : cmd unit := update_call_back p transition_to_next_state.

(** [set_next_state(x); transition_to_next_state(); return run();] *)
Definition jump (p : nat) (state : Z) : cmd outcome :=
  _ ← goto_next p state; _ ← do_transition p; mret Again.

Definition set_obtained (p : nat) (ts : list barrier_token) : cmd unit :=
  update_call_back p (λ c, Some (set_tokens ts c)).

(** ** Barriers *)
Definition ask_barrier (t : barrier_type) (node_id : Z) (p : nat) : cmd bool := λ s,
  '(ok, m) ← request_barrier t node_id p (manager s); Some (ok, with_manager m s).
Definition give_back (t : barrier_type) (node_id : Z) : cmd unit := λ s,
  m ← manager_remove t node_id (manager s); Some (tt, with_manager m s).
Definition give_back_all (p : nat) : cmd unit := λ s,
  m ← release_all_barriers p (manager s); Some (tt, with_manager m s).

(** ** The data of a context *)
Definition get_insert (p : nat) : cmd insert_context := λ s,
  match datas s !! p with Some (CInsert c) => Some (c, s) | _ => None end.
Definition put_insert (p : nat) (c : insert_context) : cmd unit :=
  modify (λ s, with_datas (<[p := CInsert c]> (datas s)) s).
Definition get_search (p : nat) : cmd search_context := λ s,
  match datas s !! p with Some (CSearch c) => Some (c, s) | _ => None end.
Definition put_search (p : nat) (c : search_context) : cmd unit :=
  modify (λ s, with_datas (<[p := CSearch c]> (datas s)) s).

(** ** The accessor *)
(** [read]: an address that is not valid leaves the buffer as it is. *)
Definition blk_read (addr : Z) (buffer : option blk) : cmd (option blk) :=
  get (λ s, if bool_decide (addr ∈ in_use (alloc (tree s))) then blocks (tree s) !! addr else buffer).

Definition blk_write (addr : Z) (b : blk) : cmd unit :=
  modify (λ s, if bool_decide (addr ∈ in_use (alloc (tree s)))
               then with_tree (set_blocks (<[addr := b]> (blocks (tree s))) (tree s)) s else s).

Definition submit (p : nat) (t : io_type) : cmd unit :=
  modify (λ s, with_io (pending_contexts_ s ++ [p]) (pending_ids_ s ++ [t]) (blk_ready_contexts s) s).

Definition asynch_read (addr : Z) (buffer : option blk) (p : nat) : cmd (option blk) :=
  b ← blk_read addr buffer; _ ← submit p read_io; mret b.

Definition asynch_write (addr : Z) (b : blk) (p : nat) : cmd unit :=
  _ ← blk_write addr b; submit p write_io.

Definition blk_allocate : cmd Z := λ s,
  let '(i, a') := allocate (alloc (tree s)) in Some (i, with_tree (set_alloc a' (tree s)) s).

(** The loop of [process_completion], from the back of both vectors. *)
Fixpoint completion_loop (max : nat) : cmd nat :=
  match max with
  | 0 => mret 0
  | S max' =>
      pc ← get pending_contexts_; pi ← get pending_ids_;
      match list.last pc with
      | None => mret 0
      | Some p =>
          t ← require (list.last pi);
          _ ← modify (λ s, with_io (removelast pc) (removelast pi) (blk_ready_contexts s) s);
          _ ← update_call_back p (λ c, Some (set_tag (match t with
                                                      | read_io => CONTEXT_READ_IO
                                                      | write_io => CONTEXT_WRITE_IO
                                                      end) c));
          _ ← do_transition p;
          _ ← modify (λ s, with_io (pending_contexts_ s) (pending_ids_ s) (blk_ready_contexts s ++ [p]) s);
          n ← completion_loop max'; mret (S n)
      end
  end.

(** [process_completion]: [random_shuffle] reorders the contexts, [shuffle] is
    the order it chooses; 0 stands for no limit. *)
Definition process_completion (shuffle : list nat → list nat) (max : nat) : cmd nat :=
  _ ← modify (λ s, with_io (shuffle (pending_contexts_ s)) (pending_ids_ s) (blk_ready_contexts s) s);
  n ← get (λ s, length (pending_contexts_ s));
  completion_loop (if max =? 0 then n else max).

End pull.
Arguments pstate : clear implicits.

End Pull.
