(* ===== verification/PullTree.v ===== *)
(** The state machines of the pull-mode tree
    (src/src/tree/pull_based_b_plus_tree.h): [insert_context::run],
    [search_context::run], admission of requests and the scheduler rounds. *)
From Stdlib Require Import ZArith Lia.
From stdpp Require Import base list gmap sorting numbers.
From S2P Require Import Prelude KV Leaf Inner Store Barrier PullState.

Module PullTree.
Import Barrier Pull.

Section machine.
Context {A : Type} `{!Allocator A}.
Context (CAPACITY : nat) (junkE : list (Z * Z)) (junkK : list Z).
Local Abbreviation cmd := (@cmd A).
Local Abbreviation pstate := (pstate A).

(** ** [insert_context::run] *)
(** State 0: choose the node to visit and ask for its barrier. *)
Definition insert_state_0 (p : nat) : cmd outcome :=
  c ← get_insert p; t ← get tree;
  let c := set_last_state_1 false c in
  let c := if (node_ref_ c =? -1)%Z
           then start_at_root true (root_ t) (Z.of_nat (depth_ t)) c else c in
  _ ← put_insert p c;
  _ ← goto_next p 10001;
  ok ← ask_barrier (if optimistic_ c && negb (next_visit_is_leaf_node_ c)
                    then READ_BARRIER else WRITE_BARRIER) (node_ref_ c) p;
  if (ok : bool) then _ ← do_transition p; mret Again else mret CONTEXT_TRANSIT.

(** Give back all barriers but the last [n]. *)
Definition release_all_but (n : nat) (p : nat) : cmd unit :=
  cb ← get_context p;
  let ts := obtained_barriers_ cb in
  _ ← assert_ (n <=? length ts);
  let keep := drop (length ts - n) ts in
  _ ← set_obtained p (take (length ts - n) ts);
  _ ← give_back_all p;
  cb ← get_context p;
  set_obtained p (obtained_barriers_ cb ++ keep).

(** State 10001: the barrier was obtained; detect a new root, release the
    barriers of the ancestors that are no longer needed. *)
Definition insert_state_10001 (p : nat) : cmd outcome :=
  c ← get_insert p; t ← get tree; cb ← get_context p;
  let c := set_last_state_1 false c in
  stale ← (if refer_to_root_ c then
             k ← require (list.last (obtained_barriers_ cb));
             mret (negb (barrier_id_ k =? root_ t)%Z)
           else mret false);
  if (stale : bool) then
    _ ← put_insert p c;
    _ ← give_back_all p;
    _ ← put_insert p (set_node_ref (-1) (set_refer true c));
    jump p 0
  else
    let c := set_refer false c in
    _ ← put_insert p c;
    _ ← (if optimistic_ c then release_all_but 1 p
         else if free_slot_available_in_parent_ c && negb (parent_boundary_update_ c)
              then release_all_but 2 p else mret tt);
    jump p 1.

(** State 1: read the node. *)
Definition insert_state_1 (p : nat) : cmd outcome :=
  c ← get_insert p;
  _ ← assert_ (negb (last_state_1 c));
  let c := set_last_state_1 true c in
  _ ← goto_next p 2;
  b ← asynch_read (node_ref_ c) (buffer_ c) p;
  _ ← put_insert p (set_buffer b c);
  mret CONTEXT_TRANSIT.

(** State 2 on a leaf: insert and flush it, and the new node if it was split. *)
Definition insert_state_2_leaf (p : nat) (c : insert_context) (leaf : LeafNode.LeafNode) : cmd outcome :=
  cb ← get_context p; t ← get tree;
  _ ← assert_ (current_node_level_ c =? 1)%Z;
  k ← require (list.last (obtained_barriers_ cb));
  _ ← assert_ (bool_decide (type_ k = WRITE_BARRIER));
  if optimistic_ c && (LeafNode.size_ leaf =? CAPACITY) then _ ← put_insert p c; jump p 13 else
  let '(rrep, a') := allocate (alloc t) in
  '(l', r) ← require (LeafNode.insert_with_split_support CAPACITY rrep junkE (i_key c) (i_val c) leaf);
  match r with
  | None =>
      let b := serialize (NLeaf l') in
      _ ← put_insert p (set_write_back 0 1 (set_child_split false (set_buffer (Some b) c)));
      _ ← goto_next p 10;
      _ ← asynch_write (node_ref_ c) b p;
      mret CONTEXT_TRANSIT
  | Some (rt, bkey) =>
      _ ← modify (λ s, with_tree (set_alloc a' (tree s)) s);
      let b := serialize (NLeaf l') in
      let b2 := serialize (NLeaf rt) in
      _ ← put_insert p (set_write_back 0 2 (set_split true (Some (NLeaf l', NLeaf rt, bkey))
                          (set_buffers (Some b) (Some b2) c)));
      _ ← goto_next p (if (LeafNode.self_rep_ l' =? root_ t)%Z then 12 else 10)%Z;
      _ ← asynch_write (node_ref_ c) b p;
      _ ← asynch_write (LeafNode.self_rep_ rt) b2 p;
      mret CONTEXT_TRANSIT
  end.

(** State 2 on an inner node: remember it as a parent and go to the child. *)
Definition insert_state_2_inner (p : nat) (c : insert_context) (i : InnerNode.InnerNode) : cmd outcome :=
  index ← require (InnerNode.locate_child_index (i_key c) i);
  let exceed_left_boundary := (index <? 0)%Z in
  if exceed_left_boundary && optimistic_ c then _ ← put_insert p c; jump p 13 else
  let target := Z.to_nat (Z.max 0 index) in
  i ← require (if exceed_left_boundary then InnerNode.set_left_boundary (i_key c) i else Some i);
  r ← require (InnerNode.child_rep_ i !! target);
  _ ← put_insert p (visit_child (pending_parent_nodes_ c ++ [(i, target)]) r
                      (InnerNode.has_free_slot CAPACITY i) exceed_left_boundary
                      (current_node_level_ c =? 2)%Z (current_node_level_ c - 1)%Z c);
  jump p 0.

Definition insert_state_2 (p : nat) : cmd outcome :=
  c ← get_insert p;
  let c := set_last_state_1 false c in
  b ← require (buffer_ c);
  n ← require (deserialize CAPACITY junkE junkK b);
  match n with
  | NLeaf leaf => insert_state_2_leaf p c leaf
  | NInner i => insert_state_2_inner p c i
  end.

(** State 10: a write completed; go on when all of them did. *)
Definition insert_state_10 (p : nat) : cmd outcome :=
  c ← get_insert p;
  let c := set_count (S (write_back_completion_count_ c)) (set_last_state_1 false c) in
  _ ← put_insert p c;
  if write_back_completion_count_ c =? write_back_completion_target_ c then jump p 9
  else mret CONTEXT_TRANSIT.

(** State 9 after a split of the child: put the new node into the parent, or
    split the parent. *)
Definition insert_state_9_split (p : nat) (c : insert_context) : cmd outcome :=
  match list.last (pending_parent_nodes_ c) with
  | None => _ ← put_insert p c; insert_state_10 p
  | Some (parent, position) =>
      t ← get tree;
      '(_, rchild, bkey) ← require (split_ c);
      let c := set_node_ref (InnerNode.self_rep_ parent)
                 (set_parents (removelast (pending_parent_nodes_ c)) c) in
      if InnerNode.size_ parent <? CAPACITY then
        i ← require (InnerNode.insert_inner_node (node_self_rep rchild) bkey (position + 1) parent);
        let b := serialize (NInner i) in
        _ ← put_insert p (set_write_back 0 1 (set_child_split false (set_buffer (Some b) c)));
        _ ← goto_next p 10;
        _ ← asynch_write (InnerNode.self_rep_ i) b p;
        mret CONTEXT_TRANSIT
      else
        rrep ← blk_allocate;
        '(lt, rt, b) ← require (InnerNode.split_insert CAPACITY rrep junkK position
                                  (node_self_rep rchild) bkey parent);
        let b1 := serialize (NInner lt) in
        let b2 := serialize (NInner rt) in
        _ ← put_insert p (set_write_back 0 2 (set_split true (Some (NInner lt, NInner rt, b))
                            (set_buffers (Some b1) (Some b2) c)));
        _ ← goto_next p (if negb (root_ t =? InnerNode.self_rep_ lt)%Z then 10 else 12)%Z;
        _ ← asynch_write (InnerNode.self_rep_ lt) b1 p;
        _ ← asynch_write (InnerNode.self_rep_ rt) b2 p;
        mret CONTEXT_TRANSIT
  end.

(** State 9 without a split: flush the next modified parent. *)
Fixpoint next_modified (ps : list (InnerNode.InnerNode * nat)) : option (InnerNode.InnerNode * list (InnerNode.InnerNode * nat)) :=
  match ps with
  | [] => None
  | (i, _) :: rest => if InnerNode.modified_ i then Some (i, rest) else next_modified rest
  end.

Definition insert_state_9_flush (p : nat) (c : insert_context) : cmd outcome :=
  match next_modified (rev (pending_parent_nodes_ c)) with
  | None => _ ← put_insert p (set_parents [] c); jump p 11
  | Some (i, rest) =>
      let b := serialize (NInner i) in
      _ ← put_insert p (set_write_back 0 1 (set_buffer (Some b) (set_parents (rev rest) c)));
      _ ← goto_next p 10;
      _ ← asynch_write (InnerNode.self_rep_ i) b p;
      mret CONTEXT_TRANSIT
  end.

Definition insert_state_9 (p : nat) : cmd outcome :=
  c ← get_insert p;
  let c := set_last_state_1 false c in
  if child_node_split_ c then insert_state_9_split p c else insert_state_9_flush p c.

(** State 11: done. *)
Definition insert_state_11 (p : nat) : cmd outcome :=
  c ← get_insert p;
  _ ← put_insert p (set_last_state_1 false c);
  _ ← give_back_all p;
  _ ← modify (λ s, with_answers (answers s ++ [Inserted (i_key c) (i_val c)]) s);
  _ ← modify (λ s, with_requests (request_queue_ s) (pending_request_ s - 1) s);
  _ ← modify (λ s, with_pools (free_context_slots_ s + 1) (p :: free_insert_contexts_ s)
                     (free_search_contexts_ s) s);
  mret CONTEXT_TERMINATED.

(** State 12: the root was split; once both halves are written, create the new
    root. The tree refers to it before its block is written. *)
Definition insert_state_12 (p : nat) : cmd outcome :=
  c ← get_insert p;
  let c := set_count (S (write_back_completion_count_ c)) (set_last_state_1 false c) in
  _ ← put_insert p c;
  if write_back_completion_count_ c =? write_back_completion_target_ c then
    '(lt, rt, _) ← require (split_ c);
    lkey ← require (node_leftmost_key lt);
    rkey ← require (node_leftmost_key rt);
    rep ← blk_allocate;
    root ← require (InnerNode.create_root CAPACITY junkK rep lkey (node_self_rep lt) rkey (node_self_rep rt));
    let root := InnerNode.mark_modified root in
    _ ← modify (λ s, with_tree (mk_state (blocks (tree s)) (alloc (tree s)) rep (depth_ (tree s) + 1)) s);
    let b := serialize (NInner root) in
    _ ← put_insert p (set_child_split false (set_write_back 0 1 (set_buffer (Some b) c)));
    _ ← goto_next p 11;
    _ ← asynch_write rep b p;
    mret CONTEXT_TRANSIT
  else mret CONTEXT_TRANSIT.

(** State 13: the optimistic pass failed; start again with write barriers. *)
Definition insert_state_13 (p : nat) : cmd outcome :=
  c ← get_insert p; t ← get tree;
  _ ← put_insert p (restart false false false (depth_ t =? 1) (Z.of_nat (depth_ t)) (set_last_state_1 false c));
  _ ← give_back_all p;
  r ← jump p 0;
  c ← get_insert p;
  _ ← put_insert p (set_node_ref (-1) c);
  mret r.

Definition insert_step (p : nat) : cmd outcome :=
  cb ← get_context p;
  let s := current_state cb in
  if (s =? 0)%Z then insert_state_0 p
  else if (s =? 10001)%Z then insert_state_10001 p
  else if (s =? 1)%Z then insert_state_1 p
  else if (s =? 2)%Z then insert_state_2 p
  else if (s =? 9)%Z then insert_state_9 p
  else if (s =? 10)%Z then insert_state_10 p
  else if (s =? 11)%Z then insert_state_11 p
  else if (s =? 12)%Z then insert_state_12 p
  else if (s =? 13)%Z then insert_state_13 p
  else require None.

(** ** [search_context::run] *)
Definition search_state_0 (p : nat) : cmd outcome :=
  c ← get_search p;
  _ ← goto_next p 1;
  ok ← ask_barrier READ_BARRIER (s_node_ref_ c) p;
  if (ok : bool) then _ ← do_transition p; mret Again else mret CONTEXT_TRANSIT.

(** State 1: the barrier of the parent is given back, then the node is read. *)
Definition search_state_1 (p : nat) : cmd outcome :=
  c ← get_search p; cb ← get_context p;
  _ ← assert_ (length (obtained_barriers_ cb) <=? 2);
  _ ← match obtained_barriers_ cb with
      | [front; _] =>
          _ ← give_back READ_BARRIER (barrier_id_ front);
          cb ← get_context p; set_obtained p (tail (obtained_barriers_ cb))
      | _ => mret tt
      end;
  _ ← goto_next p 2;
  b ← asynch_read (s_node_ref_ c) (s_buffer_ c) p;
  _ ← put_search p (mk_search (s_key c) (s_node_ref_ c) b);
  mret CONTEXT_TRANSIT.

Fixpoint give_back_reads (ts : list barrier_token) : cmd unit :=
  match ts with
  | [] => mret tt
  | t :: ts' => _ ← give_back READ_BARRIER (barrier_id_ t); give_back_reads ts'
  end.

(** The end of a search: report the answer, give the barriers and the context
    back. *)
Definition search_done (p : nat) (key : Z) (found : option Z) : cmd outcome :=
  _ ← modify (λ s, with_answers (answers s ++ [Searched key found]) s);
  _ ← modify (λ s, with_requests (request_queue_ s) (pending_request_ s - 1) s);
  _ ← modify (λ s, with_pools (free_context_slots_ s + 1) (free_insert_contexts_ s)
                     (free_search_contexts_ s) s);
  cb ← get_context p;
  _ ← give_back_reads (obtained_barriers_ cb);
  _ ← set_obtained p [];
  _ ← modify (λ s, with_pools (free_context_slots_ s) (free_insert_contexts_ s)
                     (p :: free_search_contexts_ s) s);
  mret CONTEXT_TERMINATED.

Definition search_state_2 (p : nat) : cmd outcome :=
  c ← get_search p;
  b ← require (s_buffer_ c);
  n ← require (deserialize CAPACITY junkE junkK b);
  match n with
  | NLeaf leaf =>
      found ← require (LeafNode.search (s_key c) leaf);
      search_done p (s_key c) found
  | NInner i =>
      index ← require (InnerNode.locate_child_index (s_key c) i);
      if (index <? 0)%Z then search_done p (s_key c) None
      else
        r ← require (InnerNode.child_rep_ i !! Z.to_nat index);
        _ ← put_search p (mk_search (s_key c) r (s_buffer_ c));
        jump p 0
  end.

Definition search_step (p : nat) : cmd outcome :=
  cb ← get_context p;
  let s := current_state cb in
  if (s =? 0)%Z then search_state_0 p
  else if (s =? 1)%Z then search_state_1 p
  else if (s =? 2)%Z then search_state_2 p
  else require None.

(** ** Running a context *)
Definition step (p : nat) : cmd outcome := λ s,
  match datas s !! p with
  | Some (CInsert _) => insert_step p s
  | Some (CSearch _) => search_step p s
  | None => None
  end.

(** [run], whose recursive calls the fuel bounds. *)
Fixpoint run (fuel : nat) (p : nat) : cmd outcome :=
  match fuel with
  | 0 => require None
  | S fuel' => r ← step p; match r with Again => run fuel' p | _ => mret r end
  end.

(** ** Requests *)
Definition asynchronous_with_callback (r : request) : cmd bool :=
  _ ← modify (λ s, with_requests (request_queue_ s ++ [r]) (pending_request_ s + 1) s);
  mret true.

Definition atomic_dequeue_request : cmd (option request) := λ s,
  match request_queue_ s with
  | [] => Some (None, s)
  | r :: q => Some (Some r, with_requests q (pending_request_ s) s)
  end.

Definition get_free_search_context : cmd nat := λ s,
  match free_search_contexts_ s with
  | [] => None
  | p :: rest => Some (p, with_pools (free_context_slots_ s) (free_insert_contexts_ s) rest s)
  end.
Definition get_free_insert_context : cmd nat := λ s,
  match free_insert_contexts_ s with
  | [] => None
  | p :: rest => Some (p, with_pools (free_context_slots_ s) rest (free_search_contexts_ s) s)
  end.

(** One iteration of [admission]: a free context is initialised for the
    request. *)
Definition admit_request (r : request) : cmd unit :=
  t ← get tree;
  p ← match r with
      | SEARCH_REQUEST key =>
          p ← get_free_search_context; c ← get_search p;
          _ ← put_search p (mk_search key (root_ t) (s_buffer_ c)); mret p
      | INSERT_REQUEST key val =>
          p ← get_free_insert_context; c ← get_insert p;
          _ ← put_insert p (init_insert key val (depth_ t) c); mret p
      end;
  g ← get context_id_generator_;
  _ ← update_call_back p (λ c, Some (set_id g (reset_state c)));
  _ ← modify (λ s, with_pools (free_context_slots_ s - 1) (free_insert_contexts_ s)
                     (free_search_contexts_ s) s);
  modify (λ s, with_admission (admission_contexts_ s ++ [p]) (g + 1) s).

(** The loop of [admission]: at most [max] requests, at most [free] contexts. *)
Fixpoint admission_loop (max : nat) (free : Z) : cmd nat :=
  match max with
  | 0 => mret 0
  | S max' =>
      if (free =? 0)%Z then mret 0 else
      r ← atomic_dequeue_request;
      match r with
      | None => mret 0
      | Some r => _ ← admit_request r; n ← admission_loop max' (free - 1); mret (S n)
      end
  end.

Definition admission (max : nat) : cmd nat :=
  free ← get free_context_slots_; admission_loop max free.

(** ** The scheduler *)
(** [compare], the order of the ready contexts. *)
Definition context_le (cs : list call_back_context) (x y : nat) : Prop :=
  match cs !! x, cs !! y with
  | Some l, Some r => if (tag l =? tag r)%Z then (id l ≤ id r)%Z else (tag l ≤ tag r)%Z
  | _, _ => True
  end.
#[global] Instance context_le_dec cs x y : Decision (context_le cs x y).
Proof. unfold context_le. destruct (cs !! x), (cs !! y); try apply _. destruct (_ =? _)%Z; apply _. Defined.

Fixpoint run_all (fuel : nat) (ps : list nat) : cmd nat :=
  match ps with
  | [] => mret 0
  | p :: ps' => _ ← run fuel p; n ← run_all fuel ps'; mret (S n)
  end.

(** [process_ready_contexts]: the contexts are taken out of the vector, sorted
    if asked for, then run. The first loop never advances [processed], so [max]
    only matters when it is 0. *)
Definition take_ready (sort : bool) (max : nat) (cs : list call_back_context) (l : list nat)
    : list nat * list nat :=
  let l := if sort then merge_sort (context_le cs) l else l in
  if 0 <? max then (l, []) else ([], l).

Definition process_new_context (fuel max : nat) : cmd nat :=
  l ← get admission_contexts_; g ← get context_id_generator_; cs ← get (λ s, contexts (wd (manager s)));
  let '(now, later) := take_ready false max cs l in
  _ ← modify (with_admission later g);
  run_all fuel now.

Definition process_blk_ready_context (fuel max : nat) (sort : bool) : cmd nat :=
  l ← get blk_ready_contexts; cs ← get (λ s, contexts (wd (manager s)));
  let '(now, later) := take_ready sort max cs l in
  _ ← modify (λ s, with_io (pending_contexts_ s) (pending_ids_ s) later s);
  run_all fuel now.

Definition process_barrier_ready_context (fuel max : nat) (sort : bool) : cmd nat :=
  l ← get (λ s, ready_contexts_ (wd (manager s))); cs ← get (λ s, contexts (wd (manager s)));
  let '(now, later) := take_ready sort max cs l in
  _ ← modify (λ s, with_manager (mk_manager (barrier_map_ (manager s))
                     (mk_world (contexts (wd (manager s))) later)) s);
  run_all fuel now.

Definition process_granularity : nat := 16.
Definition probe_granularity : nat := 128.

(** One round of [naive_scheduler::run]. *)
Definition naive_round (fuel : nat) (shuffle : list nat → list nat) : cmd unit :=
  _ ← admission process_granularity;
  _ ← process_new_context fuel process_granularity;
  _ ← process_blk_ready_context fuel process_granularity true;
  _ ← process_completion shuffle 0;
  _ ← process_barrier_ready_context fuel process_granularity true;
  mret tt.

(** One round of [latency_aware_scheduler::run]; [probe] is the decision its
    timer and the latency estimator take. *)
Definition latency_aware_round (fuel : nat) (shuffle : list nat → list nat) (probe : bool) : cmd unit :=
  _ ← admission process_granularity;
  _ ← process_new_context fuel process_granularity;
  _ ← process_blk_ready_context fuel process_granularity true;
  _ ← process_barrier_ready_context fuel process_granularity true;
  if probe then _ ← process_completion shuffle probe_granularity; mret tt else mret tt.

(** [create_free_contexts]: context 2i is an insert context, 2i+1 a search
    context; the stacks have the last one on top. *)
Definition new_pull_tree (queue_length : nat) (t : tree_state A) : pstate :=
  let ds := concat (replicate queue_length [CInsert new_insert_context; CSearch (mk_search 0 (-1) None)]) in
  mk_pstate t (mk_manager [] (mk_world (replicate (length ds) new_context) []))
    ds [] [] [] [] 0 (Z.of_nat queue_length)
    (rev ((λ i, 2 * i) <$> seq 0 queue_length)) (rev ((λ i, 2 * i + 1) <$> seq 0 queue_length)) [] 0 [].

End machine.

(** [terminated]: the loop of the scheduler ends. *)
Definition terminated {A} (flag : bool) (s : pstate A) : bool := flag && (pending_request_ s <=? 0)%Z.

End PullTree.
