(* ===== verification/TreeSpec.v ===== *)
(** The contract of the B+-tree: a finite map from keys to values. Each
    operation of the tree implements the corresponding operation on the map,
    and so does every sequence of operations. *)
From Stdlib Require Import ZArith Lia.
From stdpp Require Import base list gmap sorting numbers.
From S2P Require Import Prelude KV Leaf Inner Store Tree TreeRep TreeFoot TreeInsert TreeSearch TreeDelete TreeClose Alloc.

Section spec.
Context {A : Type} `{!Allocator A} `{!AllocatorLaws A}.
Context (CAPACITY : nat) (junkE : list (Z * Z)) (junkK : list Z) (oob : Z).
Implicit Types (st : tree_state A) (M : gmap Z Z).

(** ** Sequences of operations *)
Inductive op := OInsert (k v : Z) | ODelete (k : Z) | OSearch (k : Z).
Inductive result := RInsert | RDelete (deleted : bool) | RSearch (found : option Z).

Definition exec_op (o : op) st : option (result * tree_state A) :=
  match o with
  | OInsert k v => st' ← insert CAPACITY junkE junkK k v st; Some (RInsert, st')
  | ODelete k => '(b, st') ← tree_delete_key CAPACITY junkE junkK oob k st; Some (RDelete b, st')
  | OSearch k => v ← search CAPACITY junkE junkK k st; Some (RSearch v, st)
  end.

Fixpoint exec_ops (os : list op) st : option (list result * tree_state A) :=
  match os with
  | [] => Some ([], st)
  | o :: os' => '(r, st') ← exec_op o st; '(rs, st'') ← exec_ops os' st'; Some (r :: rs, st'')
  end.

(** The same operations on the map. *)
Definition spec_op (o : op) M : result * gmap Z Z :=
  match o with
  | OInsert k v => (RInsert, <[k := v]> M)
  | ODelete k => (RDelete (bool_decide (is_Some (M !! k))), delete k M)
  | OSearch k => (RSearch (M !! k), M)
  end.

Fixpoint spec_ops (os : list op) M : list result * gmap Z Z :=
  match os with
  | [] => ([], M)
  | o :: os' => let '(r, M') := spec_op o M in let '(rs, M'') := spec_ops os' M' in (r :: rs, M'')
  end.

Context (Hpar : params_ok CAPACITY junkE junkK).

Lemma keys_is_Some k l : k ∈ keys l ↔ is_Some (kv_find k l).
Proof.
  induction l as [|[x y] l IH]; simpl.
  - split; [intros Hk; by apply elem_of_nil in Hk|by intros [? ?]].
  - rewrite elem_of_cons, IH. destruct (Z.eqb_spec x k) as [->|]; [split; [by eauto|auto]|].
    split; [intros [?|?]; [congruence|done]|auto].
Qed.

Lemma insert_represents k v st M q :
  represents CAPACITY st M → room (alloc st) (depth_ st + 1 + q) →
  ∃ st', insert CAPACITY junkE junkK k v st = Some st' ∧
    represents CAPACITY st' (<[k := v]> M) ∧ room (alloc st') q ∧ depth_ st' ≤ depth_ st + 1.
Proof.
  intros (l & ids & Hok & <-) Hroom.
  pose proof (tree_ok_sorted _ _ _ _ Hok) as Hs.
  destruct (insert_ok CAPACITY junkE junkK Hpar k v st l ids q Hok Hroom) as (st' & ids' & E & Hok' & Hst & Hd).
  exists st'. split; [done|]. split; [exists (kv_insert k v l), ids'; by rewrite kv_map_insert|].
  split; [by apply step_ok_facts in Hst as (_ & _ & ? & _)|].
  done.
Qed.

Lemma delete_represents k st M q :
  represents CAPACITY st M → room (alloc st) q →
  ∃ st', tree_delete_key CAPACITY junkE junkK oob k st = Some (bool_decide (is_Some (M !! k)), st') ∧
    represents CAPACITY st' (delete k M) ∧ room (alloc st') q ∧ depth_ st' ≤ depth_ st.
Proof.
  intros (l & ids & Hok & <-) Hroom.
  pose proof (tree_ok_sorted _ _ _ _ Hok) as Hs.
  destruct (delete_ok CAPACITY junkE junkK oob Hpar k st l ids q Hok Hroom) as (st' & ids' & E & Hok' & Hst & Hd).
  exists st'. split.
  { rewrite E. do 2 f_equal. apply bool_decide_ext. rewrite kv_map_lookup. apply keys_is_Some. }
  split; [exists (kv_delete k l), ids'; by rewrite kv_map_delete|].
  split; [by apply step_ok_facts in Hst as (_ & _ & ? & _)|].
  done.
Qed.

Lemma search_represents k st M :
  represents CAPACITY st M → search CAPACITY junkE junkK k st = Some (M !! k).
Proof. intros (l & ids & Hok & <-). by eapply search_ok. Qed.

Lemma exec_ops_represents os : ∀ st M q,
  represents CAPACITY st M → room (alloc st) (length os * (depth_ st + length os + 1) + q) →
  ∃ st', exec_ops os st = Some ((spec_ops os M).1, st') ∧
    represents CAPACITY st' (spec_ops os M).2 ∧ room (alloc st') q.
Proof.
  induction os as [|o os IH]; intros st M q Hrep Hroom; simpl.
  { exists st. split_and!; [done|done|]. eapply room_le; [|exact Hroom]. simpl. lia. }
  set (n := length os) in *. simpl in Hroom. fold n in Hroom.
  assert (Hstep : ∃ r st1 M1, exec_op o st = Some (r, st1) ∧ spec_op o M = (r, M1) ∧
    represents CAPACITY st1 M1 ∧ room (alloc st1) (n * (depth_ st1 + n + 1) + q)).
  { destruct o as [k v|k|k]; simpl.
    - destruct (insert_represents k v st M (n * (depth_ st + n + 2) + q)) as (st1 & -> & H1 & H2 & H3);
        [done|eapply room_le; [|exact Hroom]; nia|].
      eexists _, _, _. split_and!; [done|done|done|]. eapply room_le; [|exact H2]. nia.
    - destruct (delete_represents k st M (n * (depth_ st + n + 1) + q)) as (st1 & -> & H1 & H2 & H3);
        [done|eapply room_le; [|exact Hroom]; nia|].
      eexists _, _, _. split_and!; [done|done|done|]. eapply room_le; [|exact H2]. nia.
    - rewrite (search_represents k st M) by done. simpl. eexists _, _, _. split_and!; [done|done|done|].
      eapply room_le; [|exact Hroom]. nia. }
  destruct Hstep as (r & st1 & M1 & -> & -> & H1 & H2). cbn [mbind option_bind].
  destruct (IH st1 M1 q H1 H2) as (st2 & -> & H3 & H4). cbn [mbind option_bind].
  exists st2. by destruct (spec_ops os M1).
Qed.

(** ** The claims *)
(** C2: [insert] of the tree implements insertion into a finite map: on every
    tree that represents [M], with room for one block per level and a new root,
    it returns, and the new tree represents [<[k := v]> M]. *)
Theorem insert_refines k v st M q :
  represents CAPACITY st M → room (alloc st) (depth_ st + 1 + q) →
  ∃ st', insert CAPACITY junkE junkK k v st = Some st' ∧
    represents CAPACITY st' (<[k := v]> M) ∧ room (alloc st') q ∧ depth_ st' ≤ depth_ st + 1.
Proof. apply insert_represents. Qed.

(** C17: [delete_key] returns whether the key was present and the new tree
    represents [delete k M]; the depth does not grow. *)
Theorem delete_refines k st M q :
  represents CAPACITY st M → room (alloc st) q →
  ∃ st', tree_delete_key CAPACITY junkE junkK oob k st = Some (bool_decide (is_Some (M !! k)), st') ∧
    represents CAPACITY st' (delete k M) ∧ room (alloc st') q ∧ depth_ st' ≤ depth_ st.
Proof. apply delete_represents. Qed.

(** [search] returns the value the map holds for the key, and [None] for a
    key that is not in the map. *)
Theorem search_refines k st M :
  represents CAPACITY st M → search CAPACITY junkE junkK k st = Some (M !! k).
Proof. apply search_represents. Qed.

(** C16: simulation: every sequence of insertions, deletions and searches on the
    tree returns what the same sequence on the map returns, and ends in a tree
    that represents the final map. *)
Theorem operations_refine os st M q :
  represents CAPACITY st M → room (alloc st) (length os * (depth_ st + length os + 1) + q) →
  ∃ st', exec_ops os st = Some ((spec_ops os M).1, st') ∧
    represents CAPACITY st' (spec_ops os M).2 ∧ room (alloc st') q.
Proof. apply exec_ops_represents. Qed.

(** C23: insertion and deletion are local: a block that is allocated but not
    part of the tree keeps its contents, and the allocator gains or loses only
    blocks of the tree. *)
Theorem operations_frame k v st l ids q :
  tree_ok CAPACITY st l ids → room (alloc st) (depth_ st + 1 + q) →
  (∃ st' ids', insert CAPACITY junkE junkK k v st = Some st' ∧ tree_ok CAPACITY st' (kv_insert k v l) ids' ∧
    (∀ j, j ∈ in_use (alloc st) → j ∉ ids → blocks st' !! j = blocks st !! j) ∧
    (∀ j, j ∈ in_use (alloc st') ↔ (j ∈ in_use (alloc st) ∧ j ∉ ids) ∨ j ∈ ids')) ∧
  (∃ b st' ids', tree_delete_key CAPACITY junkE junkK oob k st = Some (b, st') ∧
    tree_ok CAPACITY st' (kv_delete k l) ids' ∧
    (∀ j, j ∈ in_use (alloc st) → j ∉ ids → blocks st' !! j = blocks st !! j) ∧
    (∀ j, j ∈ in_use (alloc st') ↔ (j ∈ in_use (alloc st) ∧ j ∉ ids) ∨ j ∈ ids')).
Proof.
  intros Hok Hroom. split.
  - destruct (insert_ok CAPACITY junkE junkK Hpar k v st l ids q Hok Hroom) as (st' & ids' & E & Hok' & Hst & _).
    apply step_ok_facts in Hst as (H1 & _ & _ & H2). eauto 10.
  - destruct (delete_ok CAPACITY junkE junkK oob Hpar k st l ids 0 Hok) as (st' & ids' & E & Hok' & Hst & _).
    { eapply room_le; [|exact Hroom]. lia. }
    apply step_ok_facts in Hst as (H1 & _ & _ & H2). eauto 10.
Qed.

(** [init] creates a tree of one empty leaf, which represents the empty
    map. *)
Theorem init_refines m (a : A) q :
  alloc_wf a → room a (S q) →
  represents CAPACITY (init junkE m a) ∅ ∧ room (alloc (init junkE m a)) q ∧ depth_ (init junkE m a) = 1.
Proof.
  intros Hwf Hr. destruct (init_ok CAPACITY junkE junkK Hpar m a q Hwf Hr) as (id & Hok & Hst).
  split; [by exists [], [id]|]. split; [by apply step_ok_facts in Hst as (_ & _ & ? & _)|].
  unfold init. destruct (allocate a). by rewrite close_depth.
Qed.

(** C31: the iterator of [get_iterator] enumerates all entries of the map once,
    in increasing key order; [length ids] leaves bound the leaves one call of
    [next] can skip. *)
Theorem iterator_complete st M :
  represents CAPACITY st M →
  ∃ it l, get_iterator CAPACITY junkE junkK st = Some it ∧ ksorted (keys l) ∧ kv_map l = M ∧
    ∃ bound, ∀ calls fuel, length l < calls → bound ≤ fuel →
      drain CAPACITY junkE junkK calls fuel it st = Some l.
Proof.
  intros (l & ids & Hok & <-). destruct (iterator_ok CAPACITY junkE junkK Hpar st l ids Hok) as (it & E & H).
  exists it, l. split_and!; [done|by eapply tree_ok_sorted|done|]. exists (length ids). auto.
Qed.


(** C33: [close] gives back every block of the tree and nothing else, and
    [clear] leaves an empty tree of one block. *)
Theorem close_frees_all st l ids q :
  tree_ok CAPACITY st l ids → room (alloc st) (S q) →
  (∃ st', close_tree CAPACITY junkE junkK st = Some st' ∧
    ∀ j, j ∈ in_use (alloc st') ↔ j ∈ in_use (alloc st) ∧ j ∉ ids) ∧
  (∃ st' id, clear CAPACITY junkE junkK st = Some st' ∧ tree_ok CAPACITY st' [] [id] ∧
    ∀ j, j ∈ in_use (alloc st') ↔ j ∈ in_use (alloc st) ∧ j ∉ ids ∨ j = id).
Proof.
  intros Hok Hr. split.
  - destruct (close_ok CAPACITY junkE junkK Hpar st l ids (S q) Hok Hr) as (st' & E & Hst). exists st'.
    split; [done|]. apply step_ok_facts in Hst as (H & _). intros j. rewrite H, elem_of_nil. tauto.
  - destruct (clear_ok CAPACITY junkE junkK Hpar st l ids q Hok Hr) as (st' & id & E & Hok' & _ & H). eauto.
Qed.

End spec.

(** ** A concrete tree: capacity 4 on the allocator of the file accessor *)
Definition junkE4 : list (Z * Z) := replicate 4 (0, 0)%Z.
Definition junkK4 : list Z := replicate 4 0%Z.
Definition tree0 : tree_state file_allocator := init junkE4 ∅ (mk_file Alloc.new_allocator).

Lemma params4 : params_ok 4 junkE4 junkK4.
Proof. by split_and!; [lia|..]. Qed.

Lemma fresh_wf : alloc_wf (mk_file Alloc.new_allocator).
Proof. split; simpl; [lia|set_solver]. Qed.

Lemma room_concrete (a : file_allocator) n :
  bool_decide (Alloc.cursor_ (file_alloc a) + Z.of_nat n < 2 ^ 32)%Z = true → room a n.
Proof. intros H. by apply bool_decide_eq_true in H. Qed.

Lemma tree0_ok : tree_ok 4 tree0 [] [0%Z].
Proof.
  destruct (init_ok 4 junkE4 junkK4 params4 ∅ (mk_file Alloc.new_allocator) 100 fresh_wf) as (id & Hok & _).
  { by apply room_concrete. }
  assert (E : id = 0%Z).
  { destruct Hok as (_ & (f & Hrep) & _). apply rep_head in Hrep as (_ & rest & E). by simplify_eq/=. }
  by subst id.
Qed.

Lemma tree0_represents : represents 4 tree0 ∅.
Proof. exists [], [0%Z]. split; [apply tree0_ok|done]. Qed.

(** The tree after some operations. *)
Definition tree_of (os : list op) : tree_state file_allocator :=
  default tree0 (snd <$> exec_ops 4 junkE4 junkK4 0 os tree0).

Lemma tree_of_represents os :
  (Z.of_nat (length os * (length os + 2)) < 4000000000)%Z →
  represents 4 (tree_of os) (spec_ops os ∅).2.
Proof.
  intros Hn. destruct (exec_ops_represents 4 junkE4 junkK4 0 params4 os tree0 ∅ 0 tree0_represents)
    as (st & E & Hr & _).
  - change (depth_ tree0) with 1. set (n := length os) in *.
    change (1 + Z.of_nat (n * (1 + n + 1) + 0) < 4294967296)%Z. lia.
  - unfold tree_of. by rewrite E.
Qed.

(** Keys 10 to 90: three leaves under a root. *)
Definition tree9 : tree_state file_allocator :=
  tree_of ((λ i, OInsert i (i + 1)%Z) <$> [50; 20; 90; 10; 30; 80; 40; 60; 70]%Z).
Definition map9 : gmap Z Z :=
  (spec_ops ((λ i, OInsert i (i + 1)%Z) <$> [50; 20; 90; 10; 30; 80; 40; 60; 70]%Z) ∅).2.

Lemma tree9_represents : represents 4 tree9 map9.
Proof. apply tree_of_represents. simpl. lia. Qed.

Lemma insert_refines_witness :
  ∃ st', insert 4 junkE4 junkK4 7 70 tree9 = Some st' ∧ represents 4 st' (<[7%Z := 70%Z]> map9) ∧
    room (alloc st') 10 ∧ depth_ st' ≤ depth_ tree9 + 1.
Proof.
  apply (insert_refines 4 junkE4 junkK4 params4 7 70 tree9 map9 10).
  - apply tree9_represents.
  - by apply room_concrete.
Defined.

Lemma delete_refines_witness :
  ∃ st', tree_delete_key 4 junkE4 junkK4 0 20 tree9 = Some (bool_decide (is_Some (map9 !! 20%Z)), st') ∧
    represents 4 st' (delete 20%Z map9) ∧ room (alloc st') 10 ∧ depth_ st' ≤ depth_ tree9.
Proof.
  apply (delete_refines 4 junkE4 junkK4 0 params4 20 tree9 map9 10).
  - apply tree9_represents.
  - by apply room_concrete.
Defined.

Lemma search_refines_witness : search 4 junkE4 junkK4 40 tree9 = Some (map9 !! 40%Z).
Proof. apply (search_refines 4 junkE4 junkK4 params4 40 tree9 map9). apply tree9_represents. Defined.

(** Enough insertions to split leaves and inner nodes, then deletions that
    borrow and merge, with searches between them. *)
Definition sample_ops : list op :=
  ((λ i, OInsert i (i * 10)) <$> [8; 3; 12; 1; 5; 20; 15; 9; 2; 4; 11; 30; 25; 22; 7; 6; 40; 41; 42; 43]%Z) ++
  (OSearch <$> [1; 43; 10]%Z) ++ (ODelete <$> [3; 12; 1; 5; 99; 2; 4; 43; 42; 41]%Z) ++
  (OSearch <$> [8; 1; 41; 30]%Z).

Lemma operations_refine_witness :
  ∃ st', exec_ops 4 junkE4 junkK4 0 sample_ops tree0 = Some ((spec_ops sample_ops ∅).1, st') ∧
    represents 4 st' (spec_ops sample_ops ∅).2 ∧ room (alloc st') 10.
Proof.
  apply (operations_refine 4 junkE4 junkK4 0 params4 sample_ops tree0 ∅ 10).
  - apply tree0_represents.
  - by apply room_concrete.
Defined.

Lemma operations_frame_witness :
  (∃ st' ids', insert 4 junkE4 junkK4 7 70 tree0 = Some st' ∧ tree_ok 4 st' (kv_insert 7 70 []) ids' ∧
    (∀ j, j ∈ in_use (alloc tree0) → j ∉ [0%Z] → blocks st' !! j = blocks tree0 !! j) ∧
    (∀ j, j ∈ in_use (alloc st') ↔ (j ∈ in_use (alloc tree0) ∧ j ∉ [0%Z]) ∨ j ∈ ids')) ∧
  (∃ b st' ids', tree_delete_key 4 junkE4 junkK4 0 7 tree0 = Some (b, st') ∧
    tree_ok 4 st' (kv_delete 7 []) ids' ∧
    (∀ j, j ∈ in_use (alloc tree0) → j ∉ [0%Z] → blocks st' !! j = blocks tree0 !! j) ∧
    (∀ j, j ∈ in_use (alloc st') ↔ (j ∈ in_use (alloc tree0) ∧ j ∉ [0%Z]) ∨ j ∈ ids')).
Proof.
  apply (operations_frame 4 junkE4 junkK4 0 params4 7 70 tree0 [] [0%Z] 10).
  - apply tree0_ok.
  - by apply room_concrete.
Defined.

Lemma init_refines_witness :
  represents 4 tree0 ∅ ∧ room (alloc tree0) 10 ∧ depth_ tree0 = 1.
Proof.
  apply (init_refines 4 junkE4 junkK4 params4 ∅ (mk_file Alloc.new_allocator) 10).
  - apply fresh_wf.
  - by apply room_concrete.
Defined.

Lemma iterator_complete_witness :
  ∃ it l, get_iterator 4 junkE4 junkK4 tree9 = Some it ∧ ksorted (keys l) ∧ kv_map l = map9 ∧
    ∃ bound, ∀ calls fuel, length l < calls → bound ≤ fuel →
      drain 4 junkE4 junkK4 calls fuel it tree9 = Some l.
Proof. apply (iterator_complete 4 junkE4 junkK4 params4 tree9 map9). apply tree9_represents. Defined.


Lemma close_frees_all_witness :
  (∃ st', close_tree 4 junkE4 junkK4 tree0 = Some st' ∧
    ∀ j, j ∈ in_use (alloc st') ↔ j ∈ in_use (alloc tree0) ∧ j ∉ [0%Z]) ∧
  (∃ st' id, clear 4 junkE4 junkK4 tree0 = Some st' ∧ tree_ok 4 st' [] [id] ∧
    ∀ j, j ∈ in_use (alloc st') ↔ j ∈ in_use (alloc tree0) ∧ j ∉ [0%Z] ∨ j = id).
Proof.
  apply (close_frees_all 4 junkE4 junkK4 params4 tree0 [] [0%Z] 10).
  - apply tree0_ok.
  - by apply room_concrete.
Defined.

(** [range_search] does not test the result of [locate_key]: on a tree of
    depth two, a lower bound below the smallest key leaves the leaf reference
    unassigned and dereferences it. *)
Theorem range_search_below_leftmost :
  ∃ st, exec_ops 4 junkE4 junkK4 0 ((λ i, OInsert i i) <$> [10; 20; 30; 40; 50]%Z) tree0
          = Some (replicate 5 RInsert, st) ∧
    depth_ st = 2 ∧ range_search 4 junkE4 junkK4 5 60 st = None ∧
    is_Some (range_search 4 junkE4 junkK4 10 60 st).
Proof. eexists. split; [vm_compute; reflexivity|]. by vm_compute; eauto. Qed.
