(* ===== verification/IndexedList.v ===== *)
(** A [std::list] whose iterators stay valid, together with a hash map from keys
    to iterators: the data structure behind both the LRU cache
    (src/src/blk/lru.h) and the block cache (src/src/blk/blk_cache.h).

    A node of the list is a pair of its iterator (the identity of the node) and
    its element; a splice moves a node and keeps its iterator. *)
From Stdlib Require Import ZArith Lia.
From stdpp Require Import base list gmap sorting numbers.
From S2P Require Import Prelude.

Module IndexedList.

(** ** [std::list] *)
Section std_list.
Context {X : Type}.
Implicit Types (l : list (nat * X)) (it : nat).

Fixpoint deref it l : option X :=
  match l with
  | [] => None
  | (i, x) :: l' => if i =? it then Some x else deref it l'
  end.

(** An iterator that is not in the list is undefined behaviour: no result. *)
Fixpoint erase it l : option (list (nat * X)) :=
  match l with
  | [] => None
  | (i, x) :: l' => if i =? it then Some l' else cons (i, x) <$> erase it l'
  end.

(** [l.splice(l.begin(), l, it)] *)
Definition splice_front it l : option (list (nat * X)) :=
  x ← deref it l; l' ← erase it l; Some ((it, x) :: l').

(** [*it = f( *it)] *)
Definition assign it (f : X → X) l : list (nat * X) :=
  (λ n, if n.1 =? it then (n.1, f n.2) else n) <$> l.

(** A node of the list is found, removed, moved and updated in place. *)
Lemma deref_middle it x l1 l2 : it ∉ l1.*1 → deref it (l1 ++ (it, x) :: l2) = Some x.
Proof.
  induction l1 as [|[i y] l1 IH]; intros Hni; simpl; [by rewrite Nat.eqb_refl|].
  simpl in Hni. apply not_elem_of_cons in Hni as [Hne Hni].
  destruct (Nat.eqb_spec i it); [done|]. auto.
Qed.

Lemma erase_middle it x l1 l2 : it ∉ l1.*1 → erase it (l1 ++ (it, x) :: l2) = Some (l1 ++ l2).
Proof.
  induction l1 as [|[i y] l1 IH]; intros Hni; simpl; [by rewrite Nat.eqb_refl|].
  simpl in Hni. apply not_elem_of_cons in Hni as [Hne Hni].
  destruct (Nat.eqb_spec i it); [done|]. by rewrite IH.
Qed.

Lemma splice_front_middle it x l1 l2 :
  it ∉ l1.*1 → splice_front it (l1 ++ (it, x) :: l2) = Some ((it, x) :: l1 ++ l2).
Proof. intros Hni. unfold splice_front. by rewrite deref_middle, erase_middle. Qed.

Lemma assign_cons it f i x l :
  assign it f ((i, x) :: l) = (i, if i =? it then f x else x) :: assign it f l.
Proof. unfold assign. simpl. by destruct (i =? it). Qed.

Lemma assign_outside it f l : it ∉ l.*1 → assign it f l = l.
Proof.
  induction l as [|[i y] l IH]; intros Hni; [done|]. rewrite assign_cons. simpl in *.
  apply not_elem_of_cons in Hni as [Hne Hni]. destruct (Nat.eqb_spec i it); [done|]. by rewrite IH.
Qed.

Lemma assign_middle it f x l1 l2 :
  it ∉ l1.*1 → it ∉ l2.*1 → assign it f (l1 ++ (it, x) :: l2) = l1 ++ (it, f x) :: l2.
Proof.
  intros H1 H2. assert (Ha : assign it f (l1 ++ (it, x) :: l2) = assign it f l1 ++ assign it f ((it, x) :: l2))
    by apply fmap_app.
  by rewrite Ha, assign_cons, Nat.eqb_refl, !assign_outside.
Qed.

Lemma fmap_fst_assign it f l : (assign it f l).*1 = l.*1.
Proof. induction l as [|[i y] l IH]; [done|]. by rewrite assign_cons, !fmap_cons, IH. Qed.
End std_list.

(** ** The list and its index *)
Section index.
Context {K X : Type} `{Countable K} (key : X → K).
Implicit Types (l : list (nat * X)) (ix : gmap K nat) (it fresh : nat).

(** Iterators are distinct, [fresh] is none of them, and the index maps exactly
    the keys of the list to the iterators of their nodes. *)
Record linked (fresh : nat) (l : list (nat * X)) (ix : gmap K nat) : Prop := mk_linked {
  linked_nodup : NoDup l.*1;
  linked_fresh : ∀ it, it ∈ l.*1 → it < fresh;
  linked_index : ∀ k it, ix !! k = Some it ↔ ∃ x, (it, x) ∈ l ∧ key x = k }.

Lemma linked_empty n : linked n [] ∅.
Proof.
  split; [constructor|by intros it ?%elem_of_nil|]. intros k it. rewrite lookup_empty.
  split; [done|]. by intros (x & ?%elem_of_nil & _).
Qed.

(** A key of the index splits the list at its node. *)
Lemma linked_find n l ix k it :
  linked n l ix → ix !! k = Some it →
  ∃ l1 x l2, l = l1 ++ (it, x) :: l2 ∧ key x = k ∧ it ∉ l1.*1 ∧ it ∉ l2.*1.
Proof.
  intros [Hnd _ Hix] Hk. apply Hix in Hk as (x & Hin & Hx).
  apply list_elem_of_split in Hin as (l1 & l2 & ->). exists l1, x, l2.
  rewrite fmap_app, fmap_cons in Hnd. simpl in Hnd.
  apply list.NoDup_app in Hnd as (_ & Hd & Hnd). apply list.NoDup_cons in Hnd as [Hni _].
  split; [done|]. split; [done|]. split; [|done].
  intros Hin. apply (Hd it Hin). constructor.
Qed.

Lemma linked_none n l ix k : linked n l ix → ix !! k = None → ∀ it x, (it, x) ∈ l → key x ≠ k.
Proof.
  intros [_ _ Hix] Hk it x Hin Hx. assert (Hs : ix !! k = Some it) by (apply Hix; eauto). congruence.
Qed.

(** Keys are distinct too. *)
Lemma linked_keys n l ix : linked n l ix → NoDup (key <$> l.*2).
Proof.
  intros [Hnd _ Hix].
  assert (Hf : ∀ it1 x1 it2 x2, (it1, x1) ∈ l → (it2, x2) ∈ l → key x1 = key x2 → it1 = it2).
  { intros it1 x1 it2 x2 H1 H2 He. assert (E1 : ix !! key x1 = Some it1) by (apply Hix; eauto).
    assert (E2 : ix !! key x2 = Some it2) by (apply Hix; eauto). congruence. }
  clear Hix. induction l as [|[it x] l IH]; [constructor|]. simpl in *.
  apply list.NoDup_cons in Hnd as [Hni Hnd]. apply list.NoDup_cons. split.
  - intros Hin. apply list_elem_of_fmap in Hin as (y & Hy & Hin).
    apply list_elem_of_fmap in Hin as ([it' y'] & -> & Hin). simpl in Hy.
    assert (it = it') as <- by (eapply Hf; [constructor|by constructor|done]).
    apply Hni. apply list_elem_of_fmap. by exists (it, y').
  - apply IH; [done|]. intros. eapply Hf; [by constructor|by constructor|done].
Qed.

(** The order of the list does not matter. *)
Lemma linked_perm n l l' ix : linked n l ix → l ≡ₚ l' → linked n l' ix.
Proof.
  intros [Hnd Hfr Hix] Hp. split.
  - by rewrite <- Hp.
  - intros it. rewrite <- Hp. apply Hfr.
  - intros k it. rewrite Hix. by setoid_rewrite Hp.
Qed.

(** [push_front] of a new key. *)
Lemma linked_insert n l ix x :
  linked n l ix → ix !! key x = None → linked (S n) ((n, x) :: l) (<[key x := n]> ix).
Proof.
  intros Hl Hk. pose proof (linked_none _ _ _ _ Hl Hk) as Hno. destruct Hl as [Hnd Hfr Hix]. split.
  - simpl. apply list.NoDup_cons. split; [|done]. intros Hin%Hfr. lia.
  - simpl. intros it [->|Hin]%elem_of_cons; [lia|]. specialize (Hfr it Hin). lia.
  - intros k it. destruct (decide (k = key x)) as [->|Hne].
    + rewrite lookup_insert_eq. split.
      * intros [= <-]. exists x. split; [constructor|done].
      * intros (y & [[= -> ->]|Hin]%elem_of_cons & Hy); [done|]. by destruct (Hno it y).
    + rewrite lookup_insert_ne by done. rewrite Hix. split.
      * intros (y & Hin & Hy). exists y. split; [by constructor|done].
      * intros (y & [[= -> ->]|Hin]%elem_of_cons & Hy); [by destruct Hne|eauto].
Qed.

(** Removing a node and its key. *)
Lemma linked_remove n l1 it x l2 ix :
  linked n (l1 ++ (it, x) :: l2) ix → linked n (l1 ++ l2) (delete (key x) ix).
Proof.
  intros Hl. assert (Hp : linked n ((it, x) :: l1 ++ l2) ix).
  { eapply linked_perm; [done|]. symmetry. apply Permutation_middle. }
  pose proof (linked_keys _ _ _ Hp) as Hk. destruct Hp as [Hnd Hfr Hix]. simpl in *.
  apply list.NoDup_cons in Hnd as [Hni Hnd]. apply list.NoDup_cons in Hk as [Hk _]. split.
  - done.
  - intros it' Hin. apply Hfr. by constructor.
  - intros k it'. rewrite lookup_delete_Some, Hix. split.
    + intros (Hne & y & [[= -> ->]|Hin]%elem_of_cons & Hy); [done|eauto].
    + intros (y & Hin & Hy). split.
      * intros He. apply Hk. rewrite He, <- Hy. apply list_elem_of_fmap. exists y. split; [done|].
        apply list_elem_of_fmap. by exists (it', y).
      * exists y. split; [by constructor|done].
Qed.

(** Assigning to an element without changing its key. *)
Lemma linked_assign n l ix it f :
  linked n l ix → (∀ x, (it, x) ∈ l → key (f x) = key x) → linked n (assign it f l) ix.
Proof.
  intros [Hnd Hfr Hix] Hf. split.
  - by rewrite fmap_fst_assign.
  - intros it'. rewrite fmap_fst_assign. apply Hfr.
  - intros k it'. rewrite Hix. unfold assign. split.
    + intros (x & Hin & Hx). destruct (Nat.eqb_spec it' it) as [->|Hne].
      * exists (f x). split; [|by rewrite Hf]. apply list_elem_of_fmap. exists (it, x). simpl.
        by rewrite Nat.eqb_refl.
      * exists x. split; [|done]. apply list_elem_of_fmap. exists (it', x). simpl.
        by destruct (Nat.eqb_spec it' it).
    + intros (x & Hin & Hx). apply list_elem_of_fmap in Hin as ([i y] & He & Hin). simpl in He.
      destruct (Nat.eqb_spec i it) as [->|Hne]; simplify_eq; [|by eauto].
      exists y. split; [done|]. symmetry. by apply Hf.
Qed.

(** The index has as many keys as the list has nodes. *)
Lemma linked_size n l : ∀ ix, linked n l ix → size ix = length l.
Proof.
  induction l as [|[it x] l IH]; intros ix Hl.
  - destruct Hl as [_ _ Hix]. apply map_size_empty_iff, map_eq. intros k. rewrite lookup_empty.
    destruct (ix !! k) as [it|] eqn:E; [|done]. apply Hix in E as (x & ?%elem_of_nil & _). done.
  - pose proof (linked_remove n [] it x l ix Hl) as Hr. simpl in Hr. apply IH in Hr.
    assert (Hk : ix !! key x = Some it).
    { destruct Hl as [_ _ Hix]. apply Hix. exists x. split; [constructor|done]. }
    simpl. rewrite <- Hr, map_size_delete, Hk. assert (size ix ≠ 0); [|lia].
    apply map_size_non_empty_iff. intros ->. by rewrite lookup_empty in Hk.
Qed.

End index.
End IndexedList.
