(* ===== verification/Lru.v ===== *)
(** The LRU cache of src/src/blk/lru.h: a list of key/value nodes in order of
    use and an index from keys to nodes, refining a list of key/value pairs
    with distinct keys, most recently used first. *)
From Stdlib Require Import ZArith Lia.
From stdpp Require Import base list gmap sorting numbers.
From S2P Require Import Prelude IndexedList.

Module Lru.
Import IndexedList.

Definition SIZE_T : Z := 18446744073709551616.

Section lru.
Context {Key Value : Type} `{!EqDecision Key, !Countable Key}.

(** ** The data structure *)
Record KeyValuePair := mk_pair { key : Key; value : Value }.

Record lru := mk_lru {
  cache_ : gmap Key nat;
  keys_ : list (nat * KeyValuePair);
  next_node : nat;
  maxSize_ : Z;
  elasticity_ : Z }.

Definition with_lists (c : gmap Key nat) (l : list (nat * KeyValuePair)) (n : nat) (s : lru) : lru :=
  mk_lru c l n (maxSize_ s) (elasticity_ s).

Definition new_lru (maxSize elasticity : Z) : lru := mk_lru ∅ [] 0 maxSize elasticity.

(** [size], [empty], [clear] *)
Definition lru_size (s : lru) : nat := size (cache_ s).
Definition empty (s : lru) : bool := lru_size s =? 0.
Definition clear (s : lru) : lru := with_lists ∅ [] (next_node s) s.
Definition contains (k : Key) (s : lru) : bool := bool_decide (is_Some (cache_ s !! k)).

Definition getMaxAllowedSize (s : lru) : Z := ((maxSize_ s + elasticity_ s) mod SIZE_T)%Z.

(** The loop of [prune]; each round removes a node, so the length of the list
    bounds the number of rounds. [back] of an empty list has no result. *)
Fixpoint prune_loop (fuel : nat) (s : lru) (count : Z) : option (Z * lru) :=
  if (Z.of_nat (size (cache_ s)) <=? maxSize_ s)%Z then Some (count, s)
  else
    match fuel with
    | 0 => None
    | S fuel' =>
        b ← list.last (keys_ s);
        prune_loop fuel'
          (with_lists (delete (key b.2) (cache_ s)) (removelast (keys_ s)) (next_node s) s) (count + 1)%Z
    end.

Definition prune (s : lru) : option (Z * lru) :=
  let maxAllowed := getMaxAllowedSize s in
  if (maxSize_ s =? 0)%Z || (Z.of_nat (size (cache_ s)) <? maxAllowed)%Z then Some (0%Z, s)
  else prune_loop (length (keys_ s)) s 0.

Definition insert (k : Key) (v : Value) (s : lru) : option lru :=
  match cache_ s !! k with
  | Some it =>
      let l := assign it (λ x, mk_pair (key x) v) (keys_ s) in
      l ← splice_front it l;
      Some (with_lists (cache_ s) l (next_node s) s)
  | None =>
      let it := next_node s in
      snd <$> prune (with_lists (<[k := it]> (cache_ s)) ((it, mk_pair k v) :: keys_ s) (S it) s)
  end.

(** [tryGet]: the outer option is undefined behaviour, the inner one a miss. *)
Definition tryGet (k : Key) (s : lru) : option (option Value * lru) :=
  match cache_ s !! k with
  | None => Some (None, s)
  | Some it =>
      l ← splice_front it (keys_ s);
      x ← deref it l;
      Some (Some (value x), with_lists (cache_ s) l (next_node s) s)
  end.

Inductive exn := KeyNotFound.

(** [get] and [getCopy] throw on a miss. *)
Definition get (k : Key) (s : lru) : option ((exn + Value) * lru) :=
  match cache_ s !! k with
  | None => Some (inl KeyNotFound, s)
  | Some it =>
      l ← splice_front it (keys_ s);
      x ← deref it l;
      Some (inr (value x), with_lists (cache_ s) l (next_node s) s)
  end.

Definition remove (k : Key) (s : lru) : option (bool * lru) :=
  match cache_ s !! k with
  | None => Some (false, s)
  | Some it =>
      l ← erase it (keys_ s);
      Some (true, with_lists (delete k (cache_ s)) l (next_node s) s)
  end.

(** [cwalk]: a fold over the nodes, most recently used first. *)
Definition cwalk {S} (f : S → KeyValuePair → S) (a : S) (s : lru) : S := foldl f a (keys_ s).*2.

(** ** The specification *)
Definition forget (k : Key) (l : list (Key * Value)) : list (Key * Value) :=
  filter (λ p, p.1 ≠ k) l.

Fixpoint assoc (k : Key) (l : list (Key * Value)) : option Value :=
  match l with
  | [] => None
  | (k', v) :: l' => if decide (k' = k) then Some v else assoc k l'
  end.

(** A hit moves the pair to the front. *)
Definition touch (k : Key) (l : list (Key * Value)) : list (Key * Value) :=
  match assoc k l with None => l | Some v => (k, v) :: forget k l end.

(** A new key evicts the least recently used pairs, down to [max], when the
    cache has reached [max + el] pairs; 0 stands for no limit. *)
Definition spec_insert (max el : nat) (k : Key) (v : Value) (l : list (Key * Value)) : list (Key * Value) :=
  match assoc k l with
  | Some _ => (k, v) :: forget k l
  | None =>
      let l := (k, v) :: l in
      if (max =? 0) || (length l <? max + el) then l else take max l
  end.

(** ** Refinement *)
Definition to_pair (x : KeyValuePair) : Key * Value := (key x, value x).
Definition contents (s : lru) : list (Key * Value) := to_pair <$> (keys_ s).*2.
Definition lru_ok (s : lru) : Prop :=
  linked key (next_node s) (keys_ s) (cache_ s) ∧ (0 ≤ maxSize_ s)%Z ∧ (0 ≤ elasticity_ s)%Z ∧
  (maxSize_ s + elasticity_ s < SIZE_T)%Z.

Lemma contents_app l1 it x l2 :
  to_pair <$> (l1 ++ (it, x) :: l2 : list (nat * KeyValuePair)).*2 =
    (to_pair <$> l1.*2) ++ to_pair x :: (to_pair <$> l2.*2).
Proof. by rewrite !fmap_app. Qed.

Lemma contents_keys s : lru_ok s → NoDup (contents s).*1.
Proof.
  intros (Hl & _). pose proof (linked_keys key _ _ _ Hl) as Hk. unfold contents.
  rewrite <- list_fmap_compose. erewrite list_fmap_ext; [exact Hk|done].
Qed.

Lemma assoc_None k l : k ∉ l.*1 → assoc k l = None.
Proof.
  induction l as [|[k' v] l IH]; intros Hni; [done|]. simpl in *.
  apply not_elem_of_cons in Hni as [Hne Hni]. rewrite decide_False by done. auto.
Qed.

Lemma forget_outside k l : k ∉ l.*1 → forget k l = l.
Proof.
  induction l as [|[k' v] l IH]; intros Hni; [done|]. simpl in Hni.
  apply not_elem_of_cons in Hni as [Hne Hni]. unfold forget in *. rewrite filter_cons.
  rewrite decide_True by (simpl; congruence). by rewrite IH.
Qed.

Lemma assoc_middle k v l1 l2 : k ∉ l1.*1 → assoc k (l1 ++ (k, v) :: l2) = Some v.
Proof.
  induction l1 as [|[k' v'] l1 IH]; intros Hni; simpl; [by rewrite decide_True|].
  simpl in Hni. apply not_elem_of_cons in Hni as [Hne Hni]. rewrite decide_False by done. auto.
Qed.

Lemma forget_middle k v l1 l2 :
  k ∉ l1.*1 → k ∉ l2.*1 → forget k (l1 ++ (k, v) :: l2) = l1 ++ l2.
Proof.
  intros H1 H2. unfold forget. rewrite list.filter_app, filter_cons.
  rewrite decide_False by (by intros ?). fold (forget k l1) (forget k l2).
  by rewrite !forget_outside.
Qed.

(** What a hit sees: the node, and the specification's view of it. *)
Lemma lru_hit s k it :
  lru_ok s → cache_ s !! k = Some it →
  ∃ l1 v l2, keys_ s = l1 ++ (it, mk_pair k v) :: l2 ∧ it ∉ l1.*1 ∧ it ∉ l2.*1 ∧
    assoc k (contents s) = Some v ∧
    forget k (contents s) = (to_pair <$> l1.*2) ++ (to_pair <$> l2.*2).
Proof.
  intros Hok Hk. pose proof (contents_keys s Hok) as Hnd. destruct Hok as (Hl & _).
  destruct (linked_find key _ _ _ _ _ Hl Hk) as (l1 & [k' v] & l2 & El & Ek & H1 & H2).
  simpl in Ek. subst k'. exists l1, v, l2. split; [done|]. split; [done|]. split; [done|].
  unfold contents in *. rewrite El, contents_app in *. simpl in *.
  rewrite fmap_app, fmap_cons in Hnd. simpl in Hnd.
  apply list.NoDup_app in Hnd as (_ & Hd & Hnd). apply list.NoDup_cons in Hnd as [Hn2 _].
  assert (Hn1 : k ∉ (to_pair <$> l1.*2).*1) by (intros Hin; apply (Hd k Hin); constructor).
  split; [by apply assoc_middle|by apply forget_middle].
Qed.

Lemma lru_miss s k : lru_ok s → cache_ s !! k = None → assoc k (contents s) = None ∧ k ∉ (contents s).*1.
Proof.
  intros (Hl & _) Hk. assert (Hni : k ∉ (contents s).*1).
  { unfold contents. intros Hin. apply list_elem_of_fmap in Hin as (p & -> & Hin).
    apply list_elem_of_fmap in Hin as (x & -> & Hin).
    apply list_elem_of_fmap in Hin as ([it x'] & -> & Hin).
    by apply (linked_none key _ _ _ _ Hl Hk it x'). }
  split; [by apply assoc_None|done].
Qed.

(** Moving a node to the front. *)
Lemma move_ok s k v l1 it l2 v' :
  lru_ok s → keys_ s = l1 ++ (it, mk_pair k v) :: l2 → it ∉ l1.*1 → it ∉ l2.*1 →
  lru_ok (with_lists (cache_ s) ((it, mk_pair k v') :: l1 ++ l2) (next_node s) s).
Proof.
  intros (Hl & Hm) El H1 H2. split; [|done]. simpl. rewrite El in Hl.
  eapply (linked_assign key _ _ _ it (λ x, mk_pair (key x) v')) in Hl; [|done].
  rewrite assign_middle in Hl by done. eapply linked_perm; [exact Hl|]. simpl.
  symmetry. apply Permutation_middle.
Qed.

Lemma tryGet_ok k s :
  lru_ok s → ∃ s', tryGet k s = Some (assoc k (contents s), s') ∧ lru_ok s' ∧
    contents s' = touch k (contents s) ∧ maxSize_ s' = maxSize_ s ∧ elasticity_ s' = elasticity_ s.
Proof.
  intros Hok. unfold tryGet, touch. destruct (cache_ s !! k) as [it|] eqn:Ek.
  - destruct (lru_hit s k it Hok Ek) as (l1 & v & l2 & El & H1 & H2 & -> & Hf).
    rewrite El, splice_front_middle by done. simpl. rewrite Nat.eqb_refl. simpl.
    eexists. split; [done|]. split; [by eapply move_ok|]. split; [|done].
    rewrite Hf. unfold contents. simpl. by rewrite !fmap_app.
  - destruct (lru_miss s k Hok Ek) as [-> _]. by exists s.
Qed.

Lemma lru_get_ok k s :
  lru_ok s → ∃ s', get k s = Some (match assoc k (contents s) with
                                   | Some v => inr v | None => inl KeyNotFound end, s') ∧
    lru_ok s' ∧ contents s' = touch k (contents s) ∧ maxSize_ s' = maxSize_ s ∧ elasticity_ s' = elasticity_ s.
Proof.
  intros Hok. destruct (tryGet_ok k s Hok) as (s' & Ht & Hs'). unfold tryGet, get in *.
  destruct (cache_ s !! k) as [it|].
  - destruct (splice_front it (keys_ s)) as [l|]; [|done]. simpl in *.
    destruct (deref it l) as [x|]; [|done]. simpl in *. injection Ht as <- <-. eauto.
  - injection Ht as <- <-. eauto.
Qed.

Lemma remove_ok k s :
  lru_ok s → ∃ s', remove k s = Some (bool_decide (is_Some (assoc k (contents s))), s') ∧ lru_ok s' ∧
    contents s' = forget k (contents s) ∧ maxSize_ s' = maxSize_ s ∧ elasticity_ s' = elasticity_ s.
Proof.
  intros Hok. unfold remove. destruct (cache_ s !! k) as [it|] eqn:Ek.
  - destruct (lru_hit s k it Hok Ek) as (l1 & v & l2 & El & H1 & H2 & -> & Hf).
    rewrite El, erase_middle by done. simpl. eexists. split; [done|]. split; [|split; [|done]].
    + destruct Hok as (Hl & Hm). split; [|done]. simpl. rewrite El in Hl. by apply linked_remove in Hl.
    + rewrite Hf. unfold contents. simpl. by rewrite !fmap_app.
  - destruct (lru_miss s k Hok Ek) as [-> Hni]. exists s. split; [done|]. split; [done|].
    split; [|done]. by rewrite forget_outside.
Qed.

Lemma contains_ok k s : lru_ok s → contains k s = bool_decide (is_Some (assoc k (contents s))).
Proof.
  intros Hok. unfold contains. destruct (cache_ s !! k) as [it|] eqn:Ek.
  - by destruct (lru_hit s k it Hok Ek) as (l1 & v & l2 & _ & _ & _ & -> & _).
  - by destruct (lru_miss s k Hok Ek) as [-> _].
Qed.

Lemma size_contents s : lru_ok s → lru_size s = length (contents s).
Proof.
  intros (Hl & _). unfold lru_size, contents. rewrite (linked_size key _ _ _ Hl). by rewrite !length_fmap.
Qed.

(** [prune] keeps the [maxSize_] most recently used pairs. *)
Lemma prune_loop_ok fuel : ∀ s count,
  lru_ok s → length (keys_ s) ≤ fuel →
  ∃ n s', prune_loop fuel s count = Some (n, s') ∧ lru_ok s' ∧
    contents s' = take (Z.to_nat (maxSize_ s)) (contents s) ∧
    maxSize_ s' = maxSize_ s ∧ elasticity_ s' = elasticity_ s.
Proof.
  induction fuel as [|fuel IH]; intros s count Hok Hlen; pose proof (size_contents s Hok) as Hsz;
    unfold lru_size in Hsz; simpl; destruct (Z.leb_spec (Z.of_nat (size (cache_ s))) (maxSize_ s)).
  1, 3: exists count, s; split; [done|]; split; [done|]; split; [|done];
    rewrite take_ge; [done|lia].
  all: destruct Hok as (Hl & H0 & He & Hmax); pose proof (linked_size key _ _ _ Hl) as Hsl.
  { lia. }
  destruct (keys_ s) as [|a l0 _] eqn:El using rev_ind; [simpl in *; lia|].
  rewrite last_snoc. cbn [mbind option_bind]. rewrite removelast_last.
  destruct a as [it x]. cbn [snd]. rewrite length_app in Hlen. simpl in Hlen.
  destruct (IH (with_lists (delete (key x) (cache_ s)) l0 (next_node s) s) (count + 1)%Z)
    as (n & s' & -> & Hok' & Hc & Hm & Hel).
  - split; [|done]. simpl. apply linked_remove in Hl. by rewrite app_nil_r in Hl.
  - simpl. lia.
  - exists n, s'. split; [done|]. split; [done|]. split; [|done]. rewrite Hc. unfold contents. simpl.
    rewrite El, !fmap_app, take_app_le; [done|]. rewrite !length_fmap.
    rewrite length_app in Hsl. simpl in Hsl. lia.
Qed.

Lemma lru_insert_ok k v s :
  lru_ok s → ∃ s', insert k v s = Some s' ∧ lru_ok s' ∧
    contents s' = spec_insert (Z.to_nat (maxSize_ s)) (Z.to_nat (elasticity_ s)) k v (contents s) ∧
    maxSize_ s' = maxSize_ s ∧ elasticity_ s' = elasticity_ s.
Proof.
  intros Hok. unfold insert, spec_insert. destruct (cache_ s !! k) as [it|] eqn:Ek.
  - destruct (lru_hit s k it Hok Ek) as (l1 & v0 & l2 & El & H1 & H2 & -> & Hf).
    rewrite El, assign_middle, splice_front_middle by done. simpl.
    eexists. split; [done|]. split; [by eapply move_ok|]. split; [|done].
    rewrite Hf. unfold contents. simpl. by rewrite !fmap_app.
  - destruct (lru_miss s k Hok Ek) as [-> _]. pose proof Hok as (Hl & H0 & He & Hmax).
    set (s1 := with_lists _ _ _ s).
    assert (Hok1 : lru_ok s1).
    { split; [|done]. simpl. by apply (linked_insert key _ _ _ (mk_pair k v)). }
    pose proof (size_contents s1 Hok1) as Hsz. unfold lru_size in Hsz.
    assert (Hc1 : contents s1 = (k, v) :: contents s) by done.
    unfold prune, getMaxAllowedSize. simpl maxSize_. simpl elasticity_. rewrite Z.mod_small by lia.
    rewrite Hsz, Hc1.
    replace ((Z.to_nat (maxSize_ s) =? 0) || _)
      with ((maxSize_ s =? 0)%Z || (Z.of_nat (length ((k, v) :: contents s)) <? maxSize_ s + elasticity_ s)%Z).
    2: { f_equal; [destruct (Z.eqb_spec (maxSize_ s) 0), (Nat.eqb_spec (Z.to_nat (maxSize_ s)) 0); lia|].
         destruct (Z.ltb_spec (Z.of_nat (length ((k, v) :: contents s))) (maxSize_ s + elasticity_ s)),
           (Nat.ltb_spec (length ((k, v) :: contents s)) (Z.to_nat (maxSize_ s) + Z.to_nat (elasticity_ s))); lia. }
    destruct (_ || _); simpl.
    + by exists s1.
    + destruct (prune_loop_ok (S (length (keys_ s))) s1 0 Hok1) as (n & s' & Hp & Hs' & Hc' & Hm' & He'); [done|].
      change (S (length (keys_ s))) with (length (keys_ s1)) in Hp. simpl in Hp. rewrite Hp. simpl.
      exists s'. split; [done|]. split; [done|]. split; [|done]. by rewrite Hc', Hc1.
Qed.

(** ** Sequences of operations *)
Inductive op :=
  | Insert (k : Key) (v : Value) | TryGet (k : Key) | Get (k : Key) | Remove (k : Key)
  | Contains (k : Key) | Clear | Size | Empty.

Inductive result :=
  | Unit | Found (v : option Value) | Thrown | Flag (b : bool) | Count (n : nat).

Definition exec (o : op) (s : lru) : option (result * lru) :=
  match o with
  | Insert k v => s ← insert k v s; Some (Unit, s)
  | TryGet k => '(r, s) ← tryGet k s; Some (Found r, s)
  | Get k => '(r, s) ← get k s; Some (match r with inl _ => Thrown | inr v => Found (Some v) end, s)
  | Remove k => '(r, s) ← remove k s; Some (Flag r, s)
  | Contains k => Some (Flag (contains k s), s)
  | Clear => Some (Unit, clear s)
  | Size => Some (Count (lru_size s), s)
  | Empty => Some (Flag (empty s), s)
  end.

Definition spec_exec (max el : nat) (o : op) (l : list (Key * Value)) : result * list (Key * Value) :=
  match o with
  | Insert k v => (Unit, spec_insert max el k v l)
  | TryGet k => (Found (assoc k l), touch k l)
  | Get k => (match assoc k l with Some v => Found (Some v) | None => Thrown end, touch k l)
  | Remove k => (Flag (bool_decide (is_Some (assoc k l))), forget k l)
  | Contains k => (Flag (bool_decide (is_Some (assoc k l))), l)
  | Clear => (Unit, [])
  | Size => (Count (length l), l)
  | Empty => (Flag (length l =? 0), l)
  end.

Fixpoint exec_all (os : list op) (s : lru) : option (list result * lru) :=
  match os with
  | [] => Some ([], s)
  | o :: os' => '(r, s) ← exec o s; '(rs, s) ← exec_all os' s; Some (r :: rs, s)
  end.

Fixpoint spec_exec_all (max el : nat) (os : list op) (l : list (Key * Value))
    : list result * list (Key * Value) :=
  match os with
  | [] => ([], l)
  | o :: os' =>
      let '(r, l) := spec_exec max el o l in
      let '(rs, l) := spec_exec_all max el os' l in (r :: rs, l)
  end.

Lemma lru_exec_ok o s :
  lru_ok s →
  let '(r, l) := spec_exec (Z.to_nat (maxSize_ s)) (Z.to_nat (elasticity_ s)) o (contents s) in
  ∃ s', exec o s = Some (r, s') ∧ lru_ok s' ∧ contents s' = l ∧
    maxSize_ s' = maxSize_ s ∧ elasticity_ s' = elasticity_ s.
Proof.
  intros Hok. destruct o as [k v|k|k|k|k| | |]; simpl.
  - destruct (lru_insert_ok k v s Hok) as (s' & -> & Hs'). simpl. eauto.
  - destruct (tryGet_ok k s Hok) as (s' & -> & Hs'). simpl. eauto.
  - destruct (lru_get_ok k s Hok) as (s' & -> & Hs'). simpl. exists s'. by destruct (assoc k (contents s)).
  - destruct (remove_ok k s Hok) as (s' & -> & Hs'). simpl. eauto.
  - rewrite contains_ok by done. eauto 10.
  - exists (clear s). split; [done|]. split; [|done]. destruct Hok as (_ & Hm). split; [|done].
    apply linked_empty.
  - rewrite size_contents by done. eauto 10.
  - unfold empty. rewrite size_contents by done. eauto 10.
Qed.

Lemma lru_exec_all_ok os : ∀ s,
  lru_ok s →
  let '(rs, l) := spec_exec_all (Z.to_nat (maxSize_ s)) (Z.to_nat (elasticity_ s)) os (contents s) in
  ∃ s', exec_all os s = Some (rs, s') ∧ lru_ok s' ∧ contents s' = l ∧ 
    maxSize_ s' = maxSize_ s ∧ elasticity_ s' = elasticity_ s.
Proof.
  induction os as [|o os IH]; intros s Hok; simpl; [eauto 10|].
  pose proof (lru_exec_ok o s Hok) as Ho. destruct (spec_exec _ _ o (contents s)) as [r l].
  destruct Ho as (s1 & -> & Hok1 & <- & Hm1 & He1). specialize (IH s1 Hok1). rewrite Hm1, He1 in IH.
  destruct (spec_exec_all _ _ os (contents s1)) as [rs l']. simpl.
  destruct IH as (s2 & -> & Hok2 & Hl2 & Hm2 & He2). simpl. eauto 10.
Qed.

Lemma new_lru_ok max el :
  (0 ≤ max)%Z → (0 ≤ el)%Z → (max + el < SIZE_T)%Z → lru_ok (new_lru max el) ∧ contents (new_lru max el) = [].
Proof. intros Hm He Hb. split; [|done]. split; [apply linked_empty|done]. Qed.

(** The cache stays within its limit. *)
Lemma length_forget k l : length (forget k l) ≤ length l.
Proof. apply length_filter. Qed.

Lemma length_touch k l : NoDup l.*1 → length (touch k l) ≤ length l.
Proof.
  intros Hnd. unfold touch. destruct (assoc k l) as [v|] eqn:E; [|done].
  assert (Hin : k ∈ l.*1).
  { destruct (decide (k ∈ l.*1)) as [|Hni]; [done|]. by rewrite assoc_None in E. }
  apply list_elem_of_fmap in Hin as ([k' v'] & -> & Hin).
  apply list_elem_of_split in Hin as (l1 & l2 & ->).
  rewrite fmap_app, fmap_cons in Hnd. simpl in *.
  apply list.NoDup_app in Hnd as (_ & Hd & Hnd). apply list.NoDup_cons in Hnd as [Hn2 _].
  rewrite forget_middle; [rewrite !length_app; simpl; lia| |done].
  intros Hin. apply (Hd k' Hin). constructor.
Qed.

Definition bound (max el : nat) : nat := max + (el - 1).

Lemma spec_exec_bound max el o l :
  0 < max → NoDup l.*1 → length l ≤ bound max el → length (spec_exec max el o l).2 ≤ bound max el.
Proof.
  intros Hmax Hnd Hl. pose proof (λ k, length_touch k l Hnd) as Ht.
  destruct o as [k v|k|k|k|k| | |]; simpl; try done; try (specialize (Ht k); lia).
  - unfold spec_insert. specialize (Ht k). unfold touch in Ht.
    destruct (assoc k l); simpl in *; [lia|].
    destruct (Nat.eqb_spec max 0); [lia|]. simpl.
    destruct (Nat.ltb_spec (S (length l)) (max + el)); simpl; [unfold bound; lia|].
    rewrite length_take. unfold bound. lia.
  - pose proof (length_forget k l). lia.
  - lia.
Qed.

Lemma exec_all_bound os : ∀ s rs s',
  lru_ok s → (0 < maxSize_ s)%Z →
  lru_size s ≤ bound (Z.to_nat (maxSize_ s)) (Z.to_nat (elasticity_ s)) →
  exec_all os s = Some (rs, s') → lru_size s' ≤ bound (Z.to_nat (maxSize_ s)) (Z.to_nat (elasticity_ s)).
Proof.
  induction os as [|o os IH]; intros s rs s' Hok Hm Hb He; simpl in He; [by simplify_eq|].
  pose proof (lru_exec_ok o s Hok) as Ho.
  pose proof (spec_exec_bound (Z.to_nat (maxSize_ s)) (Z.to_nat (elasticity_ s)) o (contents s)) as Hsb.
  destruct (spec_exec _ _ o (contents s)) as [r l].
  destruct Ho as (s1 & He1 & Hok1 & Hl & Hm1 & Hel1). rewrite He1 in He. simpl in *.
  destruct (exec_all os s1) as [[rs' s2]|] eqn:E; simplify_eq/=.
  specialize (IH s1 rs' s' Hok1). rewrite Hm1, Hel1, (size_contents s1) in IH by done.
  apply IH; [done| |done]. rewrite size_contents in Hb by done.
  apply Hsb; [lia|by apply contents_keys|done].
Qed.

End lru.
End Lru.

(** ** The properties *)
(** For every limit and every sequence of operations (insert, tryGet, get,
    remove, contains, clear, size, empty), the cache returns (no dangling
    iterator is followed) and answers like the list of pairs in order of use,
    from which a new key evicts the least recently used pairs once the limit is
    reached. With a limit it never holds more than maxSize + elasticity - 1 pairs
    (maxSize when there is no elasticity). *)
Theorem lru_refines (max el : Z) (os : list (@Lru.op Z Z)) :
  (0 ≤ max)%Z → (0 ≤ el)%Z → (max + el < Lru.SIZE_T)%Z →
  ∃ s, Lru.exec_all os (Lru.new_lru max el) =
         Some ((Lru.spec_exec_all (Z.to_nat max) (Z.to_nat el) os []).1, s) ∧
       Lru.contents s = (Lru.spec_exec_all (Z.to_nat max) (Z.to_nat el) os []).2 ∧
       ((0 < max)%Z → Lru.lru_size s ≤ Lru.bound (Z.to_nat max) (Z.to_nat el)).
Proof.
  intros Hm He Hb. destruct (Lru.new_lru_ok (Key := Z) (Value := Z) max el Hm He Hb) as [Hok Hc].
  pose proof (Lru.lru_exec_all_ok os _ Hok) as Ho. rewrite Hc in Ho. simpl in Ho.
  destruct (Lru.spec_exec_all _ _ os []) as [rs l]. destruct Ho as (s & He' & _ & Hs & _).
  exists s. split_and!; [done|done|]. intros Hpos.
  apply (Lru.exec_all_bound os (Lru.new_lru max el) rs s Hok Hpos); [apply Nat.le_0_l|done].
Qed.

Lemma lru_refines_witness :
  ∃ s, Lru.exec_all [Lru.Insert 1 10; Lru.Insert 2 20; Lru.TryGet 1; Lru.Insert 3 30; Lru.Get 2]%Z
         (Lru.new_lru 2 1) = Some ([Lru.Unit; Lru.Unit; Lru.Found (Some 10); Lru.Unit; Lru.Thrown]%Z, s) ∧
       Lru.contents s = [(3, 30); (1, 10)]%Z ∧ ((0 < 2)%Z → Lru.lru_size s ≤ 2).
Proof.
  exact (lru_refines 2 1 [Lru.Insert 1 10; Lru.Insert 2 20; Lru.TryGet 1; Lru.Insert 3 30; Lru.Get 2]%Z
           ltac:(lia) ltac:(lia) ltac:(reflexivity)).
Defined.
