(* ===== verification/BlkCache.v ===== *)
(** The block cache (src/src/blk/blk_cache.h): units with a block id, a dirty
    flag and a pointer to a buffer, in order of use, with an index and a pool of
    buffers that are recycled. It refines a list of (id, (dirty, content)), most
    recently used first; the buffers of the units, of the pool and of the
    evicted units that callers still hold are pairwise different.

    [D] is the content of a block. The statistics counters are kept as integers
    without a width. *)
From Stdlib Require Import ZArith Lia.
From stdpp Require Import base list gmap sorting numbers.
From S2P Require Import Prelude IndexedList Lru.

Module BlkCache.
Import IndexedList.

Record cache_unit := mk_unit { u_id : Z; dirty : bool; data : nat }.

Section cache.
Context {D : Type}.

(** ** The data structure *)
(** [heap] and [next_ptr] are the memory of the buffers: an uninitialised
    buffer has no content. *)
Record blk_cache := mk_cache {
  capacity_ : Z;
  size_ : Z;
  cache_ : gmap Z nat;
  key_ : list (nat * cache_unit);
  next_node : nat;
  free_blocks_ : list nat;
  heap : gmap nat D;
  next_ptr : nat;
  read_hits_ : Z; read_probes_ : Z;
  write_hits_ : Z; write_probes_ : Z }.

Definition new_cache (capacity : Z) : blk_cache := mk_cache capacity 0 ∅ [] 0 [] ∅ 0 0 0 0 0.

Definition with_units (n : Z) (ix : gmap Z nat) (l : list (nat * cache_unit)) (k : nat) (c : blk_cache)
    : blk_cache :=
  mk_cache (capacity_ c) n ix l k (free_blocks_ c) (heap c) (next_ptr c)
    (read_hits_ c) (read_probes_ c) (write_hits_ c) (write_probes_ c).
Definition with_pool (f : list nat) (h : gmap nat D) (p : nat) (c : blk_cache) : blk_cache :=
  mk_cache (capacity_ c) (size_ c) (cache_ c) (key_ c) (next_node c) f h p
    (read_hits_ c) (read_probes_ c) (write_hits_ c) (write_probes_ c).
Definition with_stats (rh rp wh wp : Z) (c : blk_cache) : blk_cache :=
  mk_cache (capacity_ c) (size_ c) (cache_ c) (key_ c) (next_node c) (free_blocks_ c) (heap c) (next_ptr c)
    rh rp wh wp.

Definition count_read (hit : Z) (c : blk_cache) : blk_cache :=
  with_stats (read_hits_ c + hit) (read_probes_ c + 1) (write_hits_ c) (write_probes_ c) c.
Definition count_write (hit : Z) (c : blk_cache) : blk_cache :=
  with_stats (read_hits_ c) (read_probes_ c) (write_hits_ c + hit) (write_probes_ c + 1) c.

(** ** The operations *)
(** [allocate_block]: the last buffer of the pool, or a new one. *)
Definition allocate_block (c : blk_cache) : nat * blk_cache :=
  match list.last (free_blocks_ c) with
  | None => (next_ptr c, with_pool [] (heap c) (S (next_ptr c)) c)
  | Some p => (p, with_pool (removelast (free_blocks_ c)) (heap c) (next_ptr c) c)
  end.

Definition free_block (p : nat) (c : blk_cache) : blk_cache :=
  with_pool (free_blocks_ c ++ [p]) (heap c) (next_ptr c) c.

Definition memcpy (p : nat) (d : D) (c : blk_cache) : blk_cache :=
  with_pool (free_blocks_ c) (<[p := d]> (heap c)) (next_ptr c) c.

Definition insert_new_unit (u : cache_unit) (c : blk_cache) : blk_cache :=
  with_units (size_ c + 1) (<[u_id u := next_node c]> (cache_ c)) ((next_node c, u) :: key_ c)
    (S (next_node c)) c.

Definition evict_unit (c : blk_cache) : option (cache_unit * blk_cache) :=
  b ← list.last (key_ c);
  Some (b.2, with_units (size_ c - 1) (delete (u_id b.2) (cache_ c)) (removelast (key_ c)) (next_node c) c).

(** [get]: the unit is moved to the front and returned by value. *)
Definition get (id : Z) (c : blk_cache) : option (cache_unit * blk_cache) :=
  it ← cache_ c !! id;
  l ← splice_front it (key_ c);
  u ← deref it l;
  Some (u, with_units (size_ c) (cache_ c) l (next_node c) c).

(** [write]; the unit that is evicted, if any, belongs to the caller then. On a
    hit the dirty flag is set in the copy that [get] returned. *)
Definition write (id : Z) (buffer : D) (dty : bool) (c : blk_cache) : option (option cache_unit * blk_cache) :=
  match cache_ c !! id with
  | None =>
      let c := count_write 0 c in
      let '(p, c) := allocate_block c in
      let c := insert_new_unit (mk_unit id dty p) c in
      if (capacity_ c <? size_ c)%Z then
        '(u, c) ← evict_unit c; Some (Some u, memcpy p buffer c)
      else Some (None, memcpy p buffer c)
  | Some _ =>
      '(u, c) ← get id (count_write 1 c);
      Some (None, memcpy (data u) buffer c)
  end.

(** [read]: the content, if the block is cached. *)
Definition read (id : Z) (c : blk_cache) : option (option D * blk_cache) :=
  match cache_ c !! id with
  | None => Some (None, count_read 0 c)
  | Some _ =>
      '(u, c) ← get id (count_read 1 c);
      d ← heap c !! data u;
      Some (Some d, c)
  end.

Definition is_cached (id : Z) (c : blk_cache) : bool := bool_decide (is_Some (cache_ c !! id)).

Definition invalidate (id : Z) (c : blk_cache) : option (bool * blk_cache) :=
  match cache_ c !! id with
  | None => Some (false, c)
  | Some it =>
      u ← deref it (key_ c);
      l ← erase it (key_ c);
      Some (true, with_units (size_ c - 1) (delete id (cache_ c)) l (next_node c) (free_block (data u) c))
  end.

Definition mark_flushed (id : Z) (c : blk_cache) : blk_cache :=
  match cache_ c !! id with
  | None => c
  | Some it =>
      with_units (size_ c) (cache_ c) (assign it (λ u, mk_unit (u_id u) false (data u)) (key_ c))
        (next_node c) c
  end.

(** [get_dirty_cache], in some order of the hash map. *)
Definition get_dirty_cache (c : blk_cache) : list cache_unit :=
  omap (λ p, u ← deref p.2 (key_ c); if dirty u then Some u else None) (map_to_list (cache_ c)).

(** ** The specification *)
Local Abbreviation entry := (Z * (bool * D))%type.

Definition spec_write (capacity : nat) (id : Z) (d : D) (dty : bool) (es : list entry)
    : option entry * list entry :=
  match Lru.assoc id es with
  | Some (dt, _) => (None, (id, (dt, d)) :: Lru.forget id es)
  | None =>
      let es := (id, (dty, d)) :: es in
      if capacity <? length es then (list.last es, removelast es) else (None, es)
  end.

(** ** The invariant *)
(** [out] are the buffers of evicted units that callers still hold. *)
Record cache_ok (out : list nat) (c : blk_cache) : Prop := mk_cache_ok {
  ok_linked : linked u_id (next_node c) (key_ c) (cache_ c);
  ok_size : size_ c = Z.of_nat (length (key_ c));
  ok_buffers : NoDup ((data <$> (key_ c).*2) ++ free_blocks_ c ++ out);
  ok_fresh : ∀ p, p ∈ (data <$> (key_ c).*2) ++ free_blocks_ c ++ out → p < next_ptr c;
  ok_heap : ∀ u, u ∈ (key_ c).*2 → is_Some (heap c !! data u) }.

(** The abstraction: the units with the content of their buffers. *)
Definition entry_of (h : gmap nat D) (u : cache_unit) : option entry :=
  d ← h !! data u; Some (u_id u, (dirty u, d)).
Definition ents (h : gmap nat D) (l : list (nat * cache_unit)) : list entry := omap (entry_of h) l.*2.
Definition entries (c : blk_cache) : list entry := ents (heap c) (key_ c).

Lemma omap_fmap_total {X Y Z'} (f : X → option Y) (g : Y → Z') (g' : X → Z') (l : list X) :
  (∀ x, x ∈ l → ∃ y, f x = Some y ∧ g y = g' x) → g <$> omap f l = g' <$> l.
Proof.
  induction l as [|x l IH]; intros Hl; [done|]. destruct (Hl x) as (y & Hy & Hg); [constructor|].
  simpl. rewrite Hy. simpl. rewrite Hg. f_equal. apply IH. intros x' Hx'. apply Hl. by constructor.
Qed.

Lemma entries_ids out c : cache_ok out c → (entries c).*1 = u_id <$> (key_ c).*2.
Proof.
  intros [_ _ _ _ Hh]. apply omap_fmap_total. intros u Hu. destruct (Hh u Hu) as [d Hd].
  unfold entry_of. rewrite Hd. simpl. eauto.
Qed.

Lemma entries_length out c : cache_ok out c → length (entries c) = length (key_ c).
Proof.
  intros Hok. transitivity (length (entries c).*1); [symmetry; apply length_fmap|].
  rewrite (entries_ids out c Hok). by rewrite !length_fmap.
Qed.

Lemma entries_nodup out c : cache_ok out c → NoDup (entries c).*1.
Proof. intros Hok. rewrite (entries_ids _ _ Hok). destruct Hok as [Hl _ _ _ _]. by eapply linked_keys. Qed.

Lemma ents_app h l1 l2 : ents h (l1 ++ l2) = ents h l1 ++ ents h l2.
Proof. unfold ents. by rewrite fmap_app, omap_app. Qed.

Lemma ents_unit h it u l :
  ents h ((it, u) :: l) =
    match h !! data u with Some d => (u_id u, (dirty u, d)) :: ents h l | None => ents h l end.
Proof. unfold ents. simpl. unfold entry_of at 1. by destruct (h !! data u). Qed.

Lemma ents_cons h it u d l : h !! data u = Some d → ents h ((it, u) :: l) = (u_id u, (dirty u, d)) :: ents h l.
Proof. intros Hd. by rewrite ents_unit, Hd. Qed.

(** Writing a buffer of no unit changes no entry. *)
Lemma ents_insert p d h l : p ∉ data <$> l.*2 → ents (<[p := d]> h) l = ents h l.
Proof.
  induction l as [|[it u] l IH]; intros Hp; [done|]. rewrite !fmap_cons in Hp.
  apply not_elem_of_cons in Hp as [Hne Hp]. simpl in Hne.
  by rewrite !ents_unit, IH, lookup_insert_ne.
Qed.

(** ** Hits and misses *)
Lemma cache_hit out c id it :
  cache_ok out c → cache_ c !! id = Some it →
  ∃ l1 u l2 d, key_ c = l1 ++ (it, u) :: l2 ∧ u_id u = id ∧ it ∉ l1.*1 ∧ it ∉ l2.*1 ∧
    data u ∉ data <$> (l1 ++ l2).*2 ∧ heap c !! data u = Some d ∧
    Lru.assoc id (entries c) = Some (dirty u, d) ∧ Lru.forget id (entries c) = ents (heap c) (l1 ++ l2).
Proof.
  intros Hok Hid. pose proof (entries_nodup out c Hok) as Hnd. destruct Hok as [Hl _ Hb _ Hh].
  destruct (linked_find u_id _ _ _ _ _ Hl Hid) as (l1 & u & l2 & El & Eu & H1 & H2).
  destruct (Hh u) as [d Hd].
  { rewrite El. apply list_elem_of_fmap. exists (it, u). split; [done|]. set_solver. }
  exists l1, u, l2, d. split; [done|]. split; [done|]. split; [done|]. split; [done|]. split.
  { rewrite El in Hb. apply list.NoDup_app in Hb as (Hb & _ & _).
    assert (Hp : (data <$> (l1 ++ (it, u) :: l2).*2) ≡ₚ data u :: (data <$> (l1 ++ l2).*2)).
    { by rewrite <- Permutation_middle. }
    rewrite Hp in Hb. by apply list.NoDup_cons in Hb as [Hb _]. }
  split; [done|]. unfold entries in *. rewrite El, ents_app, (ents_cons _ _ _ d), Eu in * by done.
  rewrite fmap_app, fmap_cons in Hnd. simpl in Hnd.
  apply list.NoDup_app in Hnd as (_ & Hdis & Hnd). apply list.NoDup_cons in Hnd as [Hn2 _].
  assert (Hn1 : id ∉ (ents (heap c) l1).*1) by (intros Hin; apply (Hdis id Hin); constructor).
  split; [by apply Lru.assoc_middle|]. by rewrite Lru.forget_middle, ents_app.
Qed.

Lemma cache_miss out c id : cache_ok out c → cache_ c !! id = None → Lru.assoc id (entries c) = None ∧ id ∉ (entries c).*1.
Proof.
  intros Hok Hid. assert (Hni : id ∉ (entries c).*1).
  { rewrite (entries_ids _ _ Hok). intros Hin. apply list_elem_of_fmap in Hin as (u & -> & Hin).
    apply list_elem_of_fmap in Hin as ([it u'] & -> & Hin). destruct Hok as [Hl _ _ _ _].
    by apply (linked_none u_id _ _ _ _ Hl Hid it u'). }
  split; [by apply Lru.assoc_None|done].
Qed.

(** ** Preservation *)
Lemma memcpy_ok out p d c : cache_ok out c → cache_ok out (memcpy p d c).
Proof.
  intros [H1 H2 H3 H4 H5]. split; try done. simpl. intros u Hu. destruct (decide (p = data u)) as [<-|Hne].
  - rewrite lookup_insert_eq. by eexists.
  - rewrite lookup_insert_ne by done. auto.
Qed.

(** Moving the unit of a hit to the front. *)
Lemma cache_get_ok out c id it :
  cache_ok out c → cache_ c !! id = Some it →
  ∃ u d l c', get id c = Some (u, c') ∧ cache_ok out c' ∧ heap c' = heap c ∧ capacity_ c' = capacity_ c ∧
    key_ c' = (it, u) :: l ∧ u_id u = id ∧ data u ∉ data <$> l.*2 ∧ heap c !! data u = Some d ∧
    Lru.assoc id (entries c) = Some (dirty u, d) ∧ Lru.forget id (entries c) = ents (heap c) l ∧
    (∀ p, p ∈ out → p ≠ data u).
Proof.
  intros Hok Hid. destruct (cache_hit out c id it Hok Hid) as (l1 & u & l2 & d & El & Eu & H1 & H2 & Hb & Hd & Ha & Hf).
  exists u, d, (l1 ++ l2). unfold get. rewrite Hid. simpl. rewrite El, splice_front_middle by done. simpl.
  rewrite Nat.eqb_refl. simpl. eexists. split; [done|].
  destruct Hok as [Hl Hs Hbuf Hfr Hh]. rewrite El in *.
  assert (Hp : l1 ++ (it, u) :: l2 ≡ₚ (it, u) :: l1 ++ l2) by (symmetry; apply Permutation_middle).
  split; [split; simpl|].
  - by eapply linked_perm.
  - rewrite Hs. by rewrite Hp.
  - rewrite Hp in Hbuf. done.
  - intros p Hin. apply Hfr. rewrite Hp. done.
  - intros u' Hu'. apply Hh. by rewrite Hp.
  - split_and!; try done. intros p Hout ->. apply list.NoDup_app in Hbuf as (_ & Hdis & _).
    apply (Hdis (data u)); [|set_solver]. rewrite Hp. simpl. constructor.
Qed.

(** A hit of [write] replaces the content and keeps the old flag. *)
Lemma write_hit_ok out c id it d dty :
  cache_ok out c → cache_ c !! id = Some it →
  ∃ c', write id d dty c = Some (None, c') ∧ cache_ok out c' ∧ capacity_ c' = capacity_ c ∧
    (None, entries c') = spec_write (Z.to_nat (capacity_ c)) id d dty (entries c) ∧
    (∀ p, p ∈ out → heap c' !! p = heap c !! p).
Proof.
  intros Hok Hid. unfold write, spec_write. rewrite Hid.
  assert (Hok1 : cache_ok out (count_write 1 c)) by (by destruct Hok).
  destruct (cache_get_ok out (count_write 1 c) id it Hok1 Hid)
    as (u & d0 & l & c' & -> & Hok' & Hh & Hcap & Hk & Hu & Hl & Hd & Ha & Hf & Hout).
  change (entries (count_write 1 c)) with (entries c) in *. rewrite Ha. simpl.
  eexists. split; [done|]. split; [by apply memcpy_ok|]. split; [done|]. split.
  - f_equal. rewrite Hf. unfold entries. simpl. rewrite Hk, Hh.
    rewrite (ents_cons _ _ _ d) by apply lookup_insert_eq. by rewrite ents_insert, Hu.
  - intros p Hp. simpl. rewrite Hh. rewrite lookup_insert_ne; [done|]. intros He. by apply (Hout p Hp).
Qed.

(** A buffer from the pool or a new one is not in use. *)
Lemma allocate_block_ok out c p c' :
  cache_ok out c → allocate_block c = (p, c') →
  cache_ok (p :: out) c' ∧ heap c' = heap c ∧ key_ c' = key_ c ∧ cache_ c' = cache_ c ∧
    capacity_ c' = capacity_ c ∧ size_ c' = size_ c ∧ next_node c' = next_node c ∧ p ∉ out ∧ p ∉ data <$> (key_ c).*2.
Proof.
  intros [H1 H2 H3 H4 H5]. unfold allocate_block.
  destruct (free_blocks_ c) as [|b f _] eqn:Ef using rev_ind.
  - intros [= <- <-]. split.
    + split; try done; simpl.
      * assert (Hn : next_ptr c ∉ (data <$> (key_ c).*2) ++ out) by (intros Hin%H4; lia).
        assert (Hp : (data <$> (key_ c).*2) ++ next_ptr c :: out ≡ₚ next_ptr c :: (data <$> (key_ c).*2) ++ out)
          by solve_Permutation.
        rewrite Hp. by apply list.NoDup_cons.
      * intros p Hin. assert (Hp : p = next_ptr c ∨ p ∈ (data <$> (key_ c).*2) ++ out) by set_solver.
        destruct Hp as [->|Hp]; [lia|]. specialize (H4 p Hp). lia.
    + simpl. split_and!; try done; intros Hin.
      * assert (Hlt : next_ptr c < next_ptr c) by (apply H4; set_solver). lia.
      * assert (Hlt : next_ptr c < next_ptr c) by (apply H4; set_solver). lia.
  - rewrite last_snoc, removelast_last. intros [= <- <-].
    assert (Hp : (data <$> (key_ c).*2) ++ (f ++ [b]) ++ out ≡ₚ (data <$> (key_ c).*2) ++ f ++ b :: out)
      by solve_Permutation.
    split.
    + split; try done; simpl; [by rewrite <- Hp|]. intros p Hin. apply H4. by rewrite Hp.
    + simpl. split_and!; try done; intros Hin.
      * rewrite Hp in H3. apply list.NoDup_app in H3 as (_ & _ & H3).
        apply list.NoDup_app in H3 as (_ & _ & H3). by apply list.NoDup_cons in H3 as [? _].
      * apply list.NoDup_app in H3 as (_ & H3 & _). apply (H3 b Hin). set_solver.
Qed.

(** A new unit whose buffer is filled. *)
Lemma insert_new_unit_ok out c id p dty d :
  cache_ok (p :: out) c → p ∉ out → p ∉ data <$> (key_ c).*2 → cache_ c !! id = None →
  cache_ok out (memcpy p d (insert_new_unit (mk_unit id dty p) c)) ∧
  entries (memcpy p d (insert_new_unit (mk_unit id dty p) c)) = (id, (dty, d)) :: entries c.
Proof.
  intros [H1 H2 H3 H4 H5] Hp Hp' Hid. split.
  - split; simpl.
    + by apply (linked_insert u_id _ _ _ (mk_unit id dty p)).
    + rewrite H2. lia.
    + assert (Hq : p :: (data <$> (key_ c).*2) ++ free_blocks_ c ++ out
        ≡ₚ (data <$> (key_ c).*2) ++ free_blocks_ c ++ p :: out) by solve_Permutation.
      by rewrite Hq.
    + intros q Hq. apply H4. set_solver.
    + intros u Hu. apply elem_of_cons in Hu as [->|Hu]; simpl.
      * rewrite lookup_insert_eq. by eexists.
      * destruct (decide (p = data u)) as [<-|Hne]; [rewrite lookup_insert_eq; by eexists|].
        rewrite lookup_insert_ne by done. auto.
  - unfold entries. simpl. rewrite (ents_cons _ _ _ d) by apply lookup_insert_eq.
    by rewrite ents_insert.
Qed.

(** The least recently used unit leaves the cache; its buffer is the caller's. *)
Lemma evict_unit_ok out c :
  cache_ok out c → key_ c ≠ [] →
  ∃ u d c', evict_unit c = Some (u, c') ∧ cache_ok (data u :: out) c' ∧ heap c' = heap c ∧
    capacity_ c' = capacity_ c ∧ heap c !! data u = Some d ∧
    entries c = entries c' ++ [(u_id u, (dirty u, d))].
Proof.
  intros [H1 H2 H3 H4 H5] Hne. unfold evict_unit, entries.
  destruct (key_ c) as [|[it u] l _] eqn:Ek using rev_ind; [done|].
  destruct (H5 u) as [d Hd].
  { apply list_elem_of_fmap. exists (it, u). split; [done|]. set_solver. }
  rewrite last_snoc. simpl. exists u, d. eexists. split; [done|]. rewrite removelast_last.
  assert (Hp : (data <$> (l ++ [(it, u)]).*2) ++ free_blocks_ c ++ out
    ≡ₚ (data <$> l.*2) ++ free_blocks_ c ++ data u :: out).
  { rewrite !fmap_app. simpl. solve_Permutation. }
  split; [split; simpl|].
  - apply linked_remove in H1. by rewrite app_nil_r in H1.
  - rewrite length_app in H2. simpl in H2. lia.
  - by rewrite <- Hp.
  - intros p Hin. apply H4. by rewrite Hp.
  - intros u' Hu'. apply H5. rewrite fmap_app. set_solver.
  - split; [done|]. split; [done|]. split; [done|]. simpl. rewrite ents_app. f_equal.
    by rewrite (ents_cons _ _ _ d).
Qed.

Lemma evict_memcpy p d c :
  evict_unit (memcpy p d c) = ('(u, c') ← evict_unit c; Some (u, memcpy p d c')).
Proof. unfold evict_unit. simpl. by destruct (list.last (key_ c)). Qed.

Definition held_buffers (r : option cache_unit) : list nat :=
  match r with Some u => [data u] | None => [] end.

(** [write] refines its specification and leaves the buffers of callers alone. *)
Lemma blk_write_ok out c id d dty :
  cache_ok out c →
  ∃ r c', write id d dty c = Some (r, c') ∧ cache_ok (held_buffers r ++ out) c' ∧
    capacity_ c' = capacity_ c ∧
    match r with
    | None => spec_write (Z.to_nat (capacity_ c)) id d dty (entries c) = (None, entries c')
    | Some u => ∃ d', heap c' !! data u = Some d' ∧
        spec_write (Z.to_nat (capacity_ c)) id d dty (entries c) = (Some (u_id u, (dirty u, d')), entries c')
    end ∧
    (∀ p, p ∈ out → heap c' !! p = heap c !! p).
Proof.
  intros Hok. destruct (cache_ c !! id) as [it|] eqn:Hid.
  { destruct (write_hit_ok out c id it d dty Hok Hid) as (c' & -> & Hok' & Hcap & Hs & Hout). eauto 10. }
  destruct (cache_miss out c id Hok Hid) as [Ha _]. unfold write, spec_write. rewrite Hid, Ha.
  assert (Hok1 : cache_ok out (count_write 0 c)) by (by destruct Hok).
  destruct (allocate_block (count_write 0 c)) as [p c1] eqn:Eal.
  destruct (allocate_block_ok out _ p c1 Hok1 Eal) as (Hok2 & Hh & Hk & Hix & Hcap & Hsz & _ & Hpo & Hpk).
  destruct (insert_new_unit_ok out c1 id p dty d) as [Hok3 He]; [done|done|by rewrite Hk|by rewrite Hix|].
  set (c2 := insert_new_unit _ c1) in *.
  assert (Hec : entries c1 = entries c) by (unfold entries; rewrite Hh, Hk; done). rewrite Hec in He.
  assert (Hfr : ∀ q, q ∈ out → heap (memcpy p d c2) !! q = heap c !! q).
  { intros q Hq. simpl. rewrite lookup_insert_ne by (intros ->; done). by rewrite Hh. }
  assert (Hc2 : capacity_ c2 = capacity_ c) by (by simpl; rewrite Hcap).
  assert (Hs2 : size_ c2 = Z.of_nat (length ((id, (dty, d)) :: entries c))).
  { rewrite <- He, (entries_length _ _ Hok3). exact (ok_size _ _ Hok3). }
  rewrite Hc2, Hs2.
  replace (Z.to_nat (capacity_ c) <? _) with (capacity_ c <? Z.of_nat (length ((id, (dty, d)) :: entries c)))%Z.
  2: { simpl length. destruct (Z.ltb_spec (capacity_ c) (Z.of_nat (S (length (entries c))))),
         (Nat.ltb_spec (Z.to_nat (capacity_ c)) (S (length (entries c)))); lia. }
  destruct (_ <? _)%Z.
  - destruct (evict_unit_ok out (memcpy p d c2) Hok3) as (u & d' & c3 & Hev & Hok4 & Hh4 & Hcap4 & Hd' & He4); [done|].
    rewrite evict_memcpy in Hev. destruct (evict_unit c2) as [[u' c4]|]; simplify_eq/=.
    eexists (Some u), _. split; [done|]. split; [done|]. split; [simpl; congruence|]. split.
    + exists d'. split; [simpl; by rewrite Hh4|].
      change (match entries c with [] => [] | _ :: _ => (id, (dty, d)) :: removelast (entries c) end)
        with (removelast ((id, (dty, d)) :: entries c)).
      by rewrite <- He, He4, last_snoc, removelast_last.
    + intros q Hq. rewrite <- Hfr by done. simpl. by rewrite Hh4.
  - eexists None, _. split; [done|]. split; [done|]. split; [done|]. split; [by rewrite He|done].
Qed.

Lemma blk_read_ok out c id :
  cache_ok out c →
  ∃ c', read id c = Some (snd <$> Lru.assoc id (entries c), c') ∧ cache_ok out c' ∧
    capacity_ c' = capacity_ c ∧ entries c' = Lru.touch id (entries c) ∧ heap c' = heap c.
Proof.
  intros Hok. unfold read, Lru.touch. destruct (cache_ c !! id) as [it|] eqn:Hid.
  - assert (Hok1 : cache_ok out (count_read 1 c)) by (by destruct Hok).
    destruct (cache_get_ok out (count_read 1 c) id it Hok1 Hid)
      as (u & d0 & l & c' & -> & Hok' & Hh & Hcap & Hk & Hu & Hl & Hd & Ha & Hf & Hout).
    change (entries (count_read 1 c)) with (entries c) in *. rewrite Ha. simpl. rewrite Hh, Hd. simpl.
    exists c'. split; [done|]. split; [done|]. split; [done|]. split; [|done].
    rewrite Hf. unfold entries. rewrite Hk, Hh, (ents_cons _ _ _ d0) by done. by rewrite Hu.
  - destruct (cache_miss out c id Hok Hid) as [-> _]. eexists. split; [done|]. split; [by destruct Hok|done].
Qed.

Lemma free_block_ok out p c : cache_ok (p :: out) c → cache_ok out (free_block p c).
Proof.
  intros [H1 H2 H3 H4 H5].
  assert (Hp : (data <$> (key_ c).*2) ++ free_blocks_ c ++ p :: out
    ≡ₚ (data <$> (key_ c).*2) ++ (free_blocks_ c ++ [p]) ++ out) by solve_Permutation.
  split; try done; simpl; [by rewrite <- Hp|]. intros q Hq. apply H4. by rewrite Hp.
Qed.

Lemma invalidate_ok out c id :
  cache_ok out c →
  ∃ c', invalidate id c = Some (bool_decide (is_Some (Lru.assoc id (entries c))), c') ∧ cache_ok out c' ∧
    capacity_ c' = capacity_ c ∧ entries c' = Lru.forget id (entries c) ∧ heap c' = heap c.
Proof.
  intros Hok. unfold invalidate. destruct (cache_ c !! id) as [it|] eqn:Hid.
  - destruct (cache_hit out c id it Hok Hid) as (l1 & u & l2 & d & El & Eu & H1 & H2 & Hb & Hd & Ha & Hf).
    rewrite El, deref_middle, erase_middle by done. simpl. rewrite Ha. eexists. split; [done|].
    assert (Hp : l1 ++ (it, u) :: l2 ≡ₚ (it, u) :: l1 ++ l2) by (symmetry; apply Permutation_middle).
    split; [|split; [done|split; [|done]]].
    + destruct Hok as [Hl Hs Hbuf Hfr Hh]. rewrite El in *.
      assert (Hq : (data <$> (l1 ++ (it, u) :: l2).*2) ++ free_blocks_ c ++ out
        ≡ₚ (data <$> (l1 ++ l2).*2) ++ (free_blocks_ c ++ [data u]) ++ out).
      { rewrite Hp. simpl. solve_Permutation. }
      split; simpl.
      * rewrite <- Eu. by eapply linked_remove.
      * rewrite Hs, Hp. simpl. lia.
      * by rewrite <- Hq.
      * intros p Hin. apply Hfr. by rewrite Hq.
      * intros u' Hu'. apply Hh. rewrite Hp. simpl. by constructor.
    + by rewrite Hf.
  - destruct (cache_miss out c id Hok Hid) as [-> Hni]. exists c. split; [done|]. split; [done|].
    split; [done|]. split; [|done]. by rewrite Lru.forget_outside.
Qed.

(** [mark_flushed] clears one flag. *)
Definition clean (id : Z) (e : entry) : entry := if (e.1 =? id)%Z then (e.1, (false, e.2.2)) else e.

Lemma clean_outside id es : id ∉ es.*1 → clean id <$> es = es.
Proof.
  induction es as [|[i b] es IH]; intros Hni; [done|]. rewrite fmap_cons in *.
  apply not_elem_of_cons in Hni as [Hne Hni]. rewrite IH by done. f_equal. unfold clean. simpl in *.
  by destruct (Z.eqb_spec i id).
Qed.

Lemma mark_flushed_ok out c id :
  cache_ok out c →
  cache_ok out (mark_flushed id c) ∧ entries (mark_flushed id c) = clean id <$> entries c.
Proof.
  intros Hok. unfold mark_flushed. destruct (cache_ c !! id) as [it|] eqn:Hid.
  - destruct (cache_hit out c id it Hok Hid) as (l1 & u & l2 & d & El & Eu & H1 & H2 & Hb & Hd & Ha & Hf).
    pose proof (entries_nodup out c Hok) as Hnd. unfold entries in *. simpl.
    rewrite El, ents_app, (ents_cons _ _ _ d), Eu in Hnd by done.
    rewrite fmap_app, fmap_cons in Hnd. simpl in Hnd.
    apply list.NoDup_app in Hnd as (_ & Hdis & Hnd). apply list.NoDup_cons in Hnd as [Hn2 _].
    assert (Hn1 : id ∉ (ents (heap c) l1).*1) by (intros Hin; apply (Hdis id Hin); constructor).
    rewrite El, assign_middle by done. split.
    + destruct Hok as [Hl Hs Hbuf Hfr Hh]. rewrite El in *. split; simpl.
      * apply (linked_assign u_id _ _ _ it (λ u, mk_unit (u_id u) false (data u))) in Hl; [|done].
        by rewrite assign_middle in Hl.
      * rewrite Hs. by rewrite !length_app.
      * rewrite !fmap_app in *. done.
      * rewrite !fmap_app in *. done.
      * intros u'. rewrite fmap_app, fmap_cons. intros Hin.
        apply elem_of_app in Hin as [Hin|[->|Hin]%elem_of_cons]; [|simpl; by eexists|];
          apply Hh; rewrite fmap_app, fmap_cons; set_solver.
    + rewrite !ents_app, (ents_cons _ _ u d), (ents_cons _ _ (mk_unit _ _ _) d) by done.
      rewrite fmap_app, fmap_cons, !clean_outside by done. unfold clean. simpl. rewrite Eu.
      by rewrite Z.eqb_refl.
  - split; [done|]. destruct (cache_miss out c id Hok Hid) as [_ Hni]. by rewrite clean_outside.
Qed.

(** [get_dirty_cache] returns the units whose flag is set. *)
Lemma get_dirty_cache_ok out c u :
  cache_ok out c → u ∈ get_dirty_cache c ↔ u ∈ (key_ c).*2 ∧ dirty u = true.
Proof.
  intros [Hl _ _ _ _]. unfold get_dirty_cache. rewrite list_elem_of_omap. split.
  - intros ([id it] & Hin & Hu). apply elem_of_map_to_list in Hin. simpl in Hu.
    destruct (linked_find u_id _ _ _ _ _ Hl Hin) as (l1 & u' & l2 & El & _ & H1 & _).
    rewrite El, deref_middle in Hu by done. simpl in Hu. destruct (dirty u') eqn:Ed; simplify_eq.
    split; [|done]. rewrite El, fmap_app, fmap_cons. set_solver.
  - intros [Hin Hd]. apply list_elem_of_fmap in Hin as ([it u'] & -> & Hin). simpl in *.
    assert (Hix : cache_ c !! u_id u' = Some it).
    { destruct Hl as [_ _ Hix]. apply Hix. eauto. }
    exists (u_id u', it). split; [by apply elem_of_map_to_list|].
    destruct (linked_find u_id _ _ _ _ _ Hl Hix) as (l1 & u2 & l2 & El & _ & H1 & H2). simpl.
    rewrite El, deref_middle by done. simpl. rewrite El in Hin.
    assert (u2 = u') as ->.
    { apply elem_of_app in Hin as [Hin|Hin]; [destruct H1; apply list_elem_of_fmap; by exists (it, u')|].
      apply elem_of_cons in Hin as [?|Hin]; [by simplify_eq|].
      destruct H2. apply list_elem_of_fmap. by exists (it, u'). }
    by rewrite Hd.
Qed.

Lemma new_cache_ok capacity : cache_ok [] (new_cache capacity) ∧ entries (new_cache capacity) = [].
Proof.
  split; [|done]. split; simpl; try done.
  - apply linked_empty.
  - constructor.
  - by intros p ?%elem_of_nil.
  - by intros u ?%elem_of_nil.
Qed.

(** ** Sequences of operations *)
(** A caller that is handed an evicted unit reads its content and gives the
    buffer back. *)
Inductive op := Write (id : Z) (d : D) (dty : bool) | Read (id : Z) | Invalidate (id : Z) | MarkFlushed (id : Z).

Inductive result := Evicted (e : option entry) | Content (d : option D) | Flag (b : bool) | Unit.

Definition exec (o : op) (c : blk_cache) : option (result * blk_cache) :=
  match o with
  | Write id d dty =>
      '(r, c) ← write id d dty c;
      match r with
      | None => Some (Evicted None, c)
      | Some u => e ← entry_of (heap c) u; Some (Evicted (Some e), free_block (data u) c)
      end
  | Read id => '(r, c) ← read id c; Some (Content r, c)
  | Invalidate id => '(b, c) ← invalidate id c; Some (Flag b, c)
  | MarkFlushed id => Some (Unit, mark_flushed id c)
  end.

Definition spec_exec (capacity : nat) (o : op) (es : list entry) : result * list entry :=
  match o with
  | Write id d dty => let '(e, es) := spec_write capacity id d dty es in (Evicted e, es)
  | Read id => (Content (snd <$> Lru.assoc id es), Lru.touch id es)
  | Invalidate id => (Flag (bool_decide (is_Some (Lru.assoc id es))), Lru.forget id es)
  | MarkFlushed id => (Unit, clean id <$> es)
  end.

Fixpoint exec_all (os : list op) (c : blk_cache) : option (list result * blk_cache) :=
  match os with
  | [] => Some ([], c)
  | o :: os' => '(r, c) ← exec o c; '(rs, c) ← exec_all os' c; Some (r :: rs, c)
  end.

Fixpoint spec_exec_all (capacity : nat) (os : list op) (es : list entry) : list result * list entry :=
  match os with
  | [] => ([], es)
  | o :: os' =>
      let '(r, es) := spec_exec capacity o es in
      let '(rs, es) := spec_exec_all capacity os' es in (r :: rs, es)
  end.

Lemma cache_exec_ok o c :
  cache_ok [] c →
  ∃ c', exec o c = Some ((spec_exec (Z.to_nat (capacity_ c)) o (entries c)).1, c') ∧ cache_ok [] c' ∧
    capacity_ c' = capacity_ c ∧ entries c' = (spec_exec (Z.to_nat (capacity_ c)) o (entries c)).2.
Proof.
  intros Hok. destruct o as [id d dty|id|id|id]; simpl.
  - destruct (blk_write_ok [] c id d dty Hok) as (r & c' & -> & Hok' & Hcap & Hs & _). simpl.
    destruct r as [u|]; simpl in *.
    + destruct Hs as (d' & Hd' & Hs). rewrite Hs. unfold entry_of. rewrite Hd'. simpl.
      eexists. split; [done|]. split; [by apply free_block_ok|done].
    + rewrite Hs. simpl. eauto.
  - destruct (blk_read_ok [] c id Hok) as (c' & -> & Hok' & Hcap & He & _). simpl. eauto.
  - destruct (invalidate_ok [] c id Hok) as (c' & -> & Hok' & Hcap & He & _). simpl. eauto.
  - destruct (mark_flushed_ok [] c id Hok) as [Hok' He]. eexists. split; [done|]. split; [done|].
    split; [|done]. unfold mark_flushed. by destruct (cache_ c !! id).
Qed.

Lemma cache_exec_all_ok os : ∀ c,
  cache_ok [] c →
  ∃ c', exec_all os c = Some ((spec_exec_all (Z.to_nat (capacity_ c)) os (entries c)).1, c') ∧
    cache_ok [] c' ∧ entries c' = (spec_exec_all (Z.to_nat (capacity_ c)) os (entries c)).2.
Proof.
  induction os as [|o os IH]; intros c Hok; simpl; [eauto|].
  destruct (cache_exec_ok o c Hok) as (c1 & -> & Hok1 & Hcap & He).
  destruct (spec_exec _ o (entries c)) as [r es]. simpl in *.
  destruct (IH c1 Hok1) as (c2 & -> & Hok2 & He2). rewrite Hcap, He in *.
  destruct (spec_exec_all _ os es) as [rs es']. simpl in *. eauto.
Qed.

End cache.
Arguments blk_cache : clear implicits.
End BlkCache.

(** ** The properties *)
(** C24: For every capacity and every sequence of writes, reads, invalidations
    and flushes, the block cache (index, iterators, recycled buffers) returns
    and answers like the list of (id, (dirty, content)) in order of use: hits
    return the last content written for the id, and each eviction hands out the
    least recently used entry with its content intact. *)
Theorem blk_cache_refines {D} (capacity : Z) (os : list (@BlkCache.op D)) :
  ∃ c, BlkCache.exec_all os (BlkCache.new_cache capacity) =
         Some ((BlkCache.spec_exec_all (Z.to_nat capacity) os []).1, c) ∧
       BlkCache.entries c = (BlkCache.spec_exec_all (Z.to_nat capacity) os []).2.
Proof.
  destruct (BlkCache.new_cache_ok (D := D) capacity) as [Hok _].
  destruct (BlkCache.cache_exec_all_ok os _ Hok) as (c & He & _ & Hc). eauto.
Qed.

(** A write that hits a clean unit leaves it clean, in every cache: the
    flag is set in a copy of the unit, so the new content is not known to
    differ from the block on the device. *)
Theorem write_hit_stays_clean {D} out (c : BlkCache.blk_cache D) id d0 d dty :
  BlkCache.cache_ok out c → Lru.assoc id (BlkCache.entries c) = Some (false, d0) →
  ∃ c', BlkCache.write id d dty c = Some (None, c') ∧
    Lru.assoc id (BlkCache.entries c') = Some (false, d).
Proof.
  intros Hok Ha. destruct (BlkCache.blk_write_ok out c id d dty Hok) as (r & c' & Hw & _ & _ & Hs & _).
  unfold BlkCache.spec_write in Hs. rewrite Ha in Hs. destruct r as [u|]; [by destruct Hs as (d' & _ & Hs)|].
  injection Hs as Hs. exists c'. split; [done|]. rewrite <- Hs. simpl. by rewrite decide_True.
Qed.

Definition one_clean : BlkCache.blk_cache Z :=
  match BlkCache.write 7 70%Z false (BlkCache.new_cache 2) with Some (_, c) => c | None => BlkCache.new_cache 2 end.

Lemma write_hit_stays_clean_witness :
  ∃ c', BlkCache.write 7 71%Z true one_clean = Some (None, c') ∧
    Lru.assoc 7%Z (BlkCache.entries c') = Some (false, 71%Z).
Proof.
  apply (write_hit_stays_clean [] one_clean 7 70%Z).
  - destruct (BlkCache.new_cache_ok (D := Z) 2) as [Hok _].
    destruct (BlkCache.blk_write_ok [] _ 7 70%Z false Hok) as (r & c' & Hw & Hok' & _ & Hs & _).
    unfold one_clean. rewrite Hw. destruct r as [u|]; [by destruct Hs as (d' & _ & Hs)|done].
  - vm_compute. reflexivity.
Defined.
