(* ===== verification/FileAccessor.v ===== *)
(** The file accessor (src/src/blk/file_blk_accessor.h): reads and writes of
    blocks through the block cache to a file.

    [D] is the content of a block. The file is the one [open] creates
    (O_TRUNC): blocks that were never written inside it read as [zero], beyond
    its end nothing is read and the buffer of the caller is left as it is; a
    negative offset is refused. *)
From Stdlib Require Import ZArith Lia.
From stdpp Require Import base list gmap sorting numbers.
From S2P Require Import Prelude Store IndexedList Lru BlkCache Alloc.

Module FileAccessor.

Section accessor.
Context {D : Type} (zero : D) (block_size : Z).
Context `{!SetBegin}.

(** ** The file *)
Record file := mk_file { f_blocks : gmap Z D; f_len : Z }.

(** [pread] and [pwrite]: the status, and the buffer or the file. *)
Definition pread (address : Z) (buffer : D) (f : file) : Z * D :=
  if (address <? 0)%Z then (-1, buffer)%Z
  else if (address <? f_len f)%Z then (block_size, default zero (f_blocks f !! address))
  else (0%Z, buffer).

Definition pwrite (address : Z) (d : D) (f : file) : Z * file :=
  if (address <? 0)%Z then (-1, f)%Z
  else (block_size, mk_file (<[address := d]> (f_blocks f)) (Z.max (f_len f) (address + 1))).

(** ** The accessor *)
Record file_blk_accessor := mk_accessor {
  alloc_ : Alloc.allocator;
  cache_ : option (BlkCache.blk_cache D);
  fd_ : file;
  reads_ : Z;
  writes_ : Z }.

Definition open (capacity : option Z) : file_blk_accessor :=
  mk_accessor Alloc.new_allocator (BlkCache.new_cache <$> capacity) (mk_file ∅ 0) 0 0.

Definition with_cache (c : BlkCache.blk_cache D) (f : file) (s : file_blk_accessor) : file_blk_accessor :=
  mk_accessor (alloc_ s) (Some c) f (reads_ s) (writes_ s).
Definition count_read (s : file_blk_accessor) : file_blk_accessor :=
  mk_accessor (alloc_ s) (cache_ s) (fd_ s) (reads_ s + 1) (writes_ s).

(** The tail of [read]: the block is put into the cache, and the unit that
    leaves it is written back. *)
Definition fill (address : Z) (buffer : D) (s : file_blk_accessor) : option file_blk_accessor :=
  match cache_ s with
  | None => Some s
  | Some c =>
      '(evicted, c) ← BlkCache.write address buffer false c;
      match evicted with
      | None => Some (with_cache c (fd_ s) s)
      | Some u =>
          d ← BlkCache.heap c !! BlkCache.data u;
          let f := (pwrite (BlkCache.u_id u) d (fd_ s)).2 in
          Some (with_cache (BlkCache.free_block (BlkCache.data u) c) f s)
      end
  end.

(** [read]: the status and the buffer; a failed [pread] is a failed assertion. *)
Definition read (address : Z) (buffer : D) (s : file_blk_accessor) : option (Z * D * file_blk_accessor) :=
  if negb (Alloc.is_address_valid (alloc_ s) address) then Some (0%Z, buffer, s) else
  '(hit, s) ← match cache_ s with
              | None => Some (None, s)
              | Some c => '(r, c) ← BlkCache.read address c; Some (r, with_cache c (fd_ s) s)
              end;
  match hit with
  | Some d => Some (block_size, d, count_read s)
  | None =>
      let '(status, buffer) := pread address buffer (fd_ s) in
      if (status <? 0)%Z then None else
      s ← fill address buffer (count_read s);
      Some (status, buffer, s)
  end.

(** [write]: with a cache only dirty units that leave it reach the file. *)
Definition write (address : Z) (buffer : D) (s : file_blk_accessor) : option (Z * file_blk_accessor) :=
  if negb (Alloc.is_address_valid (alloc_ s) address) then Some (0%Z, s) else
  match cache_ s with
  | Some c =>
      '(evicted, c) ← BlkCache.write address buffer true c;
      match evicted with
      | None => Some (block_size, with_cache c (fd_ s) s)
      | Some u =>
          f ← (if BlkCache.dirty u then
                 d ← BlkCache.heap c !! BlkCache.data u; Some (pwrite (BlkCache.u_id u) d (fd_ s)).2
               else Some (fd_ s));
          Some (block_size, with_cache (BlkCache.free_block (BlkCache.data u) c) f s)
      end
  | None =>
      let '(status, f) := pwrite address buffer (fd_ s) in
      Some (status, mk_accessor (alloc_ s) None f (reads_ s) (writes_ s + 1))
  end.

Definition allocate (s : file_blk_accessor) : Z * file_blk_accessor :=
  let '(i, a) := Alloc.allocate 32 (alloc_ s) in
  (i, mk_accessor a (cache_ s) (fd_ s) (reads_ s) (writes_ s)).
Definition deallocate (address : Z) (s : file_blk_accessor) : file_blk_accessor :=
  mk_accessor (Alloc.deallocate 32 address (alloc_ s)) (cache_ s) (fd_ s) (reads_ s) (writes_ s).

(** ** Coherence of the cache with the file *)
Definition cached (s : file_blk_accessor) : list (Z * (bool * D)) :=
  match cache_ s with Some c => BlkCache.entries c | None => [] end.

Definition capacity (s : file_blk_accessor) : nat :=
  match cache_ s with Some c => Z.to_nat (BlkCache.capacity_ c) | None => 0 end.

(** What the file holds at an address. *)
Definition on_file (f : file) (a : Z) (d : D) : Prop := (0 ≤ a)%Z ∧ f_blocks f !! a = Some d ∧ (a < f_len f)%Z.

(** [σ] holds the last content written at each address: a cached block has it,
    and so has the file if the unit is clean or absent. *)
Definition coherent (σ : gmap Z D) (es : list (Z * (bool * D))) (f : file) : Prop :=
  ∀ a d, σ !! a = Some d →
    match Lru.assoc a es with
    | Some (true, d') => d' = d
    | Some (false, d') => d' = d ∧ on_file f a d
    | None => on_file f a d
    end.

(** All cached blocks have non-negative addresses. *)
Definition in_range (es : list (Z * (bool * D))) : Prop := ∀ a, a ∈ es.*1 → (0 ≤ a)%Z.

Definition accessor_ok (s : file_blk_accessor) : Prop :=
  Alloc.wf 32 (alloc_ s) ∧ NoDup (cached s).*1 ∧ in_range (cached s) ∧ (0 ≤ f_len (fd_ s))%Z ∧
  match cache_ s with Some c => BlkCache.cache_ok [] c | None => True end.

(** ** Entries *)
Lemma assoc_cons_ne (a b : Z) (e : bool * D) es : a ≠ b → Lru.assoc a ((b, e) :: es) = Lru.assoc a es.
Proof. intros Hne. simpl. by rewrite decide_False. Qed.

Lemma assoc_cons_eq (a : Z) (e : bool * D) es : Lru.assoc a ((a, e) :: es) = Some e.
Proof. simpl. by rewrite decide_True. Qed.

Lemma assoc_forget_ne a b (es : list (Z * (bool * D))) : a ≠ b → Lru.assoc a (Lru.forget b es) = Lru.assoc a es.
Proof.
  intros Hne. unfold Lru.forget. induction es as [|[c e] es IH]; [done|]. rewrite filter_cons. case_decide as Hc.
  - simpl. by rewrite IH.
  - simpl in Hc. subst c. simpl. by rewrite decide_False.
Qed.

Lemma assoc_touch a b (es : list (Z * (bool * D))) : Lru.assoc a (Lru.touch b es) = Lru.assoc a es.
Proof.
  unfold Lru.touch. destruct (Lru.assoc b es) as [e|] eqn:Eb; [|done]. simpl.
  case_decide as Hc; [subst; by rewrite Eb|]. apply assoc_forget_ne. congruence.
Qed.

Lemma assoc_app_last (a b : Z) (e : bool * D) es :
  NoDup (es ++ [(b, e)]).*1 → Lru.assoc a (es ++ [(b, e)]) = if decide (a = b) then Some e else Lru.assoc a es.
Proof.
  rewrite fmap_app. intros Hnd. apply list.NoDup_app in Hnd as (_ & Hd & _). case_decide as Hc.
  - subst b. apply Lru.assoc_middle. intros Hin. apply (Hd a Hin). constructor.
  - clear Hd. induction es as [|[c e'] es IH]; simpl; [by rewrite decide_False by congruence|]. by rewrite IH.
Qed.

Lemma assoc_in (es : list (Z * (bool * D))) a e : Lru.assoc a es = Some e → a ∈ es.*1.
Proof.
  intros Ha. destruct (decide (a ∈ es.*1)) as [|Hni]; [done|]. by rewrite Lru.assoc_None in Ha.
Qed.

Lemma assoc_not_in (es : list (Z * (bool * D))) a : Lru.assoc a es = None → a ∉ es.*1.
Proof.
  induction es as [|[b e] es IH]; intros Ha; [by intros ?%elem_of_nil|]. simpl in *.
  case_decide; [done|]. apply not_elem_of_cons. auto.
Qed.

Lemma forget_ids a (es : list (Z * (bool * D))) b : b ∈ (Lru.forget a es).*1 → b ∈ es.*1.
Proof.
  intros Hin. apply list_elem_of_fmap in Hin as (e & -> & Hin). apply list_elem_of_filter in Hin as [_ Hin].
  apply list_elem_of_fmap. eauto.
Qed.

(** Which blocks [spec_write] leaves in the cache. *)
Lemma spec_write_ids cap a (d : D) dty es e es' b :
  BlkCache.spec_write cap a d dty es = (e, es') → b ∈ es'.*1 → b = a ∨ b ∈ es.*1.
Proof.
  unfold BlkCache.spec_write. destruct (Lru.assoc a es) as [[dt d0]|] eqn:Ea.
  - intros [= <- <-] Hin. simpl in Hin. apply elem_of_cons in Hin as [->|Hin]; [auto|].
    right. by eapply forget_ids.
  - assert (Hall : ∀ l, l ⊆ ((a, (dty, d)) :: es) → b ∈ l.*1 → b = a ∨ b ∈ es.*1).
    { intros l Hl Hin. apply list_elem_of_fmap in Hin as (x & -> & Hin%Hl).
      apply elem_of_cons in Hin as [->|Hin]; [by left|right]. apply list_elem_of_fmap. eauto. }
    cbn zeta. remember ((a, (dty, d)) :: es) as l eqn:El. clear El.
    destruct (cap <? _); intros [= <- <-]; apply Hall; [|done].
    destruct l as [|x l _] using rev_ind; [done|]. rewrite removelast_last. set_solver.
Qed.

(** ** Coherence *)
Lemma on_file_pwrite f a d b d' :
  on_file f a d → b ≠ a → on_file (pwrite b d' f).2 a d.
Proof.
  intros (H1 & H2 & H3) Hne. unfold pwrite. destruct (Z.ltb_spec b 0); [done|].
  split; [done|]. simpl. rewrite lookup_insert_ne by done. split; [done|lia].
Qed.

Lemma on_file_pwritten f b d : (0 ≤ b)%Z → on_file (pwrite b d f).2 b d.
Proof.
  intros Hb. unfold pwrite. destruct (Z.ltb_spec b 0); [lia|]. split; [done|]. simpl.
  rewrite lookup_insert_eq. split; [done|lia].
Qed.

(** The unit that leaves the cache is written back if it is dirty ([always]:
    on the read path, in any case). *)
Definition flush (always : bool) (e : option (Z * (bool * D))) (f : file) : file :=
  match e with
  | None => f
  | Some (b, (dt, d)) => if dt || always then (pwrite b d f).2 else f
  end.

Lemma coherent_evict σ es b dt d f always :
  coherent σ (es ++ [(b, (dt, d))]) f → NoDup (es ++ [(b, (dt, d))]).*1 → (0 ≤ b)%Z →
  coherent σ es (flush always (Some (b, (dt, d))) f).
Proof.
  intros Hc Hnd Hb a da Ha. specialize (Hc a da Ha). rewrite assoc_app_last in Hc by done.
  case_decide as He.
  - subst a. rewrite Lru.assoc_None.
    2: { rewrite fmap_app in Hnd. apply list.NoDup_app in Hnd as (_ & Hd & _).
         intros Hin. apply (Hd b Hin). constructor. }
    simpl. destruct dt; simpl.
    + subst da. by apply on_file_pwritten.
    + destruct Hc as [<- Hc]. destruct always; [by apply on_file_pwritten|done].
  - simpl. destruct (dt || always); [|done].
    destruct (Lru.assoc a es) as [[[] d']|]; [done| |by apply on_file_pwrite; [|congruence]].
    destruct Hc as [-> Hc]. split; [done|]. by apply on_file_pwrite; [|congruence].
Qed.

Definition no_clean_hit (a : Z) (es : list (Z * (bool * D))) : Prop := ∀ d, Lru.assoc a es ≠ Some (false, d).

(** A block that was not cached comes in, another one may leave. *)
Lemma coherent_miss σ es f cap a d dty e es' always :
  Lru.assoc a es = None → BlkCache.spec_write cap a d dty es = (e, es') →
  NoDup es.*1 → in_range es → (0 ≤ a)%Z →
  coherent σ ((a, (dty, d)) :: es) f → coherent σ es' (flush always e f).
Proof.
  intros Ea Hw Hnd Hr Ha Hc. unfold BlkCache.spec_write in Hw. rewrite Ea in Hw.
  assert (Hnd' : NoDup ((a, (dty, d)) :: es).*1).
  { simpl. apply list.NoDup_cons. split; [by apply assoc_not_in|done]. }
  assert (Hr' : in_range ((a, (dty, d)) :: es)).
  { intros b Hb. simpl in Hb. apply elem_of_cons in Hb as [->|Hb]; [done|by apply Hr]. }
  cbn zeta in Hw. remember ((a, (dty, d)) :: es) as es1 eqn:E1. clear E1.
  destruct (cap <? _); injection Hw as <- <-; [|done].
  destruct es1 as [|[b [dt d']] l _] using rev_ind; [done|].
  rewrite last_snoc, removelast_last. apply coherent_evict; [done|done|].
  apply Hr'. rewrite fmap_app. set_solver.
Qed.

Lemma coherent_write σ es f cap a d e es' :
  coherent σ es f → NoDup es.*1 → in_range es → (0 ≤ a)%Z → no_clean_hit a es →
  BlkCache.spec_write cap a d true es = (e, es') → coherent (<[a := d]> σ) es' (flush false e f).
Proof.
  intros Hc Hnd Hr Ha Hch Hw.
  assert (Hput : ∀ es0, (∀ b, b ≠ a → Lru.assoc b es0 = Lru.assoc b es) →
    coherent (<[a := d]> σ) ((a, (true, d)) :: es0) f).
  { intros es0 Hes b db Hb. destruct (decide (a = b)) as [->|Hne].
    - rewrite lookup_insert_eq in Hb. injection Hb as <-. by rewrite assoc_cons_eq.
    - rewrite lookup_insert_ne in Hb by done. rewrite assoc_cons_ne, Hes by congruence. by apply Hc. }
  destruct (Lru.assoc a es) as [[[] d0]|] eqn:Ea; [|by destruct (Hch d0)|].
  - unfold BlkCache.spec_write in Hw. rewrite Ea in Hw. injection Hw as <- <-. apply Hput.
    intros b Hb. by apply assoc_forget_ne.
  - eapply coherent_miss; eauto.
Qed.

Lemma coherent_fill σ es f a buffer status d :
  coherent σ es f → Lru.assoc a es = None → pread a buffer f = (status, d) →
  coherent σ ((a, (false, d)) :: es) f ∧ (∀ d', σ !! a = Some d' → status = block_size ∧ d = d').
Proof.
  intros Hc Ea Hp.
  assert (Hr : ∀ d', σ !! a = Some d' → status = block_size ∧ d = d' ∧ on_file f a d').
  { intros d' Hd'. specialize (Hc a d' Hd'). rewrite Ea in Hc. destruct Hc as (H1 & H2 & H3).
    unfold pread in Hp. destruct (Z.ltb_spec a 0); [lia|]. destruct (Z.ltb_spec a (f_len f)); [|lia].
    rewrite H2 in Hp. simpl in Hp. by injection Hp as <- <-. }
  split; [|intros d' Hd'; by destruct (Hr d' Hd') as (? & ? & _)].
  intros b db Hb. destruct (decide (a = b)) as [->|Hne].
  - rewrite assoc_cons_eq. destruct (Hr db Hb) as (_ & -> & Hf). done.
  - rewrite assoc_cons_ne by congruence. by apply Hc.
Qed.

(** ** The operations *)
Lemma entries_ids_nodup c : BlkCache.cache_ok [] c → NoDup (BlkCache.entries (D := D) c).*1.
Proof. apply BlkCache.entries_nodup. Qed.

(** Putting a block into the cache and flushing what leaves it. *)
Lemma cache_write_ok s c a d dty :
  accessor_ok s → cache_ s = Some c → (0 ≤ a)%Z →
  ∃ r c', BlkCache.write a d dty c = Some (r, c') ∧
    (∀ f c'', BlkCache.entries c'' = BlkCache.entries c' → BlkCache.cache_ok [] c'' → (0 ≤ f_len f)%Z →
       accessor_ok (with_cache c'' f s)) ∧
    BlkCache.capacity_ c' = BlkCache.capacity_ c ∧
    match r with
    | None => BlkCache.cache_ok [] c' ∧
        BlkCache.spec_write (capacity s) a d dty (cached s) = (None, BlkCache.entries c')
    | Some u => ∃ d', BlkCache.heap c' !! BlkCache.data u = Some d' ∧
        BlkCache.cache_ok [] (BlkCache.free_block (BlkCache.data u) c') ∧
        BlkCache.spec_write (capacity s) a d dty (cached s) =
          (Some (BlkCache.u_id u, (BlkCache.dirty u, d')), BlkCache.entries c')
    end.
Proof.
  intros (Hwf & Hnd & Hr & Hf & Hok) Ec Ha. unfold cached, capacity in *. rewrite Ec in *.
  destruct (BlkCache.blk_write_ok [] c a d dty Hok) as (r & c' & Hw & Hok' & Hcap & Hs & _).
  exists r, c'. split; [done|].
  assert (Hids : ∀ b, b ∈ (BlkCache.entries c').*1 → (0 ≤ b)%Z).
  { intros b Hb. destruct r as [u|]; [destruct Hs as (d' & _ & Hs)|];
      (destruct (spec_write_ids _ _ _ _ _ _ _ b Hs Hb) as [->|Hb']; [done|by apply Hr]). }
  split; [|split; [done|]].
  - intros f c'' He Hc'' Hlen. unfold accessor_ok, cached. simpl. rewrite He.
    split; [done|]. split; [|by split; [intros b Hb; by apply Hids|]]. rewrite <- He. by eapply BlkCache.entries_nodup.
  - destruct r as [u|]; [|by split].
    destruct Hs as (d' & Hd' & Hs). exists d'. split; [done|]. split; [by apply BlkCache.free_block_ok|done].
Qed.

Lemma flush_len always e f : (0 ≤ f_len f)%Z → (0 ≤ f_len (flush always e f))%Z.
Proof.
  intros Hf. destruct e as [[b [dt d]]|]; simpl; [|done]. destruct (dt || always); [|done].
  unfold pwrite. destruct (b <? 0)%Z; simpl; [done|lia].
Qed.

Lemma file_write_ok s c a d :
  accessor_ok s → cache_ s = Some c → a ∈ Alloc.allocated (alloc_ s) →
  ∃ e s', write a d s = Some (block_size, s') ∧ accessor_ok s' ∧ alloc_ s' = alloc_ s ∧
    is_Some (cache_ s') ∧ capacity s' = capacity s ∧
    BlkCache.spec_write (capacity s) a d true (cached s) = (e, cached s') ∧ fd_ s' = flush false e (fd_ s).
Proof.
  intros Hok Ec Hal. assert (Ha : (0 ≤ a)%Z) by (apply Alloc.elem_of_allocated in Hal; lia).
  unfold write. rewrite (proj2 (Alloc.is_address_valid_spec _ a Ha) Hal). simpl. rewrite Ec.
  pose proof Hok as (_ & _ & _ & Hf & _).
  destruct (cache_write_ok s c a d true Hok Ec Ha) as (r & c' & -> & Hacc & Hcap & Hs). simpl.
  destruct r as [u|].
  - destruct Hs as (d' & Hd' & Hc & Hs). rewrite Hd'. simpl.
    assert (Hfl : (if BlkCache.dirty u then Some (pwrite (BlkCache.u_id u) d' (fd_ s)).2 else Some (fd_ s)) =
      Some (flush false (Some (BlkCache.u_id u, (BlkCache.dirty u, d'))) (fd_ s))).
    { simpl. by destruct (BlkCache.dirty u). }
    rewrite Hfl. cbn [mbind option_bind]. eexists _, _. split; [done|]. split; [apply Hacc; [done|done|by apply flush_len]|].
    split; [done|]. split; [by eexists|]. split; [unfold capacity; rewrite Ec; simpl; by rewrite Hcap|]. by split.
  - destruct Hs as [Hc Hs]. eexists None, _. split; [done|]. split; [by apply Hacc|]. split; [done|].
    split; [by eexists|]. split; [unfold capacity; rewrite Ec; simpl; by rewrite Hcap|]. by split.
Qed.


Lemma pread_status a buffer f : (0 ≤ a)%Z → (0 ≤ block_size)%Z → ((pread a buffer f).1 <? 0)%Z = false.
Proof.
  intros Ha Hb. unfold pread. destruct (Z.ltb_spec a 0); [lia|].
  destruct (a <? f_len f)%Z; simpl; apply Z.ltb_ge; lia.
Qed.

Lemma fill_ok s c a d :
  accessor_ok s → cache_ s = Some c → (0 ≤ a)%Z →
  ∃ e s', fill a d s = Some s' ∧ accessor_ok s' ∧ alloc_ s' = alloc_ s ∧ is_Some (cache_ s') ∧
    capacity s' = capacity s ∧
    BlkCache.spec_write (capacity s) a d false (cached s) = (e, cached s') ∧ fd_ s' = flush true e (fd_ s).
Proof.
  intros Hok Ec Ha. unfold fill. rewrite Ec. pose proof Hok as (_ & _ & _ & Hf & _).
  destruct (cache_write_ok s c a d false Hok Ec Ha) as (r & c' & -> & Hacc & Hcap & Hs). simpl.
  destruct r as [u|].
  - destruct Hs as (d' & Hd' & Hc & Hs). rewrite Hd'. simpl.
    assert (Hfl : (pwrite (BlkCache.u_id u) d' (fd_ s)).2 =
      flush true (Some (BlkCache.u_id u, (BlkCache.dirty u, d'))) (fd_ s)).
    { simpl. by rewrite orb_true_r. }
    rewrite Hfl. eexists _, _. split; [done|]. split; [apply Hacc; [done|done|by apply flush_len]|].
    split; [done|]. split; [by eexists|]. split; [unfold capacity; rewrite Ec; simpl; by rewrite Hcap|]. by split.
  - destruct Hs as [Hc Hs]. eexists None, _. split; [done|]. split; [by apply Hacc|]. split; [done|].
    split; [by eexists|]. split; [unfold capacity; rewrite Ec; simpl; by rewrite Hcap|]. by split.
Qed.

Lemma touch_ids a (es : list (Z * (bool * D))) b : b ∈ (Lru.touch a es).*1 → b ∈ es.*1.
Proof.
  unfold Lru.touch. destruct (Lru.assoc a es) as [e|] eqn:Ea; [|done]. simpl. intros Hin.
  apply elem_of_cons in Hin as [->|Hin]; [by eapply assoc_in|by eapply forget_ids].
Qed.

Lemma file_read_ok s c a buffer :
  accessor_ok s → cache_ s = Some c → a ∈ Alloc.allocated (alloc_ s) → (0 ≤ block_size)%Z →
  ∃ st d s', read a buffer s = Some (st, d, s') ∧ accessor_ok s' ∧ alloc_ s' = alloc_ s ∧
    is_Some (cache_ s') ∧ capacity s' = capacity s ∧
    match Lru.assoc a (cached s) with
    | Some (_, d') => st = block_size ∧ d = d' ∧ cached s' = Lru.touch a (cached s) ∧ fd_ s' = fd_ s
    | None => pread a buffer (fd_ s) = (st, d) ∧
        ∃ e, BlkCache.spec_write (capacity s) a d false (cached s) = (e, cached s') ∧
          fd_ s' = flush true e (fd_ s)
    end.
Proof.
  intros Hok Ec Hal Hbs. assert (Ha : (0 ≤ a)%Z) by (apply Alloc.elem_of_allocated in Hal; lia).
  unfold read. rewrite (proj2 (Alloc.is_address_valid_spec _ a Ha) Hal). simpl. rewrite Ec.
  pose proof Hok as (Hwf & Hnd & Hr & Hf & Hc). rewrite Ec in Hc.
  destruct (BlkCache.blk_read_ok [] c a Hc) as (c' & Hrd & Hok' & Hcap & He & _). rewrite Hrd. simpl.
  assert (Hes : cached s = BlkCache.entries c) by (unfold cached; by rewrite Ec).
  assert (Hcp : capacity s = Z.to_nat (BlkCache.capacity_ c)) by (unfold capacity; by rewrite Ec).
  assert (Hacc : accessor_ok (count_read (with_cache c' (fd_ s) s))).
  { unfold accessor_ok, cached. simpl. split; [done|]. split; [by eapply BlkCache.entries_nodup|].
    split; [|done]. intros b Hb. rewrite He in Hb. apply Hr. rewrite Hes. by eapply touch_ids. }
  rewrite Hes in *. destruct (Lru.assoc a (BlkCache.entries c)) as [[dt d']|] eqn:Ea; simpl.
  - eexists _, _, _. split; [done|]. split; [done|]. split; [done|]. split; [by eexists|].
    split; [unfold capacity in *; simpl; by rewrite Hcp, Hcap|]. split; [done|]. split; [done|].
    split; [|done]. unfold cached. simpl. done.
  - pose proof (pread_status a buffer (fd_ s) Ha Hbs) as Hst.
    destruct (pread a buffer (fd_ s)) as [st d] eqn:Ep. simpl in Hst. rewrite Hst.
    destruct (fill_ok (count_read (with_cache c' (fd_ s) s)) c' a d Hacc)
      as (e & s' & -> & Hok2 & Hal2 & Hc2 & Hcap2 & Hs2 & Hfd2); [done|done|]. simpl.
    exists st, d, s'. split; [done|]. split; [done|]. split; [done|]. split; [done|].
    assert (Hcap3 : capacity (count_read (with_cache c' (fd_ s) s)) = capacity s).
    { unfold capacity. simpl. rewrite Ec. by rewrite Hcap. }
    split; [congruence|]. split; [done|]. exists e. split; [|done]. rewrite <- Hcap3.
    replace (BlkCache.entries c) with (cached (count_read (with_cache c' (fd_ s) s))); [done|].
    unfold cached. simpl. rewrite He. unfold Lru.touch. by rewrite Ea.
Qed.

(** ** Runs *)
(** A run of the accessor with the last content written at each address.
    [guard] restricts the writes. *)
Section runs.
Context (guard : file_blk_accessor → Z → Prop).

Inductive reach (cap : Z) : gmap Z D → file_blk_accessor → Prop :=
  | reach_open : reach cap ∅ (open (Some cap))
  | reach_read σ s a buffer st d s' :
      reach cap σ s → a ∈ Alloc.allocated (alloc_ s) → read a buffer s = Some (st, d, s') → reach cap σ s'
  | reach_write σ s a d st s' :
      reach cap σ s → a ∈ Alloc.allocated (alloc_ s) → guard s a → write a d s = Some (st, s') →
      reach cap (<[a := d]> σ) s'
  | reach_allocate σ s i s' :
      reach cap σ s → Alloc.has_room 32 (alloc_ s) 1 → allocate s = (i, s') → reach cap σ s'
  | reach_deallocate σ s a :
      reach cap σ s → a ∈ Alloc.allocated (alloc_ s) → reach cap σ (deallocate a s).

Context (Hbs : (0 ≤ block_size)%Z).

(** An invariant of the entries, the file and the allocator holds in every run
    if the operations on entries preserve it. *)
Lemma file_reach_inv (I : Z → gmap Z D → nat → list (Z * (bool * D)) → file → Prop) cap :
  I 0%Z ∅ (Z.to_nat cap) [] (mk_file ∅ 0) →
  (∀ n n' σ k es f, I n σ k es f → (n ≤ n')%Z → I n' σ k es f) →
  (∀ n σ k es f a, I n σ k es f → I n σ k (Lru.touch a es) f) →
  (∀ n σ k es f a buffer st d e es', I n σ k es f → NoDup es.*1 → in_range es → (0 ≤ a < n)%Z →
     Lru.assoc a es = None → pread a buffer f = (st, d) →
     BlkCache.spec_write k a d false es = (e, es') → I n σ k es' (flush true e f)) →
  (∀ s σ f a d e es', I (Alloc.cursor_ (alloc_ s)) σ (capacity s) (cached s) f → NoDup (cached s).*1 →
     in_range (cached s) → (0 ≤ a < Alloc.cursor_ (alloc_ s))%Z → guard s a →
     BlkCache.spec_write (capacity s) a d true (cached s) = (e, es') →
     I (Alloc.cursor_ (alloc_ s)) (<[a := d]> σ) (capacity s) es' (flush false e f)) →
  ∀ σ s, reach cap σ s →
    accessor_ok s ∧ is_Some (cache_ s) ∧ capacity s = Z.to_nat cap ∧
    I (Alloc.cursor_ (alloc_ s)) σ (capacity s) (cached s) (fd_ s).
Proof using Hbs.
  intros I0 Imono Itouch Ifill Iwrite σ s Hreach. induction Hreach as
    [|σ s a buffer st d s' _ IH Hal Hrd|σ s a d st s' _ IH Hal Hg Hw|σ s i s' _ IH Hroom Halloc|σ s a _ IH Hal].
  - split; [|by split; [eexists|split]]. unfold accessor_ok, cached. simpl.
    destruct (BlkCache.new_cache_ok (D := D) cap) as [Hok He].
    split; [split; [done|set_solver]|]. split; [constructor|]. split; [by intros b ?%elem_of_nil|]. by split.
  - destruct IH as (Hok & [c Ec] & Hcap & HI).
    destruct (file_read_ok s c a buffer Hok Ec Hal Hbs) as (st' & d' & s2 & Hrd' & Hok' & Ha' & Hc' & Hcap' & Hm).
    rewrite Hrd in Hrd'. injection Hrd' as <- <- <-. rewrite Ha', Hcap'.
    split; [done|]. split; [done|]. split; [done|]. apply Alloc.elem_of_allocated in Hal as [Hal _].
    destruct (Lru.assoc a (cached s)) as [[dt d0]|] eqn:Ea.
    + destruct Hm as (_ & _ & -> & ->). by apply Itouch.
    + destruct Hm as (Hp & e & Hs & ->). destruct Hok as (_ & Hnd & Hr & _). by eapply Ifill.
  - destruct IH as (Hok & [c Ec] & Hcap & HI).
    destruct (file_write_ok s c a d Hok Ec Hal) as (e & s2 & Hw' & Hok' & Ha' & Hc' & Hcap' & Hs & Hfd).
    rewrite Hw in Hw'. injection Hw' as <- <-. rewrite Ha', Hcap', Hfd.
    split; [done|]. split; [done|]. split; [done|]. apply Alloc.elem_of_allocated in Hal as [Hal _].
    destruct Hok as (_ & Hnd & Hr & _). by eapply Iwrite.
  - destruct IH as (Hok & Hc & Hcap & HI). unfold allocate in Halloc.
    destruct (Alloc.allocate 32 (alloc_ s)) as [j a'] eqn:Ea. injection Halloc as <- <-.
    destruct Hok as (Hwf & Hok). destruct (Alloc.allocate_ok 32 _ 0 _ _ Hwf Hroom Ea) as (_ & _ & _ & Hwf' & _).
    split; [by split|]. split; [done|]. split; [done|]. simpl. eapply Imono; [done|].
    unfold Alloc.allocate in Ea. destruct Hwf as [Hc0 _]. unfold Alloc.has_room in Hroom.
    case_decide; injection Ea as <- <-; simpl; [rewrite Z.mod_small by lia; lia|lia].
  - destruct IH as (Hok & Hc & Hcap & HI). destruct Hok as (Hwf & Hok).
    assert (Hlt : (Alloc.cursor_ (alloc_ s) < 2 ^ 63)%Z) by (destruct Hwf as [Hwf _]; lia).
    destruct (Alloc.deallocate_ok 32 (alloc_ s) 0 a Hlt Hwf) as (_ & Hwf' & _);
      [destruct Hwf as [Hwf _]; unfold Alloc.has_room; lia|done|].
    split; [by split|]. split; [done|]. split; [done|]. simpl.
    by rewrite Alloc.deallocate_cursor.
Qed.
End runs.

(** ** Writes that do not hit a clean unit *)
Definition careful (s : file_blk_accessor) (a : Z) : Prop := no_clean_hit a (cached s).

Lemma coherent_touch σ es f a : coherent σ es f → coherent σ (Lru.touch a es) f.
Proof. intros Hc b db Hb. rewrite assoc_touch. by apply Hc. Qed.

Lemma reach_coherent cap σ s :
  (0 ≤ block_size)%Z → reach careful cap σ s →
  accessor_ok s ∧ is_Some (cache_ s) ∧ coherent σ (cached s) (fd_ s).
Proof.
  intros Hbs Hr.
  destruct (file_reach_inv careful Hbs (λ _ σ _ es f, coherent σ es f) cap) with σ s
    as (Hok & Hc & _ & HI); try done.
  - intros n σ0 k es f a Hc. by apply coherent_touch.
  - intros n σ0 k es f a buffer st d e es' Hc Hnd Hrg Ha Ea Hp Hs.
    eapply coherent_miss; [done|done|done|done|lia|]. by eapply coherent_fill.
  - intros s0 σ0 f a d e es' Hc Hnd Hrg Ha Hg Hs. eapply coherent_write; eauto. lia.
Qed.

Lemma coherent_read σ s a buffer d :
  accessor_ok s → is_Some (cache_ s) → coherent σ (cached s) (fd_ s) → (0 ≤ block_size)%Z →
  a ∈ Alloc.allocated (alloc_ s) → σ !! a = Some d →
  ∃ s', read a buffer s = Some (block_size, d, s').
Proof.
  intros Hok [c Ec] Hc Hbs Hal Hd.
  destruct (file_read_ok s c a buffer Hok Ec Hal Hbs) as (st & d' & s' & -> & _ & _ & _ & _ & Hm).
  exists s'. pose proof (Hc a d Hd) as Ha. destruct (Lru.assoc a (cached s)) as [[[] d0]|] eqn:Ea.
  - destruct Hm as (-> & -> & _). by subst.
  - destruct Hm as (-> & -> & _). by destruct Ha as [-> _].
  - destruct Hm as (Hp & _). destruct (coherent_fill σ _ _ a buffer st d' Hc Ea Hp) as [_ Hf].
    by destruct (Hf d Hd) as [-> ->].
Qed.

(** ** Files that fit into the cache *)
Definition pinned (n : Z) (σ : gmap Z D) (k : nat) (es : list (Z * (bool * D))) : Prop :=
  (∀ b, b ∈ es.*1 → (b < n)%Z) ∧
  ((n ≤ Z.of_nat k)%Z → ∀ a d, σ !! a = Some d → snd <$> Lru.assoc a es = Some d).

Lemma ids_bound (l : list Z) n : NoDup l → (∀ b, b ∈ l → (0 ≤ b < n)%Z) → length l ≤ Z.to_nat n.
Proof.
  intros Hnd Hl. rewrite <- (length_seqZ 0 n). apply submseteq_length, NoDup_submseteq; [done|].
  intros b Hb. apply elem_of_seqZ. specialize (Hl b Hb). lia.
Qed.

(** No unit leaves a cache that has room for every address. *)
Lemma spec_write_no_evict cap a (d : D) dty es n :
  NoDup es.*1 → in_range es → (∀ b, b ∈ es.*1 → (b < n)%Z) → (0 ≤ a < n)%Z → (n ≤ Z.of_nat cap)%Z →
  Lru.assoc a es = None → BlkCache.spec_write cap a d dty es = (None, (a, (dty, d)) :: es).
Proof.
  intros Hnd Hr Hlt Ha Hn Ea. unfold BlkCache.spec_write. rewrite Ea.
  assert (Hlen : length ((a, (dty, d)) :: es).*1 ≤ Z.to_nat n).
  { apply ids_bound; [simpl; apply list.NoDup_cons; split; [by apply assoc_not_in|done]|].
    intros b Hb. simpl in Hb. apply elem_of_cons in Hb as [->|Hb]; [done|]. split; [by apply Hr|by apply Hlt]. }
  rewrite length_fmap in Hlen. destruct (Nat.ltb_spec cap (length ((a, (dty, d)) :: es))); [lia|done].
Qed.

Lemma pinned_write n σ k a (d : D) es e es' :
  pinned n σ k es → NoDup es.*1 → in_range es → (0 ≤ a < n)%Z →
  BlkCache.spec_write k a d true es = (e, es') → pinned n (<[a := d]> σ) k es'.
Proof.
  intros [Hlt Hp] Hnd Hr Ha Hs. split.
  - intros b Hb. destruct (spec_write_ids _ _ _ _ _ _ _ b Hs Hb) as [->|Hb']; [lia|by apply Hlt].
  - intros Hn b db Hb. destruct (Lru.assoc a es) as [[dt d0]|] eqn:Ea.
    + unfold BlkCache.spec_write in Hs. rewrite Ea in Hs. injection Hs as <- <-.
      destruct (decide (a = b)) as [->|Hne].
      * rewrite lookup_insert_eq in Hb. injection Hb as <-. by rewrite assoc_cons_eq.
      * rewrite lookup_insert_ne in Hb by done. rewrite assoc_cons_ne, assoc_forget_ne by congruence. by apply Hp.
    + rewrite (spec_write_no_evict k a d true es n) in Hs by done. injection Hs as <- <-.
      destruct (decide (a = b)) as [->|Hne].
      * rewrite lookup_insert_eq in Hb. injection Hb as <-. by rewrite assoc_cons_eq.
      * rewrite lookup_insert_ne in Hb by done. rewrite assoc_cons_ne by congruence. by apply Hp.
Qed.

Lemma reach_pinned cap σ s :
  (0 ≤ block_size)%Z → reach (λ _ _, True) cap σ s →
  accessor_ok s ∧ is_Some (cache_ s) ∧ pinned (Alloc.cursor_ (alloc_ s)) σ (capacity s) (cached s).
Proof.
  intros Hbs Hr.
  destruct (file_reach_inv (λ _ _, True) Hbs (λ n σ k es _, pinned n σ k es) cap) with σ s
    as (Hok & Hc & _ & HI); try done.
  - split; [by intros b ?%elem_of_nil|done].
  - intros n n' σ0 k es _ [Hlt Hp] Hn. split; [intros b Hb; specialize (Hlt b Hb); lia|].
    intros Hk. apply Hp. lia.
  - intros n σ0 k es _ a [Hlt Hp]. split; [intros b Hb; apply Hlt; by eapply touch_ids|].
    intros Hk b db Hb. rewrite assoc_touch. by apply Hp.
  - intros n σ0 k es _ a buffer st d e es' [Hlt Hp] Hnd Hrg Ha Ea _ Hs. split.
    + intros b Hb. destruct (spec_write_ids _ _ _ _ _ _ _ b Hs Hb) as [->|Hb']; [lia|by apply Hlt].
    + intros Hk b db Hb. rewrite (spec_write_no_evict k a d false es n) in Hs by done.
      injection Hs as <- <-. specialize (Hp Hk b db Hb). destruct (decide (a = b)) as [->|Hne].
      * by rewrite Ea in Hp.
      * by rewrite assoc_cons_ne by congruence.
  - intros s0 σ0 _ a d e es' Hp Hnd Hrg Ha _ Hs. by eapply pinned_write.
Qed.

Lemma pinned_read σ s a buffer d :
  accessor_ok s → is_Some (cache_ s) → pinned (Alloc.cursor_ (alloc_ s)) σ (capacity s) (cached s) →
  (Alloc.cursor_ (alloc_ s) ≤ Z.of_nat (capacity s))%Z → (0 ≤ block_size)%Z →
  a ∈ Alloc.allocated (alloc_ s) → σ !! a = Some d →
  ∃ s', read a buffer s = Some (block_size, d, s').
Proof.
  intros Hok [c Ec] [_ Hp] Hk Hbs Hal Hd.
  destruct (file_read_ok s c a buffer Hok Ec Hal Hbs) as (st & d' & s' & -> & _ & _ & _ & _ & Hm).
  specialize (Hp Hk a d Hd). exists s'. destruct (Lru.assoc a (cached s)) as [[dt d0]|]; simplify_eq/=.
  by destruct Hm as (-> & -> & _).
Qed.

(** ** Playing a list of operations *)
Inductive op := Read (a : Z) (buffer : D) | Write (a : Z) (d : D) | Allocate | Deallocate (a : Z).

Definition carefulb (s : file_blk_accessor) (a : Z) : bool :=
  match Lru.assoc a (cached s) with Some (false, _) => false | _ => true end.

(** One operation on the accessor and on the last contents written; [guard]
    refuses writes. *)
Definition play_one (guard : file_blk_accessor → Z → bool) (o : op) (x : gmap Z D * file_blk_accessor)
    : option (gmap Z D * file_blk_accessor) :=
  let '(σ, s) := x in
  match o with
  | Read a buffer =>
      if decide (a ∈ Alloc.allocated (alloc_ s)) then '(_, _, s) ← read a buffer s; Some (σ, s) else None
  | Write a d =>
      if decide (a ∈ Alloc.allocated (alloc_ s)) then
        if guard s a then '(_, s) ← write a d s; Some (<[a := d]> σ, s) else None
      else None
  | Allocate =>
      if (Alloc.cursor_ (alloc_ s) + 1 <? 2 ^ 32)%Z then Some (σ, (allocate s).2) else None
  | Deallocate a =>
      if decide (a ∈ Alloc.allocated (alloc_ s)) then Some (σ, deallocate a s) else None
  end.

Fixpoint play (guard : file_blk_accessor → Z → bool) (os : list op) (x : gmap Z D * file_blk_accessor)
    : option (gmap Z D * file_blk_accessor) :=
  match os with [] => Some x | o :: os' => x ← play_one guard o x; play guard os' x end.

Lemma play_reach (guard : file_blk_accessor → Z → bool) (P : file_blk_accessor → Z → Prop) cap os :
  (∀ s a, guard s a = true → P s a) →
  ∀ σ s σ' s', reach P cap σ s → play guard os (σ, s) = Some (σ', s') → reach P cap σ' s'.
Proof.
  intros HP. induction os as [|o os IH]; intros σ s σ' s' Hr Hp; [by injection Hp as <- <-|].
  cbn [play] in Hp. destruct (play_one guard o (σ, s)) as [[σ1 s1]|] eqn:Eo; [|done]. simpl in Hp.
  apply (IH σ1 s1); [|done]. clear Hp IH. destruct o as [a buffer|a d| |a]; simpl in Eo.
  - case_decide; [|done]. destruct (read a buffer s) as [[[st d] s2]|] eqn:Er; simplify_eq/=.
    by eapply reach_read.
  - case_decide; [|done]. destruct (guard s a) eqn:Eg; [|done].
    destruct (write a d s) as [[st s2]|] eqn:Ew; simplify_eq/=. eapply reach_write; eauto.
  - destruct (Z.ltb_spec (Alloc.cursor_ (alloc_ s) + 1) (2 ^ 32)); [|done]. simplify_eq/=.
    eapply (reach_allocate P cap _ s (allocate s).1); [done|done|]. by destruct (allocate s).
  - case_decide; simplify_eq/=. by eapply reach_deallocate.
Qed.

Lemma carefulb_careful s a : carefulb s a = true → careful s a.
Proof. unfold carefulb, careful, no_clean_hit. intros Hb d Ha. by rewrite Ha in Hb. Qed.

End accessor.
End FileAccessor.


(** ** The properties *)
Section claims.
Context `{!SetBegin}.
Import FileAccessor.

(** C25: In every run of the accessor (any order of reads, writes, allocations
    and deallocations, any cache capacity) in which no write hits a unit that a
    read brought into the cache, reading an allocated block returns, and
    returns the last content written to it. *)
Theorem file_read_last_write {D} (zero : D) bs cap σ s a buffer d :
  (0 ≤ bs)%Z → reach zero bs careful cap σ s → a ∈ Alloc.allocated (alloc_ s) → σ !! a = Some d →
  ∃ s', read zero bs a buffer s = Some (bs, d, s').
Proof.
  intros Hbs Hr Ha Hd. destruct (reach_coherent zero bs cap σ s Hbs Hr) as (Hok & Hc & Hco).
  by eapply coherent_read.
Qed.

(** As long as the accessor has handed out no more addresses than the cache
    has room for, reading an allocated block returns the last content written
    to it, whatever the order of the operations. *)
Theorem file_read_last_write_pinned {D} (zero : D) bs cap σ s a buffer d :
  (0 ≤ bs)%Z → reach zero bs (λ _ _, True) cap σ s → (Alloc.cursor_ (alloc_ s) ≤ Z.of_nat (capacity s))%Z →
  a ∈ Alloc.allocated (alloc_ s) → σ !! a = Some d → ∃ s', read zero bs a buffer s = Some (bs, d, s').
Proof.
  intros Hbs Hr Hk Ha Hd. destruct (reach_pinned zero bs cap σ s Hbs Hr) as (Hok & Hc & Hp).
  by eapply pinned_read.
Qed.
End claims.

(** ** Concrete runs *)
Section runs.
Import FileAccessor.

(** Two blocks and a cache with room for one: block 0 is written and evicted by
    a write of block 1, then read again and found on the file. *)
Definition evicting_run : list (@op Z) := [Allocate; Allocate; Write 0 10; Write 1 20; Read 0 0]%Z.

Definition evicting_end : option (gmap Z Z * file_blk_accessor (D := Z)) :=
  play 0%Z 512 carefulb evicting_run (∅, open (Some 1%Z)).

Lemma evicting_reach : ∃ σ s, evicting_end = Some (σ, s) ∧ reach 0%Z 512 careful 1 σ s ∧
  bool_decide (0%Z ∈ Alloc.allocated (alloc_ s)) = true ∧ σ !! 0%Z = Some 10%Z.
Proof.
  destruct evicting_end as [[σ s]|] eqn:E; [|vm_compute in E; discriminate].
  exists σ, s. split; [done|]. split.
  - unfold evicting_end in E. revert E. apply play_reach; [apply carefulb_careful|apply reach_open].
  - vm_compute in E. injection E as <- <-. split; vm_compute; reflexivity.
Qed.

Lemma file_read_last_write_witness :
  ∃ σ s, evicting_end = Some (σ, s) ∧ ∃ s', read 0%Z 512 0 7%Z s = Some (512, 10, s')%Z.
Proof.
  destruct evicting_reach as (σ & s & E & Hr & Ha & Hd). exists σ, s. split; [exact E|].
  refine (file_read_last_write 0%Z 512 1 σ s 0 7%Z 10%Z _ Hr _ Hd); [lia|].
  apply bool_decide_eq_true in Ha. exact Ha.
Defined.

(** A run with a write that hits a clean unit, inside the capacity. *)
Definition rewriting_run : list (@op Z) := [Allocate; Allocate; Read 0 0; Write 0 10; Write 1 20; Write 0 11]%Z.

Definition rewriting_end : option (gmap Z Z * file_blk_accessor (D := Z)) :=
  play 0%Z 512 (λ _ _, true) rewriting_run (∅, open (Some 2%Z)).

Lemma rewriting_reach : ∃ σ s, rewriting_end = Some (σ, s) ∧ reach 0%Z 512 (λ _ _, True) 2 σ s ∧
  bool_decide (0%Z ∈ Alloc.allocated (alloc_ s)) = true ∧ σ !! 0%Z = Some 11%Z ∧
  (Alloc.cursor_ (alloc_ s) <=? Z.of_nat (capacity s))%Z = true.
Proof.
  destruct rewriting_end as [[σ s]|] eqn:E; [|vm_compute in E; discriminate].
  exists σ, s. split; [done|]. split.
  - unfold rewriting_end in E. revert E. apply play_reach; [done|apply reach_open].
  - vm_compute in E. injection E as <- <-. split; [|split]; vm_compute; reflexivity.
Qed.

Lemma file_read_last_write_pinned_witness :
  ∃ σ s, rewriting_end = Some (σ, s) ∧ ∃ s', read 0%Z 512 0 7%Z s = Some (512, 11, s')%Z.
Proof.
  destruct rewriting_reach as (σ & s & E & Hr & Ha & Hd & Hk). exists σ, s. split; [exact E|].
  refine (file_read_last_write_pinned 0%Z 512 2 σ s 0 7%Z 11%Z _ Hr _ _ Hd); [lia|apply Z.leb_le, Hk|].
  apply bool_decide_eq_true in Ha. exact Ha.
Defined.


End runs.
