(* ===== verification/Estimator.v ===== *)
(** The latency bookkeeping that decides when the scheduler probes the device:
    the estimator of ready commands (src/src/scheduler/ready_state_estimator.h),
    the histogram of its linear-regression variant
    (src/src/scheduler/linear_regression_estimator.h) and the metrics of an
    accessor (src/src/blk/blk_metrics.h).

    Timestamps are 64-bit cycle counters. The weighted sum over the histogram is
    single-precision arithmetic and is not modelled. *)
From Stdlib Require Import ZArith Lia.
From stdpp Require Import base list gmap sorting numbers.
From S2P Require Import Prelude.

Module Estimator.

Definition U64 : Z := 18446744073709551616.
Definition INT64_MAX : Z := 9223372036854775807.
Definition granularity : nat := 20.
Definition width : Z := 1000.
Definition CPU_FREQUENCY : Z := 2697.

(** ** The estimator *)
Record ready_state_estimator := mk_estimator {
  read_time_array_ : list Z;
  write_time_array_ : list Z;
  id_to_time_ : gmap Z Z;
  read_latency : Z;
  write_latency : Z }.

Definition new_estimator (read_lat write_lat : Z) : ready_state_estimator :=
  mk_estimator [] [] ∅ read_lat write_lat.

Inductive io := read_io | write_io.

Definition times (t : io) (e : ready_state_estimator) : list Z :=
  match t with read_io => read_time_array_ e | write_io => write_time_array_ e end.
Definition latency (t : io) (e : ready_state_estimator) : Z :=
  match t with read_io => read_latency e | write_io => write_latency e end.
Definition set_times (t : io) (l : list Z) (ids : gmap Z Z) (e : ready_state_estimator) : ready_state_estimator :=
  match t with
  | read_io => mk_estimator l (write_time_array_ e) ids (read_latency e) (write_latency e)
  | write_io => mk_estimator (read_time_array_ e) l ids (read_latency e) (write_latency e)
  end.

(** [register_read_io], [register_write_io] *)
Definition register_io (t : io) (id timestamp : Z) (e : ready_state_estimator) : ready_state_estimator :=
  set_times t (times t e ++ [timestamp]) (<[id := timestamp]> (id_to_time_ e)) e.

(** The search loop and the erasure; running past the end is undefined. *)
Fixpoint erase_time (time : Z) (l : list Z) : option (list Z) :=
  match l with
  | [] => None
  | t :: l' => if (t =? time)%Z then Some l' else cons t <$> erase_time time l'
  end.

(** [remove_read_io], [remove_write_io]: an unknown id fails the assertion. *)
Definition remove_io (t : io) (id : Z) (e : ready_state_estimator) : option ready_state_estimator :=
  time ← id_to_time_ e !! id;
  l ← erase_time time (times t e);
  Some (set_times t l (delete id (id_to_time_ e)) e).

(** The loops of [estimate_number_of_ready_reads] and [..._writes] stop at the
    first command that is not ready. *)
Fixpoint count_ready (lat timestamp : Z) (l : list Z) : nat :=
  match l with
  | [] => 0
  | t :: l' => if ((t + lat) mod U64 <=? timestamp)%Z then S (count_ready lat timestamp l') else 0
  end.

Definition estimate_number_of_ready (t : io) (timestamp : Z) (e : ready_state_estimator) : nat :=
  count_ready (latency t e) timestamp (times t e).
Definition estimate_number_of_ready_ios (timestamp : Z) (e : ready_state_estimator) : nat :=
  estimate_number_of_ready read_io timestamp e + estimate_number_of_ready write_io timestamp e.

(** [estimate_the_time_to_get_desirable_ready_write_state]: the sum is one of
    unsigned 64-bit integers, returned as a signed one. *)
Definition to_int64 (x : Z) : Z := let y := (x mod U64)%Z in if (y <=? INT64_MAX)%Z then y else (y - U64)%Z.
Fixpoint nth_time (expected count : Z) (l : list Z) : Z :=
  match l with
  | [] => INT64_MAX
  | t :: l' => if (count + 1 =? expected)%Z then to_int64 t else nth_time expected (count + 1) l'
  end.
Definition estimate_the_time_to_get_desirable_ready_write_state (expected : Z) (e : ready_state_estimator) : Z :=
  to_int64 (nth_time expected 0 (write_time_array_ e) + write_latency e).

Definition get_number_of_pending_state (e : ready_state_estimator) : nat :=
  length (read_time_array_ e) + length (write_time_array_ e).
Definition get_number_of_pending_write_state (e : ready_state_estimator) : nat := length (write_time_array_ e).

Definition update_latency_in_cycles (t : io) (lat : Z) (e : ready_state_estimator) : ready_state_estimator :=
  match t with
  | read_io => mk_estimator (read_time_array_ e) (write_time_array_ e) (id_to_time_ e) lat (write_latency e)
  | write_io => mk_estimator (read_time_array_ e) (write_time_array_ e) (id_to_time_ e) (read_latency e) lat
  end.

(** ** The histogram of the linear regression *)
(** [cycles_to_nanoseconds] in exact arithmetic, and the microseconds left of
    the window, truncated towards zero as the conversion to int does. *)
Definition cycles_to_nanoseconds (cycles : Z) : Z := (cycles * 1000 / CPU_FREQUENCY)%Z.
Definition offset (now t : Z) : nat :=
  let ns := cycles_to_nanoseconds ((now - t) mod U64) in
  Z.to_nat (Z.max 0 (Z.quot (width * 1000 - ns) 1000) / (width / Z.of_nat granularity)).

Fixpoint tally (now : Z) (base : nat) (l : list Z) (counts : list Z) : option (list Z) :=
  match l with
  | [] => Some counts
  | t :: l' =>
      c ← counts !! (base + offset now t);
      tally now base l' (<[base + offset now t := (c + 1)%Z]> counts)
  end.

Definition histogram (now : Z) (e : ready_state_estimator) : option (list Z) :=
  counts ← tally now 0 (read_time_array_ e) (replicate (granularity * 2) 0%Z);
  tally now granularity (write_time_array_ e) counts.

(** ** The invariant *)
(** The commands in flight: type, id and submission time, oldest first. *)
Definition command : Type := io * (Z * Z).
Definition of_type (t : io) (l : list command) : list Z :=
  omap (λ c, match c.1, t with read_io, read_io | write_io, write_io => Some c.2.2 | _, _ => None end) l.

Definition estimator_ok (l : list command) (e : ready_state_estimator) : Prop :=
  NoDup l.*2.*1 ∧ id_to_time_ e = list_to_map l.*2 ∧
  (∀ t, times t e ≡ₚ of_type t l) ∧ (∀ t, StronglySorted Z.le (times t e)).

Lemma erase_time_ok time l :
  time ∈ l → ∃ l', erase_time time l = Some l' ∧ l ≡ₚ time :: l' ∧
    (StronglySorted Z.le l → StronglySorted Z.le l').
Proof.
  induction l as [|t l IH]; intros Hin; [by apply elem_of_nil in Hin|]. simpl.
  destruct (Z.eqb_spec t time) as [->|Hne].
  - exists l. split; [done|]. split; [done|]. by inversion 1.
  - apply elem_of_cons in Hin as [->|Hin]; [done|]. destruct (IH Hin) as (l' & -> & Hp & Hs). simpl.
    exists (t :: l'). split; [done|]. split; [rewrite Hp; apply Permutation_swap|].
    intros Hss. inversion Hss as [|? ? Hl Hall]; subst. constructor; [auto|].
    rewrite Hp in Hall. by inversion Hall.
Qed.

Lemma of_type_app t l1 l2 : of_type t (l1 ++ l2) = of_type t l1 ++ of_type t l2.
Proof. apply omap_app. Qed.

Lemma of_type_one t t' id time : of_type t [(t', (id, time))] = match t, t' with
  | read_io, read_io | write_io, write_io => [time] | _, _ => [] end.
Proof. by destruct t, t'. Qed.

Lemma times_set t t' l ids e : times t (set_times t' l ids e) =
  match t, t' with read_io, read_io | write_io, write_io => l | _, _ => times t e end.
Proof. by destruct t, t'. Qed.

Lemma register_io_ok l e t id timestamp :
  estimator_ok l e → id ∉ l.*2.*1 → (∀ t' x, x ∈ times t' e → (x ≤ timestamp)%Z) →
  estimator_ok (l ++ [(t, (id, timestamp))]) (register_io t id timestamp e).
Proof.
  intros (Hnd & Hids & Htm & Hs) Hid Hle. split_and!.
  - rewrite !fmap_app. simpl. apply list.NoDup_app. split; [done|]. split; [|apply NoDup_singleton].
    intros x Hx ->%list_elem_of_singleton. done.
  - unfold register_io. assert (He : id_to_time_ (set_times t (times t e ++ [timestamp]) (<[id := timestamp]> (id_to_time_ e)) e)
      = <[id := timestamp]> (id_to_time_ e)) by (by destruct t).
    rewrite He, Hids, fmap_app. simpl. rewrite list_to_map_snoc; [done|]. done.
  - intros t'. unfold register_io. rewrite times_set, of_type_app, of_type_one.
    destruct t, t'; rewrite ?app_nil_r; try apply Htm; apply Permutation_app_tail; apply Htm.
  - intros t'. unfold register_io. rewrite times_set.
    assert (Hsn : StronglySorted Z.le (times t e ++ [timestamp])).
    { apply StronglySorted_app. split_and!; [|done|by repeat constructor].
      intros x1 x2 Hx1 ->%list_elem_of_singleton. by eapply Hle. }
    destruct t, t'; try apply Hs; apply Hsn.
Qed.

Lemma remove_io_ok l1 t id time l2 e :
  estimator_ok (l1 ++ (t, (id, time)) :: l2) e →
  ∃ e', remove_io t id e = Some e' ∧ estimator_ok (l1 ++ l2) e' ∧
    (∀ t' x, x ∈ times t' e' → x ∈ times t' e).
Proof.
  intros (Hnd & Hids & Htm & Hs).
  assert (Hp : l1 ++ (t, (id, time)) :: l2 ≡ₚ (t, (id, time)) :: l1 ++ l2) by (symmetry; apply Permutation_middle).
  rewrite Hp in Hnd. simpl in Hnd. apply list.NoDup_cons in Hnd as [Hni Hnd].
  assert (Hmap : list_to_map (M := gmap Z Z) (l1 ++ (t, (id, time)) :: l2).*2 = <[id := time]> (list_to_map (l1 ++ l2).*2)).
  { change (<[id := time]> (list_to_map (l1 ++ l2).*2))
      with (list_to_map (M := gmap Z Z) ((id, time) :: (l1 ++ l2).*2)).
    apply list_to_map_proper; [|by rewrite Hp].
    rewrite Hp. simpl. apply list.NoDup_cons. done. }
  assert (Hof : ∀ t', of_type t' (l1 ++ (t, (id, time)) :: l2) ≡ₚ of_type t' [(t, (id, time))] ++ of_type t' (l1 ++ l2)).
  { intros t'. unfold of_type. rewrite Hp. change ((t, (id, time)) :: l1 ++ l2) with ([(t, (id, time))] ++ (l1 ++ l2)).
    by rewrite omap_app. }
  unfold remove_io. rewrite Hids, Hmap, lookup_insert_eq. cbn [mbind option_bind].
  destruct (erase_time_ok time (times t e)) as (l' & -> & Hl' & Hsl).
  { rewrite Htm, Hof, of_type_one. destruct t; simpl; constructor. }
  simpl. eexists. split; [done|]. split; [split_and!|].
  - done.
  - assert (He : id_to_time_ (set_times t l' (delete id (<[id:=time]> (list_to_map (l1 ++ l2).*2))) e)
      = delete id (<[id:=time]> (list_to_map (l1 ++ l2).*2))) by (by destruct t).
    rewrite He, delete_insert_eq, delete_id; [done|]. by apply not_elem_of_list_to_map_1.
  - intros t'. rewrite times_set. specialize (Htm t'). rewrite Hof, of_type_one in Htm.
    destruct t, t'; simpl in *; try done; apply (Permutation_cons_inv (a := time)); by rewrite <- Hl', Htm.
  - intros t'. rewrite times_set. destruct t, t'; try apply Hs; apply Hsl, Hs.
  - intros t' x. rewrite times_set.
    destruct t, t'; simpl in *; try done; intros Hx; rewrite Hl'; by constructor.
Qed.

Lemma length_of_type l : length (of_type read_io l) + length (of_type write_io l) = length l.
Proof. induction l as [|[[] [id time]] l IH]; simpl in *; [done|lia|]. unfold of_type in *. simpl. lia. Qed.

Lemma times_update t t' lat e : times t (update_latency_in_cycles t' lat e) = times t e.
Proof. by destruct t, t'. Qed.

Lemma update_latency_ok l e t lat : estimator_ok l e → estimator_ok l (update_latency_in_cycles t lat e).
Proof.
  intros (H1 & H2 & H3 & H4). split; [done|]. split; [by destruct t|].
  split; intros t'; rewrite times_update; auto.
Qed.

(** ** Runs *)
(** Commands are submitted with fresh ids at non-decreasing times and completed
    in any order; latencies are updated at any time. *)
Inductive reach : list command → Z → ready_state_estimator → Prop :=
  | reach_new r w : reach [] 0 (new_estimator r w)
  | reach_register l now e t id timestamp :
      reach l now e → id ∉ l.*2.*1 → (now ≤ timestamp)%Z →
      reach (l ++ [(t, (id, timestamp))]) timestamp (register_io t id timestamp e)
  | reach_remove l1 t id time l2 now e e' :
      reach (l1 ++ (t, (id, time)) :: l2) now e → remove_io t id e = Some e' → reach (l1 ++ l2) now e'
  | reach_update l now e t lat :
      reach l now e → reach l now (update_latency_in_cycles t lat e).

Lemma estimator_reach_ok l now e : reach l now e → estimator_ok l e ∧ ∀ t x, x ∈ times t e → (x ≤ now)%Z.
Proof.
  induction 1 as [r w|l now e t id timestamp _ [Hok Hle] Hid Hts|l1 t id time l2 now e e' _ [Hok Hle] He'
    |l now e t lat _ [Hok Hle]].
  - split; [split_and!; [constructor|done|by intros []|intros []; constructor]|].
    intros [] x Hx; simpl in Hx; by apply elem_of_nil in Hx.
  - split.
    + apply register_io_ok; [done|done|]. intros t' x Hx. specialize (Hle t' x Hx). lia.
    + intros t' x. unfold register_io. rewrite times_set. intros Hx.
      assert (Hc : x ∈ times t' e ∨ x = timestamp).
      { destruct t, t'; rewrite ?elem_of_app, ?list_elem_of_singleton in Hx; naive_solver. }
      destruct Hc as [Hc| ->]; [specialize (Hle t' x Hc)|]; lia.
  - destruct (remove_io_ok l1 t id time l2 e Hok) as (e2 & Hr & Hok2 & Hsub). rewrite He' in Hr.
    injection Hr as <-. split; [done|]. intros t' x Hx. eapply Hle, Hsub, Hx.
  - split; [by apply update_latency_ok|]. intros t' x. rewrite times_update. apply Hle.
Qed.

Lemma pending_ok l e : estimator_ok l e → get_number_of_pending_state e = length l.
Proof.
  intros (_ & _ & Htm & _). unfold get_number_of_pending_state. rewrite <- length_of_type.
  specialize (Htm read_io) as Hr. specialize (Htm write_io) as Hw. simpl in *. by rewrite Hr, Hw.
Qed.

(** The early exit of the loop counts every ready command. *)
Lemma count_ready_ok lat timestamp l :
  StronglySorted Z.le l → (∀ t, t ∈ l → 0 ≤ t ∧ t + lat < U64)%Z → (0 ≤ lat)%Z →
  count_ready lat timestamp l = length (filter (λ t, (t + lat ≤ timestamp)%Z) l).
Proof.
  intros Hs Hb Hlat. induction l as [|t l IH]; [done|]. inversion Hs as [|? ? Hs' Hall]; subst.
  assert (Hbt : (0 ≤ t ∧ t + lat < U64)%Z) by (apply Hb; constructor).
  simpl. rewrite Z.mod_small by lia. rewrite filter_cons. destruct (Z.leb_spec (t + lat) timestamp).
  - rewrite decide_True by done. simpl. f_equal. apply IH; [done|]. intros t' Ht'. apply Hb. by constructor.
  - rewrite decide_False by lia. rewrite filter_none; [done|]. intros t' Ht'.
    rewrite list.Forall_forall in Hall. specialize (Hall t' Ht'). lia.
Qed.

(** ** The histogram *)
(** The bucket is one past the last one exactly for commands submitted less
    than a nanosecond (three cycles) ago. *)
Definition elapsed (now t : Z) : Z := ((now - t) mod U64)%Z.

Lemma offset_range now t :
  offset now t ≤ granularity ∧ (offset now t = granularity ↔ (elapsed now t < 3)%Z).
Proof.
  unfold offset, granularity, width, elapsed. cbn zeta. set (cycles := ((now - t) mod U64)%Z).
  assert (Hc : (0 ≤ cycles)%Z) by (apply Z.mod_pos_bound; done).
  change (1000 / Z.of_nat 20)%Z with 50%Z. set (ns := cycles_to_nanoseconds cycles).
  assert (Hns : (0 ≤ ns ∧ (ns = 0 ↔ cycles < 3))%Z).
  { unfold ns, cycles_to_nanoseconds, CPU_FREQUENCY.
    pose proof (Z.div_mod (cycles * 1000) 2697 ltac:(done)). pose proof (Z.mod_pos_bound (cycles * 1000) 2697 ltac:(done)).
    lia. }
  destruct (Z.le_gt_cases ns 1000000) as [Hle|Hgt].
  - rewrite Z.quot_div_nonneg by lia. set (us := ((1000 * 1000 - ns) / 1000)%Z).
    assert (Hus : (0 ≤ us ≤ 1000 ∧ (us = 1000 ↔ ns = 0))%Z).
    { unfold us. pose proof (Z.div_mod (1000 * 1000 - ns) 1000 ltac:(done)).
      pose proof (Z.mod_pos_bound (1000 * 1000 - ns) 1000 ltac:(done)). lia. }
    rewrite Z.max_r by lia. pose proof (Z.div_mod us 50 ltac:(done)). pose proof (Z.mod_pos_bound us 50 ltac:(done)).
    lia.
  - assert (Hq : (Z.quot (1000 * 1000 - ns) 1000 ≤ 0)%Z).
    { etrans; [apply (Z.quot_le_mono _ 0); lia|done]. }
    rewrite Z.max_l by lia. change (0 / 50)%Z with 0%Z. simpl. lia.
Qed.

Definition total (l : list Z) : Z := foldr Z.add 0%Z l.

Lemma total_insert l i c : l !! i = Some c → total (<[i := (c + 1)%Z]> l) = (total l + 1)%Z.
Proof.
  revert i. induction l as [|x l IH]; intros [|i] Hi; simplify_eq/=; [lia|].
  fold (total (<[i := (c + 1)%Z]> l)) (total l). rewrite (IH i Hi). lia.
Qed.

Lemma tally_ok now base l : ∀ counts,
  (∀ t, t ∈ l → base + offset now t < length counts) →
  ∃ counts', tally now base l counts = Some counts' ∧ length counts' = length counts ∧
    total counts' = (total counts + Z.of_nat (length l))%Z.
Proof.
  induction l as [|t l IH]; intros counts Hl; simpl.
  { exists counts. split; [done|]. split; [done|]. lia. }
  destruct (lookup_lt_is_Some_2 counts (base + offset now t)) as [c Hc]; [apply Hl; constructor|].
  rewrite Hc. simpl. destruct (IH (<[base + offset now t := (c + 1)%Z]> counts)) as (c' & -> & Hlen & Htot).
  - intros t' Ht'. rewrite length_insert. apply Hl. by constructor.
  - exists c'. split; [done|]. rewrite Hlen, length_insert. split; [done|]. rewrite Htot, total_insert by done. lia.
Qed.

Lemma tally_fails now base t l : ∀ counts,
  t ∈ l → length counts ≤ base + offset now t → tally now base l counts = None.
Proof.
  induction l as [|t' l IH]; intros counts Hin Hlen; [by apply elem_of_nil in Hin|]. simpl.
  destruct (counts !! (base + offset now t')) as [c|] eqn:E; [|done]. simpl.
  apply elem_of_cons in Hin as [->|Hin]; [apply lookup_lt_Some in E; lia|].
  apply IH; [done|]. by rewrite length_insert.
Qed.

Lemma histogram_ok now e :
  (∀ t, t ∈ write_time_array_ e → (3 ≤ elapsed now t)%Z) →
  ∃ counts, histogram now e = Some counts ∧ total counts = Z.of_nat (get_number_of_pending_state e).
Proof.
  intros Hw. unfold histogram.
  destruct (tally_ok now 0 (read_time_array_ e) (replicate (granularity * 2) 0%Z)) as (c1 & -> & Hl1 & Ht1).
  { intros t Ht. rewrite length_replicate. destruct (offset_range now t) as [Ho _]. unfold granularity in *. lia. }
  cbn [mbind option_bind]. rewrite length_replicate in Hl1.
  destruct (tally_ok now granularity (write_time_array_ e) c1) as (c2 & -> & _ & Ht2).
  { intros t Ht. destruct (offset_range now t) as [Ho Hr]. specialize (Hw t Ht). unfold granularity in *. lia. }
  exists c2. split; [done|]. rewrite Ht2, Ht1. unfold get_number_of_pending_state.
  assert (Hz : total (replicate (granularity * 2) 0%Z) = 0%Z) by reflexivity. rewrite Hz. lia.
Qed.

Lemma histogram_fails now e t :
  t ∈ write_time_array_ e → (elapsed now t < 3)%Z → histogram now e = None.
Proof.
  intros Ht Hr. unfold histogram.
  destruct (tally_ok now 0 (read_time_array_ e) (replicate (granularity * 2) 0%Z)) as (c1 & -> & Hl1 & _).
  { intros t' _. rewrite length_replicate. destruct (offset_range now t') as [Ho _]. unfold granularity in *. lia. }
  cbn [mbind option_bind]. rewrite length_replicate in Hl1. eapply tally_fails; [done|].
  apply offset_range in Hr. rewrite Hr, Hl1. unfold granularity. lia.
Qed.

End Estimator.

(** ** The properties *)
Section claims.
Import Estimator.

(** However commands are submitted (fresh ids, non-decreasing times),
    completed (in any order) and latencies updated, completing a command in
    flight never fails an assertion nor runs past the end of the time array,
    and the number of pending commands is the number in flight. *)
Theorem estimator_tracks_commands l now e t id time :
  reach l now e → (t, (id, time)) ∈ l →
  get_number_of_pending_state e = length l ∧
  ∃ e', remove_io t id e = Some e' ∧ get_number_of_pending_state e' = length l - 1.
Proof.
  intros Hr Hin. destruct (estimator_reach_ok l now e Hr) as [Hok _]. split; [by apply pending_ok|].
  apply list_elem_of_split in Hin as (l1 & l2 & ->).
  destruct (remove_io_ok l1 t id time l2 e Hok) as (e' & He' & Hok' & _). exists e'. split; [done|].
  rewrite (pending_ok _ _ Hok'), !length_app. simpl. lia.
Qed.

Lemma estimator_tracks_commands_witness :
  get_number_of_pending_state (register_io write_io 1 12 (register_io read_io 0 10 (new_estimator 5 7))) = 2 ∧
  ∃ e', remove_io read_io 0 (register_io write_io 1 12 (register_io read_io 0 10 (new_estimator 5 7))) = Some e' ∧
    get_number_of_pending_state e' = 1.
Proof.
  apply (estimator_tracks_commands [(read_io, (0, 10)); (write_io, (1, 12))]%Z 12 _ read_io 0 10).
  - apply (reach_register [(read_io, (0, 10))]%Z 10); [|set_solver|lia].
    apply (reach_register [] 0); [apply reach_new|set_solver|lia].
  - constructor.
Defined.

(** The loop that stops at the first command that is not ready counts every
    command whose latency has passed, in every run whose timestamps do not wrap
    around. *)
Theorem estimate_counts_ready l now e t timestamp :
  reach l now e → (∀ x, x ∈ times t e → 0 ≤ x ∧ x + latency t e < U64)%Z → (0 ≤ latency t e)%Z →
  estimate_number_of_ready t timestamp e =
    length (filter (λ x, (x + latency t e ≤ timestamp)%Z) (of_type t l)).
Proof.
  intros Hr Hb Hlat. destruct (estimator_reach_ok l now e Hr) as [(_ & _ & Htm & Hs) _].
  unfold estimate_number_of_ready. rewrite count_ready_ok by (done || apply Hs).
  apply Permutation_length. by rewrite (Htm t).
Qed.

Lemma estimate_counts_ready_witness :
  estimate_number_of_ready read_io 16 (register_io read_io 1 12 (register_io read_io 0 10 (new_estimator 5 7))) =
    length (filter (λ x, (x + 5 ≤ 16)%Z) [10; 12]%Z).
Proof.
  apply (estimate_counts_ready [(read_io, (0, 10)); (read_io, (1, 12))]%Z 12).
  - apply (reach_register [(read_io, (0, 10))]%Z 10); [|set_solver|lia].
    apply (reach_register [] 0); [apply reach_new|set_solver|lia].
  - intros x Hx. cbn in Hx. unfold U64. cbn. 
    assert (x = 10 ∨ x = 12)%Z by set_solver. lia.
  - cbn. lia.
Defined.

(** C36: The histogram of the linear regression counts every pending command
    exactly when no write was submitted within the last three cycles; otherwise
    it writes past the end of its array. *)
Theorem histogram_in_bounds_iff now e :
  (∃ counts, histogram now e = Some counts ∧ total counts = Z.of_nat (get_number_of_pending_state e)) ↔
  (∀ t, t ∈ write_time_array_ e → (3 ≤ elapsed now t)%Z).
Proof.
  split; [|apply histogram_ok]. intros (counts & Hh & _) t Ht.
  destruct (Z.le_gt_cases 3 (elapsed now t)) as [|Hlt]; [done|].
  by rewrite (histogram_fails now e t) in Hh.
Qed.
End claims.
