(* ===== verification/Metrics.v ===== *)
(** The metrics of an accessor (src/src/blk/blk_metrics.h): totals of latencies
    and a window of the most recent ones, from which the latency estimates of
    the scheduler are refreshed. All cycle counters are unsigned 64-bit. *)
From Stdlib Require Import ZArith Lia.
From stdpp Require Import base list gmap sorting numbers.
From S2P Require Import Prelude Estimator.

Module Metrics.
Import Estimator.

Definition window_size : nat := 1000.

Record blk_metrics := mk_metrics {
  read_cycles_ : Z;
  write_cycles_ : Z;
  reads_ : Z;
  writes_ : Z;
  total_cycles_ : Z;
  pending_command_counts_ : list Z;
  pending_commands_ : Z;
  recent_read_cycles_ : list Z;
  recent_write_cycles_ : list Z }.

(** [reset] leaves the windows as they are. *)
Definition reset (m : blk_metrics) : blk_metrics :=
  mk_metrics 0 0 0 0 0 [] 0 (recent_read_cycles_ m) (recent_write_cycles_ m).

Definition new_metrics : blk_metrics := reset (mk_metrics 0 0 0 0 0 [] 0 [] []).

Definition u64 (x : Z) : Z := (x mod U64)%Z.

(** [merge] adds the totals and takes over the command counts. *)
Definition merge (r m : blk_metrics) : blk_metrics :=
  mk_metrics (u64 (read_cycles_ m + read_cycles_ r)) (u64 (write_cycles_ m + write_cycles_ r))
    (u64 (reads_ m + reads_ r)) (u64 (writes_ m + writes_ r)) (total_cycles_ m + total_cycles_ r)
    (pending_command_counts_ r) (pending_commands_ r) (recent_read_cycles_ m) (recent_write_cycles_ m).

Definition push_window (cycles : Z) (w : list Z) : list Z :=
  let w := w ++ [u64 cycles] in if window_size <? length w then tail w else w.

Definition add_read_latency (cycles : Z) (m : blk_metrics) : blk_metrics :=
  mk_metrics (u64 (read_cycles_ m + cycles)) (write_cycles_ m) (u64 (reads_ m + 1)) (writes_ m)
    (total_cycles_ m) (pending_command_counts_ m) (pending_commands_ m)
    (push_window cycles (recent_read_cycles_ m)) (recent_write_cycles_ m).

Definition add_write_latency (cycles : Z) (m : blk_metrics) : blk_metrics :=
  mk_metrics (read_cycles_ m) (u64 (write_cycles_ m + cycles)) (reads_ m) (u64 (writes_ m + 1))
    (total_cycles_ m) (pending_command_counts_ m) (pending_commands_ m)
    (recent_read_cycles_ m) (push_window cycles (recent_write_cycles_ m)).

(** A division by zero has no result; the quotient is returned as an int. *)
Definition to_int32 (x : Z) : Z := (let y := x mod 4294967296 in if y <? 2147483648 then y else y - 4294967296)%Z.
Definition average (cycles n : Z) : option Z := if (n =? 0)%Z then None else Some (to_int32 (cycles / n)).
Definition get_avg_write_latency_in_cycles (m : blk_metrics) : option Z := average (write_cycles_ m) (writes_ m).
Definition get_avg_read_latency_in_cycles (m : blk_metrics) : option Z := average (read_cycles_ m) (reads_ m).

Definition recent_average (w : list Z) : Z :=
  match w with
  | [] => 10000
  | _ => foldl (λ sum c, u64 (sum + c)) 0 w / Z.of_nat (length w)
  end%Z.
Definition get_recent_avg_write_latency_in_cycles (m : blk_metrics) : Z := recent_average (recent_write_cycles_ m).
Definition get_recent_avg_read_latency_in_cycles (m : blk_metrics) : Z := recent_average (recent_read_cycles_ m).

(** ** The window *)
Lemma push_window_last (w : list Z) (l : list Z) c :
  w = drop (length l - window_size) (u64 <$> l) →
  push_window c w = drop (length (l ++ [c]) - window_size) (u64 <$> (l ++ [c])).
Proof.
  intros ->. unfold push_window. cbn zeta. rewrite fmap_app, !length_app, length_drop, length_fmap. simpl length.
  destruct (Nat.ltb_spec window_size (length l - (length l - window_size) + 1)) as [Hlt|Hge].
  - replace (length l + 1 - window_size) with (S (length l - window_size)) by lia.
    set (n := length l - window_size). rewrite drop_app_le by (rewrite length_fmap; unfold n, window_size in *; lia).
    destruct (drop n (u64 <$> l)) as [|x w] eqn:E.
    { apply (f_equal length) in E. rewrite length_drop, length_fmap in E. unfold n, window_size in *. simpl in E. lia. }
    simpl. f_equal. replace (S n) with (n + 1) by lia. by rewrite <- drop_drop, E.
  - replace (length l + 1 - window_size) with (length l - window_size) by lia.
    rewrite drop_app_le; [done|]. rewrite length_fmap. lia.
Qed.

Lemma sum_mod l : ∀ a, (0 ≤ a < U64)%Z →
  foldl (λ sum c, u64 (sum + c)) a l = ((a + foldr Z.add 0 l) mod U64)%Z.
Proof.
  induction l as [|c l IH]; intros a Ha; simpl.
  - by rewrite Z.add_0_r, Z.mod_small.
  - rewrite IH by (apply Z.mod_pos_bound; done). unfold u64. rewrite Zplus_mod_idemp_l. f_equal. lia.
Qed.

(** The state after the latencies [l] of reads. *)
Definition after_reads (l : list Z) : blk_metrics := foldl (flip add_read_latency) new_metrics l.

Lemma after_reads_ok l :
  recent_read_cycles_ (after_reads l) = drop (length l - window_size) (u64 <$> l) ∧
  reads_ (after_reads l) = u64 (Z.of_nat (length l)) ∧ read_cycles_ (after_reads l) = u64 (foldr Z.add 0%Z l).
Proof.
  induction l as [|c l IH] using rev_ind; [done|]. destruct IH as (Hw & Hr & Hc).
  unfold after_reads in *. rewrite foldl_app. simpl. split_and!.
  - by apply push_window_last.
  - rewrite Hr, length_app. unfold u64. rewrite Zplus_mod_idemp_l. f_equal. simpl. lia.
  - rewrite Hc. unfold u64. rewrite Zplus_mod_idemp_l. f_equal. rewrite foldr_app. simpl.
    clear. induction l as [|x l IH]; simpl; lia.
Qed.

End Metrics.

(** ** The properties *)
(** After any sequence of read latencies the metrics hold their number and
    sum (modulo 2^64), and the estimate of the latency is the mean of the last
    1000 of them. *)
Theorem metrics_window (l : list Z) :
  let m := Metrics.after_reads l in
  let w := drop (length l - 1000) (Metrics.u64 <$> l) in
  Metrics.reads_ m = Metrics.u64 (Z.of_nat (length l)) ∧
  Metrics.read_cycles_ m = Metrics.u64 (foldr Z.add 0%Z l) ∧
  Metrics.recent_read_cycles_ m = w ∧
  (l ≠ [] → Metrics.get_recent_avg_read_latency_in_cycles m =
    ((foldr Z.add 0 w mod Estimator.U64) / Z.of_nat (Nat.min (length l) 1000))%Z).
Proof.
  cbn zeta. destruct (Metrics.after_reads_ok l) as (Hw & Hr & Hc). split_and!; try done.
  intros Hl. unfold Metrics.get_recent_avg_read_latency_in_cycles. rewrite Hw.
  unfold Metrics.window_size in *. set (w := drop _ _).
  assert (Hlen : length w = Nat.min (length l) 1000) by (unfold w; rewrite length_drop, length_fmap; lia).
  destruct w as [|c w'] eqn:E; [destruct l; [done|simpl in Hlen; lia]|]. rewrite <- E in *.
  unfold Metrics.recent_average. rewrite E at 1. rewrite Metrics.sum_mod by done. by rewrite Hlen.
Qed.

Lemma metrics_window_witness :
  Metrics.get_recent_avg_read_latency_in_cycles (Metrics.after_reads [10; 20; 40]%Z) = 23%Z.
Proof. apply (metrics_window [10; 20; 40]%Z). discriminate. Defined.

(** The latencies of the operations of a tree (src/src/utils/aggregator.h,
    src/src/tree/tree_perf_metrics.h). *)
Module TreeMetrics.
Import Metrics Estimator.

(** [aggregator<uint64_t>]: its values; the lock is held in [record] and [clear]. *)
Definition aggregator := list Z.
Definition record (x : Z) (a : aggregator) : aggregator := a ++ [x].
Definition sum (a : aggregator) : Z := foldl (λ s x, u64 (s + x)) 0%Z a.
Definition count (a : aggregator) : Z := Z.of_nat (length a).
Definition empty (a : aggregator) : bool := bool_decide (a = []).
Definition clear (a : aggregator) : aggregator := [].

(** [None]: a division by zero. *)
Definition avg (a : aggregator) : option Z := if (count a =? 0)%Z then None else Some (sum a / count a)%Z.

Record tree_perf_metrics := mk_perf { write_latencies : aggregator; read_latencies : aggregator }.

Definition add_write_latency (x : Z) (m : tree_perf_metrics) : tree_perf_metrics :=
  mk_perf (record x (write_latencies m)) (read_latencies m).
Definition add_read_latency (x : Z) (m : tree_perf_metrics) : tree_perf_metrics :=
  mk_perf (write_latencies m) (record x (read_latencies m)).
Definition clear_metrics (m : tree_perf_metrics) : tree_perf_metrics :=
  mk_perf (clear (write_latencies m)) (clear (read_latencies m)).

(** The numbers [get_string] prints, in cycles: the average read, write and
    operation latency, each only if there is one. *)
Definition report (m : tree_perf_metrics) : option (option Z * option Z * option Z) :=
  r ← (if empty (read_latencies m) then Some None else Some <$> avg (read_latencies m));
  w ← (if empty (write_latencies m) then Some None else Some <$> avg (write_latencies m));
  let n := (count (write_latencies m) + count (read_latencies m))%Z in
  o ← (if empty (read_latencies m) || empty (write_latencies m) then Some None
       else if (n =? 0)%Z then None
       else Some (Some (u64 (sum (read_latencies m) + sum (write_latencies m)) / n)%Z));
  Some (r, w, o).

Lemma sum_exact_from l : ∀ s,
  Forall (λ x, 0 ≤ x)%Z l → (0 ≤ s)%Z → (s + foldr Z.add 0 l < U64)%Z → foldl (λ s x, u64 (s + x)) s l = (s + foldr Z.add 0 l)%Z.
Proof.
  induction l as [|x l IH]; intros s Hl Hs Hb; simpl in *; [lia|]. apply Forall_cons_iff in Hl as [Hx Hl].
  assert (0 ≤ foldr Z.add 0 l)%Z by (clear - Hl; induction Hl; simpl; lia).
  assert (E : u64 (s + x) = (s + x)%Z) by (unfold u64; apply Z.mod_small; lia). rewrite E, IH; [lia|done|lia|lia].
Qed.

(** Reports never divide by zero, and while the sums fit 64 bits an average lies
    between the bounds of the latencies. *)
Theorem report_total m lo hi :
  is_Some (report m) ∧
  ∀ a, a ≠ [] → (0 ≤ lo)%Z → Forall (λ x, lo ≤ x ≤ hi)%Z a → (foldr Z.add 0 a < U64)%Z → ∃ x, avg a = Some x ∧ (lo ≤ x ≤ hi)%Z.
Proof.
  assert (Hc : ∀ a, a ≠ [] → (0 < count a)%Z) by (intros [|]; [done|]; unfold count; simpl; lia).
  assert (Ha : ∀ a, a ≠ [] → avg a = Some (sum a / count a)%Z).
  { intros a Hne. unfold avg. specialize (Hc a Hne). by rewrite (proj2 (Z.eqb_neq _ _)) by lia. }
  split.
  - unfold report, empty. destruct (decide (read_latencies m = [])) as [E1|E1], (decide (write_latencies m = [])) as [E2|E2];
      rewrite ?(bool_decide_eq_true_2 _ E1), ?(bool_decide_eq_false_2 _ E1), ?(bool_decide_eq_true_2 _ E2), ?(bool_decide_eq_false_2 _ E2);
      rewrite ?Ha by done; simpl; try (by eexists).
    rewrite (proj2 (Z.eqb_neq _ _)); [by eexists|]. pose proof (Hc _ E1). pose proof (Hc _ E2). lia.
  - intros a Hne Hlo Hb Hs. exists (sum a / count a)%Z. split; [by apply Ha|]. unfold sum.
    rewrite sum_exact_from; [|by eapply Forall_impl; [|exact Hb]; intros x Hx; simpl in Hx; lia|lia|lia]. rewrite Z.add_0_l.
    assert (Hm : (count a * lo ≤ foldr Z.add 0 a ≤ count a * hi)%Z).
    { clear - Hb. unfold count. induction Hb as [|x l Hx _ IH]; simpl; [lia|]. nia. }
    specialize (Hc a Hne). split.
    + apply Z.div_le_lower_bound; lia.
    + apply Z.div_le_upper_bound; lia.
Qed.

End TreeMetrics.
