(* ===== verification/NvmeAccessor.v ===== *)
(** The asynchronous NVMe accessor (src/src/blk/nvme_blk_accessor.h): reads and
    writes that are answered from the block cache or submitted to the device,
    and the callback that runs on their completion.

    The device is the part of the model that is not this program's code. It
    keeps a block per address; [accepts n] tells whether a command can be
    submitted while [n] are in flight; commands complete in any order and take
    effect when they do. Buffers of callers are named by numbers. *)
From Stdlib Require Import ZArith Lia.
From stdpp Require Import base list gmap sorting numbers.
From S2P Require Import Prelude IndexedList Lru BlkCache Barrier Estimator Metrics.

Module Nvme.
Import Estimator.

Inductive buffer := User (b : nat) | Cached (p : nat).

Record nvme_callback_para := mk_para {
  p_context : nat;
  p_id : Z;
  p_start_time : Z;
  p_type : io;
  p_buffer : buffer;
  p_io_id : Z;
  p_evicted : bool }.

Section accessor.
Context {D : Type} (zero : D) (accepts : nat → bool) (strong_consistent : bool).

Record nvme_blk_accessor := mk_nvme {
  cache_ : BlkCache.blk_cache D;
  memory : gmap nat D;
  device : gmap Z D;
  in_flight : list nvme_callback_para;
  contexts_ : list Barrier.call_back_context;
  ready_contexts_ : list nat;
  estimator : ready_state_estimator;
  metrics_ : Metrics.blk_metrics;
  io_id_generator_ : Z;
  recent_reads_ : Z;
  recent_writes_ : Z }.

Definition with_cache (c : BlkCache.blk_cache D) (s : nvme_blk_accessor) : nvme_blk_accessor :=
  mk_nvme c (memory s) (device s) (in_flight s) (contexts_ s) (ready_contexts_ s) (estimator s) (metrics_ s)
    (io_id_generator_ s) (recent_reads_ s) (recent_writes_ s).
Definition with_memory (m : gmap nat D) (s : nvme_blk_accessor) : nvme_blk_accessor :=
  mk_nvme (cache_ s) m (device s) (in_flight s) (contexts_ s) (ready_contexts_ s) (estimator s) (metrics_ s)
    (io_id_generator_ s) (recent_reads_ s) (recent_writes_ s).
Definition with_device (d : gmap Z D) (l : list nvme_callback_para) (s : nvme_blk_accessor) : nvme_blk_accessor :=
  mk_nvme (cache_ s) (memory s) d l (contexts_ s) (ready_contexts_ s) (estimator s) (metrics_ s)
    (io_id_generator_ s) (recent_reads_ s) (recent_writes_ s).
Definition with_contexts (cs : list Barrier.call_back_context) (rd : list nat) (s : nvme_blk_accessor)
    : nvme_blk_accessor :=
  mk_nvme (cache_ s) (memory s) (device s) (in_flight s) cs rd (estimator s) (metrics_ s)
    (io_id_generator_ s) (recent_reads_ s) (recent_writes_ s).
Definition with_stats (e : ready_state_estimator) (m : Metrics.blk_metrics) (s : nvme_blk_accessor)
    : nvme_blk_accessor :=
  mk_nvme (cache_ s) (memory s) (device s) (in_flight s) (contexts_ s) (ready_contexts_ s) e m
    (io_id_generator_ s) (recent_reads_ s) (recent_writes_ s).
Definition with_counts (g r w : Z) (s : nvme_blk_accessor) : nvme_blk_accessor :=
  mk_nvme (cache_ s) (memory s) (device s) (in_flight s) (contexts_ s) (ready_contexts_ s) (estimator s)
    (metrics_ s) g r w.

Definition open (capacity : Z) (cs : list Barrier.call_back_context) (mem : gmap nat D) : nvme_blk_accessor :=
  mk_nvme (BlkCache.new_cache capacity) mem ∅ [] cs [] (new_estimator 200000 400000) Metrics.new_metrics 0 0 0.

(** [io_id_generator_++] *)
Definition next_io_id (s : nvme_blk_accessor) : Z * nvme_blk_accessor :=
  (io_id_generator_ s,
   with_counts ((io_id_generator_ s + 1) mod U64)%Z (recent_reads_ s) (recent_writes_ s) s).

(** A context becomes ready. *)
Definition make_ready (p : nat) (s : nvme_blk_accessor) : option nvme_blk_accessor :=
  c ← contexts_ s !! p;
  c ← Barrier.transition_to_next_state c;
  Some (with_contexts (<[p := c]> (contexts_ s)) (ready_contexts_ s ++ [p]) s).

Definition set_tag (p : nat) (t : Z) (s : nvme_blk_accessor) : option nvme_blk_accessor :=
  c ← contexts_ s !! p;
  Some (with_contexts (<[p := Barrier.set_tag t c]> (contexts_ s)) (ready_contexts_ s) s).

Definition add_pending (n : Z) (m : Metrics.blk_metrics) : Metrics.blk_metrics :=
  Metrics.mk_metrics (Metrics.read_cycles_ m) (Metrics.write_cycles_ m) (Metrics.reads_ m) (Metrics.writes_ m)
    (Metrics.total_cycles_ m) (Metrics.pending_command_counts_ m) (Metrics.pending_commands_ m + n)
    (Metrics.recent_read_cycles_ m) (Metrics.recent_write_cycles_ m).

(** Register the command with the estimator and submit it; a command that the
    device refuses is reported and dropped. *)
Definition submit (para : nvme_callback_para) (s : nvme_blk_accessor) : nvme_blk_accessor :=
  let s := with_stats (register_io (p_type para) (p_io_id para) (p_start_time para) (estimator s)) (metrics_ s) s in
  if accepts (length (in_flight s)) then
    with_stats (estimator s) (add_pending 1 (metrics_ s)) (with_device (device s) (in_flight s ++ [para]) s)
  else s.

(** [asynch_read]; [start] and [now] are the values of the cycle counter at the
    start and when the latency is reported. *)
Definition asynch_read (start now : Z) (addr : Z) (b : nat) (p : nat) (s : nvme_blk_accessor)
    : option nvme_blk_accessor :=
  let '(io_id, s) := next_io_id s in
  '(hit, c) ← BlkCache.read addr (cache_ s);
  let s := with_cache c s in
  match hit with
  | Some d =>
      s ← make_ready p (with_memory (<[b := d]> (memory s)) s);
      Some (with_stats (estimator s) (Metrics.add_read_latency (now - start) (metrics_ s)) s)
  | None => Some (submit (mk_para p addr start read_io (User b) io_id false) s)
  end.

(** [asynch_write]: a cached block is invalidated or, without strong
    consistency, only written to the cache. *)
Definition asynch_write (start now : Z) (addr : Z) (b : nat) (p : nat) (s : nvme_blk_accessor)
    : option nvme_blk_accessor :=
  let '(io_id, s) := next_io_id s in
  let para := mk_para p addr start write_io (User b) io_id false in
  if BlkCache.is_cached addr (cache_ s) then
    if strong_consistent then
      '(_, c) ← BlkCache.invalidate addr (cache_ s);
      Some (submit para (with_cache c s))
    else
      d ← memory s !! b;
      '(evicted, c) ← BlkCache.write addr d true (cache_ s);
      match evicted with
      | Some _ => None
      | None =>
          s ← make_ready p (with_cache c s);
          Some (with_stats (estimator s) (Metrics.add_read_latency (now - start) (metrics_ s)) s)
      end
  else Some (submit para s).

(** [asynch_write_evicted]: a dirty unit that left the cache is written back. *)
Definition asynch_write_evicted (start : Z) (addr : Z) (ptr : nat) (p : nat) (s : nvme_blk_accessor)
    : option nvme_blk_accessor :=
  let '(io_id, s) := next_io_id s in
  '(_, c) ← BlkCache.invalidate addr (cache_ s);
  Some (submit (mk_para p addr start write_io (Cached ptr) io_id true) (with_cache c s)).

Definition content (b : buffer) (s : nvme_blk_accessor) : option D :=
  match b with User n => memory s !! n | Cached p => BlkCache.heap (cache_ s) !! p end.

(** The first part of [context_call_back_function]: bookkeeping. *)
Definition account (now : Z) (para : nvme_callback_para) (s : nvme_blk_accessor) : option nvme_blk_accessor :=
  e ← remove_io (p_type para) (p_io_id para) (estimator s);
  let add := match p_type para with
             | read_io => Metrics.add_read_latency
             | write_io => Metrics.add_write_latency
             end in
  let m := add (now - p_start_time para)%Z (metrics_ s) in
  let recent := match p_type para with
                | read_io => Metrics.get_recent_avg_read_latency_in_cycles
                | write_io => Metrics.get_recent_avg_write_latency_in_cycles
                end in
  let e := if (p_io_id para mod 1024 =? 0)%Z
           then update_latency_in_cycles (p_type para) (Metrics.u64 (Metrics.to_int32 (recent m))) e else e in
  s ← set_tag (p_context para) (match p_type para with
                                | read_io => Barrier.CONTEXT_READ_IO
                                | write_io => Barrier.CONTEXT_WRITE_IO
                                end) (with_stats e m s);
  Some (match p_type para with
        | read_io => with_counts (io_id_generator_ s) (recent_reads_ s + 1) (recent_writes_ s) s
        | write_io => with_counts (io_id_generator_ s) (recent_reads_ s) (recent_writes_ s + 1) s
        end).

(** [context_call_back_function]: the block is put into the cache; a dirty unit
    that leaves it is written back first, on behalf of the same context. *)
Definition context_call_back_function (now : Z) (para : nvme_callback_para) (s : nvme_blk_accessor)
    : option nvme_blk_accessor :=
  s ← account now para s;
  d ← content (p_buffer para) s;
  '(evicted, c) ← BlkCache.write (p_id para) d false (cache_ s);
  let s := with_cache c s in
  let finish s :=
    let s := match p_buffer para with
             | Cached p => if p_evicted para then with_cache (BlkCache.free_block p (cache_ s)) s else s
             | User _ => s
             end in
    make_ready (p_context para) s in
  match evicted with
  | Some u =>
      if negb (BlkCache.dirty u) then finish (with_cache (BlkCache.free_block (BlkCache.data u) (cache_ s)) s)
      else asynch_write_evicted now (BlkCache.u_id u) (BlkCache.data u) (p_context para) s
  | None => finish s
  end.

(** ** The device *)
(** Command number [i] in flight takes effect and its callback runs. *)
Definition transfer (para : nvme_callback_para) (s : nvme_blk_accessor) : option nvme_blk_accessor :=
  match p_type para with
  | read_io =>
      match p_buffer para with
      | User b => Some (with_memory (<[b := default zero (device s !! p_id para)]> (memory s)) s)
      | Cached _ => None
      end
  | write_io =>
      d ← content (p_buffer para) s;
      Some (with_device (<[p_id para := d]> (device s)) (in_flight s) s)
  end.

Definition complete (now : Z) (i : nat) (s : nvme_blk_accessor) : option nvme_blk_accessor :=
  para ← in_flight s !! i;
  s ← transfer para (with_device (device s) (delete i (in_flight s)) s);
  context_call_back_function now para s.

(** [process_completion]: the device completes the commands [order], one after the
    other. *)
Fixpoint process_completions (now : Z) (order : list nat) (s : nvme_blk_accessor) : option nvme_blk_accessor :=
  match order with [] => Some s | i :: order' => s ← complete now i s; process_completions now order' s end.

Definition int16 (x : Z) : Z := (let y := x mod 65536 in if y <? 32768 then y else y - 65536)%Z.

Definition process_completion (now : Z) (order : list nat) (s : nvme_blk_accessor) : option (nat * nvme_blk_accessor) :=
  s ← process_completions now order s;
  let n := length order in
  let m := add_pending (- Z.of_nat n) (metrics_ s) in
  Some (n, with_stats (estimator s)
             (Metrics.mk_metrics (Metrics.read_cycles_ m) (Metrics.write_cycles_ m) (Metrics.reads_ m)
                (Metrics.writes_ m) (Metrics.total_cycles_ m)
                (Metrics.pending_command_counts_ m ++ [int16 (Metrics.pending_commands_ m)])
                (Metrics.pending_commands_ m) (Metrics.recent_read_cycles_ m) (Metrics.recent_write_cycles_ m)) s).

(** [get_and_reset_recent_reads], [get_and_reset_recent_writes] *)
Definition get_and_reset_recent (t : io) (s : nvme_blk_accessor) : Z * nvme_blk_accessor :=
  match t with
  | read_io => (recent_reads_ s, with_counts (io_id_generator_ s) 0 (recent_writes_ s) s)
  | write_io => (recent_writes_ s, with_counts (io_id_generator_ s) (recent_reads_ s) 0 s)
  end.

(** ** The invariant *)
Definition all_clean (c : BlkCache.blk_cache D) : Prop := ∀ a b d, (a, (b, d)) ∈ BlkCache.entries c → b = false.

(** A context that waits for an I/O knows where to go on. *)
Definition resumable (p : nat) (s : nvme_blk_accessor) : Prop :=
  ∃ c, contexts_ s !! p = Some c ∧ (0 ≤ Barrier.next_state c)%Z.

Definition para_ok (s : nvme_blk_accessor) (para : nvme_callback_para) : Prop :=
  p_evicted para = false ∧ resumable (p_context para) s ∧
  ∃ b d, p_buffer para = User b ∧ memory s !! b = Some d.

Definition command_of (para : nvme_callback_para) : command :=
  (p_type para, (p_io_id para, p_start_time para)).

Record nvme_ok (now : Z) (s : nvme_blk_accessor) : Prop := mk_nvme_ok {
  ok_cache : BlkCache.cache_ok [] (cache_ s);
  ok_clean : all_clean (cache_ s);
  ok_paras : ∀ para, para ∈ in_flight s → para_ok s para;
  ok_estimator : ∃ l, estimator_ok l (estimator s) ∧ (command_of <$> in_flight s) ⊆+ l ∧
    (∀ id, id ∈ l.*2.*1 → (0 ≤ id < io_id_generator_ s)%Z) ∧
    (∀ t x, x ∈ times t (estimator s) → (x ≤ now)%Z);
  ok_generator : (0 ≤ io_id_generator_ s)%Z }.

Lemma assoc_elem (a : Z) (e : bool * D) es : Lru.assoc a es = Some e → (a, e) ∈ es.
Proof.
  induction es as [|[b e'] es IH]; [done|]. simpl. case_decide as Hb; intros He; simplify_eq; [constructor|].
  constructor. auto.
Qed.

Lemma forget_elem (a : Z) (es : list (Z * (bool * D))) x : x ∈ Lru.forget a es → x ∈ es.
Proof. intros Hx. by apply list_elem_of_filter in Hx as [_ Hx]. Qed.

Lemma touch_elem (a : Z) (es : list (Z * (bool * D))) x : x ∈ Lru.touch a es → x ∈ es.
Proof.
  unfold Lru.touch. destruct (Lru.assoc a es) as [e|] eqn:Ea; [|done]. intros Hx.
  apply elem_of_cons in Hx as [->|Hx]; [by apply assoc_elem|by eapply forget_elem].
Qed.

(** What a write to the cache with a clean flag or on a hit leaves in it. *)
Lemma spec_write_elem cap a (d : D) dty es e es' x :
  BlkCache.spec_write cap a d dty es = (e, es') → (dty = false ∨ is_Some (Lru.assoc a es)) →
  (∀ a' b' d', (a', (b', d')) ∈ es → b' = false) →
  x ∈ es' ∨ e = Some x → x = (a, (false, d)) ∨ (x ∈ es ∧ x.1 ≠ a) ∨ (x ∈ es ∧ Lru.assoc a es = None).
Proof.
  intros Hs Hd Hcl Hx. unfold BlkCache.spec_write in Hs. destruct (Lru.assoc a es) as [[dt d0]|] eqn:Ea.
  - injection Hs as <- <-. destruct Hx as [Hx|]; [|done].
    apply elem_of_cons in Hx as [->|Hx].
    + left. f_equal. f_equal. by eapply Hcl, assoc_elem.
    + right. left. apply list_elem_of_filter in Hx as [Hne Hx]. done.
  - assert (Hdty : dty = false) by (destruct Hd as [|[? ?]]; done). subst dty.
    assert (Hall : x ∈ (a, (false, d)) :: es).
    { cbn zeta in Hs. remember ((a, (false, d)) :: es) as l eqn:El. clear El.
      destruct (cap <? _); injection Hs as <- <-; [|by destruct Hx].
      destruct l as [|y l _] using rev_ind; [by destruct Hx as [?%elem_of_nil|]|].
      rewrite removelast_last, last_snoc in Hx. destruct Hx as [Hx|Hx]; simplify_eq; set_solver. }
    apply elem_of_cons in Hall as [->|Hx']; [by left|]. by right; right.
Qed.

(** ** The steps *)
Lemma resumable_mono p s s' :
  resumable p s → (∀ q c, contexts_ s !! q = Some c → (0 ≤ Barrier.next_state c)%Z →
    ∃ c', contexts_ s' !! q = Some c' ∧ (0 ≤ Barrier.next_state c')%Z) → resumable p s'.
Proof. intros (c & Hc & Hn) Hm. destruct (Hm p c Hc Hn) as (c' & ? & ?). by exists c'. Qed.

Lemma update_contexts_mono s p c :
  (0 ≤ Barrier.next_state c)%Z → ∀ q c', contexts_ s !! q = Some c' → (0 ≤ Barrier.next_state c')%Z →
    ∃ c'', <[p := c]> (contexts_ s) !! q = Some c'' ∧ (0 ≤ Barrier.next_state c'')%Z.
Proof.
  intros Hn q c' Hq Hn'. destruct (decide (p = q)) as [->|Hne].
  - exists c. rewrite list_lookup_insert_eq by (by eapply lookup_lt_Some). done.
  - exists c'. by rewrite list_lookup_insert_ne.
Qed.

(** The invariant only depends on these parts of the state. *)
Lemma nvme_ok_weaken now now' s s' :
  nvme_ok now s → (now ≤ now')%Z → BlkCache.cache_ok [] (cache_ s') → all_clean (cache_ s') →
  in_flight s' ⊆+ in_flight s → estimator s' = estimator s → (io_id_generator_ s ≤ io_id_generator_ s')%Z →
  (∀ b d, memory s !! b = Some d → is_Some (memory s' !! b)) →
  (∀ q c, contexts_ s !! q = Some c → (0 ≤ Barrier.next_state c)%Z →
    ∃ c', contexts_ s' !! q = Some c' ∧ (0 ≤ Barrier.next_state c')%Z) →
  nvme_ok now' s'.
Proof.
  intros [H1 H2 H3 (l & Hl & Hsub & Hids & Hle) H5] Hnow Hc Hcl Hfl He Hg Hmem Hctx. split; [done|done| | |lia].
  - intros para Hin. destruct (H3 para) as (E1 & E2 & b & d & E3 & E4).
    { by eapply elem_of_submseteq. }
    split; [done|]. split; [by eapply resumable_mono|]. destruct (Hmem b d E4) as [d' Hd']. eauto.
  - rewrite He. exists l. split; [done|]. split; [|split].
    + etrans; [|done]. by apply fmap_submseteq.
    + intros id Hid. specialize (Hids id Hid). lia.
    + intros t x Hx. specialize (Hle t x Hx). lia.
Qed.

Lemma make_ready_ok p s :
  resumable p s → ∃ c', make_ready p s = Some (with_contexts (<[p := c']> (contexts_ s)) (ready_contexts_ s ++ [p]) s)
    ∧ (0 ≤ Barrier.next_state c')%Z.
Proof.
  intros (c & Hc & Hn). unfold make_ready. rewrite Hc. simpl. unfold Barrier.transition_to_next_state.
  destruct (Z.leb_spec 0 (Barrier.next_state c)); [|lia]. simpl. eauto.
Qed.

Lemma next_io_id_ok now s : nvme_ok now s → (io_id_generator_ s + 1 < U64)%Z →
  next_io_id s = (io_id_generator_ s, with_counts (io_id_generator_ s + 1) (recent_reads_ s) (recent_writes_ s) s).
Proof. intros [_ _ _ _ Hg] Hb. unfold next_io_id. by rewrite Z.mod_small by lia. Qed.

(** Submitting a command with a fresh id; [s1] is [s] with a new cache and the
    id taken. *)
Lemma submit_ok now start para s s1 :
  nvme_ok now s → (now ≤ start)%Z → para_ok s para → p_start_time para = start →
  p_io_id para = io_id_generator_ s → io_id_generator_ s1 = (io_id_generator_ s + 1)%Z →
  BlkCache.cache_ok [] (cache_ s1) → all_clean (cache_ s1) → in_flight s1 = in_flight s →
  estimator s1 = estimator s → memory s1 = memory s → contexts_ s1 = contexts_ s →
  nvme_ok start (submit para s1) ∧ device (submit para s1) = device s1 ∧ cache_ (submit para s1) = cache_ s1 ∧
    ready_contexts_ (submit para s1) = ready_contexts_ s1 ∧
    in_flight (submit para s1) = in_flight s ++ if accepts (length (in_flight s)) then [para] else [].
Proof.
  intros [H1 H2 H3 (l & Hl & Hsub & Hids & Hle) H5] Hnow Hp Hst Hid Hg Hc Hcl Hfl He Hm Hctx.
  set (cmd := command_of para).
  assert (Hreg : estimator_ok (l ++ [cmd]) (register_io (p_type para) (p_io_id para) (p_start_time para) (estimator s))).
  { apply register_io_ok; [done| |].
    - rewrite Hid. intros Hin%Hids. lia.
    - intros t x Hx. specialize (Hle t x Hx). lia. }
  assert (Hids' : ∀ id, id ∈ (l ++ [cmd]).*2.*1 → (0 ≤ id < io_id_generator_ s1)%Z).
  { intros id. rewrite !fmap_app, elem_of_app. intros [Hin%Hids|Hin]; [lia|].
    simpl in Hin. apply list_elem_of_singleton in Hin as ->. lia. }
  assert (Hle' : ∀ t x, x ∈ times t (register_io (p_type para) (p_io_id para) (p_start_time para) (estimator s)) →
    (x ≤ start)%Z).
  { intros t x. unfold register_io. rewrite times_set. intros Hx.
    assert (Hx' : x ∈ times t (estimator s) ∨ x = p_start_time para).
    { destruct t, (p_type para); rewrite ?elem_of_app, ?list_elem_of_singleton in Hx; naive_solver. }
    destruct Hx' as [Hx'| ->]; [specialize (Hle t x Hx')|]; lia. }
  assert (Hpk : ∀ s' q, contexts_ s' = contexts_ s → memory s' = memory s → para_ok s q → para_ok s' q).
  { intros s' q Ec Em (E1 & E2 & E3). unfold para_ok, resumable. by rewrite Ec, Em. }
  unfold submit. rewrite He. cbn [in_flight with_stats]. rewrite Hfl.
  destruct (accepts (length (in_flight s))); simpl.
  - split; [|done]. split; simpl; [done|done| | |lia].
    + intros q. rewrite ?Hfl. intros [Hq| ->%list_elem_of_singleton]%elem_of_app; apply Hpk; auto.
    + exists (l ++ [cmd]). split; [done|]. split; [|done]. rewrite ?Hfl, fmap_app. simpl.
      by apply submseteq_app.
  - rewrite app_nil_r. split; [|done]. split; simpl; [done|done| | |lia].
    + intros q. rewrite ?Hfl. intros Hq; apply Hpk; auto.
    + exists (l ++ [cmd]). split; [done|]. split; [|done]. rewrite ?Hfl. by apply submseteq_inserts_r.
Qed.

Lemma all_clean_touch c c' a :
  all_clean c → BlkCache.entries c' = Lru.touch a (BlkCache.entries c) → all_clean c'.
Proof. intros Hcl He a' b d Hin. rewrite He in Hin. eapply Hcl, touch_elem, Hin. Qed.

Definition new_read (start addr : Z) (b p : nat) (s : nvme_blk_accessor) : nvme_callback_para :=
  mk_para p addr start read_io (User b) (io_id_generator_ s) false.
Definition new_write (start addr : Z) (b p : nat) (s : nvme_blk_accessor) : nvme_callback_para :=
  mk_para p addr start write_io (User b) (io_id_generator_ s) false.

Definition submitted (para : nvme_callback_para) (s : nvme_blk_accessor) : list nvme_callback_para :=
  in_flight s ++ if accepts (length (in_flight s)) then [para] else [].

Lemma asynch_read_ok now start fin addr b p s :
  nvme_ok now s → (now ≤ start)%Z → resumable p s → is_Some (memory s !! b) → (io_id_generator_ s + 1 < U64)%Z →
  ∃ s', asynch_read start fin addr b p s = Some s' ∧ nvme_ok start s' ∧ device s' = device s ∧
    BlkCache.entries (cache_ s') = Lru.touch addr (BlkCache.entries (cache_ s)) ∧
    match Lru.assoc addr (BlkCache.entries (cache_ s)) with
    | Some (_, d) => memory s' !! b = Some d ∧ ready_contexts_ s' = ready_contexts_ s ++ [p] ∧
        in_flight s' = in_flight s
    | None => ready_contexts_ s' = ready_contexts_ s ∧ in_flight s' = submitted (new_read start addr b p s) s
    end.
Proof.
  intros Hok Hnow Hres [d0 Hb] Hg. unfold asynch_read. rewrite (next_io_id_ok now s Hok Hg). cbn zeta.
  simpl cache_. pose proof Hok as [Hc Hcl _ _ _].
  destruct (BlkCache.blk_read_ok [] (cache_ s) addr Hc) as (c' & -> & Hc' & _ & He & _). cbn [mbind option_bind].
  pose proof (all_clean_touch _ _ _ Hcl He) as Hcl'.
  destruct (Lru.assoc addr (BlkCache.entries (cache_ s))) as [[dt d]|] eqn:Ea; simpl snd; cbn [fmap option_fmap option_map].
  - set (s1 := with_memory _ _). destruct (make_ready_ok p s1 Hres) as (cx & -> & Hcx). cbn [mbind option_bind].
    eexists. split; [done|]. split; [|split; [done|split; [done|]]].
    + eapply (nvme_ok_weaken now start s); eauto; simpl; [lia| |].
      * intros b' d' Hb'. destruct (decide (b = b')) as [->|Hne]; [rewrite lookup_insert_eq|rewrite lookup_insert_ne by done]; eauto.
      * by apply update_contexts_mono.
    + simpl. by rewrite lookup_insert_eq.
  - set (s1 := with_cache c' _).
    destruct (submit_ok now start (new_read start addr b p s) s s1) as (Hok' & Hdev & Hca & Hrd & Hfl); try done.
    { split; [done|]. split; [done|]. by exists b, d0. }
    eexists. split; [done|]. split; [done|]. unfold new_read in Hca. rewrite Hca. by split.
Qed.

Lemma asynch_write_ok now start fin addr b p d s :
  nvme_ok now s → (now ≤ start)%Z → resumable p s → memory s !! b = Some d → (io_id_generator_ s + 1 < U64)%Z →
  ∃ s', asynch_write start fin addr b p s = Some s' ∧ nvme_ok start s' ∧ device s' = device s ∧
    match Lru.assoc addr (BlkCache.entries (cache_ s)) with
    | Some _ =>
        if strong_consistent then
          BlkCache.entries (cache_ s') = Lru.forget addr (BlkCache.entries (cache_ s)) ∧
          ready_contexts_ s' = ready_contexts_ s ∧ in_flight s' = submitted (new_write start addr b p s) s
        else
          BlkCache.entries (cache_ s') = (addr, (false, d)) :: Lru.forget addr (BlkCache.entries (cache_ s)) ∧
          ready_contexts_ s' = ready_contexts_ s ++ [p] ∧ in_flight s' = in_flight s
    | None => BlkCache.entries (cache_ s') = BlkCache.entries (cache_ s) ∧
        ready_contexts_ s' = ready_contexts_ s ∧ in_flight s' = submitted (new_write start addr b p s) s
    end.
Proof.
  intros Hok Hnow Hres Hb Hg. unfold asynch_write. rewrite (next_io_id_ok now s Hok Hg). cbn zeta.
  simpl cache_. pose proof Hok as [Hc Hcl _ _ _].
  assert (Hpara : para_ok s (new_write start addr b p s)).
  { split; [done|]. split; [done|]. by exists b, d. }
  assert (His : BlkCache.is_cached addr (cache_ s) = bool_decide (is_Some (Lru.assoc addr (BlkCache.entries (cache_ s))))).
  { unfold BlkCache.is_cached. destruct (BlkCache.cache_ (cache_ s) !! addr) as [it|] eqn:E.
    - destruct (BlkCache.cache_hit [] _ _ _ Hc E) as (? & ? & ? & ? & _ & _ & _ & _ & _ & _ & -> & _). done.
    - by destruct (BlkCache.cache_miss [] _ _ Hc E) as [-> _]. }
  rewrite His. destruct (Lru.assoc addr (BlkCache.entries (cache_ s))) as [[dt d0]|] eqn:Ea; simpl bool_decide; cbn match.
  - destruct strong_consistent.
    + destruct (BlkCache.invalidate_ok [] (cache_ s) addr Hc) as (c' & -> & Hc' & _ & He & _). cbn [mbind option_bind].
      set (s1 := with_cache c' _).
      assert (Hcl' : all_clean c') by (intros a' b' d' Hin; rewrite He in Hin; eapply Hcl, forget_elem, Hin).
      destruct (submit_ok now start (new_write start addr b p s) s s1) as (Hok' & Hdev & Hca & Hrd & Hfl); try done.
      eexists. split; [done|]. split; [done|]. unfold new_write in Hca. rewrite Hca. by split.
    + simpl memory. rewrite Hb. cbn [mbind option_bind].
      destruct (BlkCache.blk_write_ok [] (cache_ s) addr d true Hc) as (r & c' & -> & Hc' & _ & Hs & _).
      cbn [mbind option_bind].
      destruct r as [u|]; [destruct Hs as (d' & _ & Hs); unfold BlkCache.spec_write in Hs; by rewrite Ea in Hs|].
      assert (dt = false) as -> by (eapply Hcl, assoc_elem, Ea).
      assert (He : BlkCache.entries c' = (addr, (false, d)) :: Lru.forget addr (BlkCache.entries (cache_ s))).
      { unfold BlkCache.spec_write in Hs. rewrite Ea in Hs. by injection Hs as <-. }
      set (s1 := with_cache c' _). destruct (make_ready_ok p s1 Hres) as (cx & -> & Hcx). cbn [mbind option_bind].
      eexists. split; [done|]. split; [|by split].
      eapply (nvme_ok_weaken now start s); eauto; simpl; [|lia|by apply update_contexts_mono].
      intros a' b' d' Hin. rewrite He in Hin. apply elem_of_cons in Hin as [[= -> -> ->]|Hin]; [done|].
      eapply Hcl, forget_elem, Hin.
  - set (s1 := with_counts _ _ _ s).
    destruct (submit_ok now start (new_write start addr b p s) s s1) as (Hok' & Hdev & Hca & Hrd & Hfl); try done.
    eexists. split; [done|]. split; [done|]. unfold new_write in Hca. rewrite Hca. by split.
Qed.

(** ** Completion *)
(** The bookkeeping of a callback. *)
Lemma account_ok now para s t l :
  estimator_ok l (estimator s) → command_of para ∈ l → resumable (p_context para) s →
  ∃ s' l1 l2, account t para s = Some s' ∧ l = l1 ++ command_of para :: l2 ∧
    estimator_ok (l1 ++ l2) (estimator s') ∧
    ((∀ t' x, x ∈ times t' (estimator s) → (x ≤ now)%Z) →
     ∀ t' x, x ∈ times t' (estimator s') → (x ≤ now)%Z) ∧
    cache_ s' = cache_ s ∧ memory s' = memory s ∧ device s' = device s ∧ in_flight s' = in_flight s ∧
    ready_contexts_ s' = ready_contexts_ s ∧ io_id_generator_ s' = io_id_generator_ s ∧
    (∀ q c, contexts_ s !! q = Some c → (0 ≤ Barrier.next_state c)%Z →
      ∃ c', contexts_ s' !! q = Some c' ∧ (0 ≤ Barrier.next_state c')%Z).
Proof.
  intros Hl Hin (c & Hc & Hn). apply list_elem_of_split in Hin as (l1 & l2 & ->).
  destruct (remove_io_ok l1 _ _ _ l2 _ Hl) as (e' & Hr & He' & Hsub). unfold account. rewrite Hr.
  cbn [mbind option_bind]. cbn zeta. unfold set_tag at 1. cbn [contexts_ with_stats]. rewrite Hc.
  cbn [mbind option_bind]. eexists _, l1, l2. split; [done|]. split; [done|].
  set (up := update_latency_in_cycles _ _ _).
  assert (Hup : estimator_ok (l1 ++ l2) up ∧ ∀ t' x, x ∈ times t' up → x ∈ times t' (estimator s)).
  { split; [by apply update_latency_ok|]. intros t' x. unfold up. rewrite times_update. apply Hsub. }
  assert (Hctx := update_contexts_mono s (p_context para) (Barrier.set_tag (match p_type para with
    | read_io => Barrier.CONTEXT_READ_IO | write_io => Barrier.CONTEXT_WRITE_IO end) c) Hn).
  destruct (p_type para); simpl; (split; [by destruct (_ =? 0)%Z; [apply Hup|]|]);
    (split; [intros Hle t' x Hx; eapply Hle; destruct (_ =? 0)%Z; [apply Hup, Hx|apply Hsub, Hx]|]);
    by repeat (split; [done|]).
Qed.

Lemma complete_ok now t i para s :
  nvme_ok now s → in_flight s !! i = Some para →
  ∃ s' d e, complete t i s = Some s' ∧ nvme_ok now s' ∧ in_flight s' = delete i (in_flight s) ∧
    ready_contexts_ s' = ready_contexts_ s ++ [p_context para] ∧
    BlkCache.spec_write (Z.to_nat (BlkCache.capacity_ (cache_ s))) (p_id para) d false
      (BlkCache.entries (cache_ s)) = (e, BlkCache.entries (cache_ s')) ∧
    match p_type para with
    | read_io => d = default zero (device s !! p_id para) ∧ device s' = device s ∧
        ∃ b, p_buffer para = User b ∧ memory s' !! b = Some d
    | write_io => device s' = <[p_id para := d]> (device s) ∧
        ∃ b, p_buffer para = User b ∧ memory s !! b = Some d
    end.
Proof.
  intros Hok Hi. pose proof Hok as [Hc Hcl Hps (l & Hl & Hsub & Hids & Hle) Hg].
  destruct (Hps para) as (Hev & Hres & b & d0 & Hbuf & Hmem); [by eapply list_elem_of_lookup_2|].
  unfold complete. rewrite Hi. cbn [mbind option_bind].
  set (s0 := with_device _ _ s).
  (* the transfer *)
  assert (Htr : ∃ s1 d, transfer para s0 = Some s1 ∧ memory s1 !! b = Some d ∧ cache_ s1 = cache_ s ∧
    contexts_ s1 = contexts_ s ∧ in_flight s1 = delete i (in_flight s) ∧ estimator s1 = estimator s ∧
    ready_contexts_ s1 = ready_contexts_ s ∧ io_id_generator_ s1 = io_id_generator_ s ∧
    (∀ b' d', memory s !! b' = Some d' → is_Some (memory s1 !! b')) ∧
    match p_type para with
    | read_io => d = default zero (device s !! p_id para) ∧ device s1 = device s
    | write_io => device s1 = <[p_id para := d]> (device s) ∧ memory s !! b = Some d
    end).
  { unfold transfer. destruct (p_type para); rewrite Hbuf; simpl.
    - eexists _, _. split; [done|]. simpl. rewrite lookup_insert_eq. repeat (split; [done|]). split; [|done].
      intros b' d' Hb'. destruct (decide (b = b')) as [->|Hne]; [rewrite lookup_insert_eq|rewrite lookup_insert_ne by done]; eauto.
    - rewrite Hmem. simpl. eexists _, _. split; [done|]. simpl. by repeat (split; [by eauto|]). }
  destruct Htr as (s1 & d & -> & Hm1 & Hc1 & Hcx1 & Hf1 & He1 & Hr1 & Hg1 & Hmm & Hdev1). cbn [mbind option_bind].
  unfold context_call_back_function.
  destruct (account_ok now para s1 t l) as (s2 & l1 & l2 & -> & El & Hl2 & Hle2 & Hc2 & Hm2 & Hd2 & Hf2 & Hr2 & Hg2 & Hcx2).
  { by rewrite He1. }
  { eapply elem_of_submseteq; [|done]. apply list_elem_of_fmap. exists para. split; [done|]. by eapply list_elem_of_lookup_2. }
  { unfold resumable. by rewrite Hcx1. }
  cbn [mbind option_bind]. rewrite Hbuf. unfold content at 1. rewrite Hm2, Hm1. cbn [mbind option_bind].
  rewrite Hc2, Hc1.
  destruct (BlkCache.blk_write_ok [] (cache_ s) (p_id para) d false Hc) as (r & c' & -> & Hc' & Hcap & Hs & _).
  cbn [mbind option_bind].
  assert (Hspec : ∃ e, BlkCache.spec_write (Z.to_nat (BlkCache.capacity_ (cache_ s))) (p_id para) d false
      (BlkCache.entries (cache_ s)) = (e, BlkCache.entries c') ∧
      ∀ u, r = Some u → BlkCache.dirty u = false).
  { destruct r as [u|]; [|by eexists].
    destruct Hs as (d' & _ & Hs). eexists. split; [exact Hs|]. intros u' [= <-].
    destruct (spec_write_elem _ _ _ _ _ _ _ (BlkCache.u_id u, (BlkCache.dirty u, d')) Hs) as [Hx|[[Hx _]|[Hx _]]];
      [by left|done|by right|by simplify_eq|by eapply Hcl|by eapply Hcl]. }
  destruct Hspec as (e & Hspec & Hdirty).
  assert (Hclean : all_clean c').
  { intros a' b' d' Hin.
    destruct (spec_write_elem _ _ _ _ _ _ _ (a', (b', d')) Hspec) as [Hx|[[Hx _]|[Hx _]]];
      [by left|done|by left|by simplify_eq|by eapply Hcl|by eapply Hcl]. }
  (* the context becomes ready *)
  assert (Hfin : ∀ c3, BlkCache.cache_ok [] c3 → BlkCache.entries c3 = BlkCache.entries c' →
    ∃ s', make_ready (p_context para) (with_cache c3 s2) = Some s' ∧ nvme_ok now s' ∧
      in_flight s' = delete i (in_flight s) ∧ ready_contexts_ s' = ready_contexts_ s ++ [p_context para] ∧
      cache_ s' = c3 ∧ device s' = device s1 ∧ memory s' = memory s1).
  { intros c3 Hok3 He3. destruct (make_ready_ok (p_context para) (with_cache c3 s2)) as (cx & -> & Hcx).
    { eapply (resumable_mono _ s1); [unfold resumable; by rewrite Hcx1|]. simpl. done. }
    eexists. split; [done|]. simpl. rewrite Hf2, Hf1, Hr2, Hr1, Hd2, Hm2. split; [|done].
    assert (Hmono : ∀ q c, contexts_ s !! q = Some c → (0 ≤ Barrier.next_state c)%Z →
      ∃ c', <[p_context para := cx]> (contexts_ s2) !! q = Some c' ∧ (0 ≤ Barrier.next_state c')%Z).
    { intros q c Hq Hn. rewrite <- Hcx1 in Hq. destruct (Hcx2 q c Hq Hn) as (c4 & Hc4 & Hn4).
      by apply (update_contexts_mono s2 _ _ Hcx q c4). }
    split; simpl; [done| | | |by rewrite Hg2, Hg1].
    - unfold all_clean. rewrite He3. apply Hclean.
    - intros q. rewrite ?Hf2, ?Hf1. intros Hq. destruct (Hps q) as (E1 & E2 & b2 & d2 & E3 & E4).
      { eapply elem_of_submseteq; [exact Hq|apply submseteq_delete]. }
      split; [done|]. split; [by eapply resumable_mono|]. destruct (Hmm b2 d2 E4) as [d3 Hd3]. simpl. rewrite ?Hm2. eauto.
    - rewrite ?Hf2, ?Hf1, ?Hg2, ?Hg1. exists (l1 ++ l2). split; [done|]. split; [|split].
      + pose proof (delete_Permutation _ _ _ Hi) as Hp.
        apply (submseteq_app_inv_l _ _ [command_of para]). simpl.
        assert (Hl' : command_of para :: l1 ++ l2 ≡ₚ l) by (rewrite El; apply Permutation_middle).
        rewrite Hl'. rewrite Hp in Hsub. done.
      + intros id Hid. apply Hids. rewrite El. rewrite !fmap_app, elem_of_app in *. simpl.
        rewrite elem_of_cons. naive_solver.
      + apply Hle2. by rewrite He1. }
  assert (Hout : ∀ s', device s' = device s1 → memory s' = memory s1 →
    match p_type para with
    | read_io => d = default zero (device s !! p_id para) ∧ device s' = device s ∧
        ∃ b0, User b = User b0 ∧ memory s' !! b0 = Some d
    | write_io => device s' = <[p_id para := d]> (device s) ∧
        ∃ b0, User b = User b0 ∧ memory s !! b0 = Some d
    end).
  { intros s' -> ->. destruct (p_type para); [destruct Hdev1 as [-> ->]|destruct Hdev1 as [-> ?]]; eauto. }
  destruct r as [u|]; simpl in Hc'.
  - rewrite (Hdirty u eq_refl). simpl negb. cbn match. 
    destruct (Hfin (BlkCache.free_block (BlkCache.data u) c')) as (s' & Hmr & Hok' & Hf' & Hr' & Hca' & Hdv & Hmv);
      [by apply BlkCache.free_block_ok|done|].
    exists s', d, e. split; [exact Hmr|]. split; [done|]. split; [done|]. split; [done|].
    rewrite Hca'. split; [done|by apply Hout].
  - destruct (Hfin c') as (s' & Hmr & Hok' & Hf' & Hr' & Hca' & Hdv & Hmv); [done|done|].
    exists s', d, e. split; [exact Hmr|]. split; [done|]. split; [done|]. split; [done|].
    rewrite Hca'. split; [done|by apply Hout].
Qed.

(** ** Runs *)
Inductive reach : Z → nvme_blk_accessor → Prop :=
  | reach_open capacity cs mem : reach 0 (open capacity cs mem)
  | reach_read now s start fin addr b p s' :
      reach now s → (now ≤ start)%Z → resumable p s → is_Some (memory s !! b) →
      (io_id_generator_ s + 1 < U64)%Z → asynch_read start fin addr b p s = Some s' → reach start s'
  | reach_write now s start fin addr b p s' :
      reach now s → (now ≤ start)%Z → resumable p s → is_Some (memory s !! b) →
      (io_id_generator_ s + 1 < U64)%Z → asynch_write start fin addr b p s = Some s' → reach start s'
  | reach_completion now s t order n s' :
      reach now s → process_completion t order s = Some (n, s') → reach now s'
  | reach_buffer now s b d : reach now s → reach now (with_memory (<[b := d]> (memory s)) s)
  | reach_context now s p c rd :
      reach now s → (0 ≤ Barrier.next_state c)%Z → reach now (with_contexts (<[p := c]> (contexts_ s)) rd s)
  | reach_reset now s t : reach now s → reach now (get_and_reset_recent t s).2.

(** An invariant of the cache and the device that the operations preserve. *)
Lemma nvme_reach_inv (I : list (Z * (bool * D)) → gmap Z D → Prop) :
  I [] ∅ →
  (∀ es dev a, I es dev → I (Lru.touch a es) dev) →
  (∀ es dev a, I es dev → I (Lru.forget a es) dev) →
  (∀ es dev a d, strong_consistent = false → I es dev → I ((a, (false, d)) :: Lru.forget a es) dev) →
  (∀ es dev cap a e es', I es dev → (∀ a b d, (a, (b, d)) ∈ es → b = false) →
     BlkCache.spec_write cap a (default zero (dev !! a)) false es = (e, es') → I es' dev) →
  (∀ es dev cap a d e es', I es dev → (∀ a b d, (a, (b, d)) ∈ es → b = false) →
     BlkCache.spec_write cap a d false es = (e, es') → I es' (<[a := d]> dev)) →
  ∀ now s, reach now s → nvme_ok now s ∧ I (BlkCache.entries (cache_ s)) (device s).
Proof.
  intros I0 Itouch Iforget Iwrite Iread Idev now s Hr.
  induction Hr as [cap cs mem|now s start fin addr b p s' _ [Hok HI] Hnow Hres Hb Hg Hs
    |now s start fin addr b p s' _ [Hok HI] Hnow Hres Hb Hg Hs|now s t order n s' _ [Hok HI] Hs
    |now s b d _ [Hok HI]|now s p c rd _ [Hok HI] Hn|now s t _ [Hok HI]].
  - destruct (BlkCache.new_cache_ok (D := D) cap) as [Hc He]. split; [|simpl; by rewrite He].
    split; simpl; [done| | | |lia].
    + unfold all_clean. rewrite He. by intros a b d ?%elem_of_nil.
    + by intros para ?%elem_of_nil.
    + exists []. split; [|split; [done|split; [by intros id ?%elem_of_nil|]]].
      * split; [constructor|]. split; [done|]. split; intros []; [done|done|constructor|constructor].
      * intros [] x Hx; simpl in Hx; by apply elem_of_nil in Hx.
  - destruct (asynch_read_ok now start fin addr b p s Hok Hnow Hres Hb Hg) as (s2 & Hs2 & Hok2 & Hd2 & He2 & _).
    rewrite Hs in Hs2. injection Hs2 as <-. split; [done|]. rewrite Hd2, He2. by apply Itouch.
  - destruct Hb as [d Hb].
    destruct (asynch_write_ok now start fin addr b p d s Hok Hnow Hres Hb Hg) as (s2 & Hs2 & Hok2 & Hd2 & He2).
    rewrite Hs in Hs2. injection Hs2 as <-. split; [done|]. rewrite Hd2.
    destruct (Lru.assoc addr (BlkCache.entries (cache_ s))) as [x|]; [|by destruct He2 as [-> _]].
    destruct strong_consistent eqn:E; destruct He2 as [-> _]; auto.
  - unfold process_completion in Hs. destruct (process_completions t order s) as [s1|] eqn:Ep; [|done].
    injection Hs as <- <-.
    assert (H1 : nvme_ok now s1 ∧ I (BlkCache.entries (cache_ s1)) (device s1)).
    { revert s Hok HI Ep. induction order as [|i order IH]; intros s Hok HI Ep; simpl in Ep; [by simplify_eq|].
      destruct (in_flight s !! i) as [para|] eqn:Ei; [|unfold complete in Ep; by rewrite Ei in Ep].
      destruct (complete_ok now t i para s Hok Ei) as (s2 & d & e & Hc2 & Hok2 & _ & _ & Hsp & Hty).
      rewrite Hc2 in Ep. simpl in Ep. apply (IH s2); [done| |done].
      pose proof (ok_clean _ _ Hok) as Hcl.
      destruct (p_type para).
      - destruct Hty as (-> & -> & _). by eapply Iread.
      - destruct Hty as (-> & _). by eapply Idev. }
    destruct H1 as [Hok1 HI1]. split; [|done].
    eapply (nvme_ok_weaken now now s1); eauto; simpl; try done; apply Hok1.
  - split; [|done]. eapply (nvme_ok_weaken now now s); eauto; simpl; try done; try apply Hok.
    intros b' d' Hb'. destruct (decide (b = b')) as [->|Hne]; [rewrite lookup_insert_eq|rewrite lookup_insert_ne by done]; eauto.
  - split; [|done]. eapply (nvme_ok_weaken now now s); eauto; simpl; try done; try apply Hok.
    by apply update_contexts_mono.
  - split; [|by destruct t].
    destruct t; (eapply (nvme_ok_weaken now now s); eauto; simpl; try done; apply Hok).
Qed.

Lemma nvme_reach_ok now s : reach now s → nvme_ok now s.
Proof. intros Hr. by destruct (nvme_reach_inv (λ _ _, True)) with now s as [Hok _]. Qed.



End accessor.
Arguments nvme_blk_accessor : clear implicits.
End Nvme.

(** ** The properties *)
Section claims.
Import Nvme.
Context {D : Type} (zero : D) (accepts : nat → bool) (strong : bool).

(** In every run of the accessor no unit of its cache is ever marked dirty
    and no write-back of an evicted unit is ever in flight: a write to a cached
    block does not set the flag, and every other unit enters the cache clean. *)
Theorem nvme_never_dirty now (s : nvme_blk_accessor D) :
  reach zero accepts strong now s →
  (∀ a b d, (a, (b, d)) ∈ BlkCache.entries (cache_ s) → b = false) ∧
  (∀ para, para ∈ in_flight s → p_evicted para = false).
Proof.
  intros Hr. destruct (nvme_reach_ok zero accepts strong now s Hr) as [_ Hcl Hps _ _]. split; [exact Hcl|].
  intros para Hin. by destruct (Hps para Hin).
Qed.

(** In every run, completing any command in flight, in any order, succeeds
    (the estimator knows the command, the buffers have content, the context can
    go on), takes exactly that command out of flight and makes exactly its
    context ready; a read leaves the content of the device in its buffer, a
    write leaves the content of its buffer on the device. *)
Theorem nvme_completion now (s : nvme_blk_accessor D) t i para :
  reach zero accepts strong now s → in_flight s !! i = Some para →
  ∃ s' b d, complete zero accepts t i s = Some s' ∧ in_flight s' = delete i (in_flight s) ∧
    ready_contexts_ s' = ready_contexts_ s ++ [p_context para] ∧ p_buffer para = User b ∧
    match p_type para with
    | Estimator.read_io => device s' = device s ∧ d = default zero (device s !! p_id para) ∧ memory s' !! b = Some d
    | Estimator.write_io => device s' = <[p_id para := d]> (device s) ∧ memory s !! b = Some d
    end.
Proof.
  intros Hr Hi. pose proof (nvme_reach_ok zero accepts strong now s Hr) as Hok.
  destruct (complete_ok zero accepts now t i para s Hok Hi) as (s' & d & e & Hc & _ & Hf & Hrd & _ & Hty).
  destruct (p_type para).
  - destruct Hty as (Hd & Hdv & b & Hb & Hm). exists s', b, d. split_and!; done.
  - destruct Hty as (Hdv & b & Hb & Hm). exists s', b, d. split_and!; done.
Qed.

End claims.

(** ** Concrete runs *)
Section runs.
Import Nvme.

Definition waiting : Barrier.call_back_context := Barrier.set_next_state 2 Barrier.new_context.
Definition opened : nvme_blk_accessor Z := open 1 [waiting] {[0 := 5%Z; 1 := 0%Z; 2 := 0%Z]}.

(** A write of block 0 is in flight. *)
Definition one_write (strong : bool) : nvme_blk_accessor Z :=
  default opened (asynch_write (λ _, true) strong 10 20 0 0 0 opened).
(** ... and completed. *)
Definition one_written (strong : bool) : nvme_blk_accessor Z :=
  match process_completion 0%Z (λ _, true) 30 [0] (one_write strong) with Some (_, s) => s | None => opened end.

Lemma one_write_reach strong : reach 0%Z (λ _, true) strong 10 (one_write strong).
Proof.
  apply (reach_write 0%Z (λ _, true) strong 0 opened 10 20 0 0 0); [apply reach_open|lia| | |reflexivity|].
  - exists waiting. split; [reflexivity|cbn; lia].
  - by eexists.
  - by destruct strong.
Qed.

Lemma one_written_reach strong : reach 0%Z (λ _, true) strong 10 (one_written strong).
Proof.
  apply (reach_completion 0%Z (λ _, true) strong 10 (one_write strong) 30 [0] 1); [apply one_write_reach|].
  by destruct strong; vm_compute.
Qed.

Lemma nvme_never_dirty_witness :
  (∀ a b d, (a, (b, d)) ∈ BlkCache.entries (cache_ (one_written false)) → b = false) ∧
  (∀ para, para ∈ in_flight (one_written false) → p_evicted para = false).
Proof. exact (nvme_never_dirty 0%Z (λ _, true) false 10 (one_written false) (one_written_reach false)). Defined.

Lemma nvme_completion_witness :
  ∃ s' b d, complete 0%Z (λ _, true) 30 0 (one_write false) = Some s' ∧
    in_flight s' = delete 0 (in_flight (one_write false)) ∧
    ready_contexts_ s' = ready_contexts_ (one_write false) ++ [0] ∧ User 0 = User b ∧
    device s' = <[0%Z := d]> (device (one_write false)) ∧ memory (one_write false) !! b = Some d.
Proof.
  exact (nvme_completion 0%Z (λ _, true) false 10 (one_write false) 30 0
           (mk_para 0 0 10 Estimator.write_io (User 0) 0 false) (one_write_reach false) eq_refl).
Defined.



End runs.
