(* ===== verification/LockManager.v ===== *)
(** The lock manager of the concurrent tree (src/src/sync/lock_manager.h): one
    boost shared mutex per node, created on demand, and descriptors of the locks
    that were obtained.

    The mutex follows the documented behaviour of boost::shared_mutex; an
    operation that would block has no result. *)
From Stdlib Require Import ZArith Lia.
From stdpp Require Import base list gmap sorting numbers.
From S2P Require Import Prelude.

Module Locks.

(** ** The shared mutex *)
(** An upgrade lock counts as a shared one. *)
Record shared_mutex := mk_mutex { shared_count : nat; upgrade : bool; exclusive : bool }.

Definition unlocked : shared_mutex := mk_mutex 0 false false.

Definition lock_shared (m : shared_mutex) : option shared_mutex :=
  if exclusive m then None else Some (mk_mutex (S (shared_count m)) (upgrade m) false).
Definition lock (m : shared_mutex) : option shared_mutex :=
  if exclusive m || (0 <? shared_count m) then None else Some (mk_mutex 0 (upgrade m) true).
Definition unlock_shared (m : shared_mutex) : option shared_mutex :=
  match shared_count m with 0 => None | S n => Some (mk_mutex n (upgrade m) (exclusive m)) end.
Definition unlock (m : shared_mutex) : option shared_mutex :=
  if exclusive m then Some (mk_mutex (shared_count m) (upgrade m) false) else None.
Definition lock_upgrade (m : shared_mutex) : option shared_mutex :=
  if exclusive m || upgrade m then None else Some (mk_mutex (S (shared_count m)) true false).
Definition unlock_upgrade_and_lock (m : shared_mutex) : option shared_mutex :=
  match shared_count m with
  | 1 => if upgrade m then Some (mk_mutex 0 false true) else None
  | _ => None
  end.

(** ** The manager *)
Inductive lock_type := READ_LOCK | WRITE_LOCK.
#[global] Instance lock_type_eq_dec : EqDecision lock_type.
Proof. solve_decision. Defined.

Record lock_descriptor := mk_descriptor { l_id : Z; l_type : lock_type }.
#[global] Instance lock_descriptor_eq_dec : EqDecision lock_descriptor.
Proof. solve_decision. Defined.

Abbreviation manager := (gmap Z shared_mutex).

Definition get_or_create (id : Z) (m : manager) : shared_mutex := default unlocked (m !! id).

Definition on_mutex (id : Z) (f : shared_mutex → option shared_mutex) (m : manager) : option manager :=
  x ← f (get_or_create id m); Some (<[id := x]> m).

Definition get_read_lock (id : Z) (m : manager) : option (lock_descriptor * manager) :=
  m ← on_mutex id lock_shared m; Some (mk_descriptor id READ_LOCK, m).
Definition get_write_lock (id : Z) (m : manager) : option (lock_descriptor * manager) :=
  m ← on_mutex id lock m; Some (mk_descriptor id WRITE_LOCK, m).

(** [try_get_read_lock] and [try_get_write_lock] create the mutex in any case. *)
Definition try_get_read_lock (id : Z) (m : manager) : option lock_descriptor * manager :=
  match lock_shared (get_or_create id m) with
  | Some x => (Some (mk_descriptor id READ_LOCK), <[id := x]> m)
  | None => (None, <[id := get_or_create id m]> m)
  end.
Definition try_get_write_lock (id : Z) (m : manager) : option lock_descriptor * manager :=
  match lock (get_or_create id m) with
  | Some x => (Some (mk_descriptor id WRITE_LOCK), <[id := x]> m)
  | None => (None, <[id := get_or_create id m]> m)
  end.

Definition promote_to_write_lock (l : lock_descriptor) (m : manager) : option (lock_descriptor * manager) :=
  m ← on_mutex (l_id l) (λ x, x ← lock_upgrade x; x ← unlock_shared x; unlock_upgrade_and_lock x) m;
  Some (mk_descriptor (l_id l) WRITE_LOCK, m).

Definition release_lock (l : lock_descriptor) (m : manager) : option manager :=
  match l_type l with
  | WRITE_LOCK => on_mutex (l_id l) unlock m
  | READ_LOCK => on_mutex (l_id l) unlock_shared m
  end.

(** ** Managers up to mutexes that are not locked *)
Definition same_locks (m1 m2 : manager) : Prop := ∀ id, get_or_create id m1 = get_or_create id m2.
#[global] Instance same_locks_equivalence : Equivalence same_locks.
Proof.
  split; [by intros m id|by intros m1 m2 H id; rewrite H|]. intros m1 m2 m3 H1 H2 id. by rewrite H1, H2.
Qed.

#[global] Instance get_or_create_proper id : Proper (same_locks ==> (=)) (get_or_create id).
Proof. intros m1 m2 H. apply H. Qed.

Lemma get_or_create_insert id x m id' :
  get_or_create id' (<[id := x]> m) = if decide (id = id') then x else get_or_create id' m.
Proof.
  unfold get_or_create. case_decide as Hd; [subst; by rewrite lookup_insert_eq|by rewrite lookup_insert_ne].
Qed.

#[global] Instance insert_proper id x : Proper (same_locks ==> same_locks) (<[id := x]>).
Proof. intros m1 m2 H id'. rewrite !get_or_create_insert. by rewrite (H id'). Qed.

(** A free mutex can be locked, and unlocking it restores the manager. *)
Lemma write_lock_free id m :
  get_or_create id m = unlocked →
  ∃ m', get_write_lock id m = Some (mk_descriptor id WRITE_LOCK, m') ∧
    (∀ id', id' ≠ id → get_or_create id' m' = get_or_create id' m) ∧
    get_or_create id m' = mk_mutex 0 false true.
Proof.
  intros Hf. unfold get_write_lock, on_mutex. rewrite Hf. simpl. eexists. split; [done|]. split.
  - intros id' Hne. rewrite get_or_create_insert, decide_False by done. done.
  - by rewrite get_or_create_insert, decide_True.
Qed.

Lemma read_lock_free id m :
  get_or_create id m = unlocked →
  ∃ m', get_read_lock id m = Some (mk_descriptor id READ_LOCK, m') ∧
    (∀ id', id' ≠ id → get_or_create id' m' = get_or_create id' m) ∧
    get_or_create id m' = mk_mutex 1 false false.
Proof.
  intros Hf. unfold get_read_lock, on_mutex. rewrite Hf. simpl. eexists. split; [done|]. split.
  - intros id' Hne. rewrite get_or_create_insert, decide_False by done. done.
  - by rewrite get_or_create_insert, decide_True.
Qed.

Definition held_state (t : lock_type) : shared_mutex :=
  match t with READ_LOCK => mk_mutex 1 false false | WRITE_LOCK => mk_mutex 0 false true end.

Lemma release_ok id t m0 m :
  get_or_create id m0 = unlocked → get_or_create id m = held_state t →
  (∀ id', id' ≠ id → get_or_create id' m = get_or_create id' m0) →
  ∃ m', release_lock (mk_descriptor id t) m = Some m' ∧ same_locks m' m0.
Proof.
  intros Hf Hh Hoth. unfold release_lock, on_mutex. destruct t; simpl; rewrite Hh; simpl;
    (eexists; split; [done|]; intros id'; rewrite get_or_create_insert; case_decide as Hd;
     [subst; by rewrite Hf|by apply Hoth]).
Qed.

(** ** Exclusion *)
(** The descriptors that threads hold, with the mutexes that stand for them. *)
Definition count (id : Z) (t : lock_type) (held : list lock_descriptor) : nat :=
  length (filter (λ l, l = mk_descriptor id t) held).

Definition mutex_ok (x : shared_mutex) (r w : nat) : Prop :=
  shared_count x = r ∧ upgrade x = false ∧ (w = if exclusive x then 1 else 0) ∧ (exclusive x = true → r = 0).

Definition locks_ok (held : list lock_descriptor) (m : manager) : Prop :=
  ∀ id, mutex_ok (get_or_create id m) (count id READ_LOCK held) (count id WRITE_LOCK held).

(** Any thread takes, promotes or gives back a lock. *)
Inductive lstep : list lock_descriptor * manager → list lock_descriptor * manager → Prop :=
  | ls_read held m id l m' : get_read_lock id m = Some (l, m') → lstep (held, m) (l :: held, m')
  | ls_write held m id l m' : get_write_lock id m = Some (l, m') → lstep (held, m) (l :: held, m')
  | ls_try_read held m id r m' :
      try_get_read_lock id m = (r, m') → lstep (held, m) (match r with Some l => l :: held | None => held end, m')
  | ls_try_write held m id r m' :
      try_get_write_lock id m = (r, m') → lstep (held, m) (match r with Some l => l :: held | None => held end, m')
  | ls_promote h1 h2 m id l' m' :
      promote_to_write_lock (mk_descriptor id READ_LOCK) m = Some (l', m') →
      lstep (h1 ++ mk_descriptor id READ_LOCK :: h2, m) (h1 ++ l' :: h2, m')
  | ls_release h1 l h2 m m' : release_lock l m = Some m' → lstep (h1 ++ l :: h2, m) (h1 ++ h2, m').

Lemma count_cons id t l held : count id t (l :: held) = (if decide (l = mk_descriptor id t) then 1 else 0) + count id t held.
Proof. unfold count. rewrite filter_cons. by case_decide. Qed.
Lemma count_middle id t h1 l h2 :
  count id t (h1 ++ l :: h2) = (if decide (l = mk_descriptor id t) then 1 else 0) + count id t (h1 ++ h2).
Proof. unfold count. rewrite !list.filter_app, !length_app, filter_cons. case_decide; simpl; lia. Qed.

Lemma locks_ok_update held held' m id x :
  locks_ok held m → (∀ id' t, id' ≠ id → count id' t held' = count id' t held) →
  mutex_ok x (count id READ_LOCK held') (count id WRITE_LOCK held') → locks_ok held' (<[id := x]> m).
Proof.
  intros Hok Hc Hx id'. rewrite get_or_create_insert. case_decide as Hd; [by subst|].
  rewrite !Hc by done. apply Hok.
Qed.

Lemma locks_ok_proper held m1 m2 : same_locks m1 m2 → locks_ok held m1 → locks_ok held m2.
Proof. intros Hm Hok id. rewrite <- (Hm id). apply Hok. Qed.

(** One lock taken, through either interface. *)
Lemma lock_ok held m id t x :
  locks_ok held m →
  match t with READ_LOCK => lock_shared | WRITE_LOCK => lock end (get_or_create id m) = Some x →
  locks_ok (mk_descriptor id t :: held) (<[id := x]> m).
Proof.
  intros Hok Hl. apply (locks_ok_update held); [done| |].
  - intros id' t' Hne. rewrite count_cons, decide_False by congruence. done.
  - destruct (Hok id) as (H1 & H2 & H3 & H4). rewrite !count_cons. destruct t.
    + rewrite decide_True, decide_False by congruence. unfold lock_shared in Hl.
      destruct (exclusive (get_or_create id m)) eqn:E; simplify_eq/=. split_and!; simpl; auto; lia.
    + rewrite decide_False, decide_True by congruence. unfold lock in Hl.
      destruct (exclusive (get_or_create id m)) eqn:E; simplify_eq/=.
      destruct (Nat.ltb_spec 0 (shared_count (get_or_create id m))); simplify_eq/=.
      split_and!; simpl; auto; lia.
Qed.

Lemma create_ok held m id : locks_ok held m → locks_ok held (<[id := get_or_create id m]> m).
Proof.
  apply locks_ok_proper. intros id'. rewrite get_or_create_insert. case_decide; [by subst|done].
Qed.

Lemma lstep_ok s s' : lstep s s' → locks_ok s.1 s.2 → locks_ok s'.1 s'.2.
Proof.
  destruct 1 as [held m id l m' E|held m id l m' E|held m id r m' E|held m id r m' E|h1 h2 m id l' m' E|h1 l h2 m m' E];
    simpl; intros Hok.
  - unfold get_read_lock, on_mutex in E. destruct (lock_shared _) as [x|] eqn:Ex; simplify_eq/=.
    by apply (lock_ok held m id READ_LOCK).
  - unfold get_write_lock, on_mutex in E. destruct (lock _) as [x|] eqn:Ex; simplify_eq/=.
    by apply (lock_ok held m id WRITE_LOCK).
  - unfold try_get_read_lock in E. destruct (lock_shared _) as [x|] eqn:Ex; simplify_eq/=;
      [by apply (lock_ok held m id READ_LOCK)|by apply create_ok].
  - unfold try_get_write_lock in E. destruct (lock _) as [x|] eqn:Ex; simplify_eq/=;
      [by apply (lock_ok held m id WRITE_LOCK)|by apply create_ok].
  - unfold promote_to_write_lock, on_mutex in E. simpl in E.
    apply bind_Some in E as (m2 & E & E2). simplify_eq. apply bind_Some in E as (x & E & ?). simplify_eq.
    apply bind_Some in E as (x1 & E1 & E). apply bind_Some in E as (x2 & E2 & E).
    apply (locks_ok_update (h1 ++ mk_descriptor id READ_LOCK :: h2)); [done| |].
    + intros id' t Hne. rewrite !count_middle, !decide_False by congruence. done.
    + destruct (Hok id) as (H1 & H2 & H3 & H4). rewrite !count_middle in *.
      rewrite decide_True in H1 by done. rewrite decide_False in H3 by congruence.
      rewrite decide_False by congruence. rewrite (decide_True (P := mk_descriptor id WRITE_LOCK = _)) by done.
      unfold lock_upgrade in E1. destruct (exclusive (get_or_create id m)); [done|]. rewrite H2 in E1.
      simplify_eq/=. unfold unlock_shared in E2. simpl in E2. simplify_eq/=. unfold unlock_upgrade_and_lock in E. simpl in E.
      destruct (shared_count (get_or_create id m)) as [|[|c]]; simplify_eq/=. split_and!; simpl; auto; lia.
  - destruct l as [id t]. unfold release_lock, on_mutex in E. simpl in E.
    destruct (Hok id) as (H1 & H2 & H3 & H4). rewrite !count_middle in H1, H3, H4.
    destruct t; apply bind_Some in E as (x & E & ?); simplify_eq;
      (eapply locks_ok_update; [exact Hok| |];
       [intros id' t' Hne; rewrite count_middle, decide_False by congruence; done|]).
    + rewrite decide_True in H1, H4 by done. rewrite decide_False in H3 by congruence.
      unfold unlock_shared in E. rewrite H1 in E. simpl in E. simplify_eq. split_and!; simpl; auto.
      intros He. specialize (H4 He). lia.
    + rewrite decide_False in H1, H4 by congruence. rewrite decide_True in H3 by done.
      unfold unlock in E. destruct (exclusive (get_or_create id m)); simplify_eq/=.
      split_and!; simpl; auto.
Qed.

End Locks.

(** ** The properties *)
(** C27: In every state that any sequence of lock operations of any threads
    (blocking, trying, promoting, releasing) reaches from the initial one, a
    write lock of a node excludes every other lock of it: two descriptors held
    for the same node are both read locks. *)
Theorem lock_manager_exclusion held (m : Locks.manager) l1 l2 h1 h2 h3 :
  rtc Locks.lstep ([], ∅) (held, m) → held = h1 ++ l1 :: h2 ++ l2 :: h3 →
  Locks.l_id l1 = Locks.l_id l2 →
  Locks.l_type l1 = Locks.READ_LOCK ∧ Locks.l_type l2 = Locks.READ_LOCK.
Proof.
  intros Hr -> Hid.
  assert (Hok : Locks.locks_ok (h1 ++ l1 :: h2 ++ l2 :: h3) m).
  { change (Locks.locks_ok (h1 ++ l1 :: h2 ++ l2 :: h3, m).1 (h1 ++ l1 :: h2 ++ l2 :: h3, m).2).
    assert (Hgen : ∀ s s', rtc Locks.lstep s s' → Locks.locks_ok s.1 s.2 → Locks.locks_ok s'.1 s'.2).
    { induction 1 as [|s1 s2 s3 Hs _ IH]; [done|]. intros H. by apply IH, (Locks.lstep_ok s1). }
    apply (Hgen _ _ Hr). intros id. repeat split; done. }
  specialize (Hok (Locks.l_id l1)) as (H1 & _ & H3 & H4). revert H1 H3 H4.
  rewrite !Locks.count_middle, app_assoc, !Locks.count_middle, <- app_assoc.
  destruct l1 as [id t1], l2 as [id2 t2]. simpl in *. subst id2.
  destruct (Locks.exclusive (Locks.get_or_create id m)) eqn:E; intros H1 H3 H4.
  - specialize (H4 eq_refl). destruct t1, t2; repeat case_decide; simplify_eq; try lia; done.
  - destruct t1, t2; repeat case_decide; simplify_eq; try lia; done.
Qed.


(** Two readers of the same node. *)
Lemma lock_manager_exclusion_witness :
  ∃ m, rtc Locks.lstep ([], ∅) ([Locks.mk_descriptor 7 Locks.READ_LOCK; Locks.mk_descriptor 7 Locks.READ_LOCK], m) ∧
    Locks.l_type (Locks.mk_descriptor 7 Locks.READ_LOCK) = Locks.READ_LOCK.
Proof.
  eexists. assert (Hr : rtc Locks.lstep ([], ∅) ([Locks.mk_descriptor 7 Locks.READ_LOCK; Locks.mk_descriptor 7 Locks.READ_LOCK],
    <[7%Z := Locks.mk_mutex 2 false false]> (<[7%Z := Locks.mk_mutex 1 false false]> ∅))).
  { eapply rtc_l; [apply (Locks.ls_read _ _ 7); reflexivity|].
    eapply rtc_l; [apply (Locks.ls_read _ _ 7); reflexivity|]. apply rtc_refl. }
  split; [exact Hr|].
  exact (proj1 (lock_manager_exclusion _ _ (Locks.mk_descriptor 7 Locks.READ_LOCK) (Locks.mk_descriptor 7 Locks.READ_LOCK)
    [] [] [] Hr eq_refl eq_refl)).
Defined.
