(* ===== verification/ConcurrentTree.v ===== *)
(** The concurrent tree (src/src/tree/concurrent_b_plus_tree.h): searches and
    optimistic insertions couple read locks down the path, pessimistic
    insertions hold the write locks of the whole path. Here an operation runs
    to its end on a lock manager in which other threads may hold locks of blocks
    outside the tree; [ConcurrentMachine] interleaves the threads. *)
From Stdlib Require Import ZArith Lia.
From stdpp Require Import base list gmap sorting numbers.
From S2P Require Import Prelude KV Leaf Inner Store Tree TreeRep TreeFoot TreeInsert TreeSearch Alloc TreeSpec LockManager.
Import Locks.

Section concurrent.
Context {A : Type} `{!Allocator A}.
Context (CAPACITY : nat) (junkE : list (Z * Z)) (junkK : list Z).

Local Abbreviation state := (tree_state A).
Local Abbreviation deque := (list lock_descriptor).

(** [blk_accessor_->read] and [deserialize]; [serialize] and
    [blk_accessor_->write]. *)
Definition read_node (id : Z) (st : state) : option node :=
  b ← blocks st !! id; deserialize CAPACITY junkE junkK b.
Definition write_node (id : Z) (n : node) (st : state) : state :=
  set_blocks (<[id := serialize n]> (blocks st)) st.

Definition get_root_id (st : state) : Z := root_ st.
Definition update_root_node_id_and_increase_tree_height (id : Z) (st : state) : state :=
  mk_state (blocks st) (alloc st) id (depth_ st + 1).

(** The deque of obtained locks, its back first. *)
Definition release_parent (obtained_locks : deque) (m : manager) : option (deque * manager) :=
  match obtained_locks with
  | [] => Some ([], m)
  | [parent_lock] => m ← release_lock parent_lock m; Some ([], m)
  | _ => None
  end.

Definition release_own (current_node_id : Z) (obtained_locks : deque) (m : manager) : option (deque * manager) :=
  match obtained_locks with
  | [] => Some ([], m)
  | l :: rest =>
      if (current_node_id =? l_id l)%Z then m ← release_lock l m; Some (rest, m)
      else Some (obtained_locks, m)
  end.

(** ** Search *)
Fixpoint search_with_concurrency_control (fuel : nat) (key : Z) (obtained_locks : deque)
    (current_node_id : Z) (is_current_node_root : bool) (m : manager) (st : state)
    : option (option Z * deque * manager) :=
  match fuel with
  | 0 => None
  | S fuel' =>
      '(l, m) ← get_read_lock current_node_id m;
      if is_current_node_root && negb (get_root_id st =? current_node_id)%Z then
        m ← release_lock l m;
        search_with_concurrency_control fuel' key obtained_locks (get_root_id st) true m st
      else
        '(obtained_locks, m) ← release_parent obtained_locks m;
        let obtained_locks := l :: obtained_locks in
        n ← read_node current_node_id st;
        match n with
        | NLeaf leaf =>
            is_found ← LeafNode.search key leaf;
            m ← release_lock l m;
            Some (is_found, tail obtained_locks, m)
        | NInner inner_node =>
            target_node_index ← InnerNode.locate_child_index key inner_node;
            if (target_node_index <? 0)%Z then
              m ← release_lock l m;
              Some (None, tail obtained_locks, m)
            else
              child ← InnerNode.child_rep_ inner_node !! Z.to_nat target_node_index;
              '(is_found, obtained_locks, m) ←
                search_with_concurrency_control fuel' key obtained_locks child false m st;
              '(obtained_locks, m) ← release_own current_node_id obtained_locks m;
              Some (is_found, obtained_locks, m)
        end
  end.

Definition concurrent_search (key : Z) (m : manager) (st : state) : option (option Z * manager) :=
  '(found, obtained_locks, m) ←
    search_with_concurrency_control (depth_ st) key [] (get_root_id st) true m st;
  match obtained_locks with [] => Some (found, m) | _ => None end.

(** ** Optimistic insertion *)
Fixpoint insert_with_optimistic_concurrency_control (fuel : nat) (key value : Z) (obtained_locks : deque)
    (current_node_id : Z) (current_depth : nat) (is_current_node_root : bool) (m : manager) (st : state)
    : option (bool * deque * manager * state) :=
  match fuel with
  | 0 => None
  | S fuel' =>
      '(l, m) ← (if current_depth =? 1 then get_write_lock current_node_id m
                 else get_read_lock current_node_id m);
      if is_current_node_root && negb (get_root_id st =? current_node_id)%Z then
        m ← release_lock l m;
        insert_with_optimistic_concurrency_control fuel' key value obtained_locks (get_root_id st)
          (depth_ st) true m st
      else
        '(obtained_locks, m) ← release_parent obtained_locks m;
        let obtained_locks := l :: obtained_locks in
        n ← read_node current_node_id st;
        match n with
        | NLeaf leaf =>
            if LeafNode.size_ leaf =? CAPACITY then
              m ← release_lock l m;
              Some (false, tail obtained_locks, m, st)
            else
              '(_, leaf) ← LeafNode.insert CAPACITY key value leaf;
              let st := write_node current_node_id (NLeaf leaf) st in
              m ← release_lock l m;
              Some (true, tail obtained_locks, m, st)
        | NInner inner_node =>
            target_node_index ← InnerNode.locate_child_index key inner_node;
            let exceed_left_boundary := (target_node_index <? 0)%Z in
            '(is_succeed, obtained_locks, m, st) ←
              (if negb exceed_left_boundary then
                 child ← InnerNode.child_rep_ inner_node !! Z.to_nat target_node_index;
                 insert_with_optimistic_concurrency_control fuel' key value obtained_locks child
                   (current_depth - 1) false m st
               else Some (false, obtained_locks, m, st));
            '(obtained_locks, m) ← release_own current_node_id obtained_locks m;
            Some (is_succeed, obtained_locks, m, st)
        end
  end.

(** ** Pessimistic insertion *)
(** The new root above the two halves of a split root. *)
Definition grow_root (lt rt : node) (st : state) : option state :=
  lkey ← node_leftmost_key lt;
  rkey ← node_leftmost_key rt;
  let '(rep, a') := allocate (alloc st) in
  new_inner_node ← InnerNode.create_root CAPACITY junkK rep lkey (node_self_rep lt) rkey (node_self_rep rt);
  let st := set_alloc a' st in
  let st := write_node rep (NInner (InnerNode.mark_modified new_inner_node)) st in
  Some (update_root_node_id_and_increase_tree_height rep st).

(** The flush of the two halves of a split node, and of the new root. *)
Definition flush_split (is_current_node_root : bool) (current_node_id : Z) (lt rt : node) (st : state) : option state :=
  let st := write_node current_node_id lt st in
  let st := write_node (node_self_rep rt) rt st in
  if is_current_node_root then grow_root lt rt st else Some st.

(** What follows the insertion into a child: the node receives the right half
    of a split child, or is split itself, or is flushed if it was modified. *)
Definition handle_child_split (is_current_node_root : bool) (current_node_id : Z) (inner_node : InnerNode.InnerNode)
    (target_node_index : nat) (child_split : option (node * node * Z)) (obtained_locks : deque) (m : manager) (st : state)
    : option (option (node * node * Z) * deque * manager * state) :=
  '(split, obtained_locks, m, st) ←
    (match child_split with
     | Some (_, rchild, boundary_key) =>
         if InnerNode.size_ inner_node <? CAPACITY then
           inner_node ← InnerNode.insert_inner_node (node_self_rep rchild) boundary_key
                          (target_node_index + 1) inner_node;
           let st := write_node current_node_id (NInner inner_node) st in
           self_lock ← head obtained_locks;
           m ← release_lock self_lock m;
           Some (None, tail obtained_locks, m, st)
         else
           let '(rrep, a') := allocate (alloc st) in
           '(lt, rt, boundary) ← InnerNode.split_insert CAPACITY rrep junkK target_node_index
                                   (node_self_rep rchild) boundary_key inner_node;
           st ← flush_split is_current_node_root current_node_id (NInner lt) (NInner rt) (set_alloc a' st);
           self_lock ← head obtained_locks;
           m ← release_lock self_lock m;
           Some (Some (NInner lt, NInner rt, boundary), tail obtained_locks, m, st)
     | None =>
         let st := if InnerNode.modified_ inner_node
                   then write_node current_node_id (NInner inner_node) st else st in
         Some (None, obtained_locks, m, st)
     end);
  '(obtained_locks, m) ← release_own current_node_id obtained_locks m;
  Some (split, obtained_locks, m, st).

(** The result is the split, if any: its left and right node and the boundary
    key. *)
Fixpoint insert_with_pessimistic_concurrency_control (fuel : nat) (key value : Z) (obtained_locks : deque)
    (current_node_id : Z) (is_current_node_root : bool) (m : manager) (st : state)
    : option (option (node * node * Z) * deque * manager * state) :=
  match fuel with
  | 0 => None
  | S fuel' =>
      '(l, m) ← get_write_lock current_node_id m;
      if is_current_node_root && negb (get_root_id st =? current_node_id)%Z then
        m ← release_lock l m;
        insert_with_pessimistic_concurrency_control fuel' key value obtained_locks (get_root_id st) true m st
      else
        let obtained_locks := l :: obtained_locks in
        n ← read_node current_node_id st;
        match n with
        | NLeaf _ =>
            '(leaf, split, st) ← insert_with_split_support CAPACITY junkE junkK 0 n key value st;
            st ← (match split with
                  | Some (rt, _) => flush_split is_current_node_root (node_self_rep leaf) leaf rt st
                  | None => Some (write_node (node_self_rep leaf) leaf st)
                  end);
            m ← release_lock l m;
            Some ((λ s, (leaf, s.1, s.2)) <$> split, tail obtained_locks, m, st)
        | NInner inner_node =>
            index ← InnerNode.locate_child_index key inner_node;
            let exceed_left_boundary := (index <? 0)%Z in
            inner_node ← (if exceed_left_boundary then InnerNode.set_left_boundary key inner_node
                          else Some inner_node);
            let target_node_index := Z.to_nat (Z.max 0 index) in
            child_node_id ← InnerNode.child_rep_ inner_node !! target_node_index;
            '(child_split, obtained_locks, m, st) ←
              insert_with_pessimistic_concurrency_control fuel' key value obtained_locks child_node_id false m st;
            handle_child_split is_current_node_root current_node_id inner_node target_node_index child_split
              obtained_locks m st
        end
  end.

Definition concurrent_insert (key value : Z) (m : manager) (st : state) : option (manager * state) :=
  '(is_succeed, obtained_locks, m, st) ←
    insert_with_optimistic_concurrency_control (depth_ st) key value [] (get_root_id st) (depth_ st) true m st;
  match is_succeed, obtained_locks with
  | true, _ => Some (m, st)
  | false, [] =>
      '(_, obtained_locks, m, st) ←
        insert_with_pessimistic_concurrency_control (depth_ st) key value [] (get_root_id st) true m st;
      match obtained_locks with [] => Some (m, st) | _ => None end
  | false, _ => None
  end.

(** ** Locks of one thread *)
(** [m] is [m0] with a lock of [id] taken. *)
Definition held_in (id : Z) (t : lock_type) (m m0 : manager) : Prop :=
  get_or_create id m0 = unlocked ∧ get_or_create id m = held_state t ∧
  ∀ id', id' ≠ id → get_or_create id' m = get_or_create id' m0.

Definition get_lock (t : lock_type) (id : Z) (m : manager) : option (lock_descriptor * manager) :=
  match t with READ_LOCK => get_read_lock id m | WRITE_LOCK => get_write_lock id m end.

Lemma get_lock_held t id m :
  get_or_create id m = unlocked → ∃ m', get_lock t id m = Some (mk_descriptor id t, m') ∧ held_in id t m' m.
Proof.
  intros Hf. destruct t; simpl.
  - destruct (read_lock_free id m Hf) as (m' & -> & H1 & H2). by exists m'.
  - destruct (write_lock_free id m Hf) as (m' & -> & H1 & H2). by exists m'.
Qed.

Lemma release_held id t m m0 :
  held_in id t m m0 → ∃ m', release_lock (mk_descriptor id t) m = Some m' ∧ same_locks m' m0.
Proof. intros (H1 & H2 & H3). by eapply release_ok. Qed.

#[local] Instance held_in_proper id t : Proper (same_locks ==> same_locks ==> iff) (held_in id t).
Proof.
  intros m1 m2 H m3 m4 H'. unfold held_in. rewrite (H id), (H' id). setoid_rewrite (λ j, H j).
  by setoid_rewrite (λ j, H' j).
Qed.

(** The locks a descent holds when it reaches a node: none, or the read lock of
    the parent, which is not below the node. *)
Definition coupled (obt : deque) (ids : list Z) (m m0 : manager) : Prop :=
  (obt = [] ∧ same_locks m m0) ∨
  ∃ p, obt = [mk_descriptor p READ_LOCK] ∧ p ∉ ids ∧ held_in p READ_LOCK m m0.

(** One step of the coupling: the node's lock is taken, then the parent's is
    released. *)
Lemma couple t id ids obt m m0 :
  coupled obt ids m m0 → id ∈ ids → get_or_create id m0 = unlocked →
  ∃ m1 m2, get_lock t id m = Some (mk_descriptor id t, m1) ∧
    release_parent obt m1 = Some ([], m2) ∧ held_in id t m2 m0.
Proof.
  intros [[-> Hm]|(p & -> & Hp & Hh)] Hid Hf.
  - destruct (get_lock_held t id m) as (m1 & E & Hl); [by rewrite (Hm id)|].
    exists m1, m1. split_and!; [done|done|]. by rewrite <- Hm.
  - assert (Hne : id ≠ p) by (intros ->; done). destruct Hh as (H1 & H2 & H3).
    destruct (get_lock_held t id m) as (m1 & E & G1 & G2 & G3); [by rewrite H3|].
    destruct (release_ok p READ_LOCK (<[p := unlocked]> m1) m1) as (m2 & Er & Hm2).
    { by rewrite get_or_create_insert, decide_True. } { by rewrite G3. }
    { intros id' Hid'. by rewrite get_or_create_insert, decide_False. }
    exists m1, m2. split_and!; [done|cbn [release_parent]; by rewrite Er|]. rewrite Hm2. split_and!; [done| |].
    + by rewrite get_or_create_insert, decide_False.
    + intros id' Hid'. rewrite get_or_create_insert. case_decide; [by subst|]. by rewrite G3, H3.
Qed.

(** ** Subtrees *)
Context (Hpar : params_ok CAPACITY junkE junkK).
Local Abbreviation load := (load CAPACITY junkE junkK).

Definition subtree_at (h : nat) (st : state) (id : Z) (ids : list Z) : Prop :=
  NoDup ids ∧ ∃ lo hi f nx l, rep CAPACITY h (blocks st) id lo hi f nx l ids.

Lemma read_load id st n : (0 ≤ id)%Z → load id st = Some n → read_node id st = Some n.
Proof using.
  intros H0. unfold Store.load, ref_get, read_node. simpl. destruct (Z.ltb_spec id 0); [lia|].
  destruct (blocks st !! id) as [b|]; [|done]. simpl. by destruct (deserialize _ _ _ b).
Qed.

Lemma subtree_leaf st id ids :
  subtree_at 0 st id ids →
  ∃ n0, load id st = Some (NLeaf n0) ∧ read_node id st = Some (NLeaf n0) ∧ ids = [id] ∧
    LeafNode.wf CAPACITY n0 ∧ LeafNode.self_rep_ n0 = id.
Proof using Hpar.
  intros (Hnd & lo & hi & f & nx & l & Hrep).
  destruct (rep_loadable CAPACITY junkE junkK Hpar _ _ _ _ _ _ _ _ _ Hrep) as [n Hn].
  destruct (load_rep_0 CAPACITY junkE junkK Hpar _ _ _ _ _ _ _ _ _ Hrep Hn)
    as (_ & -> & H0 & _ & _ & n0 & -> & Hwf & _ & _ & Hself & _).
  exists n0. split_and!; auto. by apply read_load.
Qed.

Lemma subtree_inner h st id ids :
  subtree_at (S h) st id ids →
  ∃ i ids', load id st = Some (NInner i) ∧ read_node id st = Some (NInner i) ∧ ids = id :: ids' ∧
    id ∉ ids' ∧ InnerNode.modified_ i = false ∧ InnerNode.self_rep_ i = id ∧
    ∀ key, ∃ index c ic, InnerNode.locate_child_index key i = Some index ∧
      InnerNode.child_rep_ i !! Z.to_nat (Z.max 0 index) = Some c ∧
      subtree_at h st c ic ∧ ∀ j, j ∈ ic → j ∈ ids'.
Proof using Hpar.
  intros (Hnd & lo & hi & f & nx & l & Hrep).
  destruct (rep_loadable CAPACITY junkE junkK Hpar _ _ _ _ _ _ _ _ _ Hrep) as [n Hn].
  destruct (load_rep_S CAPACITY junkE junkK Hpar _ _ _ _ _ _ _ _ _ _ Hrep Hn)
    as (i & ids' & -> & Hwf & Hself & Hmod & _ & Hne & -> & H0 & Hw & HR).
  apply list.NoDup_cons in Hnd as [Hid Hnd].
  exists i, ids'. split_and!; auto; [by apply read_load|]. intros key.
  assert (Hex : ∃ index pre kt c post, InnerNode.locate_child_index key i = Some index ∧
    InnerNode.child_rep_ i !! Z.to_nat (Z.max 0 index) = Some c ∧ InnerNode.live i = pre ++ (kt, c) :: post).
  { destruct (locate_cases CAPACITY i key Hwf) as
      [[Hloc _]|(index & pre & kt & c & post & Hloc & Hi & Hpre & Hc & Hl & _)].
    - destruct (live_head_kv _ Hne) as (k0 & c & post & El). exists (-1)%Z, [], k0, c, post.
      split_and!; [done| |done]. assert (Hi : InnerNode.live i !! 0 = Some (k0, c)) by (by rewrite El).
      by apply InnerNode.inner_live_lookup in Hi as (_ & _ & Hi).
    - exists index, pre, kt, c, post. split_and!; [done| |done].
      rewrite Z.max_r by done. by rewrite Hpre. }
  destruct Hex as (index & pre & kt & c & post & E1 & E2 & Hl). rewrite Hl in HR.
  apply reps_middle in HR as (m1 & m2 & la & lc & lb & ia & ic & ib & _ & HRc & _ & _ & ->).
  exists index, c, ic. split_and!; [done|done| |set_solver].
  rewrite !list.NoDup_app in Hnd. split; [tauto|]. eauto 10.
Qed.

Lemma root_check (is_root : bool) id st :
  (is_root = true → root_ st = id) → is_root && negb (get_root_id st =? id)%Z = false.
Proof using. intros H. destruct is_root; [|done]. unfold get_root_id. by rewrite H, Z.eqb_refl. Qed.

(** ** Search *)
Lemma search_cc_ok h : ∀ fuel fuel' key obt id ids is_root m m0 st n r,
  h < fuel → h ≤ fuel' → subtree_at h st id ids → load id st = Some n →
  (is_root = true → root_ st = id) → coupled obt ids m m0 →
  (∀ j, j ∈ ids → get_or_create j m0 = unlocked) →
  node_search CAPACITY junkE junkK fuel' n key st = Some r →
  ∃ m', search_with_concurrency_control fuel key obt id is_root m st = Some (r, [], m') ∧ same_locks m' m0.
Proof using Hpar.
  induction h as [|h IH]; intros [|fuel] fuel' key obt id ids is_root m m0 st n r Hf Hf' Hsub Hn Hroot Hcp Hfree Hs; try lia.
  - destruct (subtree_leaf _ _ _ Hsub) as (n0 & Hn0 & Hr & -> & _). rewrite Hn0 in Hn. injection Hn as <-.
    assert (Hsr : LeafNode.search key n0 = Some r) by (by destruct fuel').
    destruct (couple READ_LOCK id [id] obt m m0 Hcp) as (m1 & m2 & E1 & E2 & Hh); [constructor|by apply Hfree; constructor|].
    simpl in E1 |- *. rewrite E1. cbn [mbind option_bind].
    rewrite (root_check _ _ _ Hroot), E2. cbn [mbind option_bind]. rewrite Hr. cbn [mbind option_bind]. rewrite Hsr.
    destruct (release_held _ _ _ _ Hh) as (m3 & E3 & Hm3). cbn [mbind option_bind]. rewrite E3. by exists m3.
  - destruct (subtree_inner _ _ _ _ Hsub) as (i & ids' & Hn0 & Hr & -> & Hid & _ & _ & Hch).
    rewrite Hn0 in Hn. injection Hn as <-.
    destruct (Hch key) as (index & c & ic & Hloc & Hc & Hsc & Hic).
    destruct (couple READ_LOCK id (id :: ids') obt m m0 Hcp) as (m1 & m2 & E1 & E2 & Hh); [constructor|by apply Hfree; constructor|].
    simpl in E1 |- *. rewrite E1. cbn [mbind option_bind].
    rewrite (root_check _ _ _ Hroot), E2. cbn [mbind option_bind]. rewrite Hr. cbn [mbind option_bind]. rewrite Hloc. cbn [mbind option_bind].
    destruct fuel' as [|fuel']; [lia|]. simpl in Hs. rewrite Hloc in Hs. cbn [mbind option_bind] in Hs.
    destruct (Z.ltb_spec index 0).
    + destruct (release_held _ _ _ _ Hh) as (m3 & E3 & Hm3). rewrite E3. exists m3. by simplify_eq/=.
    + rewrite Z.max_r in Hc by done. rewrite Hc in Hs |- *. cbn [mbind option_bind] in Hs |- *.
      destruct (load c st) as [child|] eqn:Hcl; [|done]. cbn [mbind option_bind] in Hs.
      destruct (IH fuel fuel' key [mk_descriptor id READ_LOCK] c ic false m2 m0 st child r) as (m3 & -> & Hm3);
        try done; try lia.
      { right. exists id. split_and!; [done| |done]. intros Hin. by apply Hid, Hic. }
      { intros j Hj. apply Hfree. constructor. by apply Hic. }
      by exists m3.
Qed.

(** ** Insertion *)
Local Abbreviation insert_ws := (insert_with_split_support CAPACITY junkE junkK).

Lemma write_close id n (st : state) : node_modified n = true → write_node id n st = close_at id n st.
Proof using. intros H. unfold write_node, close_at, ref_close. simpl. by rewrite H. Qed.

Lemma close_unmodified id n (st : state) : node_modified n = false → close_at id n st = st.
Proof using. intros H. unfold close_at, ref_close. simpl. by rewrite H. Qed.

Lemma insert_ws_leaf fuel l key v st : insert_ws fuel (NLeaf l) key v st = insert_ws 0 (NLeaf l) key v st.
Proof using. by destruct fuel. Qed.

(** What an insertion into a leaf leaves to be written. *)
Lemma insert_ws_leaf_shape l key v st n' r st1 :
  LeafNode.wf CAPACITY l → insert_ws 0 (NLeaf l) key v st = Some (n', r, st1) →
  node_self_rep n' = LeafNode.self_rep_ l ∧ node_modified n' = true ∧
  (∀ rn b, r = Some (rn, b) → node_modified rn = true) ∧ root_ st1 = root_ st ∧ depth_ st1 = depth_ st.
Proof using Hpar.
  intros Hwf E. simpl in E. destruct (allocate (alloc st)) as [rrep a'].
  destruct (LeafNode.insert_with_split_live CAPACITY rrep junkE key v l) as (l' & r' & Hins & Hpost);
    [destruct Hpar; lia|done|apply Hpar|]. rewrite Hins in E. cbn [mbind option_bind] in E.
  destruct Hpost as (_ & Hself & Hmod & Hpost).
  destruct r' as [[rt b]|]; simplify_eq/=; split_and!; auto; intros; simplify_eq/=. by destruct Hpost as (_ & _ & ? & _).
Qed.

(** When the leaf has room, the insertion of the leaf is the one with split
    support. *)
Lemma leaf_insert_agree l key v st n' r st1 :
  LeafNode.wf CAPACITY l → LeafNode.size_ l ≠ CAPACITY →
  insert_ws 0 (NLeaf l) key v st = Some (n', r, st1) →
  r = None ∧ st1 = st ∧ ∃ b l', n' = NLeaf l' ∧ LeafNode.insert CAPACITY key v l = Some (b, l').
Proof using.
  intros (_ & Hsz & _) Hne E. simpl in E. destruct (allocate (alloc st)) as [rrep a'].
  unfold LeafNode.insert_with_split_support in E. unfold LeafNode.insert.
  destruct (LeafNode.search_key_position _ key) as [[found pos]|]; [|done]. cbn [mbind option_bind] in *.
  change (LeafNode.size_ (LeafNode.mark_modified l)) with (LeafNode.size_ l) in *.
  destruct found.
  - destruct (LeafNode.set_val _ _ _); simplify_eq/=. eauto 10.
  - destruct (Nat.ltb_spec (LeafNode.size_ l) CAPACITY); [|lia].
    destruct (Nat.leb_spec CAPACITY (LeafNode.size_ l)); [lia|].
    destruct (LeafNode.insert_at _ _ _ _); simplify_eq/=. eauto 10.
Qed.

Lemma optimistic_ok h : ∀ fuel fuel' key v obt id ids is_root m m0 st n n' r st1,
  h < fuel → h ≤ fuel' → subtree_at h st id ids → load id st = Some n →
  (is_root = true → root_ st = id) → coupled obt ids m m0 →
  (∀ j, j ∈ ids → get_or_create j m0 = unlocked) →
  insert_ws fuel' n key v st = Some (n', r, st1) →
  ∃ (b : bool) m' st', insert_with_optimistic_concurrency_control fuel key v obt id (S h) is_root m st
      = Some (b, [], m', st') ∧ same_locks m' m0 ∧
    (if b then r = None ∧ st' = close_at id n' st1 else st' = st).
Proof using Hpar.
  induction h as [|h IH]; intros [|fuel] fuel' key v obt id ids is_root m m0 st n n' r st1 Hf Hf' Hsub Hn Hroot Hcp Hfree Hins; try lia.
  - destruct (subtree_leaf _ _ _ Hsub) as (n0 & Hn0 & Hr & -> & Hwf & Hself). rewrite Hn0 in Hn. injection Hn as <-.
    rewrite insert_ws_leaf in Hins.
    destruct (couple WRITE_LOCK id [id] obt m m0 Hcp) as (m1 & m2 & E1 & E2 & Hh); [constructor|by apply Hfree; constructor|].
    destruct (release_held _ _ _ _ Hh) as (m3 & E3 & Hm3).
    simpl in E1 |- *. rewrite E1. cbn [mbind option_bind].
    rewrite (root_check _ _ _ Hroot), E2. cbn [mbind option_bind]. rewrite Hr. cbn [mbind option_bind].
    destruct (Nat.eqb_spec (LeafNode.size_ n0) CAPACITY) as [|Hne].
    + rewrite E3. by exists false, m3, st.
    + destruct (leaf_insert_agree _ _ _ _ _ _ _ Hwf Hne Hins) as (-> & -> & b & l' & -> & Hi).
      destruct (insert_ws_leaf_shape _ _ _ _ _ _ _ Hwf Hins) as (_ & Hmod & _).
      rewrite Hi. cbn [mbind option_bind]. rewrite E3. cbn [mbind option_bind].
      eexists true, m3, _. split_and!; [done|done|done|]. by apply write_close.
  - destruct (subtree_inner _ _ _ _ Hsub) as (i & ids' & Hn0 & Hr & -> & Hid & Hmod & _ & Hch).
    rewrite Hn0 in Hn. injection Hn as <-.
    destruct (Hch key) as (index & c & ic & Hloc & Hc & Hsc & Hic).
    destruct (couple READ_LOCK id (id :: ids') obt m m0 Hcp) as (m1 & m2 & E1 & E2 & Hh); [constructor|by apply Hfree; constructor|].
    simpl in E1 |- *. rewrite E1. cbn [mbind option_bind].
    rewrite (root_check _ _ _ Hroot), E2. cbn [mbind option_bind]. rewrite Hr. cbn [mbind option_bind]. rewrite Hloc. cbn [mbind option_bind].
    destruct fuel' as [|fuel']; [lia|]. simpl in Hins. rewrite Hloc in Hins. cbn [mbind option_bind] in Hins.
    destruct (Z.ltb_spec index 0); cbn [negb].
    + destruct (release_held _ _ _ _ Hh) as (m3 & E3 & Hm3). cbn [mbind option_bind release_own l_id].
      rewrite Z.eqb_refl, E3. by exists false, m3, st.
    + cbn [mbind option_bind] in Hins. rewrite Hc in Hins. rewrite Z.max_r in Hc by done. rewrite Hc.
      cbn [mbind option_bind] in Hins |- *.
      destruct (load c st) as [child|] eqn:Hcl; [|done]. cbn [mbind option_bind] in Hins.
      destruct (insert_ws fuel' child key v st) as [[[child' split] st2]|] eqn:Hrec; [|done]. cbn [mbind option_bind] in Hins.
      destruct (IH fuel fuel' key v [mk_descriptor id READ_LOCK] c ic false m2 m0 st child child' split st2)
        as (b & m3 & st' & E & Hm3 & Hb); try done; try lia.
      { right. exists id. split_and!; [done| |done]. intros Hin. by apply Hid, Hic. }
      { intros j Hj. apply Hfree. constructor. by apply Hic. }
      rewrite E. cbn [mbind option_bind release_own]. exists b, m3, st'. split_and!; [done|done|].
      destruct b; [|done]. destruct Hb as [-> ->]. simplify_eq. split; [done|]. symmetry. by apply close_unmodified.
Qed.

(** The nodes an insertion leaves to be written, and the new root. *)
Definition finish (is_root : bool) (id : Z) (n' : node) (r : option (node * Z)) (st : state) : option state :=
  match r with
  | None => Some (close_at id n' st)
  | Some (rn, _) =>
      let st := close_at (node_self_rep rn) rn (close_at id n' st) in
      if is_root then grow_root n' rn st else Some st
  end.

Lemma flush_split_finish is_root id lt rt b st :
  node_modified lt = true → node_modified rt = true →
  flush_split is_root id lt rt st = finish is_root id lt (Some (rt, b)) st.
Proof using. intros H1 H2. unfold flush_split, finish. by rewrite !write_close. Qed.

Lemma insert_inner_shape crep b pos i i' :
  InnerNode.insert_inner_node crep b pos i = Some i' →
  InnerNode.self_rep_ i' = InnerNode.self_rep_ i ∧ InnerNode.modified_ i' = true.
Proof using.
  unfold InnerNode.insert_inner_node. intros E. apply bind_Some in E as ([ks cs] & _ & E).
  apply bind_Some in E as (ks' & _ & E). apply bind_Some in E as (cs' & _ & E). by simplify_eq/=.
Qed.

Lemma split_insert_shape rrep target crep bkey i lt rt b :
  InnerNode.split_insert CAPACITY rrep junkK target crep bkey i = Some (lt, rt, b) →
  InnerNode.self_rep_ lt = InnerNode.self_rep_ i ∧ InnerNode.modified_ lt = true ∧
  InnerNode.modified_ rt = true.
Proof using.
  unfold InnerNode.split_insert. intros E. apply bind_Some in E as (p & _ & E).
  apply bind_Some in E as ([lt' rt'] & E1 & E). apply bind_Some in E as (b' & _ & E). simplify_eq.
  destruct (target <? CAPACITY / 2); apply bind_Some in E1 as (pos & _ & E1); apply bind_Some in E1 as (x & E1 & E2);
    simplify_eq; by apply insert_inner_shape in E1 as [? ?].
Qed.

(** What the recursive pessimistic insertion promises, given what the one of
    the sequential tree does. *)
Definition pessimistic_post (fuel : nat) (key v : Z) (obt : deque) (id : Z) (is_root : bool) (m : manager) (st : state)
    (n' : node) (r : option (node * Z)) (st1 : state) : Prop :=
  node_self_rep n' = id ∧ ∀ st2, finish is_root id n' r st1 = Some st2 →
    ∃ m', insert_with_pessimistic_concurrency_control fuel key v obt id is_root m st =
        Some ((λ s, (n', s.1, s.2)) <$> r, obt, m', st2) ∧ same_locks m' m.

Lemma release_own_other id (obt : deque) m :
  (∀ l, head obt = Some l → l_id l ≠ id) → release_own id obt m = Some (obt, m).
Proof using.
  intros H. destruct obt as [|l obt]; [done|]. simpl. destruct (Z.eqb_spec id (l_id l)); [|done].
  by destruct (H l).
Qed.

Lemma pessimistic_leaf fuel fuel' key v obt id ids is_root m st n n' r st1 :
  0 < fuel → subtree_at 0 st id ids → load id st = Some n →
  (is_root = true → root_ st = id) → (∀ j, j ∈ ids → get_or_create j m = unlocked) →
  insert_ws fuel' n key v st = Some (n', r, st1) →
  pessimistic_post fuel key v obt id is_root m st n' r st1.
Proof using Hpar.
  intros Hf Hsub Hn Hroot Hfree Hins. destruct fuel as [|fuel]; [lia|].
  destruct (subtree_leaf _ _ _ Hsub) as (n0 & Hn0 & Hr & -> & Hwf & Hself). rewrite Hn0 in Hn. injection Hn as <-.
  rewrite insert_ws_leaf in Hins.
  destruct (insert_ws_leaf_shape _ _ _ _ _ _ _ Hwf Hins) as (Hs' & Hmod & Hrm & _).
  split; [congruence|]. intros st2 Hfin.
  destruct (get_lock_held WRITE_LOCK id m) as (m1 & E1 & Hh); [by apply Hfree; constructor|].
  destruct (release_held _ _ _ _ Hh) as (m3 & E3 & Hm3). exists m3. split; [|done].
  cbn [insert_with_pessimistic_concurrency_control]. simpl in E1. rewrite E1. cbn [mbind option_bind].
  rewrite (root_check _ _ _ Hroot). rewrite Hr. cbn [mbind option_bind]. rewrite Hins. cbn [mbind option_bind].
  rewrite Hs', Hself.
  assert (E : match r with
    | Some (rt, _) => flush_split is_root id n' rt st1
    | None => Some (write_node id n' st1) end = Some st2).
  { destruct r as [[rt b]|]; [rewrite (flush_split_finish _ _ _ _ b); [done|done|by eapply Hrm]|].
    rewrite write_close by done. done. }
  rewrite E. cbn [mbind option_bind]. by rewrite E3.
Qed.

(** The state a child leaves. *)
Definition flushed (id : Z) (n' : node) (r : option (node * Z)) (st : state) : state :=
  match r with
  | None => close_at id n' st
  | Some (rn, _) => close_at (node_self_rep rn) rn (close_at id n' st)
  end.
Lemma finish_false id n' r st : finish false id n' r st = Some (flushed id n' r st).
Proof using. by destruct r as [[rn b]|]. Qed.

Lemma handle_ok is_root id i target c child' split st2 obt m n' r st1 :
  InnerNode.self_rep_ i = id → node_self_rep child' = c → (∀ l, head obt = Some l → l_id l ≠ id) →
  match split with
  | None => Some (NInner i, None, close_at c child' st2)
  | Some (rchild, bkey) =>
      let i := InnerNode.mark_modified i in
      if InnerNode.size_ i <? CAPACITY then
        i' ← InnerNode.insert_inner_node (node_self_rep rchild) bkey (target + 1) i;
        let st := close_at (node_self_rep child') child' st2 in
        let st := close_at (node_self_rep rchild) rchild st in
        Some (NInner i', None, st)
      else
        let '(rrep, a') := allocate (alloc st2) in
        '(lt, rt, b) ← InnerNode.split_insert CAPACITY rrep junkK target (node_self_rep rchild) bkey i;
        let st := set_alloc a' st2 in
        let st := close_at (node_self_rep child') child' st in
        let st := close_at (node_self_rep rchild) rchild st in
        Some (NInner lt, Some (NInner rt, b), st)
  end = Some (n', r, st1) →
  node_self_rep n' = id ∧ ∀ m2 st4, held_in id WRITE_LOCK m2 m → finish is_root id n' r st1 = Some st4 →
    ∃ m3, handle_child_split is_root id i target ((λ s, (child', s.1, s.2)) <$> split)
        (mk_descriptor id WRITE_LOCK :: obt) m2 (flushed c child' split st2) =
        Some ((λ s, (n', s.1, s.2)) <$> r, obt, m3, st4) ∧ same_locks m3 m.
Proof using.
  intros Hself Hcs Hobt Hins. unfold handle_child_split, flushed. destruct split as [[rchild bkey]|].
  - rewrite Hcs in Hins. cbn [fmap option_fmap option_map fst snd].
    cbn zeta in Hins. change (InnerNode.size_ (InnerNode.mark_modified i)) with (InnerNode.size_ i) in Hins.
    destruct (InnerNode.size_ i <? CAPACITY).
    + apply bind_Some in Hins as (i' & Hi' & Hins). simplify_eq.
      destruct (insert_inner_shape _ _ _ _ _ Hi') as [Hs' Hm']. split; [done|]. intros m2 st4 Hh Hfin.
      destruct (release_held _ _ _ _ Hh) as (m3 & E3 & Hm3). exists m3. split; [|done].
      change (InnerNode.insert_inner_node (node_self_rep rchild) bkey (target + 1) i = Some i') in Hi'.
      rewrite Hi'. cbn [mbind option_bind head tail]. rewrite E3. cbn [mbind option_bind].
      rewrite release_own_other by done. cbn [mbind option_bind]. rewrite write_close by done. by simplify_eq/=.
    + rewrite !close_alloc. destruct (allocate (alloc st2)) as [rrep a'].
      apply bind_Some in Hins as ([[lt rt] b] & Hsp & Hins). simplify_eq.
      destruct (split_insert_shape _ _ _ _ _ _ _ _ Hsp) as (Hs' & Hm1 & Hm2). split; [done|]. intros m2 st4 Hh Hfin.
      destruct (release_held _ _ _ _ Hh) as (m3 & E3 & Hm3). exists m3. split; [|done].
      change (InnerNode.split_insert CAPACITY rrep junkK target (node_self_rep rchild) bkey i = Some (lt, rt, b)) in Hsp.
      rewrite Hsp. cbn [mbind option_bind].
      rewrite (flush_split_finish _ _ _ _ b) by done. rewrite !close_set_alloc in Hfin. rewrite Hfin.
      cbn [mbind option_bind head tail]. rewrite E3. cbn [mbind option_bind].
      by rewrite release_own_other.
  - simplify_eq. split; [done|]. intros m2 st4 Hh Hfin.
    destruct (release_held _ _ _ _ Hh) as (m3 & E3 & Hm3). exists m3. split; [|done].
    cbn [fmap option_fmap option_map mbind option_bind release_own l_id]. rewrite Z.eqb_refl, E3. cbn [mbind option_bind].
    do 2 f_equal. simpl in Hfin. injection Hfin as <-. destruct (InnerNode.modified_ i) eqn:Em.
    + by apply write_close.
    + symmetry. by apply close_unmodified.
Qed.

Lemma pessimistic_ok h : ∀ fuel fuel' key v obt id ids is_root m st n n' r st1,
  h < fuel → h ≤ fuel' → subtree_at h st id ids → load id st = Some n →
  (is_root = true → root_ st = id) → (∀ j, j ∈ ids → get_or_create j m = unlocked) →
  (∀ l, head obt = Some l → l_id l ∉ ids) →
  insert_ws fuel' n key v st = Some (n', r, st1) →
  pessimistic_post fuel key v obt id is_root m st n' r st1.
Proof using Hpar.
  induction h as [|h IH]; intros fuel fuel' key v obt id ids is_root m st n n' r st1 Hf Hf' Hsub Hn Hroot Hfree Hobt Hins.
  { by eapply pessimistic_leaf. }
  destruct (subtree_inner _ _ _ _ Hsub) as (i & ids' & Hn0 & Hr & -> & Hid & _ & Hself & Hch).
  rewrite Hn0 in Hn. injection Hn as <-.
  destruct (Hch key) as (index & c & ic & Hloc & Hc & Hsc & Hic).
  destruct fuel as [|fuel]; [lia|]. destruct fuel' as [|fuel']; [lia|].
  simpl in Hins. rewrite Hloc in Hins. cbn [mbind option_bind] in Hins.
  apply bind_Some in Hins as (i1 & Hi1 & Hins).
  assert (Hs1 : InnerNode.self_rep_ i1 = id ∧ InnerNode.child_rep_ i1 = InnerNode.child_rep_ i).
  { destruct (index <? 0)%Z; [|by simplify_eq]. apply bind_Some in Hi1 as (ks & _ & Hi1). by simplify_eq/=. }
  destruct Hs1 as [Hs1 Hc1]. rewrite Hc1, Hc in Hins. cbn [mbind option_bind] in Hins.
  apply bind_Some in Hins as (child & Hcl & Hins). apply bind_Some in Hins as ([[child' split] st2] & Hrec & Hins).
  destruct (get_lock_held WRITE_LOCK id m) as (m1 & E1 & Hh); [by apply Hfree; constructor|].
  assert (Hpost : pessimistic_post fuel key v (mk_descriptor id WRITE_LOCK :: obt) c false m1 st child' split st2).
  { eapply (IH fuel fuel' _ _ _ c ic); try done; try lia.
    - intros j Hj. destruct Hh as (_ & _ & Hoth). rewrite Hoth; [|intros ->; by apply Hid, Hic].
      apply Hfree. constructor. by apply Hic.
    - intros l [= <-] Hin. simpl in Hin. by apply Hid, Hic. }
  destruct Hpost as (Hcs & Hpost).
  destruct (handle_ok is_root id i1 (Z.to_nat (Z.max 0 index)) c child' split st2 obt m n' r st1)
    as [Hself' Hfin]; try done.
  { intros l Hl E. eapply Hobt; [done|]. rewrite E. constructor. }
  split; [done|]. intros st4 Hst4.
  destruct (Hpost _ (finish_false c child' split st2)) as (m2 & E2 & Hm2).
  destruct (Hfin m2 st4) as (m3 & E3 & Hm3); [by rewrite Hm2|done|]. exists m3. split; [|done].
  cbn [insert_with_pessimistic_concurrency_control]. simpl in E1. rewrite E1.
  cbn [mbind option_bind]. rewrite (root_check _ _ _ Hroot), Hr. cbn [mbind option_bind]. rewrite Hloc.
  cbn [mbind option_bind]. rewrite Hi1. cbn [mbind option_bind]. rewrite Hc1, Hc. cbn [mbind option_bind].
  rewrite E2. exact E3.
Qed.

(** ** The tree *)
Lemma insert_ws_root fuel : ∀ n key v st n' r st1,
  insert_ws fuel n key v st = Some (n', r, st1) → root_ st1 = root_ st.
Proof using.
  induction fuel as [|fuel IH]; intros [l|i] key v st n' r st1 E; try done.
  1,2: simpl in E; destruct (allocate (alloc st)); apply bind_Some in E as ([l' [[rt b]|]] & _ & E); by simplify_eq/=.
  simpl in E. apply bind_Some in E as (index & _ & E). apply bind_Some in E as (i1 & _ & E).
  apply bind_Some in E as (c & _ & E). apply bind_Some in E as (child & _ & E).
  apply bind_Some in E as ([[child' split] st2] & Hrec & E). apply IH in Hrec. rewrite <- Hrec.
  destruct split as [[rchild bkey]|]; [|simplify_eq; by rewrite close_root].
  destruct (_ <? CAPACITY).
  - apply bind_Some in E as (i' & _ & E). simplify_eq. by rewrite !close_root.
  - destruct (allocate (alloc st2)). apply bind_Some in E as ([[lt rt] b] & _ & E). simplify_eq. by rewrite !close_root.
Qed.

(** The end of the insertion of the sequential tree. *)
Lemma insert_finish key v st st' :
  insert CAPACITY junkE junkK key v st = Some st' →
  ∃ n n' r st1, load (root_ st) st = Some n ∧ insert_ws (depth_ st) n key v st = Some (n', r, st1) ∧
    (node_self_rep n' = root_ st → finish true (root_ st) n' r st1 = Some st').
Proof using.
  unfold insert. intros E. apply bind_Some in E as (n & Hn & E). apply bind_Some in E as ([[n' r] st1] & Hins & E).
  exists n, n', r, st1. split_and!; [done|done|]. intros Hself. unfold finish, grow_root. destruct r as [[rn b]|].
  - apply bind_Some in E as (lkey & -> & E). apply bind_Some in E as (rkey & -> & E). cbn [mbind option_bind].
    rewrite !close_alloc. destruct (allocate (alloc st1)) as [rep0 a']. apply bind_Some in E as (root & -> & E).
    cbn [mbind option_bind]. injection E as <-. f_equal. rewrite Hself, write_close by done.
    unfold close_at, ref_close. simpl. by destruct (node_modified n'), (node_modified rn).
  - apply insert_ws_root in Hins. by rewrite Hins in E.
Qed.

Lemma tree_subtree st l ids :
  tree_ok CAPACITY st l ids → subtree_at (depth_ st - 1) st (root_ st) ids ∧ 1 ≤ depth_ st.
Proof using. intros (Hd & (f & Hrep) & Hnd & _). split; [|done]. split; [done|]. eauto 10. Qed.

Lemma concurrent_search_tree key m st l ids r :
  tree_ok CAPACITY st l ids → (∀ j, j ∈ ids → get_or_create j m = unlocked) →
  search CAPACITY junkE junkK key st = Some r →
  ∃ m', concurrent_search key m st = Some (r, m') ∧ same_locks m' m.
Proof using Hpar.
  intros Hok Hfree Hs. destruct (tree_subtree _ _ _ Hok) as [Hsub Hd].
  unfold search in Hs. apply bind_Some in Hs as (n & Hn & Hs).
  destruct (search_cc_ok (depth_ st - 1) (depth_ st) (depth_ st) key [] (root_ st) ids true m m st n r)
    as (m' & E & Hm); try done; try lia; [by left|].
  exists m'. split; [|done]. unfold concurrent_search, get_root_id. by rewrite E.
Qed.

Lemma concurrent_insert_tree key v m st st' l ids :
  tree_ok CAPACITY st l ids → (∀ j, j ∈ ids → get_or_create j m = unlocked) →
  insert CAPACITY junkE junkK key v st = Some st' →
  ∃ m', concurrent_insert key v m st = Some (m', st') ∧ same_locks m' m.
Proof using Hpar.
  intros Hok Hfree Hins. destruct (tree_subtree _ _ _ Hok) as [Hsub Hd].
  destruct (insert_finish _ _ _ _ Hins) as (n & n' & r & st1 & Hn & Hws & Hfin).
  unfold concurrent_insert, get_root_id.
  destruct (optimistic_ok (depth_ st - 1) (depth_ st) (depth_ st) key v [] (root_ st) ids true m m st n n' r st1)
    as (b & m1 & st2 & E & Hm1 & Hb); try done; try lia; [by left|].
  replace (S (depth_ st - 1)) with (depth_ st) in E by lia. rewrite E. cbn [mbind option_bind].
  destruct (pessimistic_ok (depth_ st - 1) (depth_ st) (depth_ st) key v [] (root_ st) ids true m1 st n n' r st1)
    as (Hself & Hp); try done; try lia; [intros j Hj; rewrite (Hm1 j); by apply Hfree|].
  specialize (Hfin Hself). destruct b.
  - destruct Hb as [-> ->]. simpl in Hfin. simplify_eq. by exists m1.
  - subst st2. destruct (Hp _ Hfin) as (m' & -> & Hm'). exists m'. split; [done|]. by rewrite Hm'.
Qed.

(** ** The properties *)
(** [search] of the concurrent tree returns what the map holds, and leaves
    no lock behind: the locks of other blocks are as before. *)
Theorem concurrent_search_refines key m st l ids :
  tree_ok CAPACITY st l ids → (∀ j, j ∈ ids → get_or_create j m = unlocked) →
  ∃ m', concurrent_search key m st = Some (kv_map l !! key, m') ∧ same_locks m' m.
Proof using Hpar.
  intros Hok Hfree. eapply concurrent_search_tree; [done|done|]. by eapply search_ok.
Qed.

(** C21: an insertion of the concurrent tree, optimistic or pessimistic, ends in
    exactly the state that the insertion of the sequential tree computes
    (blocks, allocator, root and depth), which holds the new entry, and gives
    back every lock it took. *)
Theorem concurrent_insert_refines `{!AllocatorLaws A} key v m st l ids q :
  tree_ok CAPACITY st l ids → room (alloc st) (depth_ st + 1 + q) →
  (∀ j, j ∈ ids → get_or_create j m = unlocked) →
  ∃ m' st' ids', concurrent_insert key v m st = Some (m', st') ∧
    insert CAPACITY junkE junkK key v st = Some st' ∧
    tree_ok CAPACITY st' (kv_insert key v l) ids' ∧ same_locks m' m.
Proof using Hpar.
  intros Hok Hroom Hfree.
  destruct (insert_ok CAPACITY junkE junkK Hpar key v st l ids q Hok Hroom) as (st' & ids' & Hins & Hok' & _).
  destruct (concurrent_insert_tree key v m st st' l ids Hok Hfree Hins) as (m' & E & Hm).
  by exists m', st', ids'.
Qed.

End concurrent.

(** The tree of nine keys, with a lock of another block held. *)
Definition other_lock : manager := {[ 1000%Z := mk_mutex 1 false false ]}.

Lemma tree9_tree_ok : ∃ l ids, tree_ok 4 tree9 l ids ∧ kv_map l = map9 ∧
  ∀ j, j ∈ ids → get_or_create j other_lock = unlocked.
Proof.
  destruct tree9_represents as (l & ids & Hok & Hl). exists l, ids. split_and!; [done|done|].
  intros j Hj. unfold get_or_create, other_lock. destruct (decide (j = 1000%Z)) as [->|].
  - destruct Hok as (_ & _ & _ & Hin & _). apply Hin in Hj. exfalso. revert Hj.
    change (1000%Z ∉ in_use (alloc tree9)). apply (bool_decide_eq_true_1 _). vm_compute. reflexivity.
  - by rewrite lookup_singleton_ne.
Qed.

Lemma concurrent_search_refines_witness :
  ∃ m', concurrent_search 4 junkE4 junkK4 40 other_lock tree9 = Some (map9 !! 40%Z, m') ∧ same_locks m' other_lock.
Proof.
  destruct tree9_tree_ok as (l & ids & Hok & <- & Hfree).
  exact (concurrent_search_refines 4 junkE4 junkK4 params4 40 other_lock tree9 l ids Hok Hfree).
Defined.

Lemma concurrent_insert_refines_witness :
  ∃ l m' st' ids', concurrent_insert 4 junkE4 junkK4 45 46 other_lock tree9 = Some (m', st') ∧
    insert 4 junkE4 junkK4 45 46 tree9 = Some st' ∧ tree_ok 4 st' (kv_insert 45 46 l) ids' ∧
    same_locks m' other_lock.
Proof.
  destruct tree9_tree_ok as (l & ids & Hok & _ & Hfree). exists l.
  apply (concurrent_insert_refines 4 junkE4 junkK4 params4 45 46 other_lock tree9 l ids 10); [done| |done].
  by apply room_concrete.
Defined.

(** [concurrent_insert] reads the height apart from the root id and without
    the root lock, so it can see the new root of a split with the old height.
    The descent then reaches the leaf at depth 0 and takes a read lock for the
    update: the insertion into the tree of nine keys changes a leaf that another
    thread holds a read lock of, where the right height makes it wait. *)
Theorem stale_height_writes_under_read_lock :
  ∃ leaf m, get_or_create leaf m = mk_mutex 1 false false ∧ depth_ tree9 = 2 ∧
    insert_with_optimistic_concurrency_control 4 junkE4 junkK4 2 95 96 [] (root_ tree9) 2 true m tree9 = None ∧
    ∃ m' st', insert_with_optimistic_concurrency_control 4 junkE4 junkK4 2 95 96 [] (root_ tree9) 1 true m tree9
        = Some (true, [], m', st') ∧
      blocks st' !! leaf ≠ blocks tree9 !! leaf ∧ get_or_create leaf m' = mk_mutex 1 false false.
Proof.
  exists 3%Z, {[ 3%Z := mk_mutex 1 false false ]}. split_and!; [reflexivity|vm_compute; reflexivity..|].
  eexists _, _. split; [vm_compute; reflexivity|]. split; [vm_compute; discriminate|vm_compute; reflexivity].
Qed.
