(* ===== verification/TreeRoute.v ===== *)
(** Where a node is in the tree: the nodes that occur below a block, with the
    interval of keys each of them is responsible for, and what an insertion does to
    them. A descent that has reached a node can go on as long as the node keeps its
    place. *)
From Stdlib Require Import ZArith Lia.
From stdpp Require Import base list gmap sorting numbers.
From S2P Require Import Prelude KV Leaf Inner Store Tree TreeRep TreeFoot TreeInsert TreeSearch.

Section occurrence.
Context (CAPACITY : nat).
Local Abbreviation rep := (rep CAPACITY).
Implicit Types (m : gmap Z blk) (l kcs : kv) (h j : nat).

(** Node [x] of level [j] occurs below [id] of level [h], responsible for the keys
    between [a] and [b]. *)
Fixpoint occ h m (id : Z) (lo hi : option Z) j (x : Z) (a b : option Z) : Prop :=
  (h = j ∧ id = x ∧ lo = a ∧ hi = b) ∨
  match h with
  | 0 => False
  | S h' => ∃ pre k c post, m !! id = Some (BInner (pre ++ (k, c) :: post).*1 (pre ++ (k, c) :: post).*2 id) ∧
      occ h' m c (Some k) (next_hi post hi) j x a b
  end.

Lemma occ_top h m id lo hi : occ h m id lo hi h id lo hi.
Proof. destruct h; by left. Qed.

Lemma occ_inv h m id lo hi j x a b :
  occ h m id lo hi j x a b →
  (h = j ∧ id = x ∧ lo = a ∧ hi = b) ∨
  ∃ h' pre k c post, h = S h' ∧ m !! id = Some (BInner (pre ++ (k, c) :: post).*1 (pre ++ (k, c) :: post).*2 id) ∧
    occ h' m c (Some k) (next_hi post hi) j x a b.
Proof. destruct h as [|h]; simpl; [intros [?|[]]; by left|]. intros [?|(pre & k & c & post & H)]; [by left|right]. by exists h, pre, k, c, post. Qed.

Lemma occ_child h m id lo hi j x a b pre k c post :
  occ h m id lo hi (S j) x a b → m !! x = Some (BInner (pre ++ (k, c) :: post).*1 (pre ++ (k, c) :: post).*2 x) →
  occ h m id lo hi j c (Some k) (next_hi post b).
Proof.
  revert id lo hi. induction h as [|h IH]; intros id lo hi Ho Hx.
  { apply occ_inv in Ho as [(? & _)|(h' & ? & ? & ? & ? & ? & _)]; done. }
  apply occ_inv in Ho as [(E & -> & -> & ->)|(h' & pre' & k' & c' & post' & E & Hid & Ho)]; injection E as <-; right.
  - exists pre, k, c, post. split; [done|]. apply occ_top.
  - exists pre', k', c', post'. split; [done|]. by apply IH.
Qed.

Lemma zip_inj kcs kcs' : kcs.*1 = kcs'.*1 → kcs.*2 = kcs'.*2 → kcs = kcs'.
Proof.
  revert kcs'. induction kcs as [|[k c] kcs IH]; intros [|[k' c'] kcs']; simpl; try done. intros [= -> E1] [= -> E2]. f_equal. by apply IH.
Qed.

(** The block of an inner node determines its children. *)
Lemma rep_inner h m id lo hi f nx l ids kcs :
  rep (S h) m id lo hi f nx l ids → m !! id = Some (BInner kcs.*1 kcs.*2 id) →
  ∃ ids', ids = id :: ids' ∧ kcs ≠ [] ∧ length kcs ≤ CAPACITY ∧ ksorted (keys kcs) ∧ (∀ k, k ∈ keys kcs → within lo hi k) ∧
    reps (rep h m) kcs hi f nx l ids'.
Proof.
  rewrite rep_S. intros (kcs' & ids' & Hb & -> & H0 & Hne & Hl & Hs & Hw & HR) Hid. rewrite Hid in Hb. injection Hb as E1 E2.
  apply zip_inj in E1 as ->; [|done]. by exists ids'.
Qed.

(** A child's interval lies inside its parent's. *)
Lemma child_within lo hi pre k c post k0 :
  (∀ x, x ∈ keys (pre ++ (k, c) :: post) → within lo hi x) →
  within (Some k) (next_hi post hi) k0 → within lo hi k0.
Proof.
  intros Hw [Ha Hb]. simpl in Ha. destruct (Hw k) as [Hk _]; [rewrite fmap_app; simpl; set_solver|]. split.
  - destruct lo; simpl in *; [lia|done].
  - destruct post as [|[k1 c1] post]; simpl in Hb; [done|]. destruct (Hw k1) as [_ Hk1]; [rewrite fmap_app; simpl; set_solver|].
    destruct hi; simpl in *; [lia|done].
Qed.

Lemma kv_map_middle (la lc lb : kv) k :
  k ∉ keys la → k ∉ keys lb → kv_map (la ++ lc ++ lb) !! k = kv_map lc !! k.
Proof.
  intros Ha Hb. unfold kv_map. rewrite !list_to_map_app.
  rewrite lookup_union_r by (by apply not_elem_of_list_to_map_1). rewrite lookup_union_l; [done|]. by apply not_elem_of_list_to_map_1.
Qed.

(** A node that occurs represents the entries of its interval. *)
Lemma occ_rep h : ∀ m id lo hi f nx l ids j x a b,
  rep h m id lo hi f nx l ids → occ h m id lo hi j x a b →
  ∃ f' nx' lx ix, rep j m x a b f' nx' lx ix ∧ j ≤ h ∧ ((∀ y, y ∈ ix → y ∈ ids) ∧ (NoDup ids → NoDup ix)) ∧
    ∀ k, within a b k → within lo hi k ∧ kv_map l !! k = kv_map lx !! k.
Proof.
  induction h as [|h IH]; intros m id lo hi f nx l ids j x a b Hrep Ho; apply occ_inv in Ho as
    [(<- & <- & <- & <-)|(h' & pre & k & c & post & E & Hid & Ho)]; [by exists f, nx, l, ids|done|by exists f, nx, l, ids|].
  injection E as <-. destruct (rep_inner _ _ _ _ _ _ _ _ _ _ Hrep Hid) as (ids' & -> & _ & _ & Hs & Hw & HR).
  apply reps_middle in HR as (m1 & m2 & la & lc & lb & ia & ic & ib & Hpre & Hc & Hpost & -> & ->).
  destruct (IH _ _ _ _ _ _ _ _ _ _ _ _ Hc Ho) as (f' & nx' & lx & ix & Hx & Hj & Hix & Hlx). exists f', nx', lx, ix.
  destruct Hix as [Hix Hdix].
  split_and!; [done|lia|set_solver| |].
  { intros [_ Hnd]%list.NoDup_cons. rewrite !list.NoDup_app in Hnd. tauto. }
  intros k0 Hk0. destruct (Hlx k0 Hk0) as [Hin Hl]. split; [by eapply child_within|]. rewrite <- Hl.
  destruct (region_keys CAPACITY h m pre [(k, c)] post hi f nx m1 m2 la lb ia ib k) as [Hka Hkb]; try done; [intros y Hy; by apply Hw|].
  destruct Hin as [Hlo Hhi]. simpl in Hlo. apply kv_map_middle; intros Hk.
  - apply Hka in Hk. lia.
  - apply (Hkb _ k0) in Hk; [lia|done].
Qed.

Lemma occ_in h m id lo hi f nx l ids j x a b :
  rep h m id lo hi f nx l ids → occ h m id lo hi j x a b → x ∈ ids.
Proof.
  intros Hrep Ho. destruct (occ_rep _ _ _ _ _ _ _ _ _ _ _ _ _ Hrep Ho) as (f' & nx' & lx & ix & Hx & _ & [Hix _] & _).
  apply Hix. by apply (rep_good CAPACITY j m x a b f' nx' lx ix).
Qed.

(** The level of a node is determined by its blocks. *)
Lemma rep_level j : ∀ j' m x a b f nx l ids a' b' f' nx' l' ids',
  rep j m x a b f nx l ids → rep j' m x a' b' f' nx' l' ids' → j = j'.
Proof.
  induction j as [|j IH]; intros [|j'] m x a b f nx l ids a' b' f' nx' l' ids'; try done.
  - rewrite rep_0, rep_S. intros (H & _) (kcs & i & H' & _). congruence.
  - rewrite rep_0, rep_S. intros (kcs & i & H' & _) (H & _). congruence.
  - rewrite rep_S. intros (kcs & i & Hb & _ & _ & Hne & _ & _ & _ & HR) Hrep'.
    destruct (rep_inner _ _ _ _ _ _ _ _ _ _ Hrep' Hb) as (i' & _ & _ & _ & _ & _ & HR').
    destruct kcs as [|[k c] kcs]; [done|]. destruct HR as (? & ? & ? & ? & ? & H1 & _), HR' as (? & ? & ? & ? & ? & H2 & _). f_equal. by eapply IH.
Qed.

(** A change outside the blocks of a subtree leaves its nodes in place. *)
Lemma occ_frame h : ∀ m m' id lo hi f nx l ids j x a b,
  rep h m id lo hi f nx l ids → (∀ y, y ∈ ids → m' !! y = m !! y) → occ h m id lo hi j x a b → occ h m' id lo hi j x a b.
Proof.
  induction h as [|h IH]; intros m m' id lo hi f nx l ids j x a b Hrep Hm Ho; apply occ_inv in Ho as
    [(<- & <- & <- & <-)|(h' & pre & k & c & post & E & Hid & Ho)]; [apply occ_top|done|apply occ_top|].
  injection E as <-. destruct (rep_inner _ _ _ _ _ _ _ _ _ _ Hrep Hid) as (ids' & -> & _ & _ & _ & _ & HR).
  apply reps_middle in HR as (m1 & m2 & la & lc & lb & ia & ic & ib & _ & Hc & _ & _ & ->).
  right. exists pre, k, c, post. split; [rewrite Hm; [done|constructor]|]. eapply IH; [exact Hc| |done]. intros y Hy. apply Hm. set_solver.
Qed.

(** ** A new entry in a leaf *)
Lemma occ_leaf_write h m x es nx0 es' nx0' x' : ∀ id lo hi j y a b,
  m !! x = Some (BLeaf es nx0 x) → occ h m id lo hi j y a b → occ h (<[x := BLeaf es' nx0' x']> m) id lo hi j y a b.
Proof.
  intros id lo hi j y a b Hx. revert id lo hi. induction h as [|h IH]; intros id lo hi Ho; apply occ_inv in Ho as
    [(<- & <- & <- & <-)|(h' & pre & k & c & post & E & Hid & Ho)]; [apply occ_top|done|apply occ_top|].
  injection E as <-. right. exists pre, k, c, post. split; [|by apply IH]. rewrite lookup_insert_ne; [done|]. intros ->. congruence.
Qed.

Lemma leaf_insert_rep h : ∀ m id lo hi f nx l ids x a b es nx0 k v,
  rep h m id lo hi f nx l ids → NoDup ids → occ h m id lo hi 0 x a b → within a b k →
  m !! x = Some (BLeaf es nx0 x) → length (kv_insert k v es) ≤ CAPACITY →
  rep h (<[x := BLeaf (kv_insert k v es) nx0 x]> m) id lo hi f nx (kv_insert k v l) ids.
Proof.
  induction h as [|h IH]; intros m id lo hi f nx l ids x a b es nx0 k v Hrep Hnd Ho Hk Hx Hlen; apply occ_inv in Ho as
    [(E & <- & <- & <-)|(h' & pre & k0 & c & post & E & Hid & Ho)]; try done.
  - rewrite rep_0 in *. destruct Hrep as (Hb & -> & -> & H0 & Hl & Hs & Hw). rewrite Hx in Hb. injection Hb as <- <-.
    rewrite lookup_insert_eq. split_and!; try done; [by apply kv_insert_sorted|]. by apply within_insert.
  - injection E as <-. destruct (rep_inner _ _ _ _ _ _ _ _ _ _ Hrep Hid) as (ids' & -> & Hne & Hlk & Hs & Hw & HR).
    pose proof Hrep as (_ & _ & _ & _ & H0 & _)%rep_S.
    pose proof HR as HR'. apply reps_middle in HR' as (m1 & m2 & la & lc & lb & ia & ic & ib & Hpre & Hc & Hpost & -> & ->).
    destruct (occ_rep _ _ _ _ _ _ _ _ _ _ _ _ _ Hc Ho) as (f' & nx' & lx & ix & Hrx & _ & [Hix _] & Hlx).
    assert (Hxc : x ∈ ic) by (apply (occ_in _ _ _ _ _ _ _ _ _ _ _ _ _ Hc Ho)).
    apply list.NoDup_cons in Hnd as [Hnid Hnd]. pose proof Hnd as Hnd'. rewrite !list.NoDup_app in Hnd'. destruct Hnd' as (_ & Hd1 & Hndc & Hd2 & _).
    destruct (region_keys CAPACITY h m pre [(k0, c)] post hi f nx m1 m2 la lb ia ib k0) as [Hka Hkb]; try done; [intros y Hy; by apply Hw|].
    destruct (Hlx k Hk) as [[Hk1 Hk2] _]. simpl in Hk1.
    rewrite kv_insert_region; [|intros y Hy; apply Hka in Hy; lia|intros y Hy; by apply (Hkb y)].
    apply rep_S. exists (pre ++ (k0, c) :: post), (ia ++ ic ++ ib). split_and!; try done.
    + rewrite lookup_insert_ne; [done|]. intros ->. apply Hnid. set_solver.
    + apply reps_middle. exists m1, m2, la, (kv_insert k v lc), lb, ia, ic, ib. split_and!; try done.
      * eapply reps_frame; [|exact Hpre]. intros y Hy. rewrite lookup_insert_ne; [done|]. intros ->. apply (Hd1 y Hy). set_solver.
      * eapply IH; done.
      * eapply reps_frame; [|exact Hpost]. intros y Hy. rewrite lookup_insert_ne; [done|]. intros ->. by apply (Hd2 y).
Qed.

End occurrence.
