(* ===== verification/TreePlace.v ===== *)
(** The places of the nodes under an insertion: a node that is not on the path to
    the new key keeps its place and its interval, whatever splits above it. *)
From Stdlib Require Import ZArith Lia.
From stdpp Require Import base list gmap sorting numbers.
From S2P Require Import Prelude KV Leaf Inner Store Tree TreeRep TreeFoot TreeInsert TreeSearch TreeRoute.

(** Two ways to take an element out of a list. *)
Lemma middle_eq {X} (pre post pre1 post1 : list X) e e1 :
  pre ++ e :: post = pre1 ++ e1 :: post1 →
  (pre = pre1 ∧ e = e1 ∧ post = post1) ∨
  (∃ mid, pre = pre1 ++ e1 :: mid ∧ post1 = mid ++ e :: post) ∨
  (∃ mid, pre1 = pre ++ e :: mid ∧ post = mid ++ e1 :: post1).
Proof.
  intros E. apply app_eq_app in E as [mid [[-> E]|[-> E]]]; destruct mid as [|x mid]; simpl in E; simplify_eq.
  - left. by rewrite app_nil_r.
  - right. left. by exists mid.
  - left. by rewrite app_nil_r.
  - right. right. by exists mid.
Qed.

Section place.
Context {A : Type} `{!Allocator A} `{!AllocatorLaws A}.
Context (CAPACITY : nat) (junkE : list (Z * Z)) (junkK : list Z).
Context (Hpar : params_ok CAPACITY junkE junkK).

Local Abbreviation state := (tree_state A).
Local Abbreviation load := (load CAPACITY junkE junkK).
Local Abbreviation rep := (rep CAPACITY).
Local Abbreviation insert_ws := (insert_with_split_support CAPACITY junkE junkK).
Implicit Types (st : state) (m : gmap Z blk).

(** The path an insertion of [k] takes from [id] of level [h]. *)
Fixpoint route (h : nat) st (id k : Z) : list Z :=
  id :: match h with
        | 0 => []
        | S h' =>
            match load id st with
            | Some (NInner i) =>
                match InnerNode.locate_child_index k i with
                | Some index =>
                    match InnerNode.child_rep_ i !! Z.to_nat (Z.max 0 index) with
                    | Some c => route h' st c k
                    | None => []
                    end
                | None => []
                end
            | _ => []
            end
        end.

(** The lower end of an interval is not used below the node. *)
Lemma occ_lo h m id lo lo' hi j x a b : x ≠ id → occ h m id lo hi j x a b → occ h m id lo' hi j x a b.
Proof.
  intros Hne Ho. apply occ_inv in Ho as [(_ & E & _)|(h' & pre & k & c & post & -> & Hid & Ho)]; [done|]. right. by exists pre, k, c, post.
Qed.

(** The children of one node shared out over two. *)
Lemma occ_shared h m lt rt lc rc (kcs kcs1 kcs2 pre post : kv) k c lo1 lo2 hi b y t j x a b0 :
  m !! lt = Some (BInner kcs1.*1 kcs1.*2 lt) → m !! rt = Some (BInner kcs2.*1 kcs2.*2 rt) → lc = lt → rc = rt →
  kcs1 ++ kcs2 = kcs → kcs2 = (b, y) :: t → kcs = pre ++ (k, c) :: post → occ h m c (Some k) (next_hi post hi) j x a b0 →
  occ (S h) m lc lo1 (Some b) j x a b0 ∨ occ (S h) m rc lo2 hi j x a b0.
Proof.
  intros H1 H2 -> -> <- E2 E Ho. apply app_eq_app in E as [mid [[-> E]|[-> E]]].
  - destruct mid as [|[k1 c1] mid]; simpl in E.
    + rewrite app_nil_r in *. right. right. exists [], k, c, post. by rewrite <- E in H2.
    + injection E as <- <- ->. left. right. exists pre, k, c, mid. split; [done|]. by rewrite next_hi_app, E2 in Ho.
  - right. right. exists mid, k, c, post. by rewrite E in H2.
Qed.

(** Some children [(k0, c)] of a node become [reg]: the other nodes below it are
    where they were. *)
Lemma region_occ h m m' (pre post reg : kv) k0 c hi f nx (m1 m2 : Z) la lb ia ib j x a b pre1 k1 c1 post1 :
  reps (rep h m) pre (Some k0) f m1 la ia → reps (rep h m) post hi m2 nx lb ib →
  (∀ y, y ∈ ia ++ ib → m' !! y = m !! y) →
  (pre = [] ∨ next_hi reg None = Some k0) → reg ≠ [] →
  (occ h m c (Some k0) (next_hi post hi) j x a b →
     ∃ pre2 k2 c2 post2, reg = pre2 ++ (k2, c2) :: post2 ∧ occ h m' c2 (Some k2) (next_hi (post2 ++ post) hi) j x a b) →
  pre ++ (k0, c) :: post = pre1 ++ (k1, c1) :: post1 → occ h m c1 (Some k1) (next_hi post1 hi) j x a b →
  ∃ pre2 k2 c2 post2, pre ++ reg ++ post = pre2 ++ (k2, c2) :: post2 ∧ occ h m' c2 (Some k2) (next_hi post2 hi) j x a b.
Proof.
  intros Ha Hb Hm Hp Hne Hc E Ho.
  apply middle_eq in E as [(<- & E & <-)|[(mid & -> & ->)|(mid & -> & ->)]].
  - injection E as <- <-. destruct (Hc Ho) as (pre2 & k2 & c2 & post2 & -> & Ho'). exists (pre ++ pre2), k2, c2, (post2 ++ post).
    split; [by rewrite <- !app_assoc, <- app_comm_cons|done].
  - exists pre1, k1, c1, (mid ++ reg ++ post). split; [by rewrite <- app_assoc|].
    apply reps_middle in Ha as (n1 & n2 & l1 & l2 & l3 & i1 & i2 & i3 & _ & H2 & _ & _ & ->).
    assert (En : next_hi (mid ++ reg ++ post) hi = next_hi (mid ++ (k0, c) :: post) hi).
    { rewrite !next_hi_app. f_equal. destruct Hp as [E|E]; [by destruct pre1|]. destruct reg as [|[k3 c3] reg]; [done|]. simpl in *. congruence. }
    rewrite En. rewrite next_hi_app in *. eapply occ_frame; [exact H2|intros y Hy; apply Hm; set_solver|exact Ho].
  - exists (pre ++ reg ++ mid), k1, c1, post1. split; [by rewrite <- !app_assoc|].
    apply reps_middle in Hb as (n1 & n2 & l1 & l2 & l3 & i1 & i2 & i3 & _ & H2 & _ & _ & ->).
    eapply occ_frame; [exact H2|intros y Hy; apply Hm; set_solver|exact Ho].
Qed.

Lemma occ_reframe h m m' (kcs : kv) hi f nx l ids pre k c post j x a b :
  reps (rep h m) kcs hi f nx l ids → (∀ y, y ∈ ids → m' !! y = m !! y) → kcs = pre ++ (k, c) :: post →
  occ h m c (Some k) (next_hi post hi) j x a b → occ h m' c (Some k) (next_hi post hi) j x a b.
Proof.
  intros HR Hm -> Ho. apply reps_middle in HR as (m1 & m2 & la & lc & lb & ia & ic & ib & _ & Hc & _ & _ & ->).
  eapply occ_frame; [exact Hc|intros y Hy; apply Hm; set_solver|done].
Qed.

(** Where a node is when the insertion below [id] has been flushed. *)
Definition placed_after h id hi (n' : node) (r : option (node * Z)) st' lo lo2 j x a b : Prop :=
  match r with
  | None => occ h (blocks (close_at id n' st')) id lo hi j x a b
  | Some (rn, b0) => let m := blocks (close_at (node_self_rep rn) rn (close_at id n' st')) in
      occ h m id lo (Some b0) j x a b ∨ occ h m (node_self_rep rn) lo2 hi j x a b
  end.

(** The node has received a new child, or was split. *)
Lemma child_split_occ h st3 i pre kt c post rn child' b hi f nx l ids k2 c2 pre2 post2 st' n' r st2 lo lo2 j x a b0 q :
  InnerNode.wf CAPACITY i → InnerNode.live i = pre ++ (kt, c) :: post → (kt < b)%Z → below (next_hi post hi) b →
  st3 = close_at (node_self_rep rn) rn (close_at (node_self_rep child') child' st') →
  reps (rep h (blocks st3)) (pre ++ [(kt, c); (b, node_self_rep rn)] ++ post) hi f nx l ids →
  InnerNode.self_rep_ i ∉ ids → (∀ y, y ∈ ids → y ∈ in_use (alloc st')) → InnerNode.self_rep_ i ∈ in_use (alloc st') →
  alloc_wf (alloc st') → room (alloc st') (S q) →
  pre ++ [(kt, c); (b, node_self_rep rn)] ++ post = pre2 ++ (k2, c2) :: post2 →
  occ h (blocks st3) c2 (Some k2) (next_hi post2 hi) j x a b0 →
  (let i := InnerNode.mark_modified i in
     if InnerNode.size_ i <? CAPACITY then
       i' ← InnerNode.insert_inner_node (node_self_rep rn) b (length pre + 1) i;
       let st := close_at (node_self_rep child') child' st' in
       let st := close_at (node_self_rep rn) rn st in
       Some (NInner i', None, st)
     else
       let '(rrep, a') := allocate (alloc st') in
       '(lt, rt, b) ← InnerNode.split_insert CAPACITY rrep junkK (length pre)
                        (node_self_rep rn) b i;
       let st := set_alloc a' st' in
       let st := close_at (node_self_rep child') child' st in
       let st := close_at (node_self_rep rn) rn st in
       Some (NInner lt, Some (NInner rt, b), st)) = Some (n', r, st2) →
  placed_after (S h) (InnerNode.self_rep_ i) hi n' r st2 lo lo2 j x a b0.
Proof using Hpar AllocatorLaws0.
  intros Hwf Hlive Hkb Hb E3 HR Hni Hin Hid Hawf Hroom Edec Ho.
  pose proof Hwf as (_ & _ & Hsz & Hs). rewrite Hlive in Hs.
  destruct (kv_insert_middle b (node_self_rep rn) pre kt c post hi Hs) as (Hins & Hlb & Hnb); [lia|done|].
  cbn zeta. change (InnerNode.size_ (InnerNode.mark_modified i)) with (InnerNode.size_ i).
  destruct (Nat.ltb_spec (InnerNode.size_ i) CAPACITY) as [Hr|Hfull].
  - destruct (InnerNode.insert_inner_node_live CAPACITY (node_self_rep rn) b (InnerNode.mark_modified i))
      as (i' & Hi' & Hwf' & Hlive' & Hself' & Hmod' & _); [done|done|by rewrite (Hlive : InnerNode.live (InnerNode.mark_modified i) = _)|].
    rewrite (Hlive : InnerNode.live (InnerNode.mark_modified i) = _) in Hi', Hlive'.
    rewrite Hlb in Hi'. rewrite Nat.add_1_r, Hi'. cbn [mbind option_bind]. intros [= <- <- <-]. rewrite <- E3. unfold placed_after.
    rewrite close_blocks. cbn [node_modified]. rewrite Hmod', (serialize_inner CAPACITY), Hlive', Hins, Hself' by done. simpl.
    right. exists pre2, k2, c2, post2. change (pre ++ (kt, c) :: (b, node_self_rep rn) :: post = pre2 ++ (k2, c2) :: post2) in Edec.
    rewrite Edec, lookup_insert_eq. split; [done|].
    eapply occ_reframe; [exact HR| |exact Edec|done]. intros y Hy. rewrite lookup_insert_ne; [done|]. by intros <-.
  - destruct (allocate (alloc st')) as [rrep a'] eqn:Ea.
    destruct (allocate_fresh _ _ _ _ Hawf Hroom Ea) as (Hf & _).
    destruct (InnerNode.split_insert_live CAPACITY rrep junkK (length pre) (node_self_rep rn) b
                (InnerNode.mark_modified i)) as (lt & rt & b' & Hsp & Hpost');
      [destruct Hpar; lia|done|simpl; lia|apply Hpar|
       by rewrite (Hlive : InnerNode.live (InnerNode.mark_modified i) = _)|
       by rewrite (Hlive : InnerNode.live (InnerNode.mark_modified i) = _)|].
    rewrite Hsp. cbn [mbind option_bind]. intros [= <- <- <-].
    destruct Hpost' as (Hwl & Hwr & Happ' & Hsl & Hsr & Hml & Hmr & Hne & y & t & Hrt).
    rewrite (Hlive : InnerNode.live (InnerNode.mark_modified i) = _), Hins in Happ'. simpl in Hsl.
    rewrite !close_set_alloc, <- E3. unfold placed_after. cbn [node_self_rep].
    rewrite !close_blocks. cbn [node_modified]. rewrite Hml, Hmr, !(serialize_inner CAPACITY) by done. rewrite Hsl, Hsr. cbn [blocks set_alloc].
    assert (Hne1 : rrep ≠ InnerNode.self_rep_ i) by (intros ->; done).
    eapply (occ_shared _ _ (InnerNode.self_rep_ i) rrep _ _ _ (InnerNode.live lt) (InnerNode.live rt) pre2 post2); try done.
    + by rewrite lookup_insert_ne, lookup_insert_eq.
    + by rewrite lookup_insert_eq.
    + eapply occ_reframe; [exact HR| |exact Edec|done]. intros z Hz. rewrite !lookup_insert_ne; [done| |].
      * by intros <-.
      * intros <-. apply Hf. by apply Hin.
Qed.

Lemma route_head h st id k : id ∈ route h st id k.
Proof. destruct h; constructor. Qed.

(** A node off the path keeps its place and its interval. *)
Lemma insert_occ h : ∀ fuel st k v id lo hi f nx l ids q n n' r st',
  h ≤ fuel → rep h (blocks st) id lo hi f nx l ids → NoDup ids → (∀ j, j ∈ ids → j ∈ in_use (alloc st)) →
  alloc_wf (alloc st) → room (alloc st) (S h + q) → within lo hi k → load id st = Some n →
  insert_ws fuel n k v st = Some (n', r, st') →
  ∀ j x a b lo1 lo2, occ h (blocks st) id lo hi j x a b → x ∉ route h st id k → placed_after h id hi n' r st' lo1 lo2 j x a b.
Proof using Hpar AllocatorLaws0.
  induction h as [|h IH]; intros fuel st k v id lo hi f nx l ids q n n' r st' Hfuel Hrep Hnd Hin Hwf Hroom Hk Hload Hins j x a b lo1 lo2 Ho Hx.
  { apply occ_inv in Ho as [(_ & -> & _)|(h' & ? & ? & ? & ? & ? & _)]; [|done]. destruct Hx. apply route_head. }
  apply occ_inv in Ho as [(_ & -> & _)|(h' & pre1 & k1 & c1 & post1 & E & Hb1 & Ho)]; [destruct Hx; apply route_head|]. injection E as <-.
  apply rep_S in Hrep as (kcs & ids' & Hb & -> & H0 & Hne & Hlen & Hs & Hw & HR).
  rewrite Hb in Hb1. injection Hb1 as E1 E2. apply zip_inj in E1; [|done]. clear E2.
  destruct (load_inner CAPACITY junkE junkK st id kcs Hpar Hb H0 Hlen Hs) as (i & Hi & Hwi & Hlive & Hself & _).
  rewrite Hi in Hload. injection Hload as <-. rewrite <- Hlive in Hb, Hne, Hs, Hw, HR, E1. clear Hlen Hlive kcs. subst id. set (id := InnerNode.self_rep_ i) in *.
  destruct fuel as [|fuel]; [lia|]. simpl in Hins.
  destruct (descend CAPACITY i k lo hi Hwi Hne Hw Hk)
    as (index & i1 & pre & k0 & kt & c & post & Hidx & Hi1 & Htgt & Hc & Hwi1 & Hl0 & Hl1 & Hs1 & Hm1 & Hkt & Hkt0 & Hp & Hbl & Hw1).
  rewrite Hidx in Hins. simpl in Hins. rewrite Hi1 in Hins. simpl in Hins. rewrite Htgt, Hc in Hins. simpl in Hins.
  assert (Hrt : route h st c k ⊆ route (S h) st id k).
  { simpl. rewrite Hi, Hidx, Htgt. assert (Hc0 : InnerNode.live i !! length pre = Some (k0, c)) by (by rewrite Hl0, list_lookup_middle).
    apply InnerNode.inner_live_lookup in Hc0 as (_ & _ & ->). set_solver. }
  assert (Hxc : x ∉ route h st c k) by (intros Hin'; apply Hx; by apply Hrt). clear Hx Hrt.
  rewrite Hl0 in HR.
  pose proof HR as HR0. apply reps_middle in HR0 as (m1 & m2 & la & lc & lb & ia & ic & ib & Hpre & Hch & Hpost & -> & ->).
  assert (Hpre' : reps (rep h (blocks st)) pre (Some kt) f m1 la ia) by (destruct Hp as [->|<-]; done).
  assert (Hch' : rep h (blocks st) c (Some kt) (next_hi post hi) m1 m2 lc ic) by (eapply rep_weaken; [|done|exact Hch]; simpl; lia).
  assert (Hsub : ∀ j, j ∈ ic → j ∈ id :: ia ++ ic ++ ib) by (intros y; set_solver).
  destruct (rep_loadable CAPACITY junkE junkK Hpar _ _ _ _ _ _ _ _ _ Hch') as [child Hchild]. rewrite Hchild in Hins. simpl in Hins.
  assert (Hndc : NoDup ic) by (apply list.NoDup_cons in Hnd as [_ Hnd]; rewrite !list.NoDup_app in Hnd; tauto).
  assert (Hrc : room (alloc st) (S h + S q)) by (by eapply room_le; [|exact Hroom]; lia).
  destruct (insert_rec CAPACITY junkE junkK Hpar h fuel st k v c (Some kt) (next_hi post hi) m1 m2 lc ic (S q) child)
    as (child' & r' & st1 & Hrec & Hres); auto; [lia|by split|].
  rewrite Hrec in Hins. simpl in Hins.
  assert (HIH : ∀ lo1 lo2, occ h (blocks st) c (Some k0) (next_hi post hi) j x a b → placed_after h c (next_hi post hi) child' r' st1 lo1 lo2 j x a b).
  { intros lo3 lo4 Hoc. eapply (IH fuel st k v c (Some kt) (next_hi post hi) m1 m2 lc ic (S q) child); auto; [lia|by split|].
    eapply occ_lo; [|exact Hoc]. intros ->. apply Hxc, route_head. }
  rewrite Hl0 in E1. destruct r' as [[rn b1]|].
  - destruct Hres as (_ & _ & Hcs & lk & mid & l1 & l2 & i1' & i2' & HL & HRr & Happ & Hlk & Hlkb & Hbb & _ & _ & Hst).
    rewrite Hcs in *. simpl in Hlk. set (st3 := close_at (node_self_rep rn) rn (close_at c child' st1)) in *.
    assert (Hreg : reps (rep h (blocks st3)) [(kt, c); (b1, node_self_rep rn)] (next_hi post hi) m1 m2 (kv_insert k v lc) (i1' ++ i2')).
    { exists mid, l1, l2, i1', i2'. split_and!; [|by exists m2, l2, [], i2', []; rewrite !app_nil_r|done|done].
      eapply rep_weaken; [|done|exact HL]. simpl. lia. }
    destruct (region_update CAPACITY h (blocks st) (blocks st3) (alloc st) (alloc st3) id pre [(kt, c)] _ post hi f nx m1 m2 la _ lb ia ic _ ib (S q)
      Hnd Hin Hpre' Hpost Hst Hreg eq_refl) as (HR' & Hst' & _); [done|].
    pose proof (step_ok_outside _ _ _ _ _ _ _ _ _ _ Hnd Hin Hst) as Hout.
    destruct (region_occ h (blocks st) (blocks st3) pre post [(kt, c); (b1, node_self_rep rn)] k0 c hi f nx m1 m2 la lb ia ib j x a b pre1 k1 c1 post1)
      as (pre2 & k2 & c2 & post2 & E2 & Ho2); try done.
    { intros y Hy. apply Hout. by constructor. }
    { destruct Hp as [|Hp]; [by left|right]. simpl. congruence. }
    { intros Hoc. destruct (HIH (Some kt) (Some b1) Hoc) as [Hc1|Hc1]; fold st3 in Hc1.
      - by exists [], kt, c, [(b1, node_self_rep rn)].
      - by exists [(kt, c)], b1, (node_self_rep rn), []. }
    unfold id in *. clear id. rewrite <- Hs1 in *. pose proof Hst' as (Hu & Haw & Hrm & _)%step_ok_facts. unfold st3 in Hu, Haw, Hrm. rewrite !close_alloc in Hu, Haw, Hrm.
    eapply (child_split_occ h st3 i1 pre kt c post rn child' b1 hi f nx _ _ k2 c2 pre2 post2 st1 n' r st' lo1 lo2 j x a b q); try done.
    + lia.
    + by rewrite Hcs.
    + by apply step_ok_nodup, list.NoDup_cons in Hst' as [? _].
    + intros y Hy. apply Hu. right. by constructor.
    + apply Hu. right. constructor.
    + rewrite Hcs. exact Hins.
  - destruct Hres as (_ & _ & Hcs & ic' & Hrep' & Hst). injection Hins as <- <- <-. set (st2 := close_at c child' st1) in *.
    destruct (region_update CAPACITY h (blocks st) (blocks st2) (alloc st) (alloc st2) id pre [(kt, c)] [(kt, c)]
      post hi f nx m1 m2 la (kv_insert k v lc) lb ia ic ic' ib (S q) Hnd Hin Hpre' Hpost Hst) as (HR' & Hst' & Hid); [|done|done|].
    { exists m2, (kv_insert k v lc), [], ic', []. rewrite !app_nil_r. done. }
    pose proof (step_ok_outside _ _ _ _ _ _ _ _ _ _ Hnd Hin Hst) as Hout.
    destruct (region_occ h (blocks st) (blocks st2) pre post [(kt, c)] k0 c hi f nx m1 m2 la lb ia ib j x a b pre1 k1 c1 post1)
      as (pre2 & k2 & c2 & post2 & E2 & Ho2); try done.
    { intros y Hy. apply Hout. by constructor. }
    { destruct Hp as [|Hp]; [by left|right]. simpl. congruence. }
    { intros Hoc. exists [], kt, c, []. split; [done|]. exact (HIH (Some kt) None Hoc). }
    apply step_ok_nodup, list.NoDup_cons in Hst' as [Hni _].
    right. exists pre2, k2, c2, post2. change (pre ++ (kt, c) :: post = pre2 ++ (k2, c2) :: post2) in E2. rewrite <- E2. split.
    + assert (Hsync : in_sync (NInner i1) st2).
      { destruct Hm1 as [Hm1| ->]; [by left|right]. rewrite (serialize_inner CAPACITY) by done. cbn [node_self_rep]. fold id. by rewrite Hid. }
      apply close_lookup in Hsync. rewrite (serialize_inner CAPACITY), Hl1 in Hsync by done. cbn [node_self_rep] in Hsync. by rewrite Hs1 in Hsync.
    + eapply occ_reframe; [exact HR'| |exact E2|done]. intros y Hy. apply close_lookup_ne. by intros ->.
Qed.

(** ** Descending *)
Lemma inner_child i k :
  InnerNode.wf CAPACITY i → InnerNode.live i ≠ [] →
  ∃ index pre kt c post, InnerNode.locate_child_index k i = Some index ∧ Z.to_nat (Z.max 0 index) = length pre ∧
    InnerNode.child_rep_ i !! length pre = Some c ∧ InnerNode.live i = pre ++ (kt, c) :: post ∧
    ((0 ≤ index)%Z → (kt ≤ k)%Z ∧ ∀ x, x ∈ keys post → (k < x)%Z) ∧
    ((index < 0)%Z → ∀ x, x ∈ keys (InnerNode.live i) → (k < x)%Z).
Proof using.
  intros Hwf Hne. destruct (locate_cases CAPACITY i k Hwf) as [[Hloc Hlt]|(index & pre & kt & c & post & Hloc & H0 & Hpre & Hc & Hl & Hle & Hp)].
  - destruct (live_head_kv _ Hne) as (k0 & c & post & El). exists (-1)%Z, [], k0, c, post. split_and!; try done.
    assert (Hi : InnerNode.live i !! 0 = Some (k0, c)) by (by rewrite El). by apply InnerNode.inner_live_lookup in Hi as (_ & _ & Hi).
  - exists index, pre, kt, c, post. split_and!; try done; lia.
Qed.

Lemma route_S h st id k i index c :
  load id st = Some (NInner i) → InnerNode.locate_child_index k i = Some index →
  InnerNode.child_rep_ i !! Z.to_nat (Z.max 0 index) = Some c → route (S h) st id k = id :: route h st c k.
Proof using. intros Hl Hi Hc. simpl. by rewrite Hl, Hi, Hc. Qed.

Lemma route_in h : ∀ st id k lo hi f nx l ids,
  rep h (blocks st) id lo hi f nx l ids → ∀ y, y ∈ route h st id k → y ∈ ids.
Proof using Hpar AllocatorLaws0.
  induction h as [|h IH]; intros st id k lo hi f nx l ids Hrep y Hy.
  - apply rep_0 in Hrep as (_ & _ & -> & _). done.
  - destruct (rep_loadable CAPACITY junkE junkK Hpar _ _ _ _ _ _ _ _ _ Hrep) as [n Hn].
    destruct (load_rep_S CAPACITY junkE junkK Hpar _ _ _ _ _ _ _ _ _ _ Hrep Hn) as (i & ids' & -> & Hwf & _ & _ & _ & Hne & -> & _ & _ & HR).
    destruct (inner_child i k Hwf Hne) as (index & pre & kt & c & post & Hloc & Hpre & Hc & Hl & _). rewrite <- Hpre in Hc.
    rewrite (route_S _ _ _ _ _ _ _ Hn Hloc Hc) in Hy. apply elem_of_cons in Hy as [->|Hy]; [constructor|]. rewrite Hl in HR.
    apply reps_middle in HR as (m1 & m2 & la & lc & lb & ia & ic & ib & _ & HRc & _ & _ & ->). eapply IH in Hy; [|exact HRc]. set_solver.
Qed.

(** The subtree of a node off the path has no node on the path. *)
Lemma occ_off h : ∀ st id k lo hi f nx l ids j x a b,
  rep h (blocks st) id lo hi f nx l ids → NoDup ids → occ h (blocks st) id lo hi j x a b → x ∉ route h st id k →
  ∃ f' nx' lx ix, rep j (blocks st) x a b f' nx' lx ix ∧ ∀ y, y ∈ ix → y ∈ ids ∧ y ∉ route h st id k.
Proof using Hpar AllocatorLaws0.
  induction h as [|h IH]; intros st id k lo hi f nx l ids j x a b Hrep Hnd Ho Hx.
  { apply occ_inv in Ho as [(_ & -> & _)|(h' & ? & ? & ? & ? & ? & _)]; [|done]. destruct Hx. apply route_head. }
  apply occ_inv in Ho as [(_ & -> & _)|(h' & pre1 & k1 & c1 & post1 & E & Hb1 & Ho)]; [destruct Hx; apply route_head|]. injection E as <-.
  destruct (rep_loadable CAPACITY junkE junkK Hpar _ _ _ _ _ _ _ _ _ Hrep) as [n Hn].
  destruct (load_rep_S CAPACITY junkE junkK Hpar _ _ _ _ _ _ _ _ _ _ Hrep Hn) as (i & ids' & -> & Hwf & Hself & Hmod & Hsync & Hne & -> & _ & _ & HR).
  destruct Hsync as [Hs|Hs]; [simpl in Hs; congruence|]. rewrite (serialize_inner CAPACITY) in Hs by done. cbn [node_self_rep] in Hs.
  rewrite Hself, Hb1 in Hs. injection Hs as E1 E2. apply zip_inj in E1; [|done]. clear E2.
  destruct (inner_child i k Hwf Hne) as (index & pre & kt & c & post & Hloc & Hpre & Hc & Hl & _). rewrite <- Hpre in Hc.
  rewrite (route_S _ _ _ _ _ _ _ Hn Hloc Hc) in Hx |- *. apply not_elem_of_cons in Hx as [Hx1 Hx].
  apply list.NoDup_cons in Hnd as [Hnid Hnd]. rewrite Hl in E1, HR.
  apply reps_middle in HR as (m1 & m2 & la & lc & lb & ia & ic & ib & Ha & Hrc & Hb & _ & ->).
  pose proof Hnd as Hnd'. rewrite !list.NoDup_app in Hnd'. destruct Hnd' as (_ & Hd1 & Hndc & Hd2 & _).
  assert (Hroute : ∀ y, y ∈ route h st c k → y ∈ ic) by (intros y; by eapply route_in).
  apply middle_eq in E1 as [(-> & E & ->)|[(mid & -> & ->)|(mid & -> & ->)]].
  - injection E as -> ->. destruct (IH _ _ _ _ _ _ _ _ _ _ _ _ _ Hrc Hndc Ho Hx) as (f' & nx' & lx & ix & Hrx & Hix).
    exists f', nx', lx, ix. split; [done|]. intros y Hy. destruct (Hix y Hy) as [Hy1 Hy2]. split; [set_solver|].
    apply not_elem_of_cons. split; [|done]. intros ->. apply Hnid. set_solver.
  - apply reps_middle in Hb as (n1 & n2 & l1 & l2 & l3 & i1 & i2 & i3 & _ & H2 & _ & _ & ->).
    destruct (occ_rep _ _ _ _ _ _ _ _ _ _ _ _ _ _ H2 Ho) as (f' & nx' & lx & ix & Hrx & _ & [Hix _] & _).
    exists f', nx', lx, ix. split; [done|]. intros y Hy. apply Hix in Hy. split; [set_solver|]. apply not_elem_of_cons. split; [intros ->; set_solver|].
    intros Hy2. apply Hroute in Hy2. apply (Hd2 _ Hy2). set_solver.
  - apply reps_middle in Ha as (n1 & n2 & l1 & l2 & l3 & i1 & i2 & i3 & _ & H2 & _ & _ & ->).
    assert (E : next_hi mid (Some kt) = next_hi (mid ++ (kt, c) :: post) hi) by (by rewrite next_hi_app). rewrite E in H2.
    destruct (occ_rep _ _ _ _ _ _ _ _ _ _ _ _ _ _ H2 Ho) as (f' & nx' & lx & ix & Hrx & _ & [Hix _] & _).
    exists f', nx', lx, ix. split; [done|]. intros y Hy. apply Hix in Hy. split; [set_solver|]. apply not_elem_of_cons. split; [intros ->; set_solver|].
    intros Hy2. apply Hroute in Hy2. apply (Hd1 y); set_solver.
Qed.

(** ** The whole tree *)
Definition in_tree st j x a b : Prop := occ (depth_ st - 1) (blocks st) (root_ st) None None j x a b.
Definition path_to st (k : Z) : list Z := route (depth_ st - 1) st (root_ st) k.

Lemma tree_insert_occ k v st l ids q st' j x a b :
  tree_ok CAPACITY st l ids → room (alloc st) (depth_ st + 1 + q) → insert CAPACITY junkE junkK k v st = Some st' →
  in_tree st j x a b → x ∉ path_to st k → in_tree st' j x a b.
Proof using Hpar AllocatorLaws0.
  unfold in_tree, path_to. intros (Hd & (f & Hrep) & Hnd & Hin & Hwf) Hroom Hins Ho Hx.
  destruct (depth_ st) as [|h] eqn:Ed; [lia|]. simpl in Hrep, Ho, Hx. rewrite Nat.sub_0_r in *.
  unfold insert in Hins. destruct (rep_loadable CAPACITY junkE junkK Hpar _ _ _ _ _ _ _ _ _ Hrep) as [n Hn].
  rewrite Hn, Ed in Hins. cbn [mbind option_bind] in Hins.
  assert (Hroom' : room (alloc st) (S h + S q)) by (by eapply room_le; [|exact Hroom]; lia).
  destruct (insert_rec CAPACITY junkE junkK Hpar h (S h) st k v (root_ st) None None f (-1)%Z l ids (S q) n)
    as (n' & r & st1 & Hrec & Hres); auto; [done|].
  rewrite Hrec in Hins. cbn [mbind option_bind] in Hins. destruct r as [[rn b0]|].
  - destruct (allocate (alloc st1)) as [rep0 a'] eqn:Ea.
    destruct (insert_new_root CAPACITY junkE junkK Hpar _ _ _ _ _ _ _ _ _ _ _ _ _ _ _ Hres Ed Ea)
      as (lkey & rkey & root & ids' & H1 & H2 & H3 & (Hd3 & (f3 & Hrep3) & _) & _).
    rewrite H1, H2 in Hins. simpl in Hins. rewrite H3 in Hins. simpl in Hins. injection Hins as <-.
    destruct Hres as (Hr1 & Hd1 & Hself & lk & mid & l1 & l2 & i1 & i2 & HL & HR & _ & _ & Hlt & _ & Hk1 & Hk2 & Hst).
    assert (lkey = lk) as -> by congruence. assert (rkey = b0) as -> by congruence. rewrite Hself in *.
    destruct (rep_head _ _ _ _ _ _ _ _ _ _ HL) as [H0l _]. destruct (rep_head _ _ _ _ _ _ _ _ _ _ HR) as [H0r _].
    set (st2 := close_at (node_self_rep rn) rn (close_at (root_ st) n' st1)) in *.
    assert (Ha2 : allocate (alloc st2) = (rep0, a')) by (unfold st2; by rewrite !close_alloc).
    destruct (step_ok_alloc _ _ _ _ _ _ _ _ _ Ha2 Hst) as (_ & Hr0 & Hrn).
    destruct (InnerNode.create_root_live CAPACITY junkK rep0 lk (root_ st) b0 (node_self_rep rn))
      as (root' & Hcr & Hwr & Hlr & Hsr & _ & _); [destruct Hpar; lia|apply Hpar|done|lia|lia|]. assert (root' = root) as -> by congruence.
    pose proof (insert_occ h (S h) st k v (root_ st) None None f (-1)%Z l ids (S q) n n' (Some (rn, b0)) st1 ltac:(lia) Hrep Hnd Hin Hwf Hroom'
      ltac:(done) Hn Hrec j x a b (Some lk) (Some b0) Ho Hx) as Hp. simpl in Hp. fold st2 in Hp.
    rewrite !close_depth, !close_root, !close_blocks. cbn [node_modified InnerNode.mark_modified InnerNode.modified_ depth_ root_ blocks].
    assert (Eb : blocks (close_at (node_self_rep rn) rn (close_at (root_ st) n' (mk_state (blocks st1) a' rep0 (depth_ st1 + 1)))) = blocks st2).
    { unfold st2. by rewrite !close_blocks. }
    rewrite !close_blocks in Eb. cbn [blocks] in Eb. rewrite Eb. rewrite Hd1, Ed.
    replace (S h + 1 - 1) with (S h) by lia. right.
    assert (Hser : serialize (NInner (InnerNode.mark_modified root)) = BInner [lk; b0] [root_ st; node_self_rep rn] rep0).
    { change (serialize (NInner root) = BInner [lk; b0] [root_ st; node_self_rep rn] rep0). rewrite (serialize_inner CAPACITY) by done. by rewrite Hlr, Hsr. }
    rewrite Hser. destruct Hp as [Hp|Hp].
    + exists [], lk, (root_ st), [(b0, node_self_rep rn)]. rewrite lookup_insert_eq. split; [done|].
      eapply occ_frame; [exact HL| |exact Hp]. intros y Hy. rewrite lookup_insert_ne; [done|]. intros <-. set_solver.
    + exists [(lk, root_ st)], b0, (node_self_rep rn), []. rewrite lookup_insert_eq. split; [done|].
      eapply occ_frame; [exact HR| |exact Hp]. intros y Hy. rewrite lookup_insert_ne; [done|]. intros <-. set_solver.
  - injection Hins as <-. destruct Hres as (Hroot & Hdep & _). rewrite close_depth, close_root, Hroot, Hdep, Ed. simpl. rewrite Nat.sub_0_r.
    exact (insert_occ h (S h) st k v (root_ st) None None f (-1)%Z l ids (S q) n n' None st1 ltac:(lia) Hrep Hnd Hin Hwf Hroom'
      ltac:(done) Hn Hrec j x a b None None Ho Hx).
Qed.
End place.
