(* ===== verification/ConcurrentMachine.v ===== *)
(** The threads of the concurrent tree (src/src/tree/concurrent_b_plus_tree.h),
    interleaved. A thread stops at every call of the lock manager, of
    [get_root_id] and of [get_height], and between reading a node and writing it;
    between two stops it runs alone. The deque of obtained locks is in the program
    counter: a search and an optimistic insertion hold at most the lock of the
    parent and the one of the node, a pessimistic insertion holds the locks of the
    nodes in its frames and the one of the node.

    Between two stops a thread touches only blocks whose locks it holds and blocks
    it has just allocated, and it allocates only below the write lock of the root
    ([concurrent_tree_race_free]), so that a finer interleaving shows nothing more.
    The block accessor reads and writes a block at once. *)
From Stdlib Require Import ZArith Lia.
From stdpp Require Import base list gmap sorting numbers.
From S2P Require Import Prelude KV Leaf Inner Store Tree LockManager ConcurrentTree.
Import Locks.

Inductive operation := Search (key : Z) | Insert (key value : Z).
Inductive answer := RFound (value : option Z) | RDone.
#[global] Instance operation_eq_dec : EqDecision operation.
Proof. solve_decision. Defined.
#[global] Instance answer_eq_dec : EqDecision answer.
Proof. solve_decision. Defined.

(** A frame of the pessimistic descent: [current_node_id], [inner_node] after the
    change of its left boundary, [target_node_index]. *)
Record frame := mk_frame { fr_id : Z; fr_node : InnerNode.InnerNode; fr_target : nat }.
Abbreviation split_t := (option (node * node * Z)).

(** The lock an optimistic insertion takes: [current_depth == 1] asks for a write
    lock. *)
Definition olock (depth : Z) : lock_type := if (depth =? 1)%Z then WRITE_LOCK else READ_LOCK.

Inductive pc :=
  | Idle
  (** [search_with_concurrency_control] *)
  | SRoot (k : Z)
  | SLock (k id : Z) (parent : option Z)
  | SCheck (k id : Z) (parent : option Z)
  | SFail (k id : Z)
  | SRead (k id : Z)
  | SEnd (id : Z) (found : option Z)
  (** [insert_with_optimistic_concurrency_control]; the arguments [get_root_id()]
      and [get_height()] of a call are evaluated one after the other *)
  | ORoot (k v : Z) (height : option Z)
  | OHeight (k v : Z) (root : option Z)
  | OLock (k v id depth : Z) (parent : option Z)
  | OCheck (k v id depth : Z) (parent : option Z)
  | OFail (k v id depth : Z)
  | ORead (k v id depth : Z)
  | OWrite (k v id depth : Z) (leaf : LeafNode.LeafNode)
  | ORefuse (k v id depth : Z)
  | OEnd (id depth : Z)
  (** [insert_with_pessimistic_concurrency_control] *)
  | PRoot (k v : Z)
  | PLock (k v id : Z) (frames : list frame)
  | PCheck (k v id : Z) (frames : list frame)
  | PFail (k v id : Z)
  | PRead (k v id : Z) (frames : list frame)
  | PWrite (k v id : Z) (leaf : LeafNode.LeafNode) (frames : list frame)
  | PEnd (id : Z) (split : split_t) (frames : list frame)
  | PClimb (split : split_t) (frames : list frame)
  (** the call returns *)
  | Done (r : answer).

Definition rlock (id : Z) : lock_descriptor := mk_descriptor id READ_LOCK.
Definition wlock (id : Z) : lock_descriptor := mk_descriptor id WRITE_LOCK.
Definition parent_lock (parent : option Z) : list lock_descriptor :=
  match parent with Some p => [rlock p] | None => [] end.
Definition frame_locks (frames : list frame) : list lock_descriptor := (λ f, wlock (fr_id f)) <$> frames.

(** The locks a thread holds, the last one first. *)
Definition held_of (p : pc) : list lock_descriptor :=
  match p with
  | Idle | SRoot _ | ORoot _ _ _ | OHeight _ _ _ | PRoot _ _ | Done _ => []
  | SLock _ _ parent => parent_lock parent
  | SCheck _ id parent => rlock id :: parent_lock parent
  | SFail _ id | SRead _ id | SEnd id _ => [rlock id]
  | OLock _ _ _ d parent => (λ p, mk_descriptor p (olock (d + 1))) <$> option_list parent
  | OCheck _ _ id d parent => mk_descriptor id (olock d) :: ((λ p, mk_descriptor p (olock (d + 1))) <$> option_list parent)
  | OFail _ _ id d | ORead _ _ id d | OWrite _ _ id d _ | ORefuse _ _ id d | OEnd id d => [mk_descriptor id (olock d)]
  | PLock _ _ _ frames | PClimb _ frames => frame_locks frames
  | PCheck _ _ id frames | PRead _ _ id frames | PWrite _ _ id _ frames | PEnd id _ frames => wlock id :: frame_locks frames
  | PFail _ _ id => [wlock id]
  end.

(** What a step of a thread comes to: it moves on, it waits for a lock, or the
    code goes wrong. *)
Inductive outcome (S : Type) := Move (s : S) | Wait | Crash.
Arguments Move {S} s.
Arguments Wait {S}.
Arguments Crash {S}.

Section machine.
Context {A : Type} `{!Allocator A}.
Context (CAPACITY : nat) (junkE : list (Z * Z)) (junkK : list Z).
(** The order in which the compiler evaluates the arguments of
    [insert_with_optimistic_concurrency_control]. *)
Context (root_first : bool).

Local Abbreviation state := (tree_state A).
Local Abbreviation read_node := (read_node CAPACITY junkE junkK).

(** A call that blocks has no result in the lock manager. *)
Definition locking {S} (r : option (lock_descriptor * manager)) (f : manager → S) : outcome S :=
  match r with Some (_, m) => Move (f m) | None => Wait end.
Definition running {S} (r : option S) : outcome S :=
  match r with Some s => Move s | None => Crash end.

Definition optimistic_start (k v : Z) : pc := if root_first then ORoot k v None else OHeight k v None.

(** What is written when the insertion has reached the leaf. *)
Definition leaf_write (is_current_node_root : bool) (k v : Z) (leaf : LeafNode.LeafNode) (st : state)
    : option (split_t * state) :=
  '(leaf', split, st) ← insert_with_split_support CAPACITY junkE junkK 0 (NLeaf leaf) k v st;
  st ← (match split with
        | Some (rt, _) => flush_split CAPACITY junkK is_current_node_root (node_self_rep leaf') leaf' rt st
        | None => Some (write_node (node_self_rep leaf') leaf' st)
        end);
  Some ((λ s, (leaf', s.1, s.2)) <$> split, st).

(** What is written in a node of the path after the insertion into its child. *)
Definition frame_write (is_current_node_root : bool) (f : frame) (child_split : split_t) (st : state)
    : option (split_t * state) :=
  match child_split with
  | Some (_, rchild, boundary_key) =>
      if InnerNode.size_ (fr_node f) <? CAPACITY then
        inner_node ← InnerNode.insert_inner_node (node_self_rep rchild) boundary_key (fr_target f + 1) (fr_node f);
        Some (None, write_node (fr_id f) (NInner inner_node) st)
      else
        let '(rrep, a') := allocate (alloc st) in
        '(lt, rt, boundary) ← InnerNode.split_insert CAPACITY rrep junkK (fr_target f) (node_self_rep rchild)
                                boundary_key (fr_node f);
        st ← flush_split CAPACITY junkK is_current_node_root (fr_id f) (NInner lt) (NInner rt) (set_alloc a' st);
        Some (Some (NInner lt, NInner rt, boundary), st)
  | None =>
      Some (None, if InnerNode.modified_ (fr_node f) then write_node (fr_id f) (NInner (fr_node f)) st else st)
  end.

Definition is_nil {X} (l : list X) : bool := match l with [] => true | _ => false end.

Definition search_step (p : pc) (m : manager) (st : state) : outcome (pc * manager * state) :=
  match p with
  | SRoot k => Move (SLock k (get_root_id st) None, m, st)
  | SLock k id parent => locking (get_read_lock id m) (λ m, (SCheck k id parent, m, st))
  | SCheck k id None =>
      if negb (get_root_id st =? id)%Z then Move (SFail k id, m, st) else Move (SRead k id, m, st)
  | SCheck k id (Some parent) => running (m ← release_lock (rlock parent) m; Some (SRead k id, m, st))
  | SFail k id => running (m ← release_lock (rlock id) m; Some (SRoot k, m, st))
  | SRead k id => running (
      n ← read_node id st;
      match n with
      | NLeaf leaf => is_found ← LeafNode.search k leaf; Some (SEnd id is_found, m, st)
      | NInner inner_node =>
          target_node_index ← InnerNode.locate_child_index k inner_node;
          if (target_node_index <? 0)%Z then Some (SEnd id None, m, st)
          else child ← InnerNode.child_rep_ inner_node !! Z.to_nat target_node_index;
               Some (SLock k child (Some id), m, st)
      end)
  | SEnd id found => running (m ← release_lock (rlock id) m; Some (Done (RFound found), m, st))
  | _ => Wait
  end.

Definition optimistic_step (p : pc) (m : manager) (st : state) : outcome (pc * manager * state) :=
  match p with
  | ORoot k v None => Move (OHeight k v (Some (get_root_id st)), m, st)
  | ORoot k v (Some h) => Move (OLock k v (get_root_id st) h None, m, st)
  | OHeight k v None => Move (ORoot k v (Some (Z.of_nat (depth_ st))), m, st)
  | OHeight k v (Some id) => Move (OLock k v id (Z.of_nat (depth_ st)) None, m, st)
  | OLock k v id d parent => locking (get_lock (olock d) id m) (λ m, (OCheck k v id d parent, m, st))
  | OCheck k v id d None =>
      if negb (get_root_id st =? id)%Z then Move (OFail k v id d, m, st) else Move (ORead k v id d, m, st)
  | OCheck k v id d (Some parent) =>
      running (m ← release_lock (mk_descriptor parent (olock (d + 1))) m; Some (ORead k v id d, m, st))
  | OFail k v id d => running (m ← release_lock (mk_descriptor id (olock d)) m; Some (optimistic_start k v, m, st))
  | ORead k v id d => running (
      n ← read_node id st;
      match n with
      | NLeaf leaf => if LeafNode.size_ leaf =? CAPACITY then Some (ORefuse k v id d, m, st)
                      else Some (OWrite k v id d leaf, m, st)
      | NInner inner_node =>
          target_node_index ← InnerNode.locate_child_index k inner_node;
          let exceed_left_boundary := (target_node_index <? 0)%Z in
          if negb exceed_left_boundary then
            child ← InnerNode.child_rep_ inner_node !! Z.to_nat target_node_index;
            Some (OLock k v child (d - 1) (Some id), m, st)
          else Some (ORefuse k v id d, m, st)
      end)
  | OWrite k v id d leaf => running (
      '(_, leaf) ← LeafNode.insert CAPACITY k v leaf;
      Some (OEnd id d, m, write_node id (NLeaf leaf) st))
  | ORefuse k v id d => running (m ← release_lock (mk_descriptor id (olock d)) m; Some (PRoot k v, m, st))
  | OEnd id d => running (m ← release_lock (mk_descriptor id (olock d)) m; Some (Done RDone, m, st))
  | _ => Wait
  end.

Definition pessimistic_step (p : pc) (m : manager) (st : state) : outcome (pc * manager * state) :=
  match p with
  | PRoot k v => Move (PLock k v (get_root_id st) [], m, st)
  | PLock k v id frames => locking (get_write_lock id m) (λ m, (PCheck k v id frames, m, st))
  | PCheck k v id frames =>
      if is_nil frames && negb (get_root_id st =? id)%Z then Move (PFail k v id, m, st)
      else Move (PRead k v id frames, m, st)
  | PFail k v id => running (m ← release_lock (wlock id) m; Some (PRoot k v, m, st))
  | PRead k v id frames => running (
      n ← read_node id st;
      match n with
      | NLeaf leaf => Some (PWrite k v id leaf frames, m, st)
      | NInner inner_node =>
          index ← InnerNode.locate_child_index k inner_node;
          let exceed_left_boundary := (index <? 0)%Z in
          inner_node ← (if exceed_left_boundary then InnerNode.set_left_boundary k inner_node else Some inner_node);
          let target_node_index := Z.to_nat (Z.max 0 index) in
          child_node_id ← InnerNode.child_rep_ inner_node !! target_node_index;
          Some (PLock k v child_node_id (mk_frame id inner_node target_node_index :: frames), m, st)
      end)
  | PWrite k v id leaf frames => running (
      '(split, st) ← leaf_write (is_nil frames) k v leaf st;
      Some (PEnd id split frames, m, st))
  | PEnd id split frames => running (m ← release_lock (wlock id) m; Some (PClimb split frames, m, st))
  | PClimb split [] => Move (Done RDone, m, st)
  | PClimb split (f :: frames) => running (
      '(split, st) ← frame_write (is_nil frames) f split st;
      Some (PEnd (fr_id f) split frames, m, st))
  | _ => Wait
  end.

Definition thread_step (p : pc) (m : manager) (st : state) : outcome (pc * manager * state) :=
  match p with
  | SRoot _ | SLock _ _ _ | SCheck _ _ _ | SFail _ _ | SRead _ _ | SEnd _ _ => search_step p m st
  | ORoot _ _ _ | OHeight _ _ _ | OLock _ _ _ _ _ | OCheck _ _ _ _ _ | OFail _ _ _ _ | ORead _ _ _ _ | OWrite _ _ _ _ _
  | ORefuse _ _ _ _ | OEnd _ _ => optimistic_step p m st
  | PRoot _ _ | PLock _ _ _ _ | PCheck _ _ _ _ | PFail _ _ _ | PRead _ _ _ _ | PWrite _ _ _ _ _ | PEnd _ _ _
  | PClimb _ _ => pessimistic_step p m st
  | Idle | Done _ => Wait
  end.

(** ** The machine *)
Record machine := mk_machine { m_tree : state; m_locks : manager; m_threads : list pc }.

Definition start (o : operation) : pc :=
  match o with Search k => SRoot k | Insert k v => optimistic_start k v end.

Inductive event := Called (t : nat) (o : operation) | Returned (t : nat) (r : answer).
Inductive action := Call (t : nat) (o : operation) | Run (t : nat).

(** One action: a thread calls an operation, moves on, or returns. *)
Definition act (a : action) (s : machine) : option (machine * list event) :=
  match a with
  | Call t o =>
      p ← m_threads s !! t;
      match p with
      | Idle => Some (mk_machine (m_tree s) (m_locks s) (<[t := start o]> (m_threads s)), [Called t o])
      | _ => None
      end
  | Run t =>
      p ← m_threads s !! t;
      match p with
      | Done r => Some (mk_machine (m_tree s) (m_locks s) (<[t := Idle]> (m_threads s)), [Returned t r])
      | _ => match thread_step p (m_locks s) (m_tree s) with
             | Move (p', m', st') => Some (mk_machine st' m' (<[t := p']> (m_threads s)), [])
             | _ => None
             end
      end
  end.

Fixpoint acts (l : list action) (s : machine) : option (machine * list event) :=
  match l with
  | [] => Some (s, [])
  | a :: l => '(s, e) ← act a s; '(s, e') ← acts l s; Some (s, e ++ e')
  end.

(** A tree on which [n] threads are about to work. *)
Definition boot (n : nat) (st : state) : machine := mk_machine st ∅ (replicate n Idle).

End machine.
