(* ===== verification/ConcurrentSpec.v ===== *)
(** What the concurrent tree promises: an object that performs every operation at
    one moment between its call and its return. *)
From Stdlib Require Import ZArith Lia.
From stdpp Require Import base list gmap sorting numbers.
From S2P Require Import Prelude KV Leaf Inner Store Tree LockManager ConcurrentTree ConcurrentMachine.

(** An operation on the map from keys to values, and its answer. *)
Definition perform (o : operation) (M : gmap Z Z) : answer * gmap Z Z :=
  match o with
  | Search k => (RFound (M !! k), M)
  | Insert k v => (RDone, <[k := v]> M)
  end.

(** Where a thread is with its operation. *)
Inductive status := Free | Pending (o : operation) | Answered (r : answer).

Record object := mk_object { o_map : gmap Z Z; o_threads : list status }.

Inductive ostep : object → list event → object → Prop :=
  | o_call M ts t o : ts !! t = Some Free → ostep (mk_object M ts) [Called t o] (mk_object M (<[t := Pending o]> ts))
  | o_perform M ts t o : ts !! t = Some (Pending o) →
      ostep (mk_object M ts) [] (mk_object (perform o M).2 (<[t := Answered (perform o M).1]> ts))
  | o_return M ts t r : ts !! t = Some (Answered r) → ostep (mk_object M ts) [Returned t r] (mk_object M (<[t := Free]> ts)).

Inductive osteps : object → list event → object → Prop :=
  | o_none x : osteps x [] x
  | o_more x e y e' z : ostep x e y → osteps y e' z → osteps x (e ++ e') z.

Lemma osteps_trans x e y e' z : osteps x e y → osteps y e' z → osteps x (e ++ e') z.
Proof. induction 1 as [|x e1 y e2 z' Hs _ IH]; [done|]. intros Hz. rewrite <- app_assoc. by econstructor; [|apply IH]. Qed.

(** What a thread of the tree has done of its operation. *)
Definition status_of (p : pc) : status :=
  match p with
  | Idle => Free
  | SRoot k | SLock k _ _ | SCheck k _ _ | SFail k _ | SRead k _ => Pending (Search k)
  | SEnd _ found => Answered (RFound found)
  | ORoot k v _ | OHeight k v _ | OLock k v _ _ _ | OCheck k v _ _ _ | OFail k v _ _ | ORead k v _ _ | OWrite k v _ _ _
  | ORefuse k v _ _ | PRoot k v | PLock k v _ _ | PCheck k v _ _ | PFail k v _ | PRead k v _ _ | PWrite k v _ _ _ =>
      Pending (Insert k v)
  | OEnd _ _ | PEnd _ _ _ | PClimb _ _ => Answered RDone
  | Done r => Answered r
  end.
