(* ===== verification/ConcurrentPath.v ===== *)
(** The path of a pessimistic insertion: the nodes it has read and locked on its
    way down, and the writes it still owes on its way up. *)
From Stdlib Require Import ZArith Lia.
From stdpp Require Import base list gmap sorting numbers.
From S2P Require Import Prelude KV Leaf Inner Store Tree TreeRep TreeFoot TreeInsert TreeSearch TreeRoute TreePlace LockManager ConcurrentTree ConcurrentMachine.
Import Locks.

Section path.
Context {A : Type} `{!Allocator A} `{!AllocatorLaws A}.
Context (CAPACITY : nat) (junkE : list (Z * Z)) (junkK : list Z).
Context (Hpar : params_ok CAPACITY junkE junkK).

Local Abbreviation state := (tree_state A).
Local Abbreviation load := (load CAPACITY junkE junkK).
Local Abbreviation read_node := (read_node CAPACITY junkE junkK).
Local Abbreviation insert_ws := (insert_with_split_support CAPACITY junkE junkK).
Local Abbreviation frame_write := (frame_write CAPACITY junkK).
Local Abbreviation leaf_write := (leaf_write CAPACITY junkE junkK).
Local Abbreviation finish := (finish CAPACITY junkK).
Local Abbreviation in_tree := (in_tree (A := A)).
Local Abbreviation path_to := (path_to CAPACITY junkE junkK).
Local Abbreviation route := (route CAPACITY junkE junkK).
Implicit Types (st : state) (fs : list frame).

(** ** The way down *)
(** The frames are what the blocks of the path give, up to the root. *)
Fixpoint path_ok st (k : Z) fs (cur : Z) : Prop :=
  match fs with
  | [] => cur = root_ st
  | f :: rest =>
      ∃ n0 index, read_node (fr_id f) st = Some (NInner n0) ∧ InnerNode.locate_child_index k n0 = Some index ∧
        (if (index <? 0)%Z then InnerNode.set_left_boundary k n0 else Some n0) = Some (fr_node f) ∧
        fr_target f = Z.to_nat (Z.max 0 index) ∧ InnerNode.child_rep_ (fr_node f) !! fr_target f = Some cur ∧
        path_ok st k rest (fr_id f)
  end.

Lemma boundary_child k i i1 index :
  (if (index <? 0)%Z then InnerNode.set_left_boundary k i else Some i) = Some i1 →
  InnerNode.child_rep_ i1 = InnerNode.child_rep_ i ∧ InnerNode.self_rep_ i1 = InnerNode.self_rep_ i.
Proof using. destruct (index <? 0)%Z; [|by intros [= <-]]. intros E. apply bind_Some in E as (ks & _ & E). by simplify_eq/=. Qed.

(** A node in the tree, as a thread finds it. *)
Lemma in_tree_read st l ids j x a b :
  tree_ok CAPACITY st l ids → in_tree st j x a b →
  ∃ n f nx lx ix, load x st = Some n ∧ read_node x st = Some n ∧ rep CAPACITY j (blocks st) x a b f nx lx ix ∧ NoDup ix ∧
    (∀ y, y ∈ ix → y ∈ ids) ∧ ∀ k, within a b k → kv_map l !! k = kv_map lx !! k.
Proof using Hpar.
  intros (_ & (f & Hrep) & Hnd & _) Ho. destruct (occ_rep _ _ _ _ _ _ _ _ _ _ _ _ _ _ Hrep Ho) as (f' & nx & lx & ix & Hx & _ & [Hix Hdx] & Hk).
  destruct (rep_loadable CAPACITY junkE junkK Hpar _ _ _ _ _ _ _ _ _ Hx) as [n Hn]. exists n, f', nx, lx, ix. split_and!; auto.
  - apply read_load; [|done]. by apply rep_head in Hx as [? _].
  - intros k Hkab. by apply Hk.
Qed.

Lemma path_place st l ids k cur : ∀ fs,
  tree_ok CAPACITY st l ids → path_ok st k fs cur →
  ∃ j a b, j + length fs = depth_ st - 1 ∧ in_tree st j cur a b ∧ path_to st k = reverse (fr_id <$> fs) ++ route j st cur k.
Proof using Hpar AllocatorLaws0.
  intros fs Hok. revert cur. induction fs as [|f fs IH]; intros cur Hp.
  - simpl in Hp. subst cur. exists (depth_ st - 1), None, None. split_and!; [simpl; lia|apply occ_top|done].
  - destruct Hp as (n0 & index & Hr & Hloc & Hb & Ht & Hc & Hp). destruct (IH _ Hp) as (j & a & b & Hj & Ho & Hpath).
    destruct (in_tree_read _ _ _ _ _ _ _ Hok Ho) as (n & f' & nx & lx & ix & Hn & Hr' & Hrep & _). rewrite Hr in Hr'. injection Hr' as <-.
    destruct j as [|j].
    { destruct (load_rep_0 CAPACITY junkE junkK Hpar _ _ _ _ _ _ _ _ _ Hrep Hn) as (_ & _ & _ & _ & _ & ? & ? & _). done. }
    destruct (load_rep_S CAPACITY junkE junkK Hpar _ _ _ _ _ _ _ _ _ _ Hrep Hn) as (i & ids' & E & Hwf & Hself & Hmod & Hsync & Hne & _).
    injection E as <-. destruct Hsync as [Hs|Hs]; [simpl in Hs; congruence|]. rewrite (serialize_inner CAPACITY) in Hs by done. cbn [node_self_rep] in Hs.
    rewrite Hself in Hs.
    destruct (inner_child CAPACITY n0 k Hwf Hne) as (index' & pre & kt & c & post & Hloc' & Hpre & Hc' & Hl & _).
    rewrite Hloc in Hloc'. injection Hloc' as <-. destruct (boundary_child _ _ _ _ Hb) as [Ec _]. rewrite Ec, Ht, Hpre, Hc' in Hc. injection Hc as ->.
    exists j, (Some kt), (next_hi post b). split_and!; [simpl; lia| |].
    + eapply occ_child; [exact Ho|]. by rewrite <- Hl.
    + rewrite Hpath. erewrite route_S; [|done|done|by rewrite Hpre]. by rewrite fmap_cons, reverse_cons, <- app_assoc.
Qed.

(** ** The way up *)
Fixpoint climb fs (split : split_t) st : option state :=
  match fs with
  | [] => Some st
  | f :: rest => '(split, st) ← frame_write (is_nil rest) f split st; climb rest split st
  end.

Lemma frame_write_ok is_root f c child' split st2 n' r st1 st4 :
  InnerNode.self_rep_ (fr_node f) = fr_id f → node_self_rep child' = c →
  match split with
  | None => Some (NInner (fr_node f), None, close_at c child' st2)
  | Some (rchild, bkey) =>
      let i := InnerNode.mark_modified (fr_node f) in
      if InnerNode.size_ i <? CAPACITY then
        i' ← InnerNode.insert_inner_node (node_self_rep rchild) bkey (fr_target f + 1) i;
        let st := close_at (node_self_rep child') child' st2 in
        let st := close_at (node_self_rep rchild) rchild st in
        Some (NInner i', None, st)
      else
        let '(rrep, a') := allocate (alloc st2) in
        '(lt, rt, b) ← InnerNode.split_insert CAPACITY rrep junkK (fr_target f) (node_self_rep rchild) bkey i;
        let st := set_alloc a' st2 in
        let st := close_at (node_self_rep child') child' st in
        let st := close_at (node_self_rep rchild) rchild st in
        Some (NInner lt, Some (NInner rt, b), st)
  end = Some (n', r, st1) →
  finish is_root (fr_id f) n' r st1 = Some st4 →
  frame_write is_root f ((λ s, (child', s.1, s.2)) <$> split) (flushed c child' split st2) = Some ((λ s, (n', s.1, s.2)) <$> r, st4).
Proof using.
  intros Hself Hcs Hins Hfin. unfold ConcurrentMachine.frame_write, flushed. destruct split as [[rchild bkey]|].
  - rewrite Hcs in Hins. cbn [fmap option_fmap option_map fst snd]. cbn zeta in Hins.
    change (InnerNode.size_ (InnerNode.mark_modified (fr_node f))) with (InnerNode.size_ (fr_node f)) in Hins.
    destruct (InnerNode.size_ (fr_node f) <? CAPACITY).
    + apply bind_Some in Hins as (i' & Hi' & Hins). simplify_eq. destruct (insert_inner_shape _ _ _ _ _ Hi') as [Hs' Hm'].
      change (InnerNode.insert_inner_node (node_self_rep rchild) bkey (fr_target f + 1) (fr_node f) = Some i') in Hi'.
      rewrite Hi'. cbn [mbind option_bind]. rewrite write_close by done. by simplify_eq/=.
    + rewrite !close_alloc. destruct (allocate (alloc st2)) as [rrep a'].
      apply bind_Some in Hins as ([[lt rt] b] & Hsp & Hins). simplify_eq.
      destruct (split_insert_shape _ _ _ _ _ _ _ _ _ _ Hsp) as (Hs' & Hm1 & Hm2).
      change (InnerNode.split_insert CAPACITY rrep junkK (fr_target f) (node_self_rep rchild) bkey (fr_node f) = Some (lt, rt, b)) in Hsp.
      rewrite Hsp. cbn [mbind option_bind].
      rewrite (flush_split_finish _ _ _ _ _ _ b) by done. rewrite !close_set_alloc in Hfin. by rewrite Hfin.
  - simplify_eq. simpl in Hfin. injection Hfin as <-. done.
Qed.

Lemma insert_ws_self fuel j st l ids x a b n k v n' r st1 :
  tree_ok CAPACITY st l ids → in_tree st j x a b → j ≤ fuel → load x st = Some n → insert_ws fuel n k v st = Some (n', r, st1) →
  node_self_rep n' = x.
Proof using Hpar.
  intros Hok Ho Hj Hn Hins. destruct (in_tree_read _ _ _ _ _ _ _ Hok Ho) as (n0 & f' & nx & lx & ix & Hn0 & _ & Hrep & Hndx & _).
  destruct (pessimistic_ok CAPACITY junkE junkK Hpar j (S j) fuel k v [] x ix false ∅ st n n' r st1) as [Hself _]; try done; [lia|].
  split; [done|]. by exists a, b, f', nx, lx.
Qed.

(** The insertion of the sequential tree, cut at a node of its path. *)
Lemma descend_insert st l ids k v st' : ∀ fs cur,
  tree_ok CAPACITY st l ids → insert CAPACITY junkE junkK k v st = Some st' → path_ok st k fs cur →
  ∃ fuel n n' r st1 stf, depth_ st ≤ fuel + length fs ∧ load cur st = Some n ∧ insert_ws fuel n k v st = Some (n', r, st1) ∧
    finish (is_nil fs) cur n' r st1 = Some stf ∧ climb fs ((λ s, (n', s.1, s.2)) <$> r) stf = Some st'.
Proof using Hpar AllocatorLaws0.
  intros fs cur Hok Hins. revert cur. induction fs as [|f fs IH]; intros cur Hp.
  - simpl in Hp. subst cur. destruct (insert_finish CAPACITY junkE junkK _ _ _ _ Hins) as (n & n' & r & st1 & Hn & Hws & Hfin).
    assert (Hself : node_self_rep n' = root_ st) by (eapply (insert_ws_self (depth_ st) (depth_ st - 1)); try done; [apply occ_top|lia]).
    exists (depth_ st), n, n', r, st1, st'. split_and!; auto; lia.
  - pose proof Hp as Hp0. destruct Hp as (n0 & index & Hr & Hloc & Hb & Ht & Hc & Hp).
    destruct (IH _ Hp) as (fuel & n & n' & r & st1 & stf & Hfuel & Hn & Hws & Hfin & Hcl).
    destruct (path_place _ _ _ _ _ _ Hok Hp) as (j & a & b & Hj & Ho & _).
    destruct (path_place _ _ _ _ _ _ Hok Hp0) as (j' & a' & b' & Hj' & Ho' & _). simpl in Hj'.
    destruct (in_tree_read _ _ _ _ _ _ _ Hok Ho) as (n1 & f' & nx & lx & ix & Hn1 & Hr' & Hrep & _).
    rewrite Hn in Hn1. injection Hn1 as <-. rewrite Hr in Hr'. injection Hr' as <-. destruct j as [|j]; [lia|].
    destruct (load_rep_S CAPACITY junkE junkK Hpar _ _ _ _ _ _ _ _ _ _ Hrep Hn) as (i & ids' & E & _ & Hself & _). injection E as <-.
    destruct (boundary_child _ _ _ _ Hb) as [_ Hs1]. destruct fuel as [|fuel]; [lia|]. cbn [insert_with_split_support] in Hws. rewrite Hloc in Hws.
    cbn [mbind option_bind] in Hws. rewrite Hb in Hws. cbn [mbind option_bind] in Hws. rewrite <- Ht, Hc in Hws. cbn [mbind option_bind] in Hws.
    apply bind_Some in Hws as (child & Hcl' & Hws). apply bind_Some in Hws as ([[child' split] st2] & Hrec & Hws).
    assert (Hcs : node_self_rep child' = cur) by (eapply (insert_ws_self fuel j'); try done; lia).
    exists fuel, child, child', split, st2, (flushed cur child' split st2). split_and!; [simpl; lia|done|done|apply finish_false|].
    cbn [climb]. erewrite frame_write_ok; [|by rewrite Hs1|exact Hcs|exact Hws|exact Hfin]. exact Hcl.
Qed.

(** At the leaf, the insertion is what is written there and on the way up. *)
Lemma leaf_climb st l ids k v st' fs cur leaf :
  tree_ok CAPACITY st l ids → insert CAPACITY junkE junkK k v st = Some st' → path_ok st k fs cur → read_node cur st = Some (NLeaf leaf) →
  ∃ split stf, leaf_write (is_nil fs) k v leaf st = Some (split, stf) ∧ climb fs split stf = Some st'.
Proof using Hpar AllocatorLaws0.
  intros Hok Hins Hp Hr. destruct (descend_insert _ _ _ _ _ _ _ _ Hok Hins Hp) as (fuel & n & n' & r & st1 & stf & _ & Hn & Hws & Hfin & Hcl).
  destruct (path_place _ _ _ _ _ _ Hok Hp) as (j & a & b & Hj & Ho & _).
  destruct (in_tree_read _ _ _ _ _ _ _ Hok Ho) as (n1 & f' & nx & lx & ix & Hn1 & Hr' & Hrep & Hndx & _).
  rewrite Hn in Hn1. injection Hn1 as <-. rewrite Hr in Hr'. injection Hr' as <-. destruct j as [|j].
  2: { destruct (load_rep_S CAPACITY junkE junkK Hpar _ _ _ _ _ _ _ _ _ _ Hrep Hn) as (i & ids' & E & _). done. }
  destruct (load_rep_0 CAPACITY junkE junkK Hpar _ _ _ _ _ _ _ _ _ Hrep Hn) as (_ & _ & _ & _ & _ & n0 & E & Hwf & _ & _ & Hself & _). injection E as <-.
  exists ((λ s, (n', s.1, s.2)) <$> r), stf. split; [|done]. rewrite insert_ws_leaf in Hws.
  destruct (insert_ws_leaf_shape CAPACITY junkE junkK Hpar _ _ _ _ _ _ _ Hwf Hws) as (Hs' & Hmod & Hrm & _).
  unfold ConcurrentMachine.leaf_write. rewrite Hws. cbn [mbind option_bind]. rewrite Hs', Hself.
  assert (E : match r with
    | Some (rt, _) => flush_split CAPACITY junkK (is_nil fs) cur n' rt st1
    | None => Some (write_node cur n' st1) end = Some stf).
  { destruct r as [[rt b0]|]; [rewrite (flush_split_finish _ _ _ _ _ _ b0); [done|done|by eapply Hrm]|]. by rewrite write_close. }
  by rewrite E.
Qed.

(** ** What the writes touch *)
(** The next addresses the allocator gives out, and the allocator after them. *)
Fixpoint fresh (n : nat) (a : A) : list Z :=
  match n with 0 => [] | S n => (allocate a).1 :: fresh n (allocate a).2 end.
Fixpoint alloc_n (n : nat) (a : A) : A :=
  match n with 0 => a | S n => alloc_n n (allocate a).2 end.

Lemma fresh_add n m a : fresh (n + m) a = fresh n a ++ fresh m (alloc_n n a).
Proof using. revert a. induction n as [|n IH]; intros a; simpl; [done|]. by rewrite IH. Qed.

Lemma fresh_le n m a i : n ≤ m → i ∈ fresh n a → i ∈ fresh m a.
Proof using. intros Hn Hi. replace m with (n + (m - n)) by lia. rewrite fresh_add. apply elem_of_app. by left. Qed.

Lemma alloc_n_ok n : ∀ a q, alloc_wf a → room a (n + q) →
  alloc_wf (alloc_n n a) ∧ room (alloc_n n a) q ∧ (∀ i, i ∈ in_use (alloc_n n a) ↔ i ∈ in_use a ∨ i ∈ fresh n a) ∧
  ∀ i, i ∈ fresh n a → i ∉ in_use a.
Proof using AllocatorLaws0.
  clear Hpar. induction n as [|n IH]; intros a q Hwf Hr; simpl.
  - split_and!; [done|done| |]; set_solver.
  - destruct (allocate a) as [i a'] eqn:Ea. destruct (allocate_fresh _ _ _ _ Hwf Hr Ea) as (Hf & _ & Hu & Hwf' & Hr'). simpl.
    destruct (IH a' q Hwf' Hr') as (H1 & H2 & H3 & H4). rewrite Hu in *. split_and!; [done|done| |].
    + intros y. rewrite H3. set_solver.
    + intros y [->|Hy]%elem_of_cons; [done|]. apply H4 in Hy. set_solver.
Qed.

Definition upd (y : Z) (b : blk) st : state := set_blocks (<[y := b]> (blocks st)) st.

Lemma write_upd y b id n st : y ≠ id → write_node id n (upd y b st) = upd y b (write_node id n st).
Proof using. intros Hy. unfold write_node, upd, set_blocks. simpl. by rewrite insert_insert_ne. Qed.

(** The blocks that [F] writes are [id] and at most [n] new ones; it does not
    depend on the others; only at the root may it change the root. *)
Definition effect (is_root : bool) (id : Z) (n : nat) (F : state → option (split_t * state)) st : Prop :=
  ∀ r st', F st = Some (r, st') →
    (∀ y, y ∉ id :: fresh n (alloc st) → blocks st' !! y = blocks st !! y ∧ ∀ b, F (upd y b st) = Some (r, upd y b st')) ∧
    ∃ n', n' ≤ n ∧ alloc st' = alloc_n n' (alloc st) ∧
      ((root_ st' = root_ st ∧ depth_ st' = depth_ st) ∨
       is_root = true ∧ root_ st' ∈ fresh n' (alloc st) ∧ depth_ st' = S (depth_ st)).

Lemma write_effect is_root id n nd (s : split_t) st : effect is_root id n (λ st, Some (s, write_node id nd st)) st.
Proof using.
  intros r st' [= <- <-]. split_and!.
  - intros y [Hy _]%not_elem_of_cons. split; [simpl; by rewrite lookup_insert_ne|]. intros b. by rewrite write_upd.
  - exists 0. split_and!; [lia|done|by left].
Qed.

(** Both halves of a split node, the right one in a new block, and the new root. *)
Lemma flush_effect is_root id lt rt a' (s : split_t) st :
  allocate (alloc st) = (node_self_rep rt, a') →
  effect is_root id (if is_root then 2 else 1)
    (λ st, st ← flush_split CAPACITY junkK is_root id lt rt (set_alloc a' st); Some (s, st)) st.
Proof using.
  clear Hpar AllocatorLaws0. intros Ea r st' E. unfold flush_split in E |- *. destruct is_root; simpl.
  - rewrite Ea. simpl. unfold grow_root in E |- *. apply bind_Some in E as (st2 & E & [= <- <-]).
    apply bind_Some in E as (lk & -> & E). apply bind_Some in E as (rk & -> & E). cbn [mbind option_bind alloc write_node set_blocks set_alloc] in *.
    destruct (allocate a') as [rep a''] eqn:Ea'. apply bind_Some in E as (root & -> & E). cbn [mbind option_bind] in *. injection E as <-. simpl. split_and!.
    + intros y (Hy1 & [Hy2 [Hy3 _]%not_elem_of_cons]%not_elem_of_cons)%not_elem_of_cons.
      rewrite !lookup_insert_ne by done. split; [done|]. intros b. unfold upd, update_root_node_id_and_increase_tree_height, write_node, set_blocks, set_alloc. simpl. do 3 f_equal.
      rewrite (insert_insert_ne (blocks st) id y), (insert_insert_ne _ (node_self_rep rt) y), (insert_insert_ne _ rep y) by done. done.
    + exists 2. simpl. rewrite Ea. simpl. rewrite Ea'. split_and!; [lia|done|]. right. split_and!; [done| |simpl; lia]. set_solver.
  - rewrite Ea. simpl. injection E as <- <-. split_and!.
    + intros y (Hy1 & [Hy2 _]%not_elem_of_cons)%not_elem_of_cons. simpl. rewrite !lookup_insert_ne by done. split; [done|].
      intros b. unfold write_node, upd, set_blocks. simpl. do 3 f_equal.
      rewrite (insert_insert_ne (blocks st) id y), (insert_insert_ne _ (node_self_rep rt) y) by done. done.
    + exists 1. simpl. rewrite Ea. split_and!; [lia|done|by left].
Qed.

Lemma split_insert_right rrep target crep bkey i lt rt b :
  InnerNode.split_insert CAPACITY rrep junkK target crep bkey i = Some (lt, rt, b) → InnerNode.self_rep_ rt = rrep.
Proof using.
  unfold InnerNode.split_insert. intros E. apply bind_Some in E as (p & _ & E).
  apply bind_Some in E as ([lt' rt'] & E1 & E). apply bind_Some in E as (b' & _ & E). simplify_eq.
  destruct (target <? CAPACITY / 2); apply bind_Some in E1 as (pos & _ & E1); apply bind_Some in E1 as (x & E1 & E2);
    simplify_eq; [done|]. by apply insert_inner_shape in E1 as [-> _].
Qed.

Lemma frame_effect is_root f split st : effect is_root (fr_id f) (if is_root then 2 else 1) (frame_write is_root f split) st.
Proof using.
  unfold ConcurrentMachine.frame_write. destruct split as [[[lc rchild] bkey]|].
  - destruct (InnerNode.size_ (fr_node f) <? CAPACITY).
    + destruct (InnerNode.insert_inner_node _ _ _ _) as [i'|]; [apply write_effect|by intros r st' E].
    + intros r st' E. destruct (allocate (alloc st)) as [rrep a'] eqn:Ea. pose proof E as E0.
      apply bind_Some in E as ([[lt rt] b] & Hsp & E). cbn beta iota in E.
      destruct (flush_effect is_root (fr_id f) (NInner lt) (NInner rt) a' (Some (NInner lt, NInner rt, b)) st) with (r := r) (st' := st') as (H1 & H2).
      { cbn [node_self_rep]. by rewrite (split_insert_right _ _ _ _ _ _ _ _ Hsp). } { done. }
      split; [|done]. intros y Hy. destruct (H1 y Hy) as [Hb Hu]. split; [done|]. intros b'. specialize (Hu b'). cbn [alloc upd set_blocks] in *.
      rewrite Ea, Hsp. exact Hu.
  - destruct (InnerNode.modified_ (fr_node f)); [apply write_effect|]. intros r st' [= <- <-]. split; [by intros y Hy|]. exists 0. split_and!; [lia|done|by left].
Qed.

Lemma leaf_effect is_root k v leaf st :
  LeafNode.wf CAPACITY leaf → effect is_root (LeafNode.self_rep_ leaf) (if is_root then 2 else 1) (leaf_write is_root k v leaf) st.
Proof using Hpar.
  intros Hwf r st' E. unfold ConcurrentMachine.leaf_write in E |- *. cbn [insert_with_split_support] in E |- *.
  destruct (allocate (alloc st)) as [rrep a'] eqn:Ea.
  destruct (LeafNode.insert_with_split_live CAPACITY rrep junkE k v leaf) as (l' & r' & Hins & _ & Hself & _ & Hpost); [destruct Hpar; lia|done|apply Hpar|].
  rewrite Hins in E. cbn [mbind option_bind] in E. destruct r' as [[rt b]|].
  - destruct Hpost as (_ & Hsr & _). cbn [mbind option_bind node_self_rep] in E. rewrite Hself in E.
    destruct (flush_effect is_root (LeafNode.self_rep_ leaf) (NLeaf l') (NLeaf rt) a' (Some (NLeaf l', NLeaf rt, b)) st) with (r := r) (st' := st')
      as (H1 & H2); [by rewrite Ea; simpl; rewrite Hsr|done|].
    split; [|done]. intros y Hy. destruct (H1 y Hy) as [Hb Hu]. split; [done|]. intros b'. specialize (Hu b'). cbn [alloc upd set_blocks] in *.
    rewrite Ea, Hins. cbn [mbind option_bind node_self_rep]. rewrite Hself. exact Hu.
  - cbn [mbind option_bind node_self_rep] in E. rewrite Hself in E.
    destruct (write_effect is_root (LeafNode.self_rep_ leaf) (if is_root then 2 else 1) (NLeaf l') None st r st' E) as (H1 & H2).
    split; [|done]. intros y Hy. destruct (H1 y Hy) as [Hb Hu]. split; [done|]. intros b'. specialize (Hu b'). cbn [alloc upd set_blocks] in *.
    rewrite Ea, Hins. cbn [mbind option_bind node_self_rep]. rewrite Hself. exact Hu.
Qed.

Lemma climb_effect : ∀ fs split st g, climb fs split st = Some g →
  (∀ y, y ∉ (fr_id <$> fs) ++ fresh (length fs + 1) (alloc st) →
     blocks g !! y = blocks st !! y ∧ ∀ b, climb fs split (upd y b st) = Some (upd y b g)) ∧
  ∃ n', n' ≤ length fs + 1 ∧ alloc g = alloc_n n' (alloc st).
Proof using.
  induction fs as [|f fs IH]; intros split st g E.
  - injection E as <-. split; [done|]. exists 0. split; [lia|done].
  - cbn [climb] in E. apply bind_Some in E as ([split1 st1] & E1 & E2).
    destruct (frame_effect (is_nil fs) f split st split1 st1 E1) as (H1 & n1 & Hn1 & Ha1 & _).
    destruct (IH _ _ _ E2) as (G1 & n2 & Hn2 & Ha2).
    split.
    + intros y Hy. rewrite fmap_cons, <- app_comm_cons in Hy. apply not_elem_of_cons in Hy as [Hy1 Hy2]. apply not_elem_of_app in Hy2 as [Hy2 Hy3].
      destruct (H1 y) as [Hb Hu].
      { apply not_elem_of_cons. split; [done|]. intros Hin. apply Hy3. eapply fresh_le; [|exact Hin]. destruct fs; simpl; lia. }
      destruct fs as [|f' fs'].
      { injection E2 as <-. split; [done|]. intros b. cbn [climb]. by rewrite Hu. }
      destruct (G1 y) as [Hb2 Hu2].
      { apply not_elem_of_app. split; [done|]. rewrite Ha1. intros Hin. apply Hy3. eapply (fresh_le (n1 + (length (f' :: fs') + 1))); [simpl in *; lia|].
        rewrite fresh_add. apply elem_of_app. by right. }
      split; [by rewrite Hb2|]. intros b. cbn [climb]. rewrite Hu. apply Hu2.
    + destruct fs as [|f' fs'].
      * injection E2 as <-. exists n1. split; [simpl in *; lia|done].
      * exists (n1 + n2). split; [simpl in *; lia|]. rewrite Ha2, Ha1. clear. generalize (alloc st). induction n1 as [|n1 IH]; intros a; simpl; [done|]. apply IH.
Qed.
End path.
