(* ===== verification/ConcurrentInv.v ===== *)
(** The invariant of the interleaved threads of the concurrent tree.

    While a pessimistic insertion climbs, the blocks on its path do not form a
    tree. The invariant therefore speaks of the tree [g] that the climb will have
    made: between climbs it is the tree in the blocks. *)
From Stdlib Require Import ZArith Lia.
From stdpp Require Import base list gmap sorting numbers.
From S2P Require Import Prelude KV Leaf Inner Store Tree TreeRep TreeFoot TreeInsert TreeSearch TreeRoute TreePlace LockManager ConcurrentTree ConcurrentMachine ConcurrentSpec ConcurrentPath.
Import Locks.

(** ** The locks of all threads *)
Lemma count_perm id t held held' : held ≡ₚ held' → count id t held = count id t held'.
Proof. intros Hp. unfold count. by rewrite Hp. Qed.

Lemma locks_ok_perm held held' m : held ≡ₚ held' → locks_ok held m → locks_ok held' m.
Proof. intros Hp Hok id. rewrite <- !(count_perm id _ held held') by done. apply Hok. Qed.

Lemma count_elem id t held : mk_descriptor id t ∈ held ↔ 0 < count id t held.
Proof.
  unfold count. split.
  - intros Hin. assert (mk_descriptor id t ∈ filter (λ l, l = mk_descriptor id t) held) as Hf by (by apply list_elem_of_filter).
    destruct (filter _ held); [by apply elem_of_nil in Hf|simpl; lia].
  - intros Hlt. destruct (filter (λ l, l = mk_descriptor id t) held) as [|l f] eqn:E; [simpl in Hlt; lia|].
    assert (Hin : l ∈ filter (λ l, l = mk_descriptor id t) held) by (rewrite E; constructor). apply list_elem_of_filter in Hin as [-> Hin]. done.
Qed.

Lemma take_lock held m t id : locks_ok held m →
  match get_lock t id m with
  | Some (_, m') => locks_ok (mk_descriptor id t :: held) m'
  | None => ∃ l, l ∈ held ∧ l_id l = id
  end.
Proof.
  intros Hok. destruct (get_lock t id m) as [[l m']|] eqn:E.
  - destruct t; simpl in E; unfold get_read_lock, get_write_lock, on_mutex in E.
    + destruct (lock_shared _) as [x|] eqn:Ex; simplify_eq/=. by apply (lock_ok held m id READ_LOCK).
    + destruct (lock _) as [x|] eqn:Ex; simplify_eq/=. by apply (lock_ok held m id WRITE_LOCK).
  - destruct (Hok id) as (H1 & _ & H3 & _).
    assert (Hc : 0 < count id READ_LOCK held ∨ 0 < count id WRITE_LOCK held).
    { destruct t; simpl in E; unfold get_read_lock, get_write_lock, on_mutex in E.
      - unfold lock_shared in E. destruct (exclusive (get_or_create id m)); [right; lia|done].
      - unfold lock in E. destruct (exclusive (get_or_create id m)); [right; lia|]. simpl in E.
        destruct (Nat.ltb_spec 0 (shared_count (get_or_create id m))); [left; lia|done]. }
    destruct Hc as [Hc|Hc]; apply count_elem in Hc; eauto.
Qed.

Lemma drop_lock held m l : locks_ok (l :: held) m → ∃ m', release_lock l m = Some m' ∧ locks_ok held m'.
Proof.
  intros Hok. destruct l as [id t]. assert (Hr : is_Some (release_lock (mk_descriptor id t) m)).
  { destruct (Hok id) as (H1 & _ & H3 & _). rewrite !count_cons in H1, H3. unfold release_lock, on_mutex. simpl. destruct t.
    - rewrite decide_True in H1 by done. unfold unlock_shared. rewrite H1. simpl. eauto.
    - rewrite decide_True in H3 by done. unfold unlock. destruct (exclusive (get_or_create id m)); [simpl; eauto|lia]. }
  destruct Hr as [m' E]. exists m'. split; [done|]. exact (lstep_ok _ _ (ls_release [] (mk_descriptor id t) held m m' E) Hok).
Qed.

(** A write lock excludes the locks of the other threads. *)
Lemma write_excludes id held l h1 h2 m :
  locks_ok held m → held ≡ₚ h1 ++ h2 → wlock id ∈ h1 → l ∈ h2 → l_id l ≠ id.
Proof.
  intros Hok Hp H1 H2 E. destruct (Hok id) as (C1 & _ & C3 & C4). rewrite !(count_perm id _ _ _ Hp) in *.
  assert (Happ : ∀ t, count id t (h1 ++ h2) = count id t h1 + count id t h2) by (intros t; unfold count; by rewrite list.filter_app, length_app).
  rewrite !Happ in *. apply count_elem in H1. destruct l as [id' t]. simpl in E. subst id'. apply count_elem in H2.
  destruct (exclusive (get_or_create id m)); [specialize (C4 eq_refl)|lia]. destruct t; lia.
Qed.

(** One thread among the others. *)
Section threads.
Context {X : Type} (f : pc → list X).
Definition gather (ps : list pc) : list X := ps ≫= f.

Lemma gather_split ps t p : ps !! t = Some p → gather ps ≡ₚ f p ++ gather (take t ps ++ drop (S t) ps).
Proof.
  intros Hp. unfold gather. rewrite <- (take_drop_middle ps t p Hp) at 1. rewrite !bind_app. simpl. solve_Permutation.
Qed.

Lemma gather_insert ps t p p' : ps !! t = Some p → gather (<[t := p']> ps) ≡ₚ f p' ++ gather (take t ps ++ drop (S t) ps).
Proof.
  intros Hp. apply lookup_lt_Some in Hp. rewrite (gather_split _ t p') by (by apply list_lookup_insert_eq).
  by rewrite take_insert_ge, drop_insert_lt by lia.
Qed.

Lemma gather_other ps t u q x : ps !! u = Some q → t ≠ u → x ∈ f q → x ∈ gather (take t ps ++ drop (S t) ps).
Proof.
  intros Hq Hne Hx. unfold gather. apply list_elem_of_bind. exists q. split; [done|]. apply elem_of_app.
  destruct (decide (u < t)); [left|right]; apply list_elem_of_lookup.
  - exists u. rewrite lookup_take_lt by lia. done.
  - exists (u - S t). rewrite lookup_drop. rewrite <- Hq. f_equal. lia.
Qed.

Lemma gather_elem ps t p x : ps !! t = Some p → x ∈ f p → x ∈ gather ps.
Proof. intros Hp Hx. apply list_elem_of_bind. exists p. split; [done|]. by eapply list_elem_of_lookup_2. Qed.
End threads.

Lemma lock_exclusion ps m t u p q id l :
  locks_ok (gather held_of ps) m → ps !! t = Some p → ps !! u = Some q → t ≠ u → wlock id ∈ held_of p → l ∈ held_of q → l_id l ≠ id.
Proof.
  intros Hok Hp Hq Hne Hw Hl. eapply write_excludes; [exact Hok|exact (gather_split held_of ps t p Hp)|done|]. by eapply gather_other.
Qed.

(** The nodes a climbing thread has still to write. *)
Definition dirty (p : pc) : list Z :=
  match p with PEnd _ _ fs | PClimb _ fs => fr_id <$> fs | _ => [] end.

(** The threads past the root of a pessimistic insertion. *)
Definition rooted (p : pc) : Prop :=
  match p with
  | PRead _ _ _ _ | PWrite _ _ _ _ _ => True
  | PLock _ _ _ fs | PCheck _ _ _ fs | PEnd _ _ fs | PClimb _ fs => fs ≠ []
  | _ => False
  end.

Section inv.
Context {A : Type} `{!Allocator A} `{!AllocatorLaws A}.
Context (CAPACITY : nat) (junkE : list (Z * Z)) (junkK : list Z).
Context (Hpar : params_ok CAPACITY junkE junkK).

Local Abbreviation state := (tree_state A).
Local Abbreviation read_node := (read_node CAPACITY junkE junkK).
Local Abbreviation path_ok := (path_ok CAPACITY junkE junkK).
Local Abbreviation climb := (climb CAPACITY junkK).
Implicit Types (st g : state) (D : list Z).

(** ** The threads *)
(** The node [x] is in the tree, and nothing below it is still to be written. *)
Definition spot st g D (j : nat) (x : Z) (a b : option Z) : Prop :=
  in_tree g j x a b ∧ ∀ j' y a' b', occ j (blocks g) x a b j' y a' b' → y ∉ D ∧ y ∈ in_use (alloc st).
(** The search for [k] goes through [x]. *)
Definition verified st g D (k : Z) (j : nat) (x : Z) : Prop :=
  ∃ a b, spot st g D j x a b ∧ within a b k.
(** It goes through [par] to its child [x]. *)
Definition linked st g D (k : Z) (j : nat) (par x : Z) : Prop :=
  ∃ a b pre kt post, spot st g D (S j) par a b ∧
    blocks g !! par = Some (BInner (pre ++ (kt, x) :: post).*1 (pre ++ (kt, x) :: post).*2 par) ∧ within (Some kt) (next_hi post b) k.
(** The root id and the height that were read, the root id first. *)
Definition root_seen st (id d : Z) : Prop :=
  id ∈ in_use (alloc st) ∧ (root_ st = id → d = Z.of_nat (depth_ st)).
(** The climb will make [g]; it holds the lock of the root. *)
Definition climbing st g (split : split_t) (fs : list frame) : Prop :=
  fs ≠ [] → climb fs split st = Some g ∧ fr_id <$> list.last fs = Some (root_ st) ∧ room (alloc st) (length fs + 1).

Definition thread_ok st g D (p : pc) : Prop :=
  match p with
  | SLock k id (Some par) | SCheck k id (Some par) => ∃ j, linked st g D k j par id
  | SRead k id => ∃ j, verified st g D k j id
  | ORoot _ _ (Some _) | OHeight _ _ None => False
  | OHeight _ _ (Some id) => id ∈ in_use (alloc st)
  | OLock _ _ id d None | OCheck _ _ id d None => root_seen st id d
  | OLock k _ id d (Some par) | OCheck k _ id d (Some par) => ∃ j, linked st g D k j par id ∧ d = Z.of_nat (S j)
  | ORead k _ id d => ∃ j, verified st g D k j id ∧ d = Z.of_nat (S j)
  | OWrite k _ id d leaf =>
      verified st g D k 0 id ∧ d = 1%Z ∧ read_node id st = Some (NLeaf leaf) ∧ LeafNode.size_ leaf ≠ CAPACITY
  | PLock k _ id fs | PCheck k _ id fs => fs ≠ [] → path_ok st k fs id
  | PRead k _ id fs => path_ok st k fs id
  | PWrite k _ id leaf fs => path_ok st k fs id ∧ read_node id st = Some (NLeaf leaf)
  | PEnd _ split fs | PClimb split fs => climbing st g split fs
  | _ => True
  end.

(** ** The machine *)
Record inv (n : nat) (s : machine (A := A)) (M : gmap Z Z) (g : state) : Prop := mk_inv {
  inv_tree : ∃ l ids, tree_ok CAPACITY g l ids ∧ kv_map l = M;
  inv_room : room (alloc g) (n * (depth_ g + n + 1));
  inv_locks : locks_ok (gather held_of (m_threads s)) (m_locks s);
  inv_alloc : alloc_wf (alloc (m_tree s));
  inv_root : root_ (m_tree s) ∈ in_use (alloc (m_tree s));
  inv_threads : ∀ t p, m_threads s !! t = Some p → thread_ok (m_tree s) g (gather dirty (m_threads s)) p;
  inv_quiet : gather dirty (m_threads s) = [] → m_tree s = g }.

Lemma spot_weaken st g D D' j x a b : (∀ y, y ∈ D' → y ∈ D) → spot st g D j x a b → spot st g D' j x a b.
Proof using. intros HD [Ho Hs]. split; [done|]. intros j' y a' b' Hy. destruct (Hs _ _ _ _ Hy). naive_solver. Qed.

(** The parts of the state that a thread depends on. *)
Lemma thread_ok_transfer st g D st' g' D' p :
  thread_ok st g D p →
  (∀ y, y ∈ in_use (alloc st) → y ∈ in_use (alloc st')) →
  ((root_ st' = root_ st ∧ depth_ st' = depth_ st) ∨ root_ st' ∉ in_use (alloc st)) →
  (∀ j x a b t, mk_descriptor x t ∈ held_of p → spot st g D j x a b → spot st' g' D' j x a b) →
  (∀ x t j a b ks cs i, mk_descriptor x t ∈ held_of p → spot st g D j x a b → blocks g !! x = Some (BInner ks cs i) → blocks g' !! x = Some (BInner ks cs i)) →
  (∀ k v id d leaf, p = OWrite k v id d leaf → verified st g D k 0 id → read_node id st = Some (NLeaf leaf) → read_node id st' = Some (NLeaf leaf)) →
  (rooted p → thread_ok st' g' D' p) →
  thread_ok st' g' D' p.
Proof using.
  intros Hok Hu Hroot Hspot Hblk Hleaf Hrt.
  assert (Hlink : ∀ k j par x t, mk_descriptor par t ∈ held_of p → linked st g D k j par x → linked st' g' D' k j par x).
  { intros k j par x t Ht (a & b & pre & kt & post & Hs & Hb & Hw). exists a, b, pre, kt, post. split_and!; [by eapply Hspot|by eapply Hblk|done]. }
  assert (Hver : ∀ k j x t, mk_descriptor x t ∈ held_of p → verified st g D k j x → verified st' g' D' k j x).
  { intros k j x t Ht (a & b & Hs & Hw). exists a, b. split; [by eapply Hspot|done]. }
  assert (Hseen : ∀ id d, root_seen st id d → root_seen st' id d).
  { intros id d [Hin Hd]. split; [by apply Hu|]. intros E. destruct Hroot as [[Hr ->]|Hr]; [apply Hd; congruence|]. congruence. }
  destruct p; try exact I; try (destruct parent); try (destruct root); try (destruct height); try exact I; try exact Hok;
    cbn [thread_ok] in Hok |- *; auto.
  all: lazymatch goal with
    | |- ∃ j, linked _ _ _ _ _ _ _ => destruct Hok as (j & Hl); exists j; eapply Hlink; [|exact Hl]; repeat constructor
    | |- ∃ j, linked _ _ _ _ _ _ _ ∧ _ => destruct Hok as (j & Hl & ->); exists j; split; [|done]; eapply Hlink; [|exact Hl]; repeat constructor
    | |- ∃ j, verified _ _ _ _ _ _ => destruct Hok as (j & Hl); exists j; eapply Hver; [|exact Hl]; constructor
    | |- ∃ j, verified _ _ _ _ _ _ ∧ _ => destruct Hok as (j & Hl & ->); exists j; split; [|done]; eapply Hver; [|exact Hl]; constructor
    | _ => idtac
    end.
  - destruct Hok as (Hv & -> & Hr & Hsz). split_and!; [|done|by eapply Hleaf|done]. eapply Hver; [|exact Hv]. constructor.
  - intros Hne. by apply Hrt.
  - intros Hne. by apply Hrt.
  - by apply Hrt.
  - by apply Hrt.
  - intros Hne. by apply Hrt.
  - intros Hne. by apply Hrt.
Qed.

Lemma thread_ok_weaken st g D D' p : (∀ y, y ∈ D' → y ∈ D) → thread_ok st g D p → thread_ok st g D' p.
Proof using.
  intros HD Hok. eapply thread_ok_transfer; [exact Hok|done|by left| |done|done|].
  - intros j x a b _ _. by apply spot_weaken.
  - destruct p; try done.
Qed.

(** ** The owner of the root *)
Lemma path_root st k fs cur : path_ok st k fs cur → wlock (root_ st) ∈ wlock cur :: frame_locks fs.
Proof using.
  revert cur. induction fs as [|f fs IH]; intros cur; simpl; [intros ->; constructor|].
  intros (n0 & index & _ & _ & _ & _ & _ & Hp). right. by apply IH.
Qed.

Lemma path_root_frames st k fs cur : fs ≠ [] → path_ok st k fs cur → wlock (root_ st) ∈ frame_locks fs.
Proof using.
  destruct fs as [|f fs]; [done|]. intros _ (n0 & index & _ & _ & _ & _ & _ & Hp). by apply path_root in Hp.
Qed.

Lemma path_last st k fs cur : fs ≠ [] → path_ok st k fs cur → fr_id <$> list.last fs = Some (root_ st).
Proof using.
  revert cur. induction fs as [|f fs IH]; intros cur; [done|]. intros _ (n0 & index & _ & _ & _ & _ & _ & Hp). destruct fs as [|f' fs].
  - simpl in Hp |- *. by rewrite Hp.
  - rewrite last_cons_cons. by eapply IH.
Qed.

Lemma last_lock fs x : fr_id <$> list.last fs = Some x → wlock x ∈ frame_locks fs.
Proof using.
  intros E. apply fmap_Some in E as (f & Hf & ->). apply last_Some_elem_of in Hf. unfold frame_locks. apply list_elem_of_fmap. by exists f.
Qed.

Lemma rooted_lock st g D p : rooted p → thread_ok st g D p → wlock (root_ st) ∈ held_of p.
Proof using.
  destruct p; simpl; try done; intros Hr Hok.
  - by eapply path_root_frames, Hok.
  - right. by eapply path_root_frames, Hok.
  - by eapply path_root.
  - by eapply path_root, Hok.
  - right. by apply last_lock, Hok.
  - by apply last_lock, Hok.
Qed.

Lemma rooted_alone n s M g t u p q :
  inv n s M g → m_threads s !! t = Some p → m_threads s !! u = Some q → rooted p → rooted q → t = u.
Proof using.
  intros Hinv Hp Hq Hrp Hrq. destruct (decide (t = u)) as [|Hne]; [done|]. exfalso.
  pose proof (rooted_lock _ _ _ _ Hrp (inv_threads _ _ _ _ Hinv _ _ Hp)) as H1.
  pose proof (rooted_lock _ _ _ _ Hrq (inv_threads _ _ _ _ Hinv _ _ Hq)) as H2.
  exact (lock_exclusion _ _ _ _ _ _ _ _ (inv_locks _ _ _ _ Hinv) Hp Hq Hne H1 H2 eq_refl).
Qed.

Lemma dirty_rooted p y : y ∈ dirty p → rooted p.
Proof using. destruct p; simpl; try (intros []%elem_of_nil); by destruct frames; [intros []%elem_of_nil|]. Qed.

(** Only the owner of the root writes on its path. *)
Lemma owner_dirty n s M g t p :
  inv n s M g → m_threads s !! t = Some p → rooted p → ∀ y, y ∈ gather dirty (m_threads s) → y ∈ dirty p.
Proof using.
  intros Hinv Hp Hr y Hy. apply list_elem_of_bind in Hy as (q & Hy & Hq). apply list_elem_of_lookup in Hq as [u Hq].
  assert (t = u) as -> by (eapply rooted_alone; eauto using dirty_rooted). congruence.
Qed.

Lemma owner_quiet n s M g t p :
  inv n s M g → m_threads s !! t = Some p → rooted p → dirty p = [] → m_tree s = g ∧ gather dirty (m_threads s) = [].
Proof using.
  intros Hinv Hp Hr Hd. assert (E : gather dirty (m_threads s) = []).
  { destruct (gather dirty (m_threads s)) as [|y D] eqn:ED; [done|]. exfalso.
    assert (Hy : y ∈ dirty p) by (eapply owner_dirty; [done..|rewrite ED; constructor]). rewrite Hd in Hy. by apply elem_of_nil in Hy. }
  split; [|done]. by apply (inv_quiet _ _ _ _ Hinv).
Qed.

(** A thread that holds the root by any lock finds no climb under way. *)
Lemma root_held_quiet n s M g t p ty :
  inv n s M g → m_threads s !! t = Some p → ¬ rooted p → mk_descriptor (root_ (m_tree s)) ty ∈ held_of p →
  m_tree s = g ∧ gather dirty (m_threads s) = [].
Proof using.
  intros Hinv Hp Hr Hl. assert (E : gather dirty (m_threads s) = []).
  { destruct (gather dirty (m_threads s)) as [|y D] eqn:ED; [done|]. exfalso.
    assert (Hy : y ∈ gather dirty (m_threads s)) by (rewrite ED; constructor).
    apply list_elem_of_bind in Hy as (q & Hy & Hq). apply list_elem_of_lookup in Hq as [u Hq]. apply dirty_rooted in Hy.
    assert (Hne : u ≠ t) by congruence. pose proof (rooted_lock _ _ _ _ Hy (inv_threads _ _ _ _ Hinv _ _ Hq)) as H1.
    exact (lock_exclusion _ _ _ _ _ _ _ _ (inv_locks _ _ _ _ Hinv) Hq Hp Hne H1 Hl eq_refl). }
  split; [|done]. by apply (inv_quiet _ _ _ _ Hinv).
Qed.

(** Outside the path that is being written, the blocks are those of [g]. *)
Lemma inv_agree n s M g y :
  inv n s M g → y ∉ gather dirty (m_threads s) → y ∈ in_use (alloc (m_tree s)) → blocks g !! y = blocks (m_tree s) !! y.
Proof using AllocatorLaws0.
  intros Hinv Hy Hu. destruct (gather dirty (m_threads s)) as [|z D] eqn:ED; [by rewrite (inv_quiet _ _ _ _ Hinv)|].
  assert (Hz : z ∈ gather dirty (m_threads s)) by (rewrite ED; constructor).
  apply list_elem_of_bind in Hz as (q & Hz & Hq). apply list_elem_of_lookup in Hq as [u Hq].
  assert (Hsub : ∀ x, x ∈ dirty q → x ∈ z :: D).
  { intros x Hx. rewrite <- ED. apply list_elem_of_bind. exists q. split; [done|]. by apply list_elem_of_lookup_2 in Hq. }
  assert (Hc : ∃ split fs, fr_id <$> fs = dirty q ∧ climbing (m_tree s) g split fs ∧ fs ≠ []).
  { pose proof (inv_threads _ _ _ _ Hinv _ _ Hq) as Hok. destruct q; simpl in Hz; try by apply elem_of_nil in Hz.
    all: exists split, frames; split_and!; [done|exact Hok|]; intros ->; by apply elem_of_nil in Hz. }
  destruct Hc as (split & fs & Ed & Hc & Hne). destruct (Hc Hne) as (Hcl & _ & Hr).
  destruct (climb_effect _ _ _ _ _ _ Hcl) as (He & _). apply He. apply not_elem_of_app. split.
  - rewrite Ed. intros Hin. by apply Hy, Hsub.
  - intros Hin. rewrite <- (Nat.add_0_r (length fs + 1)) in Hr. destruct (alloc_n_ok _ _ _ (inv_alloc _ _ _ _ Hinv) Hr) as (_ & _ & _ & Hf).
    by apply Hf in Hin.
Qed.

(** ** What the threads find *)
Lemma linked_verified st g D k j par x : linked st g D k j par x → verified st g D k j x.
Proof using.
  intros (a & b & pre & kt & post & [Ho Hs] & Hb & Hw). exists (Some kt), (next_hi post b). split; [|done]. split.
  - by eapply occ_child.
  - intros j' y a' b' Hy. apply (Hs j' y a' b'). right. by exists pre, kt, x, post.
Qed.

Lemma root_verified n s M g k :
  inv n s M g → m_tree s = g → gather dirty (m_threads s) = [] →
  verified (m_tree s) g (gather dirty (m_threads s)) k (depth_ g - 1) (root_ g).
Proof using.
  intros Hinv Hst HD. destruct (inv_tree _ _ _ _ Hinv) as (l & ids & (Hd & (f & Hrep) & _ & Hin & _) & _).
  exists None, None. split; [|done]. split; [apply occ_top|]. intros j' y a' b' Hy. rewrite HD, Hst. split; [apply not_elem_of_nil|].
  apply Hin. by eapply occ_in.
Qed.

Lemma same_read x st g : blocks g !! x = blocks st !! x → read_node x g = read_node x st.
Proof using. unfold ConcurrentTree.read_node. by intros ->. Qed.

Lemma verified_read n s M g k j x :
  inv n s M g → verified (m_tree s) g (gather dirty (m_threads s)) k j x →
  ∃ nd, read_node x (m_tree s) = Some nd ∧
    match j with
    | 0 => ∃ leaf, nd = NLeaf leaf ∧ LeafNode.wf CAPACITY leaf ∧ LeafNode.self_rep_ leaf = x ∧ M !! k = kv_find k (LeafNode.live leaf) ∧
        blocks g !! x = Some (BLeaf (LeafNode.live leaf) (LeafNode.right_sibling_ leaf) x)
    | S j' => ∃ i index, nd = NInner i ∧ InnerNode.locate_child_index k i = Some index ∧ ((index < 0)%Z → M !! k = None) ∧
        ((0 ≤ index)%Z → ∃ c, InnerNode.child_rep_ i !! Z.to_nat index = Some c ∧
           linked (m_tree s) g (gather dirty (m_threads s)) k j' x c)
    end.
Proof using Hpar AllocatorLaws0.
  intros Hinv (a & b & Hspot & Hw). pose proof Hspot as [Ho Hs].
  destruct (inv_tree _ _ _ _ Hinv) as (l & ids & Hok & <-).
  destruct (in_tree_read CAPACITY junkE junkK Hpar _ _ _ _ _ _ _ Hok Ho) as (nd & f & nx & lx & ix & Hn & Hr & Hrep & _ & _ & Hk).
  destruct (Hs _ _ _ _ (occ_top _ _ _ _ _)) as [HxD Hxu].
  exists nd. split; [rewrite <- Hr; symmetry; apply same_read; by eapply inv_agree|]. specialize (Hk k Hw). destruct j as [|j].
  - destruct (load_rep_0 CAPACITY junkE junkK Hpar _ _ _ _ _ _ _ _ _ Hrep Hn) as (_ & _ & _ & Hb & _ & leaf & -> & Hwf & Hl & Hsib & Hself & _).
    exists leaf. split_and!; auto; [by rewrite Hk, kv_map_lookup, Hl|]. by rewrite Hl, Hsib.
  - destruct (load_rep_S CAPACITY junkE junkK Hpar _ _ _ _ _ _ _ _ _ _ Hrep Hn)
      as (i & ids' & -> & Hwf & Hself & Hmod & Hsync & Hne & _ & _ & Hkw & HR).
    destruct Hsync as [Hsy|Hsy]; [simpl in Hsy; congruence|]. rewrite (serialize_inner CAPACITY) in Hsy by done. cbn [node_self_rep] in Hsy.
    rewrite Hself in Hsy.
    destruct (inner_child CAPACITY i k Hwf Hne) as (index & pre & kt & c & post & Hloc & Hpre & Hc & Hl & Hge & Hlt).
    exists i, index. split_and!; [done|done| |].
    + intros Hi. rewrite Hk, kv_map_lookup. apply kv_find_missing. intros Hin. specialize (Hlt Hi).
      pose proof Hwf as (_ & _ & _ & Hsrt).
      destruct (reps_good _ _ _ _ _ _ _ (rep_good CAPACITY j (blocks g)) Hsrt (λ k0 Hk0, proj2 (Hkw k0 Hk0)) HR) as [_ Hg].
      destruct (Hg _ Hin) as (_ & k0 & c0 & r & E & Hle). rewrite E in Hlt. specialize (Hlt k0 ltac:(constructor)). lia.
    + intros Hi. rewrite Z.max_r in Hpre by done. exists c. split; [by rewrite Hpre|]. exists a, b, pre, kt, post. split_and!; [done|by rewrite <- Hl|].
      destruct (Hge Hi) as [Hle Hpost]. split; [simpl; lia|]. apply next_hi_below; [apply Hw|done].
Qed.

(** ** Steps *)
Local Abbreviation others t ps := (take t ps ++ drop (S t) ps).

(** A step that changes no block. *)
Lemma inv_local n s M g t p p' m' :
  inv n s M g → m_threads s !! t = Some p → dirty p' = dirty p →
  locks_ok (held_of p' ++ gather held_of (others t (m_threads s))) m' →
  thread_ok (m_tree s) g (gather dirty (m_threads s)) p' →
  inv n (mk_machine (m_tree s) m' (<[t := p']> (m_threads s))) M g.
Proof using.
  intros Hinv Hp Hd Hl Hok.
  assert (HD : gather dirty (<[t := p']> (m_threads s)) ≡ₚ gather dirty (m_threads s)).
  { rewrite (gather_insert _ _ _ _ _ Hp), (gather_split _ _ _ _ Hp). by rewrite Hd. }
  destruct Hinv as [H1 H2 H3 H4 H5 H6 H7]. split; cbn [m_tree m_locks m_threads]; try done.
  - eapply locks_ok_perm; [|exact Hl]. symmetry. by apply (gather_insert _ _ _ p).
  - intros u q Hq. eapply thread_ok_weaken; [intros y; by rewrite HD|]. apply list_lookup_insert_Some in Hq as [(-> & -> & _)|[_ Hq]]; [done|by eapply H6].
  - intros E. apply H7. apply Permutation_nil_r. by rewrite <- HD, E.
Qed.

Lemma locks_keep n s M g t p p' :
  inv n s M g → m_threads s !! t = Some p → held_of p' = held_of p →
  locks_ok (held_of p' ++ gather held_of (others t (m_threads s))) (m_locks s).
Proof using.
  intros Hinv Hp E. eapply locks_ok_perm; [|exact (inv_locks _ _ _ _ Hinv)]. rewrite E. by apply gather_split.
Qed.

Lemma locks_take n s M g t p p' ty id l m' :
  inv n s M g → m_threads s !! t = Some p → get_lock ty id (m_locks s) = Some (l, m') → held_of p' = mk_descriptor id ty :: held_of p →
  locks_ok (held_of p' ++ gather held_of (others t (m_threads s))) m'.
Proof using.
  intros Hinv Hp Hl E. pose proof (take_lock _ _ ty id (inv_locks _ _ _ _ Hinv)) as Hok. rewrite Hl in Hok.
  eapply locks_ok_perm; [|exact Hok]. rewrite E, (gather_split _ _ _ _ Hp). done.
Qed.

Lemma locks_drop n s M g t p p' l :
  inv n s M g → m_threads s !! t = Some p → held_of p ≡ₚ l :: held_of p' →
  ∃ m', release_lock l (m_locks s) = Some m' ∧ locks_ok (held_of p' ++ gather held_of (others t (m_threads s))) m'.
Proof using.
  intros Hinv Hp E. apply drop_lock. eapply locks_ok_perm; [|exact (inv_locks _ _ _ _ Hinv)].
  rewrite (gather_split _ _ _ _ Hp), E. done.
Qed.

(** An operation takes effect in a step, or it does not. *)
Definition advances (p : pc) (M : gmap Z Z) (p' : pc) (M' : gmap Z Z) : Prop :=
  (status_of p' = status_of p ∧ M' = M) ∨
  ∃ o, status_of p = Pending o ∧ M' = (perform o M).2 ∧ status_of p' = Answered (perform o M).1.

(** The lock a thread asks for. *)
Definition wanted (p : pc) : option Z :=
  match p with SLock _ id _ | OLock _ _ id _ _ | PLock _ _ id _ => Some id | _ => None end.

(** The steps that change the tree. *)
Definition changes (p : pc) : nat := match p with OWrite _ _ _ _ _ | PWrite _ _ _ _ _ => 1 | _ => 0 end.

(** What a step does to the tree: the nodes that the other threads hold keep their
    level, and the tree grows by one level at most. *)
Definition gentle (s : machine (A := A)) (t : nat) (p : pc) g g' : Prop :=
  (changes p = 0 → g' = g) ∧ depth_ g' ≤ depth_ g + changes p ∧
  ∀ u q x ty j a b, u ≠ t → m_threads s !! u = Some q → mk_descriptor x ty ∈ held_of q →
    spot (m_tree s) g (gather dirty (m_threads s)) j x a b → in_tree g' j x a b.

Lemma gentle_refl s t p g : gentle s t p g g.
Proof using. split_and!; [done|lia|]. by intros u q x ty j a b _ _ _ [Ho _]. Qed.

(** A step keeps the invariant; only a lock that is taken makes a thread wait. *)
Definition sound (n : nat) (s : machine (A := A)) (M : gmap Z Z) g (t : nat) (p : pc) (o : outcome (pc * manager * state)) : Prop :=
  match o with
  | Move (p', m', st') => ∃ M' g', inv n (mk_machine st' m' (<[t := p']> (m_threads s))) M' g' ∧ advances p M p' M' ∧ gentle s t p g g'
  | Wait => ∃ id l, wanted p = Some id ∧ l ∈ gather held_of (m_threads s) ∧ l_id l = id
  | Crash => False
  end.

Lemma sound_local n s M g t p p' m' :
  inv n s M g → m_threads s !! t = Some p → dirty p' = dirty p → status_of p' = status_of p →
  locks_ok (held_of p' ++ gather held_of (others t (m_threads s))) m' →
  thread_ok (m_tree s) g (gather dirty (m_threads s)) p' → sound n s M g t p (Move (p', m', m_tree s)).
Proof using. intros Hinv Hp Hd Hst Hl Hok. exists M, g. split_and!; [by eapply inv_local|by left|apply gentle_refl]. Qed.

Lemma sound_lock n s M g t p p' ty id :
  inv n s M g → m_threads s !! t = Some p → dirty p' = dirty p → status_of p' = status_of p → wanted p = Some id →
  held_of p' = mk_descriptor id ty :: held_of p → thread_ok (m_tree s) g (gather dirty (m_threads s)) p' →
  sound n s M g t p (locking (get_lock ty id (m_locks s)) (λ m, (p', m, m_tree s))).
Proof using.
  intros Hinv Hp Hd Hst Hw Hh Hok. unfold locking. destruct (get_lock ty id (m_locks s)) as [[l m']|] eqn:E.
  - eapply sound_local; try done. by eapply locks_take.
  - pose proof (take_lock _ _ ty id (inv_locks _ _ _ _ Hinv)) as Hl. rewrite E in Hl. destruct Hl as (l & Hl1 & Hl2). by exists id, l.
Qed.

Lemma sound_release n s M g t p p' l :
  inv n s M g → m_threads s !! t = Some p → dirty p' = dirty p → status_of p' = status_of p →
  held_of p ≡ₚ l :: held_of p' → thread_ok (m_tree s) g (gather dirty (m_threads s)) p' →
  sound n s M g t p (running (m ← release_lock l (m_locks s); Some (p', m, m_tree s))).
Proof using.
  intros Hinv Hp Hd Hst Hh Hok. destruct (locks_drop _ _ _ _ _ _ _ _ Hinv Hp Hh) as (m' & -> & Hl). by eapply sound_local.
Qed.

Lemma sound_stay n s M g t p p' :
  inv n s M g → m_threads s !! t = Some p → dirty p' = dirty p → status_of p' = status_of p → held_of p' = held_of p →
  thread_ok (m_tree s) g (gather dirty (m_threads s)) p' → sound n s M g t p (Move (p', m_locks s, m_tree s)).
Proof using. intros. eapply sound_local; try done. by eapply locks_keep. Qed.
End inv.
