(* ===== verification/ConcurrentSteps.v ===== *)
(** Every step of every thread of the concurrent tree keeps the invariant. *)
From Stdlib Require Import ZArith Lia.
From stdpp Require Import base list gmap sorting numbers.
From S2P Require Import Prelude KV Leaf Inner Store Tree TreeRep TreeFoot TreeInsert TreeSearch TreeRoute TreePlace LockManager ConcurrentTree ConcurrentMachine ConcurrentSpec ConcurrentPath ConcurrentInv.
Import Locks.

Section steps.
Context {A : Type} `{!Allocator A} `{!AllocatorLaws A}.
Context (CAPACITY : nat) (junkE : list (Z * Z)) (junkK : list Z).
Context (Hpar : params_ok CAPACITY junkE junkK).

Local Abbreviation state := (tree_state A).
Local Abbreviation read_node := (read_node CAPACITY junkE junkK).
Local Abbreviation path_ok := (path_ok CAPACITY junkE junkK).
Local Abbreviation climb := (climb CAPACITY junkK).
Local Abbreviation inv := (inv CAPACITY junkE junkK).
Local Abbreviation sound := (sound CAPACITY junkE junkK).
Local Abbreviation thread_ok := (thread_ok CAPACITY junkE junkK).
Local Abbreviation search_step := (search_step CAPACITY junkE junkK).
Local Abbreviation optimistic_step := (optimistic_step CAPACITY junkE junkK true).
Local Abbreviation pessimistic_step := (pessimistic_step CAPACITY junkE junkK).
Implicit Types (st g : state) (s : machine (A := A)).

(** ** Search *)
Lemma search_sound n s M g t p :
  inv n s M g → m_threads s !! t = Some p →
  match p with SRoot _ | SLock _ _ _ | SCheck _ _ _ | SFail _ _ | SRead _ _ | SEnd _ _ => True | _ => False end →
  sound n s M g t p (search_step p (m_locks s) (m_tree s)).
Proof using Hpar AllocatorLaws0.
  intros Hinv Hp Hpc. pose proof (inv_threads _ _ _ _ _ _ _ Hinv _ _ Hp) as Hok.
  destruct p as [|k|k id par|k id par|k id|k id|id found| | | | | | | | | | | | | | | | | |]; try done; cbn [ConcurrentMachine.search_step].
  - by eapply sound_stay.
  - by eapply (sound_lock _ _ _ _ _ _ _ _ _ _ READ_LOCK).
  - destruct par as [par|].
    + eapply sound_release; try done; [solve_Permutation|]. destruct Hok as [j Hj]. exists j. by eapply linked_verified.
    + unfold get_root_id. destruct (Z.eqb_spec (root_ (m_tree s)) id) as [<-|]; cbn [negb]; [|by eapply sound_stay].
      destruct (root_held_quiet _ _ _ _ _ _ _ _ _ READ_LOCK Hinv Hp) as [Hst HD]; [tauto|constructor|].
      eapply sound_stay; try done. exists (depth_ g - 1). rewrite Hst at 2. by eapply root_verified.
  - by eapply sound_release.
  - destruct Hok as [j Hj]. destruct (verified_read _ _ _ Hpar _ _ _ _ _ _ _ Hinv Hj) as (nd & Hr & Hnd). rewrite Hr. cbn [mbind option_bind]. destruct j as [|j].
    + destruct Hnd as (leaf & -> & Hwf & _ & Hk & _). rewrite (LeafNode.search_live CAPACITY) by done. cbn [mbind option_bind running].
      exists M, g. split_and!; [eapply inv_local; try done; by eapply locks_keep| |apply gentle_refl]. right. exists (Search k). simpl. by rewrite Hk.
    + destruct Hnd as (i & index & -> & Hloc & Hlt & Hge). rewrite Hloc. cbn [mbind option_bind]. destruct (Z.ltb_spec index 0) as [Hi|Hi].
      * cbn [running]. exists M, g. split_and!; [eapply inv_local; try done; by eapply locks_keep| |apply gentle_refl]. right. exists (Search k). simpl. by rewrite Hlt.
      * destruct (Hge Hi) as (c & -> & Hl). cbn [mbind option_bind running]. eapply sound_stay; try done. by exists j.
  - by eapply sound_release.
Qed.

(** ** A leaf is written *)
Lemma read_leaf_block st x es nx i nd : blocks st !! x = Some (BLeaf es nx i) → read_node x st = Some nd → ∃ leaf, nd = NLeaf leaf.
Proof using.
  unfold ConcurrentTree.read_node. intros ->. cbn [mbind option_bind deserialize]. destruct (_ <=? _); [|done]. intros [= <-]. eauto.
Qed.

Lemma read_upd_ne st x b y : y ≠ x → read_node y (upd x b st) = read_node y st.
Proof using. intros Hy. unfold ConcurrentTree.read_node. simpl. by rewrite lookup_insert_ne. Qed.

Lemma path_ok_write st k x es nx i b : ∀ fs cur,
  blocks st !! x = Some (BLeaf es nx i) → path_ok st k fs cur → path_ok (upd x b st) k fs cur.
Proof using.
  intros fs cur Hx. revert cur. induction fs as [|f fs IH]; intros cur; [done|]. intros (n0 & index & Hr & H1 & H2 & H3 & H4 & H5).
  exists n0, index. split_and!; auto. rewrite read_upd_ne; [done|]. intros E. rewrite E in Hr. destruct (read_leaf_block _ _ _ _ _ _ Hx Hr). done.
Qed.

Lemma spot_write st g D x es nx i es' nx' i' j y a b :
  blocks g !! x = Some (BLeaf es nx i) → i = x → i' = x →
  spot st g D j y a b → spot (upd x (BLeaf es' nx' i') st) (upd x (BLeaf es' nx' i') g) D j y a b.
Proof using.
  intros Hx -> -> [Ho Hs]. split; [by eapply occ_leaf_write|]. intros j' z a' b' Hz. simpl in *. apply (Hs j' z a' b').
  eapply (occ_leaf_write _ _ _ _ _ es nx x) in Hz; [|by rewrite lookup_insert_eq].
  by rewrite insert_insert_eq, insert_id in Hz.
Qed.

Lemma climbing_write st g split fs x b :
  alloc_wf (alloc st) → x ∈ in_use (alloc st) → x ∉ fr_id <$> fs → climbing CAPACITY junkK st g split fs →
  climbing CAPACITY junkK (upd x b st) (upd x b g) split fs.
Proof using AllocatorLaws0.
  intros Haw Hu Hx Hc Hne. destruct (Hc Hne) as (Hcl & Hroot & Hroom). split_and!; [|done|done].
  destruct (climb_effect _ _ _ _ _ _ Hcl) as (He & _). apply He. apply not_elem_of_app. split; [done|]. intros Hin.
  rewrite <- (Nat.add_0_r (length fs + 1)) in Hroom. destruct (alloc_n_ok _ _ _ Haw Hroom) as (_ & _ & _ & Hf). by apply Hf in Hin.
Qed.

Lemma owrite_inv n s M g t k v x leaf (r : bool) leaf' :
  inv n s M g → m_threads s !! t = Some (OWrite k v x 1 leaf) → LeafNode.insert CAPACITY k v leaf = Some (r, leaf') →
  inv n (mk_machine (write_node x (NLeaf leaf') (m_tree s)) (m_locks s) (<[t := OEnd x 1]> (m_threads s)))
    (<[k := v]> M) (write_node x (NLeaf leaf') g).
Proof using Hpar AllocatorLaws0.
  intros Hinv Hp Hins. pose proof (inv_threads _ _ _ _ _ _ _ Hinv _ _ Hp) as (Hv & _ & Hr & Hsz).
  destruct (verified_read _ _ _ Hpar _ _ _ _ _ _ _ Hinv Hv) as (nd & Hr' & leaf0 & -> & Hwf & Hself & _ & Hb).
  rewrite Hr in Hr'. injection Hr' as <-.
  destruct (LeafNode.insert_live CAPACITY k v leaf) as (l' & Hi & Hwf' & Hl' & Hsib & Hself' & _); [done|right; destruct Hwf; lia|].
  rewrite Hins in Hi. injection Hi as -> <-.
  destruct Hv as (a & b & Hspot & Hw). pose proof Hspot as [Ho Hs]. destruct (Hs _ _ _ _ (occ_top _ _ _ _ _)) as [HxD Hxu].
  set (blk := BLeaf (kv_insert k v (LeafNode.live leaf)) (LeafNode.right_sibling_ leaf) x).
  assert (Ew : ∀ st, write_node x (NLeaf leaf') st = upd x blk st).
  { intros st. unfold write_node, upd, blk. simpl. by rewrite Hl', Hsib, Hself', Hself. }
  rewrite !Ew. clear Ew.
  assert (Hbst : blocks (m_tree s) !! x = Some (BLeaf (LeafNode.live leaf) (LeafNode.right_sibling_ leaf) x)).
  { rewrite <- Hb. symmetry. by eapply inv_agree. }
  assert (HD : gather dirty (<[t := OEnd x 1]> (m_threads s)) ≡ₚ gather dirty (m_threads s)).
  { rewrite (gather_insert _ _ _ _ _ Hp), (gather_split _ _ _ _ Hp). done. }
  assert (Hexcl : ∀ u q l, m_threads s !! u = Some q → u ≠ t → l ∈ held_of q → l_id l ≠ x).
  { intros u q l Hq Hne Hl. eapply (lock_exclusion _ _ t u); [exact (inv_locks _ _ _ _ _ _ _ Hinv)|exact Hp|exact Hq|done|constructor|done]. }
  pose proof Hinv as [(l & ids & Hok & <-) Hroom Hlocks Halloc Hroot Hth Hq]. split; cbn [m_tree m_locks m_threads]; auto.
  - pose proof (tree_ok_sorted _ _ _ _ Hok) as Hsrt. destruct Hok as (Hd & (f & Hrep) & Hnd & Hin & Haw).
    exists (kv_insert k v l), ids. split; [|by apply kv_map_insert]. split_and!; auto. exists f. simpl. eapply leaf_insert_rep; try done.
    rewrite <- Hl'. rewrite (LeafNode.length_live CAPACITY) by done. by destruct Hwf' as (_ & ? & _).
  - eapply locks_ok_perm; [|exact Hlocks]. rewrite (gather_insert _ _ _ _ _ Hp), (gather_split _ _ _ _ Hp). done.
  - intros u q Hq'. eapply thread_ok_weaken; [intros y; by rewrite HD|]. apply list_lookup_insert_Some in Hq' as [(-> & <- & _)|[Hne Hq']]; [done|].
    pose proof (Hth _ _ Hq') as Hokq. eapply thread_ok_transfer; [exact Hokq|done|by left| | | |].
    + intros j y a' b' _ _. by eapply spot_write.
    + intros y ty j a' b' ks cs i _ _ Hy. simpl. rewrite lookup_insert_ne; [done|]. intros <-. congruence.
    + intros k' v' id d leaf1 -> _ Hr1. rewrite read_upd_ne; [done|]. apply (Hexcl u _ (mk_descriptor id (olock d))) in Hq'; [done|done|constructor].
    + intros Hrt. destruct q; try done; cbn [thread_ok] in Hokq |- *.
      * intros Hf. eapply path_ok_write; [done|by apply Hokq].
      * intros Hf. eapply path_ok_write; [done|by apply Hokq].
      * by eapply path_ok_write.
      * destruct Hokq as [Hpath Hr1]. split; [by eapply path_ok_write|]. rewrite read_upd_ne; [done|].
        apply (Hexcl u _ (wlock id)) in Hq'; [done|done|constructor].
      * eapply climbing_write; try done. intros Hx. apply HxD. by eapply (gather_elem dirty _ _ _ _ Hq').
      * eapply climbing_write; try done. intros Hx. apply HxD. by eapply (gather_elem dirty _ _ _ _ Hq').
  - intros E. rewrite Hq; [done|]. apply Permutation_nil_r. by rewrite <- HD, E.
Qed.

Lemma optimistic_sound n s M g t p :
  inv n s M g → m_threads s !! t = Some p →
  match p with
  | ORoot _ _ _ | OHeight _ _ _ | OLock _ _ _ _ _ | OCheck _ _ _ _ _ | OFail _ _ _ _ | ORead _ _ _ _ | OWrite _ _ _ _ _
  | ORefuse _ _ _ _ | OEnd _ _ => True
  | _ => False
  end → sound n s M g t p (optimistic_step p (m_locks s) (m_tree s)).
Proof using Hpar AllocatorLaws0.
  intros Hinv Hp Hpc. pose proof (inv_threads _ _ _ _ _ _ _ Hinv _ _ Hp) as Hok.
  destruct p as [| | | | | | |k v h|k v root|k v id d par|k v id d par|k v id d|k v id d|k v id d leaf|k v id d|id d| | | | | | | | |];
    try done; cbn [ConcurrentMachine.optimistic_step].
  - destruct h; [done|]. eapply sound_stay; try done. exact (inv_root _ _ _ _ _ _ _ Hinv).
  - destruct root as [id|]; [|done]. by eapply sound_stay.
  - by eapply sound_lock.
  - destruct par as [par|].
    + destruct Hok as (j & Hj & ->). eapply sound_release; try done; [simpl; solve_Permutation|]. exists j. split; [by eapply linked_verified|done].
    + unfold get_root_id. destruct (Z.eqb_spec (root_ (m_tree s)) id) as [<-|]; cbn [negb]; [|by eapply sound_stay].
      destruct (root_held_quiet _ _ _ _ _ _ _ _ _ (olock d) Hinv Hp) as [Hst HD]; [tauto|constructor|].
      destruct Hok as [_ Hd]. specialize (Hd eq_refl). eapply sound_stay; try done. exists (depth_ g - 1). split; [rewrite Hst at 2; by eapply root_verified|].
      destruct (inv_tree _ _ _ _ _ _ _ Hinv) as (l & ids & (H1 & _) & _). rewrite Hd, Hst. lia.
  - by eapply sound_release.
  - destruct Hok as (j & Hj & ->). destruct (verified_read _ _ _ Hpar _ _ _ _ _ _ _ Hinv Hj) as (nd & Hr & Hnd). rewrite Hr. cbn [mbind option_bind]. destruct j as [|j].
    + destruct Hnd as (leaf & -> & Hwf & _). destruct (Nat.eqb_spec (LeafNode.size_ leaf) CAPACITY); cbn [running]; by eapply sound_stay.
    + destruct Hnd as (i & index & -> & Hloc & Hlt & Hge). rewrite Hloc. cbn [mbind option_bind]. destruct (Z.ltb_spec index 0) as [Hi|Hi]; cbn [negb running].
      * by eapply sound_stay.
      * destruct (Hge Hi) as (c & -> & Hl). cbn [mbind option_bind running]. eapply sound_stay; try done.
        { cbn [held_of]. by rewrite Z.sub_add. } exists j. split; [done|]. lia.
  - pose proof Hok as (Hv & -> & Hr & Hsz).
    destruct (verified_read _ _ _ Hpar _ _ _ _ _ _ _ Hinv Hv) as (nd & Hr' & leaf0 & -> & Hwf & _). rewrite Hr in Hr'. injection Hr' as <-.
    destruct (LeafNode.insert_live CAPACITY k v leaf) as (l' & Hi & _); [done|right; destruct Hwf; lia|]. rewrite Hi. cbn [mbind option_bind running].
    eexists _, _. split_and!; [by eapply owrite_inv|right; by exists (Insert k v)|].
    split_and!; [done|simpl; lia|]. intros u q x ty j a b _ _ _ [Ho _].
    destruct (verified_read _ _ _ Hpar _ _ _ _ _ _ _ Hinv Hv) as (nd & Hr' & leaf0 & -> & _ & _ & _ & Hb). by eapply occ_leaf_write.
  - by eapply sound_release.
  - by eapply sound_release.
Qed.

(** ** Pessimistic insertion *)
(** The node at the end of a path. *)
Lemma path_read n s M g k fs cur :
  inv n s M g → m_tree s = g → path_ok g k fs cur →
  ∃ j nd, j + length fs = depth_ g - 1 ∧ read_node cur g = Some nd ∧ path_to CAPACITY junkE junkK g k = reverse (fr_id <$> fs) ++ route CAPACITY junkE junkK j g cur k ∧
    match nd with
    | NLeaf leaf => j = 0 ∧ LeafNode.wf CAPACITY leaf ∧ LeafNode.self_rep_ leaf = cur
    | NInner i => ∃ index i1 c, InnerNode.locate_child_index k i = Some index ∧
        (if (index <? 0)%Z then InnerNode.set_left_boundary k i else Some i) = Some i1 ∧
        InnerNode.child_rep_ i1 !! Z.to_nat (Z.max 0 index) = Some c
    end.
Proof using Hpar AllocatorLaws0.
  intros Hinv Hst Hpath. destruct (inv_tree _ _ _ _ _ _ _ Hinv) as (l & ids & Hok & _).
  destruct (path_place _ _ _ Hpar _ _ _ _ _ _ Hok Hpath) as (j & a & b & Hj & Ho & Hr).
  destruct (in_tree_read CAPACITY junkE junkK Hpar _ _ _ _ _ _ _ Hok Ho) as (nd & f & nx & lx & ix & Hn & Hrd & Hrep & _).
  exists j, nd. split_and!; [done..|]. destruct j as [|j].
  - destruct (load_rep_0 CAPACITY junkE junkK Hpar _ _ _ _ _ _ _ _ _ Hrep Hn) as (_ & _ & _ & _ & _ & leaf & -> & Hwf & _ & _ & Hself & _). done.
  - destruct (load_rep_S CAPACITY junkE junkK Hpar _ _ _ _ _ _ _ _ _ _ Hrep Hn) as (i & ids' & -> & Hwf & _ & _ & _ & Hne & _).
    destruct (inner_child CAPACITY i k Hwf Hne) as (index & pre & kt & c & post & Hloc & Hpre & Hc & Hl & _ & Hlt).
    destruct (index <? 0)%Z eqn:Ei.
    + apply Z.ltb_lt in Ei as Hi. destruct (live_head_kv _ Hne) as (k0 & c0 & rest & El). specialize (Hlt Hi). rewrite El in Hlt.
      destruct (InnerNode.set_left_boundary_live CAPACITY k i k0 c0 rest Hwf El) as (i1 & Hi1 & _); [apply Hlt; constructor|].
      exists index, i1, c. rewrite Ei. split_and!; [done|done|].
      destruct (boundary_child k i i1 index) as [-> _]; [by rewrite Ei|]. by rewrite Hpre.
    + exists index, i, c. rewrite Ei. split_and!; [done|done|by rewrite Hpre].
Qed.

(** The blocks outside the path are the same before and after the insertion. *)
Lemma pwrite_agree st l ids k v leaf cur fs split stf g' j q y :
  tree_ok CAPACITY st l ids → room (alloc st) (depth_ st + 1 + q) →
  LeafNode.wf CAPACITY leaf → LeafNode.self_rep_ leaf = cur → length fs = depth_ st - 1 →
  path_to CAPACITY junkE junkK st k = reverse (fr_id <$> fs) ++ route CAPACITY junkE junkK j st cur k →
  leaf_write CAPACITY junkE junkK (is_nil fs) k v leaf st = Some (split, stf) → climb fs split stf = Some g' →
  y ∈ in_use (alloc st) → y ∉ path_to CAPACITY junkE junkK st k →
  blocks stf !! y = blocks st !! y ∧ blocks g' !! y = blocks st !! y.
Proof using Hpar AllocatorLaws0.
  intros (Hd & _ & _ & _ & Haw) Hroom Hwf Hself Hlen Hpath Hlw Hcl Hu Hy.
  rewrite Hpath in Hy. apply not_elem_of_app in Hy as [Hy1 Hy2]. rewrite elem_of_reverse in Hy1.
  assert (Hcur : y ≠ cur) by (intros ->; apply Hy2, route_head).
  destruct (leaf_effect CAPACITY junkE junkK Hpar _ k v leaf st Hwf _ _ Hlw) as (He & n1 & Hn1 & Ha1 & _). rewrite Hself in He.
  assert (Hroom1 : room (alloc st) ((if is_nil fs then 2 else 1) + 0)) by (eapply room_le; [|exact Hroom]; destruct fs; simpl in *; lia).
  assert (E1 : blocks stf !! y = blocks st !! y).
  { apply He. apply not_elem_of_cons. split; [done|]. intros Hin. destruct (alloc_n_ok _ _ _ Haw Hroom1) as (_ & _ & _ & Hf). by apply Hf in Hin. }
  split; [done|]. destruct fs as [|f fs]; [injection Hcl as <-; done|].
  assert (Hroom2 : room (alloc st) (n1 + (length (f :: fs) + 1 + 0))) by (eapply room_le; [|exact Hroom]; simpl in *; lia).
  destruct (alloc_n_ok _ _ _ Haw Hroom2) as (Haw1 & Hr1 & Hu1 & _). rewrite <- E1.
  destruct (climb_effect _ _ _ _ _ _ Hcl) as (Hc & _). apply Hc. apply not_elem_of_app. split; [done|]. rewrite Ha1. intros Hin.
  destruct (alloc_n_ok _ _ _ Haw1 Hr1) as (_ & _ & _ & Hf). apply Hf in Hin. apply Hin, Hu1. by left.
Qed.

Lemma spot_pwrite st l ids k v q g' stf D' j x a b :
  tree_ok CAPACITY st l ids → room (alloc st) (depth_ st + 1 + q) → insert CAPACITY junkE junkK k v st = Some g' →
  (∀ y, y ∈ in_use (alloc st) → y ∉ path_to CAPACITY junkE junkK st k → blocks g' !! y = blocks st !! y) →
  (∀ y, y ∈ in_use (alloc st) → y ∈ in_use (alloc stf)) → (∀ y, y ∈ D' → y ∈ path_to CAPACITY junkE junkK st k) →
  x ∉ path_to CAPACITY junkE junkK st k → in_tree st j x a b → spot stf g' D' j x a b.
Proof using Hpar AllocatorLaws0.
  intros Hok Hroom Hins Hag Hu HD Hx Ho. split; [by eapply tree_insert_occ|]. intros j' y a' b' Hy.
  pose proof Hok as (_ & (f & Hrep) & Hnd & Hin & _).
  destruct (occ_off CAPACITY junkE junkK Hpar _ _ _ k _ _ _ _ _ _ _ _ _ _ Hrep Hnd Ho Hx) as (f' & nx & lx & ix & Hrx & Hix).
  assert (Hrx' : rep CAPACITY j (blocks g') x a b f' nx lx ix).
  { eapply rep_frame; [|exact Hrx]. intros z Hz. destruct (Hix z Hz) as [Hz1 Hz2]. apply Hag; [by apply Hin|done]. }
  destruct (Hix y) as [Hy1 Hy2]; [by eapply occ_in|]. split; [by intros H%HD|]. by apply Hu, Hin.
Qed.

Lemma pwrite_inv n s M g t k v cur leaf fs :
  inv (S n) s M g → m_threads s !! t = Some (PWrite k v cur leaf fs) →
  ∃ split stf g', leaf_write CAPACITY junkE junkK (is_nil fs) k v leaf (m_tree s) = Some (split, stf) ∧
    inv n (mk_machine stf (m_locks s) (<[t := PEnd cur split fs]> (m_threads s))) (<[k := v]> M) g' ∧
    gentle s t (PWrite k v cur leaf fs) g g'.
Proof using Hpar AllocatorLaws0.
  intros Hinv Hp. pose proof (inv_threads _ _ _ _ _ _ _ Hinv _ _ Hp) as [Hpath Hr].
  destruct (owner_quiet _ _ _ _ _ _ _ _ _ Hinv Hp I eq_refl) as [Hst HD]. set (st := m_tree s) in *. rewrite <- Hst in Hinv.
  destruct (path_read _ _ _ _ _ _ _ Hinv eq_refl Hpath) as (j & nd & Hj & Hr' & Hto & Hnd). rewrite Hr in Hr'. injection Hr' as <-.
  destruct Hnd as (-> & Hwf & Hself). simpl in Hj.
  pose proof Hinv as [(l & ids & Hok & HM) Hroom Hlocks Halloc Hroot Hth Hq]. fold st in Halloc, Hroot, Hth, Hq.
  set (q := n * (S (depth_ st) + n + 1)).
  assert (Hroom' : room (alloc st) (depth_ st + 1 + q)) by (eapply room_le; [|exact Hroom]; unfold q; nia).
  destruct (insert_ok CAPACITY junkE junkK Hpar k v st l ids q Hok Hroom') as (g' & ids' & Hins & Hok' & (_ & _ & Hr' & _)%step_ok_facts & Hd').
  destruct (leaf_climb CAPACITY junkE junkK Hpar _ _ _ _ _ _ _ _ _ Hok Hins Hpath Hr) as (split & stf & Hlw & Hcl).
  exists split, stf, g'. split; [done|].
  destruct (leaf_effect CAPACITY junkE junkK Hpar _ k v leaf st Hwf _ _ Hlw) as (He & n1 & Hn1 & Ha1 & Hrt). rewrite Hself in He.
  assert (Hd1 : 1 ≤ depth_ st) by (by destruct Hok). simpl in Hn1.
  assert (Hroom1 : room (alloc st) (n1 + (if is_nil fs then 0 else length fs + 1))) by (eapply room_le; [|exact Hroom']; destruct fs; simpl in *; lia).
  destruct (alloc_n_ok _ _ _ Halloc Hroom1) as (Haw1 & Hr1 & Hu1 & Hf1). rewrite <- Ha1 in Haw1, Hr1, Hu1.
  assert (Hu : ∀ y, y ∈ in_use (alloc st) → y ∈ in_use (alloc stf)) by (intros y Hy; apply Hu1; by left).
  assert (Hag : ∀ y, y ∈ in_use (alloc st) → y ∉ path_to CAPACITY junkE junkK st k → blocks stf !! y = blocks st !! y ∧ blocks g' !! y = blocks st !! y).
  { intros y Hy1 Hy2. eapply (pwrite_agree st l ids k v leaf cur fs split stf g' 0 q); try done. }
  assert (HD' : gather dirty (<[t := PEnd cur split fs]> (m_threads s)) ≡ₚ fr_id <$> fs).
  { rewrite (gather_insert _ _ _ _ _ Hp). pose proof (gather_split dirty _ _ _ Hp) as E. rewrite HD in E. symmetry in E. apply Permutation_nil_r in E.
    apply app_nil in E as [_ ->]. by rewrite app_nil_r. }
  assert (HDp : ∀ y, y ∈ gather dirty (<[t := PEnd cur split fs]> (m_threads s)) → y ∈ path_to CAPACITY junkE junkK st k).
  { intros y. rewrite HD', Hto, elem_of_app, elem_of_reverse. auto. }
  assert (Hex : ∀ u p ty x, m_threads s !! u = Some p → u ≠ t → mk_descriptor x ty ∈ held_of p → x ∉ path_to CAPACITY junkE junkK st k).
  { intros u p ty x Hu' Hne Hx Hin. eapply (lock_exclusion _ _ t u _ _ x _ Hlocks Hp Hu'); [done| |exact Hx|done]. rewrite Hto, elem_of_app, elem_of_reverse in Hin.
    cbn [held_of]. destruct Hin as [Hin|Hin]; [right|].
    - unfold frame_locks. apply list_elem_of_fmap in Hin as (f & -> & Hf). apply list_elem_of_fmap. by exists f.
    - simpl in Hin. apply list_elem_of_singleton in Hin as ->. constructor. }
  split.
  2: { split_and!; [done|simpl; rewrite <- Hst; lia|]. intros u p x ty j a b Hne Hu' Hx [Ho _]. rewrite <- Hst in Ho. eapply (tree_insert_occ CAPACITY junkE junkK Hpar k v st l ids q g'); try done. by eapply Hex. }
  split; cbn [m_tree m_locks m_threads].
  - exists (kv_insert k v l), ids'. split; [done|]. rewrite kv_map_insert; [by rewrite HM|]. by eapply tree_ok_sorted.
  - eapply room_le; [|exact Hr']. unfold q. nia.
  - eapply locks_ok_perm; [|exact Hlocks]. rewrite (gather_insert _ _ _ _ _ Hp), (gather_split _ _ _ _ Hp). done.
  - done.
  - destruct Hrt as [[-> _]|(_ & Hrt & _)]; [by apply Hu|]. apply Hu1. by right.
  - intros u p Hu'. apply list_lookup_insert_Some in Hu' as [(-> & <- & _)|[Hne Hu']].
    + intros Hfs. split_and!; [done| |by destruct fs]. destruct fs as [|f fs]; [done|]. destruct Hrt as [[-> _]|(? & _)]; [by eapply path_last|done].
    + pose proof (Hth _ _ Hu') as Hokp. eapply thread_ok_transfer; [exact Hokp|exact Hu| | | | |].
      * destruct Hrt as [?|(_ & Hrt & _)]; [by left|right]. by apply Hf1.
      * intros j x a b ty Hx [Ho _]. eapply (spot_pwrite st l ids k v q g' stf); try done; [by intros y Hy1 Hy2; apply Hag|by eapply Hex].
      * intros x ty j a b ks cs i Hx [_ Hsp] Hb. rewrite <- Hb. destruct (Hsp _ _ _ _ (occ_top _ _ _ _ _)) as [_ Hxu]. apply Hag; [done|by eapply Hex].
      * intros k' v' id d leaf1 -> (a & b & [_ Hsp] & _) Hrd. rewrite <- Hrd. apply same_read.
        destruct (Hsp _ _ _ _ (occ_top _ _ _ _ _)) as [_ Hxu]. apply Hag; [done|]. eapply (Hex _ _ (olock d)); [exact Hu'|done|constructor].
      * intros Hrp. exfalso. apply Hne. by eapply (rooted_alone _ _ _ _ _ _ _ t u).
  - intros E. apply (f_equal length) in E. rewrite HD', length_fmap in E. destruct fs; [|done]. by injection Hcl.
Qed.

Lemma climb_inv n s M g t split f fs :
  inv n s M g → m_threads s !! t = Some (PClimb split (f :: fs)) →
  ∃ split1 st1, frame_write CAPACITY junkK (is_nil fs) f split (m_tree s) = Some (split1, st1) ∧
    inv n (mk_machine st1 (m_locks s) (<[t := PEnd (fr_id f) split1 fs]> (m_threads s))) M g.
Proof using AllocatorLaws0.
  intros Hinv Hp. pose proof (inv_threads _ _ _ _ _ _ _ Hinv _ _ Hp) as Hc. destruct (Hc ltac:(done)) as (Hcl & Hlast & Hroom).
  cbn [ConcurrentPath.climb] in Hcl. apply bind_Some in Hcl as ([split1 st1] & Hw & Hcl). exists split1, st1. split; [done|].
  destruct (frame_effect CAPACITY junkK _ _ _ _ _ _ Hw) as (He & n1 & Hn1 & Ha1 & Hrt). set (st := m_tree s) in *.
  pose proof Hinv as [Htree Hroomg Hlocks Halloc Hroot Hth Hq]. fold st in Halloc, Hroot, Hth, Hq.
  assert (Hroom1 : room (alloc st) (n1 + (if is_nil fs then 0 else length fs + 1))) by (eapply room_le; [|exact Hroom]; destruct fs; simpl in *; lia).
  destruct (alloc_n_ok _ _ _ Halloc Hroom1) as (Haw1 & Hr1 & Hu1 & Hf1). rewrite <- Ha1 in Haw1, Hr1, Hu1.
  assert (Hroom2 : room (alloc st) ((if is_nil fs then 2 else 1) + 0)) by (eapply room_le; [|exact Hroom]; destruct fs; simpl in *; lia).
  destruct (alloc_n_ok _ _ _ Halloc Hroom2) as (_ & _ & _ & Hf2).
  assert (Hu : ∀ y, y ∈ in_use (alloc st) → y ∈ in_use (alloc st1)) by (intros y Hy; apply Hu1; by left).
  assert (HD : gather dirty (m_threads s) ≡ₚ fr_id f :: gather dirty (<[t := PEnd (fr_id f) split1 fs]> (m_threads s))).
  { rewrite (gather_insert _ _ _ _ _ Hp), (gather_split _ _ _ _ Hp). done. }
  split; cbn [m_tree m_locks m_threads]; try done.
  - eapply locks_ok_perm; [|exact Hlocks]. rewrite (gather_insert _ _ _ _ _ Hp), (gather_split _ _ _ _ Hp). done.
  - destruct Hrt as [[-> _]|(_ & Hrt & _)]; [by apply Hu|]. apply Hu1. by right.
  - intros u p Hu'. apply list_lookup_insert_Some in Hu' as [(-> & <- & _)|[Hne Hu']].
    + intros Hfs. destruct fs as [|f' fs]; [done|]. split_and!; [done| |done]. rewrite last_cons_cons in Hlast. destruct Hrt as [[-> _]|(? & _)]; done.
    + pose proof (Hth _ _ Hu') as Hokp. eapply thread_ok_transfer; [exact Hokp|exact Hu| | |done| |].
      * destruct Hrt as [?|(_ & Hrt & _)]; [by left|right]. by apply Hf1.
      * intros j x a b ty _ [Ho Hsp]. split; [done|]. intros j' y a' b' Hy. destruct (Hsp _ _ _ _ Hy) as [H1 H2].
        split; [|by apply Hu]. intros Hy'. apply H1. rewrite HD. by right.
      * intros k' v' id d leaf1 -> (a & b & [_ Hsp] & _) Hrd. rewrite <- Hrd. apply same_read.
        destruct (Hsp _ _ _ _ (occ_top _ _ _ _ _)) as [HxD Hxu]. apply He. apply not_elem_of_cons. split.
        -- intros ->. apply HxD. rewrite HD. constructor.
        -- intros Hin. by apply Hf2 in Hin.
      * intros Hrp. exfalso. apply Hne. by eapply (rooted_alone _ _ _ _ _ _ _ t u).
  - intros E. destruct fs as [|f' fs]; [by injection Hcl|]. exfalso.
    assert (Hin : fr_id f' ∈ gather dirty (<[t := PEnd (fr_id f) split1 (f' :: fs)]> (m_threads s))).
    { eapply (gather_elem dirty _ t); [apply list_lookup_insert_eq; by eapply lookup_lt_Some|]. constructor. }
    rewrite E in Hin. by apply elem_of_nil in Hin.
Qed.

Lemma inv_less n n' s M g : n' ≤ n → inv n s M g → inv n' s M g.
Proof using AllocatorLaws0. intros Hn [H1 H2 H3 H4 H5 H6 H7]. split; try done. eapply room_le; [|exact H2]. nia. Qed.

Lemma sound_less n n' s M g t p o : n' ≤ n → sound n s M g t p o → sound n' s M g t p o.
Proof using AllocatorLaws0.
  intros Hn. destruct o as [[[p' m'] st']| |]; simpl; try done. intros (M' & g' & Hi & Ha). exists M', g'. split; [|done]. by eapply inv_less.
Qed.

Lemma pessimistic_sound n s M g t p :
  inv (S n) s M g → m_threads s !! t = Some p →
  match p with
  | PRoot _ _ | PLock _ _ _ _ | PCheck _ _ _ _ | PFail _ _ _ | PRead _ _ _ _ | PWrite _ _ _ _ _ | PEnd _ _ _ | PClimb _ _ => True
  | _ => False
  end → sound n s M g t p (pessimistic_step p (m_locks s) (m_tree s)).
Proof using Hpar AllocatorLaws0.
  intros Hinv Hp Hpc. pose proof (inv_threads _ _ _ _ _ _ _ Hinv _ _ Hp) as Hok.
  pose proof (inv_less (S n) n _ _ _ ltac:(lia) Hinv) as Hinv'.
  destruct p as [| | | | | | | | | | | | | | | |k v|k v id fs|k v id fs|k v id|k v id fs|k v id leaf fs|id split fs|split fs|];
    try done; cbn [ConcurrentMachine.pessimistic_step].
  - by eapply sound_stay.
  - by eapply (sound_lock _ _ _ _ _ _ _ _ _ _ WRITE_LOCK).
  - unfold get_root_id. destruct fs as [|f fs]; cbn [is_nil andb].
    + destruct (Z.eqb_spec (root_ (m_tree s)) id) as [<-|]; cbn [negb]; by eapply sound_stay.
    + eapply sound_stay; try done. by apply Hok.
  - by eapply sound_release.
  - destruct (owner_quiet _ _ _ _ _ _ _ _ _ Hinv Hp I eq_refl) as [Hst HD]. cbn [ConcurrentInv.thread_ok] in Hok. rewrite Hst in Hok.
    destruct (path_read _ _ _ _ _ _ _ Hinv Hst Hok) as (j & nd & _ & Hr & _ & Hnd). rewrite Hst, Hr. cbn [mbind option_bind]. rewrite <- Hst in *.
    destruct nd as [leaf|i].
    + by eapply sound_stay.
    + destruct Hnd as (index & i1 & c & Hloc & Hi1 & Hc). rewrite Hloc. cbn [mbind option_bind]. rewrite Hi1. cbn [mbind option_bind]. rewrite Hc.
      eapply sound_stay; try done. intros _. by exists i, index.
  - destruct (pwrite_inv _ _ _ _ _ _ _ _ _ _ Hinv Hp) as (split & stf & g' & -> & Hi & Hg). cbn [mbind option_bind running].
    eexists _, _. split_and!; [exact Hi|right; by exists (Insert k v)|exact Hg].
  - by eapply sound_release.
  - destruct fs as [|f fs]; [by eapply sound_stay|].
    destruct (climb_inv _ _ _ _ _ _ _ _ Hinv' Hp) as (split1 & st1 & -> & Hi). cbn [mbind option_bind running]. exists M, g. split_and!; [done|by left|apply gentle_refl].
Qed.

Lemma thread_sound n s M g t p :
  inv (S n) s M g → m_threads s !! t = Some p → p ≠ Idle → (∀ r, p ≠ Done r) →
  sound n s M g t p (thread_step CAPACITY junkE junkK true p (m_locks s) (m_tree s)).
Proof using Hpar AllocatorLaws0.
  intros Hinv Hp Hi Hd. destruct p; try done; try (by destruct (Hd r)); cbn [thread_step];
    first [ by eapply pessimistic_sound
          | eapply (sound_less (S n)); [lia|]; first [by eapply search_sound|by eapply optimistic_sound] ].
Qed.
End steps.
