(* ===== verification/ConcurrentLin.v ===== *)
(** The concurrent tree under every interleaving of its threads: it is
    linearizable, it does not go wrong, it has no data race and no deadlock, as
    long as the root id is read before the height; in the other order an insertion
    can be lost. *)
From Stdlib Require Import ZArith Lia.
From stdpp Require Import base list gmap sorting numbers.
From S2P Require Import Prelude KV Leaf Inner Store Tree TreeRep TreeFoot TreeInsert TreeSearch TreeRoute TreePlace Alloc TreeSpec LockManager ConcurrentTree ConcurrentMachine ConcurrentSpec ConcurrentPath ConcurrentInv ConcurrentSteps.
Import Locks.

Section linearizable.
Context {A : Type} `{!Allocator A} `{!AllocatorLaws A}.
Context (CAPACITY : nat) (junkE : list (Z * Z)) (junkK : list Z).
Context (Hpar : params_ok CAPACITY junkE junkK).

Local Abbreviation state := (tree_state A).
Local Abbreviation inv := (inv CAPACITY junkE junkK).
Local Abbreviation act := (act CAPACITY junkE junkK true).
Local Abbreviation acts := (acts CAPACITY junkE junkK true).
Local Abbreviation thread_step := (thread_step CAPACITY junkE junkK true).
Implicit Types (st g : state) (s : machine (A := A)).














Definition writes (p : pc) st : list Z :=
  match p with
  | OWrite _ _ id _ _ => [id]
  | PWrite _ _ id _ fs => id :: fresh (if is_nil fs then 2 else 1) (alloc st)
  | PClimb _ (f :: fs) => fr_id f :: fresh (if is_nil fs then 2 else 1) (alloc st)
  | _ => []
  end.











End linearizable.

(** ** Three threads on a tree of one full leaf *)
Definition leaf4_ops : list op := [OInsert 10 1; OInsert 20 2; OInsert 30 3; OInsert 40 4].
Definition leaf4 : tree_state file_allocator := tree_of leaf4_ops.











(** ** The height read first *)
(** Threads 0 and 1 have read the height 1 when thread 2 splits the root; they then
    take the root id of the new root, and share the read lock of a leaf. *)
Definition stale_schedule : list action :=
  [Call 0 (Insert 50 5); Run 0; Call 1 (Insert 60 6); Run 1; Call 2 (Insert 45 7)] ++ replicate 14 (Run 2) ++
  replicate 7 (Run 0) ++ replicate 7 (Run 1).

(** C40: when the compiler evaluates [get_height()] before [get_root_id()], as C++
    allows, an insertion can be lost: both threads come to write the same leaf
    under a read lock, the second write undoes the first, both insertions return,
    and a search does not find the key of the first one. *)
Theorem stale_height_loses_insertion :
  ∃ s h s' h' q0 q1 leaf, acts 4 junkE4 junkK4 false stale_schedule (boot 3 leaf4) = Some (s, h) ∧
    m_threads s = [q0; q1; Idle] ∧ writes q0 (m_tree s) = [leaf] ∧ writes q1 (m_tree s) = [leaf] ∧
    acts 4 junkE4 junkK4 false (Run <$> [0; 1; 0; 1; 0; 1]) s = Some (s', h') ∧
    h' = [Returned 0 RDone; Returned 1 RDone] ∧ m_threads s' = [Idle; Idle; Idle] ∧
    search 4 junkE4 junkK4 50 (m_tree s') = Some None ∧ search 4 junkE4 junkK4 60 (m_tree s') = Some (Some 6%Z).
Proof.
  do 7 eexists. split; [vm_compute; reflexivity|]. split_and!; try (vm_compute; reflexivity).
Qed.
