(* ===== verification/BarrierFrame.v ===== *)
(** How the operations of the barrier table move contexts: a context waits in
    the queues of the barriers, is fired and becomes ready, and its tokens
    change only then. *)
From Stdlib Require Import ZArith Lia.
From stdpp Require Import base list gmap sorting numbers.
From S2P Require Import Prelude Barrier.

Module BarrierFrame.
Import Barrier.

(** ** Counting contexts in queues *)
Definition cnt (q : nat) (l : list nat) : nat := length (filter (λ x, x = q) l).

Lemma cnt_app q l1 l2 : cnt q (l1 ++ l2) = cnt q l1 + cnt q l2.
Proof. unfold cnt. by rewrite list.filter_app, length_app. Qed.
Lemma cnt_cons q x l : cnt q (x :: l) = (if decide (x = q) then 1 else 0) + cnt q l.
Proof. unfold cnt. rewrite filter_cons. by case_decide. Qed.
Lemma cnt_perm q l1 l2 : l1 ≡ₚ l2 → cnt q l1 = cnt q l2.
Proof. intros H. unfold cnt. by rewrite H. Qed.
Lemma cnt_pos q l : q ∈ l ↔ 0 < cnt q l.
Proof.
  induction l as [|x l IH]; [rewrite elem_of_nil; unfold cnt; simpl; lia|].
  rewrite elem_of_cons, cnt_cons, IH. case_decide; subst; [lia|]. split; [intros [?|?]; [congruence|lia]|lia].
Qed.
Lemma cnt_zero q l : cnt q l = 0 ↔ q ∉ l.
Proof. rewrite cnt_pos. lia. Qed.

Definition requests_of (b : option context_barrier) : list (nat * barrier_type) :=
  match b with Some b => pending_barrier_requests b | None => [] end.
Definition queue_of (b : option context_barrier) : list nat := (requests_of b).*1.

Definition waits (q : nat) (m : barrier_manager) : nat :=
  sum_list_with (λ b, cnt q (queue_of b)) (barrier_map_ m).

Lemma sum_list_zero {X} (f : X → nat) (l : list X) : sum_list_with f l = 0 ↔ ∀ i x, l !! i = Some x → f x = 0.
Proof.
  induction l as [|y l IH]; simpl; [done|]. split.
  - intros H [|i] x Hx; simpl in Hx; [simplify_eq; lia|]. apply (proj1 IH ltac:(lia) i x Hx).
  - intros H. rewrite (H 0 y eq_refl). apply IH. intros i x Hx. apply (H (S i) x Hx).
Qed.

Lemma waits_zero q m : waits q m = 0 ↔ not_waiting m q.
Proof.
  unfold waits. rewrite sum_list_zero. split.
  - intros H i b t Hb Hin. unfold barrier_at in Hb. destruct (i <? 0)%Z; [done|].
    destruct (barrier_map_ m !! Z.to_nat i) as [[b'|]|] eqn:E; simplify_eq/=.
    apply H in E. simpl in E. apply cnt_zero in E. apply E. apply list_elem_of_fmap. by exists (q, t).
  - intros H i [b|] Hb; [|done]. simpl. apply cnt_zero. intros Hin.
    apply list_elem_of_fmap in Hin as ([q' t] & -> & Hin). apply (H (Z.of_nat i) b t); [|done].
    unfold barrier_at. destruct (Z.ltb_spec (Z.of_nat i) 0); [lia|]. by rewrite Nat2Z.id, Hb.
Qed.

(** The barrier a request or a release works on: the table grows, then one
    barrier is replaced. *)
Lemma waits_put q i b b' w m m1 :
  get_or_create_barrier i m = Some (b, m1) →
  waits q (put_barrier i b' w m1) + cnt q (queue_of (Some b)) = waits q m + cnt q (queue_of (Some b')) ∧
  requests_of (barrier_at i m) = pending_barrier_requests b ∧ barrier_at i (put_barrier i b' w m1) = Some b' ∧
  (∀ j, j ≠ i → barrier_at j (put_barrier i b' w m1) = barrier_at j m) ∧ wd m1 = wd m ∧ (0 ≤ i)%Z.
Proof.
  unfold get_or_create_barrier. destruct (Z.ltb_spec i 0); [done|].
  set (map := barrier_map_ m ++ replicate _ None).
  assert (Hsum : sum_list_with (λ b, cnt q (queue_of b)) map = waits q m).
  { unfold map, waits. rewrite sum_list_with_app.
    assert (E : ∀ n, sum_list_with (λ b, cnt q (queue_of b)) (replicate n None) = 0).
    { induction n; simpl; auto. }
    rewrite E. lia. }
  assert (Hlen : Z.to_nat i < length map) by (unfold map; rewrite length_app, length_replicate; lia).
  assert (Hmap : ∀ j, mjoin (map !! j) = mjoin (barrier_map_ m !! j)).
  { intros j. unfold map. rewrite lookup_app. destruct (barrier_map_ m !! j); [done|].
    destruct (replicate _ None !! _) eqn:E; simpl; [|done].
    apply lookup_replicate_1 in E as [-> _]. done. }
  clearbody map. assert (Hgen : ∀ map', length map' = length map →
    sum_list_with (λ b, cnt q (queue_of b)) map' = waits q m →
    (∀ j, j ≠ Z.to_nat i → mjoin (map' !! j) = mjoin (map !! j)) →
    map' !! Z.to_nat i = Some (Some b) → requests_of (mjoin (map !! Z.to_nat i)) = pending_barrier_requests b →
    waits q (put_barrier i b' w (mk_manager map' (wd m))) + cnt q (queue_of (Some b)) = waits q m + cnt q (queue_of (Some b')) ∧
    requests_of (barrier_at i m) = pending_barrier_requests b ∧
    barrier_at i (put_barrier i b' w (mk_manager map' (wd m))) = Some b' ∧
    (∀ j, j ≠ i → barrier_at j (put_barrier i b' w (mk_manager map' (wd m))) = barrier_at j m) ∧
    wd m = wd m ∧ (0 ≤ i)%Z).
  { intros map' Hl Hs Hoth Hi Hq. split_and!; try done.
    - rewrite <- Hs. unfold waits, put_barrier. simpl.
      apply (sum_list_with_insert (λ b, cnt q (queue_of b)) map' (Z.to_nat i) (Some b) (Some b') Hi).
    - unfold barrier_at. destruct (Z.ltb_spec i 0); [lia|]. by rewrite <- Hmap.
    - unfold barrier_at, put_barrier. simpl. destruct (Z.ltb_spec i 0); [lia|].
      rewrite list_lookup_insert_eq by lia. done.
    - intros j Hj. unfold barrier_at, put_barrier. simpl. destruct (Z.ltb_spec j 0); [done|].
      rewrite list_lookup_insert_ne by lia. rewrite Hoth by lia. apply Hmap. }
  destruct (map !! Z.to_nat i) as [[b0|]|] eqn:E.
  - intros [= <- <-]. apply Hgen; auto.
  - intros [= <- <-]. apply Hgen; auto.
    + by rewrite length_insert.
    + pose proof (sum_list_with_insert (λ b, cnt q (queue_of b)) map (Z.to_nat i) None (Some (new_barrier i)) E) as Hi.
      simpl in Hi. rewrite <- Hsum. unfold cnt in *. simpl in *. lia.
    + intros j Hj. by rewrite list_lookup_insert_ne.
    + by rewrite list_lookup_insert_eq.
  - apply lookup_ge_None in E. lia.
Qed.

(** ** Firing *)
(** A context is as before, or it was fired by barrier [i] through one of the
    requests [fired]. *)
Definition moved (i : Z) (fired : list (nat * barrier_type)) (q : nat) (c c' : call_back_context) : Prop :=
  next_state c' = next_state c ∧
  ((c' = c ∧ q ∉ fired.*1) ∨ current_state c' = next_state c') ∧
  ∀ k, k ∈ obtained_barriers_ c' → k ∈ obtained_barriers_ c ∨ (barrier_id_ k = i ∧ (q, type_ k) ∈ fired).

Lemma moved_refl i q c : moved i [] q c c.
Proof. split; [done|]. split; [left; split; [done|apply not_elem_of_nil]|auto]. Qed.

Lemma fire_moves i p t w w' :
  fire_context i p t w = Some w' →
  ready_contexts_ w' = ready_contexts_ w ++ [p] ∧ length (contexts w') = length (contexts w) ∧
  ∀ q c', contexts w' !! q = Some c' → ∃ c, contexts w !! q = Some c ∧ moved i [(p, t)] q c c'.
Proof.
  unfold fire_context, update_context. intros E. apply bind_Some in E as (w1 & E1 & E). simplify_eq/=.
  apply bind_Some in E1 as (c & Hc & E1). apply bind_Some in E1 as (c1 & Hn & E1). simplify_eq/=.
  split; [done|]. split; [by rewrite length_insert|]. intros q c' Hq.
  destruct (decide (p = q)) as [->|Hne].
  - rewrite list_lookup_insert_eq in Hq by (by eapply lookup_lt_Some). simplify_eq. exists c. split; [done|].
    unfold notify, transition_to_next_state in Hn. destruct (0 <=? _)%Z; [|done]. simplify_eq/=.
    split; [done|]. split; [by right|]. simpl. intros k Hk. apply elem_of_app in Hk as [Hk|Hk]; [by left|right].
    apply list_elem_of_singleton in Hk as ->. split; [done|]. constructor.
  - rewrite list_lookup_insert_ne in Hq by done. exists c'. split; [done|]. split; [done|]. split; [left|auto].
    split; [done|]. simpl. rewrite list_elem_of_singleton. congruence.
Qed.

Lemma offer_moves i pending : ∀ r wr w b w',
  offer_loop i r wr pending w = Some (b, w') →
  ∃ fired, pending = fired ++ pending_barrier_requests b ∧
    ready_contexts_ w' = ready_contexts_ w ++ fired.*1 ∧ length (contexts w') = length (contexts w) ∧
    ∀ q c', contexts w' !! q = Some c' → ∃ c, contexts w !! q = Some c ∧ moved i fired q c c'.
Proof.
  induction pending as [|[p t] pending IH]; intros r wr w b w' E; simpl in E.
  { simplify_eq. exists []. split_and!; [done|by rewrite app_nil_r|done|]. intros q c' Hq.
    exists c'. split; [done|apply moved_refl]. }
  assert (Hstop : Some (mk_barrier i r wr ((p, t) :: pending), w) = Some (b, w') →
    ∃ fired, (p, t) :: pending = fired ++ pending_barrier_requests b ∧
    ready_contexts_ w' = ready_contexts_ w ++ fired.*1 ∧ length (contexts w') = length (contexts w) ∧
    ∀ q c', contexts w' !! q = Some c' → ∃ c, contexts w !! q = Some c ∧ moved i fired q c c').
  { intros [= <- <-]. exists []. split_and!; [done|by rewrite app_nil_r|done|]. intros q c' Hq.
    exists c'. split; [done|apply moved_refl]. }
  assert (Hgo : ∀ r' wr', (wd' ← fire_context i p t w; offer_loop i r' wr' pending wd') = Some (b, w') →
    ∃ fired, (p, t) :: pending = fired ++ pending_barrier_requests b ∧
    ready_contexts_ w' = ready_contexts_ w ++ fired.*1 ∧ length (contexts w') = length (contexts w) ∧
    ∀ q c', contexts w' !! q = Some c' → ∃ c, contexts w !! q = Some c ∧ moved i fired q c c').
  { intros r' wr' E'. apply bind_Some in E' as (w1 & Hf & E'). apply IH in E' as (fired & H1 & H2 & H3 & H4).
    destruct (fire_moves _ _ _ _ _ Hf) as (F1 & F2 & F3). exists ((p, t) :: fired). split_and!.
    - simpl. by rewrite H1 at 1.
    - rewrite H2, F1. simpl. by rewrite <- app_assoc.
    - lia.
    - intros q c' Hq. destruct (H4 q c' Hq) as (c1 & Hq1 & N1 & S1 & T1).
      destruct (F3 q c1 Hq1) as (c & Hq0 & N2 & S2 & T2). exists c. split; [done|]. split; [congruence|]. split.
      + destruct S1 as [[-> Hn1]|S1]; [|by right]. destruct S2 as [[-> Hn2]|S2]; [left|by right].
        split; [done|]. simpl in *. rewrite elem_of_cons. rewrite list_elem_of_singleton in Hn2. naive_solver.
      + intros k Hk. apply T1 in Hk as [Hk|[Hk Hin]]; [|right; split; [done|by constructor]].
        apply T2 in Hk as [Hk|[Hk Hin]]; [by left|right; split; [done|]].
        apply list_elem_of_singleton in Hin as <-. constructor. }
  destruct t.
  - destruct (wr =? 0)%Z; [by eapply Hgo|by apply Hstop].
  - destruct ((r =? 0)%Z && (wr =? 0)%Z); [by eapply Hgo|by apply Hstop].
Qed.

(** ** What an operation of context [p] does to the others *)
Definition is_pending (q : nat) (t : barrier_type) (m : barrier_manager) : Prop :=
  ∃ i b, barrier_at i m = Some b ∧ (q, t) ∈ pending_barrier_requests b.

Definition evolves (p : nat) (m m' : barrier_manager) : Prop :=
  length (contexts (wd m')) = length (contexts (wd m)) ∧
  (∀ q, waits q m' + cnt q (ready_contexts_ (wd m')) = waits q m + cnt q (ready_contexts_ (wd m))) ∧
  (∀ q, cnt q (ready_contexts_ (wd m)) ≤ cnt q (ready_contexts_ (wd m'))) ∧
  (∀ q t, is_pending q t m' → is_pending q t m) ∧
  ∀ q c', q ≠ p → contexts (wd m') !! q = Some c' →
    ∃ c, contexts (wd m) !! q = Some c ∧ next_state c' = next_state c ∧
      ((c' = c ∧ cnt q (ready_contexts_ (wd m')) = cnt q (ready_contexts_ (wd m))) ∨
       current_state c' = next_state c') ∧
      ∀ k, k ∈ obtained_barriers_ c' → k ∈ obtained_barriers_ c ∨ is_pending q (type_ k) m.

Lemma evolves_refl p m : evolves p m m.
Proof. split_and!; auto. intros q c' _ Hq. exists c'. eauto 10. Qed.

Lemma evolves_trans p m1 m2 m3 : evolves p m1 m2 → evolves p m2 m3 → evolves p m1 m3.
Proof.
  intros (A1 & A2 & A3 & A4 & A5) (B1 & B2 & B3 & B4 & B5). split_and!.
  - congruence.
  - intros q. rewrite B2. apply A2.
  - intros q. etrans; [apply A3|apply B3].
  - intros q t H. by apply A4, B4.
  - intros q c3 Hne H3. destruct (B5 q c3 Hne H3) as (c2 & H2 & N2 & S2 & T2).
    destruct (A5 q c2 Hne H2) as (c1 & H1 & N1 & S1 & T1). exists c1. split; [done|]. split; [congruence|]. split.
    + destruct S2 as [[-> E2]|S2]; [|by right]. destruct S1 as [[-> E1]|S1]; [left|by right]. split; [done|congruence].
    + intros k Hk. apply T2 in Hk as [Hk|Hk]; [apply T1 in Hk as [Hk|Hk]; [by left|by right]|right; by apply A4].
Qed.

(** The context [p] itself is changed, the queues are not. *)
Lemma evolves_own p c m :
  evolves p m (mk_manager (barrier_map_ m) (mk_world (<[p := c]> (contexts (wd m))) (ready_contexts_ (wd m)))).
Proof.
  split_and!; simpl; auto; [by rewrite length_insert|].
  intros q c' Hne Hq. rewrite list_lookup_insert_ne in Hq by done. exists c'. eauto 10.
Qed.

Lemma manager_remove_evolves p t i m m' : manager_remove t i m = Some m' → evolves p m m'.
Proof.
  unfold manager_remove. intros E. apply bind_Some in E as ([b m1] & Hg & E).
  apply bind_Some in E as ([b' w] & Hr & E). simplify_eq.
  pose proof (λ q, waits_put q i b b' w m m1 Hg) as Hp.
  destruct (Hp 0) as (_ & Hq & Hat & Hoth & Hwd & Hi). rewrite Hwd in Hr.
  assert (Ho : ∃ r wr, offer_loop (b_id b) r wr (pending_barrier_requests b) (wd m) = Some (b', w)).
  { unfold remove_barrier, offer_barrier in Hr. destruct t; simpl in Hr; eauto. }
  destruct Ho as (r & wr & Ho). apply offer_moves in Ho as (fired & F1 & F2 & F3 & F4).
  assert (Hpend : ∀ q t, (q, t) ∈ pending_barrier_requests b → is_pending q t m).
  { intros q t' Hin. destruct (barrier_at i m) as [b0|] eqn:Eb.
    - exists i, b0. split; [done|]. simpl in Hq. by rewrite Hq.
    - simpl in Hq. rewrite <- Hq in Hin. by apply elem_of_nil in Hin. }
  split_and!.
  - done.
  - intros q. destruct (Hp q) as (Hw & _). simpl. rewrite F2, cnt_app. unfold queue_of in Hw. simpl in Hw.
    rewrite F1, fmap_app, cnt_app in Hw. lia.
  - intros q. simpl. rewrite F2, cnt_app. lia.
  - intros q t' (j & b0 & Hb0 & Hin). destruct (decide (j = i)) as [->|Hne].
    + rewrite Hat in Hb0. simplify_eq. apply Hpend. rewrite F1. apply elem_of_app. by right.
    + rewrite Hoth in Hb0 by done. by exists j, b0.
  - intros q c' _ Hc'. destruct (F4 q c' Hc') as (c & Hc & N & S & T). exists c. split; [done|]. split; [done|]. split.
    + destruct S as [[-> Hn]|S]; [left|by right]. split; [done|]. simpl. rewrite F2, cnt_app.
      apply cnt_zero in Hn. lia.
    + intros k Hk. apply T in Hk as [Hk|[_ Hin]]; [by left|right]. apply Hpend. rewrite F1. apply elem_of_app. by left.
Qed.

(** A request is granted, or queued. *)
Lemma request_effect t i p m ok m' :
  request_barrier t i p m = Some (ok, m') →
  ready_contexts_ (wd m') = ready_contexts_ (wd m) ∧ length (contexts (wd m')) = length (contexts (wd m)) ∧
  (∀ q, waits q m' = waits q m + if ok then 0 else if decide (p = q) then 1 else 0) ∧
  (∀ q t', is_pending q t' m' → is_pending q t' m ∨ (q = p ∧ t' = t)) ∧
  if (ok : bool) then ∃ c k, contexts (wd m) !! p = Some c ∧ type_ k = t ∧
    contexts (wd m') = <[p := add_barrier_token k c]> (contexts (wd m))
  else contexts (wd m') = contexts (wd m).
Proof.
  unfold request_barrier. intros E. apply bind_Some in E as ([b m1] & Hg & E).
  apply bind_Some in E as ([[ok' b'] w] & Hs & E). simplify_eq.
  pose proof (λ q, waits_put q i b b' w m m1 Hg) as Hp. destruct (Hp 0) as (_ & Hq & Hat & Hoth & Hwd & Hi).
  rewrite Hwd in Hs. unfold set_barrier in Hs.
  assert (Hpend : ∀ q t', (q, t') ∈ pending_barrier_requests b → is_pending q t' m).
  { intros q t' Hin. destruct (barrier_at i m) as [b0|] eqn:Eb.
    - exists i, b0. split; [done|]. simpl in Hq. by rewrite Hq.
    - simpl in Hq. rewrite <- Hq in Hin. by apply elem_of_nil in Hin. }
  assert (Hgp : ∀ b1, grant t b = Some b1 → pending_barrier_requests b1 = pending_barrier_requests b).
  { destruct t; simpl; unfold grant_read_barrier_request, grant_write_barrier_request; intros b1;
      [destruct (_ =? _)%Z|destruct (_ && _)]; intros [= <-]; done. }
  destruct (grant t b) as [b1|].
  - unfold update_context in Hs. destruct (contexts (wd m) !! p) as [c|] eqn:Hc; [|done]. simplify_eq/=.
    specialize (Hgp b' eq_refl). split_and!; [done|by rewrite length_insert| | |exists c, (mk_token (b_id b) t); done].
    + intros q. destruct (Hp q) as (Hw & _). unfold queue_of in Hw. simpl in Hw. rewrite Hgp in Hw. lia.
    + intros q t' (j & b0 & Hb0 & Hin). left. destruct (decide (j = i)) as [->|Hne].
      * rewrite Hat in Hb0. simplify_eq. apply Hpend. by rewrite <- Hgp.
      * rewrite Hoth in Hb0 by done. by exists j, b0.
  - simplify_eq. split_and!; [done|done| | |done].
    + intros q. destruct (Hp q) as (Hw & _). unfold queue_of in Hw. simpl in Hw. rewrite fmap_app, cnt_app in Hw.
      simpl in Hw. rewrite (cnt_cons q p []) in Hw. change (cnt q []) with 0 in Hw. lia.
    + intros q t' (j & b0 & Hb0 & Hin). destruct (decide (j = i)) as [->|Hne].
      * rewrite Hat in Hb0. simplify_eq/=. apply elem_of_app in Hin as [Hin|Hin]; [left; by apply Hpend|right].
        apply list_elem_of_singleton in Hin. by simplify_eq.
      * rewrite Hoth in Hb0 by done. left. by exists j, b0.
Qed.

(** Giving all barriers back, when it returns: tokens of [p] only. *)
Lemma release_loop_evolves fuel : ∀ p m m', release_loop fuel p m = Some m' → evolves p m m'.
Proof.
  induction fuel as [|fuel IH]; intros p m m' E; [done|]. rewrite release_loop_eq in E.
  apply bind_Some in E as (c & Hc & E). destruct (list.last (obtained_barriers_ c)) as [k|].
  - apply bind_Some in E as (m1 & Hr & E). eapply evolves_trans; [|by apply IH]. unfold release_one in Hr.
    apply bind_Some in Hr as (w & Hu & Hr). unfold update_context in Hu. rewrite Hc in Hu. simplify_eq/=.
    eapply evolves_trans; [apply evolves_own|]. by eapply manager_remove_evolves.
  - simplify_eq. apply evolves_refl.
Qed.

End BarrierFrame.
