(* ===== verification/PullSafe.v ===== *)
(** Safety of the pull-mode tree under every schedule: in each state the machine
    reaches, every context is in one queue or waits for the completions it
    counts, and the barriers account for the tokens the contexts hold.

    The commands are reasoned about with a weakest precondition for the monad of
    PullState; a command that has no result satisfies every postcondition. *)
From Stdlib Require Import ZArith Lia.
From stdpp Require Import base list gmap sorting numbers.
From S2P Require Import Prelude KV Leaf Inner Store Barrier BarrierFrame PullState PullTree.

Module PullSafe.
Import Barrier BarrierFrame Pull PullTree.

Section safety.
Context {A : Type} `{!Allocator A}.
Context (CAPACITY : nat) (junkE : list (Z * Z)) (junkK : list Z).
Local Abbreviation cmd := (@cmd A).
Local Abbreviation pstate := (pstate A).
Implicit Types (s : pstate) (p q : nat) (R : list nat).

(** ** Weakest preconditions *)
Definition wp {X} (c : cmd X) (Q : X → pstate → Prop) (s : pstate) : Prop :=
  ∀ x s', c s = Some (x, s') → Q x s'.

Lemma wp_ret {X} (x : X) Q s : Q x s → wp (mret x) Q s.
Proof. by intros H x' s' [= <- <-]. Qed.
Lemma wp_bind {X Y} (c : cmd X) (k : X → cmd Y) Q s : wp c (λ x, wp (k x) Q) s → wp (c ≫= k) Q s.
Proof.
  intros H y s' E. unfold mbind, cmd_bind in E. destruct (c s) as [[x s1]|] eqn:Ec; [|done]. by eapply H.
Qed.
Lemma wp_mono {X} (c : cmd X) (Q Q' : X → pstate → Prop) s : wp c Q s → (∀ x s, Q x s → Q' x s) → wp c Q' s.
Proof. intros H HQ x s' E. by apply HQ, H. Qed.
Lemma wp_get {X} (f : pstate → X) Q s : Q (f s) s → wp (get f) Q s.
Proof. by intros H x' s' [= <- <-]. Qed.
Lemma wp_modify (f : pstate → pstate) Q s : Q tt (f s) → wp (modify f) Q s.
Proof. by intros H x' s' [= <- <-]. Qed.
Lemma wp_require {X} (o : option X) Q s : (∀ x, o = Some x → Q x s) → wp (require o) Q s.
Proof. intros H x s' E. unfold require in E. destruct o as [y|]; simplify_eq/=. by apply H. Qed.
Lemma wp_assert b Q s : (b = true → Q tt s) → wp (assert_ b) Q s.
Proof. intros H. apply wp_require. intros [] E. destruct b; [by apply H|done]. Qed.

(** ** Where a context is *)
(** [act]: among the contexts about to run ([R] are those the scheduler has
    taken); [pas]: waiting for a barrier or for a completion; [fr]: free. *)
Definition act R s q : nat :=
  cnt q R + cnt q (ready_contexts_ (wd (manager s))) + cnt q (blk_ready_contexts s) + cnt q (admission_contexts_ s).
Definition pas s q : nat := waits q (manager s) + cnt q (pending_contexts_ s).
Definition fr s q : nat := cnt q (free_insert_contexts_ s) + cnt q (free_search_contexts_ s).

Definition ctxs s : list call_back_context := contexts (wd (manager s)).

(** States 10 and 12 count the completions of several writes. *)
Definition busy (st : Z) : bool := (st =? 10)%Z || (st =? 12)%Z.

Definition goal (c : call_back_context) (d : context_data) : nat :=
  match d with
  | CInsert i => if busy (next_state c) then write_back_completion_target_ i else 1
  | CSearch _ => 1
  end.
Definition done_ (c : call_back_context) (d : context_data) : nat :=
  match d with
  | CInsert i => if busy (next_state c) then write_back_completion_count_ i else 0
  | CSearch _ => 0
  end.

(** The state a context runs in is the one it chose. *)
Definition synced (c : call_back_context) : Prop :=
  current_state c = next_state c ∨ (current_state c = 0 ∧ next_state c = -1)%Z.
Definition calm (c : call_back_context) : Prop := busy (next_state c) = false.
Definition reads_only (c : call_back_context) (d : context_data) : Prop :=
  match d with CInsert _ => True | CSearch _ => ∀ k, k ∈ obtained_barriers_ c → type_ k = READ_BARRIER end.

Definition ctx_ok R s q : Prop := ∀ c d, ctxs s !! q = Some c → datas s !! q = Some d →
  act R s q + pas s q + fr s q + done_ c d ≤ goal c d ∧ (0 < act R s q → synced c) ∧ (0 < fr s q → calm c) ∧
  reads_only c d.

Definition is_search q s : Prop := ∃ sc, datas s !! q = Some (CSearch sc).

(** A search waits for read barriers only. *)
Definition requests_ok s : Prop := ∀ q t, is_pending q t (manager s) → is_search q s → t = READ_BARRIER.

Record Inv R s : Prop := {
  inv_len : length (datas s) = length (ctxs s);
  inv_ok : manager_ok settled (manager s);
  inv_pend : requests_ok s;
  inv_ctx : ∀ q, ctx_ok R s q }.

(** The state while context [p] runs: its own record [c] and data [d], its
    places, and all other contexts. *)
Record mine (δ : delta) p R s (c : call_back_context) (d : context_data) (a n f : nat) : Prop := {
  m_len : length (datas s) = length (ctxs s);
  m_ok : manager_ok δ (manager s);
  m_pend : requests_ok s;
  m_ctx : ctxs s !! p = Some c;
  m_data : datas s !! p = Some d;
  m_act : act R s p = a;
  m_pas : pas s p = n;
  m_fr : fr s p = f;
  m_oth : ∀ q, q ≠ p → ctx_ok R s q }.

Lemma inv_open R s p c d :
  Inv R s → ctxs s !! p = Some c → datas s !! p = Some d →
  ∃ a n f, mine settled p R s c d a n f ∧ a + n + f + done_ c d ≤ goal c d ∧ (0 < a → synced c) ∧
    (0 < f → calm c) ∧ reads_only c d.
Proof.
  intros [H0 H1 H2 H3] Hc Hd. eexists _, _, _. split; [|by apply H3]. split; auto.
Qed.

Lemma act_cons p R s q : act (p :: R) s q = (if decide (p = q) then 1 else 0) + act R s q.
Proof. unfold act. rewrite cnt_cons. lia. Qed.

Lemma mine_cons δ p R s c d a n f : mine δ p (p :: R) s c d (S a) n f ↔ mine δ p R s c d a n f.
Proof.
  assert (E : ∀ q, q ≠ p → ctx_ok (p :: R) s q ↔ ctx_ok R s q).
  { intros q Hq. unfold ctx_ok. by rewrite act_cons, decide_False by done. }
  split; intros [H0 H1 H2 H3 H4 H5 H6 H7 H8]; split; auto.
  - rewrite act_cons, decide_True in H5 by done. lia.
  - intros q Hq. by apply E, H8.
  - rewrite act_cons, decide_True by done. lia.
  - intros q Hq. by apply E, H8.
Qed.

Lemma inv_close R s p c d a n f :
  mine settled p R s c d a n f → a + n + f + done_ c d ≤ goal c d → (0 < a → synced c) → (0 < f → calm c) →
  reads_only c d → Inv R s.
Proof.
  intros [H0 H1 H2 H3 H4 H5 H6 H7 H8] G1 G2 G3 G4. split; auto. intros q. destruct (decide (q = p)) as [->|Hne]; [|by auto].
  intros c' d' Hc Hd. simplify_eq. auto.
Qed.

(** ** Changes of the queues *)
Lemma mine_transfer δ p R s s' c d a n f a' n' f' :
  mine δ p R s c d a n f → manager s' = manager s → datas s' = datas s →
  (∀ q, q ≠ p → act R s' q = act R s q ∧ pas s' q = pas s q ∧ fr s' q = fr s q) →
  act R s' p = a' → pas s' p = n' → fr s' p = f' → mine δ p R s' c d a' n' f'.
Proof.
  intros [H0 H1 H2 H3 H4 H5 H6 H7 H8] Hm Hd Hq Ha Hn Hf. unfold requests_ok, is_search, ctx_ok, ctxs in *.
  split; unfold requests_ok, is_search, ctx_ok, ctxs; rewrite ?Hm, ?Hd; auto.
  intros q Hne. destruct (Hq q Hne) as (-> & -> & ->). auto.
Qed.

(** Nothing the invariant speaks of has changed. *)
Lemma mine_same δ p R s s' c d a n f :
  manager s' = manager s → datas s' = datas s → pending_contexts_ s' = pending_contexts_ s →
  blk_ready_contexts s' = blk_ready_contexts s → admission_contexts_ s' = admission_contexts_ s →
  free_insert_contexts_ s' = free_insert_contexts_ s → free_search_contexts_ s' = free_search_contexts_ s →
  mine δ p R s c d a n f → mine δ p R s' c d a n f.
Proof.
  intros E1 E2 E3 E4 E5 E6 E7 H.
  assert (Ea : ∀ q, act R s' q = act R s q) by (intros q; unfold act; by rewrite E1, E4, E5).
  assert (Ep : ∀ q, pas s' q = pas s q) by (intros q; unfold pas; by rewrite E1, E3).
  assert (Ef : ∀ q, fr s' q = fr s q) by (intros q; unfold fr; by rewrite E6, E7).
  pose proof H as [_ _ _ _ _ <- <- <- _]. eapply mine_transfer; [exact H|..]; auto.
Qed.

(** ** Changes of the barriers *)
Lemma goal_next c c' d : next_state c' = next_state c → goal c' d = goal c d ∧ done_ c' d = done_ c d.
Proof. intros E. unfold goal, done_. by rewrite E. Qed.

Lemma ctx_ok_evolves p R s m' q :
  evolves p (manager s) m' → requests_ok s → q ≠ p → ctx_ok R s q → ctx_ok R (with_manager m' s) q.
Proof.
  intros (_ & E2 & E3 & E4 & E5) Hreq Hne Hok c' d Hc' Hd.
  destruct (E5 q c' Hne Hc') as (c & Hc & N & S & T). destruct (Hok c d Hc Hd) as (G1 & G2 & G3 & G4).
  destruct (goal_next c c' d N) as [-> ->].
  pose proof (E2 q) as Eq. pose proof (E3 q) as Er. unfold act, pas, fr in *. simpl in *.
  split; [lia|]. split; [|split].
  - intros Ha. destruct S as [[-> Ec]|S]; [apply G2; lia|by left].
  - intros Hf. unfold calm in *. rewrite N. auto.
  - destruct d as [|sc]; [done|]. intros k Hk. apply T in Hk as [Hk|Hk]; [by apply G4|].
    eapply Hreq; [done|]. by exists sc.
Qed.

Lemma mine_evolves δ δ' p R s m' c c' d a n f :
  mine δ p R s c d a n f → evolves p (manager s) m' → manager_ok δ' m' → contexts (wd m') !! p = Some c' →
  waits p (manager s) = 0 → mine δ' p R (with_manager m' s) c' d a n f.
Proof.
  intros [H0 H1 H2 H3 H4 H5 H6 H7 H8] Hev Hok Hc Hw. split; auto.
  - destruct Hev as (E & _). unfold ctxs. simpl. rewrite E. done.
  - intros q t Hp Hs. destruct Hev as (_ & _ & _ & E4 & _). by eapply H2; [apply E4|].
  - destruct Hev as (_ & E2 & E3 & _). specialize (E2 p). specialize (E3 p). unfold act in *. simpl. lia.
  - destruct Hev as (_ & E2 & E3 & _). specialize (E2 p). specialize (E3 p). unfold pas in *. simpl. lia.
  - intros q Hq. apply (ctx_ok_evolves p); auto.
Qed.

(** The record of [p] changes, its tokens up to the correction. *)
Definition own_world p (c' : call_back_context) (m : barrier_manager) : barrier_manager :=
  mk_manager (barrier_map_ m) (mk_world (<[p := c']> (contexts (wd m))) (ready_contexts_ (wd m))).

Lemma manager_ok_own δ δ' p m c c' :
  manager_ok δ m → contexts (wd m) !! p = Some c →
  (∀ i t, (Z.of_nat (ntok i t c') + δ' i t = Z.of_nat (ntok i t c) + δ i t)%Z) →
  ((0 ≤ next_state c → 0 ≤ next_state c')%Z ∨ waits p m = 0) →
  manager_ok δ' (own_world p c' m).
Proof.
  intros Hok Hc Hd Hn i.
  assert (Hdue : ∀ i t, due δ' i t (wd (own_world p c' m)) = due δ i t (wd m)).
  { intros i' t. pose proof (sum_list_with_insert (ntok i' t) _ _ _ c' Hc) as Hs. specialize (Hd i' t).
    unfold due, held. simpl. lia. }
  specialize (Hok i). change (barrier_at i (own_world p c' m)) with (barrier_at i m).
  destruct (barrier_at i m) as [b|] eqn:Hb; [|intros t; by rewrite Hdue].
  destruct Hok as (H1 & H2 & H3 & H4 & H5 & H6). unfold barrier_ok. rewrite !Hdue.
  split; [done|]. split; [done|]. split; [done|]. split; [done|]. split; [done|].
  intros q t Hq. destruct (H6 q t Hq) as (cq & Hcq & Hnq). destruct (decide (q = p)) as [->|Hne].
  - exists c'. split; [simpl; apply list_lookup_insert_eq; by eapply lookup_lt_Some|]. simplify_eq.
    destruct Hn as [Hn|Hn]; [auto|]. apply waits_zero in Hn. by destruct (Hn _ b t Hb).
  - exists cq. split; [|done]. simpl. by rewrite list_lookup_insert_ne.
Qed.

Lemma mine_own δ δ' p R s c c' d a n f :
  mine δ p R s c d a n f →
  (∀ i t, (Z.of_nat (ntok i t c') + δ' i t = Z.of_nat (ntok i t c) + δ i t)%Z) →
  ((0 ≤ next_state c → 0 ≤ next_state c')%Z ∨ n = 0) →
  mine δ' p R (with_manager (own_world p c' (manager s)) s) c' d a n f.
Proof.
  intros [H0 H1 H2 H3 H4 H5 H6 H7 H8] Hd Hn.
  pose proof (evolves_own p c' (manager s) : evolves p (manager s) (own_world p c' (manager s))) as Hev. split; auto.
  - unfold ctxs. simpl. by rewrite length_insert.
  - eapply manager_ok_own; eauto. destruct Hn as [Hn|Hn]; [by left|right]. unfold pas in H6. lia.
  - unfold ctxs. simpl. apply list_lookup_insert_eq. by eapply lookup_lt_Some.
  - intros q Hq. apply (ctx_ok_evolves p); auto.
Qed.

(** ** The rules of the commands *)
Lemma wp_get_context δ p R s c d a n f Q :
  mine δ p R s c d a n f → Q c s → wp (get_context p) Q s.
Proof. intros H HQ x s' E. unfold get_context in E. rewrite (m_ctx _ _ _ _ _ _ _ _ _ H : contexts _ !! p = _) in E. by simplify_eq/=. Qed.

Lemma wp_get_insert δ p R s c i a n f Q :
  mine δ p R s c (CInsert i) a n f → Q i s → wp (get_insert p) Q s.
Proof. intros H HQ x s' E. unfold get_insert in E. rewrite (m_data _ _ _ _ _ _ _ _ _ H) in E. by simplify_eq. Qed.

Lemma wp_get_search δ p R s c i a n f Q :
  mine δ p R s c (CSearch i) a n f → Q i s → wp (get_search p) Q s.
Proof. intros H HQ x s' E. unfold get_search in E. rewrite (m_data _ _ _ _ _ _ _ _ _ H) in E. by simplify_eq. Qed.

(** New data of the same kind. *)
Lemma mine_data δ p R s c d d' a n f :
  mine δ p R s c d a n f → (∃ i i', d = CInsert i ∧ d' = CInsert i') ∨ (∃ i i', d = CSearch i ∧ d' = CSearch i') →
  mine δ p R (with_datas (<[p := d']> (datas s)) s) c d' a n f.
Proof.
  intros [H0 H1 H2 H3 H4 H5 H6 H7 H8] Hk. split; auto.
  - simpl. by rewrite length_insert.
  - intros q t Hp [sc Hsc]. apply (H2 q t Hp). simpl in Hsc. destruct (decide (p = q)) as [->|Hne].
    + rewrite list_lookup_insert_eq in Hsc by (by eapply lookup_lt_Some). simplify_eq.
      destruct Hk as [(? & ? & ? & ?)|(? & ? & ? & ?)]; simplify_eq. eexists. exact H4.
    + rewrite list_lookup_insert_ne in Hsc by done. by exists sc.
  - simpl. apply list_lookup_insert_eq. by eapply lookup_lt_Some.
  - intros q Hq c' d0 Hc Hd. simpl in Hd. rewrite list_lookup_insert_ne in Hd by done. by apply (H8 q Hq).
Qed.

Lemma wp_put_insert δ p R s c i i' a n f Q :
  mine δ p R s c (CInsert i) a n f → (∀ s', mine δ p R s' c (CInsert i') a n f → Q tt s') → wp (put_insert p i') Q s.
Proof. intros H HQ. apply wp_modify, HQ. eapply mine_data; [done|]. left. eauto. Qed.

Lemma wp_put_search δ p R s c i i' a n f Q :
  mine δ p R s c (CSearch i) a n f → (∀ s', mine δ p R s' c (CSearch i') a n f → Q tt s') → wp (put_search p i') Q s.
Proof. intros H HQ. apply wp_modify, HQ. eapply mine_data; [done|]. right. eauto. Qed.

Lemma wp_update δ δ' p R s c d a n f (g : call_back_context → option call_back_context) Q :
  mine δ p R s c d a n f →
  (∀ c', g c = Some c' →
    (∀ i t, (Z.of_nat (ntok i t c') + δ' i t = Z.of_nat (ntok i t c) + δ i t)%Z) ∧
    ((0 ≤ next_state c → 0 ≤ next_state c')%Z ∨ n = 0) ∧
    ∀ s', mine δ' p R s' c' d a n f → Q tt s') →
  wp (update_call_back p g) Q s.
Proof.
  intros H HQ x s' E. unfold update_call_back, update_context in E.
  rewrite (m_ctx _ _ _ _ _ _ _ _ _ H : contexts _ !! p = _) in E. simpl in E.
  destruct (g c) as [c'|] eqn:Eg; [|done]. simpl in E. simplify_eq.
  destruct (HQ c' eq_refl) as (Hd & Hn & HQ'). apply HQ'. eapply mine_own; eauto.
Qed.

Lemma wp_goto_next δ p R s c d a n f st Q :
  mine δ p R s c d a n f → (0 ≤ st)%Z → (∀ s', mine δ p R s' (set_next_state st c) d a n f → Q tt s') →
  wp (goto_next p st) Q s.
Proof.
  intros H Hst HQ. eapply wp_update; [done|]. intros c' [= <-]. split_and!; [done|by left; intros _|done].
Qed.

Definition moved_on (c : call_back_context) : call_back_context :=
  mk_ctx (status c) (next_state c) (next_state c) (id c) (tag c) (obtained_barriers_ c).

Lemma wp_do_transition δ p R s c d a n f Q :
  mine δ p R s c d a n f → (∀ s', mine δ p R s' (moved_on c) d a n f → Q tt s') → wp (do_transition p) Q s.
Proof.
  intros H HQ. eapply wp_update; [done|]. intros c' E. unfold transition_to_next_state in E.
  destruct (0 <=? next_state c)%Z; [|done]. simplify_eq. split_and!; [done|by left|done].
Qed.

Lemma wp_set_obtained δ δ' p R s c d a n f ts Q :
  mine δ p R s c d a n f →
  (∀ i t, (Z.of_nat (ntok i t (set_tokens ts c)) + δ' i t = Z.of_nat (ntok i t c) + δ i t)%Z) →
  (∀ s', mine δ' p R s' (set_tokens ts c) d a n f → Q tt s') → wp (set_obtained p ts) Q s.
Proof.
  intros H Hd HQ. eapply wp_update; [done|]. intros c' [= <-]. split_and!; [done|by left|done].
Qed.

Lemma wp_jump δ p R s c d a n f st Q :
  mine δ p R s c d a n f → (0 ≤ st)%Z →
  (∀ s', mine δ p R s' (moved_on (set_next_state st c)) d a n f → Q Again s') → wp (jump p st) Q s.
Proof.
  intros H Hst HQ. unfold jump. apply wp_bind. eapply wp_goto_next; [done|done|]. intros s1 H1.
  apply wp_bind. eapply wp_do_transition; [done|]. intros s2 H2. by apply wp_ret, HQ.
Qed.

(** Any change of the parts the invariant does not mention. *)
Lemma wp_modify_same δ p R s c d a n f (g : pstate → pstate) Q :
  mine δ p R s c d a n f →
  manager (g s) = manager s → datas (g s) = datas s → pending_contexts_ (g s) = pending_contexts_ s →
  blk_ready_contexts (g s) = blk_ready_contexts s → admission_contexts_ (g s) = admission_contexts_ s →
  free_insert_contexts_ (g s) = free_insert_contexts_ s → free_search_contexts_ (g s) = free_search_contexts_ s →
  (∀ s', mine δ p R s' c d a n f → Q tt s') → wp (modify g) Q s.
Proof. intros H E1 E2 E3 E4 E5 E6 E7 HQ. apply wp_modify, HQ. by (eapply mine_same; [..|exact H]). Qed.

Lemma wp_blk_allocate δ p R s c d a n f Q :
  mine δ p R s c d a n f → (∀ i s', mine δ p R s' c d a n f → Q i s') → wp blk_allocate Q s.
Proof.
  intros H HQ x s' E. unfold blk_allocate in E. destruct (allocate (alloc (tree s))) as [i a']. simplify_eq.
  apply HQ. by (eapply mine_same; [..|exact H]).
Qed.

Lemma mine_submit δ p R s c d a n f t :
  mine δ p R s c d a n f →
  mine δ p R (with_io (pending_contexts_ s ++ [p]) (pending_ids_ s ++ [t]) (blk_ready_contexts s) s) c d a (S n) f.
Proof.
  intros H. pose proof H as [_ _ _ _ _ <- <- <- _]. eapply mine_transfer; [exact H|done|done| |done| |done].
  - intros q Hq. split_and!; [done| |done]. unfold pas. simpl. rewrite cnt_app, cnt_cons, decide_False by done.
    unfold cnt at 2. simpl. lia.
  - unfold pas. simpl. rewrite cnt_app, cnt_cons, decide_True by done. unfold cnt at 2. simpl. lia.
Qed.

Lemma wp_asynch_write δ p R s c d a n f addr b Q :
  mine δ p R s c d a n f → (∀ s', mine δ p R s' c d a (S n) f → Q tt s') → wp (asynch_write addr b p) Q s.
Proof.
  intros H HQ. unfold asynch_write, blk_write, submit. apply wp_bind, wp_modify, wp_modify, HQ, mine_submit.
  destruct (bool_decide _); [|done]. by (eapply mine_same; [..|exact H]).
Qed.

Lemma wp_asynch_read δ p R s c d a n f addr b Q :
  mine δ p R s c d a n f → (∀ b' s', mine δ p R s' c d a (S n) f → Q b' s') → wp (asynch_read addr b p) Q s.
Proof.
  intros H HQ. unfold asynch_read, blk_read, submit. apply wp_bind, wp_get, wp_bind, wp_modify, wp_ret, HQ.
  by apply mine_submit.
Qed.

(** *** Barriers *)
Lemma ctx_ok_same R s s' q :
  ctx_ok R s q → ctxs s' !! q = ctxs s !! q → datas s' !! q = datas s !! q → act R s' q = act R s q →
  pas s' q = pas s q → fr s' q = fr s q → ctx_ok R s' q.
Proof. intros H E1 E2 E3 E4 E5. unfold ctx_ok. by rewrite E1, E2, E3, E4, E5. Qed.

Lemma wp_ask_barrier t i p R s c d a f Q :
  mine settled p R s c d a 0 f → (0 ≤ next_state c)%Z →
  match d with CSearch _ => t = READ_BARRIER | CInsert _ => True end →
  (∀ k s', type_ k = t → mine settled p R s' (add_barrier_token k c) d a 0 f → Q true s') →
  (∀ s', mine settled p R s' c d a 1 f → Q false s') → wp (ask_barrier t i p) Q s.
Proof.
  intros H Hn Ht Hyes Hno ok s' E. unfold ask_barrier in E. apply bind_Some in E as ([ok' m'] & Hreq & E). simplify_eq.
  destruct H as [H0 H1 H2 H3 H4 H5 H6 H7 H8].
  assert (Hi : (0 ≤ i)%Z).
  { unfold request_barrier, get_or_create_barrier in Hreq. destruct (Z.ltb_spec i 0); [done|lia]. }
  destruct (request_barrier_ok settled t i p (manager s) H1 Hi) as (ok2 & m2 & Hreq2 & Hok & _); [by exists c|].
  rewrite Hreq in Hreq2. simplify_eq.
  destruct (request_effect _ _ _ _ _ _ Hreq) as (E1 & E2 & E3 & E4 & E5).
  assert (Hlen : length (datas s) = length (ctxs (with_manager m2 s))) by (unfold ctxs; simpl; by rewrite E2).
  assert (Hp : requests_ok (with_manager m2 s)).
  { intros q t' Hq [sc Hsc]. destruct (E4 q t' Hq) as [Hq'|[-> ->]]; [by eapply H2; [|exists sc]|].
    simpl in Hsc. rewrite H4 in Hsc. by simplify_eq. }
  assert (Ha : ∀ q, act R (with_manager m2 s) q = act R s q) by (intros q; unfold act; simpl; by rewrite E1).
  assert (Hc : ∀ q, q ≠ p → ctxs (with_manager m2 s) !! q = ctxs s !! q).
  { intros q Hq. unfold ctxs. simpl. destruct ok2; [|by rewrite E5]. destruct E5 as (c0 & k & _ & _ & ->).
    by rewrite list_lookup_insert_ne. }
  assert (Hoth : ∀ q, q ≠ p → ctx_ok R (with_manager m2 s) q).
  { intros q Hq. apply (ctx_ok_same R s); auto. unfold pas. simpl. rewrite E3. destruct ok2; [lia|].
    rewrite decide_False by done. lia. }
  destruct ok2.
  - destruct E5 as (c0 & k & Hc0 & Hk & E5). unfold ctxs in H3. rewrite Hc0 in H3. simplify_eq. apply (Hyes k); [done|].
    split; [done|done|done| |done|by rewrite Ha|unfold pas in *; simpl; rewrite E3; lia|done|done].
    unfold ctxs. simpl. rewrite E5. apply list_lookup_insert_eq. by eapply lookup_lt_Some.
  - apply Hno. split; [done|done|done|by unfold ctxs; simpl; rewrite E5|done|by rewrite Ha| |done|done].
    unfold pas in *. simpl. rewrite E3, decide_True by done. lia.
Qed.

Lemma mine_idle δ p R s c d a f : mine δ p R s c d a 0 f → waits p (manager s) = 0.
Proof. intros [_ _ _ _ _ _ H _ _]. unfold pas in H. lia. Qed.

Lemma wp_give_back δ t i p R s c d a f Q :
  mine δ p R s c d a 0 f → (1 ≤ due δ i t (wd (manager s)))%Z →
  (∀ s', mine (lose (mk_token i t) δ) p R s' c d a 0 f → Q tt s') → wp (give_back t i) Q s.
Proof.
  intros H Hd HQ x s' E. unfold give_back in E. apply bind_Some in E as (m' & Hr & E). simplify_eq. apply HQ.
  pose proof (mine_idle _ _ _ _ _ _ _ _ H) as Hw.
  destruct (manager_remove_ok δ t i (manager s) (m_ok _ _ _ _ _ _ _ _ _ H) Hd) as (m2 & Hr2 & Hok & _ & _ & Hof).
  rewrite Hr in Hr2. simplify_eq.
  destruct (offered_undisturbed _ _ _ p Hof) as [_ Hc]; [by apply waits_zero|].
  eapply mine_evolves; [done|by eapply manager_remove_evolves|done| |done].
  rewrite Hc. apply H.
Qed.

Lemma wp_give_back_all δ p R s c d a f Q :
  (∀ i t, (0 ≤ δ i t)%Z) → mine δ p R s c d a 0 f →
  (∀ s', mine δ p R s' (set_tokens [] c) d a 0 f → Q tt s') → wp (give_back_all p) Q s.
Proof.
  intros Hδ H HQ x s' E. unfold give_back_all in E. apply bind_Some in E as (m' & Hr & E). simplify_eq. apply HQ.
  pose proof (mine_idle _ _ _ _ _ _ _ _ H) as Hw.
  destruct (release_all_barriers_ok δ Hδ p (manager s) c (m_ok _ _ _ _ _ _ _ _ _ H)) as (m2 & Hr2 & Hok & _ & _ & Hc & _);
    [by apply waits_zero|apply H|].
  rewrite Hr in Hr2. simplify_eq. eapply mine_evolves; [done| |done|done|done].
  unfold release_all_barriers in Hr. apply bind_Some in Hr as (c' & _ & Hr). by eapply release_loop_evolves.
Qed.

(** ** One step of a context *)
Definition ends p R (o : outcome) s : Prop := match o with Again => Inv (p :: R) s | _ => Inv R s end.

(** The context that runs outside of states 10 and 12 is nowhere else. *)
Lemma sole R s p c d :
  Inv (p :: R) s → ctxs s !! p = Some c → datas s !! p = Some d → busy (current_state c) = false →
  mine settled p R s c d 0 0 0 ∧ reads_only c d ∧ calm c ∧ (current_state c ≠ 0 → next_state c = current_state c)%Z.
Proof.
  intros HI Hc Hd Hb. destruct (inv_open _ _ _ _ _ HI Hc Hd) as (a & n & f & H & Hsum & Hsy & _ & Hro).
  pose proof (m_act _ _ _ _ _ _ _ _ _ H) as Ha. rewrite act_cons, decide_True in Ha by done.
  assert (Hs : synced c) by (apply Hsy; lia).
  assert (Hcalm : calm c).
  { unfold calm. destruct Hs as [Hs|[_ Hs]]; [by rewrite <- Hs|by rewrite Hs]. }
  assert (Hg : goal c d = 1 ∧ done_ c d = 0).
  { unfold goal, done_. unfold calm in Hcalm. rewrite Hcalm. by destruct d. }
  split_and!; [|done|done|].
  - assert (a = 1 ∧ n = 0 ∧ f = 0) as (-> & -> & ->) by lia. by apply mine_cons.
  - destruct Hs as [Hs|[? ?]]; [by intros _|lia].
Qed.

Lemma close_again p R s c d :
  mine settled p R s c d 0 0 0 → goal c d = 1 → done_ c d = 0 → synced c → reads_only c d → Inv (p :: R) s.
Proof. intros H G D S Hr. apply mine_cons in H. eapply inv_close; [done|lia|done|lia|done]. Qed.

Lemma close_leave p R s c d n :
  mine settled p R s c d 0 n 0 → n + done_ c d ≤ goal c d → reads_only c d → Inv R s.
Proof. intros H G Hr. eapply inv_close; [done|lia|lia|lia|done]. Qed.

Lemma synced_moved c : synced (moved_on c).
Proof. by left. Qed.


End safety.

(** One command of the context that runs. *)
Ltac wps H :=
  lazymatch goal with |- wp (_ ≫= _) _ _ => apply wp_bind | _ => idtac end;
  first
    [ eapply (wp_get_context _ _ _ _ _ _ _ _ _ _ H)
    | eapply (wp_get_insert _ _ _ _ _ _ _ _ _ _ H)
    | eapply (wp_get_search _ _ _ _ _ _ _ _ _ _ H)
    | eapply (wp_put_insert _ _ _ _ _ _ _ _ _ _ _ H); clear H; intros ? H
    | eapply (wp_put_search _ _ _ _ _ _ _ _ _ _ _ H); clear H; intros ? H
    | eapply (wp_goto_next _ _ _ _ _ _ _ _ _ _ _ H); [try lia|clear H; intros ? H]
    | eapply (wp_jump _ _ _ _ _ _ _ _ _ _ _ H); [try lia|clear H; intros ? H]
    | eapply (wp_do_transition _ _ _ _ _ _ _ _ _ _ H); clear H; intros ? H
    | eapply (wp_asynch_write _ _ _ _ _ _ _ _ _ _ _ _ H); clear H; intros ? H
    | eapply (wp_asynch_read _ _ _ _ _ _ _ _ _ _ _ _ H); clear H; intros ? ? H
    | eapply (wp_blk_allocate _ _ _ _ _ _ _ _ _ _ H); clear H; intros ? ? H
    | eapply (wp_modify_same _ _ _ _ _ _ _ _ _ _ _ H);
        [reflexivity|reflexivity|reflexivity|reflexivity|reflexivity|reflexivity|reflexivity|clear H; intros ? H]
    | apply wp_get | apply wp_require; intros ? ? | apply wp_assert; intros ? | apply wp_ret ].

(** The end of a step. *)
Ltac by_again H := eapply close_again; [exact H|reflexivity|reflexivity|by left|try exact I].
Ltac by_leave H := eapply close_leave; [exact H|simpl; lia|try exact I].

Section steps.
Context {A : Type} `{!Allocator A}.
Context (CAPACITY : nat) (junkE : list (Z * Z)) (junkK : list Z).
Local Abbreviation cmd := (@cmd A).
Local Abbreviation pstate := (pstate A).
Implicit Types (s : pstate) (p q : nat) (R : list nat).

Lemma insert_state_0_ok p R s c i :
  mine settled p R s c (CInsert i) 0 0 0 → wp (insert_state_0 p) (ends p R) s.
Proof.
  intros H. unfold insert_state_0. wps H. wps H. wps H. wps H.
  apply wp_bind. eapply (wp_ask_barrier _ _ _ _ _ _ _ _ _ _ H); [simpl; lia|done|..]; clear H.
  - intros k s1 _ H. wps H. wps H. by_again H.
  - intros s1 H. wps H. by_leave H.
Qed.

(** Giving back all barriers but the last ones: the tokens that are kept are
    hidden from the loop and put back. *)
Lemma ntok_split i t (ts us : list barrier_token) c :
  ntok i t (set_tokens (ts ++ us) c) = ntok i t (set_tokens ts c) + ntok i t (set_tokens us c).
Proof. unfold ntok. simpl. by rewrite list.filter_app, length_app. Qed.

Lemma wp_release_all_but n0 p R s c i Q :
  mine settled p R s c (CInsert i) 0 0 0 →
  (∀ ts s', mine settled p R s' (set_tokens ts c) (CInsert i) 0 0 0 → Q tt s') → wp (release_all_but n0 p) Q s.
Proof.
  intros H HQ. unfold release_all_but. wps H. wps H.
  set (ts := obtained_barriers_ c). set (k := length ts - n0).
  set (δ := λ i t, Z.of_nat (ntok i t (set_tokens (drop k ts) c))).
  assert (Ec : ∀ i t, ntok i t c = ntok i t (set_tokens (take k ts) c) + ntok i t (set_tokens (drop k ts) c)).
  { intros i' t. rewrite <- ntok_split, take_drop. by destruct c. }
  apply wp_bind. eapply (wp_set_obtained settled δ); [exact H| |].
  { intros i' t. rewrite (Ec i' t). unfold δ, settled. lia. }
  clear H. intros s1 H. apply wp_bind. eapply (wp_give_back_all δ); [intros; unfold δ; lia|exact H|].
  clear H. intros s2 H. wps H. simpl.
  eapply (wp_set_obtained δ settled); [exact H| |].
  { intros i' t. unfold δ, settled, ntok. simpl. lia. }
  intros s3 H3. by apply (HQ (drop k ts)).
Qed.

Lemma insert_state_10001_ok p R s c i :
  mine settled p R s c (CInsert i) 0 0 0 → wp (insert_state_10001 p) (ends p R) s.
Proof.
  intros H. unfold insert_state_10001. wps H. wps H. wps H. apply wp_bind.
  eapply (wp_mono _ (λ _ s', s' = s)).
  { destruct (refer_to_root_ _); [wps H; by wps H|by wps H]. }
  intros stale ? ->. destruct stale.
  - wps H. apply wp_bind. eapply (wp_give_back_all settled); [done|exact H|]. clear H. intros s1 H.
    wps H. wps H. by_again H.
  - wps H. apply wp_bind.
    assert (Hj : ∀ ts s', mine settled p R s' (set_tokens ts c) (CInsert (set_refer false (set_last_state_1 false i))) 0 0 0 →
      wp (jump p 1) (ends p R) s').
    { clear H. intros ts s2 H. wps H. by_again H. }
    destruct (optimistic_ _); [by eapply wp_release_all_but|].
    destruct (_ && _); [by eapply wp_release_all_but|]. apply wp_ret. apply (Hj (obtained_barriers_ c)).
    by destruct c.
Qed.

Lemma insert_state_1_ok p R s c i :
  mine settled p R s c (CInsert i) 0 0 0 → wp (insert_state_1 p) (ends p R) s.
Proof. intros H. unfold insert_state_1. wps H. wps H. wps H. wps H. wps H. wps H. by_leave H. Qed.

Lemma insert_state_2_leaf_ok p R s c i i0 leaf :
  mine settled p R s c (CInsert i0) 0 0 0 → wp (insert_state_2_leaf CAPACITY junkE p i leaf) (ends p R) s.
Proof.
  intros H. unfold insert_state_2_leaf. wps H. wps H. wps H. wps H. wps H.
  destruct (_ && _). { wps H. wps H. by_again H. }
  destruct (allocate _) as [rrep a']. apply wp_bind, wp_require. intros [l' [[rt bkey]|]] _.
  - wps H. wps H. wps H; [destruct (LeafNode.self_rep_ l' =? root_ (tree s))%Z; lia|]. wps H. wps H. wps H.
    eapply close_leave; [exact H| |exact I]. simpl. case_match; simpl; lia.
  - wps H. wps H. wps H. wps H. by_leave H.
Qed.

Lemma insert_state_2_inner_ok p R s c i i0 n :
  mine settled p R s c (CInsert i0) 0 0 0 → wp (insert_state_2_inner CAPACITY p i n) (ends p R) s.
Proof.
  intros H. unfold insert_state_2_inner. wps H. destruct (_ && _). { wps H. wps H. by_again H. }
  wps H. wps H. wps H. wps H. by_again H.
Qed.

Lemma insert_state_2_ok p R s c i :
  mine settled p R s c (CInsert i) 0 0 0 → wp (insert_state_2 CAPACITY junkE junkK p) (ends p R) s.
Proof.
  intros H. unfold insert_state_2. wps H. wps H. wps H. destruct x0 as [leaf|n].
  - by eapply insert_state_2_leaf_ok.
  - by eapply insert_state_2_inner_ok.
Qed.

(** A completion is counted: the context goes on when it was the last one. *)
Lemma insert_state_10_ok p R s c i a n f :
  mine settled p R s c (CInsert i) a n f → (0 < a → synced c) → (0 < f → calm c) →
  (busy (next_state c) = true → S (a + n + f) + write_back_completion_count_ i ≤ write_back_completion_target_ i) →
  (busy (next_state c) = false → a = 0 ∧ n = 0 ∧ f = 0) →
  wp (insert_state_10 p) (ends p R) s.
Proof.
  intros H Hsy Hca Hb Hnb. unfold insert_state_10. wps H. wps H.
  match goal with |- wp (if ?x =? ?y then _ else _) _ _ => destruct (Nat.eqb_spec x y) as [Heq|Hne] end; simpl in *.
  - assert (a = 0 ∧ n = 0 ∧ f = 0) as (-> & -> & ->).
    { destruct (busy (next_state c)); [specialize (Hb eq_refl); lia|auto]. }
    wps H. by_again H.
  - wps H. eapply inv_close; [exact H| |done|done|exact I]. unfold goal, done_. simpl.
    destruct (busy (next_state c)); [specialize (Hb eq_refl); lia|]. destruct Hnb as (-> & -> & ->); [done|lia].
Qed.

Lemma insert_state_9_split_ok p R s c i i0 :
  mine settled p R s c (CInsert i0) 0 0 0 → calm c → wp (insert_state_9_split CAPACITY junkK p i) (ends p R) s.
Proof.
  intros H Hc. unfold insert_state_9_split. destruct (list.last _) as [[parent position]|].
  - wps H. apply wp_bind, wp_require. intros [[lt rchild] bkey] _. destruct (_ <? CAPACITY).
    + wps H. wps H. wps H. wps H. wps H. by_leave H.
    + wps H. apply wp_bind, wp_require. intros [[lt' rt] b] _. wps H.
      wps H; [destruct (negb _); lia|]. wps H. wps H. wps H.
      eapply close_leave; [exact H| |exact I]. simpl. destruct (negb _); simpl; lia.
  - wps H. eapply insert_state_10_ok; [exact H|lia|lia| |done]. unfold calm in Hc. congruence.
Qed.

Lemma insert_state_9_flush_ok p R s c i i0 :
  mine settled p R s c (CInsert i0) 0 0 0 → wp (insert_state_9_flush p i) (ends p R) s.
Proof.
  intros H. unfold insert_state_9_flush. destruct (next_modified _) as [[n rest]|].
  - wps H. wps H. wps H. wps H. by_leave H.
  - wps H. wps H. by_again H.
Qed.

Lemma insert_state_9_ok p R s c i :
  mine settled p R s c (CInsert i) 0 0 0 → calm c → wp (insert_state_9 CAPACITY junkK p) (ends p R) s.
Proof.
  intros H Hc. unfold insert_state_9. wps H. destruct (child_node_split_ _);
    [by eapply insert_state_9_split_ok|by eapply insert_state_9_flush_ok].
Qed.

(** The context is given back to the pool. *)
Lemma mine_free δ p R s c d a n f slots (b : bool) :
  mine δ p R s c d a n f →
  mine δ p R (with_pools slots (if b then p :: free_insert_contexts_ s else free_insert_contexts_ s)
                (if b then free_search_contexts_ s else p :: free_search_contexts_ s) s) c d a n (S f).
Proof.
  intros H. pose proof H as [_ _ _ _ _ <- <- <- _]. eapply mine_transfer; [exact H|done|done| |done|done|].
  - intros q Hq. split_and!; [done|done|]. unfold fr. destruct b; simpl; rewrite cnt_cons, decide_False by done; lia.
  - unfold fr. destruct b; simpl; rewrite cnt_cons, decide_True by done; lia.
Qed.

Lemma insert_state_11_ok p R s c i :
  mine settled p R s c (CInsert i) 0 0 0 → calm c → wp (insert_state_11 p) (ends p R) s.
Proof.
  intros H Hc. unfold insert_state_11. wps H. wps H. apply wp_bind.
  eapply (wp_give_back_all settled); [done|exact H|]. clear H. intros s1 H. wps H. wps H.
  apply wp_bind, wp_modify, wp_ret.
  eapply inv_close; [exact (mine_free _ _ _ _ _ _ _ _ _ _ true H)| |lia|done|exact I].
  unfold goal, done_, calm in *. simpl. rewrite Hc. lia.
Qed.

Lemma insert_state_12_ok p R s c i a n f :
  mine settled p R s c (CInsert i) a n f → (0 < a → synced c) → (0 < f → calm c) → busy (next_state c) = true →
  S (a + n + f) + write_back_completion_count_ i ≤ write_back_completion_target_ i →
  wp (insert_state_12 CAPACITY junkK p) (ends p R) s.
Proof.
  intros H Hsy Hca Hb Hsum. unfold insert_state_12. wps H. wps H.
  match goal with |- wp (if ?x =? ?y then _ else _) _ _ => destruct (Nat.eqb_spec x y) as [Heq|Hne] end; simpl in *.
  - assert (a = 0 ∧ n = 0 ∧ f = 0) as (-> & -> & ->) by lia.
    apply wp_bind, wp_require. intros [[lt rt] b] _. wps H. wps H. wps H. wps H. wps H. wps H. wps H. wps H. wps H.
    by_leave H.
  - wps H. eapply inv_close; [exact H| |done|done|exact I]. unfold goal, done_. rewrite Hb. simpl. lia.
Qed.

Lemma insert_state_13_ok p R s c i :
  mine settled p R s c (CInsert i) 0 0 0 → wp (insert_state_13 p) (ends p R) s.
Proof.
  intros H. unfold insert_state_13. wps H. wps H. wps H. apply wp_bind.
  eapply (wp_give_back_all settled); [done|exact H|]. clear H. intros s1 H. wps H. wps H. wps H. wps H. by_again H.
Qed.

(** ** Searches *)
Lemma search_state_0_ok p R s c i :
  mine settled p R s c (CSearch i) 0 0 0 → reads_only c (CSearch i) → wp (search_state_0 p) (ends p R) s.
Proof.
  intros H Hr. unfold search_state_0. wps H. wps H. apply wp_bind.
  eapply (wp_ask_barrier _ _ _ _ _ _ _ _ _ _ H); [simpl; lia|done|..]; clear H.
  - intros k s1 Hk H. wps H. wps H. by_again H. intros k' Hk'. simpl in Hk'. apply elem_of_app in Hk' as [?|Hk']; [by apply Hr|].
    by apply list_elem_of_singleton in Hk' as ->.
  - intros s1 H. wps H. by_leave H. exact Hr.
Qed.

Lemma due_token δ p R s c d a n f i t :
  mine δ p R s c d a n f → (Z.of_nat (ntok i t c) + δ i t ≤ due δ i t (wd (manager s)))%Z.
Proof.
  intros H. unfold due. pose proof (held_ge i t (wd (manager s)) p c (m_ctx _ _ _ _ _ _ _ _ _ H)). lia.
Qed.

Lemma ntok_cons i t k ts c :
  ntok i t (set_tokens (k :: ts) c) = one i t k + ntok i t (set_tokens ts c).
Proof. unfold ntok, one. simpl. rewrite filter_cons. by case_decide. Qed.

Lemma search_state_1_ok p R s c i :
  mine settled p R s c (CSearch i) 0 0 0 → reads_only c (CSearch i) → wp (search_state_1 p) (ends p R) s.
Proof.
  intros H Hr. unfold search_state_1. wps H. wps H. wps H. apply wp_bind.
  assert (Hgo : ∀ ts s', (∀ k, k ∈ ts → k ∈ obtained_barriers_ c) → mine settled p R s' (set_tokens ts c) (CSearch i) 0 0 0 →
    wp (_ ← goto_next p 2; b ← asynch_read (s_node_ref_ i) (s_buffer_ i) p;
        _ ← put_search p (mk_search (s_key i) (s_node_ref_ i) b); mret CONTEXT_TRANSIT) (ends p R) s').
  { clear H. intros ts s1 Hts H. wps H. wps H. wps H. wps H. by_leave H. intros k Hk. by apply Hr, Hts. }
  assert (Hsame : wp (mret tt : cmd unit) (λ _, wp (_ ← goto_next p 2; b ← asynch_read (s_node_ref_ i) (s_buffer_ i) p;
        _ ← put_search p (mk_search (s_key i) (s_node_ref_ i) b); mret CONTEXT_TRANSIT) (ends p R)) s).
  { wps H. eapply (Hgo (obtained_barriers_ c)); [done|]. by destruct c. }
  destruct (obtained_barriers_ c) as [|front [|k2 [|k3 ks]]] eqn:Et; try exact Hsame. clear Hsame.
  assert (Hf : type_ front = READ_BARRIER) by (apply Hr; rewrite Et; constructor).
  assert (Ec : c = set_tokens [front; k2] c) by (rewrite <- Et; by destruct c).
  destruct front as [fi ft]. simpl in Hf. subst ft. simpl.
  apply wp_bind. eapply (wp_give_back settled); [exact H| |].
  { pose proof (due_token _ _ _ _ _ _ _ _ _ fi READ_BARRIER H) as Hd.
    assert (1 ≤ ntok fi READ_BARRIER c) by (apply ntok_in; rewrite Et; constructor).
    change (settled fi READ_BARRIER) with 0%Z in Hd. lia. }
  clear H. intros s1 H. wps H. rewrite Et. simpl.
  eapply (wp_set_obtained _ settled); [exact H| |].
  { intros i' t. assert (En : ntok i' t c = one i' t (mk_token fi READ_BARRIER) + ntok i' t (set_tokens [k2] c))
      by (by rewrite <- ntok_cons, <- Ec).
    unfold lose, settled. lia. }
  clear H. intros s2 H. eapply (Hgo [k2]); [|exact H]. intros k Hk. constructor. done.
Qed.

Lemma give_back_reads_ok p R c d (ts : list barrier_token) : ∀ us s (Q : unit → pstate → Prop),
  obtained_barriers_ c = us ++ ts → (∀ k, k ∈ ts → type_ k = READ_BARRIER) →
  mine (λ i t, - Z.of_nat (ntok i t (set_tokens us c)))%Z p R s c d 0 0 0 →
  (∀ s', mine (λ i t, - Z.of_nat (ntok i t c))%Z p R s' c d 0 0 0 → Q tt s') → wp (give_back_reads ts) Q s.
Proof.
  induction ts as [|[ki kt] ts IH]; intros us s Q Ec Hk H HQ; simpl.
  - wps H. apply HQ. rewrite app_nil_r in Ec. rewrite <- Ec in H. by destruct c.
  - assert (Hkt : kt = READ_BARRIER) by (apply (Hk (mk_token ki kt)); constructor). subst kt.
    assert (En : ∀ i t, ntok i t c = ntok i t (set_tokens us c) + (one i t (mk_token ki READ_BARRIER) + ntok i t (set_tokens ts c))).
    { intros i t. rewrite <- ntok_cons, <- ntok_split, <- Ec. by destruct c. }
    apply wp_bind. eapply wp_give_back; [exact H| |].
    { pose proof (due_token _ _ _ _ _ _ _ _ _ ki READ_BARRIER H) as Hd. rewrite En, one_eq in Hd.
      unfold due in *. lia. }
    clear H. intros s1 H. eapply (IH (us ++ [mk_token ki READ_BARRIER])); [by rewrite <- app_assoc| | |exact HQ].
    { intros k Hin. apply Hk. by constructor. }
    destruct H as [H0 H1 H2 H3 H4 H5 H6 H7 H8]. split; auto. revert H1. apply manager_ok_ext. intros i t.
    unfold lose. rewrite ntok_split, ntok_cons. change (ntok i t (set_tokens [] c)) with 0. lia.
Qed.

Lemma search_done_ok p R s c i key found :
  mine settled p R s c (CSearch i) 0 0 0 → reads_only c (CSearch i) → calm c →
  wp (search_done p key found) (ends p R) s.
Proof.
  intros H Hr Hc. unfold search_done. wps H. wps H. wps H. wps H. apply wp_bind.
  eapply (give_back_reads_ok p R c (CSearch i) (obtained_barriers_ c) []); [done|done| |].
  { destruct H as [H0 H1 H2 H3 H4 H5 H6 H7 H8]. split; auto. }
  clear H. intros s1 H. apply wp_bind. eapply (wp_set_obtained _ settled); [exact H| |].
  { intros i' t. change (ntok i' t (set_tokens [] c)) with 0. unfold settled. lia. }
  clear H. intros s2 H. apply wp_bind, wp_modify, wp_ret.
  eapply inv_close; [exact (mine_free _ _ _ _ _ _ _ _ _ _ false H)|simpl; lia|lia|by intros _|].
  intros k Hk. by apply elem_of_nil in Hk.
Qed.

Lemma search_state_2_ok p R s c i :
  mine settled p R s c (CSearch i) 0 0 0 → reads_only c (CSearch i) → calm c →
  wp (search_state_2 CAPACITY junkE junkK p) (ends p R) s.
Proof.
  intros H Hr Hc. unfold search_state_2. wps H. wps H. wps H. destruct x0 as [leaf|n].
  - wps H. by eapply search_done_ok.
  - wps H. destruct (_ <? 0)%Z; [by eapply search_done_ok|]. wps H. wps H. wps H. by_again H. exact Hr.
Qed.

(** ** Every step preserves the invariant *)
Lemma wp_context_any p s (Q : call_back_context → pstate → Prop) :
  (∀ c, ctxs s !! p = Some c → Q c s) → wp (get_context p) Q s.
Proof. intros H x s' E. unfold get_context in E. apply bind_Some in E as (c & Hc & E). simplify_eq. by apply H. Qed.

Lemma insert_step_ok p R s i :
  Inv (p :: R) s → datas s !! p = Some (CInsert i) → wp (insert_step CAPACITY junkE junkK p) (ends p R) s.
Proof.
  intros HI Hd. unfold insert_step. apply wp_bind, wp_context_any. intros c Hc.
  assert (Hs : busy (current_state c) = false → mine settled p R s c (CInsert i) 0 0 0 ∧ calm c).
  { intros Hb. destruct (sole _ _ _ _ _ HI Hc Hd Hb) as (H & _ & Hcalm & _). done. }
  destruct (inv_open _ _ _ _ _ HI Hc Hd) as (a & n & f & H & Hsum & Hsy & Hca & _).
  pose proof (m_act _ _ _ _ _ _ _ _ _ H) as Ha. rewrite act_cons, decide_True in Ha by done.
  destruct a as [|a]; [lia|]. apply (proj1 (mine_cons _ _ _ _ _ _ _ _ _)) in H. specialize (Hsy ltac:(lia)).
  assert (Hbz : busy (current_state c) = true →
    busy (next_state c) = true ∧ S (a + n + f) + write_back_completion_count_ i ≤ write_back_completion_target_ i).
  { intros Hb. destruct Hsy as [Hsy|[Hsy _]]; [|by rewrite Hsy in Hb]. rewrite Hsy in Hb. split; [done|].
    unfold goal, done_ in Hsum. rewrite Hb in Hsum. lia. }
  repeat match goal with
  | |- wp (if (?x =? ?y)%Z then _ else _) _ _ => destruct (Z.eqb_spec x y) as [E|_]
  end; try (apply wp_require; by intros ?);
    rewrite E in Hs, Hbz; try (destruct Hs as [H' Hcalm]; [done|]).
  - by eapply insert_state_0_ok.
  - by eapply insert_state_10001_ok.
  - by eapply insert_state_1_ok.
  - by eapply insert_state_2_ok.
  - by eapply insert_state_9_ok.
  - destruct (Hbz eq_refl) as [Hb Hle]. eapply insert_state_10_ok; [exact H|done|done|done|congruence].
  - by eapply insert_state_11_ok.
  - destruct (Hbz eq_refl) as [Hb Hle]. eapply insert_state_12_ok; [exact H|done..].
  - by eapply insert_state_13_ok.
Qed.

Lemma search_step_ok p R s i :
  Inv (p :: R) s → datas s !! p = Some (CSearch i) → wp (search_step CAPACITY junkE junkK p) (ends p R) s.
Proof.
  intros HI Hd. unfold search_step. apply wp_bind, wp_context_any. intros c Hc.
  assert (Hs : busy (current_state c) = false →
    mine settled p R s c (CSearch i) 0 0 0 ∧ reads_only c (CSearch i) ∧ calm c).
  { intros Hb. destruct (sole _ _ _ _ _ HI Hc Hd Hb) as (H & Hr & Hcalm & _). done. }
  repeat match goal with
  | |- wp (if (?x =? ?y)%Z then _ else _) _ _ => destruct (Z.eqb_spec x y) as [E|_]
  end; try (apply wp_require; by intros ?); rewrite E in Hs; destruct Hs as (H & Hr & Hcalm); try done.
  - by eapply search_state_0_ok.
  - by eapply search_state_1_ok.
  - by eapply search_state_2_ok.
Qed.

Lemma step_ok p R s : Inv (p :: R) s → wp (step CAPACITY junkE junkK p) (ends p R) s.
Proof.
  intros HI o s' E. unfold step in E. destruct (datas s !! p) as [[i|i]|] eqn:Hd; [..|done].
  - by eapply (insert_step_ok p R s i HI Hd).
  - by eapply (search_step_ok p R s i HI Hd).
Qed.

(** ** The scheduler *)
Lemma inv_transfer R R' s s' :
  Inv R s → manager_ok settled (manager s') → ctxs s' = ctxs s → (∀ q t, is_pending q t (manager s') ↔ is_pending q t (manager s)) →
  datas s' = datas s → (∀ q, act R' s' q = act R s q ∧ pas s' q = pas s q ∧ fr s' q = fr s q) → Inv R' s'.
Proof.
  intros [H0 H1 H2 H3] Hm Hc Hp Hd Hq. split; [by rewrite Hc, Hd|done| |].
  - intros q t Hpq [sc Hsc]. apply (H2 q t); [by apply Hp|]. exists sc. by rewrite <- Hd.
  - intros q c d. destruct (Hq q) as (-> & -> & ->). rewrite Hc, Hd. apply H3.
Qed.

Lemma take_ready_perm sort max cs l now later :
  take_ready sort max cs l = (now, later) → l ≡ₚ now ++ later.
Proof.
  unfold take_ready. intros E. assert (Hp : (if (sort : bool) then merge_sort (context_le cs) l else l) ≡ₚ l).
  { destruct sort; [apply merge_sort_Permutation|done]. }
  destruct (0 <? max); simplify_eq; by rewrite ?app_nil_r, Hp.
Qed.

(** The contexts taken out of a queue are about to run. *)
Lemma take_new sort max cs now later g s :
  Inv [] s → take_ready sort max cs (admission_contexts_ s) = (now, later) → Inv now (with_admission later g s).
Proof.
  intros HI E%take_ready_perm. eapply inv_transfer; [exact HI|apply HI|done|done|done|].
  intros q. split_and!; [|done|done]. unfold act. simpl.
  rewrite (cnt_perm q _ _ E), cnt_app. change (cnt q []) with 0. lia.
Qed.

Lemma take_blk_ready sort max cs now later s :
  Inv [] s → take_ready sort max cs (blk_ready_contexts s) = (now, later) →
  Inv now (with_io (pending_contexts_ s) (pending_ids_ s) later s).
Proof.
  intros HI E%take_ready_perm. eapply inv_transfer; [exact HI|apply HI|done|done|done|].
  intros q. split_and!; [|done|done]. unfold act. simpl.
  rewrite (cnt_perm q _ _ E), cnt_app. change (cnt q []) with 0. lia.
Qed.

Lemma take_barrier_ready sort max cs now later s :
  Inv [] s → take_ready sort max cs (ready_contexts_ (wd (manager s))) = (now, later) →
  Inv now (with_manager (mk_manager (barrier_map_ (manager s)) (mk_world (contexts (wd (manager s))) later)) s).
Proof.
  intros HI E%take_ready_perm. eapply inv_transfer; [exact HI| |done|done|done|].
  - simpl. apply (manager_ok_world settled); [apply HI|by intros ?|done].
  - intros q. split_and!; [|done|done]. unfold act. simpl.
    rewrite (cnt_perm q _ _ E), cnt_app. change (cnt q []) with 0. lia.
Qed.

(** A shuffle of the pending contexts. *)
Lemma shuffle_pending l s :
  Inv [] s → l ≡ₚ pending_contexts_ s → Inv [] (with_io l (pending_ids_ s) (blk_ready_contexts s) s).
Proof.
  intros HI E. eapply inv_transfer; [exact HI|apply HI|done|done|done|]. intros q. split_and!; [done| |done].
  unfold pas. simpl. by rewrite (cnt_perm q _ _ E).
Qed.

(** A completion makes its context ready in the state it chose. *)
Lemma completion_one {X} R s p t (k : cmd X) Q :
  Inv R s → list.last (pending_contexts_ s) = Some p → (∀ s', Inv R s' → wp k Q s') →
  wp (_ ← modify (λ s0, with_io (removelast (pending_contexts_ s)) (removelast (pending_ids_ s)) (blk_ready_contexts s0) s0);
      _ ← update_call_back p (λ c, Some (set_tag t c));
      _ ← do_transition p;
      _ ← modify (λ s, with_io (pending_contexts_ s) (pending_ids_ s) (blk_ready_contexts s ++ [p]) s); k) Q s.
Proof.
  intros HI Hl Hk.
  destruct (decide (p < length (ctxs s))) as [Hlt|Hge].
  2: { apply wp_bind, wp_modify, wp_bind. intros x s' E. unfold update_call_back, update_context in E. simpl in E.
       apply bind_Some in E as (w & E & _). apply bind_Some in E as (c & Hc & _). apply lookup_lt_Some in Hc.
       by destruct Hge. }
  destruct (lookup_lt_exists (ctxs s) p Hlt) as [c Hc].
  destruct (lookup_lt_exists (datas s) p) as [d Hd]; [by rewrite (inv_len _ _ HI)|].
  destruct (inv_open _ _ _ _ _ HI Hc Hd) as (a & n & f & H & Hsum & Hsy & Hca & Hr).
  apply last_Some in Hl as [pc Hpc]. rewrite Hpc, removelast_last.
  assert (Hn : n = S (waits p (manager s) + cnt p pc)).
  { rewrite <- (m_pas _ _ _ _ _ _ _ _ _ H). unfold pas. rewrite Hpc, cnt_app, cnt_cons, decide_True by done.
    unfold cnt at 2. simpl. lia. }
  apply wp_bind, wp_modify.
  match goal with |- wp _ _ ?x => assert (H1 : mine settled p R x c d a (n - 1) f) end.
  { pose proof H as [_ _ _ _ _ <- _ <- _]. eapply mine_transfer; [exact H|done|done| |done| |done].
    - intros q Hq. split_and!; [done| |done]. unfold pas. simpl. rewrite Hpc, cnt_app, cnt_cons, decide_False by done.
      unfold cnt at 3. simpl. lia.
    - unfold pas. simpl. lia. }
  clear H. apply wp_bind. eapply (wp_update settled settled); [exact H1|]. intros c' [= <-]. split_and!; [done|by left|].
  clear H1. intros s1 H. wps H. apply wp_bind, wp_modify, Hk.
  match goal with |- Inv _ ?x => assert (H1 : mine settled p R x (moved_on (set_tag t c)) d (S a) (n - 1) f) end.
  { pose proof H as [_ _ _ _ _ <- <- <- _]. eapply mine_transfer; [exact H|done|done| | |done|done].
    - intros q Hq. split_and!; [|done|done]. unfold act. simpl. rewrite cnt_app, cnt_cons, decide_False by done.
      unfold cnt at 4. simpl. lia.
    - unfold act. simpl. rewrite cnt_app, cnt_cons, decide_True by done. unfold cnt at 4. simpl. lia. }
  eapply inv_close; [exact H1| |by left|done|by destruct d].
  destruct (goal_next c (moved_on (set_tag t c)) d eq_refl) as [-> ->]. lia.
Qed.

Lemma completion_loop_ok max : ∀ R s, Inv R s → wp (completion_loop max) (λ _, Inv R) s.
Proof.
  induction max as [|max IH]; intros R s HI; simpl; [by apply wp_ret|].
  apply wp_bind, wp_get, wp_bind, wp_get. destruct (list.last (pending_contexts_ s)) as [p|] eqn:Hl; [|by apply wp_ret].
  apply wp_bind, wp_require. intros t _. eapply completion_one; [done|done|]. intros s1 H1.
  apply wp_bind. eapply wp_mono; [apply (IH R); exact H1|]. intros n s2 H2. by apply wp_ret.
Qed.

(** A request takes a context out of the pool. *)
Lemma take_free R s s' p (b : bool) c d :
  Inv R s → ctxs s !! p = Some c → datas s !! p = Some d →
  (if b then free_insert_contexts_ s else free_search_contexts_ s) =
    p :: (if b then free_insert_contexts_ s' else free_search_contexts_ s') →
  (if b then free_search_contexts_ s else free_insert_contexts_ s) =
    (if b then free_search_contexts_ s' else free_insert_contexts_ s') →
  manager s' = manager s → datas s' = datas s → pending_contexts_ s' = pending_contexts_ s →
  blk_ready_contexts s' = blk_ready_contexts s → admission_contexts_ s' = admission_contexts_ s →
  mine settled p R s' c d 0 0 0 ∧ reads_only c d.
Proof.
  intros HI Hc Hd Hf Hg E1 E2 E3 E4 E5. destruct (inv_open _ _ _ _ _ HI Hc Hd) as (a & n & f & H & Hsum & Hsy & Hca & Hr).
  assert (Hfr : ∀ q, fr s q = (if decide (p = q) then 1 else 0) + fr s' q).
  { intros q. unfold fr. destruct b; rewrite Hf, Hg, cnt_cons; lia. }
  pose proof (m_fr _ _ _ _ _ _ _ _ _ H) as Ef. rewrite Hfr, decide_True in Ef by done.
  assert (Hcalm : calm c) by (apply Hca; lia). unfold calm in Hcalm.
  assert (Hg1 : goal c d = 1) by (unfold goal; rewrite Hcalm; by destruct d).
  assert (a = 0 ∧ n = 0 ∧ f = 1) as (-> & -> & ->) by lia. split; [|done].
  assert (Ea : ∀ q, act R s' q = act R s q) by (intros q; unfold act; by rewrite E1, E4, E5).
  assert (Ep : ∀ q, pas s' q = pas s q) by (intros q; unfold pas; by rewrite E1, E3).
  eapply mine_transfer; [exact H|done|done| | | |lia].
  - intros q Hq. rewrite Ea, Ep, Hfr, decide_False by done. done.
  - rewrite Ea. apply H.
  - rewrite Ep. apply H.
Qed.

(** The second half of an admission: the context is reset and queued. *)
Lemma admit_rest R s p c d :
  mine settled p R s c d 0 0 0 → reads_only c d →
  wp (g ← get context_id_generator_;
      _ ← update_call_back p (λ c, Some (set_id g (reset_state c)));
      _ ← modify (λ s, with_pools (free_context_slots_ s - 1) (free_insert_contexts_ s) (free_search_contexts_ s) s);
      modify (λ s, with_admission (admission_contexts_ s ++ [p]) (g + 1) s)) (λ _, Inv R) s.
Proof.
  intros H Hr. wps H. apply wp_bind. eapply (wp_update settled settled); [exact H|]. intros c' [= <-].
  split_and!; [done|by right|]. set (g := context_id_generator_ s). clearbody g. clear H. intros s1 H. wps H. apply wp_modify.
  match goal with |- Inv _ ?x => assert (H1 : mine settled p R x (set_id g (reset_state c)) d 1 0 0) end.
  { pose proof H as [_ _ _ _ _ Ha _ _ _]. eapply mine_transfer; [exact H|done|done| | |apply H|apply H].
    - intros q Hq. split_and!; [|done|done]. unfold act. simpl. rewrite cnt_app, cnt_cons, decide_False by done.
      unfold cnt at 5. simpl. lia.
    - unfold act in *. simpl. rewrite cnt_app, cnt_cons, decide_True by done. unfold cnt at 5. simpl. lia. }
  eapply inv_close; [exact H1| |by right|lia|by destruct d]. destruct d; simpl; lia.
Qed.

Lemma admit_request_ok r s : Inv [] s → wp (admit_request r) (λ _, Inv []) s.
Proof.
  intros HI. unfold admit_request. apply wp_bind, wp_get, wp_bind. destruct r as [key|key val].
  - apply wp_bind. intros p s1 E. unfold get_free_search_context in E.
    destruct (free_search_contexts_ s) as [|p' rest] eqn:Ef; [done|]. injection E as <- <-.
    apply wp_bind. intros sc s2 E. unfold get_search in E. simpl in E.
    destruct (datas s !! p') as [[?|sc']|] eqn:Hd; [done| |done]. simplify_eq.
    destruct (lookup_lt_exists (ctxs s) p') as [c Hc]; [rewrite <- (inv_len _ _ HI); by eapply lookup_lt_Some|].
    destruct (take_free [] s (with_pools (free_context_slots_ s) (free_insert_contexts_ s) rest s) p' false c (CSearch sc))
      as [H Hr]; [done..|].
    wps H. wps H. by eapply admit_rest.
  - apply wp_bind. intros p s1 E. unfold get_free_insert_context in E.
    destruct (free_insert_contexts_ s) as [|p' rest] eqn:Ef; [done|]. injection E as <- <-.
    apply wp_bind. intros ic s2 E. unfold get_insert in E. simpl in E.
    destruct (datas s !! p') as [[ic'|?]|] eqn:Hd; [|done|done]. simplify_eq.
    destruct (lookup_lt_exists (ctxs s) p') as [c Hc]; [rewrite <- (inv_len _ _ HI); by eapply lookup_lt_Some|].
    destruct (take_free [] s (with_pools (free_context_slots_ s) rest (free_search_contexts_ s) s) p' true c (CInsert ic))
      as [H Hr]; [done..|].
    wps H. wps H. by eapply admit_rest.
Qed.

Lemma inv_requests R s rq n : Inv R s → Inv R (with_requests rq n s).
Proof. intros HI. eapply inv_transfer; [exact HI|apply HI|done|done|done|done]. Qed.

(** ** The initial state *)
Lemma cnt_nodup q l : NoDup l → cnt q l ≤ 1.
Proof.
  induction l as [|x l IH]; intros Hl; [unfold cnt; simpl; lia|]. apply list.NoDup_cons in Hl as [Hx Hl].
  rewrite cnt_cons. specialize (IH Hl). case_decide; [|lia]. subst. apply cnt_zero in Hx. lia.
Qed.

Lemma pool_unique n q : cnt q (rev ((λ i, 2 * i) <$> seq 0 n)) + cnt q (rev ((λ i, 2 * i + 1) <$> seq 0 n)) ≤ 1.
Proof.
  rewrite <- !(cnt_perm q _ _ (Permutation_rev _)).
  set (l1 := (λ i, 2 * i) <$> seq 0 n). set (l2 := (λ i, 2 * i + 1) <$> seq 0 n).
  pose proof (cnt_nodup q l1 ltac:(apply NoDup_fmap_2; [intros x y; simpl; lia|apply NoDup_seq])).
  pose proof (cnt_nodup q l2 ltac:(apply NoDup_fmap_2; [intros x y; simpl; lia|apply NoDup_seq])).
  destruct (decide (q ∈ l1)) as [Hin1|Hn1]; [|apply cnt_zero in Hn1; lia].
  destruct (decide (q ∈ l2)) as [Hin2|Hn2]; [|apply cnt_zero in Hn2; lia].
  apply list_elem_of_fmap in Hin1 as (x & -> & _). apply list_elem_of_fmap in Hin2 as (y & E & _). lia.
Qed.

Lemma new_pull_tree_inv n t : Inv [] (new_pull_tree n t : pstate).
Proof.
  assert (Hc : ∀ q c, ctxs (new_pull_tree n t : pstate) !! q = Some c → c = new_context).
  { intros q c. unfold ctxs, new_pull_tree. simpl. by intros [-> _]%lookup_replicate_1. }
  split.
  - unfold ctxs, new_pull_tree. simpl. by rewrite length_replicate.
  - apply (reachable_ok (length (datas (new_pull_tree n t : pstate)))). constructor.
  - intros q ty (i & b & Hb & _). unfold barrier_at in Hb. simpl in Hb. by destruct (i <? 0)%Z.
  - intros q c d Hq Hd. apply Hc in Hq as ->.
    assert (Hf : fr (new_pull_tree n t : pstate) q ≤ 1) by apply pool_unique.
    split_and!; [|by right|done|].
    + change (act [] (new_pull_tree n t) q) with 0. change (pas (new_pull_tree n t) q) with 0.
      destruct d; simpl; lia.
    + destruct d; [done|]. intros k Hk. by apply elem_of_nil in Hk.
Qed.

End steps.
End PullSafe.
