(* ===== verification/PullAnswers.v ===== *)
(** The requests of the pull-mode tree: each one is in the queue, in the context
    that works on it, or answered, and it is answered once. *)
From Stdlib Require Import ZArith Lia.
From stdpp Require Import base list gmap sorting numbers.
From S2P Require Import Prelude KV Leaf Inner Store Barrier BarrierFrame PullState PullTree PullSafe.

Module PullAnswers.
Import Barrier BarrierFrame Pull PullTree PullSafe.

Definition req_of (d : context_data) : request :=
  match d with CInsert i => INSERT_REQUEST (i_key i) (i_val i) | CSearch i => SEARCH_REQUEST (s_key i) end.
Definition req_of_answer (a : answer) : request :=
  match a with Searched k _ => SEARCH_REQUEST k | Inserted k v => INSERT_REQUEST k v end.

Section answers.
Context {A : Type} `{!Allocator A}.
Context (CAPACITY : nat) (junkE : list (Z * Z)) (junkK : list Z).
Local Abbreviation cmd := (@cmd A).
Local Abbreviation pstate := (pstate A).
Implicit Types (s : pstate) (p q : nat) (R : list nat).

(** ** The requests in flight *)
Definition flight_of (s : pstate) (q : nat) : list request :=
  if decide (fr s q = 0) then (match datas s !! q with Some d => [req_of d] | None => [] end) else [].
Definition flight (s : pstate) : list request := seq 0 (length (datas s)) ≫= flight_of s.

Lemma list_bind_ext_in {X Y} (f g : X → list Y) (l : list X) :
  (∀ x, x ∈ l → f x = g x) → l ≫= f = l ≫= g.
Proof.
  induction l as [|x l IH]; intros H; [done|]. simpl. rewrite (H x) by constructor. f_equal. apply IH.
  intros y Hy. apply H. by constructor.
Qed.

Lemma bind_perm_one {X} (f g : nat → list X) (p n : nat) :
  p < n → (∀ q, q ≠ p → f q = g q) → (seq 0 n ≫= f) ++ g p ≡ₚ (seq 0 n ≫= g) ++ f p.
Proof.
  intros Hp Hq. replace n with (p + (1 + (n - p - 1))) by lia. rewrite !seq_app, !bind_app. simpl.
  rewrite !app_nil_r.
  rewrite (list_bind_ext_in f g (seq 0 p)) by (intros x Hx; apply Hq; apply elem_of_seq in Hx; lia).
  rewrite (list_bind_ext_in f g (seq (p + 1) _)) by (intros x Hx; apply Hq; apply elem_of_seq in Hx; lia).
  solve_Permutation.
Qed.

(** What the machine owes: the requests [issued] so far, [n] contexts in each
    pool. *)
Record acct (issued : list request) (n : nat) (s : pstate) : Prop := {
  a_requests : issued ≡ₚ (req_of_answer <$> answers s) ++ request_queue_ s ++ flight s;
  a_pending : pending_request_ s = Z.of_nat (length (request_queue_ s) + length (flight s));
  a_slots : (free_context_slots_ s + Z.of_nat (length (flight s)) = Z.of_nat n)%Z }.

(** ** What commands leave alone *)
Definition same s s' : Prop :=
  datas s' = datas s ∧ free_insert_contexts_ s' = free_insert_contexts_ s ∧
  free_search_contexts_ s' = free_search_contexts_ s ∧ answers s' = answers s ∧
  request_queue_ s' = request_queue_ s ∧ pending_request_ s' = pending_request_ s ∧
  free_context_slots_ s' = free_context_slots_ s.

Lemma same_refl s : same s s.
Proof. by split_and!. Qed.
Lemma same_trans s1 s2 s3 : same s1 s2 → same s2 s3 → same s1 s3.
Proof.
  intros (? & ? & ? & ? & ? & ? & ?) (? & ? & ? & ? & ? & ? & ?). split_and!; (etrans; [eassumption|assumption]).
Qed.

Definition quiet {X} (c : cmd X) : Prop := ∀ s, wp c (λ _, same s) s.

Lemma quiet_ret {X} (x : X) : quiet (mret x).
Proof. intros s. by apply wp_ret, same_refl. Qed.
Lemma quiet_bind {X Y} (c : cmd X) (k : X → cmd Y) : quiet c → (∀ x, quiet (k x)) → quiet (c ≫= k).
Proof.
  intros Hc Hk s. apply wp_bind. eapply wp_mono; [apply Hc|]. intros x s1 H1.
  eapply wp_mono; [apply Hk|]. intros y s2 H2. eapply same_trans; [exact H1|exact H2].
Qed.
Lemma quiet_get {X} (f : pstate → X) : quiet (get f).
Proof. intros s. by apply wp_get, same_refl. Qed.
Lemma quiet_require {X} (o : option X) : quiet (require o).
Proof. intros s. apply wp_require. intros x _. apply same_refl. Qed.
Lemma quiet_assert b : quiet (assert_ b).
Proof. apply quiet_require. Qed.
Lemma quiet_modify (f : pstate → pstate) : (∀ s, same s (f s)) → quiet (modify f).
Proof. intros H s. by apply wp_modify. Qed.
Lemma quiet_context p : quiet (get_context p).
Proof. intros s x s' E. apply bind_Some in E as (c & _ & E). simplify_eq. apply same_refl. Qed.
Lemma quiet_update p g : quiet (update_call_back p g).
Proof. intros s x s' E. apply bind_Some in E as (w & _ & E). simplify_eq. by split_and!. Qed.
Lemma quiet_ask t i p : quiet (ask_barrier t i p).
Proof. intros s x s' E. apply bind_Some in E as ([ok m] & _ & E). simplify_eq. by split_and!. Qed.
Lemma quiet_give_back t i : quiet (give_back t i).
Proof. intros s x s' E. apply bind_Some in E as (m & _ & E). simplify_eq. by split_and!. Qed.
Lemma quiet_give_back_all p : quiet (give_back_all p).
Proof. intros s x s' E. apply bind_Some in E as (m & _ & E). simplify_eq. by split_and!. Qed.
Lemma quiet_allocate : quiet blk_allocate.
Proof. intros s x s' E. unfold blk_allocate in E. destruct (allocate _). simplify_eq. by split_and!. Qed.
Lemma quiet_write addr b p : quiet (asynch_write addr b p).
Proof.
  intros s. unfold asynch_write, blk_write, submit. apply wp_bind, wp_modify, wp_modify.
  by destruct (bool_decide _).
Qed.
Lemma quiet_read addr b p : quiet (asynch_read addr b p).
Proof. intros s. unfold asynch_read, blk_read, submit. by apply wp_bind, wp_get, wp_bind, wp_modify, wp_ret. Qed.

Lemma quiet_goto p st : quiet (goto_next p st).
Proof. apply quiet_update. Qed.
Lemma quiet_transition p : quiet (do_transition p).
Proof. apply quiet_update. Qed.
Lemma quiet_set_obtained p ts : quiet (set_obtained p ts).
Proof. apply quiet_update. Qed.
Lemma quiet_jump p st : quiet (jump p st).
Proof. apply quiet_bind; [apply quiet_goto|]. intros _. apply quiet_bind; [apply quiet_transition|]. intros _. apply quiet_ret. Qed.
Lemma quiet_release_all_but n p : quiet (release_all_but n p).
Proof.
  apply quiet_bind; [apply quiet_context|]. intros cb. apply quiet_bind; [apply quiet_assert|]. intros _.
  apply quiet_bind; [apply quiet_set_obtained|]. intros _. apply quiet_bind; [apply quiet_give_back_all|]. intros _.
  apply quiet_bind; [apply quiet_context|]. intros cb2. apply quiet_set_obtained.
Qed.
Lemma quiet_give_back_reads ts : quiet (give_back_reads ts).
Proof.
  induction ts as [|t ts IH]; [apply quiet_ret|]. apply quiet_bind; [apply quiet_give_back|]. by intros _.
Qed.

(** ** A context at work *)
(** Context [p] works on the request of its data [d]. *)
Record works p (issued : list request) (n : nat) (d : context_data) s : Prop := {
  w_acct : acct issued n s;
  w_free : fr s p = 0;
  w_data : datas s !! p = Some d }.

Lemma flight_same s s' : same s s' → flight s' = flight s.
Proof.
  intros (E1 & E2 & E3 & _). unfold flight. rewrite E1. apply list_bind_ext_in. intros q _.
  unfold flight_of, fr. by rewrite E1, E2, E3.
Qed.

Lemma acct_same issued n s s' : same s s' → acct issued n s → acct issued n s'.
Proof.
  intros Hs [H1 H2 H3]. pose proof (flight_same _ _ Hs) as Ef. destruct Hs as (E1 & E2 & E3 & E4 & E5 & E6 & E7).
  split; by rewrite ?Ef, ?E4, ?E5, ?E6, ?E7.
Qed.

Lemma works_same p issued n d s s' : same s s' → works p issued n d s → works p issued n d s'.
Proof.
  intros Hs [H1 H2 H3]. split; [by eapply acct_same| |].
  - destruct Hs as (E1 & E2 & E3 & _). unfold fr in *. by rewrite E2, E3.
  - destruct Hs as (-> & _). done.
Qed.

Lemma wp_quiet {X} (c : cmd X) p issued n d s Q :
  works p issued n d s → quiet c → (∀ x s', works p issued n d s' → Q x s') → wp c Q s.
Proof. intros H Hc HQ. eapply wp_mono; [apply Hc|]. intros x s' Hs. apply HQ. eapply works_same; [exact Hs|exact H]. Qed.

(** New data for the same request. *)
Lemma works_put p issued n d d' s :
  works p issued n d s → req_of d' = req_of d →
  works p issued n d' (with_datas (<[p := d']> (datas s)) s).
Proof.
  intros [H1 H2 H3] Hr. assert (Hf : flight (with_datas (<[p := d']> (datas s)) s) = flight s).
  { unfold flight. simpl. rewrite length_insert. apply list_bind_ext_in. intros q _. unfold flight_of.
    change (fr (with_datas (<[p := d']> (datas s)) s) q) with (fr s q). destruct (decide (fr s q = 0)); [|done]. simpl.
    destruct (decide (p = q)) as [->|Hne]; [|by rewrite list_lookup_insert_ne].
    rewrite list_lookup_insert_eq by (by eapply lookup_lt_Some). by rewrite H3, Hr. }
  split; [|done|simpl; apply list_lookup_insert_eq; by eapply lookup_lt_Some].
  destruct H1 as [G1 G2 G3]. split; by rewrite Hf.
Qed.

Lemma wpa_get_insert p issued n i s Q :
  works p issued n (CInsert i) s → Q i s → wp (get_insert p) Q s.
Proof. intros H HQ x s' E. unfold get_insert in E. rewrite (w_data _ _ _ _ _ H) in E. by simplify_eq. Qed.
Lemma wpa_get_search p issued n i s Q :
  works p issued n (CSearch i) s → Q i s → wp (get_search p) Q s.
Proof. intros H HQ x s' E. unfold get_search in E. rewrite (w_data _ _ _ _ _ H) in E. by simplify_eq. Qed.
Lemma wpa_put_insert p issued n i i' s Q :
  works p issued n (CInsert i) s → i_key i' = i_key i → i_val i' = i_val i →
  (∀ s', works p issued n (CInsert i') s' → Q tt s') → wp (put_insert p i') Q s.
Proof. intros H Hk Hv HQ. apply wp_modify, HQ. eapply works_put; [done|]. simpl. by rewrite Hk, Hv. Qed.
Lemma wpa_put_search p issued n i i' s Q :
  works p issued n (CSearch i) s → s_key i' = s_key i →
  (∀ s', works p issued n (CSearch i') s' → Q tt s') → wp (put_search p i') Q s.
Proof. intros H Hk HQ. apply wp_modify, HQ. eapply works_put; [done|]. simpl. by rewrite Hk. Qed.

(** The answer: the context leaves the flight, and its request is answered. *)
Lemma works_answer p issued n d s s' a :
  works p issued n d s → req_of_answer a = req_of d → datas s' = datas s → fr s' p ≠ 0 → (∀ q, q ≠ p → fr s' q = fr s q) →
  answers s' = answers s ++ [a] → request_queue_ s' = request_queue_ s →
  pending_request_ s' = (pending_request_ s - 1)%Z → free_context_slots_ s' = (free_context_slots_ s + 1)%Z →
  acct issued n s'.
Proof.
  intros [[G1 G2 G3] H2 H3] Ha Hd Hp Hq E1 E2 E3 E4.
  assert (Hf : flight s ≡ₚ req_of d :: flight s').
  { pose proof (bind_perm_one (flight_of s) (flight_of s') p (length (datas s))) as Hb.
    assert (Hlt : p < length (datas s)) by (by eapply lookup_lt_Some).
    unfold flight. rewrite Hd. specialize (Hb Hlt).
    assert (E5 : flight_of s p = [req_of d]) by (unfold flight_of; by rewrite decide_True, H3).
    assert (E6 : flight_of s' p = []) by (unfold flight_of; by rewrite decide_False).
    rewrite E5, E6, app_nil_r in Hb. rewrite Hb; [solve_Permutation|]. intros q Hne. unfold flight_of. by rewrite Hq, Hd. }
  pose proof (Permutation_length Hf) as Hl. simpl in Hl. split.
  - rewrite G1, Hf, E1, E2, fmap_app. simpl. rewrite Ha. solve_Permutation.
  - rewrite E3, G2, E2. lia.
  - rewrite E4. lia.
Qed.

End answers.

(** One command of the context at work. *)
Ltac quiet_solve :=
  first
    [ apply quiet_ret | apply quiet_get | apply quiet_require | apply quiet_assert | apply quiet_context
    | apply quiet_jump | apply quiet_goto | apply quiet_transition | apply quiet_set_obtained | apply quiet_ask
    | apply quiet_give_back | apply quiet_give_back_all | apply quiet_allocate | apply quiet_write | apply quiet_read
    | apply quiet_release_all_but | apply quiet_give_back_reads
    | apply quiet_modify; intros ?; by split_and! ].

Ltac wpa H :=
  lazymatch goal with |- wp (_ ≫= _) _ _ => apply wp_bind | _ => idtac end;
  lazymatch goal with
  | |- wp (get_insert _) _ _ => eapply (wpa_get_insert _ _ _ _ _ _ H)
  | |- wp (get_search _) _ _ => eapply (wpa_get_search _ _ _ _ _ _ H)
  | |- wp (put_insert _ _) _ _ =>
      eapply (wpa_put_insert _ _ _ _ _ _ _ H); [reflexivity|reflexivity|]; clear H; intros ? H
  | |- wp (put_search _ _) _ _ => eapply (wpa_put_search _ _ _ _ _ _ _ H); [reflexivity|]; clear H; intros ? H
  | |- wp (get _) _ _ => apply wp_get
  | |- wp (require _) _ _ => apply wp_require; intros ? ?
  | |- wp (assert_ _) _ _ => apply wp_assert; intros ?
  | |- wp (mret _) _ _ => apply wp_ret
  | |- _ => eapply (wp_quiet _ _ _ _ _ _ _ H); [quiet_solve|]; clear H; intros ? ? H
  end.

Section steps.
Context {A : Type} `{!Allocator A}.
Context (CAPACITY : nat) (junkE : list (Z * Z)) (junkK : list Z).
Local Abbreviation cmd := (@cmd A).
Local Abbreviation pstate := (pstate A).
Context (issued : list request) (n : nat).
Implicit Types (s : pstate) (p q : nat) (R : list nat) (Q : outcome → pstate → Prop).

Local Abbreviation owed := (λ _ : outcome, acct issued n).

Lemma insert_state_0_acct p i s : works p issued n (CInsert i) s → wp (insert_state_0 p) owed s.
Proof.
  intros H. unfold insert_state_0. wpa H. wpa H. apply wp_bind. eapply (wpa_put_insert _ _ _ _ _ _ _ H).
  { by destruct (_ =? _)%Z. } { by destruct (_ =? _)%Z. } clear H. intros s1 H. wpa H. wpa H.
  destruct x0; [wpa H; wpa H; apply H|wpa H; apply H].
Qed.

Lemma insert_state_10001_acct p i s : works p issued n (CInsert i) s → wp (insert_state_10001 p) owed s.
Proof.
  intros H. unfold insert_state_10001. wpa H. wpa H. wpa H. apply wp_bind.
  eapply (wp_mono _ (λ _ s', works p issued n (CInsert i) s')).
  { destruct (refer_to_root_ _); [wpa H; by wpa H|by wpa H]. }
  clear H. intros stale s1 H. simpl in H. destruct stale.
  - wpa H. wpa H. wpa H. eapply (wp_quiet _ _ _ _ _ _ _ H); [quiet_solve|]. intros ? ? H1. apply H1.
  - wpa H. apply wp_bind. eapply (wp_quiet _ _ _ _ _ _ _ H).
    { destruct (optimistic_ _); [quiet_solve|]. destruct (_ && _); quiet_solve. }
    clear H. intros ? ? H. wpa H. apply H.
Qed.

Lemma insert_state_1_acct p i s : works p issued n (CInsert i) s → wp (insert_state_1 p) owed s.
Proof. intros H. unfold insert_state_1. wpa H. wpa H. wpa H. wpa H. wpa H. wpa H. apply H. Qed.

Lemma insert_state_2_acct p i s : works p issued n (CInsert i) s → wp (insert_state_2 CAPACITY junkE junkK p) owed s.
Proof.
  intros H. unfold insert_state_2. wpa H. wpa H. wpa H. destruct x0 as [leaf|nd].
  - unfold insert_state_2_leaf. wpa H. wpa H. wpa H. wpa H. wpa H.
    destruct (_ && _). { wpa H. wpa H. apply H. }
    destruct (allocate _) as [rrep a']. apply wp_bind, wp_require. intros [l' [[rt bkey]|]] _.
    + wpa H. wpa H. wpa H. wpa H. wpa H. wpa H. apply H.
    + wpa H. wpa H. wpa H. wpa H. apply H.
  - unfold insert_state_2_inner. wpa H. destruct (_ && _). { wpa H. wpa H. apply H. }
    wpa H. wpa H. wpa H. wpa H. apply H.
Qed.

Lemma insert_state_10_acct p i s : works p issued n (CInsert i) s → wp (insert_state_10 p) owed s.
Proof. intros H. unfold insert_state_10. wpa H. wpa H. destruct (_ =? _); wpa H; apply H. Qed.

Lemma insert_state_9_acct p i s : works p issued n (CInsert i) s → wp (insert_state_9 CAPACITY junkK p) owed s.
Proof.
  intros H. unfold insert_state_9. wpa H. destruct (child_node_split_ _).
  - unfold insert_state_9_split. destruct (list.last _) as [[parent position]|].
    + wpa H. apply wp_bind, wp_require. intros [[lt rchild] bkey] _. destruct (_ <? CAPACITY).
      * wpa H. wpa H. wpa H. wpa H. wpa H. apply H.
      * wpa H. apply wp_bind, wp_require. intros [[lt' rt] b] _. wpa H. wpa H. wpa H. wpa H. wpa H. apply H.
    + wpa H. by eapply insert_state_10_acct.
  - unfold insert_state_9_flush. destruct (next_modified _) as [[nd rest]|].
    + wpa H. wpa H. wpa H. wpa H. apply H.
    + wpa H. wpa H. apply H.
Qed.

Lemma insert_state_11_acct p i s : works p issued n (CInsert i) s → wp (insert_state_11 p) owed s.
Proof.
  intros H. unfold insert_state_11. wpa H. wpa H. wpa H. do 3 apply wp_bind, wp_modify. apply wp_ret.
  eapply (works_answer _ _ _ _ _ _ (Inserted (i_key i) (i_val i)) H); try done.
  - unfold fr. simpl. rewrite cnt_cons, decide_True by done. lia.
  - intros q Hq. unfold fr. simpl. rewrite cnt_cons, decide_False by done. done.
Qed.

Lemma insert_state_12_acct p i s : works p issued n (CInsert i) s → wp (insert_state_12 CAPACITY junkK p) owed s.
Proof.
  intros H. unfold insert_state_12. wpa H. wpa H. destruct (_ =? _); [|wpa H; apply H].
  apply wp_bind, wp_require. intros [[lt rt] b] _. wpa H. wpa H. wpa H. wpa H. wpa H. wpa H. wpa H. wpa H. wpa H.
  apply H.
Qed.

Lemma insert_state_13_acct p i s : works p issued n (CInsert i) s → wp (insert_state_13 p) owed s.
Proof. intros H. unfold insert_state_13. wpa H. wpa H. wpa H. wpa H. wpa H. wpa H. wpa H. wpa H. apply H. Qed.

Lemma insert_step_acct p i s : works p issued n (CInsert i) s → wp (insert_step CAPACITY junkE junkK p) owed s.
Proof.
  intros H. unfold insert_step. wpa H.
  repeat match goal with
  | |- wp (if ?b then _ else _) _ _ => destruct b
  end; [by eapply insert_state_0_acct|by eapply insert_state_10001_acct|by eapply insert_state_1_acct
       |by eapply insert_state_2_acct|by eapply insert_state_9_acct|by eapply insert_state_10_acct
       |by eapply insert_state_11_acct|by eapply insert_state_12_acct|by eapply insert_state_13_acct
       |apply wp_require; by intros ?].
Qed.

Lemma search_state_0_acct p i s : works p issued n (CSearch i) s → wp (search_state_0 p) owed s.
Proof.
  intros H. unfold search_state_0. wpa H. wpa H. wpa H. destruct x0; [wpa H; wpa H; apply H|wpa H; apply H].
Qed.

Lemma search_state_1_acct p i s : works p issued n (CSearch i) s → wp (search_state_1 p) owed s.
Proof.
  intros H. unfold search_state_1. wpa H. wpa H. wpa H. apply wp_bind. eapply (wp_quiet _ _ _ _ _ _ _ H).
  { destruct (obtained_barriers_ _) as [|front [|k2 [|k3 ks]]]; try quiet_solve.
    apply quiet_bind; [quiet_solve|]. intros _. apply quiet_bind; [quiet_solve|]. intros cb. quiet_solve. }
  clear H. intros ? ? H. wpa H. wpa H. wpa H. wpa H. apply H.
Qed.

Lemma search_done_acct p i s found :
  works p issued n (CSearch i) s → wp (search_done p (s_key i) found) owed s.
Proof.
  intros H. unfold search_done. do 3 apply wp_bind, wp_modify.
  match goal with |- wp _ _ ?x => set (s1 := x) end.
  apply wp_bind. eapply wp_mono; [apply quiet_context|]. intros cb s2 H2. apply wp_bind.
  eapply wp_mono; [apply quiet_give_back_reads|]. intros ? s3 H3. apply wp_bind.
  eapply wp_mono; [apply quiet_set_obtained|]. intros ? s4 H4. apply wp_bind, wp_modify, wp_ret.
  assert (Hs : same s1 s4) by (eapply same_trans; [exact H2|]; eapply same_trans; [exact H3|exact H4]).
  destruct Hs as (E1 & E2 & E3 & E4 & E5 & E6 & E7).
  eapply (works_answer _ _ _ _ _ _ (Searched (s_key i) found) H); simpl; try done.
  - unfold fr. simpl. rewrite cnt_cons, decide_True by done. lia.
  - intros q Hq. unfold fr. simpl. rewrite cnt_cons, decide_False by done. by rewrite E2, E3.
Qed.

Lemma search_state_2_acct p i s : works p issued n (CSearch i) s → wp (search_state_2 CAPACITY junkE junkK p) owed s.
Proof.
  intros H. unfold search_state_2. wpa H. wpa H. wpa H. destruct x0 as [leaf|nd].
  - wpa H. by apply search_done_acct.
  - wpa H. destruct (_ <? 0)%Z; [by apply search_done_acct|]. wpa H. wpa H. wpa H. apply H.
Qed.

Lemma search_step_acct p i s : works p issued n (CSearch i) s → wp (search_step CAPACITY junkE junkK p) owed s.
Proof.
  intros H. unfold search_step. wpa H.
  repeat match goal with
  | |- wp (if ?b then _ else _) _ _ => destruct b
  end; [by eapply search_state_0_acct|by eapply search_state_1_acct|by eapply search_state_2_acct
       |apply wp_require; by intros ?].
Qed.

(** ** The scheduler *)
Definition fine R s : Prop := Inv R s ∧ acct issued n s.

Lemma wp_and {X} (c : cmd X) (Q1 Q2 : X → pstate → Prop) s : wp c Q1 s → wp c Q2 s → wp c (λ x s, Q1 x s ∧ Q2 x s) s.
Proof. intros H1 H2 x s' E. split; [by apply H1|by apply H2]. Qed.

(** The context that runs is not free. *)
Lemma running_not_free p R s d : Inv (p :: R) s → datas s !! p = Some d → fr s p = 0.
Proof.
  intros HI Hd. destruct (lookup_lt_exists (ctxs s) p) as [c Hc]; [rewrite <- (inv_len _ _ HI); by eapply lookup_lt_Some|].
  destruct (inv_open _ _ _ _ _ HI Hc Hd) as (a & m & f & H & Hsum & Hsy & Hca & Hr).
  pose proof (m_act _ _ _ _ _ _ _ _ _ H) as Ha. rewrite act_cons, decide_True in Ha by done.
  rewrite (m_fr _ _ _ _ _ _ _ _ _ H). destruct f as [|f]; [done|]. specialize (Hca ltac:(lia)). unfold calm in Hca.
  assert (Hg : goal c d = 1 ∧ done_ c d = 0) by (unfold goal, done_; rewrite Hca; by destruct d). lia.
Qed.

Lemma step_fine p R s : fine (p :: R) s →
  wp (step CAPACITY junkE junkK p) (λ o s', ends p R o s' ∧ acct issued n s') s.
Proof.
  intros [HI Ha]. apply wp_and; [by apply step_ok|]. intros o s' E. unfold step in E.
  destruct (datas s !! p) as [[i|i]|] eqn:Hd; [..|done].
  - eapply (insert_step_acct p i s); [|exact E]. split; [done|by eapply running_not_free|done].
  - eapply (search_step_acct p i s); [|exact E]. split; [done|by eapply running_not_free|done].
Qed.

Lemma run_fine fuel : ∀ p R s, fine (p :: R) s → wp (run CAPACITY junkE junkK fuel p) (λ _, fine R) s.
Proof.
  induction fuel as [|fuel IH]; intros p R s HI; simpl; [apply wp_require; by intros ?|].
  apply wp_bind. eapply wp_mono; [by apply (step_fine p R)|]. intros o s1 [H1 H2]. destruct o; simpl in H1.
  - by apply IH.
  - by apply wp_ret.
  - by apply wp_ret.
Qed.

Lemma run_all_fine fuel ps : ∀ R s, fine (ps ++ R) s → wp (run_all CAPACITY junkE junkK fuel ps) (λ _, fine R) s.
Proof.
  induction ps as [|p ps IH]; intros R s HI; simpl; [by apply wp_ret|].
  apply wp_bind. eapply wp_mono; [by apply (run_fine fuel p (ps ++ R))|]. intros o s1 H. apply wp_bind.
  eapply wp_mono; [apply (IH R); exact H|]. intros m s2 H2. by apply wp_ret.
Qed.

Lemma process_new_fine fuel max s :
  fine [] s → wp (process_new_context CAPACITY junkE junkK fuel max) (λ _, fine []) s.
Proof.
  intros [HI Ha]. unfold process_new_context. apply wp_bind, wp_get, wp_bind, wp_get, wp_bind, wp_get.
  destruct (take_ready _ _ _ _) as [now later] eqn:E. apply wp_bind, wp_modify, run_all_fine. rewrite app_nil_r.
  split; [by eapply take_new|]. eapply acct_same; [|exact Ha]. by split_and!.
Qed.

Lemma process_blk_ready_fine fuel max sort s :
  fine [] s → wp (process_blk_ready_context CAPACITY junkE junkK fuel max sort) (λ _, fine []) s.
Proof.
  intros [HI Ha]. unfold process_blk_ready_context. apply wp_bind, wp_get, wp_bind, wp_get.
  destruct (take_ready _ _ _ _) as [now later] eqn:E. apply wp_bind, wp_modify, run_all_fine. rewrite app_nil_r.
  split; [by eapply take_blk_ready|]. eapply acct_same; [|exact Ha]. by split_and!.
Qed.

Lemma process_barrier_ready_fine fuel max sort s :
  fine [] s → wp (process_barrier_ready_context CAPACITY junkE junkK fuel max sort) (λ _, fine []) s.
Proof.
  intros [HI Ha]. unfold process_barrier_ready_context. apply wp_bind, wp_get, wp_bind, wp_get.
  destruct (take_ready _ _ _ _) as [now later] eqn:E. apply wp_bind, wp_modify, run_all_fine. rewrite app_nil_r.
  split; [by eapply take_barrier_ready|]. eapply acct_same; [|exact Ha]. by split_and!.
Qed.

Lemma quiet_completion_loop max : quiet (A := A) (completion_loop max).
Proof.
  induction max as [|max IH]; simpl; [apply quiet_ret|].
  apply quiet_bind; [apply quiet_get|]. intros pc. apply quiet_bind; [apply quiet_get|]. intros pi.
  destruct (list.last pc) as [p|]; [|apply quiet_ret].
  apply quiet_bind; [apply quiet_require|]. intros t.
  apply quiet_bind; [apply quiet_modify; intros ?; by split_and!|]. intros _.
  apply quiet_bind; [apply quiet_update|]. intros _. apply quiet_bind; [apply quiet_transition|]. intros _.
  apply quiet_bind; [apply quiet_modify; intros ?; by split_and!|]. intros _.
  apply quiet_bind; [done|]. intros m. apply quiet_ret.
Qed.

Lemma process_completion_fine shuffle max s :
  (∀ l, shuffle l ≡ₚ l) → fine [] s → wp (process_completion shuffle max) (λ _, fine []) s.
Proof.
  intros Hsh [HI Ha]. unfold process_completion. apply wp_bind, wp_modify, wp_bind, wp_get. apply wp_and.
  - apply completion_loop_ok. by apply shuffle_pending.
  - eapply wp_mono; [apply quiet_completion_loop|]. intros m s' Hs. eapply acct_same; [exact Hs|].
    eapply acct_same; [|exact Ha]. by split_and!.
Qed.

(** A request leaves the queue for a context. *)
Lemma acct_start s s' p d' rq :
  acct issued n s → request_queue_ s = req_of d' :: rq → p < length (datas s) → fr s p ≠ 0 → fr s' p = 0 →
  (∀ q, q ≠ p → fr s' q = fr s q) → datas s' = <[p := d']> (datas s) → answers s' = answers s →
  request_queue_ s' = rq → pending_request_ s' = pending_request_ s →
  free_context_slots_ s' = (free_context_slots_ s - 1)%Z → acct issued n s'.
Proof.
  intros [G1 G2 G3] Hrq Hp Hf0 Hf1 Hfr Hd E1 E2 E3 E4.
  assert (Hf : flight s' ≡ₚ req_of d' :: flight s).
  { unfold flight. rewrite Hd, length_insert.
    pose proof (bind_perm_one (flight_of s') (flight_of s) p (length (datas s)) Hp) as Hb.
    assert (E5 : flight_of s p = []) by (unfold flight_of; by rewrite decide_False).
    assert (E6 : flight_of s' p = [req_of d']).
    { unfold flight_of. rewrite decide_True by done. by rewrite Hd, list_lookup_insert_eq. }
    rewrite E5, E6, app_nil_r in Hb. rewrite Hb; [solve_Permutation|]. intros q Hq. unfold flight_of.
    by rewrite Hfr, Hd, list_lookup_insert_ne by done. }
  pose proof (Permutation_length Hf) as Hl. simpl in Hl. split.
  - rewrite G1, Hf, E1, E2, Hrq. solve_Permutation.
  - rewrite E3, E2, G2, Hrq, Hl. simpl. lia.
  - rewrite E4, Hl. lia.
Qed.

(** The context on top of a pool is in it once. *)
Lemma pool_head s p rest (b : bool) d :
  Inv [] s → datas s !! p = Some d →
  (if b then free_insert_contexts_ s else free_search_contexts_ s) = p :: rest →
  fr s p = 1 ∧ ∀ q, fr s q = (if decide (p = q) then 1 else 0) +
    cnt q rest + cnt q (if b then free_search_contexts_ s else free_insert_contexts_ s).
Proof.
  intros HI Hd Hf.
  assert (Hfr : ∀ q, fr s q = (if decide (p = q) then 1 else 0) +
    cnt q rest + cnt q (if b then free_search_contexts_ s else free_insert_contexts_ s)).
  { intros q. unfold fr. destruct b; rewrite Hf, cnt_cons; lia. }
  split; [|done]. pose proof (Hfr p) as E. rewrite decide_True in E by done.
  destruct (lookup_lt_exists (ctxs s) p) as [c Hc]; [rewrite <- (inv_len _ _ HI); by eapply lookup_lt_Some|].
  destruct (inv_open _ _ _ _ _ HI Hc Hd) as (a & m & f & H & Hsum & Hsy & Hca & Hr).
  pose proof (m_fr _ _ _ _ _ _ _ _ _ H) as Ef. rewrite Ef in E. specialize (Hca ltac:(lia)). unfold calm in Hca.
  assert (Hg : goal c d = 1) by (unfold goal; rewrite Hca; by destruct d). lia.
Qed.

Lemma admit_request_acct r rq s :
  Inv [] s → acct issued n s → request_queue_ s = r :: rq →
  wp (admit_request r) (λ _, acct issued n) (with_requests rq (pending_request_ s) s).
Proof.
  intros HI Ha Hrq. unfold admit_request. apply wp_bind, wp_get, wp_bind.
  set (s0 := with_requests rq (pending_request_ s) s).
  assert (Hfin : ∀ p d' fi fs, p < length (datas s) → fr s p = 1 → req_of d' = r →
    (∀ q, cnt q fi + cnt q fs + (if decide (p = q) then 1 else 0) = fr s q) →
    wp (g ← get context_id_generator_;
        _ ← update_call_back p (λ c, Some (set_id g (reset_state c)));
        _ ← modify (λ s, with_pools (free_context_slots_ s - 1) (free_insert_contexts_ s) (free_search_contexts_ s) s);
        modify (λ s, with_admission (admission_contexts_ s ++ [p]) (g + 1) s)) (λ _, acct issued n)
      (with_datas (<[p := d']> (datas s)) (with_pools (free_context_slots_ s0) fi fs s0))).
  { intros p d' fi fs Hp Hf Hd' Hcnt. apply wp_bind, wp_get, wp_bind. eapply wp_mono; [apply quiet_update|].
    intros ? s1 (E1 & E2 & E3 & E4 & E5 & E6 & E7). simpl in *. apply wp_bind, wp_modify, wp_modify.
    eapply (acct_start s _ p d' rq); try done; simpl; try congruence.
    - unfold fr. simpl. rewrite E2, E3. specialize (Hcnt p). rewrite decide_True in Hcnt by done. lia.
    - intros q Hq. rewrite <- (Hcnt q), decide_False by done. unfold fr. simpl. rewrite E2, E3. lia. }
  destruct r as [key|key val].
  - apply wp_bind. intros p s1 E. unfold get_free_search_context in E. simpl in E.
    destruct (free_search_contexts_ s) as [|p' rest] eqn:Ef; [done|]. injection E as <- <-.
    apply wp_bind. intros sc s2 E. unfold get_search in E. simpl in E.
    destruct (datas s !! p') as [[?|sc']|] eqn:Hd; [done| |done]. simplify_eq.
    destruct (pool_head s p' rest false _ HI Hd Ef) as [Hf1 Hf2].
    apply wp_bind, wp_modify, wp_ret.
    apply (Hfin p' (CSearch (mk_search key _ _)) (free_insert_contexts_ s) rest); [by eapply lookup_lt_Some|done|done|].
    intros q. rewrite Hf2. lia.
  - apply wp_bind. intros p s1 E. unfold get_free_insert_context in E. simpl in E.
    destruct (free_insert_contexts_ s) as [|p' rest] eqn:Ef; [done|]. injection E as <- <-.
    apply wp_bind. intros ic s2 E. unfold get_insert in E. simpl in E.
    destruct (datas s !! p') as [[ic'|?]|] eqn:Hd; [|done|done]. simplify_eq.
    destruct (pool_head s p' rest true _ HI Hd Ef) as [Hf1 Hf2].
    apply wp_bind, wp_modify, wp_ret.
    apply (Hfin p' (CInsert (init_insert key val _ _)) rest (free_search_contexts_ s)); [by eapply lookup_lt_Some|done|done|].
    intros q. rewrite Hf2. lia.
Qed.

Lemma admission_fine max s : fine [] s → wp (admission max) (λ _, fine []) s.
Proof.
  intros HI. unfold admission. apply wp_bind, wp_get. generalize (free_context_slots_ s) as free. revert s HI.
  induction max as [|max IH]; intros s HI free; simpl; [by apply wp_ret|].
  destruct (free =? 0)%Z; [by apply wp_ret|]. apply wp_bind. intros r s1 E. unfold atomic_dequeue_request in E.
  destruct (request_queue_ s) as [|r' rq] eqn:Hrq; simplify_eq; [by apply wp_ret|]. destruct HI as [HI Ha].
  apply wp_bind. eapply wp_mono; [apply wp_and; [apply admit_request_ok; by apply inv_requests|by apply admit_request_acct]|].
  intros ? s2 H2. simpl in H2. apply wp_bind. eapply wp_mono; [apply IH; exact H2|]. intros m s3 H3. by apply wp_ret.
Qed.

Lemma naive_round_fine fuel shuffle s :
  (∀ l, shuffle l ≡ₚ l) → fine [] s → wp (naive_round CAPACITY junkE junkK fuel shuffle) (λ _, fine []) s.
Proof.
  intros Hsh HI. unfold naive_round.
  apply wp_bind. eapply wp_mono; [by apply admission_fine|]. clear s HI. intros ? s HI. simpl in HI.
  apply wp_bind. eapply wp_mono; [by apply process_new_fine|]. clear s HI. intros ? s HI. simpl in HI.
  apply wp_bind. eapply wp_mono; [by apply process_blk_ready_fine|]. clear s HI. intros ? s HI. simpl in HI.
  apply wp_bind. eapply wp_mono; [by apply process_completion_fine|]. clear s HI. intros ? s HI. simpl in HI.
  apply wp_bind. eapply wp_mono; [by apply process_barrier_ready_fine|]. clear s HI. intros ? s HI. simpl in HI.
  by apply wp_ret.
Qed.

Lemma latency_aware_round_fine fuel shuffle probe s :
  (∀ l, shuffle l ≡ₚ l) → fine [] s →
  wp (latency_aware_round CAPACITY junkE junkK fuel shuffle probe) (λ _, fine []) s.
Proof.
  intros Hsh HI. unfold latency_aware_round.
  apply wp_bind. eapply wp_mono; [by apply admission_fine|]. clear s HI. intros ? s HI. simpl in HI.
  apply wp_bind. eapply wp_mono; [by apply process_new_fine|]. clear s HI. intros ? s HI. simpl in HI.
  apply wp_bind. eapply wp_mono; [by apply process_blk_ready_fine|]. clear s HI. intros ? s HI. simpl in HI.
  apply wp_bind. eapply wp_mono; [by apply process_barrier_ready_fine|]. clear s HI. intros ? s HI. simpl in HI.
  destruct probe; [|by apply wp_ret].
  apply wp_bind. eapply wp_mono; [by apply process_completion_fine|]. clear s HI. intros ? s HI. by apply wp_ret.
Qed.

End steps.

(** ** Reachable states *)
Section reach.
Context {A : Type} `{!Allocator A}.
Context (CAPACITY : nat) (junkE : list (Z * Z)) (junkK : list Z) (n : nat) (t : tree_state A).
Local Abbreviation pstate := (pstate A).
Implicit Types (s : pstate) (p q : nat).

(** The states of a machine with [n] contexts of each kind on the tree [t], after
    the requests [rs]: clients add requests, the scheduler runs rounds of either
    kind, with any order of completions and any decision of the latency
    estimator. *)
Inductive reach : list request → pstate → Prop :=
  | reach_start : reach [] (new_pull_tree n t)
  | reach_request rs r b s s' :
      reach rs s → asynchronous_with_callback r s = Some (b, s') → reach (rs ++ [r]) s'
  | reach_naive rs fuel shuffle s s' :
      reach rs s → (∀ l, shuffle l ≡ₚ l) →
      naive_round CAPACITY junkE junkK fuel shuffle s = Some (tt, s') → reach rs s'
  | reach_latency_aware rs fuel shuffle probe s s' :
      reach rs s → (∀ l, shuffle l ≡ₚ l) →
      latency_aware_round CAPACITY junkE junkK fuel shuffle probe s = Some (tt, s') → reach rs s'.

(** At the start every context is free: nothing is in flight. *)
Lemma start_data q d : datas (new_pull_tree n t : pstate) !! q = Some d → fr (new_pull_tree n t : pstate) q ≠ 0.
Proof.
  intros Hd. apply lookup_lt_Some in Hd. unfold new_pull_tree in *. simpl in *.
  assert (Hlen : ∀ k, length (concat (replicate k [CInsert new_insert_context; CSearch (mk_search 0 (-1) None)])) = 2 * k).
  { induction k as [|k IH]; [done|]. simpl in *. lia. }
  rewrite Hlen in Hd. unfold fr. simpl. rewrite <- !(cnt_perm q _ _ (Permutation_rev _)).
  destruct (Nat.even q) eqn:Eq.
  - apply Nat.even_spec in Eq as [k ->].
    assert (0 < cnt (2 * k) ((λ i, 2 * i) <$> seq 0 n)); [|simpl in *; lia].
    apply cnt_pos, list_elem_of_fmap. exists k. split; [done|]. apply elem_of_seq. lia.
  - assert (Ho : Nat.odd q = true) by (by rewrite <- Nat.negb_even, Eq). apply Nat.odd_spec in Ho as [k ->].
    assert (0 < cnt (2 * k + 1) ((λ i, 2 * i + 1) <$> seq 0 n)); [|simpl in *; lia].
    apply cnt_pos, list_elem_of_fmap. exists k. split; [done|]. apply elem_of_seq. lia.
Qed.

Lemma start_fine : fine [] n [] (new_pull_tree n t : pstate).
Proof.
  split; [apply new_pull_tree_inv|].
  assert (Hf : flight (new_pull_tree n t : pstate) = []).
  { unfold flight. rewrite (list_bind_ext_in _ (λ _, [])).
    - induction (seq 0 _) as [|x l IH]; [done|apply IH].
    - intros q _. unfold flight_of. destruct (datas _ !! q) as [d|] eqn:Hd; [|by case_decide].
      rewrite decide_False; [done|]. by eapply start_data. }
  split; rewrite Hf; [done|done|]. simpl. lia.
Qed.

Lemma reach_fine rs s : reach rs s → fine rs n [] s.
Proof.
  induction 1 as [|rs r b s s' _ [HI Ha] E|rs fuel sh s s' _ IH Hsh E|rs fuel sh pr s s' _ IH Hsh E].
  - apply start_fine.
  - unfold asynchronous_with_callback in E. cbv [mbind cmd_bind modify mret cmd_ret] in E. simplify_eq.
    split; [by apply inv_requests|]. destruct Ha as [G1 G2 G3].
    split; [|simpl; rewrite length_app, G2; simpl; change (flight (with_requests _ _ s)) with (flight s); lia|done].
    change (flight (with_requests _ _ s)) with (flight s). simpl. rewrite G1. solve_Permutation.
  - by eapply (naive_round_fine CAPACITY junkE junkK rs n fuel sh s Hsh IH).
  - by eapply (latency_aware_round_fine CAPACITY junkE junkK rs n fuel sh pr s Hsh IH).
Qed.

End reach.
End PullAnswers.
