(* ===== verification/PullSpec.v ===== *)
(** The properties of the pull-mode tree: barriers exclude, no wake-up is lost,
    contexts are never in two places, every request is answered once; and a
    race between a search and the split of the root. *)
From Stdlib Require Import ZArith Lia.
From stdpp Require Import base list gmap sorting numbers.
From S2P Require Import Prelude KV Leaf Inner Store Tree Alloc TreeSpec Barrier BarrierFrame PullState PullTree PullSafe PullAnswers.
Import Barrier BarrierFrame Pull PullTree PullSafe PullAnswers.

Section schedule.
Context {A : Type} `{!Allocator A}.
Context (CAPACITY : nat) (junkE : list (Z * Z)) (junkK : list Z).

(** A schedule: a request, or a round of the naive scheduler in which
    completions arrive in order. *)
Fixpoint exec_schedule (l : list (option request)) (s : pstate A) : option (pstate A) :=
  match l with
  | [] => Some s
  | Some r :: l' => '(_, s) ← asynchronous_with_callback r s; exec_schedule l' s
  | None :: l' => '(_, s) ← naive_round CAPACITY junkE junkK 50 (λ l, l) s; exec_schedule l' s
  end.

Lemma exec_schedule_reach n t l : ∀ rs s s',
  reach CAPACITY junkE junkK n t rs s → exec_schedule l s = Some s' →
  reach CAPACITY junkE junkK n t (rs ++ omap (λ x, x) l) s'.
Proof.
  induction l as [|[r|] l IH]; intros rs s s' Hr E; simpl in E.
  - simplify_eq. by rewrite app_nil_r.
  - destruct (asynchronous_with_callback r s) as [[b s1]|] eqn:E1; [|done]. simpl in E.
    apply (IH (rs ++ [r])) in E; [by rewrite <- app_assoc in E|]. by eapply reach_request.
  - destruct (naive_round _ _ _ _ _ s) as [[[] s1]|] eqn:E1; [|done]. simpl in E.
    apply (IH rs) in E; [done|]. by eapply (reach_naive _ _ _ _ _ rs 50 (λ l, l)).
Qed.

End schedule.

Lemma sum_list_pos {X} (f : X → nat) (l : list X) :
  0 < sum_list_with f l → ∃ i x, l !! i = Some x ∧ 0 < f x.
Proof.
  induction l as [|y l IH]; simpl; [lia|]. intros H. destruct (decide (0 < f y)) as [Hy|Hy]; [by exists 0, y|].
  destruct IH as (i & x & Hx & Hf); [lia|]. by exists (S i), x.
Qed.

(** A token that is counted is held by a context. *)
Lemma held_pos i t (w : world) :
  0 < held i t w → ∃ q c, contexts w !! q = Some c ∧ mk_token i t ∈ obtained_barriers_ c.
Proof.
  intros (q & c & Hc & Hn)%sum_list_pos. exists q, c. split; [done|]. unfold ntok in Hn.
  destruct (filter (λ k, k = mk_token i t) (obtained_barriers_ c)) as [|k ks] eqn:Ef; [simpl in Hn; lia|].
  assert (Hk : k ∈ filter (λ k, k = mk_token i t) (obtained_barriers_ c)) by (rewrite Ef; constructor).
  by apply list_elem_of_filter in Hk as [-> Hk].
Qed.

Section claims.
Context {A : Type} `{!Allocator A}.
Context (CAPACITY : nat) (junkE : list (Z * Z)) (junkK : list Z) (n : nat) (t : tree_state A).
Local Abbreviation reach := (reach CAPACITY junkE junkK n t).

(** C8: in every state of the pull-mode tree, whatever requests arrived and
    however completions and rounds of the schedulers interleave, a write barrier
    of a node excludes every other barrier of it: no second context holds a
    token of that node. *)
Theorem pull_barrier_exclusion rs s p q c d i ty :
  reach rs s → p ≠ q → contexts (wd (manager s)) !! p = Some c → contexts (wd (manager s)) !! q = Some d →
  mk_token i WRITE_BARRIER ∈ obtained_barriers_ c → mk_token i ty ∉ obtained_barriers_ d.
Proof.
  intros Hr. destruct (reach_fine _ _ _ _ _ _ _ Hr) as [HI _]. apply exclusion. apply HI.
Qed.

(** C18: no wake-up is lost: in every state, the first request that waits for a
    barrier is blocked by a token that some context holds (a read request by a
    write token), and the context that waits has chosen the state in which it
    goes on. *)
Theorem pull_no_lost_wakeup rs s i b p ty rest :
  reach rs s → barrier_at i (manager s) = Some b → pending_barrier_requests b = (p, ty) :: rest →
  (∃ q c ty', contexts (wd (manager s)) !! q = Some c ∧ mk_token i ty' ∈ obtained_barriers_ c ∧
    (ty = READ_BARRIER → ty' = WRITE_BARRIER)) ∧
  ∃ c, contexts (wd (manager s)) !! p = Some c ∧ (0 ≤ next_state c)%Z.
Proof.
  intros Hr Hb Hp. destruct (reach_fine _ _ _ _ _ _ _ Hr) as [HI _]. pose proof (inv_ok _ _ HI i) as Hok.
  rewrite Hb in Hok. destruct Hok as (_ & E1 & E2 & (E3 & E4 & _) & Hbl & Hw). split.
  2: { apply (Hw p ty). rewrite Hp. constructor. }
  unfold blocked in Hbl. rewrite Hp in Hbl. unfold due, settled in *.
  assert (Hex : ∀ ty', 0 < held i ty' (wd (manager s)) → (ty = READ_BARRIER → ty' = WRITE_BARRIER) →
    ∃ q c ty', contexts (wd (manager s)) !! q = Some c ∧ mk_token i ty' ∈ obtained_barriers_ c ∧
      (ty = READ_BARRIER → ty' = WRITE_BARRIER)).
  { intros ty' (q & c & Hc & Hk)%held_pos H. by exists q, c, ty'. }
  destruct ty; simpl in Hbl.
  - unfold grant_read_barrier_request in Hbl. destruct (Z.eqb_spec (write_barriers b) 0); [done|].
    apply (Hex WRITE_BARRIER); [lia|done].
  - unfold grant_write_barrier_request in Hbl. destruct (Z.eqb_spec (write_barriers b) 0).
    + destruct (Z.eqb_spec (read_barriers b) 0); [done|]. apply (Hex READ_BARRIER); [lia|done].
    + apply (Hex WRITE_BARRIER); [lia|done].
Qed.


(** C9: every request is answered once: in every state the requests issued so
    far are, as a multiset, the answered ones, those in the queue and those of
    the contexts that are not free; [pending_request_] counts the ones not
    answered, so when the scheduler ends ([terminated]) all of them are
    answered. *)
Theorem pull_answers_once rs s :
  reach rs s →
  rs ≡ₚ (req_of_answer <$> answers s) ++ request_queue_ s ++ flight s ∧
  pending_request_ s = Z.of_nat (length (request_queue_ s) + length (flight s)) ∧
  (terminated true s = true → rs ≡ₚ req_of_answer <$> answers s).
Proof.
  intros Hr. destruct (reach_fine _ _ _ _ _ _ _ Hr) as [_ [H1 H2 _]]. split_and!; [done|done|].
  unfold terminated. simpl. intros Ht. apply Z.leb_le in Ht.
  destruct (request_queue_ s) as [|r rq]; [|simpl in H2; lia]. destruct (flight s) as [|r fl]; [|simpl in H2; lia].
  by rewrite !app_nil_r in H1.
Qed.

End claims.

(** ** A concrete machine *)
(** A tree of one full leaf, eight contexts of each kind. *)
Definition leaf_tree : tree_state file_allocator :=
  tree_of ((λ i, OInsert i (i + 1)%Z) <$> [10; 20; 30; 40]%Z).
Definition machine0 : pstate file_allocator := new_pull_tree 8 leaf_tree.
Definition run_schedule (l : list (option request)) : pstate file_allocator :=
  default machine0 (exec_schedule 4 junkE4 junkK4 l machine0).

Lemma run_schedule_reach l :
  is_Some (exec_schedule 4 junkE4 junkK4 l machine0) →
  reach 4 junkE4 junkK4 8 leaf_tree (omap (λ x, x) l) (run_schedule l).
Proof.
  intros [s E]. unfold run_schedule. rewrite E. simpl.
  apply (exec_schedule_reach 4 junkE4 junkK4 8 leaf_tree l [] machine0 s); [constructor|done].
Qed.

(** An insertion that holds the leaf, and a second one that waits for it. *)
Definition two_inserts : list (option request) :=
  [Some (INSERT_REQUEST 50 51); Some (INSERT_REQUEST 60 61); None].


(** The contexts of the two insertions: 14 runs, 12 waits. *)
Definition context_at (p : nat) (s : pstate file_allocator) : call_back_context :=
  default new_context (contexts (wd (manager s)) !! p).

Lemma pull_barrier_exclusion_witness :
  mk_token 0 WRITE_BARRIER ∈ obtained_barriers_ (context_at 14 (run_schedule two_inserts)) ∧
  mk_token 0 READ_BARRIER ∉ obtained_barriers_ (context_at 12 (run_schedule two_inserts)).
Proof.
  assert (H : mk_token 0 WRITE_BARRIER ∈ obtained_barriers_ (context_at 14 (run_schedule two_inserts))).
  { vm_compute. constructor. }
  split; [exact H|].
  apply (pull_barrier_exclusion 4 junkE4 junkK4 8 leaf_tree (omap (λ x, x) two_inserts) (run_schedule two_inserts)
    14 12 (context_at 14 (run_schedule two_inserts)) (context_at 12 (run_schedule two_inserts)) 0 READ_BARRIER).
  - apply run_schedule_reach. vm_compute. by eexists.
  - lia.
  - vm_compute. reflexivity.
  - vm_compute. reflexivity.
  - exact H.
Defined.

Lemma pull_no_lost_wakeup_witness :
  ∃ b, barrier_at 0 (manager (run_schedule two_inserts)) = Some b ∧
    pending_barrier_requests b = [(12, WRITE_BARRIER)] ∧
    (∃ q c ty', contexts (wd (manager (run_schedule two_inserts))) !! q = Some c ∧ mk_token 0 ty' ∈ obtained_barriers_ c ∧
      (WRITE_BARRIER = READ_BARRIER → ty' = WRITE_BARRIER)) ∧
    ∃ c, contexts (wd (manager (run_schedule two_inserts))) !! 12 = Some c ∧ (0 ≤ next_state c)%Z.
Proof.
  exists (mk_barrier 0 0 1 [(12, WRITE_BARRIER)]).
  split; [vm_compute; reflexivity|]. split; [reflexivity|].
  apply (pull_no_lost_wakeup 4 junkE4 junkK4 8 leaf_tree (omap (λ x, x) two_inserts) (run_schedule two_inserts) 0
    (mk_barrier 0 0 1 [(12, WRITE_BARRIER)]) 12 WRITE_BARRIER []).
  - apply run_schedule_reach. vm_compute. by eexists.
  - vm_compute. reflexivity.
  - reflexivity.
Defined.


(** Twelve insertions and two searches, run to the end. *)
Definition long_schedule : list (option request) :=
  ((λ i, Some (INSERT_REQUEST i (i + 1))) <$> [50; 60; 5; 70; 15; 25; 35; 45; 55; 65; 75; 85]%Z) ++
  [None; Some (SEARCH_REQUEST 20); None; Some (SEARCH_REQUEST 99)] ++ replicate 150 None.

Lemma pull_answers_once_witness :
  terminated true (run_schedule long_schedule) = true ∧
  omap (λ x, x) long_schedule ≡ₚ req_of_answer <$> answers (run_schedule long_schedule).
Proof.
  assert (Ht : terminated true (run_schedule long_schedule) = true) by (vm_compute; reflexivity).
  split; [exact Ht|]. revert Ht.
  apply (pull_answers_once 4 junkE4 junkK4 8 leaf_tree (omap (λ x, x) long_schedule) (run_schedule long_schedule)).
  apply run_schedule_reach. vm_compute. by eexists.
Defined.

(** C37: [search_context] does not look at the root again once it has its
    barrier: a search for 40 that waits for the leaf while an insertion splits it
    reads the left half when it goes on and answers that the key is not stored,
    although the tree holds it before, in between and after. *)
Theorem pull_search_misses_key :
  ∃ s, reach 4 junkE4 junkK4 8 leaf_tree [INSERT_REQUEST 50 51; SEARCH_REQUEST 40] s ∧
    search 4 junkE4 junkK4 40 leaf_tree = Some (Some 41%Z) ∧
    search 4 junkE4 junkK4 40 (tree s) = Some (Some 41%Z) ∧
    answers s = [Inserted 50 51; Searched 40 None].
Proof.
  exists (run_schedule ([Some (INSERT_REQUEST 50 51); None; None; Some (SEARCH_REQUEST 40)] ++ replicate 20 None)).
  split.
  - apply (run_schedule_reach ([Some (INSERT_REQUEST 50 51); None; None; Some (SEARCH_REQUEST 40)] ++ replicate 20 None)).
    vm_compute. by eexists.
  - split; [|split]; vm_compute; reflexivity.
Qed.
