(* ===== verification/Bytes.v ===== *)
(** The layout of a node in its block: [serialize] and [deserialize] of
    src/src/tree/leaf_node.h and src/src/tree/inner_node.h on the bytes of a
    buffer, and [specific_deserialize] of src/src/tree/blk_node_reference.h,
    which dispatches on the type tag. The target is little-endian with 32-bit
    keys and values; an access past the buffer or past a node's arrays is
    [None]. The theorem is that the bytes carry exactly the fields of [blk], so
    that the store of [Store] is the device seen through this code. *)
From Stdlib Require Import ZArith Lia.
From stdpp Require Import base list gmap sorting numbers list_numbers.
From S2P Require Import Prelude KV Leaf Inner Store.

Module Bytes.

(** [LEAF_NODE] and [INNER_NODE] of node.h, the tag in the first four bytes. *)
Definition INNER_NODE : Z := 0.
Definition LEAF_NODE : Z := 1.

(** A buffer with a cursor: [write_offset] or [read_offset] after [char *]
    arithmetic, as a distance from the start of the buffer. *)
Record cursor := Cursor { offset : nat; buffer : list Z }.

Definition write (bs : list Z) (c : cursor) : option cursor :=
  let e := offset c + length bs in
  if e <=? length (buffer c)
  then Some (Cursor e (take (offset c) (buffer c) ++ bs ++ drop e (buffer c))) else None.

Definition read (n : nat) (c : cursor) : option (list Z * cursor) :=
  let e := offset c + n in
  if e <=? length (buffer c)
  then Some (take n (drop (offset c) (buffer c)), Cursor e (buffer c)) else None.

(** Fixed-width fields of [w] bytes. *)
Definition unsigned (w : nat) (bs : list Z) : Z := little_endian_to_Z 8 bs.
Definition signed (w : nat) (bs : list Z) : Z :=
  let u := little_endian_to_Z 8 bs in
  if (u <? 2 ^ (8 * Z.of_nat w - 1))%Z then u else (u - 2 ^ (8 * Z.of_nat w))%Z.
Definition bytes (w : nat) (z : Z) : list Z := Z_to_little_endian (Z.of_nat w) 8 z.

Definition read_unsigned (w : nat) (c : cursor) : option (Z * cursor) :=
  '(bs, c) ← read w c; Some (unsigned w bs, c).
Definition read_signed (w : nat) (c : cursor) : option (Z * cursor) :=
  '(bs, c) ← read w c; Some (signed w bs, c).

(** [memcpy] of an array of [n] records of [w] bytes each: to the buffer, and
    from it into an array of which the first [n] records are replaced. *)
Definition copy_out {T} (enc : T → list Z) (n : nat) (a : list T) (c : cursor) : option cursor :=
  if n <=? length a then write (concat (enc <$> take n a)) c else None.

Fixpoint records {T} (w : nat) (dec : list Z → T) (n : nat) (bs : list Z) : list T :=
  match n with
  | 0 => []
  | S n' => dec (take w bs) :: records w dec n' (drop w bs)
  end.

Definition copy_in {T} (w : nat) (dec : list Z → T) (n : nat) (a : list T) (c : cursor)
    : option (list T * cursor) :=
  if n <=? length a then
    '(bs, c) ← read (n * w) c; Some (records w dec n bs ++ drop n a, c)
  else None.

(** [struct Entry { K key; V val; }] with [K = V = int]. *)
Definition entry_bytes (e : Z * Z) : list Z := bytes 4 e.1 ++ bytes 4 e.2.
Definition entry_of (bs : list Z) : Z * Z := (signed 4 (take 4 bs), signed 4 (drop 4 bs)).

Definition serialize_leaf (n : LeafNode.LeafNode) (buf : list Z) : option (list Z) :=
  let c := Cursor 0 buf in
  c ← write (bytes 4 LEAF_NODE) c;
  c ← write (bytes 4 (Z.of_nat (LeafNode.size_ n))) c;
  c ← write (bytes 8 (LeafNode.self_rep_ n)) c;
  c ← write (bytes 8 (LeafNode.right_sibling_ n)) c;
  c ← copy_out entry_bytes (LeafNode.size_ n) (LeafNode.entries_ n) c;
  Some (buffer c).

Definition serialize_inner (n : InnerNode.InnerNode) (buf : list Z) : option (list Z) :=
  let c := Cursor 0 buf in
  c ← write (bytes 4 INNER_NODE) c;
  c ← write (bytes 4 (Z.of_nat (InnerNode.size_ n))) c;
  c ← write (bytes 8 (InnerNode.self_rep_ n)) c;
  c ← copy_out (bytes 4) (InnerNode.size_ n) (InnerNode.key_ n) c;
  c ← copy_out (bytes 8) (InnerNode.size_ n) (InnerNode.child_rep_ n) c;
  Some (buffer c).

(** [instance_->serialize(write_buffer)], the virtual call of
    [specific_serialize]. *)
Definition specific_serialize (n : node) (buf : list Z) : option (list Z) :=
  match n with NLeaf l => serialize_leaf l buf | NInner i => serialize_inner i buf end.

(** The node the constructor with [allocate_blk_ref = false] makes; its arrays
    are not initialised. *)
Definition deserialize_leaf (n : LeafNode.LeafNode) (buf : list Z) : option LeafNode.LeafNode :=
  let c := Cursor 0 buf in
  '(_, c) ← read 4 c;
  '(size, c) ← read_unsigned 4 c;
  '(self, c) ← read_signed 8 c;
  '(sibling, c) ← read_signed 8 c;
  '(es, c) ← copy_in 8 entry_of (Z.to_nat size) (LeafNode.entries_ n) c;
  Some (LeafNode.mk es (Z.to_nat size) sibling self (LeafNode.modified_ n)).

Definition deserialize_inner (n : InnerNode.InnerNode) (buf : list Z) : option InnerNode.InnerNode :=
  let c := Cursor 0 buf in
  '(_, c) ← read 4 c;
  '(size, c) ← read_unsigned 4 c;
  '(self, c) ← read_signed 8 c;
  '(ks, c) ← copy_in 4 (signed 4) (Z.to_nat size) (InnerNode.key_ n) c;
  '(cs, c) ← copy_in 8 (signed 8) (Z.to_nat size) (InnerNode.child_rep_ n) c;
  Some (InnerNode.mk ks (Z.to_nat size) cs self (InnerNode.modified_ n)).

Definition specific_deserialize (CAPACITY : nat) (junkE : list (Z * Z)) (junkK : list Z)
    (buf : list Z) : option node :=
  '(type, _) ← read_unsigned 4 (Cursor 0 buf);
  if (type =? LEAF_NODE)%Z then
    NLeaf <$> deserialize_leaf (LeafNode.create junkE (-1)) buf
  else if (type =? INNER_NODE)%Z then
    NInner <$> deserialize_inner (InnerNode.create CAPACITY junkK (-1)) buf
  else None.

(** ** Fields *)
Definition fits (w : nat) (z : Z) : Prop :=
  (- 2 ^ (8 * Z.of_nat w - 1) ≤ z < 2 ^ (8 * Z.of_nat w - 1))%Z.

#[global] Instance fits_dec w z : Decision (fits w z).
Proof. unfold fits. apply _. Defined.

Lemma length_bytes w z : length (bytes w z) = w.
Proof.
  unfold bytes. pose proof (length_Z_to_little_endian (Z.of_nat w) 8 z ltac:(lia)). lia.
Qed.

Lemma unsigned_bytes w z :
  (0 ≤ z < 2 ^ (8 * Z.of_nat w))%Z → unsigned w (bytes w z) = z.
Proof.
  intros Hz. unfold unsigned, bytes. rewrite little_endian_to_Z_to_little_endian by lia.
  rewrite Z.mul_comm. by apply Z.mod_small.
Qed.

Lemma signed_bytes w z : 0 < w → fits w z → signed w (bytes w z) = z.
Proof.
  unfold fits, signed, bytes. intros Hw Hz.
  rewrite little_endian_to_Z_to_little_endian by lia. rewrite (Z.mul_comm (Z.of_nat w) 8).
  set (h := (8 * Z.of_nat w - 1)%Z) in *.
  assert (E : (2 ^ (8 * Z.of_nat w) = 2 * 2 ^ h)%Z).
  { replace (8 * Z.of_nat w)%Z with (Z.succ h) by lia. apply Z.pow_succ_r. lia. }
  rewrite E. destruct (decide (0 ≤ z)%Z).
  - rewrite Z.mod_small by lia. destruct (z <? 2 ^ h)%Z eqn:Hlt; lia.
  - replace (z `mod` (2 * 2 ^ h))%Z with (z + 2 * 2 ^ h)%Z
      by (apply Z.mod_unique with (-1)%Z; lia).
    destruct (z + 2 * 2 ^ h <? 2 ^ h)%Z eqn:Hlt; lia.
Qed.

Lemma length_entry_bytes e : length (entry_bytes e) = 8.
Proof. unfold entry_bytes. by rewrite length_app, !length_bytes. Qed.

Lemma entry_of_bytes e : fits 4 e.1 → fits 4 e.2 → entry_of (entry_bytes e) = e.
Proof.
  intros. unfold entry_of, entry_bytes.
  rewrite take_app_exact, drop_app_exact by (by rewrite length_bytes).
  rewrite !signed_bytes by (done || lia). by destruct e.
Qed.

(** ** The cursor over a buffer split at its offset *)
Lemma write_app pre bs rest :
  write bs (Cursor (length pre) (pre ++ rest)) =
    (if length bs <=? length rest
     then Some (Cursor (length (pre ++ bs)) ((pre ++ bs) ++ drop (length bs) rest)) else None).
Proof.
  unfold write. simpl. rewrite !length_app.
  destruct (length bs <=? length rest) eqn:E.
  - apply Nat.leb_le in E. rewrite (proj2 (Nat.leb_le _ _)) by lia.
    rewrite take_app_length, <- drop_drop, drop_app_length. by rewrite <- app_assoc.
  - apply Nat.leb_gt in E. by rewrite (proj2 (Nat.leb_gt _ _)) by lia.
Qed.

Lemma read_app pre bs rest n :
  n = length bs →
  read n (Cursor (length pre) (pre ++ bs ++ rest)) =
    Some (bs, Cursor (length (pre ++ bs)) ((pre ++ bs) ++ rest)).
Proof.
  intros ->. unfold read. simpl. rewrite !length_app.
  rewrite (proj2 (Nat.leb_le _ _)) by lia.
  by rewrite drop_app_length, take_app_length, <- app_assoc.
Qed.

Lemma read_unsigned_app pre w z rest :
  (0 ≤ z < 2 ^ (8 * Z.of_nat w))%Z →
  read_unsigned w (Cursor (length pre) (pre ++ bytes w z ++ rest)) =
    Some (z, Cursor (length (pre ++ bytes w z)) ((pre ++ bytes w z) ++ rest)).
Proof.
  intros Hz. unfold read_unsigned. rewrite read_app by (by rewrite length_bytes). simpl.
  by rewrite unsigned_bytes.
Qed.

Lemma read_signed_app pre w z rest :
  0 < w → fits w z →
  read_signed w (Cursor (length pre) (pre ++ bytes w z ++ rest)) =
    Some (z, Cursor (length (pre ++ bytes w z)) ((pre ++ bytes w z) ++ rest)).
Proof.
  intros Hw Hz. unfold read_signed. rewrite read_app by (by rewrite length_bytes). simpl.
  by rewrite signed_bytes.
Qed.

Lemma length_records {T} w (enc : T → list Z) (l : list T) :
  (∀ x, length (enc x) = w) → length (concat (enc <$> l)) = length l * w.
Proof.
  intros Hw. induction l as [|x l IH]; [done|].
  rewrite fmap_cons. cbn [concat]. rewrite length_app, Hw, IH, length_cons. lia.
Qed.

Lemma records_concat {T} w (enc : T → list Z) dec (l : list T) :
  (∀ x, length (enc x) = w) → Forall (λ x, dec (enc x) = x) l →
  records w dec (length l) (concat (enc <$> l)) = l.
Proof.
  intros Hw. induction 1 as [|x l Hx _ IH]; [done|].
  rewrite fmap_cons, length_cons. cbn [concat records].
  rewrite take_app_exact, drop_app_exact by (by rewrite Hw). by rewrite Hx, IH.
Qed.

Lemma copy_in_app {T} w (enc : T → list Z) dec (l a : list T) pre rest :
  (∀ x, length (enc x) = w) → Forall (λ x, dec (enc x) = x) l → length l ≤ length a →
  copy_in w dec (length l) a (Cursor (length pre) (pre ++ concat (enc <$> l) ++ rest)) =
    Some (l ++ drop (length l) a,
          Cursor (length (pre ++ concat (enc <$> l))) ((pre ++ concat (enc <$> l)) ++ rest)).
Proof.
  intros Hw Hl Hlen. unfold copy_in. rewrite (proj2 (Nat.leb_le _ _)) by done.
  rewrite (read_app pre (concat (enc <$> l)) rest)
    by (symmetry; by apply length_records). simpl.
  by rewrite (records_concat w enc).
Qed.

(** ** Whole nodes *)
Definition header_leaf (n : LeafNode.LeafNode) : list Z :=
  bytes 4 LEAF_NODE ++ bytes 4 (Z.of_nat (LeafNode.size_ n)) ++
  bytes 8 (LeafNode.self_rep_ n) ++ bytes 8 (LeafNode.right_sibling_ n).
Definition header_inner (n : InnerNode.InnerNode) : list Z :=
  bytes 4 INNER_NODE ++ bytes 4 (Z.of_nat (InnerNode.size_ n)) ++ bytes 8 (InnerNode.self_rep_ n).

(** The bytes a node occupies. *)
Definition payload (n : node) : list Z :=
  match n with
  | NLeaf l => header_leaf l ++ concat (entry_bytes <$> LeafNode.live l)
  | NInner i =>
      header_inner i ++ concat (bytes 4 <$> take (InnerNode.size_ i) (InnerNode.key_ i)) ++
      concat (bytes 8 <$> take (InnerNode.size_ i) (InnerNode.child_rep_ i))
  end.

Definition serialized_size (n : node) : nat :=
  match n with
  | NLeaf l => 24 + 8 * LeafNode.size_ l
  | NInner i => 16 + 12 * InnerNode.size_ i
  end.

(** The arrays have room for [size_] entries. *)
Definition arrays_ok (n : node) : Prop :=
  match n with
  | NLeaf l => LeafNode.size_ l ≤ length (LeafNode.entries_ l)
  | NInner i => InnerNode.size_ i ≤ length (InnerNode.key_ i) ∧
                InnerNode.size_ i ≤ length (InnerNode.child_rep_ i)
  end.

(** Every field has a value of its C type. *)
Definition in_range (n : node) : Prop :=
  match n with
  | NLeaf l =>
      (Z.of_nat (LeafNode.size_ l) < 2 ^ 32)%Z ∧ fits 8 (LeafNode.self_rep_ l) ∧
      fits 8 (LeafNode.right_sibling_ l) ∧
      Forall (λ e, fits 4 e.1 ∧ fits 4 e.2) (LeafNode.live l)
  | NInner i =>
      (Z.of_nat (InnerNode.size_ i) < 2 ^ 32)%Z ∧ fits 8 (InnerNode.self_rep_ i) ∧
      Forall (fits 4) (take (InnerNode.size_ i) (InnerNode.key_ i)) ∧
      Forall (fits 8) (take (InnerNode.size_ i) (InnerNode.child_rep_ i))
  end.

#[global] Instance arrays_ok_dec n : Decision (arrays_ok n).
Proof. destruct n; simpl; apply _. Defined.
#[global] Instance in_range_dec n : Decision (in_range n).
Proof. destruct n; simpl; apply _. Defined.

(** A run of writes from the start of the buffer. *)
Fixpoint writes (bss : list (list Z)) (c : cursor) : option cursor :=
  match bss with [] => Some c | bs :: bss' => c ← write bs c; writes bss' c end.

Lemma writes_app bss pre rest :
  writes bss (Cursor (length pre) (pre ++ rest)) =
    (if length (concat bss) <=? length rest
     then Some (Cursor (length (pre ++ concat bss))
                  ((pre ++ concat bss) ++ drop (length (concat bss)) rest))
     else None).
Proof.
  revert pre rest. induction bss as [|bs bss IH]; intros pre rest; cbn [writes concat].
  { simpl. by rewrite app_nil_r. }
  rewrite write_app, (length_app bs (concat bss)).
  destruct (length bs <=? length rest) eqn:E; cbn [mbind option_bind].
  - apply Nat.leb_le in E. rewrite IH, length_drop, drop_drop, <- !app_assoc.
    destruct (length (concat bss) <=? length rest - length bs) eqn:E2.
    + apply Nat.leb_le in E2. by rewrite (proj2 (Nat.leb_le _ _)) by lia.
    + apply Nat.leb_gt in E2. by rewrite (proj2 (Nat.leb_gt _ _)) by lia.
  - apply Nat.leb_gt in E. by rewrite (proj2 (Nat.leb_gt _ _)) by lia.
Qed.

Lemma length_payload n : arrays_ok n → length (payload n) = serialized_size n.
Proof.
  destruct n as [l|i]; cbn [payload serialized_size arrays_ok]; intros Hn;
    unfold header_leaf, header_inner, LeafNode.live;
    rewrite !length_app, !length_bytes.
  - rewrite (length_records 8) by apply length_entry_bytes. rewrite length_take. lia.
  - rewrite (length_records 4), (length_records 8) by (intros; apply length_bytes).
    rewrite !length_take. lia.
Qed.

(** Two programs that perform the same writes. *)
Ltac step_writes :=
  cbv zeta;
  repeat (lazymatch goal with |- (write ?b ?c ≫= _) = _ => destruct (write b c) end;
          cbn [mbind option_bind]; [|done]); done.

(** [serialize] writes the payload at the start of the buffer and leaves the
    rest of it as it was; it succeeds exactly when the payload fits. *)
Lemma specific_serialize_eq n buf :
  arrays_ok n →
  specific_serialize n buf =
    (if serialized_size n <=? length buf
     then Some (payload n ++ drop (serialized_size n) buf) else None).
Proof.
  intros Hn. rewrite <- (length_payload n) by done.
  destruct n as [l|i]; simpl in Hn.
  - transitivity (buffer <$> writes [bytes 4 LEAF_NODE; bytes 4 (Z.of_nat (LeafNode.size_ l));
      bytes 8 (LeafNode.self_rep_ l); bytes 8 (LeafNode.right_sibling_ l);
      concat (entry_bytes <$> LeafNode.live l)] (Cursor (length (@nil Z)) ([] ++ buf))).
    { cbn [specific_serialize writes app length]. unfold serialize_leaf, copy_out, LeafNode.live.
      rewrite (proj2 (Nat.leb_le _ _)) by done. step_writes. }
    rewrite writes_app. cbn [concat payload app]. unfold header_leaf. rewrite app_nil_r, <- !app_assoc.
    by case_match.
  - transitivity (buffer <$> writes [bytes 4 INNER_NODE; bytes 4 (Z.of_nat (InnerNode.size_ i));
      bytes 8 (InnerNode.self_rep_ i);
      concat (bytes 4 <$> take (InnerNode.size_ i) (InnerNode.key_ i));
      concat (bytes 8 <$> take (InnerNode.size_ i) (InnerNode.child_rep_ i))]
      (Cursor (length (@nil Z)) ([] ++ buf))).
    { cbn [specific_serialize writes app length]. unfold serialize_inner, copy_out.
      rewrite !(proj2 (Nat.leb_le _ _)) by apply Hn. step_writes. }
    rewrite writes_app. cbn [concat payload app]. unfold header_inner. rewrite app_nil_r, <- !app_assoc.
    by case_match.
Qed.

(** ** Reading a node back *)
Section roundtrip.
Context (CAPACITY : nat) (junkE : list (Z * Z)) (junkK : list Z).
Hypothesis (HE : length junkE = CAPACITY) (HK : length junkK = CAPACITY).

(** One field of a [deserialize], the rest of the buffer reassociated. *)
Ltac step_read :=
  match goal with
  | |- context [read_unsigned ?w (Cursor (length ?pre) (?pre ++ ?b ++ ?r))] =>
      rewrite (read_unsigned_app pre w _ r) by (split; [lia|assumption])
  | |- context [read_signed ?w (Cursor (length ?pre) (?pre ++ ?b ++ ?r))] =>
      rewrite (read_signed_app pre w _ r) by (done || lia)
  | |- context [read ?w (Cursor (length ?pre) (?pre ++ ?b ++ ?r))] =>
      rewrite (read_app pre b r) by (by rewrite length_bytes)
  end; cbn [mbind option_bind].

Lemma copy_in_None {T} w (dec : list Z → T) n a c : length a < n → copy_in w dec n a c = None.
Proof. intros H. unfold copy_in. by rewrite (proj2 (Nat.leb_gt _ _)). Qed.

Lemma deserialize_leaf_payload l rest :
  arrays_ok (NLeaf l) → in_range (NLeaf l) →
  NLeaf <$> deserialize_leaf (LeafNode.create junkE (-1)) (payload (NLeaf l) ++ rest) =
    deserialize CAPACITY junkE junkK (serialize (NLeaf l)).
Proof using HE HK.
  intros Ha (Hsz & Hself & Hsib & Hes). cbn [arrays_ok] in Ha.
  assert (Hlen : length (LeafNode.live l) = LeafNode.size_ l)
    by (unfold LeafNode.live; rewrite length_take; lia).
  cbn [payload serialize deserialize]. unfold deserialize_leaf, header_leaf. cbv zeta.
  change (Cursor 0 ?b) with (Cursor (length (@nil Z)) ([] ++ b)). rewrite <- !app_assoc.
  do 4 step_read. rewrite Nat2Z.id, Hlen.
  destruct (LeafNode.size_ l <=? CAPACITY) eqn:Hcap.
  - apply Nat.leb_le in Hcap. rewrite <- Hlen at 1.
    rewrite (copy_in_app 8 entry_bytes); [simpl; by rewrite Hlen|apply length_entry_bytes| |].
    + eapply Forall_impl; [exact Hes|]. intros e [??]. by apply entry_of_bytes.
    + simpl. lia.
  - apply Nat.leb_gt in Hcap. rewrite copy_in_None by (simpl; lia). done.
Qed.

Lemma deserialize_inner_payload i rest :
  arrays_ok (NInner i) → in_range (NInner i) →
  NInner <$> deserialize_inner (InnerNode.create CAPACITY junkK (-1)) (payload (NInner i) ++ rest) =
    deserialize CAPACITY junkE junkK (serialize (NInner i)).
Proof using HE HK.
  intros [Ha Hb] (Hsz & Hself & Hks & Hcs).
  cbn [payload serialize deserialize]. unfold deserialize_inner, header_inner. cbv zeta.
  set (ks := take _ (InnerNode.key_ i)) in *. set (cs := take _ (InnerNode.child_rep_ i)) in *.
  assert (Hlk : length ks = InnerNode.size_ i) by (unfold ks; rewrite length_take; lia).
  assert (Hlc : length cs = InnerNode.size_ i) by (unfold cs; rewrite length_take; lia).
  change (Cursor 0 ?b) with (Cursor (length (@nil Z)) ([] ++ b)). rewrite <- !app_assoc.
  do 3 step_read. rewrite Nat2Z.id, Hlc, Hlk, Nat.eqb_refl, andb_true_r.
  destruct (InnerNode.size_ i <=? CAPACITY) eqn:Hcap.
  - apply Nat.leb_le in Hcap. rewrite <- Hlk at 1.
    rewrite (copy_in_app 4 (bytes 4)); [|apply length_bytes| |simpl; lia].
    2: { eapply Forall_impl; [exact Hks|]. intros z ?. apply signed_bytes; [lia|done]. }
    cbn [mbind option_bind]. rewrite <- Hlc at 1.
    rewrite (copy_in_app 8 (bytes 8)); [simpl; by rewrite Hlk, Hlc|apply length_bytes| |].
    + eapply Forall_impl; [exact Hcs|]. intros z ?. apply signed_bytes; [lia|done].
    + simpl. rewrite length_replicate. lia.
  - apply Nat.leb_gt in Hcap. rewrite copy_in_None by (simpl; lia). done.
Qed.

Lemma read_type tag rest :
  (0 ≤ tag < 2 ^ 32)%Z →
  ∃ c, read_unsigned 4 (Cursor 0 (bytes 4 tag ++ rest)) = Some (tag, c).
Proof.
  intros H. change (Cursor 0 ?b) with (Cursor (length (@nil Z)) ([] ++ b)).
  rewrite read_unsigned_app by exact H. eauto.
Qed.

Lemma specific_deserialize_payload n rest :
  arrays_ok n → in_range n →
  specific_deserialize CAPACITY junkE junkK (payload n ++ rest) =
    deserialize CAPACITY junkE junkK (serialize n).
Proof using HE HK.
  intros Ha Hr. unfold specific_deserialize. destruct n as [l|i].
  - edestruct (read_type LEAF_NODE) as [c E]; [done|].
    rewrite <- deserialize_leaf_payload with (rest := rest) by done.
    cbn [payload]. unfold header_leaf. rewrite <- !app_assoc, E. done.
  - edestruct (read_type INNER_NODE) as [c E]; [done|].
    rewrite <- deserialize_inner_payload with (rest := rest) by done.
    cbn [payload]. unfold header_inner. rewrite <- !app_assoc, E. done.
Qed.

End roundtrip.

End Bytes.

(** C22: Serialising a node into a block and deserialising the block is the
    abstract round trip of the store. For a node whose fields have values of
    their C types, [serialize] succeeds exactly when the block has room for
    24 + 8 * size bytes (leaf) or 16 + 12 * size bytes (inner), it keeps the
    length of the block, and what [specific_deserialize] then reads, whatever
    the block held before, is the node that the store keeps at that address. *)
Theorem node_bytes_roundtrip CAPACITY junkE junkK n buf :
  length junkE = CAPACITY → length junkK = CAPACITY →
  Bytes.arrays_ok n → Bytes.in_range n →
  (is_Some (Bytes.specific_serialize n buf) ↔ Bytes.serialized_size n ≤ length buf) ∧
  (∀ buf', Bytes.specific_serialize n buf = Some buf' →
     length buf' = length buf ∧
     Bytes.specific_deserialize CAPACITY junkE junkK buf' =
       deserialize CAPACITY junkE junkK (serialize n)).
Proof.
  intros HE HK Ha Hr. rewrite Bytes.specific_serialize_eq by done.
  pose proof (Bytes.length_payload n Ha) as Hl.
  destruct (Bytes.serialized_size n <=? length buf) eqn:E; split.
  - apply Nat.leb_le in E. by split; [|eauto].
  - intros buf' [= <-]. apply Nat.leb_le in E. split.
    + rewrite length_app, length_drop. lia.
    + by apply Bytes.specific_deserialize_payload.
  - apply Nat.leb_gt in E. split; [intros [? [=]]|lia].
  - done.
Qed.

Definition sample_leaf : node :=
  NLeaf (LeafNode.mk [(-3, 7); (2147483647, -1); (0, 0)]%Z 2 (-1) 5 true).

Lemma node_bytes_roundtrip_witness :
  ∃ buf', Bytes.specific_serialize sample_leaf (replicate 48 255%Z) = Some buf' ∧
    take 24 buf' = [1; 0; 0; 0; 2; 0; 0; 0; 5; 0; 0; 0; 0; 0; 0; 0;
                    255; 255; 255; 255; 255; 255; 255; 255]%Z ∧
    Bytes.specific_deserialize 3 (replicate 3 (9, 9)%Z) (replicate 3 9%Z) buf' =
      Some (NLeaf (LeafNode.mk [(-3, 7); (2147483647, -1); (9, 9)]%Z 2 (-1) 5 false)).
Proof.
  destruct (node_bytes_roundtrip 3 (replicate 3 (9, 9)%Z) (replicate 3 9%Z) sample_leaf
              (replicate 48 255%Z) eq_refl eq_refl) as [Hs Hd].
  - by apply (bool_decide_unpack _).
  - by apply (bool_decide_unpack _).
  - destruct (Bytes.specific_serialize sample_leaf (replicate 48 255%Z)) as [buf'|] eqn:E;
      [|by vm_compute in E].
    exists buf'. split; [done|]. destruct (Hd buf' eq_refl) as [_ ->]. split; [|by vm_compute].
    vm_compute in E. injection E as <-. reflexivity.
Defined.
