(* ===== verification/PullTerminates.v ===== *)
(** Termination of the recursive calls of [insert_context::run] and
    [search_context::run] (src/src/tree/pull_based_b_plus_tree.h): between two
    suspensions a context changes its state at most five times, so the fuel of
    [run] bounds nothing. The argument is a rank of the state of a context that
    every recursive call decreases. *)
From Stdlib Require Import ZArith Lia.
From stdpp Require Import base list gmap sorting numbers.
From S2P Require Import Prelude KV Leaf Inner Store Alloc Barrier BarrierFrame PullState PullTree PullSafe PullAnswers TreeSpec PullSpec.

Module PullTerminates.
Import Barrier BarrierFrame Pull PullTree PullSafe PullAnswers.

Section rank.
Context {A : Type} `{!Allocator A}.
Context (CAPACITY : nat) (junkE : list (Z * Z)) (junkK : list Z).
Local Abbreviation cmd := (@cmd A).
Local Abbreviation pstate := (pstate A).
Implicit Types (s : pstate) (p q : nat) (R : list nat).

(** The barrier obtained last is that of the present root. *)
Definition at_root (root : Z) (c : call_back_context) : bool :=
  match list.last (obtained_barriers_ c) with Some k => (barrier_id_ k =? root)%Z | None => false end.

Definition insert_rank (root : Z) (c : call_back_context) (i : insert_context) : nat :=
  let st := current_state c in
  if (st =? 0)%Z then (if (node_ref_ i =? -1)%Z then 2 else 4)
  else if (st =? 10001)%Z then (if refer_to_root_ i && negb (at_root root c) then 3 else 1)
  else if (st =? 2)%Z then 5
  else if (st =? 9)%Z then
    (if S (write_back_completion_count_ i) =? write_back_completion_target_ i then 2 else 1)
  else if (st =? 10)%Z then 3
  else if (st =? 13)%Z then 3
  else 0.

Definition search_rank (c : call_back_context) : nat :=
  let st := current_state c in if (st =? 0)%Z then 1 else if (st =? 2)%Z then 2 else 0.

Definition rank p s : nat :=
  match ctxs s !! p, datas s !! p with
  | Some c, Some (CInsert i) => insert_rank (root_ (tree s)) c i
  | Some c, Some (CSearch _) => search_rank c
  | _, _ => 0
  end.

Lemma rank_bound p s : rank p s ≤ 5.
Proof.
  unfold rank, insert_rank, search_rank. cbv zeta.
  repeat case_match; lia.
Qed.

(** [descends p r]: a recursive call starts with a rank below [r]. *)
Definition descends p (r : nat) (o : outcome) s : Prop := o = Again → rank p s < r.

(** ** Commands, without an invariant *)
Lemma wp_any {X Y} (c : cmd X) (k : X → cmd Y) Q s : (∀ x s', wp (k x) Q s') → wp (c ≫= k) Q s.
Proof. intros H. apply wp_bind. intros x s' _. apply H. Qed.

Lemma wp_jump_to p st Q s :
  (∀ s' c, ctxs s' !! p = Some c → current_state c = st → datas s' = datas s → tree s' = tree s → Q Again s') →
  wp (jump p st) Q s.
Proof.
  intros HQ o s' E. unfold jump, goto_next, do_transition, update_call_back, update_context in E.
  cbv [mbind cmd_bind mret cmd_ret option_bind] in E.
  destruct (contexts (wd (manager s)) !! p) as [c|] eqn:Hc; [|done]. simpl in E.
  rewrite list_lookup_insert_eq in E by (by eapply lookup_lt_Some).
  unfold transition_to_next_state in E. simpl in E.
  destruct (0 <=? st)%Z; [|done]. simplify_eq.
  apply (HQ _ (mk_ctx (status c) st st (id c) (tag c) (obtained_barriers_ c))); [|done..].
  unfold ctxs. simpl. apply list_lookup_insert_eq. rewrite length_insert. by eapply lookup_lt_Some.
Qed.

Lemma wp_put_insert_to p i i' Q s :
  datas s !! p = Some (CInsert i) →
  (∀ s', datas s' !! p = Some (CInsert i') → Q tt s') → wp (put_insert p i') Q s.
Proof.
  intros Hd HQ. apply wp_modify, HQ. simpl. apply list_lookup_insert_eq. by eapply lookup_lt_Some.
Qed.

Lemma wp_get_insert_eq p i Q s :
  datas s !! p = Some (CInsert i) → Q i s → wp (get_insert p) Q s.
Proof. intros Hd HQ x s' E. unfold get_insert in E. rewrite Hd in E. by simplify_eq. Qed.

Lemma wp_get_insert_any p Q s :
  (∀ i, datas s !! p = Some (CInsert i) → Q i s) → wp (get_insert p) Q s.
Proof.
  intros HQ x s' E. unfold get_insert in E. destruct (datas s !! p) as [[i|]|] eqn:Hd; simplify_eq.
  by apply HQ.
Qed.

(** A jump to [st] after the data of the context was written. *)
Lemma wp_put_jump p i' st (r : nat) s :
  (∀ root c, current_state c = st → insert_rank root c i' < r) →
  wp (_ ← put_insert p i'; jump p st) (descends p r) s.
Proof.
  intros Hr. apply wp_bind, wp_modify, wp_jump_to. intros s2 c Hc Hst H2 _ _.
  unfold rank. rewrite Hc, H2. simpl. pose proof (Hr 0%Z c Hst).
  destruct (decide (p < length (datas s))).
  - rewrite list_lookup_insert_eq by done. by apply Hr.
  - rewrite lookup_ge_None_2 by (rewrite length_insert; lia). lia.
Qed.

(** A jump to a state without recursive calls. *)
Lemma wp_jump_flat p i st (r : nat) s :
  datas s !! p = Some (CInsert i) → (∀ root c, current_state c = st → insert_rank root c i < r) →
  wp (jump p st) (descends p r) s.
Proof.
  intros Hd Hr. apply wp_jump_to. intros s2 c Hc Hst H2 _ _. unfold rank. rewrite Hc, H2, Hd. by apply Hr.
Qed.

Lemma wp_leave p r o s : o ≠ Again → wp (mret o) (descends p r) s.
Proof. intros H. apply wp_ret. by intros ->. Qed.

(** The rank in a known state. *)
Ltac rank_at :=
  intros ? ? E; unfold insert_rank; rewrite E; simpl; repeat case_match; lia.

Ltac to_end := repeat (apply wp_any; intros ? ?); by apply wp_leave.

Lemma insert_state_2_descends p s : wp (insert_state_2 CAPACITY junkE junkK p) (descends p 5) s.
Proof.
  unfold insert_state_2. apply wp_bind, wp_get_insert_any. intros i Hd.
  apply wp_bind, wp_require. intros b _. apply wp_bind, wp_require. intros [leaf|n] _.
  - unfold insert_state_2_leaf. apply wp_bind, wp_context_any. intros c _.
    apply wp_bind, wp_get, wp_bind, wp_assert. intros _. apply wp_bind, wp_require. intros k _.
    apply wp_bind, wp_assert. intros _. case_match; [by apply wp_put_jump; rank_at|].
    destruct (allocate _) as [rrep a']. apply wp_bind, wp_require. intros [l' [[rt bkey]|]] _; to_end.
  - unfold insert_state_2_inner. apply wp_bind, wp_require. intros idx _.
    case_match; [by apply wp_put_jump; rank_at|].
    apply wp_bind, wp_require. intros n' _. apply wp_bind, wp_require. intros r _.
    apply wp_put_jump; rank_at.
Qed.

Lemma insert_state_10_descends p s i :
  datas s !! p = Some (CInsert i) →
  wp (insert_state_10 p)
    (descends p (if S (write_back_completion_count_ i) =? write_back_completion_target_ i then 2 else 1)) s.
Proof.
  intros Hd. unfold insert_state_10. apply wp_bind. eapply wp_get_insert_eq; [exact Hd|].
  apply wp_bind. eapply wp_put_insert_to; [exact Hd|]. intros s1 H1.
  cbn [write_back_completion_count_ set_count set_last_state_1 write_back_completion_target_].
  destruct (S (write_back_completion_count_ i) =? write_back_completion_target_ i) eqn:Et; [|by apply wp_leave]. apply Nat.eqb_eq in Et.
  eapply wp_jump_flat; [exact H1|]. intros root c E. unfold insert_rank. rewrite E.
  cbn [write_back_completion_count_ set_count set_last_state_1 write_back_completion_target_].
  rewrite Et, (proj2 (Nat.eqb_neq _ _)) by lia. simpl. lia.
Qed.

Lemma insert_state_9_descends p s i :
  datas s !! p = Some (CInsert i) →
  wp (insert_state_9 CAPACITY junkK p)
    (descends p (if S (write_back_completion_count_ i) =? write_back_completion_target_ i then 2 else 1)) s.
Proof.
  intros Hd. unfold insert_state_9. apply wp_bind. eapply wp_get_insert_eq; [exact Hd|]. cbv zeta.
  case_match.
  - unfold insert_state_9_split. case_match; [case_match|].
    + apply wp_bind, wp_get, wp_bind, wp_require. intros [[lc rchild] bkey] _. case_match.
      * to_end.
      * apply wp_any. intros rrep s1. apply wp_bind, wp_require. intros [[lt rt] b] _. to_end.
    + apply wp_bind. eapply wp_put_insert_to; [exact Hd|]. intros s1 H1.
      exact (insert_state_10_descends p s1 _ H1).
  - unfold insert_state_9_flush. case_match; [case_match; to_end|].
    apply wp_put_jump. intros root c E. unfold insert_rank. rewrite E. simpl. case_match; lia.
Qed.

Lemma wp_stale (b : bool) (o : option barrier_token) root (Q : bool → pstate → Prop) s :
  (∀ k, b = true → o = Some k → Q (negb (barrier_id_ k =? root)%Z) s) → (b = false → Q false s) →
  wp (if b then k ← require o; mret (negb (barrier_id_ k =? root)%Z) else mret false) Q s.
Proof.
  intros H1 H2. destruct b; [|by apply wp_ret, H2].
  apply wp_bind, wp_require. intros k Hk. by apply wp_ret, H1.
Qed.

Lemma insert_state_10001_descends p s c i :
  ctxs s !! p = Some c → datas s !! p = Some (CInsert i) →
  wp (insert_state_10001 p)
    (descends p (if refer_to_root_ i && negb (at_root (root_ (tree s)) c) then 3 else 1)) s.
Proof.
  intros Hc Hd. unfold insert_state_10001. apply wp_bind. eapply wp_get_insert_eq; [exact Hd|].
  apply wp_bind, wp_get, wp_bind, wp_context_any. intros c' Hc'. rewrite Hc in Hc'. injection Hc' as <-. cbv zeta.
  assert (Hgo : ∀ (X : cmd unit) r s1, 0 < r → wp (_ ← X; jump p 1) (descends p r) s1).
  { intros X r s1 Hr. apply wp_any. intros _ s2. apply wp_jump_to. intros s3 c3 H3 E3 _ _ _.
    unfold rank. rewrite H3. case_match; [|lia]. unfold insert_rank, search_rank. rewrite E3.
    case_match; simpl; lia. }
  apply wp_bind, wp_stale; cbn [refer_to_root_ set_last_state_1].
  - intros k -> Hk. unfold at_root. rewrite Hk. destruct (barrier_id_ k =? root_ (tree s))%Z; simpl.
    + apply wp_any. intros _ s1. apply Hgo. lia.
    + apply wp_any. intros _ s1. apply wp_any. intros _ s2. apply wp_put_jump. rank_at.
  - intros ->. simpl. apply wp_any. intros _ s1. apply Hgo. lia.
Qed.

Lemma insert_state_13_descends p s : wp (insert_state_13 p) (descends p 3) s.
Proof.
  unfold insert_state_13. apply wp_any. intros c s1. apply wp_bind, wp_get, wp_any. intros _ s2.
  apply wp_any. intros _ s3. apply wp_bind, wp_jump_to. intros s4 c4 Hc4 E4 _ _.
  apply wp_bind, wp_get_insert_any. intros i Hi. apply wp_bind, wp_modify, wp_ret. intros _.
  unfold rank. simpl. unfold ctxs in *. simpl. rewrite Hc4.
  rewrite list_lookup_insert_eq by (by eapply lookup_lt_Some). unfold insert_rank. rewrite E4. simpl. lia.
Qed.

(** The barrier that is granted is the one asked for. *)
Lemma wp_ask_granted t id p s c Q :
  manager_ok settled (manager s) → ctxs s !! p = Some c →
  (∀ s', ctxs s' !! p = Some (add_barrier_token (mk_token id t) c) → datas s' = datas s → tree s' = tree s → Q true s') →
  (∀ s', Q false s') → wp (ask_barrier t id p) Q s.
Proof.
  intros Hok Hc Hyes Hno ok s' E. unfold ask_barrier in E. apply bind_Some in E as ([ok' m'] & Hr & E).
  simplify_eq. destruct ok; [|done].
  unfold request_barrier in Hr. apply bind_Some in Hr as ([b m1] & Hg & Hr).
  apply bind_Some in Hr as ([[ok' b'] w] & Hs & Hr). simplify_eq.
  assert (Hb : b_id b = id ∧ wd m1 = wd (manager s)) 
    by (destruct (get_or_create_barrier_ok settled id (manager s) Hok) as (b2 & m2 & Hg2 & Hw2 & _ & _ & Hb2 & _);
        [unfold get_or_create_barrier in Hg; destruct (Z.ltb_spec id 0); [done|lia]|];
        rewrite Hg in Hg2; by simplify_eq).
  destruct Hb as [Hb Hw]. rewrite Hw in Hs. unfold set_barrier in Hs.
  destruct (grant t b); [|done]. apply bind_Some in Hs as (w' & Hu & Hs). simplify_eq.
  unfold update_context in Hu. unfold ctxs in Hc. rewrite Hc in Hu. simpl in Hu. simplify_eq.
  apply Hyes; [|done..]. unfold ctxs. simpl. apply list_lookup_insert_eq. by eapply lookup_lt_Some.
Qed.

Lemma wp_do_transition_to p c Q s :
  ctxs s !! p = Some c →
  (∀ s', ctxs s' !! p = Some (moved_on c) → datas s' = datas s → tree s' = tree s → Q tt s') →
  wp (do_transition p) Q s.
Proof.
  intros Hc HQ x s' E. unfold do_transition, update_call_back, update_context in E. unfold ctxs in *.
  rewrite Hc in E. simpl in E. unfold transition_to_next_state in E.
  destruct (0 <=? next_state c)%Z; [|done]. simpl in E. simplify_eq. apply HQ; [|done..]. simpl.
  apply list_lookup_insert_eq. by eapply lookup_lt_Some.
Qed.

Lemma wp_goto_next_tree p R s c d st Q :
  mine settled p R s c d 0 0 0 → (0 ≤ st)%Z →
  (∀ s', mine settled p R s' (set_next_state st c) d 0 0 0 → tree s' = tree s → Q tt s') →
  wp (goto_next p st) Q s.
Proof.
  intros H Hst HQ x s' E. assert (Ht : tree s' = tree s).
  { unfold goto_next, update_call_back in E. apply bind_Some in E as (w & _ & E). by simplify_eq. }
  revert x s' E Ht. change (wp (goto_next p st) (λ x s', tree s' = tree s → Q x s') s).
  eapply wp_goto_next; [exact H|done|]. intros s' H' Ht. destruct H. by apply HQ.
Qed.

Lemma insert_state_0_descends p R s c i :
  mine settled p R s c (CInsert i) 0 0 0 →
  wp (insert_state_0 p) (descends p (if (node_ref_ i =? -1)%Z then 2 else 4)) s.
Proof.
  intros H. unfold insert_state_0. wps H. apply wp_bind, wp_get. cbv zeta.
  set (i1 := if (node_ref_ (set_last_state_1 false i) =? -1)%Z then _ else _).
  apply wp_bind, wp_modify.
  assert (H1 : mine settled p R (with_datas (<[p := CInsert i1]> (datas s)) s) c (CInsert i1) 0 0 0).
  { eapply mine_data; [exact H|]. left. eauto. }
  apply wp_bind. eapply wp_goto_next_tree; [exact H1|lia|]. clear H H1. intros s2 H Ht. simpl in Ht.
  apply wp_bind. eapply wp_ask_granted; [apply H|apply H| |intros s3; by apply wp_leave].
  intros s3 Hc3 Hd3 Ht3. apply wp_bind. eapply wp_do_transition_to; [exact Hc3|].
  intros s4 Hc4 Hd4 Ht4. apply wp_ret. intros _. unfold rank.
  rewrite Hc4, Hd4, Hd3, (m_data _ _ _ _ _ _ _ _ _ H), Ht4, Ht3, Ht.
  unfold insert_rank, at_root, moved_on, add_barrier_token, set_tokens. simpl. rewrite last_snoc. simpl.
  unfold i1. simpl. destruct (node_ref_ i =? -1)%Z; simpl.
  - rewrite Z.eqb_refl. simpl. lia.
  - repeat case_match; lia.
Qed.

(** ** Whole steps *)
Lemma insert_step_descends p R s i :
  Inv (p :: R) s → datas s !! p = Some (CInsert i) →
  wp (insert_step CAPACITY junkE junkK p) (descends p (rank p s)) s.
Proof.
  intros HI Hd. unfold insert_step. apply wp_bind, wp_context_any. intros c Hc.
  unfold rank. fold (ctxs s) in Hc. rewrite Hc, Hd. unfold insert_rank. cbv zeta.
  destruct (Z.eqb_spec (current_state c) 0) as [E|_].
  { eapply insert_state_0_descends. eapply (sole _ _ _ _ _ HI Hc Hd). by rewrite E. }
  destruct (Z.eqb_spec (current_state c) 10001) as [E|_]; [by apply insert_state_10001_descends|].
  destruct (Z.eqb_spec (current_state c) 1) as [E|_]; [rewrite E; to_end|].
  destruct (Z.eqb_spec (current_state c) 2) as [E|_]; [apply insert_state_2_descends|].
  destruct (Z.eqb_spec (current_state c) 9) as [E|_]; [by apply insert_state_9_descends|].
  destruct (Z.eqb_spec (current_state c) 10) as [E|_].
  { eapply wp_mono; [by apply insert_state_10_descends|]. intros o s' H Ho. specialize (H Ho). case_match; lia. }
  destruct (Z.eqb_spec (current_state c) 11) as [E|_]; [rewrite E; to_end|].
  destruct (Z.eqb_spec (current_state c) 12) as [E|_].
  { rewrite E. unfold insert_state_12. apply wp_any. intros i' s1. apply wp_any. intros _ s2.
    case_match; [|by apply wp_leave]. apply wp_any. intros [[lt rt] bk] s3. to_end. }
  destruct (Z.eqb_spec (current_state c) 13) as [E|_]; [apply insert_state_13_descends|].
  apply wp_require. by intros ?.
Qed.

Lemma search_step_descends p R s i :
  Inv (p :: R) s → datas s !! p = Some (CSearch i) →
  wp (search_step CAPACITY junkE junkK p) (descends p (rank p s)) s.
Proof.
  intros HI Hd. unfold search_step. apply wp_bind, wp_context_any. intros c Hc.
  unfold rank. fold (ctxs s) in Hc. rewrite Hc, Hd. unfold search_rank. cbv zeta.
  destruct (Z.eqb_spec (current_state c) 0) as [E|_].
  { destruct (sole _ _ _ _ _ HI Hc Hd) as (H & _); [by rewrite E|].
    unfold search_state_0. wps H. wps H. apply wp_bind.
    eapply (wp_ask_barrier _ _ _ _ _ _ _ _ _ _ H); [simpl; lia|done|..]; clear H.
    - intros k s1 _ H. wps H. apply wp_ret. intros _. unfold rank.
      rewrite (m_ctx _ _ _ _ _ _ _ _ _ H), (m_data _ _ _ _ _ _ _ _ _ H). simpl. unfold search_rank. simpl. lia.
    - intros s1 _. by apply wp_leave. }
  destruct (Z.eqb_spec (current_state c) 1) as [E|_]; [rewrite E; to_end|].
  destruct (Z.eqb_spec (current_state c) 2) as [E|_]; [|apply wp_require; by intros ?].
  unfold search_state_2. apply wp_any. intros sc s1. apply wp_any. intros b s2. apply wp_bind, wp_require.
  intros [leaf|n] _; apply wp_bind, wp_require; intros r _; [unfold search_done; to_end|].
  case_match; [unfold search_done; to_end|]. apply wp_bind, wp_require. intros r' _.
  apply wp_bind, wp_modify, wp_jump_to. intros s3 c3 H3 E3 D3 _ _. unfold rank. rewrite H3, D3. simpl.
  destruct (decide (p < length (datas s2))).
  - rewrite list_lookup_insert_eq by done. unfold search_rank. rewrite E3. simpl. lia.
  - rewrite lookup_ge_None_2 by (rewrite length_insert; lia). lia.
Qed.

Lemma step_descends p R s :
  Inv (p :: R) s → wp (step CAPACITY junkE junkK p) (descends p (rank p s)) s.
Proof.
  intros HI o s' E. unfold step in E. destruct (datas s !! p) as [[i|i]|] eqn:Hd; [..|done].
  - by eapply (insert_step_descends p R s i HI Hd).
  - by eapply (search_step_descends p R s i HI Hd).
Qed.

(** ** Running *)
(** [k] recursive calls. *)
Fixpoint again (k : nat) p s : option pstate :=
  match k with
  | 0 => Some s
  | S k' => match step CAPACITY junkE junkK p s with Some (Again, s') => again k' p s' | _ => None end
  end.

(** The last call: the context suspends or ends, or an assertion fails. *)
Definition settles p s : Prop :=
  match step CAPACITY junkE junkK p s with Some (Again, _) => False | _ => True end.

Lemma again_settles n : ∀ p R s,
  rank p s ≤ n → Inv (p :: R) s → ∃ k s', k ≤ n ∧ again k p s = Some s' ∧ settles p s'.
Proof.
  induction n as [|n IH]; intros p R s Hn HI;
    destruct (step CAPACITY junkE junkK p s) as [[[| |] s1]|] eqn:E;
    try (exists 0, s; split_and!; [lia|done|unfold settles; by rewrite E]).
  - pose proof (step_descends p R s HI _ _ E eq_refl). lia.
  - pose proof (step_descends p R s HI _ _ E eq_refl).
    destruct (IH p R s1) as (k & s' & Hk & Ha & Hs); [lia|exact (step_ok _ _ _ p R s HI _ _ E)|].
    exists (S k), s'. split_and!; [lia|simpl; by rewrite E|done].
Qed.

Lemma run_again k : ∀ fuel p s s',
  again k p s = Some s' → settles p s' → k < fuel →
  run CAPACITY junkE junkK fuel p s = step CAPACITY junkE junkK p s'.
Proof.
  induction k as [|k IH]; intros [|fuel] p s s' Ha Hs Hk; try lia; simpl in *.
  - simplify_eq. unfold settles in Hs. cbv [mbind cmd_bind].
    destruct (step CAPACITY junkE junkK p s') as [[[| |] s1]|]; done.
  - cbv [mbind cmd_bind]. destruct (step CAPACITY junkE junkK p s) as [[[| |] s1]|]; try done.
    apply (IH fuel p s1 s'); [done..|lia].
Qed.

Lemma run_enough fuel p R s :
  6 ≤ fuel → Inv (p :: R) s → run CAPACITY junkE junkK fuel p s = run CAPACITY junkE junkK 6 p s.
Proof.
  intros Hf HI. destruct (again_settles 5 p R s (rank_bound p s) HI) as (k & s' & Hk & Ha & Hs).
  rewrite !(run_again k _ p s s') by (done || lia). done.
Qed.

Lemma run_all_enough fuel ps : ∀ issued n R s,
  6 ≤ fuel → fine issued n (ps ++ R) s →
  run_all CAPACITY junkE junkK fuel ps s = run_all CAPACITY junkE junkK 6 ps s.
Proof.
  induction ps as [|p ps IH]; intros issued n R s Hf HI; [done|]. cbn [run_all].
  cbv [mbind cmd_bind]. rewrite (run_enough fuel p (ps ++ R)) by (done || apply HI).
  destruct (run CAPACITY junkE junkK 6 p s) as [[o s1]|] eqn:E; [|done].
  rewrite (IH issued n R s1 Hf); [done|].
  exact (run_fine CAPACITY junkE junkK issued n 6 p (ps ++ R) s HI _ _ E).
Qed.

(** Two commands that agree on the state, followed by continuations that agree
    on what the first one establishes. *)
Lemma bind_agree {X Y} (c c' : cmd X) (k k' : X → cmd Y) (P : pstate → Prop) s :
  c s = c' s → wp c' (λ _, P) s → (∀ x s', P s' → k x s' = k' x s') → (c ≫= k) s = (c' ≫= k') s.
Proof.
  intros E Hw Hk. cbv [mbind cmd_bind]. rewrite E. destruct (c' s) as [[x s1]|] eqn:E'; [|done].
  apply Hk. by apply (Hw x).
Qed.

Section rounds.
Context (issued : list request) (n : nat).
Local Abbreviation fine := (fine issued n).

Lemma process_new_enough fuel max s :
  6 ≤ fuel → fine [] s →
  process_new_context CAPACITY junkE junkK fuel max s = process_new_context CAPACITY junkE junkK 6 max s.
Proof.
  intros Hf [HI Ha]. unfold process_new_context. cbv [mbind cmd_bind get modify].
  destruct (take_ready _ _ _ _) as [now later] eqn:E.
  apply (run_all_enough fuel now issued n []); [done|]. rewrite app_nil_r.
  split; [by eapply take_new|]. eapply acct_same; [|exact Ha]. by split_and!.
Qed.

Lemma process_blk_ready_enough fuel max sort s :
  6 ≤ fuel → fine [] s →
  process_blk_ready_context CAPACITY junkE junkK fuel max sort s =
  process_blk_ready_context CAPACITY junkE junkK 6 max sort s.
Proof.
  intros Hf [HI Ha]. unfold process_blk_ready_context. cbv [mbind cmd_bind get modify].
  destruct (take_ready _ _ _ _) as [now later] eqn:E.
  apply (run_all_enough fuel now issued n []); [done|]. rewrite app_nil_r.
  split; [by eapply take_blk_ready|]. eapply acct_same; [|exact Ha]. by split_and!.
Qed.

Lemma process_barrier_ready_enough fuel max sort s :
  6 ≤ fuel → fine [] s →
  process_barrier_ready_context CAPACITY junkE junkK fuel max sort s =
  process_barrier_ready_context CAPACITY junkE junkK 6 max sort s.
Proof.
  intros Hf [HI Ha]. unfold process_barrier_ready_context. cbv [mbind cmd_bind get modify].
  destruct (take_ready _ _ _ _) as [now later] eqn:E.
  apply (run_all_enough fuel now issued n []); [done|]. rewrite app_nil_r.
  split; [by eapply take_barrier_ready|]. eapply acct_same; [|exact Ha]. by split_and!.
Qed.

(** One phase of a round: the same command on both sides, or one of the three
    above. *)
Ltac phase :=
  eapply bind_agree with (P := fine []);
    [first [reflexivity | by apply process_new_enough | by apply process_blk_ready_enough
           | by apply process_barrier_ready_enough]
    |first [by apply admission_fine | by apply process_new_fine | by apply process_blk_ready_fine
           | by apply process_completion_fine | by apply process_barrier_ready_fine]
    |intros ? ? ?].

Lemma naive_round_enough fuel shuffle s :
  6 ≤ fuel → (∀ l, shuffle l ≡ₚ l) → fine [] s →
  naive_round CAPACITY junkE junkK fuel shuffle s = naive_round CAPACITY junkE junkK 6 shuffle s.
Proof.
  intros Hf Hsh HI. unfold naive_round.
  do 4 phase. by phase.
Qed.

Lemma latency_aware_round_enough fuel shuffle probe s :
  6 ≤ fuel → fine [] s →
  latency_aware_round CAPACITY junkE junkK fuel shuffle probe s =
  latency_aware_round CAPACITY junkE junkK 6 shuffle probe s.
Proof.
  intros Hf HI. unfold latency_aware_round.
  do 3 phase. by phase.
Qed.

End rounds.

End rank.
End PullTerminates.

(** C20: The recursion of [run] ends: whenever the scheduler runs a context of the
    pull-mode tree (the invariant holds with the context taken), at most five
    recursive calls follow, after which the context suspends, ends or fails an
    assertion, and with fuel for six calls [run] returns exactly that. In every
    reachable state the rounds of both schedulers are the same for every fuel of
    at least six. *)
Theorem pull_run_terminates {A} `{!Allocator A} CAPACITY junkE junkK n (t : tree_state A) rs s :
  PullAnswers.reach CAPACITY junkE junkK n t rs s →
  (∀ p R s0, PullSafe.Inv (p :: R) s0 →
     ∃ k s1, k ≤ 5 ∧ PullTerminates.again CAPACITY junkE junkK k p s0 = Some s1 ∧
       PullTerminates.settles CAPACITY junkE junkK p s1 ∧
       ∀ fuel, 6 ≤ fuel →
         PullTree.run CAPACITY junkE junkK fuel p s0 = PullTree.step CAPACITY junkE junkK p s1) ∧
  (∀ fuel shuffle probe, 6 ≤ fuel → (∀ l, shuffle l ≡ₚ l) →
     PullTree.naive_round CAPACITY junkE junkK fuel shuffle s =
       PullTree.naive_round CAPACITY junkE junkK 6 shuffle s ∧
     PullTree.latency_aware_round CAPACITY junkE junkK fuel shuffle probe s =
       PullTree.latency_aware_round CAPACITY junkE junkK 6 shuffle probe s).
Proof.
  intros Hr. split.
  - intros p R s0 HI. destruct (PullTerminates.again_settles CAPACITY junkE junkK 5 p R s0)
      as (k & s1 & Hk & Ha & Hs); [apply PullTerminates.rank_bound|done|].
    exists k, s1. split_and!; [done..|]. intros fuel Hf.
    apply (PullTerminates.run_again _ _ _ k); [done..|lia].
  - apply PullAnswers.reach_fine in Hr. intros fuel shuffle probe Hf Hsh. split.
    + by eapply PullTerminates.naive_round_enough.
    + by eapply PullTerminates.latency_aware_round_enough.
Qed.

(** With an insertion that waits for a barrier, a round of either scheduler with
    fuel 6 returns, and no more fuel changes what it returns. *)
Lemma pull_run_terminates_witness :
  is_Some (PullTree.naive_round 4 junkE4 junkK4 6 (λ l, l) (run_schedule two_inserts)) ∧
  PullTree.naive_round 4 junkE4 junkK4 50 (λ l, l) (run_schedule two_inserts) =
    PullTree.naive_round 4 junkE4 junkK4 6 (λ l, l) (run_schedule two_inserts).
Proof.
  split; [vm_compute; by eexists|].
  destruct (pull_run_terminates 4 junkE4 junkK4 8 leaf_tree (omap (λ x, x) two_inserts)
              (run_schedule two_inserts)) as [_ H].
  - apply run_schedule_reach. vm_compute. by eexists.
  - exact (proj1 (H 50 (λ l, l) false (Nat.le_add_r 6 44) (λ l, Permutation_refl l))).
Defined.
