(* ===== verification/NodeSpec.v ===== *)
(** The contract of the nodes (src/src/tree/leaf_node.h, src/src/tree/inner_node.h):
    the binary searches agree with the linear scans that the source keeps in
    comments beside them, and every operation keeps the type of a node: arrays
    of CAPACITY places, at most CAPACITY of them live, live keys in strictly
    increasing order. *)
From Stdlib Require Import ZArith Lia.
From stdpp Require Import base list gmap sorting numbers.
From S2P Require Import Prelude KV Leaf Inner.

Module Scan.










End Scan.


Definition leaf_example : LeafNode.LeafNode := LeafNode.mk [(2, 20); (5, 50); (9, 90); (0, 0)]%Z 3 (-1) 7 false.


(** ** Updating a leaf in place *)
Lemma leaf_update_live CAPACITY k v n :
  LeafNode.wf CAPACITY n →
  ∃ n', LeafNode.update k v n = Some (bool_decide (k ∈ keys (LeafNode.live n)), n') ∧
    LeafNode.wf CAPACITY n' ∧
    LeafNode.live n' = (if bool_decide (k ∈ keys (LeafNode.live n))
                        then kv_insert k v (LeafNode.live n) else LeafNode.live n) ∧
    LeafNode.modified_ n' = LeafNode.modified_ n.
Proof.
  intros Hwf. pose proof Hwf as (Hlen & Hsz & Hs). unfold LeafNode.update.
  rewrite (LeafNode.search_key_position_live CAPACITY) by done. cbn [mbind option_bind].
  destruct (decide (k ∈ keys (LeafNode.live n))) as [Hin|Hin].
  2: { rewrite bool_decide_false by done. by eexists. }
  rewrite bool_decide_true by done.
  destruct (LeafNode.insert_live CAPACITY k v n Hwf (or_introl Hin)) as (n' & E & Hwf' & Hl & _).
  unfold LeafNode.insert in E. rewrite (LeafNode.search_key_position_live CAPACITY) in E by done.
  change (LeafNode.live (LeafNode.mark_modified n)) with (LeafNode.live n) in E.
  rewrite bool_decide_true in E by done. cbn [mbind option_bind] in E.
  change (LeafNode.entries_ (LeafNode.mark_modified n)) with (LeafNode.entries_ n) in E.
  destruct (LeafNode.set_val _ v (LeafNode.entries_ n)) as [e|]; [|done]. cbn [mbind option_bind] in *.
  injection E as <-. by eexists.
Qed.

(** C34: Every operation of a leaf keeps its type and is total. On a well-formed
    leaf (array of CAPACITY places, at most CAPACITY live, live keys strictly
    increasing) insertion, update and deletion of any key return, in each of
    their branches, a well-formed leaf with the same array length; an insertion
    is refused exactly when the key is new and the leaf is full; a split yields
    two well-formed leaves; and balancing an underfull pair of neighbours yields
    two well-formed leaves with the same entries in the same order. *)
Theorem leaf_operations_typed CAPACITY junk n rt k v u rrep :
  2 ≤ CAPACITY → length junk = CAPACITY → LeafNode.wf CAPACITY n → LeafNode.wf CAPACITY rt →
  ksorted (keys (LeafNode.live n ++ LeafNode.live rt)) →
  LeafNode.size_ n < UNDERFLOW_BOUND CAPACITY ∨ LeafNode.size_ rt < UNDERFLOW_BOUND CAPACITY →
  (∃ done n', LeafNode.insert CAPACITY k v n = Some (done, n') ∧ LeafNode.wf CAPACITY n' ∧
     (done = false ↔ k ∉ keys (LeafNode.live n) ∧ LeafNode.size_ n = CAPACITY)) ∧
  (∃ n' r, LeafNode.insert_with_split_support CAPACITY rrep junk k v n = Some (n', r) ∧
     LeafNode.wf CAPACITY n' ∧ (∀ rt' b, r = Some (rt', b) → LeafNode.wf CAPACITY rt')) ∧
  (∃ found n', LeafNode.update k v n = Some (found, n') ∧ LeafNode.wf CAPACITY n' ∧
     LeafNode.modified_ n' = LeafNode.modified_ n) ∧
  (∃ found u' n', LeafNode.delete_key CAPACITY k u n = Some (found, u', n') ∧ LeafNode.wf CAPACITY n') ∧
  (∃ merged b n' rt', LeafNode.balance CAPACITY n rt = Some (merged, b, n', rt') ∧
     LeafNode.wf CAPACITY n' ∧ LeafNode.wf CAPACITY rt' ∧
     LeafNode.live n' ++ LeafNode.live rt' = LeafNode.live n ++ LeafNode.live rt).
Proof.
  intros HC Hj Hn Hrt Hs Hu. pose proof Hn as (_ & Hsz & _). split_and!.
  - destruct (decide (k ∈ keys (LeafNode.live n) ∨ LeafNode.size_ n < CAPACITY)) as [Hr|Hr].
    + destruct (LeafNode.insert_live CAPACITY k v n Hn Hr) as (n' & E & Hwf & _). exists true, n'.
      split_and!; [done..|]. split; [done|]. intros [??]. destruct Hr; [done|lia].
    + apply Decidable.not_or in Hr as [Hr1 Hr2]. exists false, (LeafNode.mark_modified n).
      split_and!; [apply LeafNode.insert_full; [done..|lia]|done|]. split; [|done]. split; [done|lia].
  - destruct (LeafNode.insert_with_split_live CAPACITY rrep junk k v n HC Hn Hj) as (n' & r & E & Hp).
    exists n', r. destruct Hp as (Hwf & _ & _ & Hr). split_and!; [done..|]. intros rt' b ->. apply Hr.
  - destruct (leaf_update_live CAPACITY k v n Hn) as (n' & E & Hwf & _ & Hm). eauto.
  - destruct (decide (k ∈ keys (LeafNode.live n))) as [Hin|Hin].
    + destruct (LeafNode.delete_key_live CAPACITY k u n Hn Hin) as (n' & E & Hwf & _). eauto.
    + exists false, u, n. split; [by eapply LeafNode.delete_key_missing|done].
  - destruct (LeafNode.balance_live CAPACITY n rt) as (m & b & n' & rt' & E & Hp); [lia|done..|].
    exists m, b, n', rt'. destruct Hp as (H1 & H2 & _ & _ & _ & _ & H3 & _). done.
Qed.

Definition right_example : LeafNode.LeafNode := LeafNode.mk [(11, 1); (12, 2); (13, 3); (0, 0)]%Z 1 (-1) 8 false.

Lemma leaf_operations_typed_witness :
  ∃ merged b n' rt', LeafNode.balance 4 leaf_example right_example = Some (merged, b, n', rt') ∧
    LeafNode.wf 4 n' ∧ LeafNode.wf 4 rt' ∧ merged = false ∧ b = Some 9%Z.
Proof.
  destruct (leaf_operations_typed 4 (replicate 4 (0, 0)%Z) leaf_example right_example 7 70 false 9)
    as (_ & _ & _ & _ & merged & b & n' & rt' & E & H1 & H2 & _).
  - lia.
  - done.
  - split_and!; [done|simpl; lia|]. by apply (bool_decide_unpack _).
  - split_and!; [done|simpl; lia|]. by apply (bool_decide_unpack _).
  - by apply (bool_decide_unpack _).
  - right. vm_compute. lia.
  - exists merged, b, n', rt'. split_and!; [done..| |]; vm_compute in E; injection E; congruence.
Defined.
