(* ===== verification/SharedAccessor.v ===== *)
(** The NVMe accessor with a working thread
    (src/src/blk/nvme_blk_shared_working_thread_accessor_.h): client threads put
    their reads and writes into a queue and wait on a semaphore each; one
    working thread answers them from the block cache or submits them to the
    device, and the callback of a command posts the semaphore.

    A client thread is a number; its buffer and the semaphore of its call are
    named by it. The working thread, the device and the clients interleave in
    any order, at the granularity of the critical sections of the source: the
    queue is behind a spin lock, everything else belongs to the working thread.
    The device is not this program's code: it performs the commands in flight in
    any order, and their callbacks run later, in any order too. An action whose
    guard does not hold changes nothing; [None] is a failed assertion or an
    undefined access. *)
From Stdlib Require Import ZArith Lia.
From stdpp Require Import base list gmap sorting numbers.
From S2P Require Import Prelude IndexedList Lru BlkCache Barrier Estimator Metrics NvmeAccessor.

Module Shared.

Inductive op_type := read_request | write_request.
#[global] Instance op_type_eq_dec : EqDecision op_type.
Proof. solve_decision. Defined.

(** [buffer] and [semaphore] are those of [r_thread]. *)
Record io_request := mk_request { r_thread : nat; addr : Z; type : op_type }.
#[global] Instance io_request_eq_dec : EqDecision io_request.
Proof. solve_decision. Defined.

Definition is_write (r : io_request) : bool := match type r with write_request => true | read_request => false end.

Section accessor.
Context {D : Type} (zero : D) (io_queue_length_ : Z).

(** What clients see. *)
Inductive event := Issued (r : io_request) (d : D) | Returned (t : nat) (d : D).

(** [in_flight] are the commands at the device, with a flag for those it has
    performed; [calls] are the calls that have not returned; [joined] says that
    the working thread has left its loop. *)
Record accessor := mk_shared {
  request_queue_ : list io_request;
  pending_requests_ : Z;
  terminiating_flag_ : bool;
  joined : bool;
  cache_ : BlkCache.blk_cache D;
  in_flight : list (io_request * bool);
  device : gmap Z D;
  memory : gmap nat D;
  semaphores : gmap nat nat;
  calls : gmap nat io_request;
  history : list event }.

Definition open (capacity : Z) : accessor :=
  mk_shared [] 0 false false (BlkCache.new_cache capacity) [] ∅ ∅ ∅ ∅ [].

Definition with_queue (q : list io_request) (s : accessor) : accessor :=
  mk_shared q (pending_requests_ s) (terminiating_flag_ s) (joined s) (cache_ s) (in_flight s) (device s) (memory s)
    (semaphores s) (calls s) (history s).
Definition with_pending (n : Z) (s : accessor) : accessor :=
  mk_shared (request_queue_ s) n (terminiating_flag_ s) (joined s) (cache_ s) (in_flight s) (device s) (memory s)
    (semaphores s) (calls s) (history s).
Definition with_flag (b j : bool) (s : accessor) : accessor :=
  mk_shared (request_queue_ s) (pending_requests_ s) b j (cache_ s) (in_flight s) (device s) (memory s)
    (semaphores s) (calls s) (history s).
Definition with_cache (c : BlkCache.blk_cache D) (s : accessor) : accessor :=
  mk_shared (request_queue_ s) (pending_requests_ s) (terminiating_flag_ s) (joined s) c (in_flight s) (device s) (memory s)
    (semaphores s) (calls s) (history s).
Definition with_device (l : list (io_request * bool)) (d : gmap Z D) (m : gmap nat D) (s : accessor) : accessor :=
  mk_shared (request_queue_ s) (pending_requests_ s) (terminiating_flag_ s) (joined s) (cache_ s) l d m
    (semaphores s) (calls s) (history s).
Definition with_clients (m : gmap nat D) (sem : gmap nat nat) (cs : gmap nat io_request) (h : list event)
    (s : accessor) : accessor :=
  mk_shared (request_queue_ s) (pending_requests_ s) (terminiating_flag_ s) (joined s) (cache_ s) (in_flight s) (device s) m
    sem cs h.

(** ** The queue *)
Definition get_request_queue_size (s : accessor) : nat := length (request_queue_ s).

Definition dequeue_io_request (s : accessor) : option (io_request * accessor) :=
  match request_queue_ s with [] => None | r :: q => Some (r, with_queue q s) end.

Definition enqueue_io_request (r : io_request) (s : accessor) : accessor :=
  with_queue (request_queue_ s ++ [r]) s.

(** [Semaphore::post] *)
Definition post (t : nat) (s : accessor) : accessor :=
  with_clients (memory s) (<[t := S (default 0 (semaphores s !! t))]> (semaphores s)) (calls s) (history s) s.

(** ** The clients *)
(** Two calls that a caller must not let overlap. *)
Definition conflict (r r' : io_request) : bool :=
  bool_decide (addr r = addr r') && (is_write r || is_write r').

(** The discipline of the callers: with [locked] a thread issues a call only
    when no call in progress conflicts with it, as the locks on the nodes of the
    concurrent tree ensure. *)
Definition may_issue (locked : bool) (r : io_request) (s : accessor) : bool :=
  bool_decide (calls s !! r_thread r = None) &&
  (negb locked || negb (existsb (conflict r) (map_to_list (calls s)).*2)).

(** [read] and [write] up to [semaphore.wait()]: a fresh semaphore, and [d] in
    the buffer of the thread (for a read, whatever it held). *)
Definition issue (locked : bool) (r : io_request) (d : D) (s : accessor) : accessor :=
  if may_issue locked r s then
    enqueue_io_request r
      (with_clients (<[r_thread r := d]> (memory s)) (<[r_thread r := 0]> (semaphores s))
         (<[r_thread r := r]> (calls s)) (history s ++ [Issued r d]) s)
  else s.

(** [semaphore.wait()] returns. *)
Definition return_ (t : nat) (s : accessor) : option accessor :=
  match calls s !! t, semaphores s !! t with
  | Some _, Some (S n) =>
      d ← memory s !! t;
      Some (with_clients (memory s) (<[t := n]> (semaphores s)) (delete t (calls s))
              (history s ++ [Returned t d]) s)
  | _, _ => Some s
  end.

Definition terminate_io_thread (s : accessor) : accessor := with_flag true (joined s) s.

(** ** The working thread *)
(** The condition of its outer loop, and the test of it. *)
Definition working (s : accessor) : bool :=
  negb (terminiating_flag_ s) || (0 <? get_request_queue_size s) || (0 <? pending_requests_ s)%Z.

Definition test_loop (s : accessor) : accessor :=
  if working s then s else with_flag (terminiating_flag_ s) true s.

(** One iteration of the inner loop. *)
Definition dispatch (s : accessor) : option accessor :=
  if (0 <? get_request_queue_size s) && (0 <? io_queue_length_ - pending_requests_ s)%Z then
    '(r, s) ← dequeue_io_request s;
    let s := with_pending (pending_requests_ s + 1) s in
    let submit s := with_device (in_flight s ++ [(r, false)]) (device s) (memory s) s in
    match type r with
    | write_request =>
        '(_, c) ← BlkCache.invalidate (addr r) (cache_ s);
        Some (submit (with_cache c s))
    | read_request =>
        '(hit, c) ← BlkCache.read (addr r) (cache_ s);
        let s := with_cache c s in
        match hit with
        | Some d =>
            let s := with_device (in_flight s) (device s) (<[r_thread r := d]> (memory s)) s in
            Some (post (r_thread r) (with_pending (pending_requests_ s - 1) s))
        | None => Some (submit s)
        end
    end
  else Some s.

(** [callback_function]; the block goes into the cache, and a unit that leaves it
    must be clean. *)
Definition fill_cache (a : Z) (d : D) (c : BlkCache.blk_cache D) : option (BlkCache.blk_cache D) :=
  '(evicted, c) ← BlkCache.write a d false c;
  match evicted with
  | Some u => if BlkCache.dirty u then None else Some (BlkCache.free_block (BlkCache.data u) c)
  | None => Some c
  end.

Definition callback_function (r : io_request) (s : accessor) : option accessor :=
  d ← memory s !! r_thread r;
  c ← fill_cache (addr r) d (cache_ s);
  let s := with_cache c s in
  Some (post (r_thread r) (with_pending (pending_requests_ s - 1) s)).

(** [process_completions] runs the callbacks of performed commands, one of them
    here. *)
Definition complete (i : nat) (s : accessor) : option accessor :=
  match in_flight s !! i with
  | Some (r, true) => callback_function r (with_device (delete i (in_flight s)) (device s) (memory s) s)
  | _ => Some s
  end.

(** ** The device *)
(** Command [i] is performed: the buffer of the thread is filled from the device
    or written to it. *)
Definition perform (i : nat) (s : accessor) : option accessor :=
  match in_flight s !! i with
  | Some (r, false) =>
      let l := <[i := (r, true)]> (in_flight s) in
      match type r with
      | read_request =>
          Some (with_device l (device s) (<[r_thread r := default zero (device s !! addr r)]> (memory s)) s)
      | write_request =>
          d ← memory s !! r_thread r;
          Some (with_device l (<[addr r := d]> (device s)) (memory s) s)
      end
  | _ => Some s
  end.

(** ** Interleavings *)
Inductive action :=
  | Issue (r : io_request) (d : D) | Return (t : nat) | Dispatch | Perform (i : nat) | Complete (i : nat)
  | Terminate | Test.

Definition exec (locked : bool) (a : action) (s : accessor) : option accessor :=
  match a with
  | Issue r d => Some (issue locked r d s)
  | Return t => return_ t s
  | Dispatch => if joined s then Some s else dispatch s
  | Perform i => perform i s
  | Complete i => if joined s then Some s else complete i s
  | Terminate => Some (terminate_io_thread s)
  | Test => Some (test_loop s)
  end.

Fixpoint exec_all (locked : bool) (l : list action) (s : accessor) : option accessor :=
  match l with [] => Some s | a :: l' => s ← exec locked a s; exec_all locked l' s end.

(** ** The specification *)
(** An atomic store: a write takes effect when it is issued, a read returns what
    the store holds when it returns. *)
Record store := mk_store { contents : gmap Z D; open_calls : gmap nat io_request }.

Definition spec_event `{!EqDecision D} (e : event) (m : store) : option store :=
  match e with
  | Issued r d =>
      Some (mk_store (if is_write r then <[addr r := d]> (contents m) else contents m)
              (<[r_thread r := r]> (open_calls m)))
  | Returned t d =>
      r ← open_calls m !! t;
      if is_write r || bool_decide (d = default zero (contents m !! addr r))
      then Some (mk_store (contents m) (delete t (open_calls m))) else None
  end.

Definition spec_history `{!EqDecision D} (h : list event) : option store :=
  foldl (λ m e, m ≫= spec_event e) (Some (mk_store ∅ ∅)) h.

(** ** The invariant *)
Context `{!EqDecision D}.
Implicit Types (s : accessor) (r : io_request) (t : nat) (m : gmap Z D) (c : BlkCache.blk_cache D).

(** The requests that have not been answered. *)
Definition waiting s : list io_request := request_queue_ s ++ (in_flight s).*1.

Definition value m (a : Z) : D := default zero (m !! a).

(** The bookkeeping of calls: each is waiting, once, or its semaphore was posted. *)
Record calls_ok s : Prop := {
  c_nodup : NoDup (r_thread <$> waiting s);
  c_waiting : ∀ r, r ∈ waiting s → calls s !! r_thread r = Some r ∧ semaphores s !! r_thread r = Some 0;
  c_calls : ∀ t r, calls s !! t = Some r → r_thread r = t ∧ (r ∈ waiting s ∨ semaphores s !! t = Some 1);
  c_pending : pending_requests_ s = Z.of_nat (length (in_flight s)) }.

Record base_ok s : Prop := {
  b_cache : BlkCache.cache_ok [] (cache_ s);
  b_clean : Nvme.all_clean (cache_ s);
  b_calls : calls_ok s;
  b_memory : ∀ t, is_Some (calls s !! t) → is_Some (memory s !! t) }.

(** The write [r] has not reached the device. *)
Definition unwritten s r : Prop := is_write r = true ∧ (r ∈ request_queue_ s ∨ (r, false) ∈ in_flight s).

(** [m] is the contents of the store the clients see. *)
Record data_ok m s : Prop := {
  d_apart : ∀ t t' r r', calls s !! t = Some r → calls s !! t' = Some r' → t ≠ t' → conflict r r' = false;
  d_writes : ∀ t r, calls s !! t = Some r → is_write r = true → ∃ d, memory s !! t = Some d ∧ m !! addr r = Some d;
  d_device : ∀ a, (∀ r, unwritten s r → addr r ≠ a) → value (device s) a = value m a;
  d_reads : ∀ r, is_write r = false → (r, true) ∈ in_flight s → memory s !! r_thread r = Some (value m (addr r));
  d_posted : ∀ t r, calls s !! t = Some r → is_write r = false → semaphores s !! t = Some 1 →
    memory s !! t = Some (value m (addr r));
  d_cache : ∀ a b d, (a, (b, d)) ∈ BlkCache.entries (cache_ s) →
    d = value (device s) a ∧ ∀ r f, is_write r = true → (r, f) ∈ in_flight s → addr r ≠ a }.

(** ** The cache *)
Lemma assoc_present (a : Z) (e : bool * D) es : (a, e) ∈ es → is_Some (Lru.assoc a es).
Proof.
  induction es as [|[b e'] es IH]; intros Hx; [by apply elem_of_nil in Hx|]. simpl. case_decide; [by eexists|].
  apply elem_of_cons in Hx as [?|?]; [congruence|auto].
Qed.

(** A clean unit goes into a cache without dirty units. *)
Lemma write_clean out a d c :
  BlkCache.cache_ok out c → Nvme.all_clean c →
  ∃ e c', BlkCache.write a d false c = Some (e, c') ∧ BlkCache.cache_ok (BlkCache.held_buffers e ++ out) c' ∧
    Nvme.all_clean c' ∧ (∀ u, e = Some u → BlkCache.dirty u = false) ∧
    ∀ x, x ∈ BlkCache.entries c' → x = (a, (false, d)) ∨ (x ∈ BlkCache.entries c ∧ x.1 ≠ a).
Proof.
  intros Hok Hcl.
  destruct (BlkCache.blk_write_ok out c a d false Hok) as (e & c1 & E & Hok1 & _ & Hs & _). exists e, c1.
  split; [done|]. split; [done|].
  assert (Hel : ∀ x, x ∈ BlkCache.entries c1 ∨ (∃ u d', e = Some u ∧ BlkCache.heap c1 !! BlkCache.data u = Some d' ∧
      x = (BlkCache.u_id u, (BlkCache.dirty u, d'))) →
    x = (a, (false, d)) ∨ (x ∈ BlkCache.entries c ∧ x.1 ≠ a)).
  { intros x Hx.
    assert (Hspec : ∃ e', BlkCache.spec_write (Z.to_nat (BlkCache.capacity_ c)) a d false (BlkCache.entries c) =
        (e', BlkCache.entries c1) ∧ (x ∈ BlkCache.entries c1 ∨ e' = Some x)).
    { destruct e as [u|]; [destruct Hs as (d' & Hd' & Hs)|]; eexists; (split; [exact Hs|]).
      - destruct Hx as [Hx|(u' & d2 & [= <-] & Hd2 & ->)]; [by left|]. right. by simplify_eq.
      - destruct Hx as [Hx|(u' & d2 & [=] & _)]. by left. }
    destruct Hspec as (e' & Hsp & Hx').
    assert (Hc : ∀ a' b' d', (a', (b', d')) ∈ BlkCache.entries c → b' = false) by exact Hcl.
    destruct (Nvme.spec_write_elem (λ _, true) _ _ _ _ _ _ _ x Hsp (or_introl eq_refl) Hc Hx') as [->|[[H1 H2]|[H1 H2]]];
      [by left|by right|].
    right. split; [done|]. intros <-. destruct x as [a' p]. destruct (assoc_present a' p _ H1) as [? E'].
    simpl in H2. congruence. }
  split_and!; [| |intros x Hx; apply Hel; by left].
  - intros a' b' d' Hx. destruct (Hel _ (or_introl Hx)) as [?|[Hx' _]]; [by simplify_eq|by eapply Hcl].
  - intros u ->. destruct Hs as (d' & Hd' & _).
    destruct (Hel (BlkCache.u_id u, (BlkCache.dirty u, d'))) as [?|[Hx _]]; [by right; eauto|congruence|].
    by eapply Hcl.
Qed.

Lemma fill_cache_ok a d c :
  BlkCache.cache_ok [] c → Nvme.all_clean c →
  ∃ c', fill_cache a d c = Some c' ∧ BlkCache.cache_ok [] c' ∧ Nvme.all_clean c' ∧
    ∀ x, x ∈ BlkCache.entries c' → x = (a, (false, d)) ∨ (x ∈ BlkCache.entries c ∧ x.1 ≠ a).
Proof.
  intros Hok Hcl. unfold fill_cache.
  destruct (write_clean [] a d c Hok Hcl) as ([u|] & c1 & -> & Hok1 & Hcl1 & Hu & He); cbn [mbind option_bind]; [|by eauto 10].
  rewrite (Hu u eq_refl). eexists. split; [done|]. split; [by apply BlkCache.free_block_ok|]. by split.
Qed.

Lemma invalidate_clean out a c :
  BlkCache.cache_ok out c → Nvme.all_clean c →
  ∃ b c', BlkCache.invalidate a c = Some (b, c') ∧ BlkCache.cache_ok out c' ∧ Nvme.all_clean c' ∧
    ∀ x, x ∈ BlkCache.entries c' → x ∈ BlkCache.entries c ∧ x.1 ≠ a.
Proof.
  intros Hok Hcl. destruct (BlkCache.invalidate_ok out c a Hok) as (c' & E & Hok' & _ & He & _).
  eexists _, c'. split; [exact E|]. split; [done|].
  assert (Hx : ∀ x, x ∈ BlkCache.entries c' → x ∈ BlkCache.entries c ∧ x.1 ≠ a).
  { rewrite He. intros x Hx. by apply list_elem_of_filter in Hx as [??]. }
  split; [|done]. intros a' b' d' Hin. apply Hx in Hin as [Hin _]. by eapply Hcl.
Qed.

Lemma read_clean out a c :
  BlkCache.cache_ok out c → Nvme.all_clean c →
  ∃ hit c', BlkCache.read a c = Some (hit, c') ∧ BlkCache.cache_ok out c' ∧ Nvme.all_clean c' ∧
    (∀ x, x ∈ BlkCache.entries c' → x ∈ BlkCache.entries c) ∧
    (∀ d, hit = Some d → (a, (false, d)) ∈ BlkCache.entries c).
Proof.
  intros Hok Hcl. destruct (BlkCache.blk_read_ok out c a Hok) as (c' & E & Hok' & _ & He & _).
  eexists _, c'. split; [exact E|]. split; [done|].
  assert (Hx : ∀ x, x ∈ BlkCache.entries c' → x ∈ BlkCache.entries c).
  { rewrite He. intros x. apply Nvme.touch_elem. }
  split; [|split; [done|]]. { intros a' b' d' Hin. apply Hx in Hin. by eapply Hcl. }
  intros d Hd. destruct (Lru.assoc a (BlkCache.entries c)) as [[b d']|] eqn:Ea; [|done]. simpl in Hd. simplify_eq.
  apply Nvme.assoc_elem in Ea. by rewrite <- (Hcl _ _ _ Ea).
Qed.

(** ** Calls *)
Lemma value_insert m a d a' : value (<[a := d]> m) a' = if decide (a = a') then d else value m a'.
Proof.
  unfold value. case_decide as Ha; [subst; by rewrite lookup_insert_eq|by rewrite lookup_insert_ne].
Qed.

Lemma no_conflict r r' : conflict r r' = false → is_write r = true ∨ is_write r' = true → addr r ≠ addr r'.
Proof.
  unfold conflict. intros H Hw E. rewrite bool_decide_true in H by done. simpl in H.
  apply orb_false_iff in H as [H1 H2]. rewrite H1, H2 in Hw. by destruct Hw.
Qed.

Lemma waiting_thread s r t :
  calls_ok s → r ∈ waiting s → (calls s !! t = None ∨ ∃ n, semaphores s !! t = Some (S n)) → r_thread r ≠ t.
Proof.
  intros Hc Hr Ht <-. destruct (c_waiting s Hc r Hr) as [H1 H2]. destruct Ht as [Ht|[n Ht]]; congruence.
Qed.

(** Another waiting call does not touch the address of a write, nor a write the
    address of a call. *)
Lemma waiting_apart m s r r' :
  calls_ok s → data_ok m s → r ∈ waiting s → calls s !! r_thread r' = Some r' → r ≠ r' →
  is_write r = true ∨ is_write r' = true → addr r ≠ addr r'.
Proof.
  intros Hc Hd Hr Hr' Hne Hw. destruct (c_waiting s Hc r Hr) as [H1 _].
  apply no_conflict; [|done]. eapply (d_apart m s Hd); [done..|]. intros E. rewrite E in H1. congruence.
Qed.

Lemma flight_waiting s r f : (r, f) ∈ in_flight s → r ∈ waiting s.
Proof. intros H. unfold waiting. apply elem_of_app. right. apply list_elem_of_fmap. by exists (r, f). Qed.

Lemma unwritten_waiting s r : unwritten s r → r ∈ waiting s.
Proof.
  intros [_ [H|H]]; [unfold waiting; apply elem_of_app; by left|by eapply flight_waiting].
Qed.

(** The device holds the value of the address of a read that is not answered,
    and of a write that was performed. *)
Lemma device_current m s r :
  calls_ok s → data_ok m s → calls s !! r_thread r = Some r → ¬ unwritten s r →
  value (device s) (addr r) = value m (addr r).
Proof.
  intros Hc Hd Hr Hn. apply (d_device m s Hd). intros r' Hu.
  apply (waiting_apart m s); [done|done|by apply unwritten_waiting|done| |left; apply Hu].
  intros ->. done.
Qed.

(** ** The clients *)
Lemma may_issue_spec locked r s :
  may_issue locked r s = true →
  calls s !! r_thread r = None ∧
  (locked = true → ∀ t r', calls s !! t = Some r' → conflict r r' = false).
Proof.
  unfold may_issue. intros [H1 H2]%andb_true_iff. apply bool_decide_eq_true in H1. split; [done|].
  intros -> t r' Ht. simpl in H2. apply negb_true_iff in H2. destruct (conflict r r') eqn:E; [|done].
  assert (existsb (conflict r) (map_to_list (calls s)).*2 = true); [|congruence].
  apply existsb_exists. exists r'. split; [|done]. apply list_elem_of_In, list_elem_of_fmap. exists (t, r').
  split; [done|]. by apply elem_of_map_to_list.
Qed.

Lemma issue_base locked r d s : base_ok s → base_ok (issue locked r d s).
Proof.
  intros [H1 H2 H3 H4]. unfold issue. destruct (may_issue locked r s) eqn:Em; [|done].
  apply may_issue_spec in Em as [Hn _]. destruct H3 as [C1 C2 C3 C4]. split; [done|done| |].
  - assert (Hw : waiting (enqueue_io_request r
        (with_clients (<[r_thread r := d]> (memory s)) (<[r_thread r := 0]> (semaphores s))
           (<[r_thread r := r]> (calls s)) (history s ++ [Issued r d]) s)) ≡ₚ r :: waiting s).
    { unfold waiting. simpl. rewrite <- app_assoc. simpl. symmetry. apply Permutation_middle. }
    assert (Hne : ∀ r', r' ∈ waiting s → r_thread r' ≠ r_thread r).
    { intros r' Hr'. apply (waiting_thread s); [by split|done|by left]. }
    split; [| | |done].
    + rewrite Hw. simpl. apply list.NoDup_cons. split; [|done]. intros Hin.
      apply list_elem_of_fmap in Hin as (r' & E & Hin). by apply (Hne r').
    + intros r' Hin. rewrite Hw in Hin. simpl. apply elem_of_cons in Hin as [->|Hin].
      * by rewrite !lookup_insert_eq.
      * rewrite !lookup_insert_ne by (intros E; by apply (Hne r')). by apply C2.
    + intros t r'. rewrite Hw. simpl. destruct (decide (t = r_thread r)) as [->|Ht].
      * rewrite lookup_insert_eq. intros [= <-]. split; [done|]. left. constructor.
      * rewrite !lookup_insert_ne by done. intros Hr'. destruct (C3 t r' Hr') as [? [?|?]]; split; try done;
          [left; by constructor|by right].
  - intros t. simpl. destruct (decide (t = r_thread r)) as [->|Ht].
    + rewrite !lookup_insert_eq. by eexists.
    + rewrite !lookup_insert_ne by done. apply H4.
Qed.

Definition after_issue r d m : gmap Z D := if is_write r then <[addr r := d]> m else m.

Lemma after_issue_other r d m r' :
  conflict r r' = false → after_issue r d m !! addr r' = m !! addr r'.
Proof.
  intros Hc. unfold after_issue. destruct (is_write r) eqn:Hw; [|done].
  rewrite lookup_insert_ne; [done|]. apply no_conflict; [done|by left].
Qed.

Lemma issue_data r d m s :
  base_ok s → data_ok m s → may_issue true r s = true → data_ok (after_issue r d m) (issue true r d s).
Proof.
  intros [_ _ Hc _] [D1 D2 D3 D4 D5 D6] Em. unfold issue. rewrite Em.
  apply may_issue_spec in Em as [Hn Hap]. specialize (Hap eq_refl).
  assert (Hv : ∀ t r', calls s !! t = Some r' → value (after_issue r d m) (addr r') = value m (addr r')).
  { intros t r' Hr'. unfold value. by rewrite (after_issue_other r d m r') by (by eapply Hap). }
  assert (Hcf : ∀ x y, conflict x y = conflict y x).
  { intros x y. unfold conflict. rewrite orb_comm. f_equal. by apply bool_decide_ext. }
  split; simpl.
  - intros t t' r1 r2 H1 H2 Hne.
    destruct (decide (t = r_thread r)) as [->|Ht], (decide (t' = r_thread r)) as [->|Ht']; try done.
    + rewrite lookup_insert_eq in H1. rewrite lookup_insert_ne in H2 by done. simplify_eq. by eapply Hap.
    + rewrite lookup_insert_eq in H2. rewrite lookup_insert_ne in H1 by done. simplify_eq. rewrite Hcf. by eapply Hap.
    + rewrite lookup_insert_ne in H1, H2 by done. by eapply D1.
  - intros t r1 H1 Hw. destruct (decide (t = r_thread r)) as [->|Ht].
    + rewrite lookup_insert_eq in H1. rewrite lookup_insert_eq. simplify_eq. exists d. split; [done|]. unfold after_issue. rewrite Hw.
      apply lookup_insert_eq.
    + rewrite lookup_insert_ne in H1 by done. rewrite lookup_insert_ne by done. rewrite (after_issue_other r d m r1) by (by eapply Hap). by apply D2.
  - intros a Ha. rewrite D3.
    + unfold after_issue. destruct (is_write r) eqn:Hw; [|done]. rewrite value_insert, decide_False; [done|].
      apply Ha. split; [done|]. left. simpl. set_solver.
    + intros r' [Hw Hu]. apply Ha. split; [done|]. simpl. destruct Hu; [left|right]; set_solver.
  - intros r' Hw Hin. pose proof (c_waiting s Hc r' (flight_waiting s r' true Hin)) as [Hr' _].
    rewrite (Hv (r_thread r')) by done. rewrite lookup_insert_ne; [by apply D4|]. intros E. congruence.
  - intros t r' Ht Hw Hsem. destruct (decide (t = r_thread r)) as [->|Hne]; [by rewrite lookup_insert_eq in Hsem|].
    rewrite lookup_insert_ne in Ht by done. rewrite lookup_insert_ne in Hsem by done. rewrite lookup_insert_ne by done. rewrite (Hv t) by done. by apply D5.
  - exact D6.
Qed.

Lemma return_ok t s :
  base_ok s →
  ∃ s', return_ t s = Some s' ∧ base_ok s' ∧
    (∀ m, data_ok m s → data_ok m s' ∧
       (s' = s ∨ ∃ r d, calls s !! t = Some r ∧ calls s' = delete t (calls s) ∧
          history s' = history s ++ [Returned t d] ∧ (is_write r = false → d = value m (addr r)))).
Proof.
  intros Hb. pose proof Hb as [H1 H2 H3 H4]. unfold return_.
  destruct (calls s !! t) as [r|] eqn:Hr; [|by eauto 10].
  destruct (semaphores s !! t) as [[|n]|] eqn:Hs; [by eauto 10| |by eauto 10].
  destruct (H4 t) as [d Hd]; [by eexists|]. rewrite Hd. cbn [mbind option_bind]. eexists. split; [done|].
  pose proof H3 as [C1 C2 C3 C4].
  assert (Hn : n = 0).
  { destruct (C3 t r Hr) as [<- [Hw|Hp]]; [destruct (C2 r Hw)|]; congruence. }
  subst n. assert (Hne : ∀ r', r' ∈ waiting s → t ≠ r_thread r').
  { intros r' Hr' E. symmetry in E. revert E. eapply waiting_thread; [done..|]. right. eauto. }
  split; [split; [done|done| |]|].
  - split; [done| | |done]; simpl.
    + intros r' Hw. rewrite lookup_delete_ne, lookup_insert_ne by (by apply Hne). by apply C2.
    + intros t' r' Ht'. apply lookup_delete_Some in Ht' as [Hne' Ht']. rewrite lookup_insert_ne by done. by apply C3.
  - intros t' [r' Ht']. simpl in *. apply lookup_delete_Some in Ht' as [_ Ht']. apply H4. by eexists.
  - intros m Hm. destruct Hm as [D1 D2 D3 D4 D5 D6]. split; [split; simpl|].
    + intros t1 t2 r1 r2 [_ E1]%lookup_delete_Some [_ E2]%lookup_delete_Some. by apply D1.
    + intros t1 r1 [_ E1]%lookup_delete_Some. by apply D2.
    + exact D3.
    + exact D4.
    + intros t1 r1 [Hne1 E1]%lookup_delete_Some Hw Hs1. rewrite lookup_insert_ne in Hs1 by done. by apply D5.
    + exact D6.
    + right. exists r, d. split_and!; [done..|]. intros Hw. specialize (D5 t r Hr Hw Hs). congruence.
Qed.

(** ** The bookkeeping of the working thread *)
Lemma calls_move s s' :
  calls_ok s → waiting s' ≡ₚ waiting s → calls s' = calls s → semaphores s' = semaphores s →
  pending_requests_ s' = Z.of_nat (length (in_flight s')) → calls_ok s'.
Proof.
  intros [C1 C2 C3 C4] Hw Ec Es Hp. split; [by rewrite Hw| | |done].
  - intros r. rewrite Hw, Ec, Es. apply C2.
  - intros t r. rewrite Hw, Ec, Es. apply C3.
Qed.

Lemma calls_answer s s' r :
  calls_ok s → waiting s ≡ₚ r :: waiting s' → calls s' = calls s →
  semaphores s' = <[r_thread r := S (default 0 (semaphores s !! r_thread r))]> (semaphores s) →
  pending_requests_ s' = Z.of_nat (length (in_flight s')) → calls_ok s'.
Proof.
  intros [C1 C2 C3 C4] Hw Ec Es Hp. assert (Hr : r ∈ waiting s) by (rewrite Hw; constructor).
  destruct (C2 r Hr) as [Hr1 Hr2]. rewrite Hr2 in Es. simpl in Es. rewrite Hw in C1.
  apply list.NoDup_cons in C1 as [Hni C1]. split; [done| | |done].
  - intros r' Hr'. rewrite Ec, Es. rewrite lookup_insert_ne.
    + apply C2. rewrite Hw. by constructor.
    + intros E. apply Hni. rewrite E. apply list_elem_of_fmap. by exists r'.
  - intros t r'. rewrite Ec, Es. intros Ht. destruct (C3 t r' Ht) as [E [Hin|Hs]]; (split; [done|]).
    + rewrite Hw in Hin. apply elem_of_cons in Hin as [->|Hin]; [|by left]. right. subst t. apply lookup_insert_eq.
    + right. rewrite lookup_insert_ne; [done|]. intros <-. congruence.
Qed.

(** Submitting the first request of the queue; [c] is the cache afterwards. *)
Definition submitted r (q : list io_request) c s : accessor :=
  with_device (in_flight s ++ [(r, false)]) (device s) (memory s)
    (with_cache c (with_pending (pending_requests_ s + 1) (with_queue q s))).

Lemma submitted_ok r q c s :
  base_ok s → request_queue_ s = r :: q → BlkCache.cache_ok [] c → Nvme.all_clean c →
  (∀ x, x ∈ BlkCache.entries c → x ∈ BlkCache.entries (cache_ s) ∧ (is_write r = true → x.1 ≠ addr r)) →
  base_ok (submitted r q c s) ∧ (∀ m, data_ok m s → data_ok m (submitted r q c s)).
Proof.
  intros [H1 H2 H3 H4] Hq Hc1 Hc2 He. split.
  - split; [done|done| |done]. eapply calls_move; [exact H3| |done|done|].
    + unfold waiting, submitted. simpl. rewrite Hq, fmap_app. simpl. solve_Permutation.
    + simpl. rewrite length_app, (c_pending s H3). simpl. lia.
  - intros m [D1 D2 D3 D4 D5 D6]. split; simpl; [done|done| | |done|].
    + intros a Ha. apply D3. intros r' [Hw Hu]. apply Ha. split; [done|]. simpl. rewrite Hq in Hu.
      destruct Hu as [[->|Hu]%elem_of_cons|Hu]; [right|left|right]; set_solver.
    + intros r' Hw Hin. apply elem_of_app in Hin as [Hin|Hin]; [by apply D4|]. set_solver.
    + intros a b d Hx. destruct (He _ Hx) as [Hx1 Hx2]. destruct (D6 a b d Hx1) as [E1 E2]. split; [done|].
      intros r' f Hw Hin. apply elem_of_app in Hin as [Hin|Hin]; [by eapply E2|].
      apply list_elem_of_singleton in Hin. simplify_eq. intros E. by apply (Hx2 Hw).
Qed.

(** Answering the first request of the queue, a read, from the cache. *)
Definition hit r (q : list io_request) c (d : D) s : accessor :=
  with_clients (<[r_thread r := d]> (memory s))
    (<[r_thread r := S (default 0 (semaphores s !! r_thread r))]> (semaphores s)) (calls s) (history s)
    (with_pending (pending_requests_ s) (with_cache c (with_queue q s))).

Lemma hit_ok r q c d s :
  base_ok s → request_queue_ s = r :: q → is_write r = false → BlkCache.cache_ok [] c → Nvme.all_clean c →
  (∀ x, x ∈ BlkCache.entries c → x ∈ BlkCache.entries (cache_ s)) →
  (addr r, (false, d)) ∈ BlkCache.entries (cache_ s) →
  base_ok (hit r q c d s) ∧ (∀ m, data_ok m s → data_ok m (hit r q c d s)).
Proof.
  intros [H1 H2 H3 H4] Hq Hrd Hc1 Hc2 He Hhit.
  assert (Hw : waiting s ≡ₚ r :: waiting (hit r q c d s)) by (unfold waiting; simpl; by rewrite Hq).
  assert (Hr : r ∈ waiting s) by (rewrite Hw; constructor). destruct (c_waiting s H3 r Hr) as [Hr1 Hr2].
  assert (Hni : ∀ r', r' ∈ waiting (hit r q c d s) → r_thread r ≠ r_thread r').
  { intros r' Hr' E. pose proof (c_nodup s H3) as Hnd. rewrite Hw in Hnd. simpl in Hnd.
    apply list.NoDup_cons in Hnd as [Hnd _]. apply Hnd. rewrite E. apply list_elem_of_fmap. by exists r'. }
  split.
  - split; [done|done|eapply calls_answer; [exact H3|exact Hw|done|done|apply H3]|].
    intros t Ht. simpl in *. destruct (decide (r_thread r = t)) as [<-|Hne]; [rewrite lookup_insert_eq; by eexists|].
    rewrite lookup_insert_ne by done. by apply H4.
  - intros m Hm. pose proof Hm as [D1 D2 D3 D4 D5 D6]. split; simpl; [done| | | | |].
    + intros t r' Ht Hw'. rewrite lookup_insert_ne; [by apply D2|]. intros <-. congruence.
    + intros a Ha. apply D3. intros r' [Hw' Hu]. apply Ha. split; [done|]. simpl. rewrite Hq in Hu.
      destruct Hu as [[->|Hu]%elem_of_cons|Hu]; [congruence|by left|by right].
    + intros r' Hw' Hin. rewrite lookup_insert_ne; [by apply D4|]. apply Hni.
      by apply (flight_waiting (hit r q c d s) r' true).
    + intros t r' Ht Hw' Hs. destruct (decide (r_thread r = t)) as [<-|Hne].
      * rewrite lookup_insert_eq. simplify_eq. f_equal. destruct (D6 _ _ _ Hhit) as [-> _].
        apply (device_current m s); [done..|]. intros [? _]. congruence.
      * rewrite lookup_insert_ne by done. rewrite lookup_insert_ne in Hs by done. by apply D5.
    + intros a b d' Hx. by apply (D6 a b d'), He.
Qed.

Lemma dispatch_ok s :
  base_ok s →
  ∃ s', dispatch s = Some s' ∧ base_ok s' ∧ (∀ m, data_ok m s → data_ok m s') ∧
    calls s' = calls s ∧ history s' = history s.
Proof.
  intros Hb. pose proof Hb as [H1 H2 H3 H4]. unfold dispatch, dequeue_io_request, get_request_queue_size.
  destruct (_ && _) eqn:Eg; [|by eauto 10]. destruct (request_queue_ s) as [|r q] eqn:Hq; [done|].
  cbn [mbind option_bind]. destruct (type r) eqn:Ety.
  - destruct (read_clean [] (addr r) (cache_ s) H1 H2) as ([d|] & c & Er & Hc1 & Hc2 & He & Hh); simpl; rewrite Er;
      cbn [mbind option_bind].
    + destruct (hit_ok r q c d s) as [G1 G2]; [done|done|by unfold is_write; rewrite Ety|done..|by apply Hh|].
      exists (hit r q c d s). split; [|done]. unfold hit, post, with_pending. simpl. by rewrite Z.add_simpl_r.
    + destruct (submitted_ok r q c s) as [G1 G2]; [done..| |].
      { intros x Hx. split; [by apply He|]. unfold is_write. by rewrite Ety. }
      by eexists.
  - destruct (invalidate_clean [] (addr r) (cache_ s) H1 H2) as (b & c & Er & Hc1 & Hc2 & He). simpl. rewrite Er.
    cbn [mbind option_bind]. destruct (submitted_ok r q c s) as [G1 G2]; [done..| |].
    { intros x Hx. destruct (He x Hx). by split. }
    by eexists.
Qed.

Lemma insert_perm {X} (l : list X) i x y : l !! i = Some x → <[i := y]> l ≡ₚ y :: delete i l.
Proof.
  intros Hi. rewrite insert_take_drop by (by eapply lookup_lt_Some). rewrite delete_take_drop.
  symmetry. apply Permutation_middle.
Qed.

Lemma performed_same (l : list (io_request * bool)) i r f g : l !! i = Some (r, f) → (<[i := (r, g)]> l).*1 = l.*1.
Proof. intros Hi. rewrite list_fmap_insert. apply list_insert_id. by rewrite list_lookup_fmap, Hi. Qed.

(** A command in flight is there once. *)
Lemma flight_split s i r f :
  calls_ok s → in_flight s !! i = Some (r, f) →
  in_flight s ≡ₚ (r, f) :: delete i (in_flight s) ∧
  calls s !! r_thread r = Some r ∧ r ∈ waiting s ∧ r ∉ request_queue_ s ∧
  ∀ r' g, (r', g) ∈ delete i (in_flight s) → r_thread r' ≠ r_thread r.
Proof.
  intros [C1 C2 C3 C4] Hi. pose proof (delete_Permutation _ _ _ Hi) as Hp. split; [done|].
  assert (Hin : (r, f) ∈ in_flight s) by (by eapply list_elem_of_lookup_2).
  pose proof (flight_waiting s r f Hin) as Hw. split; [apply C2, Hw|]. split; [done|].
  unfold waiting in C1. rewrite Hp, !fmap_app, !fmap_cons in C1. simpl in C1.
  rewrite <- Permutation_middle in C1. apply list.NoDup_cons in C1 as [Hni _].
  rewrite elem_of_app in Hni. split.
  - intros Hq. apply Hni. left. apply list_elem_of_fmap. by exists r.
  - intros r' g Hg E. apply Hni. right. rewrite <- E. apply list_elem_of_fmap. exists r'. split; [done|].
    apply list_elem_of_fmap. by exists (r', g).
Qed.

Lemma not_unwritten s i r : calls_ok s → in_flight s !! i = Some (r, true) → ¬ unwritten s r.
Proof.
  intros Hc Hi [_ Hu]. destruct (flight_split s i r true Hc Hi) as (Hp & _ & _ & Hq & Hot).
  destruct Hu as [Hu|Hu]; [done|]. rewrite Hp in Hu. apply elem_of_cons in Hu as [Hu|Hu]; [by simplify_eq|].
  by apply (Hot r false).
Qed.

(** The device reads into the buffer of a thread. *)
Lemma perform_read_ok s i r l :
  base_ok s → in_flight s !! i = Some (r, false) → is_write r = false → l = <[i := (r, true)]> (in_flight s) →
  let s' := with_device l (device s) (<[r_thread r := value (device s) (addr r)]> (memory s)) s in
  base_ok s' ∧ (∀ m, data_ok m s → data_ok m s').
Proof.
  intros [H1 H2 H3 H4] Hi Hrd -> s'. destruct (flight_split s i r false H3 Hi) as (Hp & Hr & Hw & Hq & Hot).
  assert (Hl : (<[i := (r, true)]> (in_flight s)) ≡ₚ (r, true) :: delete i (in_flight s)).
  { by apply (insert_perm _ i (r, false)). }
  assert (Hwt : waiting s' ≡ₚ waiting s).
  { unfold waiting, s'. simpl. by rewrite (performed_same _ i r false true). }
  split.
  - split; [done|done| |].
    + eapply calls_move; [exact H3|exact Hwt|done|done|]. simpl. rewrite length_insert. apply H3.
    + intros t Ht. simpl in *. destruct (decide (r_thread r = t)) as [<-|Hne]; [rewrite lookup_insert_eq; by eexists|].
      rewrite lookup_insert_ne by done. by apply H4.
  - intros m Hm. pose proof Hm as [D1 D2 D3 D4 D5 D6]. split; simpl; [done| | | | |].
    + intros t r' Ht Hw'. rewrite lookup_insert_ne; [by apply D2|]. intros <-. congruence.
    + intros a Ha. apply D3. intros r' [Hw' Hu]. apply Ha. split; [done|]. simpl. destruct Hu as [Hu|Hu]; [by left|].
      right. rewrite Hp in Hu. rewrite Hl. apply elem_of_cons in Hu as [Hu|Hu]; [simplify_eq; congruence|by constructor].
    + intros r' Hw'. rewrite Hl, elem_of_cons. intros [Hin|Hin].
      * simplify_eq. rewrite lookup_insert_eq. f_equal. apply (device_current m s); [done..|]. intros [? _]. congruence.
      * rewrite lookup_insert_ne by (apply not_eq_sym; by eapply Hot). apply D4; [done|]. rewrite Hp. by constructor.
    + intros t r' Ht Hw' Hs. rewrite lookup_insert_ne; [by apply D5|]. intros <-.
      destruct (c_waiting s H3 r Hw) as [_ Hs']. congruence.
    + intros a b d Hx. destruct (D6 a b d Hx) as [E1 E2]. split; [done|]. intros r' f Hw'. rewrite Hl, elem_of_cons.
      intros [Hin|Hin]; [simplify_eq; congruence|]. apply (E2 r' f); [done|]. rewrite Hp. by constructor.
Qed.

(** The device writes the buffer of a thread. *)
Lemma perform_write_ok s i r d l :
  base_ok s → in_flight s !! i = Some (r, false) → is_write r = true → memory s !! r_thread r = Some d →
  l = <[i := (r, true)]> (in_flight s) →
  let s' := with_device l (<[addr r := d]> (device s)) (memory s) s in
  base_ok s' ∧ (∀ m, data_ok m s → data_ok m s').
Proof.
  intros [H1 H2 H3 H4] Hi Hwr Hd -> s'. destruct (flight_split s i r false H3 Hi) as (Hp & Hr & Hw & Hq & Hot).
  assert (Hl : (<[i := (r, true)]> (in_flight s)) ≡ₚ (r, true) :: delete i (in_flight s)).
  { by apply (insert_perm _ i (r, false)). }
  assert (Hwt : waiting s' ≡ₚ waiting s).
  { unfold waiting, s'. simpl. by rewrite (performed_same _ i r false true). }
  split.
  - split; [done|done| |done]. eapply calls_move; [exact H3|exact Hwt|done|done|]. simpl. rewrite length_insert. apply H3.
  - intros m Hm. pose proof Hm as [D1 D2 D3 D4 D5 D6]. split; simpl; [done|done| | |done|].
    + intros a Ha. rewrite value_insert. case_decide as Ea.
      * destruct (D2 _ _ Hr Hwr) as (d' & Hd' & Hm'). subst a. unfold value. rewrite Hm'. simpl. congruence.
      * apply D3. intros r' [Hw' Hu]. destruct Hu as [Hu|Hu]; [apply Ha; split; [done|by left]|].
        rewrite Hp in Hu. apply elem_of_cons in Hu as [Hu|Hu]; [by simplify_eq|].
        apply Ha. split; [done|]. right. simpl. rewrite Hl. by constructor.
    + intros r' Hw'. rewrite Hl, elem_of_cons. intros [Hin|Hin]; [simplify_eq; congruence|].
      apply D4; [done|]. rewrite Hp. by constructor.
    + intros a b d' Hx. destruct (D6 a b d' Hx) as [E1 E2].
      assert (Hne : addr r ≠ a) by (apply (E2 r false); [done|rewrite Hp; constructor]).
      rewrite value_insert, decide_False by done. split; [done|]. intros r' f Hw'. rewrite Hl, elem_of_cons.
      intros [Hin|Hin]; [by simplify_eq|]. apply (E2 r' f); [done|]. rewrite Hp. by constructor.
Qed.

Lemma perform_ok i s :
  base_ok s →
  ∃ s', perform i s = Some s' ∧ base_ok s' ∧ (∀ m, data_ok m s → data_ok m s') ∧
    calls s' = calls s ∧ history s' = history s.
Proof.
  intros Hb. unfold perform. destruct (in_flight s !! i) as [[r [|]]|] eqn:Hi; [by eauto 10| |by eauto 10].
  destruct (type r) eqn:Ety.
  - destruct (perform_read_ok s i r (<[i := (r, true)]> (in_flight s)) Hb Hi) as [G1 G2];
      [by unfold is_write; rewrite Ety|done|]. by eexists.
  - destruct (flight_split s i r false (b_calls s Hb) Hi) as (_ & Hr & _).
    destruct (b_memory s Hb (r_thread r)) as [d Hd]; [by eexists|]. rewrite Hd. cbn [mbind option_bind].
    destruct (perform_write_ok s i r d (<[i := (r, true)]> (in_flight s)) Hb Hi) as [G1 G2];
      [by unfold is_write; rewrite Ety|done|done|]. by eexists.
Qed.

(** A callback fills the cache and answers the call. *)
Lemma shared_complete_ok i s :
  base_ok s →
  ∃ s', complete i s = Some s' ∧ base_ok s' ∧ (∀ m, data_ok m s → data_ok m s') ∧
    calls s' = calls s ∧ history s' = history s.
Proof.
  intros Hb. pose proof Hb as [H1 H2 H3 H4]. unfold complete, callback_function.
  destruct (in_flight s !! i) as [[r [|]]|] eqn:Hi; [|by eauto 10..].
  destruct (flight_split s i r true H3 Hi) as (Hp & Hr & Hw & Hq & Hot).
  destruct (H4 (r_thread r)) as [d Hd]; [by eexists|]. simpl. rewrite Hd. cbn [mbind option_bind].
  destruct (fill_cache_ok (addr r) d (cache_ s) H1 H2) as (c & -> & Hc1 & Hc2 & He). cbn [mbind option_bind].
  eexists. split; [done|].
  match goal with |- base_ok ?x ∧ _ => set (s' := x) end.
  assert (Hwt : waiting s ≡ₚ r :: waiting s').
  { unfold waiting, s'. simpl. apply (fmap_Permutation fst) in Hp. rewrite fmap_cons in Hp. simpl in Hp.
    rewrite Hp at 1. symmetry. apply Permutation_middle. }
  split_and!; [split; [done|done| |done]| |done|done].
  - eapply calls_answer; [exact H3|exact Hwt|done|done|]. simpl. rewrite (c_pending s H3).
    apply Permutation_length in Hp. rewrite Hp. simpl. lia.
  - intros m Hm. pose proof Hm as [D1 D2 D3 D4 D5 D6].
    assert (Hv : value (device s) (addr r) = value m (addr r)).
    { apply (device_current m s); [done..|]. by eapply not_unwritten. }
    assert (Hval : d = value m (addr r)).
    { destruct (is_write r) eqn:Ew.
      - destruct (D2 _ _ Hr Ew) as (d' & Hd' & Hm'). unfold value. rewrite Hm'. simpl. congruence.
      - assert (Hin : (r, true) ∈ in_flight s) by (by eapply list_elem_of_lookup_2).
        specialize (D4 r Ew Hin). congruence. }
    split; simpl; [done|done| | | |].
    + intros a Ha. apply D3. intros r' [Hw' Hu]. destruct Hu as [Hu|Hu]; [apply Ha; split; [done|by left]|].
      rewrite Hp in Hu. apply elem_of_cons in Hu as [Hu|Hu]; [by simplify_eq|]. apply Ha. split; [done|]. by right.
    + intros r' Hw' Hin. apply D4; [done|]. rewrite Hp. by constructor.
    + intros t r' Ht Hw' Hs. destruct (decide (r_thread r = t)) as [<-|Hne]; [simplify_eq; congruence|].
      rewrite lookup_insert_ne in Hs by done. by apply D5.
    + intros a b d' Hx. apply He in Hx as [Hx|[Hx Hne]].
      * simplify_eq. split; [done|]. intros r' f Hw' Hin.
        apply (waiting_apart m s); [done|done| |done| |by left].
        -- apply (flight_waiting s r' f). rewrite Hp. by constructor.
        -- intros ->. by apply (Hot r f).
      * destruct (D6 a b d' Hx) as [E1 E2]. split; [done|]. intros r' f Hw' Hin. apply (E2 r' f); [done|].
        rewrite Hp. by constructor.
Qed.

(** ** Interleavings *)
(** What the clients have seen is a history of the atomic store. *)
Definition explained s : Prop := ∃ m, data_ok m s ∧ spec_history (history s) = Some (mk_store m (calls s)).

Lemma spec_snoc (h : list event) e : spec_history (h ++ [e]) = spec_history h ≫= spec_event e.
Proof. unfold spec_history. by rewrite foldl_app. Qed.

Lemma open_ok capacity : base_ok (open capacity) ∧ explained (open capacity).
Proof.
  destruct (BlkCache.new_cache_ok (D := D) capacity) as [Hok He]. split.
  - split; [done|intros a b d Hx; simpl in Hx; rewrite He in Hx; by apply elem_of_nil in Hx| |by intros t [? ?]].
    split; [constructor|by intros r ?%elem_of_nil|by intros t r|done].
  - exists ∅. split; [|done]. split; simpl; [by intros t t' r r'|by intros t r|done|by intros r _ ?%elem_of_nil
      |by intros t r|]. intros a b d Hx. rewrite He in Hx. by apply elem_of_nil in Hx.
Qed.

Lemma exec_ok locked a s :
  base_ok s → ∃ s', exec locked a s = Some s' ∧ base_ok s' ∧ (locked = true → explained s → explained s').
Proof.
  intros Hb.
  assert (Hsame : ∀ o : option accessor, (∃ s', o = Some s' ∧ base_ok s' ∧ (∀ m, data_ok m s → data_ok m s') ∧
      calls s' = calls s ∧ history s' = history s) →
    ∃ s', o = Some s' ∧ base_ok s' ∧ (locked = true → explained s → explained s')).
  { intros o (s' & -> & Hb' & Hd & Ec & Eh). exists s'. split_and!; [done..|]. intros _ (m & Hm & Hs).
    exists m. split; [by apply Hd|by rewrite Ec, Eh]. }
  assert (Hskip : ∃ s', Some s = Some s' ∧ base_ok s' ∧ (∀ m, data_ok m s → data_ok m s') ∧
      calls s' = calls s ∧ history s' = history s) by (by eauto 10).
  destruct a as [r d|t| |i|i| |]; simpl.
  - exists (issue locked r d s). split; [done|]. split; [by apply issue_base|]. intros -> (m & Hm & Hs).
    destruct (may_issue true r s) eqn:Em; [|unfold issue; rewrite Em; by exists m].
    exists (after_issue r d m). split; [by apply issue_data|]. unfold issue. rewrite Em. simpl.
    rewrite spec_snoc, Hs. done.
  - destruct (return_ok t s Hb) as (s' & E & Hb' & Hd). exists s'. split_and!; [done..|]. intros _ (m & Hm & Hs).
    destruct (Hd m Hm) as [Hm' [->|(r & d & Hr & Ec & Eh & Hv)]]; [by exists m|]. exists m. split; [done|].
    rewrite Eh, spec_snoc, Hs, Ec. simpl. rewrite Hr. simpl. destruct (is_write r); [done|]. simpl.
    by rewrite bool_decide_true by (by apply Hv).
  - apply Hsame. destruct (joined s); [done|by apply dispatch_ok].
  - by apply Hsame, perform_ok.
  - apply Hsame. destruct (joined s); [done|by apply shared_complete_ok].
  - apply Hsame. eexists. split; [done|]. split; [by destruct Hb as [? ? [] ?]|]. split; [|done].
    by intros m [].
  - apply Hsame. unfold test_loop. destruct (working s); [done|]. eexists. split; [done|].
    split; [by destruct Hb as [? ? [] ?]|]. split; [|done]. by intros m [].
Qed.

Lemma exec_all_ok locked l : ∀ s,
  base_ok s → ∃ s', exec_all locked l s = Some s' ∧ base_ok s' ∧ (locked = true → explained s → explained s').
Proof.
  induction l as [|a l IH]; intros s Hb; simpl; [by eauto|].
  destruct (exec_ok locked a s Hb) as (s1 & -> & Hb1 & He1). cbn [mbind option_bind].
  destruct (IH s1 Hb1) as (s2 & -> & Hb2 & He2). eauto 10.
Qed.

(** ** Progress *)
(** The steps the working thread and the device still have to take. *)
Definition todo s : nat :=
  3 * length (request_queue_ s) + sum_list_with (λ x : io_request * bool, if x.2 then 1 else 2) (in_flight s).

Definition internal (a : action) : bool :=
  match a with Dispatch | Perform _ | Complete _ => true | _ => false end.

Lemma sum_delete {X} (f : X → nat) (l : list X) i x :
  l !! i = Some x → sum_list_with f l = f x + sum_list_with f (delete i l).
Proof.
  intros Hi. rewrite delete_take_drop, sum_list_with_app, <- (take_drop_middle l i x Hi) at 1.
  rewrite sum_list_with_app. simpl. lia.
Qed.

Lemma dispatch_todo s s' :
  dispatch s = Some s' →
  if (0 <? get_request_queue_size s) && (0 <? io_queue_length_ - pending_requests_ s)%Z
  then todo s' < todo s else s' = s.
Proof.
  unfold dispatch, dequeue_io_request, get_request_queue_size. destruct (_ && _) eqn:E; [|by intros [= <-]].
  destruct (request_queue_ s) as [|r q] eqn:Hq; [done|]. cbn [mbind option_bind]. intros Hs.
  destruct (type r).
  - simpl in Hs. destruct (BlkCache.read _ _) as [[[d|] c]|]; [| |done]; simpl in Hs; simplify_eq; unfold todo; simpl;
      rewrite Hq, ?sum_list_with_app; simpl; lia.
  - simpl in Hs. destruct (BlkCache.invalidate _ _) as [[b c]|]; [|done]. simpl in Hs. simplify_eq. unfold todo. simpl.
    rewrite Hq, sum_list_with_app. simpl. lia.
Qed.

Lemma perform_todo i s s' :
  perform i s = Some s' →
  match in_flight s !! i with Some (_, false) => todo s' < todo s | _ => s' = s end.
Proof.
  intros E. unfold perform in E. destruct (in_flight s !! i) as [[r [|]]|] eqn:Hi; [by simplify_eq| |by simplify_eq].
  pose proof (Barrier.sum_list_with_insert (λ x : io_request * bool, if x.2 then 1 else 2)
        (in_flight s) i (r, false) (r, true) Hi) as H. simpl in H.
  destruct (type r); [|destruct (memory s !! r_thread r); [|done]]; simpl in E; simplify_eq; unfold todo; simpl; lia.
Qed.

Lemma complete_todo i s s' :
  complete i s = Some s' →
  match in_flight s !! i with Some (_, true) => todo s' < todo s | _ => s' = s end.
Proof.
  intros E. unfold complete, callback_function in E.
  destruct (in_flight s !! i) as [[r [|]]|] eqn:Hi; [|by simplify_eq..]. simpl in E.
  destruct (memory s !! r_thread r); [|done]. cbn [mbind option_bind] in E.
  destruct (fill_cache _ _ _); [|done]. simpl in E. simplify_eq. unfold todo. simpl.
  rewrite (sum_delete _ (in_flight s) i (r, true) Hi). simpl. lia.
Qed.

Lemma internal_todo a s s' locked :
  internal a = true → exec locked a s = Some s' → s' = s ∨ todo s' < todo s.
Proof.
  destruct a as [r d|t| |i|i| |]; try done; intros _ E; simpl in E.
  - destruct (joined s); [simplify_eq; by left|]. apply dispatch_todo in E. case_match; auto.
  - apply perform_todo in E. repeat case_match; auto.
  - destruct (joined s); [simplify_eq; by left|]. apply complete_todo in E. repeat case_match; auto.
Qed.

Lemma internal_enabled locked s :
  base_ok s → joined s = false → (0 < io_queue_length_)%Z → waiting s ≠ [] →
  ∃ a s', internal a = true ∧ exec locked a s = Some s' ∧ todo s' < todo s.
Proof.
  intros Hb Hj Hq Hw.
  assert (Hpick : ∀ a s', internal a = true → exec locked a s = Some s' → todo s' < todo s →
    ∃ a s', internal a = true ∧ exec locked a s = Some s' ∧ todo s' < todo s) by eauto.
  destruct (in_flight s) as [|[r f] fl] eqn:Hf.
  - destruct (exec_ok locked Dispatch s Hb) as (s' & E & _). apply (Hpick Dispatch s'); [done..|].
    simpl in E. rewrite Hj in E. apply dispatch_todo in E.
    pose proof (c_pending s (b_calls s Hb)) as Hp. rewrite Hf in Hp. simpl in Hp.
    rewrite Hp, (proj2 (Z.ltb_lt 0 _)), andb_true_r in E by lia. unfold waiting in Hw. rewrite Hf, app_nil_r in Hw.
    unfold get_request_queue_size in E. by destruct (request_queue_ s).
  - assert (H0 : in_flight s !! 0 = Some (r, f)) by (by rewrite Hf).
    destruct f.
    + destruct (exec_ok locked (Complete 0) s Hb) as (s' & E & _). apply (Hpick (Complete 0) s'); [done..|].
      simpl in E. rewrite Hj in E. apply complete_todo in E. by rewrite H0 in E.
    + destruct (exec_ok locked (Perform 0) s Hb) as (s' & E & _). apply (Hpick (Perform 0) s'); [done..|].
      simpl in E. apply perform_todo in E. by rewrite H0 in E.
Qed.

(** From every state the working thread and the device can answer all calls. *)
Lemma internal_drains locked n : ∀ s,
  todo s ≤ n → base_ok s → joined s = false → (0 < io_queue_length_)%Z →
  ∃ l s', Forall (λ a, internal a = true) l ∧ length l ≤ n ∧ exec_all locked l s = Some s' ∧ base_ok s' ∧ waiting s' = [].
Proof.
  induction n as [|n IH]; intros s Hn Hb Hj Hq; (destruct (decide (waiting s = [])) as [Hw|Hw];
    [exists [], s; split_and!; [constructor|simpl; lia|done..]|]);
    destruct (internal_enabled locked s Hb Hj Hq Hw) as (a & s1 & Ha & E & Ht); [lia|].
  destruct (exec_ok locked a s Hb) as (s1' & E' & Hb1 & _). simplify_eq.
  destruct (IH s1) as (l & s2 & Hl & Hlen & E2 & Hb2 & Hw2); [lia|done| |done|].
  { destruct a as [r d|t| |i|i| |]; try done; simpl in E; rewrite ?Hj in E; clear - E Hj.
    - unfold dispatch, dequeue_io_request in E. repeat (case_match; simplify_eq/=; try done).
      all: try (by destruct (BlkCache.read _ _) as [[[d|] c]|]; simplify_eq/=).
      by destruct (BlkCache.invalidate _ _) as [[b c]|]; simplify_eq/=.
    - unfold perform in E. repeat (case_match; simplify_eq/=; try done).
      by destruct (memory s !! _); simplify_eq/=.
    - unfold complete, callback_function in E. repeat (case_match; simplify_eq/=; try done).
      destruct (memory s !! _); simplify_eq/=. by destruct (fill_cache _ _ _); simplify_eq/=. }
  exists (a :: l), s2. split_and!; [by constructor|simpl; lia| |done|done]. simpl. by rewrite E.
Qed.

End accessor.
Arguments accessor : clear implicits.
Arguments store : clear implicits.
Arguments event : clear implicits.
Arguments action : clear implicits.

End Shared.

Section claims.
Context {D : Type} `{!EqDecision D} (zero : D) (io_queue_length_ capacity : Z).
Local Abbreviation exec_all := (Shared.exec_all zero io_queue_length_).

(** C13: The accessor with the working thread refines an atomic store. However
    clients, working thread and device interleave, no assertion fails; and if
    callers let no call overlap a write to the same block, as the locks on the
    tree's nodes ensure, what they see is a history of an atomic store: every
    read returns the value written last, whether it came from the cache or from
    the device. *)
Theorem shared_accessor_refines locked (l : list (Shared.action D)) :
  ∃ s, exec_all locked l (Shared.open capacity) = Some s ∧
    (locked = true → is_Some (Shared.spec_history zero (Shared.history s))).
Proof.
  destruct (Shared.open_ok (D := D) zero capacity) as [Hb He].
  destruct (Shared.exec_all_ok zero io_queue_length_ locked l _ Hb) as (s & E & _ & Hx).
  exists s. split; [done|]. intros Hl. destruct (Hx Hl He) as (m & _ & Hs). by eexists.
Qed.

(** C28: Every call is answered once and none is forgotten. In every state that
    is reached, a call in progress waits, once, in the queue or at the device
    with its semaphore at 0, or its semaphore was posted once; the counter of
    pending requests is the number of commands at the device; when the working
    thread finds its loop condition false all calls in progress have been
    answered; and as long as it has not left its loop, it and the device can
    answer all calls within [todo] further steps, each of which brings [todo]
    down. *)
Theorem shared_accessor_answers locked (l : list (Shared.action D)) s :
  exec_all locked l (Shared.open capacity) = Some s →
  (∀ t r, Shared.calls s !! t = Some r →
     (r ∈ Shared.waiting s ∧ Shared.semaphores s !! t = Some 0) ∨ Shared.semaphores s !! t = Some 1) ∧
  NoDup (Shared.r_thread <$> Shared.waiting s) ∧
  Shared.pending_requests_ s = Z.of_nat (length (Shared.in_flight s)) ∧
  (Shared.working s = false → ∀ t r, Shared.calls s !! t = Some r → Shared.semaphores s !! t = Some 1) ∧
  (∀ a s', Shared.internal a = true → Shared.exec zero io_queue_length_ locked a s = Some s' →
     s' = s ∨ Shared.todo s' < Shared.todo s) ∧
  (Shared.joined s = false → (0 < io_queue_length_)%Z →
   ∃ l' s', Forall (λ a, Shared.internal a = true) l' ∧ length l' ≤ Shared.todo s ∧
     exec_all locked l' s = Some s' ∧ Shared.waiting s' = []).
Proof.
  intros E. destruct (Shared.open_ok (D := D) zero capacity) as [Hb _].
  destruct (Shared.exec_all_ok zero io_queue_length_ locked l _ Hb) as (s0 & E0 & Hb0 & _).
  rewrite E in E0. injection E0 as <-. pose proof (Shared.b_calls _ Hb0) as [C1 C2 C3 C4].
  assert (Hcall : ∀ t r, Shared.calls s !! t = Some r →
     (r ∈ Shared.waiting s ∧ Shared.semaphores s !! t = Some 0) ∨ Shared.semaphores s !! t = Some 1).
  { intros t r Hr. destruct (C3 t r Hr) as [<- [Hw|Hs]]; [|by right]. left. split; [done|]. apply C2, Hw. }
  split_and!; [done..| | |].
  - intros Hw t r Hr. destruct (Hcall t r Hr) as [[Hin _]|?]; [exfalso|done].
    unfold Shared.working in Hw. apply orb_false_iff in Hw as [[_ Hq]%orb_false_iff Hp].
    apply Nat.ltb_ge in Hq. apply Z.ltb_ge in Hp. unfold Shared.get_request_queue_size in Hq.
    unfold Shared.waiting in Hin. destruct (Shared.request_queue_ s), (Shared.in_flight s); simpl in *; try lia.
    by apply elem_of_nil in Hin.
  - intros a s'. apply Shared.internal_todo.
  - intros Hj Hq. destruct (Shared.internal_drains zero io_queue_length_ locked (Shared.todo s) s)
      as (l' & s' & ? & ? & ? & _ & ?); [lia|done..|]. eauto 10.
Qed.

End claims.

(** Two threads: thread 1 reads block 5 while thread 2 writes it. *)
Definition racing : list (Shared.action Z) :=
  [Shared.Issue (Shared.mk_request 1 5 Shared.read_request) 0%Z; Shared.Dispatch; Shared.Perform 0;
   Shared.Issue (Shared.mk_request 2 5 Shared.write_request) 77%Z; Shared.Dispatch; Shared.Perform 1].

Lemma shared_accessor_answers_witness :
  ∃ s, Shared.exec_all 0%Z 2 false racing (Shared.open 10) = Some s ∧ Shared.todo s = 2 ∧
    ∃ l' s', Forall (λ a, Shared.internal a = true) l' ∧ length l' ≤ 2 ∧
      Shared.exec_all 0%Z 2 false l' s = Some s' ∧ Shared.waiting s' = [].
Proof.
  eexists. split; [vm_compute; reflexivity|]. split; [reflexivity|].
  edestruct (shared_accessor_answers 0%Z 2 10 false racing) as (_ & _ & _ & _ & _ & H); [vm_compute; reflexivity|].
  exact (H eq_refl eq_refl).
Defined.

(** Without the discipline a read that was performed before the write puts the
    old block into the cache after the write has: once both calls returned, a
    third read still gets the old block. *)
Example shared_stale_cache :
  (s ← Shared.exec_all 0%Z 2 false
         (racing ++ [Shared.Complete 1; Shared.Complete 0; Shared.Return 1; Shared.Return 2;
            Shared.Issue (Shared.mk_request 3 5 Shared.read_request) 0%Z; Shared.Dispatch; Shared.Return 3])
         (Shared.open 10);
   Some (list.last (Shared.history s), Shared.device s !! 5%Z)) =
  Some (Some (Shared.Returned 3 0%Z), Some 77%Z).
Proof. vm_compute. reflexivity. Qed.
