(* ===== verification/PullSearch.v ===== *)
(** Total correctness of concurrent searches in the pull-mode tree
    (src/src/tree/pull_based_b_plus_tree.h): on a machine that only gets search
    requests, every round of the schedulers returns, every answer is the value
    of the key in the tree, and all requests are answered after finitely many
    rounds that poll, whatever the order of completions. *)
From Stdlib Require Import ZArith Lia.
From stdpp Require Import base list gmap sorting numbers functions.
From S2P Require Import Prelude KV Leaf Inner Store Tree TreeRep TreeFoot TreeSearch Barrier BarrierFrame PullState PullTree PullSafe PullAnswers TreeSpec.

Module PullSearch.
Import Barrier BarrierFrame Pull PullTree PullSafe PullAnswers.

(** ** Barriers among readers *)
(** No context waits, and no write barrier is held. *)
Definition readers (δ : delta) (m : barrier_manager) : Prop :=
  manager_ok δ m ∧ (∀ q, waits q m = 0) ∧ (∀ i, held i WRITE_BARRIER (wd m) = 0).

Lemma ask_free i p m c :
  readers settled m → (0 ≤ i)%Z → contexts (wd m) !! p = Some c → (0 ≤ next_state c)%Z →
  ∃ m', request_barrier READ_BARRIER i p m = Some (true, m') ∧ readers settled m' ∧
    contexts (wd m') = <[p := add_barrier_token (mk_token i READ_BARRIER) c]> (contexts (wd m)) ∧
    ready_contexts_ (wd m') = ready_contexts_ (wd m).
Proof.
  intros (Hok & Hw & Hh) Hi Hc Hn.
  destruct (request_barrier_ok settled READ_BARRIER i p m Hok Hi) as (ok & m' & E & Hok' & _ & Hr & _ & Hh');
    [by exists c|].
  destruct (request_effect _ _ _ _ _ _ E) as (_ & _ & Hw' & _ & _).
  assert (Hx : ok = true ∧ contexts (wd m') = <[p := add_barrier_token (mk_token i READ_BARRIER) c]> (contexts (wd m))).
  { unfold request_barrier in E.
    destruct (get_or_create_barrier_ok settled i m Hok Hi) as (b & m1 & Hg & Hwd & _ & _ & Hb & _ & Hwb & _).
    rewrite Hg in E. simpl in E. rewrite Hwd in E. unfold set_barrier, grant, grant_read_barrier_request in E.
    rewrite Hwb in E. unfold due, settled in E. rewrite Hh in E. simpl in E.
    unfold update_context in E. rewrite Hc in E. simpl in E. rewrite Hb in E. injection E as <- <-. done. }
  destruct Hx as [-> Hcs]. exists m'. split_and!; [done| |done|done]. split; [done|]. split.
  - intros q. rewrite Hw', Hw. lia.
  - intros j. rewrite Hh', Hh, one_ne by (by right). lia.
Qed.

Lemma give_free δ i m :
  readers δ m → (1 ≤ due δ i READ_BARRIER (wd m))%Z →
  ∃ m', manager_remove READ_BARRIER i m = Some m' ∧ readers (lose (mk_token i READ_BARRIER) δ) m' ∧
    contexts (wd m') = contexts (wd m) ∧ ready_contexts_ (wd m') = ready_contexts_ (wd m).
Proof.
  intros (Hok & Hw & Hh) Hd.
  destruct (manager_remove_ok δ READ_BARRIER i m Hok Hd) as (m' & E & Hok' & _ & _ & b & b' & fired & Hb & _ & Hp & Hr & _ & Hc).
  assert (Hf : fired = []).
  { destruct fired as [|[q t] fired]; [done|]. exfalso. pose proof (proj1 (waits_zero q m) (Hw q)) as Hq.
    apply (Hq i b t Hb). rewrite Hp. simpl. constructor. }
  subst fired. simpl in *. rewrite app_nil_r in Hr.
  assert (Hcs : contexts (wd m') = contexts (wd m)) by (apply list_eq; intros q; apply Hc, not_elem_of_nil).
  exists m'. split_and!; [done| |done|done]. split; [done|]. split.
  - intros q. destruct (manager_remove_evolves 0 _ _ _ _ E) as (_ & Hev & _). specialize (Hev q).
    rewrite Hr, Hw in Hev. lia.
  - intros j. unfold held. rewrite Hcs. apply Hh.
Qed.

(** Changing the tokens of a context from [ts] to [us], all of readers. *)
Lemma tokens_free δ δ' p us m c :
  readers δ m → contexts (wd m) !! p = Some c → Forall (λ k, type_ k = READ_BARRIER) us →
  (∀ i t, (Z.of_nat (ntok i t (set_tokens us c)) + δ' i t = Z.of_nat (ntok i t c) + δ i t)%Z) →
  ∃ w, update_context p (λ c, Some (set_tokens us c)) (wd m) = Some w ∧ readers δ' (mk_manager (barrier_map_ m) w) ∧
    contexts w = <[p := set_tokens us c]> (contexts (wd m)) ∧ ready_contexts_ w = ready_contexts_ (wd m).
Proof.
  intros (Hok & Hw & Hh) Hc Hus Hd.
  destruct (set_tokens_ok δ δ' p us m c Hok Hc Hd) as (w & E & Hok' & _ & Hcs & Hr).
  exists w. split_and!; [done| |done|done]. split; [done|]. split; [exact Hw|].
  intros i. simpl. unfold held. rewrite Hcs.
  pose proof (sum_list_with_insert (ntok i WRITE_BARRIER) _ p c (set_tokens us c) Hc) as Hs.
  specialize (Hh i). unfold held in Hh.
  assert (Hn : ntok i WRITE_BARRIER (set_tokens us c) = 0); [|lia].
  unfold ntok. simpl. rewrite filter_none; [done|]. intros k Hk ->. rewrite Forall_forall in Hus.
  by apply list_elem_of_In, Hus in Hk.
Qed.

(** Fields of a context that barriers do not look at. *)
Lemma field_free δ p m c c' (f : call_back_context → option call_back_context) :
  readers δ m → contexts (wd m) !! p = Some c → f c = Some c' → obtained_barriers_ c' = obtained_barriers_ c →
  ∃ w, update_context p f (wd m) = Some w ∧ readers δ (mk_manager (barrier_map_ m) w) ∧
    contexts w = <[p := c']> (contexts (wd m)) ∧ ready_contexts_ w = ready_contexts_ (wd m).
Proof.
  intros (Hok & Hw & Hh) Hc Hf Ho. unfold update_context. rewrite Hc. simpl. rewrite Hf. simpl. eexists.
  split; [done|]. split; [|done].
  assert (Hheld : ∀ i t, held i t (mk_world (<[p := c']> (contexts (wd m))) (ready_contexts_ (wd m))) = held i t (wd m)).
  { intros i t. unfold held. simpl. pose proof (sum_list_with_insert (ntok i t) _ p c c' Hc) as Hs.
    assert (E : ntok i t c' = ntok i t c) by (unfold ntok; by rewrite Ho). lia. }
  assert (Hwait : ∀ i b q t, barrier_at i m = Some b → (q, t) ∉ pending_barrier_requests b).
  { intros i b q t Hb. apply (proj1 (waits_zero q m) (Hw q) i b t Hb). }
  split; [|split; [exact Hw|intros i; simpl; by rewrite Hheld]].
  intros i. specialize (Hok i). change (barrier_at i (mk_manager (barrier_map_ m) ?w)) with (barrier_at i m).
  pose proof (Hwait i) as Hwi. destruct (barrier_at i m) as [b|].
  - destruct Hok as (B1 & B2 & B3 & B4 & B5 & B6). unfold barrier_ok, due in *. simpl.
    split_and!; [done|by rewrite Hheld|by rewrite Hheld|done|done|]. intros q t Hin. exfalso. by apply (Hwi b q t).
  - intros t. unfold due in *. simpl. rewrite Hheld. apply Hok.
Qed.

Section search.
Context {A : Type} `{!Allocator A}.
Context (CAPACITY : nat) (junkE : list (Z * Z)) (junkK : list Z).
Local Abbreviation cmd := (@cmd A).
Local Abbreviation pstate := (pstate A).
Implicit Types (s : pstate) (p q : nat) (t : tree_state A).

(** ** The way to a key *)
(** A search for [key] that continues at node [id], at most [h] levels above a
    leaf, finds [v]. *)
Fixpoint leads t (h : nat) (key id : Z) (v : option Z) : Prop :=
  id ∈ in_use (alloc t) ∧ (0 ≤ id)%Z ∧
  ∃ b n, blocks t !! id = Some b ∧ deserialize CAPACITY junkE junkK b = Some n ∧
    match n with
    | NLeaf leaf => LeafNode.search key leaf = Some v
    | NInner i =>
        ∃ index, InnerNode.locate_child_index key i = Some index ∧
          if (index <? 0)%Z then v = None
          else ∃ c, InnerNode.child_rep_ i !! Z.to_nat index = Some c ∧
                 match h with 0 => False | S h' => leads t h' key c v end
    end.

(** ** Total correctness of commands *)
Definition tp {X} (c : cmd X) (Q : X → pstate → Prop) s : Prop := ∃ x s', c s = Some (x, s') ∧ Q x s'.

Lemma tp_bind {X Y} (c : cmd X) (k : X → cmd Y) Q s : tp c (λ x, tp (k x) Q) s → tp (c ≫= k) Q s.
Proof. intros (x & s1 & E & y & s2 & E2 & HQ). exists y, s2. split; [|done]. cbv [mbind cmd_bind]. by rewrite E. Qed.
Lemma tp_ret {X} (x : X) Q s : Q x s → tp (mret x) Q s.
Proof. by exists x, s. Qed.
Lemma tp_get {X} (f : pstate → X) Q s : Q (f s) s → tp (get f) Q s.
Proof. by exists (f s), s. Qed.
Lemma tp_modify (f : pstate → pstate) Q s : Q tt (f s) → tp (modify f) Q s.
Proof. by exists tt, (f s). Qed.
Lemma tp_require {X} (o : option X) x Q s : o = Some x → Q x s → tp (require o) Q s.
Proof. intros ->. by exists x, s. Qed.
Lemma tp_assert b Q s : b = true → Q tt s → tp (assert_ b) Q s.
Proof. intros -> HQ. by exists tt, s. Qed.
Lemma tp_mono {X} (c : cmd X) (Q Q' : X → pstate → Prop) s : tp c Q s → (∀ x s, Q x s → Q' x s) → tp c Q' s.
Proof. intros (x & s1 & E & HQ) H. exists x, s1. auto. Qed.

(** The search context [p]: its record and its data. *)
Record mine_at (δ : delta) p s (c : call_back_context) (sc : search_context) : Prop := {
  a_readers : readers δ (manager s);
  a_ctx : ctxs s !! p = Some c;
  a_data : datas s !! p = Some (CSearch sc) }.

(** [s'] is [s] but for the context [p], which has submitted [k] reads. *)
Record same_but (k : nat) p s s' : Prop := {
  sb_tree : tree s' = tree s;
  sb_rest : request_queue_ s' = request_queue_ s ∧ pending_request_ s' = pending_request_ s ∧
    free_context_slots_ s' = free_context_slots_ s ∧ free_insert_contexts_ s' = free_insert_contexts_ s ∧
    free_search_contexts_ s' = free_search_contexts_ s ∧ admission_contexts_ s' = admission_contexts_ s ∧
    answers s' = answers s ∧ blk_ready_contexts s' = blk_ready_contexts s ∧
    ready_contexts_ (wd (manager s')) = ready_contexts_ (wd (manager s));
  sb_io : pending_contexts_ s' = pending_contexts_ s ++ replicate k p ∧
    pending_ids_ s' = pending_ids_ s ++ replicate k read_io;
  sb_other : ∀ q, q ≠ p → ctxs s' !! q = ctxs s !! q ∧ datas s' !! q = datas s !! q }.

Lemma same_but_trans k1 k2 p s1 s2 s3 : same_but k1 p s1 s2 → same_but k2 p s2 s3 → same_but (k1 + k2) p s1 s3.
Proof.
  intros [T1 R1 [I1 J1] O1] [T2 R2 [I2 J2] O2]. split; [congruence| | |].
  - destruct_and!; split_and!; congruence.
  - rewrite I2, I1, J2, J1, !replicate_add, <- !app_assoc. done.
  - intros q Hq. destruct (O1 q Hq), (O2 q Hq). split; congruence.
Qed.

Lemma same_but_manager p s m :
  (∀ q, q ≠ p → contexts (wd m) !! q = ctxs s !! q) → ready_contexts_ (wd m) = ready_contexts_ (wd (manager s)) →
  same_but 0 p s (with_manager m s).
Proof. intros Hq Hr. split; [done|by split_and!|simpl; by rewrite !app_nil_r|]. intros q Hne. split; [by apply Hq|done]. Qed.

Lemma insert_others {X} (l l' : list X) p (x : X) : l' = <[p := x]> l → ∀ q, q ≠ p → l' !! q = l !! q.
Proof. intros -> q Hq. by rewrite list_lookup_insert_ne. Qed.

Lemma tp_update δ p s c c' sc (f : call_back_context → option call_back_context) Q :
  mine_at δ p s c sc → f c = Some c' → obtained_barriers_ c' = obtained_barriers_ c →
  (∀ s', same_but 0 p s s' → mine_at δ p s' c' sc → Q tt s') → tp (update_call_back p f) Q s.
Proof.
  intros [Hr Hc Hd] Hf Ho HQ. destruct (field_free δ p (manager s) c c' f Hr Hc Hf Ho) as (w & E & Hr' & Hcs & Hrd).
  unfold update_call_back. eexists tt, _. rewrite E. split; [done|]. apply HQ.
  - apply same_but_manager; [by apply insert_others with (x := c')|done].
  - split; [done| |done]. unfold ctxs. simpl. rewrite Hcs. apply list_lookup_insert_eq. by eapply lookup_lt_Some.
Qed.

Lemma tp_ask p s c sc i Q :
  mine_at settled p s c sc → (0 ≤ i)%Z → (0 ≤ next_state c)%Z →
  (∀ s', same_but 0 p s s' → mine_at settled p s' (add_barrier_token (mk_token i READ_BARRIER) c) sc → Q true s') →
  tp (ask_barrier READ_BARRIER i p) Q s.
Proof.
  intros [Hr Hc Hd] Hi Hn HQ. destruct (ask_free i p (manager s) c Hr Hi Hc Hn) as (m' & E & Hr' & Hcs & Hrd).
  unfold ask_barrier. eexists true, _. rewrite E. split; [done|]. apply HQ.
  - apply same_but_manager; [by eapply insert_others|done].
  - split; [done| |done]. unfold ctxs. simpl. rewrite Hcs. apply list_lookup_insert_eq. by eapply lookup_lt_Some.
Qed.

Lemma tp_give p s c sc δ i Q :
  mine_at δ p s c sc → (1 ≤ due δ i READ_BARRIER (wd (manager s)))%Z →
  (∀ s', same_but 0 p s s' → mine_at (lose (mk_token i READ_BARRIER) δ) p s' c sc →
     contexts (wd (manager s')) = contexts (wd (manager s)) → Q tt s') →
  tp (give_back READ_BARRIER i) Q s.
Proof.
  intros [Hr Hc Hd] Hdue HQ. destruct (give_free δ i (manager s) Hr Hdue) as (m' & E & Hr' & Hcs & Hrd).
  unfold give_back. eexists tt, _. rewrite E. split; [done|]. apply HQ; [| |done].
  - apply same_but_manager; [intros q _; unfold ctxs; by rewrite Hcs|done].
  - split; [done| |done]. unfold ctxs. simpl. by rewrite Hcs.
Qed.

Lemma tp_tokens p s c sc δ us Q :
  mine_at δ p s c sc → Forall (λ k, type_ k = READ_BARRIER) us →
  (∀ i ty, (Z.of_nat (ntok i ty (set_tokens us c)) = Z.of_nat (ntok i ty c) + δ i ty)%Z) →
  (∀ s', same_but 0 p s s' → mine_at settled p s' (set_tokens us c) sc → Q tt s') →
  tp (set_obtained p us) Q s.
Proof.
  intros [Hr Hc Hd] Hus Hn HQ.
  destruct (tokens_free δ settled p us (manager s) c Hr Hc Hus) as (w & E & Hr' & Hcs & Hrd).
  { intros i ty. specialize (Hn i ty). unfold settled. lia. }
  unfold set_obtained, update_call_back. eexists tt, _. rewrite E. split; [done|]. apply HQ.
  - apply same_but_manager; [by eapply insert_others|done].
  - split; [done| |done]. unfold ctxs. simpl. rewrite Hcs. apply list_lookup_insert_eq. by eapply lookup_lt_Some.
Qed.

Lemma tp_put_search p s c sc sc' δ Q :
  mine_at δ p s c sc → (∀ s', same_but 0 p s s' → mine_at δ p s' c sc' → Q tt s') → tp (put_search p sc') Q s.
Proof.
  intros [Hr Hc Hd] HQ. apply tp_modify, HQ.
  - split; [done|by split_and!|simpl; by rewrite !app_nil_r|]. intros q Hq. split; [done|]. simpl.
    by rewrite list_lookup_insert_ne.
  - split; [done|done|]. simpl. apply list_lookup_insert_eq. by eapply lookup_lt_Some.
Qed.

Lemma tp_get_search p s c sc δ Q : mine_at δ p s c sc → Q sc s → tp (get_search p) Q s.
Proof. intros [_ _ Hd] HQ. exists sc, s. unfold get_search. by rewrite Hd. Qed.
Lemma tp_get_context p s c sc δ Q : mine_at δ p s c sc → Q c s → tp (get_context p) Q s.
Proof. intros [_ Hc _] HQ. exists c, s. unfold get_context. unfold ctxs in Hc. by rewrite Hc. Qed.

Lemma tp_goto δ p s c sc st Q :
  mine_at δ p s c sc → (∀ s', same_but 0 p s s' → mine_at δ p s' (set_next_state st c) sc → Q tt s') →
  tp (goto_next p st) Q s.
Proof. intros H HQ. eapply (tp_update _ _ _ _ (set_next_state st c)); [exact H|done|done|exact HQ]. Qed.

Lemma tp_transition δ p s c sc Q :
  mine_at δ p s c sc → (0 ≤ next_state c)%Z →
  (∀ s', same_but 0 p s s' → mine_at δ p s' (moved_on c) sc → Q tt s') → tp (do_transition p) Q s.
Proof.
  intros H Hn HQ. eapply (tp_update _ _ _ _ (moved_on c)); [exact H| |done|exact HQ]. unfold transition_to_next_state.
  by rewrite (proj2 (Z.leb_le _ _)).
Qed.

(** Reading a block of the tree. *)
Lemma tp_read δ p s c sc addr buf Q :
  mine_at δ p s c sc → addr ∈ in_use (alloc (tree s)) →
  (∀ s', same_but 1 p s s' → mine_at δ p s' c sc → Q (blocks (tree s) !! addr) s') →
  tp (asynch_read addr buf p) Q s.
Proof.
  intros [Hr Hc Hd] Ha HQ. unfold asynch_read, blk_read, submit. apply tp_bind, tp_get, tp_bind, tp_modify, tp_ret.
  rewrite bool_decide_true by done. apply HQ; [|by split].
  split; [done|by split_and!|done|done].
Qed.

(** A token of the context is counted by its barrier. *)
Lemma token_due p s c sc k :
  mine_at settled p s c sc → k ∈ obtained_barriers_ c → type_ k = READ_BARRIER →
  (1 ≤ due settled (barrier_id_ k) READ_BARRIER (wd (manager s)))%Z.
Proof.
  intros [_ Hc _] Hk Ht. unfold due, settled.
  assert (Hn : 1 ≤ ntok (barrier_id_ k) READ_BARRIER c).
  { apply ntok_in. by destruct k as [i ty]; simpl in *; subst ty. }
  pose proof (held_ge (barrier_id_ k) READ_BARRIER (wd (manager s)) p c Hc). lia.
Qed.

(** State 1 gives the barrier of the parent back. *)
Lemma tp_drop_front p s c sc k k' Q :
  mine_at settled p s c sc → obtained_barriers_ c = [k; k'] → type_ k = READ_BARRIER → type_ k' = READ_BARRIER →
  (∀ s', same_but 0 p s s' → mine_at settled p s' (set_tokens [k'] c) sc → Q tt s') →
  tp (_ ← give_back READ_BARRIER (barrier_id_ k); cb ← get_context p; set_obtained p (tail (obtained_barriers_ cb))) Q s.
Proof.
  intros H Ho Hk Hk' HQ. apply tp_bind. eapply tp_give; [exact H| |].
  { eapply token_due; [exact H|rewrite Ho; constructor|done]. }
  intros s1 S1 H1 _. apply tp_bind. eapply tp_get_context; [exact H1|]. rewrite Ho. simpl.
  eapply tp_tokens; [exact H1|by constructor| |].
  - intros i ty. unfold lose, settled, ntok. simpl. rewrite Ho, !filter_cons, filter_nil.
    unfold one. destruct k as [i0 ty0]. simpl in *. subst ty0. repeat case_decide; simpl; try lia; congruence.
  - intros s2 S2 H2. apply HQ; [|done]. by eapply (same_but_trans 0 0).
Qed.

Lemma tp_step p s c sc δ Q :
  mine_at δ p s c sc → tp (search_step CAPACITY junkE junkK p) Q s → tp (step CAPACITY junkE junkK p) Q s.
Proof. intros [_ _ Hd] (x & s' & E & HQ). exists x, s'. unfold step. by rewrite Hd. Qed.

(** The end of a visit: the context waits for the block of its node. *)
Definition reading t p (sc : search_context) s s' : Prop :=
  same_but 1 p s s' ∧
  ∃ c, mine_at settled p s' c (mk_search (s_key sc) (s_node_ref_ sc) (blocks t !! s_node_ref_ sc)) ∧
    next_state c = 2%Z ∧ obtained_barriers_ c = [mk_token (s_node_ref_ sc) READ_BARRIER].

Lemma state_1_total p s c sc ts :
  mine_at settled p s c sc → current_state c = 1%Z → s_node_ref_ sc ∈ in_use (alloc (tree s)) →
  obtained_barriers_ c = ts ++ [mk_token (s_node_ref_ sc) READ_BARRIER] → length ts ≤ 1 →
  Forall (λ k, type_ k = READ_BARRIER) ts →
  tp (step CAPACITY junkE junkK p) (λ o s', o = CONTEXT_TRANSIT ∧ reading (tree s) p sc s s') s.
Proof.
  intros H Hst Hin Ho Hl Hts. eapply tp_step; [exact H|]. unfold search_step.
  apply tp_bind. eapply tp_get_context; [exact H|]. rewrite Hst. simpl. unfold search_state_1.
  apply tp_bind. eapply tp_get_search; [exact H|]. apply tp_bind. eapply tp_get_context; [exact H|].
  apply tp_bind, tp_assert; [rewrite Ho, length_app; simpl; apply Nat.leb_le; lia|].
  assert (Hrest : ∀ s1 c1, same_but 0 p s s1 → mine_at settled p s1 c1 sc →
    obtained_barriers_ c1 = [mk_token (s_node_ref_ sc) READ_BARRIER] →
    tp (_ ← goto_next p 2; b ← asynch_read (s_node_ref_ sc) (s_buffer_ sc) p;
        _ ← put_search p (mk_search (s_key sc) (s_node_ref_ sc) b); mret CONTEXT_TRANSIT)
      (λ o s', o = CONTEXT_TRANSIT ∧ reading (tree s) p sc s s') s1).
  { intros s1 c1 S1 H1 Ho1. apply tp_bind. eapply tp_goto; [exact H1|]. intros s2 S2 H2.
    pose proof (same_but_trans 0 0 _ _ _ _ S1 S2) as S12.
    apply tp_bind. eapply tp_read; [exact H2|by rewrite (sb_tree _ _ _ _ S12)|]. intros s3 S3 H3.
    apply tp_bind. eapply tp_put_search; [exact H3|]. intros s4 S4 H4. apply tp_ret. split; [done|].
    split; [exact (same_but_trans _ _ _ _ _ _ (same_but_trans _ _ _ _ _ _ S12 S3) S4)|].
    eexists. rewrite (sb_tree _ _ _ _ S12) in H4. split; [exact H4|done]. }
  apply tp_bind. destruct ts as [|k [|]]; [| |simpl in Hl; lia].
  - rewrite Ho. simpl. apply tp_ret. apply (Hrest s c); [|done|done].
    split; [done|by split_and!|by rewrite !app_nil_r|done].
  - rewrite Ho. simpl. apply Forall_inv in Hts. eapply tp_drop_front; [exact H|exact Ho|done|done|].
    intros s1 S1 H1. by eapply Hrest.
Qed.

(** A context in state 0 asks for its node, enters state 1 and reads it. *)
Lemma visit_total fuel p s c sc :
  mine_at settled p s c sc → current_state c = 0%Z → s_node_ref_ sc ∈ in_use (alloc (tree s)) →
  (0 ≤ s_node_ref_ sc)%Z → length (obtained_barriers_ c) ≤ 1 →
  Forall (λ k, type_ k = READ_BARRIER) (obtained_barriers_ c) →
  tp (run CAPACITY junkE junkK (S (S fuel)) p) (λ o s', reading (tree s) p sc s s') s.
Proof.
  intros H Hst Hin H0 Hl Hts.
  assert (Hs0 : tp (step CAPACITY junkE junkK p) (λ o s1, o = Again ∧ same_but 0 p s s1 ∧
    mine_at settled p s1 (moved_on (add_barrier_token (mk_token (s_node_ref_ sc) READ_BARRIER) (set_next_state 1 c))) sc) s).
  { eapply tp_step; [exact H|]. unfold search_step. apply tp_bind. eapply tp_get_context; [exact H|].
    rewrite Hst. simpl. unfold search_state_0. apply tp_bind. eapply tp_get_search; [exact H|].
    apply tp_bind. eapply tp_goto; [exact H|]. intros s1 S1 H1. apply tp_bind.
    eapply tp_ask; [exact H1|done|simpl; lia|]. intros s2 S2 H2. apply tp_bind.
    eapply tp_transition; [exact H2|simpl; lia|]. intros s3 S3 H3. apply tp_ret. split; [done|]. split; [|exact H3].
    exact (same_but_trans _ _ _ _ _ _ (same_but_trans _ _ _ _ _ _ S1 S2) S3). }
  cbn [run]. apply tp_bind. eapply tp_mono; [exact Hs0|]. intros o s1 (-> & S1 & H1). simpl. apply tp_bind.
  eapply tp_mono; [eapply (state_1_total p s1 _ sc (obtained_barriers_ c)); [exact H1|done|by rewrite (sb_tree _ _ _ _ S1)|done..]|].
  intros o s2 (-> & S2 & Hc). simpl. apply tp_ret. split; [exact (same_but_trans _ _ _ _ _ _ S1 S2)|].
  by rewrite <- (sb_tree _ _ _ _ S1).
Qed.

(** The end of a search. *)
Record finished p (key : Z) (v : option Z) s s' : Prop := {
  f_tree : tree s' = tree s;
  f_counts : pending_request_ s' = (pending_request_ s - 1)%Z ∧ free_context_slots_ s' = (free_context_slots_ s + 1)%Z;
  f_answers : answers s' = answers s ++ [Searched key v] ∧ free_search_contexts_ s' = p :: free_search_contexts_ s;
  f_rest : request_queue_ s' = request_queue_ s ∧ free_insert_contexts_ s' = free_insert_contexts_ s ∧
    admission_contexts_ s' = admission_contexts_ s ∧ blk_ready_contexts s' = blk_ready_contexts s ∧
    pending_contexts_ s' = pending_contexts_ s ∧ pending_ids_ s' = pending_ids_ s ∧
    ready_contexts_ (wd (manager s')) = ready_contexts_ (wd (manager s));
  f_other : ∀ q, q ≠ p → ctxs s' !! q = ctxs s !! q ∧ datas s' !! q = datas s !! q;
  f_mine : ∃ c sc, mine_at settled p s' c sc ∧ obtained_barriers_ c = [] }.

Lemma done_total p s c sc k key v :
  mine_at settled p s c sc → obtained_barriers_ c = [k] → type_ k = READ_BARRIER →
  tp (search_done p key v) (λ o s', o = CONTEXT_TERMINATED ∧ finished p key v s s') s.
Proof.
  intros H Ho Hk. unfold search_done. do 3 (apply tp_bind, tp_modify).
  match goal with |- tp _ _ ?x => set (s0 := x) end.
  assert (H0 : mine_at settled p s0 c sc) by (by destruct H). apply tp_bind. eapply tp_get_context; [exact H0|].
  rewrite Ho. cbn [give_back_reads]. apply tp_bind. apply tp_bind.
  eapply tp_give; [exact H0|eapply token_due; [exact H0|rewrite Ho; constructor|done]|].
  intros s1 S1 H1 _. apply tp_ret. apply tp_bind. eapply tp_tokens; [exact H1|constructor| |].
  { intros i ty. unfold lose, settled, ntok. simpl. rewrite Ho, filter_cons, filter_nil. unfold one.
    destruct k as [i0 ty0]. simpl in *. subst ty0. repeat case_decide; simpl; try lia; congruence. }
  intros s2 S2 H2. apply tp_bind, tp_modify, tp_ret. split; [done|].
  pose proof (same_but_trans _ _ _ _ _ _ S1 S2) as [T (R1 & R2 & R3 & R4 & R5 & R6 & R7 & R8 & R9) [I1 I2] O].
  simpl in *. rewrite app_nil_r in I1, I2. split; simpl; [exact T|by split| |by split_and!|exact O|].
  - by rewrite R7, R5.
  - exists (set_tokens [] c), sc. split; [|done]. by destruct H2; split.
Qed.

Lemma leads_unfold t h key id v :
  leads t h key id v ↔
  id ∈ in_use (alloc t) ∧ (0 ≤ id)%Z ∧
  ∃ b n, blocks t !! id = Some b ∧ deserialize CAPACITY junkE junkK b = Some n ∧
    match n with
    | NLeaf leaf => LeafNode.search key leaf = Some v
    | NInner i =>
        ∃ index, InnerNode.locate_child_index key i = Some index ∧
          if (index <? 0)%Z then v = None
          else ∃ c, InnerNode.child_rep_ i !! Z.to_nat index = Some c ∧
                 match h with 0 => False | S h' => leads t h' key c v end
    end.
Proof. by destruct h. Qed.

(** A context in state 2 answers, or goes down one level. *)
Lemma node_total fuel p s c sc h v :
  mine_at settled p s c sc → current_state c = 2%Z → leads (tree s) h (s_key sc) (s_node_ref_ sc) v →
  s_buffer_ sc = blocks (tree s) !! s_node_ref_ sc →
  obtained_barriers_ c = [mk_token (s_node_ref_ sc) READ_BARRIER] →
  tp (run CAPACITY junkE junkK (S (S (S fuel))) p)
    (λ o s', finished p (s_key sc) v s s' ∨
       ∃ h' sc', h = S h' ∧ s_key sc' = s_key sc ∧ leads (tree s) h' (s_key sc) (s_node_ref_ sc') v ∧
         reading (tree s) p sc' s s') s.
Proof.
  intros H Hst Hlead Hb Ho. apply leads_unfold in Hlead as (Hin & H0 & b & n & Eb & En & Hn).
  cbn [run]. rewrite Eb in Hb.
  assert (Hstep : tp (step CAPACITY junkE junkK p)
    (λ o s1, (o = CONTEXT_TERMINATED ∧ finished p (s_key sc) v s s1) ∨
       ∃ h' sc', o = Again ∧ h = S h' ∧ s_key sc' = s_key sc ∧ leads (tree s) h' (s_key sc) (s_node_ref_ sc') v ∧
         same_but 0 p s s1 ∧ ∃ c1, mine_at settled p s1 c1 sc' ∧ current_state c1 = 0%Z ∧
           obtained_barriers_ c1 = [mk_token (s_node_ref_ sc) READ_BARRIER]) s).
  { eapply tp_step; [exact H|]. unfold search_step. apply tp_bind. eapply tp_get_context; [exact H|].
    rewrite Hst. simpl. unfold search_state_2. apply tp_bind. eapply tp_get_search; [exact H|].
    apply tp_bind. eapply tp_require; [exact Hb|]. apply tp_bind. eapply tp_require; [exact En|].
    destruct n as [leaf|i].
    - apply tp_bind. eapply tp_require; [exact Hn|].
      eapply tp_mono; [eapply done_total; [exact H|exact Ho|done]|]. intros o s1 H1. by left.
    - destruct Hn as (index & Hi & Hc). apply tp_bind. eapply tp_require; [exact Hi|].
      destruct (index <? 0)%Z.
      + subst v. eapply tp_mono; [eapply done_total; [exact H|exact Ho|done]|]. intros o s1 H1. by left.
      + destruct Hc as (c0 & Hc0 & Hl). destruct h as [|h']; [done|]. apply tp_bind. eapply tp_require; [exact Hc0|].
        apply tp_bind. eapply tp_put_search; [exact H|]. intros s1 S1 H1. unfold jump. apply tp_bind.
        eapply tp_goto; [exact H1|]. intros s2 S2 H2. apply tp_bind. eapply tp_transition; [exact H2|simpl; lia|].
        intros s3 S3 H3. apply tp_ret. right. exists h', (mk_search (s_key sc) c0 (s_buffer_ sc)). split_and!; [done..| |].
        * exact (same_but_trans _ _ _ _ _ _ (same_but_trans _ _ _ _ _ _ S1 S2) S3).
        * eexists. split; [exact H3|done]. }
  apply tp_bind. eapply tp_mono; [exact Hstep|].
  intros o s1 [[-> Hf]|(h' & sc' & -> & -> & Hkey & Hl & S1 & c1 & H1 & Hst1 & Ho1)]; simpl.
  - apply tp_ret. by left.
  - pose proof Hl as Hl'. apply leads_unfold in Hl' as (Hin' & H0' & _).
    eapply tp_mono; [eapply (visit_total fuel p s1 c1 sc' H1 Hst1)|].
    + by rewrite (sb_tree _ _ _ _ S1).
    + done.
    + rewrite Ho1. simpl. lia.
    + rewrite Ho1. by constructor.
    + intros o s2 [S2 Hc2]. right. exists h', sc'. split_and!; [done..|].
      rewrite (sb_tree _ _ _ _ S1) in Hc2. split; [exact (same_but_trans _ _ _ _ _ _ S1 S2)|done].
Qed.

(** ** Queues of the scheduler that are empty *)
Lemma process_barrier_ready_none fuel s :
  ready_contexts_ (wd (manager s)) = [] →
  tp (process_barrier_ready_context CAPACITY junkE junkK fuel process_granularity true) (λ _ s', s' = s) s.
Proof.
  intros Hr. unfold process_barrier_ready_context. do 2 (apply tp_bind, tp_get).
  rewrite Hr. change (take_ready true process_granularity ?cs []) with (@nil nat, @nil nat).
  apply tp_bind, tp_modify. cbn. apply tp_ret. destruct s as [t0 [bm [cs rd]]]. simpl in *. by subst rd.
Qed.

Lemma process_new_none fuel s :
  admission_contexts_ s = [] →
  tp (process_new_context CAPACITY junkE junkK fuel process_granularity) (λ _ s', s' = s) s.
Proof.
  intros Ha. unfold process_new_context. do 3 (apply tp_bind, tp_get). rewrite Ha. cbn.
  apply tp_bind, tp_modify. apply tp_ret. destruct s. simpl in *. by subst.
Qed.

Lemma admission_none max free s :
  request_queue_ s = [] → tp (admission_loop max free) (λ _ s', s' = s) s.
Proof.
  intros Hq. destruct max as [|max]; cbn [admission_loop]; [by apply tp_ret|].
  destruct (free =? 0)%Z; [by apply tp_ret|]. apply tp_bind. exists None, s.
  split; [unfold atomic_dequeue_request; by rewrite Hq|]. by apply tp_ret.
Qed.

(** ** Schedules of searches *)
(** A round of one of the schedulers, in which completions arrive in the order
    [shuffle] chooses; the latency-aware scheduler polls the device only in some
    of its rounds. *)
Inductive round :=
  | Naive (shuffle : list nat → list nat)
  | LatencyAware (shuffle : list nat → list nat) (probe : bool).

Definition round_ok (r : round) : Prop :=
  match r with Naive f | LatencyAware f _ => ∀ l, f l ≡ₚ l end.
Definition polls (r : round) : bool := match r with Naive _ => true | LatencyAware _ b => b end.
Definition do_round (fuel : nat) (r : round) : cmd unit :=
  match r with
  | Naive f => naive_round CAPACITY junkE junkK fuel f
  | LatencyAware f b => latency_aware_round CAPACITY junkE junkK fuel f b
  end.

(** The number of rounds that poll. *)
Definition polling (rs : list round) : nat := length (filter (λ r, polls r = true) rs).

(** A search request arrives, or a scheduler does a round. *)
Inductive event := Arrive (key : Z) | Round (r : round).

Definition event_ok (e : event) : Prop :=
  match e with Arrive _ => True | Round r => round_ok r end.

Fixpoint asked (l : list event) : list Z :=
  match l with [] => [] | Arrive key :: l' => key :: asked l' | Round _ :: l' => asked l' end.

Fixpoint exec_events (fuel : nat) (l : list event) s : option pstate :=
  match l with
  | [] => Some s
  | Arrive key :: l' => '(_, s) ← asynchronous_with_callback (SEARCH_REQUEST key) s; exec_events fuel l' s
  | Round r :: l' => '(_, s) ← do_round fuel r s; exec_events fuel l' s
  end.

(** ** The machine *)
Section machine.
Context (t : tree_state A) (find : Z → option Z) (height n : nat).
Context (sb : pstate).
Hypothesis (Hfind : ∀ key, leads t height key (root_ t) (find key)).

Definition holds q s (c : call_back_context) (sc : search_context) : Prop :=
  ctxs s !! q = Some c ∧ datas s !! q = Some (CSearch sc).

(** A search that was not started, [w] steps from its answer. *)
Definition admitted (w : nat) q s : Prop :=
  ∃ c sc h, holds q s c sc ∧ current_state c = 0%Z ∧ obtained_barriers_ c = [] ∧
    leads t h (s_key sc) (s_node_ref_ sc) (find (s_key sc)) ∧ w = h + 2.

(** A search that reads a node, or has read it. *)
Definition loaded (done : bool) (w : nat) q s : Prop :=
  ∃ c sc h, holds q s c sc ∧ (if done then current_state c = 2 else next_state c = 2)%Z ∧
    obtained_barriers_ c = [mk_token (s_node_ref_ sc) READ_BARRIER] ∧
    s_buffer_ sc = blocks t !! s_node_ref_ sc ∧
    leads t h (s_key sc) (s_node_ref_ sc) (find (s_key sc)) ∧ w = h + 1.

Definition idle q s : Prop := ∃ c sc, holds q s c sc ∧ obtained_barriers_ c = [].

(** The contexts of searches in progress; [R] are those the scheduler has taken. *)
Definition active (R : list nat) s : list nat :=
  R ++ admission_contexts_ s ++ blk_ready_contexts s ++ pending_contexts_ s.

(** What the searches since state [sb] leave as it was. *)
Definition framed (R : list nat) s : Prop :=
  free_insert_contexts_ s = free_insert_contexts_ sb ∧
  active R s ++ free_search_contexts_ s ≡ₚ free_search_contexts_ sb ∧
  ∀ q, q ∉ active R s ++ free_search_contexts_ s → ctxs s !! q = ctxs sb !! q ∧ datas s !! q = datas sb !! q.

Record searching (wt : nat → nat) (R : list nat) s : Prop := {
  si_tree : tree s = t;
  si_readers : readers settled (manager s);
  si_ready : ready_contexts_ (wd (manager s)) = [];
  si_nodup : NoDup (active R s ++ free_search_contexts_ s);
  si_ids : length (pending_ids_ s) = length (pending_contexts_ s);
  si_runs : ∀ q, q ∈ R ++ admission_contexts_ s ++ blk_ready_contexts s → admitted (wt q) q s ∨ loaded true (wt q) q s;
  si_waits : ∀ q, q ∈ pending_contexts_ s → loaded false (wt q) q s;
  si_free : ∀ q, q ∈ free_search_contexts_ s → idle q s;
  si_slots : free_context_slots_ s = Z.of_nat (length (free_search_contexts_ s));
  si_requests : ∀ r, r ∈ request_queue_ s → ∃ key, r = SEARCH_REQUEST key;
  si_pending : pending_request_ s = Z.of_nat (length (request_queue_ s) + length (active R s));
  si_answers : ∃ ks, answers s = answers sb ++ ((λ key, Searched key (find key)) <$> ks);
  si_count : length (active R s) + length (free_search_contexts_ s) = n;
  si_frame : framed R s }.

(** A bound on the completions and runs before the last answer. *)
Definition work (wt : nat → nat) (R : list nat) s : nat :=
  2 * (sum_list_with wt (active R s) + length (request_queue_ s) * (height + 3)) + length (pending_contexts_ s).

Lemma sum_ext (f g : nat → nat) l : (∀ x, x ∈ l → f x = g x) → sum_list_with f l = sum_list_with g l.
Proof.
  induction l as [|x l IH]; intros H; [done|]. simpl. rewrite (H x) by constructor. rewrite IH; [done|].
  intros y Hy. apply H. by constructor.
Qed.

Lemma sum_perm (f : nat → nat) l l' : l ≡ₚ l' → sum_list_with f l = sum_list_with f l'.
Proof. induction 1; simpl; lia. Qed.

Lemma set_weight (wt : nat → nat) p w q : q ≠ p → <[p := w]> wt q = wt q.
Proof. intros Hq. by rewrite fn_lookup_insert_ne. Qed.

Lemma holds_other q s s' c sc :
  ctxs s' !! q = ctxs s !! q → datas s' !! q = datas s !! q → holds q s c sc → holds q s' c sc.
Proof. unfold holds. by intros -> ->. Qed.

Lemma admitted_other w q s s' :
  ctxs s' !! q = ctxs s !! q ∧ datas s' !! q = datas s !! q → admitted w q s → admitted w q s'.
Proof. intros [E1 E2] (c & sc & h & H & Hr). exists c, sc, h. split; [by eapply holds_other|done]. Qed.
Lemma loaded_other b w q s s' :
  ctxs s' !! q = ctxs s !! q ∧ datas s' !! q = datas s !! q → loaded b w q s → loaded b w q s'.
Proof. intros [E1 E2] (c & sc & h & H & Hr). exists c, sc, h. split; [by eapply holds_other|done]. Qed.
Lemma idle_other q s s' : ctxs s' !! q = ctxs s !! q ∧ datas s' !! q = datas s !! q → idle q s → idle q s'.
Proof. intros [E1 E2] (c & sc & H & Hr). exists c, sc. split; [by eapply holds_other|done]. Qed.

(** A step that changes context [p] only, which is one of the searches. *)
Lemma framed_step p R R' s s' :
  framed R s → active R' s' ++ free_search_contexts_ s' ≡ₚ active R s ++ free_search_contexts_ s →
  p ∈ active R s ++ free_search_contexts_ s → free_insert_contexts_ s' = free_insert_contexts_ s →
  (∀ q, q ≠ p → ctxs s' !! q = ctxs s !! q ∧ datas s' !! q = datas s !! q) → framed R' s'.
Proof.
  intros (F1 & F2 & F3) Ha Hp Ef O. split; [congruence|]. split; [by rewrite Ha|]. intros q. rewrite Ha. intros Hq.
  destruct (O q) as [-> ->]; [by intros ->|by apply F3].
Qed.

(** The context that ran waits for a node. *)
Lemma searching_reading wt p R s s' sc h :
  searching wt (p :: R) s → reading t p sc s s' → leads t h (s_key sc) (s_node_ref_ sc) (find (s_key sc)) →
  h + 1 < wt p →
  searching (<[p := h + 1]> wt) R s' ∧ work (<[p := h + 1]> wt) R s' < work wt (p :: R) s ∧
  admission_contexts_ s' = admission_contexts_ s ∧ blk_ready_contexts s' = blk_ready_contexts s ∧
  request_queue_ s' = request_queue_ s ∧ ∃ l, pending_contexts_ s' = pending_contexts_ s ++ l.
Proof.
  intros [I1 I2 I3 I4 I5 I6 I7 I8 I9 I10 I11 I12 I13 I14] [[T (R1 & R2 & R3 & R4 & R5 & R6 & R7 & R8 & R9) [J1 J2] O] (c & Hm & Hn & Ho)] Hl Hw.
  simpl in J1, J2.
  assert (Hact : active (p :: R) s ≡ₚ active R s').
  { unfold active. rewrite R6, R8, J1. solve_Permutation. }
  assert (Hne : ∀ q, q ∈ R ++ admission_contexts_ s ++ blk_ready_contexts s ++ pending_contexts_ s ++ free_search_contexts_ s → q ≠ p).
  { intros q Hq ->. unfold active in I4. simpl in I4. apply list.NoDup_cons in I4 as [I4 _]. apply I4. set_solver. }
  split; [|split; [|split_and!; [done..|by eexists]]].
  - split.
    + congruence.
    + apply Hm.
    + congruence.
    + by rewrite R5, <- Hact.
    + rewrite J1, J2, !length_app, I5. done.
    + intros q. rewrite R6, R8. intros Hq.
      assert (Hqp : q ≠ p) by (apply Hne; set_solver). rewrite set_weight by done.
      destruct (I6 q) as [H|H]; [set_solver|left; by eapply admitted_other; [apply O|]|right; by eapply loaded_other; [apply O|]].
    + intros q. rewrite J1, elem_of_app, list_elem_of_singleton. intros [Hq| ->].
      * assert (Hqp : q ≠ p) by (apply Hne; set_solver). rewrite set_weight by done.
        eapply loaded_other; [by apply O|by apply I7].
      * rewrite fn_lookup_insert. destruct Hm as [_ Hc Hd]. eexists c, _, h. split; [by split|]. done.
    + intros q. rewrite R5. intros Hq. eapply idle_other; [apply O, Hne; set_solver|by apply I8].
    + congruence.
    + by rewrite R1.
    + rewrite R2, R1, I11. apply Permutation_length in Hact. lia.
    + by rewrite R7.
    + rewrite R5. apply Permutation_length in Hact. lia.
    + apply (framed_step p _ _ _ _ I14); [by rewrite R5, <- Hact|unfold active; simpl; constructor|done|done].
  - unfold work. rewrite R1, J1, length_app, <- (sum_perm _ _ _ Hact). unfold active. cbn [app sum_list_with]. rewrite fn_lookup_insert.
    rewrite (sum_ext (<[p := h + 1]> wt) wt); [simpl; lia|]. intros q Hq. apply set_weight, Hne. set_solver.
Qed.

(** The context that ran has answered. *)
Lemma searching_finished wt p R s s' key :
  searching wt (p :: R) s → finished p key (find key) s s' → 0 < wt p →
  searching wt R s' ∧ work wt R s' < work wt (p :: R) s ∧
  admission_contexts_ s' = admission_contexts_ s ∧ blk_ready_contexts s' = blk_ready_contexts s ∧
  request_queue_ s' = request_queue_ s ∧ ∃ l, pending_contexts_ s' = pending_contexts_ s ++ l.
Proof.
  intros [I1 I2 I3 I4 I5 I6 I7 I8 I9 I10 I11 I12 I13 I14] [T [C1 C2] [A1 A2] (R1 & R2 & R3 & R4 & R5 & R6 & R7) O (c & sc & Hm & Ho)] Hw.
  assert (Hact : active (p :: R) s = p :: active R s') by (unfold active; by rewrite R3, R4, R5).
  assert (Hne : ∀ q, q ∈ R ++ admission_contexts_ s ++ blk_ready_contexts s ++ pending_contexts_ s ++ free_search_contexts_ s → q ≠ p).
  { intros q Hq ->. unfold active in I4. simpl in I4. apply list.NoDup_cons in I4 as [I4 _]. apply I4. set_solver. }
  split; [|split; [|split_and!; [done..|exists []; by rewrite app_nil_r]]].
  - split.
    + congruence.
    + apply Hm.
    + congruence.
    + rewrite A2. rewrite Hact in I4. simpl in I4. rewrite <- Permutation_middle. done.
    + congruence.
    + intros q. rewrite R3, R4. intros Hq. assert (Hqp : q ≠ p) by (apply Hne; set_solver).
      destruct (I6 q) as [H|H]; [set_solver|left; by eapply admitted_other; [apply O|]|right; by eapply loaded_other; [apply O|]].
    + intros q. rewrite R5. intros Hq. eapply loaded_other; [apply O, Hne; set_solver|by apply I7].
    + intros q. rewrite A2, elem_of_cons. intros [->|Hq].
      * destruct Hm as [_ Hc Hd]. by exists c, sc.
      * eapply idle_other; [apply O, Hne; set_solver|by apply I8].
    + rewrite C2, A2, I9. simpl. lia.
    + by rewrite R1.
    + rewrite C1, R1, I11, Hact. simpl. lia.
    + destruct I12 as [ks Hks]. exists (ks ++ [key]). by rewrite A1, Hks, fmap_app, app_assoc.
    + rewrite A2. rewrite Hact in I13. simpl in *. lia.
    + apply (framed_step p _ _ _ _ I14); [rewrite A2, Hact; simpl; by rewrite <- Permutation_middle|unfold active; simpl; constructor|done|done].
  - unfold work. rewrite R1, R5, Hact. simpl. lia.
Qed.

(** ** The scheduler *)
Lemma run_searching fuel wt p R s :
  searching wt (p :: R) s →
  tp (run CAPACITY junkE junkK (S (S (S fuel))) p)
    (λ _ s', ∃ wt', searching wt' R s' ∧ work wt' R s' < work wt (p :: R) s ∧
       admission_contexts_ s' = admission_contexts_ s ∧ blk_ready_contexts s' = blk_ready_contexts s ∧
       request_queue_ s' = request_queue_ s ∧ ∃ l, pending_contexts_ s' = pending_contexts_ s ++ l) s.
Proof.
  intros HI. pose proof HI as [I1 I2 _ _ _ I6 _ _ _ _ _ _ _ _].
  destruct (I6 p) as [(c & sc & h & [Hc Hd] & Hst & Ho & Hl & Hw)|(c & sc & h & [Hc Hd] & Hst & Ho & Hb & Hl & Hw)];
    [simpl; constructor| |].
  - pose proof Hl as Hl'. apply leads_unfold in Hl' as (Hin & H0 & _).
    eapply tp_mono; [eapply (visit_total (S fuel) p s c sc); [by split|done|by rewrite I1|done|by rewrite Ho; simpl; lia|by rewrite Ho]|].
    intros o s' Hr. rewrite I1 in Hr.
    destruct (searching_reading wt p R s s' sc h HI Hr Hl) as (H1 & H2 & H3 & H4 & H5 & H6); [lia|]. eauto 10.
  - eapply tp_mono; [eapply (node_total fuel p s c sc h (find (s_key sc))); [by split|done|by rewrite I1|by rewrite I1|done]|].
    intros o s' [Hf|(h' & sc' & -> & Hkey & Hl' & Hr)].
    + destruct (searching_finished wt p R s s' (s_key sc) HI Hf) as (H1 & H2 & H3 & H4 & H5 & H6); [lia|]. eauto 10.
    + rewrite I1 in Hl', Hr. rewrite <- Hkey in Hl'.
      destruct (searching_reading wt p R s s' sc' h' HI Hr Hl') as (H1 & H2 & H3 & H4 & H5 & H6); [lia|]. eauto 10.
Qed.

Lemma run_all_searching fuel ps : ∀ wt R s,
  searching wt (ps ++ R) s →
  tp (run_all CAPACITY junkE junkK (S (S (S fuel))) ps)
    (λ _ s', ∃ wt', searching wt' R s' ∧ work wt' R s' + length ps ≤ work wt (ps ++ R) s ∧
       admission_contexts_ s' = admission_contexts_ s ∧ blk_ready_contexts s' = blk_ready_contexts s ∧
       request_queue_ s' = request_queue_ s ∧ ∃ l, pending_contexts_ s' = pending_contexts_ s ++ l) s.
Proof.
  induction ps as [|p ps IH]; intros wt R s HI; cbn [run_all].
  { apply tp_ret. exists wt. simpl. split_and!; [done|lia|done..|]. exists []. by rewrite app_nil_r. }
  apply tp_bind. eapply tp_mono; [by apply (run_searching fuel wt p (ps ++ R))|]. intros _ s1 (wt1 & H1 & W1 & A1 & B1 & Q1 & l1 & L1).
  apply tp_bind. eapply tp_mono; [by apply (IH wt1 R)|]. intros k s2 (wt2 & H2 & W2 & A2 & B2 & Q2 & l2 & L2).
  apply tp_ret. exists wt2. split_and!; [done|cbn [app length]; lia|congruence..|]. exists (l1 ++ l2). by rewrite L2, L1, app_assoc.
Qed.

(** The order of the queues does not matter, and the scheduler may take
    contexts out of them. *)
Lemma searching_take wt R s s' :
  searching wt [] s →
  R ++ admission_contexts_ s' ++ blk_ready_contexts s' ≡ₚ admission_contexts_ s ++ blk_ready_contexts s →
  pending_contexts_ s' ≡ₚ pending_contexts_ s → pending_ids_ s' = pending_ids_ s →
  tree s' = tree s → manager s' = manager s → free_search_contexts_ s' = free_search_contexts_ s →
  datas s' = datas s → free_context_slots_ s' = free_context_slots_ s → request_queue_ s' = request_queue_ s →
  pending_request_ s' = pending_request_ s → answers s' = answers s → free_insert_contexts_ s' = free_insert_contexts_ s →
  searching wt R s' ∧ work wt R s' = work wt [] s.
Proof.
  intros [I1 I2 I3 I4 I5 I6 I7 I8 I9 I10 I11 I12 I13 I14] Hr Ep Ei Et Em Ef Ed Es Eq En Ean Efi.
  assert (Ho : ∀ q, ctxs s' !! q = ctxs s !! q ∧ datas s' !! q = datas s !! q) by (unfold ctxs; by rewrite Em, Ed).
  assert (Ha : active R s' ≡ₚ active [] s).
  { unfold active. simpl. rewrite !(assoc_L (++)), <- (assoc_L (++) R), Hr, Ep. done. }
  split.
  - split; rewrite ?Et, ?Em, ?Ef, ?Ei, ?Es, ?Eq, ?En, ?Ean; auto.
    + by rewrite Ha.
    + by rewrite Ep.
    + intros q. rewrite Hr. intros Hq. destruct (I6 q Hq) as [H|H];
        [left; by eapply admitted_other|right; by eapply loaded_other].
    + intros q. rewrite Ep. intros Hq. eapply loaded_other; [apply Ho|by apply I7].
    + intros q Hq. eapply idle_other; [apply Ho|by apply I8].
    + by rewrite Ha.
    + by rewrite Ha.
    + destruct I14 as (F1 & F2 & F3). split; [congruence|]. split; [by rewrite Ha, Ef|]. intros q. rewrite Ha, Ef. intros Hq. destruct (Ho q) as [-> ->]. by apply F3.
  - unfold work. rewrite Eq. apply Permutation_length in Ep. by rewrite (sum_perm _ _ _ Ha), Ep.
Qed.

Lemma process_new_searching fuel wt s :
  searching wt [] s →
  tp (process_new_context CAPACITY junkE junkK (S (S (S fuel))) process_granularity)
    (λ _ s', ∃ wt', searching wt' [] s' ∧ work wt' [] s' + length (admission_contexts_ s) ≤ work wt [] s ∧
       admission_contexts_ s' = [] ∧ blk_ready_contexts s' = blk_ready_contexts s ∧
       ∃ l, pending_contexts_ s' = pending_contexts_ s ++ l) s.
Proof.
  intros HI. unfold process_new_context. do 3 (apply tp_bind, tp_get).
  change (take_ready false process_granularity ?cs ?l) with (l, @nil nat). apply tp_bind, tp_modify.
  destruct (searching_take wt (admission_contexts_ s) s (with_admission [] (context_id_generator_ s) s) HI) as [H1 W1];
    [done..|].
  rewrite <- (app_nil_r (admission_contexts_ s)) in H1, W1.
  eapply tp_mono; [eapply run_all_searching; exact H1|]. intros k s2 (wt2 & H2 & W2 & A2 & B2 & _ & L2).
  exists wt2. split_and!; [done|lia|done|done|done].
Qed.

Lemma process_blk_ready_searching fuel wt s :
  searching wt [] s →
  tp (process_blk_ready_context CAPACITY junkE junkK (S (S (S fuel))) process_granularity true)
    (λ _ s', ∃ wt', searching wt' [] s' ∧ work wt' [] s' + length (blk_ready_contexts s) ≤ work wt [] s ∧
       blk_ready_contexts s' = [] ∧ admission_contexts_ s' = admission_contexts_ s ∧
       ∃ l, pending_contexts_ s' = pending_contexts_ s ++ l) s.
Proof.
  intros HI. unfold process_blk_ready_context. do 2 (apply tp_bind, tp_get).
  change (take_ready true process_granularity ?cs ?l) with (merge_sort (context_le cs) l, @nil nat). apply tp_bind, tp_modify.
  set (l := merge_sort _ (blk_ready_contexts s)).
  assert (Hl : l ≡ₚ blk_ready_contexts s) by apply merge_sort_Permutation.
  destruct (searching_take wt l s (with_io (pending_contexts_ s) (pending_ids_ s) [] s) HI) as [H1 W1];
    [simpl; rewrite app_nil_r, Hl; solve_Permutation|done..|].
  rewrite <- (app_nil_r l) in H1, W1.
  eapply tp_mono; [eapply run_all_searching; exact H1|]. intros k s2 (wt2 & H2 & W2 & A2 & B2 & _ & L2).
  exists wt2. apply Permutation_length in Hl. split_and!; [done|lia|done|done|done].
Qed.

(** No context waits for a barrier, so none gets one later. *)
Lemma process_barrier_ready_searching fuel wt s :
  searching wt [] s →
  tp (process_barrier_ready_context CAPACITY junkE junkK fuel process_granularity true)
    (λ _ s', s' = s) s.
Proof. intros HI. apply process_barrier_ready_none, HI. Qed.

(** ** Completion *)
(** A read completes: its context is ready. *)
Lemma searching_completes wt p l s s' c c' sc :
  searching wt [] s → pending_contexts_ s = l ++ [p] → holds p s c sc → current_state c' = next_state c →
  obtained_barriers_ c' = obtained_barriers_ c → mine_at settled p s' c' sc →
  pending_contexts_ s' = l → length (pending_ids_ s') = length l → blk_ready_contexts s' = blk_ready_contexts s ++ [p] →
  tree s' = tree s → request_queue_ s' = request_queue_ s → pending_request_ s' = pending_request_ s →
  free_context_slots_ s' = free_context_slots_ s → free_search_contexts_ s' = free_search_contexts_ s →
  admission_contexts_ s' = admission_contexts_ s → answers s' = answers s → free_insert_contexts_ s' = free_insert_contexts_ s →
  ready_contexts_ (wd (manager s')) = ready_contexts_ (wd (manager s)) →
  (∀ q, q ≠ p → ctxs s' !! q = ctxs s !! q ∧ datas s' !! q = datas s !! q) →
  searching wt [] s' ∧ work wt [] s = S (work wt [] s').
Proof.
  intros [I1 I2 I3 I4 I5 I6 I7 I8 I9 I10 I11 I12 I13 I14] Ep [Hc Hd] Est Eob [M1 M2 M3] Jp Ji Jb Jt Jq Jn Js Jf Ja Jw Ji' Jr O.
  assert (Ha : active [] s' ≡ₚ active [] s).
  { unfold active. rewrite Ja, Jb, Jp, Ep. solve_Permutation. }
  assert (Hne : ∀ q, q ∈ admission_contexts_ s ++ blk_ready_contexts s ++ l ++ free_search_contexts_ s → q ≠ p).
  { intros q Hq ->. unfold active in I4. rewrite Ep in I4. simpl in I4.
    assert (Hp : admission_contexts_ s ++ blk_ready_contexts s ++ (l ++ [p]) ≡ₚ
      p :: admission_contexts_ s ++ blk_ready_contexts s ++ l) by solve_Permutation.
    rewrite Hp in I4. simpl in I4. apply list.NoDup_cons in I4 as [I4 _]. apply I4. set_solver. }
  split.
  - split; rewrite ?Jt, ?Jr, ?Jf, ?Js, ?Jq, ?Jn, ?Jw; auto.
    + by rewrite Ha.
    + by rewrite Ji, Jp.
    + intros q. rewrite Ja, Jb. simpl. rewrite !elem_of_app, list_elem_of_singleton. intros Hq.
      destruct (decide (q = p)) as [->|Hqp].
      * right. destruct (I7 p) as (c0 & sc0 & h & [Hc0 Hd0] & Hn & Ho & Hb & Hl & Hw); [rewrite Ep; set_solver|].
        rewrite Hc in Hc0. rewrite Hd in Hd0. simplify_eq. exists c', sc0, h. split; [by split|].
        split_and!; [congruence|congruence|done..].
      * destruct (I6 q) as [H|H]; [set_solver|left; by eapply admitted_other; [apply O|]|right; by eapply loaded_other; [apply O|]].
    + intros q. rewrite Jp. intros Hq. eapply loaded_other; [apply O, Hne; set_solver|]. apply I7. rewrite Ep. set_solver.
    + intros q Hq. eapply idle_other; [apply O, Hne; set_solver|by apply I8].
    + by rewrite Ha.
    + by rewrite Ha.
    + apply (framed_step p _ _ _ _ I14); [by rewrite Ha, Jf|unfold active; rewrite Ep; set_solver|done|done].
  - unfold work. rewrite Jq, Jp, Ep, length_app, (sum_perm _ _ _ Ha). simpl. lia.
Qed.

Lemma completion_searching k : ∀ wt s,
  searching wt [] s →
  tp (completion_loop k)
    (λ _ s', searching wt [] s' ∧ work wt [] s' ≤ work wt [] s ∧
       (0 < k → pending_contexts_ s ≠ [] → work wt [] s' < work wt [] s)) s.
Proof.
  induction k as [|k IH]; intros wt s HI; cbn [completion_loop].
  { apply tp_ret. split_and!; [done|lia|lia]. }
  do 2 (apply tp_bind, tp_get). destruct (list.last (pending_contexts_ s)) as [p|] eqn:El.
  2: { apply tp_ret. apply last_None in El. done. }
  apply last_Some in El as [l Ep]. pose proof (si_ids _ _ _ HI) as Hids. rewrite Ep, length_app in Hids. simpl in Hids.
  destruct (list.last (pending_ids_ s)) as [ty|] eqn:Ei.
  2: { apply last_None in Ei. rewrite Ei in Hids. simpl in Hids. lia. }
  apply last_Some in Ei as [li Ei]. apply tp_bind. eapply tp_require; [done|]. apply tp_bind, tp_modify.
  destruct (si_waits _ _ _ HI p) as (c & sc & h & Hh & Hn & Hrest); [rewrite Ep; set_solver|].
  match goal with |- tp _ _ ?x => set (s0 := x) end.
  assert (H0 : mine_at settled p s0 c sc) by (destruct Hh; split; [apply HI|done|done]).
  apply tp_bind. eapply tp_update; [exact H0|reflexivity|reflexivity|]. intros s1 S1 H1.
  apply tp_bind. eapply tp_transition; [exact H1|simpl; lia|]. intros s2 S2 H2. apply tp_bind, tp_modify.
  match goal with |- tp _ _ ?x => set (s3 := x) end.
  pose proof (same_but_trans _ _ _ _ _ _ S1 S2) as [T (R1 & R2 & R3 & R4 & R5 & R6 & R7 & R8 & R9) [J1 J2] O].
  simpl in *. rewrite app_nil_r in J1, J2. rewrite Ep, removelast_last in J1. rewrite Ei, removelast_last in J2.
  rewrite Ei, length_app in Hids. simpl in Hids.
  assert (H3 : searching wt [] s3 ∧ work wt [] s = S (work wt [] s3)).
  { destruct H2 as [G1 G2 G3].
    match type of G2 with _ = Some ?c' => apply (searching_completes wt p l s s3 c c' sc HI Ep Hh) end;
      try done; [simpl; rewrite J2; lia|simpl; by rewrite R8]. }
  destruct H3 as [H3 W3].
  apply tp_bind. eapply tp_mono; [by apply (IH wt s3)|].
  intros x s4 (H4 & W4 & _). apply tp_ret. split_and!; [done|lia|lia].
Qed.

Lemma process_completion_searching shuffle max wt s :
  (∀ l, shuffle l ≡ₚ l) → searching wt [] s →
  tp (process_completion shuffle max)
    (λ _ s', searching wt [] s' ∧ work wt [] s' ≤ work wt [] s ∧ (pending_contexts_ s ≠ [] → work wt [] s' < work wt [] s)) s.
Proof.
  intros Hsh HI. unfold process_completion. apply tp_bind, tp_modify.
  match goal with |- tp _ _ ?x => set (s1 := x) end.
  destruct (searching_take wt [] s s1 HI) as [H1 W1]; [done|apply Hsh|done..|].
  apply tp_bind, tp_get. rewrite <- W1. eapply tp_mono; [by apply completion_searching|].
  intros x s2 (H2 & W2 & D2). split_and!; [done|done|]. intros Hp.
  assert (Hl : length (shuffle (pending_contexts_ s)) = length (pending_contexts_ s)) by (by apply Permutation_length, Hsh).
  apply D2; simpl.
  - rewrite Hl. destruct (Nat.eqb_spec max 0); [|lia]. destruct (pending_contexts_ s); [done|simpl; lia].
  - intros E. rewrite E in Hl. by destruct (pending_contexts_ s).
Qed.

(** ** Admission *)
Lemma searching_admits wt p rest key rq s s' c c' sc :
  searching wt [] s → request_queue_ s = SEARCH_REQUEST key :: rq → free_search_contexts_ s = p :: rest →
  holds p s c sc → obtained_barriers_ c' = obtained_barriers_ c → current_state c' = 0%Z →
  mine_at settled p s' c' (mk_search key (root_ t) (s_buffer_ sc)) →
  pending_contexts_ s' = pending_contexts_ s → pending_ids_ s' = pending_ids_ s →
  blk_ready_contexts s' = blk_ready_contexts s →
  tree s' = tree s → request_queue_ s' = rq → pending_request_ s' = pending_request_ s →
  free_context_slots_ s' = (free_context_slots_ s - 1)%Z → free_search_contexts_ s' = rest →
  admission_contexts_ s' = admission_contexts_ s ++ [p] → answers s' = answers s → free_insert_contexts_ s' = free_insert_contexts_ s →
  ready_contexts_ (wd (manager s')) = ready_contexts_ (wd (manager s)) →
  (∀ q, q ≠ p → ctxs s' !! q = ctxs s !! q ∧ datas s' !! q = datas s !! q) →
  searching (<[p := height + 2]> wt) [] s' ∧ work (<[p := height + 2]> wt) [] s' < work wt [] s.
Proof using Hfind.
  intros [I1 I2 I3 I4 I5 I6 I7 I8 I9 I10 I11 I12 I13 I14] Eq Ef [Hc Hd] Eob Est [M1 M2 M3] Jp Ji Jb Jt Jq Jn Js Jf Ja Jw Ji' Jr O.
  assert (Ha : active [] s' ≡ₚ p :: active [] s).
  { unfold active. rewrite Ja, Jb, Jp. solve_Permutation. }
  assert (Hne : ∀ q, q ∈ admission_contexts_ s ++ blk_ready_contexts s ++ pending_contexts_ s ++ rest → q ≠ p).
  { intros x Hx ->. unfold active in I4. rewrite Ef in I4. simpl in I4.
    rewrite <- Permutation_middle in I4. apply list.NoDup_cons in I4 as [I4 _]. apply I4. set_solver. }
  destruct (I8 p) as (c0 & sc0 & [Hc0 Hd0] & Ho0); [rewrite Ef; constructor|].
  rewrite Hc in Hc0. simplify_eq.
  split.
  - split; rewrite ?Jt, ?Jr, ?Js, ?Jn, ?Jw; auto.
    + rewrite Ha. rewrite Ef in I4. simpl. by rewrite Permutation_middle.
    + by rewrite Ji, Jp.
    + intros x. rewrite Ja, Jb. simpl. rewrite !elem_of_app, list_elem_of_singleton. intros Hx.
      destruct (decide (x = p)) as [->|Hxp].
      * left. rewrite fn_lookup_insert. exists c', (mk_search key (root_ t) (s_buffer_ sc)), height. split; [by split|].
        split_and!; [done|congruence|apply Hfind|done].
      * rewrite set_weight by done.
        destruct (I6 x) as [H|H]; [set_solver|left; by eapply admitted_other; [apply O|]|right; by eapply loaded_other; [apply O|]].
    + intros x. rewrite Jp. intros Hx. assert (Hxp : x ≠ p) by (apply Hne; set_solver).
      rewrite set_weight by done. eapply loaded_other; [by apply O|by apply I7].
    + intros x Hx. eapply idle_other; [apply O, Hne; set_solver|apply I8; rewrite Ef; set_solver].
    + rewrite I9, Ef. simpl. lia.
    + intros r Hr. apply I10. rewrite Eq. by constructor.
    + rewrite I11, Eq, Ha. simpl. lia.
    + rewrite Ha. rewrite Ef in I13. simpl in *. lia.
    + apply (framed_step p _ _ _ _ I14); [rewrite Ha, Ef; simpl; by rewrite <- Permutation_middle|rewrite Ef; set_solver|done|done].
  - unfold work. rewrite Eq, Jp, (sum_perm _ _ _ Ha). cbn [sum_list_with length]. rewrite fn_lookup_insert.
    rewrite (sum_ext (<[p := height + 2]> wt) wt); [lia|].
    intros x Hx. apply set_weight, Hne. unfold active in Hx. set_solver.
Qed.

Lemma admit_searching wt p rest key rq s :
  searching wt [] s → request_queue_ s = SEARCH_REQUEST key :: rq → free_search_contexts_ s = p :: rest →
  tp (admit_request (SEARCH_REQUEST key))
    (λ _ s', ∃ wt', searching wt' [] s' ∧ work wt' [] s' < work wt [] s ∧
       free_context_slots_ s' = (free_context_slots_ s - 1)%Z ∧
       blk_ready_contexts s' = blk_ready_contexts s ∧ pending_contexts_ s' = pending_contexts_ s ∧
       ∃ l, admission_contexts_ s' = admission_contexts_ s ++ l) (with_requests rq (pending_request_ s) s).
Proof using Hfind.
  intros HI Eq Ef. destruct (si_free _ _ _ HI p) as (c & sc & Hh & Ho); [rewrite Ef; constructor|].
  unfold admit_request. apply tp_bind, tp_get. apply tp_bind, tp_bind.
  match goal with |- tp _ _ ?x => set (s0 := x) end.
  set (s1 := with_pools (free_context_slots_ s) (free_insert_contexts_ s) rest s0).
  eexists p, s1. split; [unfold get_free_search_context; simpl; by rewrite Ef|].
  assert (H1 : mine_at settled p s1 c sc) by (destruct Hh; split; [apply HI|done|done]).
  apply tp_bind. eapply tp_get_search; [exact H1|]. apply tp_bind. eapply tp_put_search; [exact H1|].
  intros s2 S2 H2. apply tp_ret. apply tp_bind, tp_get. apply tp_bind.
  eapply tp_update; [exact H2|reflexivity|reflexivity|]. intros s3 S3 H3. apply tp_bind, tp_modify, tp_modify.
  pose proof (same_but_trans _ _ _ _ _ _ S2 S3) as [T (R1 & R2 & R3 & R4 & R5 & R6 & R7 & R8 & R9) [J1 J2] O].
  simpl in *. rewrite app_nil_r in J1, J2. rewrite (si_tree _ _ _ HI) in H3.
  exists (<[p := height + 2]> wt). match goal with |- searching _ _ ?x ∧ _ => set (s4 := x) end.
  assert (H4 : searching (<[p := height + 2]> wt) [] s4 ∧ work (<[p := height + 2]> wt) [] s4 < work wt [] s).
  { destruct H3 as [G1 G2 G3].
    match type of G2 with _ = Some ?c' => apply (searching_admits wt p rest key rq s s4 c c' sc HI Eq Ef Hh) end;
      try done; simpl; congruence. }
  destruct H4 as [H4 W4]. split_and!; [done|done|simpl; congruence|done|done|]. exists [p]. simpl. congruence.
Qed.

Lemma admission_searching max : ∀ wt s,
  searching wt [] s →
  tp (admission_loop max (free_context_slots_ s))
    (λ _ s', ∃ wt', searching wt' [] s' ∧ work wt' [] s' ≤ work wt [] s ∧
       (0 < max → request_queue_ s ≠ [] → free_search_contexts_ s ≠ [] → work wt' [] s' < work wt [] s) ∧
       blk_ready_contexts s' = blk_ready_contexts s ∧ pending_contexts_ s' = pending_contexts_ s ∧
       ∃ l, admission_contexts_ s' = admission_contexts_ s ++ l) s.
Proof using Hfind.
  induction max as [|max IH]; intros wt s HI; cbn [admission_loop].
  { apply tp_ret. exists wt. split_and!; [done|lia|lia|done|done|]. exists []. by rewrite app_nil_r. }
  pose proof (si_slots _ _ _ HI) as Hs. destruct (free_search_contexts_ s) as [|p rest] eqn:Ef.
  { rewrite Hs. simpl. apply tp_ret. exists wt. split_and!; [done|lia|done|done|done|]. exists []. by rewrite app_nil_r. }
  rewrite (proj2 (Z.eqb_neq _ _)) by (rewrite Hs; simpl; lia). apply tp_bind.
  destruct (request_queue_ s) as [|r rq] eqn:Eq.
  { exists None, s. unfold atomic_dequeue_request. rewrite Eq. split; [done|]. apply tp_ret.
    exists wt. split_and!; [done|lia|done|done|done|]. exists []. by rewrite app_nil_r. }
  exists (Some r), (with_requests rq (pending_request_ s) s). split; [unfold atomic_dequeue_request; by rewrite Eq|].
  destruct (si_requests _ _ _ HI r) as [key ->]; [rewrite Eq; constructor|].
  apply tp_bind. eapply tp_mono; [by eapply admit_searching|].
  intros _ s1 (wt1 & H1 & W1 & F1 & B1 & P1 & l1 & L1). apply tp_bind. rewrite <- F1.
  eapply tp_mono; [by apply (IH wt1)|]. intros k s2 (wt2 & H2 & W2 & _ & B2 & P2 & l2 & L2).
  apply tp_ret. exists wt2. split_and!; [done|lia|lia|congruence|congruence|].
  exists (l1 ++ l2). by rewrite L2, L1, app_assoc.
Qed.

(** ** Rounds *)
(** Both schedulers start a round by admitting requests and running the new
    contexts and those whose blocks have arrived. *)
Lemma round_starts fuel wt s (C : cmd unit) Q :
  0 < n → searching wt [] s →
  (∀ wt' s', searching wt' [] s' → work wt' [] s' ≤ work wt [] s →
     ((0 < pending_request_ s)%Z → pending_contexts_ s' ≠ [] ∨ work wt' [] s' < work wt [] s) → tp C Q s') →
  tp (_ ← admission process_granularity;
      _ ← process_new_context CAPACITY junkE junkK (S (S (S fuel))) process_granularity;
      _ ← process_blk_ready_context CAPACITY junkE junkK (S (S (S fuel))) process_granularity true; C) Q s.
Proof using Hfind.
  intros Hn HI HQ. unfold admission. apply tp_bind, tp_bind, tp_get.
  eapply tp_mono; [by apply (admission_searching process_granularity wt)|].
  intros k1 s1 (wt1 & H1 & W1 & D1 & B1 & P1 & l1 & L1). apply tp_bind.
  eapply tp_mono; [by apply (process_new_searching fuel wt1)|].
  intros k2 s2 (wt2 & H2 & W2 & A2 & B2 & l2 & L2). apply tp_bind.
  eapply tp_mono; [by apply (process_blk_ready_searching fuel wt2)|].
  intros k3 s3 (wt3 & H3 & W3 & B3 & A3 & l3 & L3). apply (HQ wt3); [done|lia|]. intros Hreq.
  destruct (decide (pending_contexts_ s = [])) as [Hp|Hp].
  2: { left. rewrite L3, L2, P1. intros [[E _]%app_nil _]%app_nil. done. }
  right. rewrite (si_pending _ _ _ HI) in Hreq. pose proof (si_count _ _ _ HI) as Hc.
  unfold active in Hreq, Hc. rewrite Hp, app_nil_r in Hreq, Hc. simpl in Hreq, Hc. rewrite length_app in Hreq, Hc.
  rewrite L1, length_app in W2. rewrite B2, B1 in W3.
  destruct (decide (length (admission_contexts_ s) + length (blk_ready_contexts s) = 0)) as [E0|]; [|lia].
  enough (work wt1 [] s1 < work wt [] s) by lia. apply D1; [unfold process_granularity; lia| |].
  - intros Eq. rewrite Eq in Hreq. simpl in Hreq. lia.
  - intros Ef. rewrite Ef in Hc. simpl in Hc. lia.
Qed.

(** A round returns, and a round that polls does some of the work. *)
Lemma round_searching fuel r wt s :
  round_ok r → 0 < n → searching wt [] s →
  tp (do_round (S (S (S fuel))) r)
    (λ _ s', ∃ wt', searching wt' [] s' ∧ work wt' [] s' ≤ work wt [] s ∧
       (polls r = true → (0 < pending_request_ s)%Z → work wt' [] s' < work wt [] s)) s.
Proof using Hfind.
  intros Hr Hn HI. destruct r as [f|f b]; simpl in Hr |- *; unfold naive_round, latency_aware_round;
    apply (round_starts fuel wt); [done|done| |done|done|]; intros wt1 s1 H1 W1 D1.
  - apply tp_bind. eapply tp_mono; [by apply (process_completion_searching f 0 wt1)|]. intros k s2 (H2 & W2 & D2).
    apply tp_bind. eapply tp_mono; [by eapply process_barrier_ready_searching|]. intros k' s3 ->. apply tp_ret.
    exists wt1. split_and!; [done|lia|]. intros _ Hq. destruct (D1 Hq) as [Hp|]; [specialize (D2 Hp)|]; lia.
  - apply tp_bind. eapply tp_mono; [by eapply process_barrier_ready_searching|]. intros k s2 ->.
    destruct b; [|apply tp_ret; by exists wt1].
    apply tp_bind. eapply tp_mono; [by apply (process_completion_searching f probe_granularity wt1)|]. intros k' s2 (H2 & W2 & D2).
    apply tp_ret. exists wt1. split_and!; [done|lia|]. intros _ Hq. destruct (D1 Hq) as [Hp|]; [specialize (D2 Hp)|]; lia.
Qed.

(** Without work all requests are answered. *)
Lemma no_work wt s : 0 < n → searching wt [] s → work wt [] s = 0 → pending_request_ s = 0%Z.
Proof using Hfind.
  intros Hn HI Hw. destruct (decide (pending_request_ s = 0%Z)) as [|Hne]; [done|].
  destruct (round_searching 0 (Naive (λ l, l)) wt s) as (x & s' & _ & wt' & _ & _ & H); [by intros l|done|done|].
  pose proof (si_pending _ _ _ HI). specialize (H eq_refl ltac:(lia)). lia.
Qed.

(** ** Schedules *)
Local Abbreviation exec := exec_events.

Lemma polling_cons r rs : polling (r :: rs) = (if polls r then 1 else 0) + polling rs.
Proof. unfold polling. rewrite filter_cons. destruct (polls r); by case_decide. Qed.

(** The rounds that do the work answer every request. *)
Lemma rounds_searching fuel rs : ∀ wt s,
  Forall round_ok rs → 0 < n → searching wt [] s →
  (work wt [] s ≤ polling rs ∨ pending_request_ s = 0%Z) →
  ∃ s' wt', exec (S (S (S fuel))) (Round <$> rs) s = Some s' ∧ searching wt' [] s' ∧ pending_request_ s' = 0%Z.
Proof using Hfind.
  induction rs as [|r rs IH]; intros wt s Hf Hn HI Hw.
  { exists s, wt. split_and!; [done|done|]. destruct Hw as [Hw|]; [|done]. eapply no_work; [done..|]. unfold polling in Hw. simpl in Hw. lia. }
  apply Forall_cons_iff in Hf as [Hf Hfs].
  destruct (round_searching fuel r wt s Hf Hn HI) as ([] & s1 & E1 & wt1 & H1 & W1 & D1).
  simpl. rewrite E1. simpl. apply (IH wt1); [done..|]. rewrite polling_cons in Hw. pose proof (si_pending _ _ _ HI) as Hpr.
  destruct (decide (pending_request_ s = 0%Z)) as [H0|Hne].
  - right. assert (W0 : work wt [] s = 0).
    { rewrite Hpr in H0. unfold work. destruct (request_queue_ s); [|simpl in H0; lia].
      destruct (active [] s) eqn:Ea; [|simpl in H0; lia]. unfold active in Ea. simpl in Ea. apply app_nil in Ea as [_ [_ ->]%app_nil]. done. }
    eapply no_work; [done..|]. lia.
  - left. destruct Hw as [Hw|]; [|done]. destruct (polls r); [specialize (D1 eq_refl ltac:(lia))|]; lia.
Qed.

(** The machine stays [searching] whatever searches arrive. *)
Lemma events_searching fuel events : ∀ wt s,
  Forall event_ok events → 0 < n → searching wt [] s →
  ∃ s' wt', exec (S (S (S fuel))) events s = Some s' ∧ searching wt' [] s' ∧
    work wt' [] s' ≤ work wt [] s + 2 * (length (asked events) * (height + 3)).
Proof using Hfind.
  induction events as [|[key|r] events IH]; intros wt s Hev Hn HI.
  { exists s, wt. simpl. split_and!; [done|done|lia]. }
  - apply Forall_cons_iff in Hev as [_ Hev].
    set (s1 := with_requests (request_queue_ s ++ [SEARCH_REQUEST key]) (pending_request_ s + 1) s).
    assert (H1 : searching wt [] s1).
    { destruct HI as [I1 I2 I3 I4 I5 I6 I7 I8 I9 I10 I11 I12 I13 I14]. split; try done.
      - intros r. simpl. rewrite elem_of_app, list_elem_of_singleton. intros [Hr| ->]; [by apply I10|by exists key].
      - simpl. rewrite I11, length_app. simpl. unfold active. simpl. lia. }
    destruct (IH wt s1 Hev Hn H1) as (s2 & wt2 & E2 & H2 & W2). exists s2, wt2. split_and!; [done|done|].
    assert (Hw : work wt [] s1 = work wt [] s + 2 * (height + 3)).
    { unfold work, s1. simpl. rewrite length_app. simpl. unfold active. simpl. lia. }
    simpl. lia.
  - apply Forall_cons_iff in Hev as [Hf Hev].
    destruct (round_searching fuel r wt s Hf Hn HI) as ([] & s1 & E1 & wt1 & H1 & W1 & D1).
    destruct (IH wt1 s1 Hev Hn H1) as (s2 & wt2 & E2 & H2 & W2). exists s2, wt2.
    split_and!; [simpl; by rewrite E1|done|]. simpl. lia.
Qed.

(** At the start all contexts are free. *)
Lemma start_data_at k i :
  i < k → concat (replicate k [CInsert new_insert_context; CSearch (mk_search 0 (-1) None)]) !! (2 * i + 1)
    = Some (CSearch (mk_search 0 (-1) None)).
Proof.
  revert i. induction k as [|k IH]; intros i Hi; [lia|]. destruct i as [|i]; [done|].
  replace (2 * S i + 1) with (S (S (2 * i + 1))) by lia. simpl concat. cbn [lookup list_lookup app]. apply IH. lia.
Qed.

Lemma start_searching wt : sb = new_pull_tree n t → searching wt [] (new_pull_tree n t).
Proof.
  intros Hsb. assert (Hlen : ∀ k, length (concat (replicate k [CInsert new_insert_context; CSearch (mk_search 0 (-1) None)])) = 2 * k).
  { induction k as [|k IH]; [done|]. simpl in *. lia. }
  pose proof (new_pull_tree_inv n t) as HI. split; try done.
  - split; [apply HI|]. split.
    + intros q. apply waits_zero. intros i b ty Hb. unfold barrier_at in Hb. simpl in Hb. by destruct (i <? 0)%Z.
    + intros i. unfold held. simpl. induction (length _) as [|k IH]; [done|]. simpl. by rewrite IH.
  - unfold active. simpl. rewrite <- Permutation_rev. apply NoDup_fmap_2; [intros x y; lia|apply NoDup_seq].
  - intros q Hq. by apply elem_of_nil in Hq.
  - intros q Hq. by apply elem_of_nil in Hq.
  - intros q Hq. simpl in Hq. rewrite <- Permutation_rev in Hq. apply list_elem_of_fmap in Hq as (i & -> & Hi).
    apply elem_of_seq in Hi. exists new_context, (mk_search 0 (-1) None). split; [|done]. split.
    + unfold ctxs. simpl. rewrite Hlen. apply lookup_replicate. split; [done|]. lia.
    + simpl. apply start_data_at. lia.
  - simpl. rewrite length_rev, length_fmap, length_seq. done.
  - intros r Hr. by apply elem_of_nil in Hr.
  - exists []. by rewrite Hsb.
  - simpl. by rewrite length_rev, length_fmap, length_seq.
  - unfold framed. by rewrite Hsb.
Qed.

Lemma start_work wt : work wt [] (new_pull_tree n t) = 0.
Proof. done. Qed.

End machine.

(** ** Reachability *)
Lemma do_round_reach n t fuel r rs s s' :
  reach CAPACITY junkE junkK n t rs s → round_ok r → do_round fuel r s = Some (tt, s') →
  reach CAPACITY junkE junkK n t rs s'.
Proof.
  intros Hr Hok E. destruct r as [f|f b]; simpl in *; [by eapply (reach_naive _ _ _ _ _ rs fuel f)|].
  by eapply (reach_latency_aware _ _ _ _ _ rs fuel f b).
Qed.

Lemma exec_events_reach n t fuel events : ∀ rs s s',
  reach CAPACITY junkE junkK n t rs s → Forall event_ok events → exec_events fuel events s = Some s' →
  reach CAPACITY junkE junkK n t (rs ++ (SEARCH_REQUEST <$> asked events)) s'.
Proof.
  induction events as [|[key|r] events IH]; intros rs s s' Hr Hev E; simpl in E.
  - simplify_eq. by rewrite app_nil_r.
  - apply Forall_cons_iff in Hev as [_ Hev].
    destruct (asynchronous_with_callback (SEARCH_REQUEST key) s) as [[b s1]|] eqn:E1; [|done]. simpl in E.
    apply (IH (rs ++ [SEARCH_REQUEST key])) in E; [by rewrite <- app_assoc in E|by eapply reach_request|done].
  - apply Forall_cons_iff in Hev as [Hf Hev].
    destruct (do_round fuel r s) as [[[] s1]|] eqn:E1; [|done]. simpl in E.
    apply (IH rs) in E; [done|by eapply do_round_reach|done].
Qed.

Lemma exec_events_app fuel l1 l2 s :
  exec_events fuel (l1 ++ l2) s = s' ← exec_events fuel l1 s; exec_events fuel l2 s'.
Proof.
  revert s. induction l1 as [|[key|r] l1 IH]; intros s; simpl; [done|apply IH|].
  destruct (do_round fuel r s) as [[[] s1]|]; [|done]. simpl. apply IH.
Qed.

Lemma asked_app l1 l2 : asked (l1 ++ l2) = asked l1 ++ asked l2.
Proof. induction l1 as [|[key|f] l1 IH]; simpl; [done|by rewrite IH|done]. Qed.
Lemma asked_rounds fs : asked (Round <$> fs) = [].
Proof. by induction fs. Qed.

End search.

(** ** The ways of a tree *)
Section ways.
Context {A : Type} `{!Allocator A} `{!AllocatorLaws A}.
Context (CAPACITY : nat) (junkE : list (Z * Z)) (junkK : list Z).
Context (Hpar : params_ok CAPACITY junkE junkK).
Implicit Types (st : tree_state A).

Lemma load_block id st n :
  load CAPACITY junkE junkK id st = Some n →
  ∃ b, blocks st !! id = Some b ∧ deserialize CAPACITY junkE junkK b = Some n.
Proof.
  unfold load, ref_get. simpl. destruct (id <? 0)%Z; [done|]. destruct (blocks st !! id) as [b|]; [|done]. simpl.
  destruct (deserialize _ _ _ b) as [nd|] eqn:E; [|done]. simpl. intros [= ->]. by exists b.
Qed.

Lemma rep_leads h : ∀ st k id lo hi f nx l ids,
  below hi k → rep CAPACITY h (blocks st) id lo hi f nx l ids → (∀ j, j ∈ ids → j ∈ in_use (alloc st)) →
  leads CAPACITY junkE junkK st h k id (kv_find k l).
Proof using Hpar AllocatorLaws0.
  induction h as [|h IH]; intros st k id lo hi f nx l ids Hbk Hrep Hids;
    destruct (rep_loadable CAPACITY junkE junkK Hpar _ _ _ _ _ _ _ _ _ Hrep) as [nd Hload];
    destruct (load_block _ _ _ Hload) as (b & Hb & Hd).
  { destruct (load_rep_0 CAPACITY junkE junkK Hpar _ _ _ _ _ _ _ _ _ Hrep Hload) as (_ & -> & H0 & _ & _ & n0 & -> & Hwf & <- & _).
    apply leads_unfold. split_and!; [apply Hids; constructor|done|]. exists b, (NLeaf n0). split_and!; [done|done|].
    by eapply LeafNode.search_live. }
  destruct (load_rep_S CAPACITY junkE junkK Hpar _ _ _ _ _ _ _ _ _ _ Hrep Hload)
    as (i & ids' & -> & Hwf & Hself & _ & _ & Hne & -> & H0 & Hw & HR).
  pose proof Hwf as (_ & _ & _ & Hs).
  apply leads_unfold. split_and!; [apply Hids; constructor|done|]. exists b, (NInner i). split_and!; [done|done|].
  destruct (locate_cases CAPACITY i k Hwf) as
    [[Hloc Hlt]|(index & pre & kt & c & post & Hloc & Hi0 & Hpre & Hc & Hl & Hle & Hp)];
    eexists; (split; [exact Hloc|]).
  - simpl. apply kv_find_missing. intros Hin.
    eapply reps_good in HR as [_ Hg]; [|apply rep_good|done|intros x Hx; by apply Hw].
    apply Hg in Hin as (_ & k0 & c0 & r & E & Hle). specialize (Hlt k0). rewrite E in Hlt.
    assert (k < k0)%Z by (apply Hlt; constructor). lia.
  - destruct (Z.ltb_spec index 0); [lia|]. exists c. split; [by rewrite Hpre|]. rewrite Hl in HR, Hs, Hw.
    apply reps_middle in HR as (m1 & m2 & la & lc & lb & ia & ic & ib & HRa & HRc & HRb & -> & ->).
    pose proof (next_hi_below post hi k Hbk Hp) as Hbn.
    destruct (region_keys CAPACITY h (blocks st) pre [(kt, c)] post hi f nx m1 m2 la lb ia ib kt Hs)
      as [Hka Hkb]; [intros x Hx; by apply Hw|done|done|done|].
    rewrite !kv_find_app. rewrite (kv_find_missing k la) by (intros Hx; apply Hka in Hx; lia).
    assert (E : kv_find k lb = None).
    { apply kv_find_missing. intros Hx. apply (Hkb _ k) in Hx; [lia|done]. }
    rewrite E. assert (Hq : leads CAPACITY junkE junkK st h k c (kv_find k lc)).
    { eapply IH; [exact Hbn|exact HRc|]. intros j Hj. apply Hids. set_solver. }
    by destruct (kv_find k lc).
Qed.

Lemma represents_leads st M key :
  represents CAPACITY st M → leads CAPACITY junkE junkK st (depth_ st - 1) key (root_ st) (M !! key).
Proof using Hpar AllocatorLaws0.
  intros (l & ids & (Hd & (f & Hrep) & _ & Hin & _) & <-). rewrite kv_map_lookup.
  eapply rep_leads; [|exact Hrep|exact Hin]. done.
Qed.

(** The answers to requests that determine them. *)
Lemma answers_determined (find : Z → option Z) ks l :
  SEARCH_REQUEST <$> ks ≡ₚ req_of_answer <$> l → (∀ a, a ∈ l → ∃ key, a = Searched key (find key)) →
  l ≡ₚ (λ key, Searched key (find key)) <$> ks.
Proof.
  intros Hp Ha. set (back := λ r, match r with SEARCH_REQUEST key => Searched key (find key) | INSERT_REQUEST k v => Inserted k v end).
  assert (E1 : (λ key, Searched key (find key)) <$> ks = back <$> (SEARCH_REQUEST <$> ks)) by (by rewrite <- list_fmap_compose).
  rewrite E1, Hp, <- list_fmap_compose. clear -Ha. induction l as [|a l IH]; [done|]. simpl.
  destruct (Ha a) as [key ->]; [constructor|]. simpl. constructor. apply IH. intros a' Ha'. apply Ha. by constructor.
Qed.

(** C11: concurrent searches are answered, and with what the tree holds: start
    one of the schedulers, or a mixture of their rounds, on a tree that
    represents [M], let any number of search requests arrive between the rounds,
    and let completions come in any order. No round fails. After the last
    request, [2 * (depth + 2)] rounds that poll the device for each request
    answer all of them, whatever other rounds are between them: each key is
    reported once for each time it was asked, with its value in [M] or none,
    the scheduler may end, and the tree is as it was. Three calls of [run]
    per context and round are enough. *)
Theorem pull_searches_answered n fuel t M events rs :
  represents CAPACITY t M → 0 < n → 3 ≤ fuel → Forall event_ok events → Forall round_ok rs →
  2 * (length (asked events) * (depth_ t + 2)) ≤ polling rs →
  ∃ s, exec_events CAPACITY junkE junkK fuel (events ++ (Round <$> rs)) (new_pull_tree n t) = Some s ∧
    answers s ≡ₚ (λ key, Searched key (M !! key)) <$> asked events ∧
    terminated true s = true ∧ tree s = t.
Proof using Hpar AllocatorLaws0.
  intros Hrep Hn Hf Hev Hrs Hlen. destruct fuel as [|[|[|fuel]]]; [lia..|].
  pose proof (λ key, represents_leads t M key Hrep) as Hfind.
  assert (Hd : 1 ≤ depth_ t) by (destruct Hrep as (l & ids & (Hd & _) & _); done).
  destruct (events_searching CAPACITY junkE junkK t (λ key, M !! key) (depth_ t - 1) n (new_pull_tree n t) Hfind fuel events (λ _, 0) (new_pull_tree n t) Hev Hn
    (start_searching _ _ _ _ _ _ _ _ eq_refl)) as (s1 & wt1 & E1 & H1 & W1). rewrite start_work in W1.
  destruct (rounds_searching CAPACITY junkE junkK t (λ key, M !! key) (depth_ t - 1) n (new_pull_tree n t) Hfind fuel rs wt1 s1 Hrs Hn H1)
    as (s3 & wt3 & E3 & H3 & P3).
  { left. replace (depth_ t - 1 + 3) with (depth_ t + 2) in W1 by lia. lia. }
  assert (E : exec_events CAPACITY junkE junkK (S (S (S fuel))) (events ++ (Round <$> rs)) (new_pull_tree n t) = Some s3).
  { by rewrite exec_events_app, E1. }
  exists s3. split; [done|].
  assert (Hr : reach CAPACITY junkE junkK n t (SEARCH_REQUEST <$> asked events) s3).
  { replace (asked events) with (asked (events ++ (Round <$> rs))) by (rewrite asked_app; by rewrite asked_rounds, app_nil_r).
    apply (exec_events_reach CAPACITY junkE junkK n t (S (S (S fuel))) _ [] (new_pull_tree n t)); [constructor| |done].
    apply Forall_app. split; [done|]. by apply Forall_fmap. }
  split_and!; [|unfold terminated; rewrite P3; done|apply H3].
  destruct (reach_fine _ _ _ _ _ _ _ Hr) as [_ [G1 G2 _]]. rewrite P3 in G2.
  destruct (request_queue_ s3) as [|r rq]; [|simpl in G2; lia]. destruct (flight s3) as [|r fl]; [|simpl in G2; lia].
  rewrite !app_nil_r in G1. apply answers_determined; [done|].
  destruct (si_answers _ _ _ _ _ _ _ _ _ _ H3) as [ks ->]. intros a (key & -> & _)%list_elem_of_fmap. by exists key.
Qed.

End ways.

(** Searches on a tree of two levels with two contexts, of which some wait for a
    free context; completions arrive in reverse order, and every second round of
    the latency-aware scheduler polls. *)
Definition some_searches : list event :=
  [Arrive 40; Arrive 41; Round (Naive (@rev nat)); Arrive 10; Arrive 5; Round (LatencyAware (@rev nat) false); Arrive 40].
Definition some_rounds : list round := concat (replicate 40 [LatencyAware (@rev nat) false; LatencyAware (@rev nat) true]).

Lemma rev_ok l : @rev nat l ≡ₚ l.
Proof. symmetry. apply Permutation_rev. Qed.

Lemma some_rounds_ok : Forall round_ok some_rounds.
Proof. apply Forall_concat, Forall_replicate. repeat constructor; intros l; apply rev_ok. Qed.

Lemma pull_searches_answered_witness :
  ∃ s, exec_events 4 junkE4 junkK4 3 (some_searches ++ (Round <$> some_rounds)) (new_pull_tree 2 tree9) = Some s ∧
    answers s ≡ₚ (λ key, Searched key (map9 !! key)) <$> [40; 41; 10; 5; 40]%Z ∧
    terminated true s = true ∧ tree s = tree9.
Proof.
  apply (pull_searches_answered 4 junkE4 junkK4 params4 2 3 tree9 map9 some_searches some_rounds).
  - apply tree9_represents.
  - lia.
  - lia.
  - repeat constructor; intros l; apply rev_ok.
  - apply some_rounds_ok.
  - apply Nat.leb_le. vm_compute. reflexivity.
Defined.

End PullSearch.
