(* ===== verification/PullAlone.v ===== *)
(** An insertion that is alone in the pull-mode tree
    (src/src/tree/pull_based_b_plus_tree.h): its barriers are granted at once,
    its path in the tree is that of the sequential insertion, which is the
    result at the leaf carried back along the path, and the commands of its
    context change nothing else. *)
From Stdlib Require Import ZArith Lia.
From stdpp Require Import base list gmap sorting numbers functions.
From S2P Require Import Prelude KV Leaf Inner Store Tree TreeRep TreeFoot TreeInsert TreeSearch Barrier BarrierFrame PullState PullTree PullSafe PullAnswers TreeSpec PullSearch.

Module PullAlone.
Import Barrier BarrierFrame Pull PullTree PullSafe PullAnswers PullSearch.

(** ** Barriers of a context that is alone *)
(** No context waits, and none but [p] holds a token. *)
Record alone (δ : delta) p (m : barrier_manager) : Prop := {
  al_ok : manager_ok δ m;
  al_waits : ∀ q, waits q m = 0;
  al_ready : ready_contexts_ (wd m) = [];
  al_tokens : ∀ q c, q ≠ p → contexts (wd m) !! q = Some c → obtained_barriers_ c = [] }.

Lemma alone_held δ p m c i t :
  alone δ p m → contexts (wd m) !! p = Some c → held i t (wd m) = ntok i t c.
Proof.
  intros [_ _ _ Hn] Hc. unfold held. pose proof (sum_list_with_insert (ntok i t) _ p c new_context Hc) as Hs.
  assert (H0 : sum_list_with (ntok i t) (<[p := new_context]> (contexts (wd m))) = 0); [|change (ntok i t new_context) with 0 in Hs; lia].
  apply sum_list_zero. intros q c' Hq. destruct (decide (q = p)) as [->|Hne].
  - rewrite list_lookup_insert_eq in Hq by (by eapply lookup_lt_Some). by simplify_eq.
  - rewrite list_lookup_insert_ne in Hq by done. unfold ntok. by rewrite (Hn q c').
Qed.

(** Changing what [p] holds. *)
Lemma alone_world δ δ' p m w c' :
  alone δ p m → manager_ok δ' (mk_manager (barrier_map_ m) w) → contexts w = <[p := c']> (contexts (wd m)) →
  ready_contexts_ w = ready_contexts_ (wd m) → alone δ' p (mk_manager (barrier_map_ m) w).
Proof.
  intros [H1 H2 H3 H4] Hok Hcs Hr. split; [done|exact H2|simpl; congruence|]. simpl. rewrite Hcs. intros q c Hne Hq.
  rewrite list_lookup_insert_ne in Hq by done. by eapply H4.
Qed.

Lemma ntok_none i t c : (∀ ty, mk_token i ty ∉ obtained_barriers_ c) → ntok i t c = 0.
Proof. intros H. unfold ntok. rewrite filter_none; [done|]. intros k Hk ->. by apply (H t). Qed.

(** A barrier of which [p] holds no token is granted. *)
Lemma alone_ask t i p m c :
  alone settled p m → (0 ≤ i)%Z → contexts (wd m) !! p = Some c → (0 ≤ next_state c)%Z →
  (∀ ty, mk_token i ty ∉ obtained_barriers_ c) →
  ∃ m', request_barrier t i p m = Some (true, m') ∧ alone settled p m' ∧
    contexts (wd m') = <[p := add_barrier_token (mk_token i t) c]> (contexts (wd m)).
Proof.
  intros Hal Hi Hc Hn Hni. pose proof Hal as [Hok Hw Hr Ht].
  destruct (request_barrier_ok settled t i p m Hok Hi) as (ok & m' & E & Hok' & _ & Hrd & _ & _); [by exists c|].
  destruct (request_effect _ _ _ _ _ _ E) as (_ & _ & Hw' & _ & _).
  assert (Hx : ok = true ∧ contexts (wd m') = <[p := add_barrier_token (mk_token i t) c]> (contexts (wd m))).
  { unfold request_barrier in E.
    destruct (get_or_create_barrier_ok settled i m Hok Hi) as (b & m1 & Hg & Hwd & _ & _ & Hb & Hrb & Hwb & _).
    unfold due, settled in Hrb, Hwb. rewrite (alone_held settled p m c) in Hrb, Hwb by done. rewrite ntok_none in Hrb, Hwb by done.
    rewrite Hg in E. simpl in E. rewrite Hwd in E. unfold set_barrier, grant, grant_read_barrier_request, grant_write_barrier_request in E.
    unfold update_context in E. rewrite Hc in E.
    destruct t; simpl in E; rewrite ?Hwb, ?Hrb, Hb in E; simpl in E; injection E as <- <-; done. }
  destruct Hx as [-> Hcs]. exists m'. split; [done|]. split; [|done]. split.
  - done.
  - intros q. rewrite Hw', Hw. lia.
  - congruence.
  - rewrite Hcs. intros q c' Hne Hq. rewrite list_lookup_insert_ne in Hq by done. by eapply Ht.
Qed.

Lemma alone_remove δ p t i m :
  alone δ p m → (1 ≤ due δ i t (wd m))%Z →
  ∃ m', manager_remove t i m = Some m' ∧ alone (lose (mk_token i t) δ) p m' ∧ contexts (wd m') = contexts (wd m).
Proof.
  intros [Hok Hw Hr Ht] Hd.
  destruct (manager_remove_ok δ t i m Hok Hd) as (m' & E & Hok' & _ & _ & b & b' & fired & Hb & _ & Hp & Hrd & _ & Hc).
  assert (Hf : fired = []).
  { destruct fired as [|[q ty] fired]; [done|]. exfalso. pose proof (proj1 (waits_zero q m) (Hw q)) as Hq.
    apply (Hq i b ty Hb). rewrite Hp. simpl. constructor. }
  subst fired. simpl in *. rewrite app_nil_r in Hrd.
  assert (Hcs : contexts (wd m') = contexts (wd m)) by (apply list_eq; intros q; apply Hc, not_elem_of_nil).
  exists m'. split; [done|]. split; [|done]. split; [done| |congruence|by rewrite Hcs].
  intros q. destruct (manager_remove_evolves 0 _ _ _ _ E) as (_ & Hev & _). specialize (Hev q). rewrite Hrd, Hw in Hev. lia.
Qed.

Lemma alone_tokens δ δ' p us m c :
  alone δ p m → contexts (wd m) !! p = Some c →
  (∀ i t, (Z.of_nat (ntok i t (set_tokens us c)) + δ' i t = Z.of_nat (ntok i t c) + δ i t)%Z) →
  ∃ w, update_context p (λ c, Some (set_tokens us c)) (wd m) = Some w ∧ alone δ' p (mk_manager (barrier_map_ m) w) ∧
    contexts w = <[p := set_tokens us c]> (contexts (wd m)).
Proof.
  intros Hal Hc Hd. destruct (set_tokens_ok δ δ' p us m c (al_ok _ _ _ Hal) Hc Hd) as (w & E & Hok' & _ & Hcs & Hr).
  exists w. split; [done|]. split; [|done]. by eapply alone_world.
Qed.

(** All tokens are given back, but for those that [δ] accounts for. *)
Lemma alone_release_loop n : ∀ δ p m c,
  (∀ i t, (0 ≤ δ i t)%Z) → alone δ p m → contexts (wd m) !! p = Some c → length (obtained_barriers_ c) = n →
  ∃ m', release_loop (S n) p m = Some m' ∧ alone δ p m' ∧
    contexts (wd m') = <[p := set_tokens [] c]> (contexts (wd m)).
Proof.
  induction n as [|n IH]; intros δ p m c Hδ Hal Hc Hn; rewrite release_loop_eq, Hc; cbn [mbind option_bind].
  { destruct (obtained_barriers_ c) as [|] eqn:E; [|done]. simpl. exists m. split; [done|]. split; [done|].
    symmetry. apply list_insert_id. rewrite Hc. f_equal. destruct c. simpl in *. by subst. }
  destruct (list.last (obtained_barriers_ c)) as [k|] eqn:El.
  2: { apply last_None in El. by rewrite El in Hn. }
  unfold release_one. set (δ1 := λ i t, (δ i t + Z.of_nat (one i t k))%Z).
  destruct (alone_tokens δ δ1 p (removelast (obtained_barriers_ c)) m c Hal Hc) as (w & Hu & Hal1 & Hcs1).
  { intros i t. pose proof (ntok_removelast i t c k El). unfold δ1. lia. }
  unfold update_context in *. rewrite Hc in *. simpl in *. injection Hu as <-. destruct k as [i t]. simpl in *.
  destruct (alone_remove δ1 p t i _ Hal1) as (m2 & Hr & Hal2 & Hcs2).
  { unfold due, δ1. rewrite one_eq. specialize (Hδ i t). lia. }
  rewrite Hr. simpl in *.
  assert (Hlt : p < length (contexts (wd m))) by (by eapply lookup_lt_Some).
  assert (Hal3 : alone δ p m2).
  { destruct Hal2 as [G1 G2 G3 G4]. split; try done. revert G1. apply manager_ok_ext. intros i' t'. unfold lose, δ1. lia. }
  destruct (IH δ p m2 (set_tokens (removelast (obtained_barriers_ c)) c) Hδ Hal3) as (m3 & E3 & Hal4 & Hcs3).
  { rewrite Hcs2. by apply list_lookup_insert_eq. }
  { simpl. apply last_Some in El as [ts Ets]. rewrite Ets in *. rewrite removelast_last. rewrite length_app in Hn. simpl in Hn. lia. }
  exists m3. split; [exact E3|]. split; [done|]. rewrite Hcs3, Hcs2, list_insert_insert_eq. done.
Qed.

Lemma alone_release δ p m c :
  (∀ i t, (0 ≤ δ i t)%Z) → alone δ p m → contexts (wd m) !! p = Some c →
  ∃ m', release_all_barriers p m = Some m' ∧ alone δ p m' ∧
    contexts (wd m') = <[p := set_tokens [] c]> (contexts (wd m)).
Proof. intros Hδ Hal Hc. unfold release_all_barriers. rewrite Hc. simpl. by eapply alone_release_loop. Qed.

(** ** The sequential insertion along its path *)
(** What the insertion keeps of an inner node on its way down: the node, with the
    new left boundary if the key is below it, and the index of the child. *)
Local Abbreviation frame := (InnerNode.InnerNode * nat)%type.
Local Abbreviation frame_id := (λ f : frame, InnerNode.self_rep_ f.1).

Section path.
Context {A : Type} `{!Allocator A} `{!AllocatorLaws A}.
Context (CAPACITY : nat) (junkE : list (Z * Z)) (junkK : list Z).
Context (Hpar : params_ok CAPACITY junkE junkK).
Local Abbreviation result := (node * option (node * Z) * tree_state A)%type.
Local Abbreviation insert_ws := (insert_with_split_support CAPACITY junkE junkK).
Implicit Types (st T : tree_state A) (fs : list frame) (leaf : LeafNode.LeafNode) (k v : Z).

(** The nodes from [id] down to a leaf that an insertion of [k] visits. *)
Fixpoint descends st k (id : Z) fs leaf : Prop :=
  id ∈ in_use (alloc st) ∧ (0 ≤ id)%Z ∧
  ∃ b, blocks st !! id = Some b ∧
    match fs with
    | [] => deserialize CAPACITY junkE junkK b = Some (NLeaf leaf) ∧ LeafNode.self_rep_ leaf = id ∧ LeafNode.wf CAPACITY leaf
    | (i1, target) :: fs' =>
        ∃ i index c, deserialize CAPACITY junkE junkK b = Some (NInner i) ∧
          InnerNode.locate_child_index k i = Some index ∧ target = Z.to_nat (Z.max 0 index) ∧
          (if (index <? 0)%Z then InnerNode.set_left_boundary k i else Some i) = Some i1 ∧
          InnerNode.self_rep_ i1 = id ∧ InnerNode.modified_ i1 = (index <? 0)%Z ∧
          InnerNode.child_rep_ i1 !! target = Some c ∧ descends st k c fs' leaf
    end.

Definition path_ids fs leaf : list Z := (frame_id <$> fs) ++ [LeafNode.self_rep_ leaf].

Lemma descends_load st k id fs leaf :
  descends st k id fs leaf → ∃ n, load CAPACITY junkE junkK id st = Some n.
Proof.
  intros H. assert (H' : (0 ≤ id)%Z ∧ ∃ b n, blocks st !! id = Some b ∧ deserialize CAPACITY junkE junkK b = Some n).
  { destruct fs as [|[i1 target] fs]; simpl in H; [destruct H as (_ & H0 & b & Hb & Hd & _)|destruct H as (_ & H0 & b & Hb & i & index & c & Hd & _)]; eauto. }
  destruct H' as (H0 & b & n & Hb & Hd). exists n. unfold load, ref_get. simpl. destruct (Z.ltb_spec id 0); [lia|].
  rewrite Hb. simpl. by rewrite Hd.
Qed.

(** ** The way back *)
Definition leaf_result k v leaf st : option result :=
  let '(rrep, a') := allocate (alloc st) in
  '(l', r) ← LeafNode.insert_with_split_support CAPACITY rrep junkE k v leaf;
  match r with
  | None => Some (NLeaf l', None, st)
  | Some (rt, b) => Some (NLeaf l', Some (NLeaf rt, b), set_alloc a' st)
  end.

Definition closed (res : result) : tree_state A :=
  let '(n, r, st) := res in
  let st := close_at (node_self_rep n) n st in
  match r with None => st | Some (rn, _) => close_at (node_self_rep rn) rn st end.

(** The parent [f] after the insertion into its child. *)
Definition after (f : frame) (res : result) : option result :=
  let '(i, target) := f in
  let '(child, r, st) := res in
  match r with
  | None => Some (NInner i, None, closed res)
  | Some (rchild, bkey) =>
      if InnerNode.size_ i <? CAPACITY then
        i' ← InnerNode.insert_inner_node (node_self_rep rchild) bkey (target + 1) i;
        Some (NInner i', None, closed res)
      else
        let '(rrep, a') := allocate (alloc st) in
        '(lt, rt, b) ← InnerNode.split_insert CAPACITY rrep junkK target (node_self_rep rchild) bkey i;
        Some (NInner lt, Some (NInner rt, b), set_alloc a' (closed res))
  end.

Fixpoint unwind fs (res : result) : option result :=
  match fs with [] => Some res | f :: fs' => unwind fs' res ≫= after f end.

Lemma unwind_app fs1 fs2 res : unwind (fs1 ++ fs2) res = unwind fs2 res ≫= unwind fs1.
Proof.
  induction fs1 as [|f fs1 IH]; simpl; [by destruct (unwind fs2 res)|]. rewrite IH. by destruct (unwind fs2 res).
Qed.

Lemma insert_inner_node_facts crep b pos i i' :
  InnerNode.insert_inner_node crep b pos i = Some i' →
  InnerNode.self_rep_ i' = InnerNode.self_rep_ i ∧ InnerNode.modified_ i' = true.
Proof.
  unfold InnerNode.insert_inner_node. intros ([ks cs] & _ & E)%bind_Some.
  apply bind_Some in E as (ks' & _ & E). apply bind_Some in E as (cs' & _ & E). by simplify_eq.
Qed.

Lemma split_insert_facts rrep target crep bkey i lt rt b :
  InnerNode.split_insert CAPACITY rrep junkK target crep bkey i = Some (lt, rt, b) →
  InnerNode.self_rep_ lt = InnerNode.self_rep_ i ∧ InnerNode.modified_ lt = true ∧
  InnerNode.self_rep_ rt = rrep ∧ InnerNode.modified_ rt = true.
Proof.
  unfold InnerNode.split_insert. intros (p & _ & E)%bind_Some. apply bind_Some in E as ([l0 r0] & E1 & E).
  apply bind_Some in E as (b0 & _ & E). simplify_eq. destruct (target <? CAPACITY / 2).
  - apply bind_Some in E1 as (pos & _ & E1). apply bind_Some in E1 as (l1 & E1 & E2). simplify_eq.
    apply insert_inner_node_facts in E1 as [-> ->]. done.
  - apply bind_Some in E1 as (pos & _ & E1). apply bind_Some in E1 as (r1 & E1 & E2). simplify_eq.
    apply insert_inner_node_facts in E1 as [-> ->]. done.
Qed.

Lemma leaf_result_facts k v leaf st n r st1 :
  LeafNode.wf CAPACITY leaf → leaf_result k v leaf st = Some (n, r, st1) →
  ∃ l', n = NLeaf l' ∧ LeafNode.self_rep_ l' = LeafNode.self_rep_ leaf ∧ LeafNode.modified_ l' = true ∧
    match r with
    | None => st1 = st
    | Some (rn, b) => ∃ rt rrep a', rn = NLeaf rt ∧ allocate (alloc st) = (rrep, a') ∧ st1 = set_alloc a' st ∧
        LeafNode.self_rep_ rt = rrep ∧ LeafNode.modified_ rt = true
    end.
Proof using Hpar.
  intros Hwf. unfold leaf_result. destruct (allocate (alloc st)) as [rrep a'] eqn:Ea.
  destruct (LeafNode.insert_with_split_live CAPACITY rrep junkE k v leaf) as (n' & r' & Hins & Hpost);
    [destruct Hpar; lia|done|apply Hpar|]. rewrite Hins. simpl. destruct Hpost as (_ & Hself & Hmod & Hpost).
  destruct r' as [[rt b]|]; intros [= <- <- <-]; exists n'; split_and!; try done.
  destruct Hpost as (_ & Hsr & Hmr & _). by exists rt, rrep, a'.
Qed.

Lemma after_self f res n r st : after f res = Some (n, r, st) → node_self_rep n = frame_id f.
Proof.
  destruct f as [i target], res as [[child [[rchild bkey]|]] st0]; simpl.
  - destruct (_ <? _).
    + intros (i' & Hi & E)%bind_Some. simplify_eq. by apply insert_inner_node_facts in Hi as [? _].
    + destruct (allocate _) as [rrep a']. intros ([[lt rt] b] & Hs & E)%bind_Some. simplify_eq.
      by apply split_insert_facts in Hs as [? _].
  - by intros [= <- <- <-].
Qed.

Lemma insert_ws_unwind st k v fs leaf : ∀ id fuel n,
  descends st k id fs leaf → load CAPACITY junkE junkK id st = Some n → length fs ≤ fuel →
  insert_ws fuel n k v st = leaf_result k v leaf st ≫= unwind fs.
Proof using Hpar.
  induction fs as [|[i1 target] fs IH]; intros id fuel n Hd Hload Hf.
  - destruct Hd as (_ & H0 & b & Hb & Hn & _). apply load_block in Hload as (b' & Hb' & Hn'). simplify_eq.
    assert (E : insert_ws fuel (NLeaf leaf) k v st = leaf_result k v leaf st) by (by destruct fuel).
    rewrite E. simpl. by destruct (leaf_result k v leaf st).
  - destruct Hd as (_ & H0 & b & Hb & i & index & c & Hn & Hloc & -> & Hi1 & Hself & Hmod & Hc & Hd).
    apply load_block in Hload as (b' & Hb' & Hn'). simplify_eq. destruct fuel as [|fuel]; [simpl in Hf; lia|]. simpl in Hf.
    destruct (descends_load st k c fs leaf Hd) as [child Hch].
    simpl. rewrite Hloc. simpl. rewrite Hi1. simpl. rewrite Hc. simpl. rewrite Hch. simpl.
    rewrite (IH c fuel child Hd Hch) by lia. destruct (leaf_result k v leaf st) as [res|] eqn:El; [|done]. simpl.
    destruct (unwind fs res) as [[[child' r] st']|] eqn:Eu; [|done]. simpl.
    destruct r as [[rchild bkey]|]; simpl.
    + destruct (_ <? CAPACITY); [done|]. destruct (allocate (alloc st')) as [rrep a'].
      change (InnerNode.split_insert CAPACITY rrep junkK ?t ?x ?y (InnerNode.mark_modified i1)) with
        (InnerNode.split_insert CAPACITY rrep junkK t x y i1).
      destruct (InnerNode.split_insert _ _ _ _ _ _ i1) as [[[lt rt] b0]|]; [|done]. simpl. by rewrite !close_set_alloc.
    + f_equal. f_equal. assert (Hs : node_self_rep child' = c); [|by rewrite Hs].
      destruct fs as [|f fs].
      * simpl in Eu. simplify_eq. destruct Hd as (_ & _ & b1 & _ & _ & Hs & Hwf).
        apply leaf_result_facts in El as (l' & -> & Hs' & _); [|done]. simpl. congruence.
      * simpl in Eu. apply bind_Some in Eu as (res1 & _ & Eu). apply after_self in Eu. rewrite Eu.
        destruct f as [i2 tgt2]. destruct Hd as (_ & _ & b1 & _ & i0 & index0 & c0 & _ & _ & _ & _ & Hs & _). done.
Qed.

(** The path of a tree. *)
Lemma rep_descends h : ∀ st k id lo hi f nx l ids,
  within lo hi k → rep CAPACITY h (blocks st) id lo hi f nx l ids → NoDup ids → (∀ j, j ∈ ids → j ∈ in_use (alloc st)) →
  ∃ fs leaf, length fs = h ∧ descends st k id fs leaf ∧ NoDup (path_ids fs leaf) ∧ (∀ j, j ∈ path_ids fs leaf → j ∈ ids).
Proof using Hpar AllocatorLaws0.
  induction h as [|h IH]; intros st k id lo hi f nx l ids Hk Hrep Hnd Hids;
    destruct (rep_loadable CAPACITY junkE junkK Hpar _ _ _ _ _ _ _ _ _ Hrep) as [nd Hload];
    destruct (load_block _ _ _ _ _ _ Hload) as (b & Hb & Hd).
  { destruct (load_rep_0 CAPACITY junkE junkK Hpar _ _ _ _ _ _ _ _ _ Hrep Hload)
      as (_ & -> & H0 & _ & _ & n0 & -> & Hwf & _ & _ & Hself & _).
    exists [], n0. split_and!; [done| |unfold path_ids; simpl; apply NoDup_singleton|unfold path_ids; simpl; by rewrite Hself].
    simpl. split_and!; [apply Hids; constructor|done|]. by exists b. }
  destruct (load_rep_S CAPACITY junkE junkK Hpar _ _ _ _ _ _ _ _ _ _ Hrep Hload)
    as (i & ids' & -> & Hwi & Hself & Hmod & _ & Hne & -> & H0 & Hw & HR).
  destruct (descend CAPACITY i k lo hi Hwi Hne Hw Hk)
    as (index & i1 & pre & k0 & kt & c & post & Hidx & Hi1 & Htgt & Hc & Hwi1 & Hl0 & Hl1 & Hs1 & Hm1 & Hkt & Hkt0 & Hp & Hbl & Hw1).
  rewrite Hl0 in HR.
  apply reps_middle in HR as (m1 & m2 & la & lc & lb & ia & ic & ib & Hpre & Hch & Hpost & -> & ->).
  assert (Hch' : rep CAPACITY h (blocks st) c (Some kt) (next_hi post hi) m1 m2 lc ic).
  { eapply rep_weaken; [|done|exact Hch]. simpl. lia. }
  apply list.NoDup_cons in Hnd as [Hni Hnd].
  destruct (IH st k c (Some kt) (next_hi post hi) m1 m2 lc ic) as (fs & leaf & Hlen & Hde & Hnp & Hsub); [by split|done| | |].
  { rewrite !list.NoDup_app in Hnd. tauto. }
  { intros j Hj. apply Hids. set_solver. }
  exists ((i1, length pre) :: fs), leaf. split_and!; [simpl; by rewrite Hlen| | |].
  - simpl. split_and!; [apply Hids; constructor|done|]. exists b. split; [done|]. exists i, index, c.
    split_and!; try done; [congruence|].
    destruct (Z.ltb_spec index 0) as [Hlt|Hge]; [|by simplify_eq].
    unfold InnerNode.set_left_boundary in Hi1. apply bind_Some in Hi1 as (ks & _ & Hi1). by simplify_eq.
  - unfold path_ids. simpl. apply list.NoDup_cons. split; [|done]. rewrite Hs1, Hself. intros Hin. apply Hsub in Hin.
    apply Hni. set_solver.
  - unfold path_ids. simpl. intros j Hj. apply elem_of_cons in Hj as [->|Hj]; [rewrite Hs1, Hself; constructor|].
    apply Hsub in Hj. set_solver.
Qed.

End path.

(** ** Commands of the context at work *)
Section commands.
Context {A : Type} `{!Allocator A}.
Context (CAPACITY : nat) (junkE : list (Z * Z)) (junkK : list Z).
Local Abbreviation cmd := (@cmd A).
Local Abbreviation pstate := (pstate A).
Implicit Types (s : pstate) (p q : nat) (T : tree_state A).

(** Context [p] works with record [c] and data [d]; since state [s0] it has made
    the tree [T] and submitted [k] operations, and nothing else has changed. *)
Record at_work s0 (k : nat) T (δ : delta) p (c : call_back_context) (d : insert_context) s : Prop := {
  w_alone : alone δ p (manager s);
  w_ctx : ctxs s !! p = Some c;
  w_ins : datas s !! p = Some (CInsert d);
  w_tree : tree s = T;
  w_rest : request_queue_ s = request_queue_ s0 ∧ pending_request_ s = pending_request_ s0 ∧
    free_context_slots_ s = free_context_slots_ s0 ∧ free_insert_contexts_ s = free_insert_contexts_ s0 ∧
    free_search_contexts_ s = free_search_contexts_ s0 ∧ admission_contexts_ s = admission_contexts_ s0 ∧
    answers s = answers s0 ∧ blk_ready_contexts s = blk_ready_contexts s0;
  w_io : pending_contexts_ s = pending_contexts_ s0 ++ replicate k p ∧
    length (pending_ids_ s) = length (pending_ids_ s0) + k;
  w_others : ∀ q, q ≠ p → ctxs s !! q = ctxs s0 !! q ∧ datas s !! q = datas s0 !! q;
  w_lengths : length (ctxs s) = length (ctxs s0) }.

Lemma at_manager s0 k T δ δ' p c c' d s m :
  at_work s0 k T δ p c d s → alone δ' p m → contexts (wd m) = <[p := c']> (ctxs s) →
  at_work s0 k T δ' p c' d (with_manager m s).
Proof.
  intros [H1 H2 H3 H4 H5 H6 H7 H8] Hm Hcs. split; try done.
  - unfold ctxs. simpl. rewrite Hcs. apply list_lookup_insert_eq. by eapply lookup_lt_Some.
  - intros q Hq. split; [|by apply H7]. unfold ctxs. simpl. rewrite Hcs, list_lookup_insert_ne by done. by apply H7.
  - unfold ctxs. simpl. by rewrite Hcs, length_insert.
Qed.

Lemma at_tokens_same s0 k T δ p c d s : at_work s0 k T δ p c d s → p < length (ctxs s).
Proof. intros [_ H _ _ _ _ _ _]. by eapply lookup_lt_Some. Qed.

Lemma to_get_insert s0 k T δ p c d s Q : at_work s0 k T δ p c d s → Q d s → tp (get_insert p) Q s.
Proof. intros H HQ. exists d, s. unfold get_insert. by rewrite (w_ins _ _ _ _ _ _ _ _ H). Qed.
Lemma to_get_context s0 k T δ p c d s Q : at_work s0 k T δ p c d s → Q c s → tp (get_context p) Q s.
Proof.
  intros H HQ. exists c, s. unfold get_context. pose proof (w_ctx _ _ _ _ _ _ _ _ H) as Hc. unfold ctxs in Hc. by rewrite Hc.
Qed.
Lemma to_get_tree s0 k T δ p c d s Q : at_work s0 k T δ p c d s → Q T s → tp (get tree) Q s.
Proof. intros H HQ. apply tp_get. by rewrite (w_tree _ _ _ _ _ _ _ _ H). Qed.

Lemma to_put_insert s0 k T δ p c d d' s Q :
  at_work s0 k T δ p c d s → (∀ s', at_work s0 k T δ p c d' s' → Q tt s') → tp (put_insert p d') Q s.
Proof.
  intros [H1 H2 H3 H4 H5 H6 H7 H8] HQ. apply tp_modify, HQ. split; try done.
  - simpl. apply list_lookup_insert_eq. by eapply lookup_lt_Some.
  - intros q Hq. split; [by apply H7|]. simpl. rewrite list_lookup_insert_ne by done. by apply H7.
Qed.

(** A field of the record that barriers do not look at. *)
Lemma to_update s0 k T δ p c c' d s (f : call_back_context → option call_back_context) Q :
  at_work s0 k T δ p c d s → f c = Some c' → obtained_barriers_ c' = obtained_barriers_ c →
  (∀ s', at_work s0 k T δ p c' d s' → Q tt s') → tp (update_call_back p f) Q s.
Proof.
  intros H Hf Ho HQ. pose proof (w_alone _ _ _ _ _ _ _ _ H) as Hal. pose proof (w_ctx _ _ _ _ _ _ _ _ H) as Hc.
  unfold update_call_back, update_context. unfold ctxs in Hc. eexists tt, _. rewrite Hc. simpl. rewrite Hf. simpl.
  split; [done|]. apply HQ. eapply at_manager; [exact H| |done].
  destruct Hal as [B1 B2 B3 B4].
  assert (Hheld : ∀ i t, held i t (mk_world (<[p := c']> (contexts (wd (manager s)))) (ready_contexts_ (wd (manager s)))) = held i t (wd (manager s))).
  { intros i t. unfold held. simpl. pose proof (sum_list_with_insert (ntok i t) _ p c c' Hc) as Hs.
    assert (E : ntok i t c' = ntok i t c) by (unfold ntok; by rewrite Ho). lia. }
  split; [|exact B2|done|].
  - intros i. specialize (B1 i). change (barrier_at i (mk_manager (barrier_map_ (manager s)) ?w)) with (barrier_at i (manager s)).
    pose proof (λ b q t, proj1 (waits_zero q (manager s)) (B2 q) i b t) as Hwi. destruct (barrier_at i (manager s)) as [b|].
    + destruct B1 as (C1 & C2 & C3 & C4 & C5 & C6). unfold barrier_ok, due in *. simpl.
      split_and!; [done|by rewrite Hheld|by rewrite Hheld|done|done|]. intros q t Hin. exfalso. by apply (Hwi b q t).
    + intros t. unfold due in *. simpl. rewrite Hheld. apply B1.
  - simpl. intros q c0 Hne Hq. rewrite list_lookup_insert_ne in Hq by done. by eapply B4.
Qed.

Lemma to_goto s0 k T δ p c d s st Q :
  at_work s0 k T δ p c d s → (∀ s', at_work s0 k T δ p (set_next_state st c) d s' → Q tt s') → tp (goto_next p st) Q s.
Proof. intros H HQ. eapply to_update; [exact H|done|done|exact HQ]. Qed.

Lemma to_transition s0 k T δ p c d s Q :
  at_work s0 k T δ p c d s → (0 ≤ next_state c)%Z →
  (∀ s', at_work s0 k T δ p (moved_on c) d s' → Q tt s') → tp (do_transition p) Q s.
Proof.
  intros H Hn HQ. eapply (to_update _ _ _ _ _ _ (moved_on c)); [exact H| |done|exact HQ]. unfold transition_to_next_state.
  by rewrite (proj2 (Z.leb_le _ _)).
Qed.

Lemma to_jump s0 k T δ p c d s st Q :
  at_work s0 k T δ p c d s → (0 ≤ st)%Z →
  (∀ s', at_work s0 k T δ p (moved_on (set_next_state st c)) d s' → Q Again s') → tp (jump p st) Q s.
Proof.
  intros H Hst HQ. unfold jump. apply tp_bind. eapply to_goto; [exact H|]. intros s1 H1. apply tp_bind.
  eapply to_transition; [exact H1|done|]. intros s2 H2. apply tp_ret. by apply HQ.
Qed.

Lemma to_ask s0 k T p c d s ty i Q :
  at_work s0 k T settled p c d s → (0 ≤ i)%Z → (0 ≤ next_state c)%Z → (∀ t, mk_token i t ∉ obtained_barriers_ c) →
  (∀ s', at_work s0 k T settled p (add_barrier_token (mk_token i ty) c) d s' → Q true s') →
  tp (ask_barrier ty i p) Q s.
Proof.
  intros H Hi Hn Hni HQ.
  destruct (alone_ask ty i p (manager s) c (w_alone _ _ _ _ _ _ _ _ H) Hi (w_ctx _ _ _ _ _ _ _ _ H) Hn Hni) as (m' & E & Hal & Hcs).
  unfold ask_barrier. eexists true, _. rewrite E. split; [done|]. apply HQ. by eapply at_manager.
Qed.

Lemma to_give_all s0 k T δ p c d s Q :
  at_work s0 k T δ p c d s → (∀ i t, (0 ≤ δ i t)%Z) →
  (∀ s', at_work s0 k T δ p (set_tokens [] c) d s' → Q tt s') → tp (give_back_all p) Q s.
Proof.
  intros H Hδ HQ.
  destruct (alone_release δ p (manager s) c Hδ (w_alone _ _ _ _ _ _ _ _ H) (w_ctx _ _ _ _ _ _ _ _ H)) as (m' & E & Hal & Hcs).
  unfold give_back_all. eexists tt, _. rewrite E. split; [done|]. apply HQ. by eapply at_manager.
Qed.

Lemma to_tokens s0 k T δ δ' p c d s us Q :
  at_work s0 k T δ p c d s →
  (∀ i t, (Z.of_nat (ntok i t (set_tokens us c)) + δ' i t = Z.of_nat (ntok i t c) + δ i t)%Z) →
  (∀ s', at_work s0 k T δ' p (set_tokens us c) d s' → Q tt s') → tp (set_obtained p us) Q s.
Proof.
  intros H Hn HQ.
  destruct (alone_tokens δ δ' p us (manager s) c (w_alone _ _ _ _ _ _ _ _ H) (w_ctx _ _ _ _ _ _ _ _ H) Hn) as (w & E & Hal & Hcs).
  unfold set_obtained, update_call_back. eexists tt, _. rewrite E. split; [done|]. apply HQ. by eapply at_manager.
Qed.

Lemma to_release_but s0 k T p c d s n Q :
  at_work s0 k T settled p c d s → n ≤ length (obtained_barriers_ c) →
  (∀ s', at_work s0 k T settled p (set_tokens (drop (length (obtained_barriers_ c) - n) (obtained_barriers_ c)) c) d s' → Q tt s') →
  tp (release_all_but n p) Q s.
Proof.
  intros H Hle HQ. unfold release_all_but. apply tp_bind. eapply to_get_context; [exact H|]. apply tp_bind, tp_assert; [by apply Nat.leb_le|].
  set (ts := obtained_barriers_ c) in *. set (j := length ts - n) in *.
  set (δ := λ i t, Z.of_nat (ntok i t (set_tokens (drop j ts) c))).
  assert (Ec : ∀ i t, ntok i t c = ntok i t (set_tokens (take j ts) c) + ntok i t (set_tokens (drop j ts) c)).
  { intros i' t. rewrite <- ntok_split, take_drop. by destruct c. }
  apply tp_bind. eapply (to_tokens _ _ _ settled δ); [exact H| |].
  { intros i' t. rewrite (Ec i' t). unfold δ, settled. lia. }
  intros s1 H1. apply tp_bind. eapply to_give_all; [exact H1|intros; unfold δ; lia|]. intros s2 H2.
  apply tp_bind. eapply to_get_context; [exact H2|]. simpl.
  eapply (to_tokens _ _ _ δ settled); [exact H2| |].
  { intros i' t. unfold δ, settled, ntok. simpl. lia. }
  intros s3 H3. by apply HQ.
Qed.

Lemma to_submit s0 k T δ p c d s ty Q :
  at_work s0 k T δ p c d s → (∀ s', at_work s0 (k + 1) T δ p c d s' → Q tt s') → tp (submit p ty) Q s.
Proof.
  intros [H1 H2 H3 H4 H5 [H6 H6'] H7 H8] HQ. apply tp_modify, HQ. split; try done. simpl.
  rewrite H6, length_app, H6'. simpl. split; [|lia]. by rewrite <- app_assoc, replicate_add.
Qed.

Lemma to_read s0 k T δ p c d s addr buf Q :
  at_work s0 k T δ p c d s → addr ∈ in_use (alloc T) →
  (∀ s', at_work s0 (k + 1) T δ p c d s' → Q (blocks T !! addr) s') → tp (asynch_read addr buf p) Q s.
Proof.
  intros H Ha HQ. unfold asynch_read, blk_read. apply tp_bind, tp_get.
  rewrite (w_tree _ _ _ _ _ _ _ _ H), bool_decide_true by done.
  apply tp_bind. eapply to_submit; [exact H|]. intros s1 H1. apply tp_ret. by apply HQ.
Qed.

Lemma to_set_tree s0 k T T' δ p c d s (f : pstate → pstate) Q :
  at_work s0 k T δ p c d s → f s = with_tree T' s →
  (∀ s', at_work s0 k T' δ p c d s' → Q tt s') → tp (modify f) Q s.
Proof. intros [H1 H2 H3 H4 H5 H6 H7 H8] Hf HQ. apply tp_modify. rewrite Hf. apply HQ. by split. Qed.

(** A block of a node that was modified. *)
Lemma to_write s0 k T δ p c d s n Q :
  at_work s0 k T δ p c d s → node_self_rep n ∈ in_use (alloc T) → node_modified n = true →
  (∀ s', at_work s0 (k + 1) (close_at (node_self_rep n) n T) δ p c d s' → Q tt s') →
  tp (asynch_write (node_self_rep n) (serialize n) p) Q s.
Proof.
  intros H Ha Hm HQ. unfold asynch_write, blk_write. apply tp_bind.
  eapply (to_set_tree _ _ _ (close_at (node_self_rep n) n T)); [exact H| |].
  - rewrite (w_tree _ _ _ _ _ _ _ _ H), bool_decide_true by done. unfold close_at, ref_close. simpl. by rewrite Hm.
  - intros s1 H1. eapply to_submit; [exact H1|]. done.
Qed.

Lemma to_allocate s0 k T δ p c d s rrep a' Q :
  at_work s0 k T δ p c d s → allocate (alloc T) = (rrep, a') →
  (∀ s', at_work s0 k (set_alloc a' T) δ p c d s' → Q rrep s') → tp blk_allocate Q s.
Proof.
  intros [H1 H2 H3 H4 H5 H6 H7 H8] Ea HQ. unfold blk_allocate. eexists rrep, _. rewrite H4, Ea. split; [done|].
  apply HQ. by split.
Qed.

End commands.

(** One command of the context at work. *)
Ltac at_ H :=
  lazymatch goal with |- tp (_ ≫= _) _ _ => apply tp_bind | _ => idtac end;
  lazymatch goal with
  | |- tp (get_insert _) _ _ => eapply (to_get_insert _ _ _ _ _ _ _ _ _ H)
  | |- tp (get_context _) _ _ => eapply (to_get_context _ _ _ _ _ _ _ _ _ H)
  | |- tp (get tree) _ _ => eapply (to_get_tree _ _ _ _ _ _ _ _ _ H)
  | |- tp (put_insert _ _) _ _ => eapply (to_put_insert _ _ _ _ _ _ _ _ _ _ H); clear H; intros ? H
  | |- tp (goto_next _ _) _ _ => eapply (to_goto _ _ _ _ _ _ _ _ _ _ H); clear H; intros ? H
  | |- tp (do_transition _) _ _ => eapply (to_transition _ _ _ _ _ _ _ _ _ H); [simpl; lia|]; clear H; intros ? H
  | |- tp (jump _ _) _ _ => eapply (to_jump _ _ _ _ _ _ _ _ _ _ H); [lia|]; clear H; intros ? H
  | |- tp (give_back_all _) _ _ => eapply (to_give_all _ _ _ _ _ _ _ _ _ H); [done|]; clear H; intros ? H
  | |- tp (mret _) _ _ => apply tp_ret
  end.

(** ** The visit of a node *)
Section visits.
Context {A : Type} `{!Allocator A} `{!AllocatorLaws A}.
Context (CAPACITY : nat) (junkE : list (Z * Z)) (junkK : list Z).
Local Abbreviation cmd := (@cmd A).
Local Abbreviation pstate := (pstate A).
Local Abbreviation run := (run CAPACITY junkE junkK).
Local Abbreviation step := (step CAPACITY junkE junkK).
Implicit Types (s : pstate) (p q : nat) (T : tree_state A).

Lemma to_step s0 k T δ p c d s Q :
  at_work s0 k T δ p c d s → tp (insert_step CAPACITY junkE junkK p) Q s → tp (step p) Q s.
Proof. intros H (x & s' & E & HQ). exists x, s'. unfold step. by rewrite (w_ins _ _ _ _ _ _ _ _ H). Qed.

(** A step that leads to a recursive call, and the last one. *)
Lemma alone_run_again fuel p s (P : pstate → Prop) Q :
  tp (step p) (λ o s', o = Again ∧ P s') s → (∀ s', P s' → tp (run fuel p) Q s') → tp (run (S fuel) p) Q s.
Proof.
  intros Hs HP. cbn [PullTree.run]. apply tp_bind. eapply tp_mono; [exact Hs|]. intros o s' [-> H]. by apply HP.
Qed.
Lemma run_last fuel p s (P : pstate → Prop) :
  tp (step p) (λ o s', o ≠ Again ∧ P s') s → tp (run (S fuel) p) (λ _ s', P s') s.
Proof.
  intros Hs. cbn [PullTree.run]. apply tp_bind. eapply tp_mono; [exact Hs|]. intros o s' [Ho H]. destruct o; [done| |]; by apply tp_ret.
Qed.

Definition visit_type (d : insert_context) : barrier_type :=
  if optimistic_ d && negb (next_visit_is_leaf_node_ d) then READ_BARRIER else WRITE_BARRIER.

(** The data when the block of node [id] is read. *)
Definition entered (id : Z) T (d : insert_context) : insert_context :=
  let d := set_last_state_1 false d in
  let d := if (node_ref_ d =? -1)%Z then start_at_root true (root_ T) (Z.of_nat (depth_ T)) d else d in
  set_buffer (blocks T !! id) (set_last_state_1 true (set_refer false (set_last_state_1 false d))).

Lemma entered_facts id T d :
  i_key (entered id T d) = i_key d ∧ i_val (entered id T d) = i_val d ∧
  pending_parent_nodes_ (entered id T d) = pending_parent_nodes_ d ∧ optimistic_ (entered id T d) = optimistic_ d ∧
  free_slot_available_in_parent_ (entered id T d) = free_slot_available_in_parent_ d ∧
  next_visit_is_leaf_node_ (entered id T d) = next_visit_is_leaf_node_ d ∧
  buffer_ (entered id T d) = blocks T !! id ∧ child_node_split_ (entered id T d) = child_node_split_ d ∧
  current_node_level_ (entered id T d) = (if (node_ref_ d =? -1)%Z then Z.of_nat (depth_ T) else current_node_level_ d) ∧
  node_ref_ (entered id T d) = (if (node_ref_ d =? -1)%Z then root_ T else node_ref_ d).
Proof. unfold entered. simpl. by destruct (node_ref_ d =? -1)%Z. Qed.

(** The context is ready to visit node [id]. *)
Record ready_for (id : Z) T (c : call_back_context) (d : insert_context) : Prop := {
  r_state : current_state c = 0%Z;
  r_node : (if (node_ref_ d =? -1)%Z then root_ T else node_ref_ d) = id;
  r_refer : (node_ref_ d ≠ -1)%Z → refer_to_root_ d = false;
  r_valid : id ∈ in_use (alloc T) ∧ (0 ≤ id)%Z;
  r_tokens : ∀ t, mk_token id t ∉ obtained_barriers_ c;
  r_free : free_slot_available_in_parent_ d = true → 1 ≤ length (obtained_barriers_ c) }.

(** The read of node [id] is under way. *)
Record entering (id : Z) T (c0 : call_back_context) (d0 : insert_context) (c : call_back_context) (d : insert_context) : Prop := {
  e_state : next_state c = 2%Z;
  e_data : d = entered id T d0;
  e_tokens : ∃ m, obtained_barriers_ c = drop m (obtained_barriers_ c0) ++ [mk_token id (visit_type d0)] }.

Lemma drop_last {X} (ts : list X) (x : X) m : m ≤ length ts → drop m (ts ++ [x]) = drop m ts ++ [x].
Proof. intros H. by rewrite drop_app_le. Qed.

Lemma visit_state_1 s0 k T p c d d0 s id :
  at_work s0 k T settled p c d s → current_state c = 1%Z → id ∈ in_use (alloc T) →
  node_ref_ d = id → last_state_1 d = false →
  set_buffer (blocks T !! id) (set_last_state_1 true d) = d0 →
  tp (step p) (λ o s', o ≠ Again ∧ ∃ c', at_work s0 (k + 1) T settled p c' d0 s' ∧ next_state c' = 2%Z ∧
    obtained_barriers_ c' = obtained_barriers_ c) s.
Proof.
  intros H Hst Hin Hr Hl Hd. eapply to_step; [exact H|]. unfold insert_step. at_ H. rewrite Hst. simpl.
  unfold insert_state_1. at_ H. apply tp_bind, tp_assert; [by rewrite Hl|]. at_ H. apply tp_bind.
  eapply (to_read _ _ _ _ _ _ _ _ _ _ _ H); [simpl; congruence|]. clear H. intros s2 H. simpl. at_ H. apply tp_ret.
  split; [done|]. rewrite Hr in H. eexists. rewrite <- Hd. split; [exact H|done].
Qed.

Lemma visit_state_10001 s0 k T p c d s id ts ty :
  at_work s0 k T settled p c d s → current_state c = 10001%Z → obtained_barriers_ c = ts ++ [mk_token id ty] →
  node_ref_ d = id → (refer_to_root_ d = true → id = root_ T) →
  (optimistic_ d = false → free_slot_available_in_parent_ d = true → 1 ≤ length ts) →
  tp (step p) (λ o s', o = Again ∧ ∃ c' m, at_work s0 k T settled p c' (set_refer false (set_last_state_1 false d)) s' ∧
    current_state c' = 1%Z ∧ obtained_barriers_ c' = drop m ts ++ [mk_token id ty]) s.
Proof.
  intros H Hst Ho Hr Hroot Hfree. eapply to_step; [exact H|]. unfold insert_step. at_ H. rewrite Hst. simpl.
  unfold insert_state_10001. at_ H. at_ H. at_ H. apply tp_bind. rewrite Ho, last_snoc. simpl.
  eapply (tp_mono _ (λ x s', x = false ∧ s' = s)).
  { destruct (refer_to_root_ d) eqn:Er; [|by apply tp_ret]. apply tp_bind. eapply tp_require; [done|]. apply tp_ret. simpl.
    rewrite (Hroot eq_refl), Z.eqb_refl. done. }
  intros stale ? [-> ->]. at_ H. apply tp_bind. simpl.
  assert (Hj : ∀ s1 c1 m, at_work s0 k T settled p c1 (set_refer false (set_last_state_1 false d)) s1 →
    obtained_barriers_ c1 = drop m ts ++ [mk_token id ty] →
    tp (jump p 1) (λ o s', o = Again ∧ ∃ c' m, at_work s0 k T settled p c' (set_refer false (set_last_state_1 false d)) s' ∧
      current_state c' = 1%Z ∧ obtained_barriers_ c' = drop m ts ++ [mk_token id ty]) s1).
  { intros s1 c1 m H1 Ho1. at_ H1. split; [done|]. eexists _, m. split; [exact H1|done]. }
  assert (Hlen : length (ts ++ [mk_token id ty]) = S (length ts)) by (rewrite length_app; simpl; lia).
  destruct (optimistic_ d) eqn:Eop.
  - eapply (to_release_but _ _ _ _ _ _ _ _ _ H); [rewrite Ho, Hlen; lia|]. intros s2 H2.
    eapply (Hj _ _ (length ts)); [exact H2|]. simpl. rewrite Ho, Hlen. replace (S (length ts) - 1) with (length ts) by lia.
    by rewrite drop_last.
  - destruct (_ && _) eqn:Ef.
    + apply andb_true_iff in Ef as [Ef _]. specialize (Hfree eq_refl Ef).
      eapply (to_release_but _ _ _ _ _ _ _ _ _ H); [rewrite Ho, Hlen; lia|]. intros s2 H2.
      eapply (Hj _ _ (length ts - 1)); [exact H2|]. simpl. rewrite Ho, Hlen. replace (S (length ts) - 2) with (length ts - 1) by lia.
      rewrite drop_last by lia. done.
    + apply tp_ret. eapply (Hj _ _ 0); [exact H|done].
Qed.

(** From state 0 the context takes the barrier of the node and reads it. *)
Lemma visit_insert fuel s0 k T p c d s id :
  at_work s0 k T settled p c d s → ready_for id T c d →
  tp (run (S (S (S fuel))) p) (λ _ s', ∃ c' d', at_work s0 (k + 1) T settled p c' d' s' ∧ entering id T c d c' d') s.
Proof.
  intros H [Hst Hnode Href [Hin H0] Hni Hfree].
  set (d1 := if (node_ref_ d =? -1)%Z then start_at_root true (root_ T) (Z.of_nat (depth_ T)) (set_last_state_1 false d)
             else set_last_state_1 false d).
  assert (Hd1 : node_ref_ d1 = id ∧ optimistic_ d1 = optimistic_ d ∧ next_visit_is_leaf_node_ d1 = next_visit_is_leaf_node_ d ∧
    free_slot_available_in_parent_ d1 = free_slot_available_in_parent_ d ∧ (refer_to_root_ d1 = true → id = root_ T)).
  { unfold d1. destruct (Z.eqb_spec (node_ref_ d) (-1)); simpl; split_and!; try done. intros E. rewrite Href in E by done. done. }
  destruct Hd1 as (E1 & E2 & E3 & E4 & E5).
  eapply (alone_run_again _ _ _ (λ s1, ∃ c1, at_work s0 k T settled p c1 d1 s1 ∧ current_state c1 = 10001%Z ∧
    obtained_barriers_ c1 = obtained_barriers_ c ++ [mk_token id (visit_type d)])).
  { eapply to_step; [exact H|]. unfold insert_step. at_ H. rewrite Hst. simpl. unfold insert_state_0. at_ H. at_ H.
    simpl. fold d1. at_ H. at_ H. apply tp_bind. rewrite E1, E2, E3.
    eapply (to_ask _ _ _ _ _ _ _ _ _ _ H); [done|simpl; lia|simpl; exact Hni|]. clear H. intros s2 H. at_ H. at_ H.
    split; [done|]. eexists. split; [exact H|done]. }
  intros s1 (c1 & H1 & Hst1 & Ho1).
  eapply alone_run_again.
  { eapply (visit_state_10001 _ _ _ _ _ _ _ id (obtained_barriers_ c) (visit_type d)); [exact H1|done..|].
    intros Ho Hf. apply Hfree. congruence. }
  simpl. intros s2 (c2 & m & H2 & Hst2 & Ho2). apply (run_last _ _ _ (λ s', ∃ c' d', at_work s0 (k + 1) T settled p c' d' s' ∧ entering id T c d c' d')).
  eapply tp_mono; [eapply (visit_state_1 _ _ _ _ _ _ (entered id T d)); [exact H2|done|done|done|done|]|].
  - unfold entered. simpl. fold d1. done.
  - intros o s3 (Ho & c3 & H3 & Hn3 & Ho3). split; [done|]. exists c3, (entered id T d). split; [done|].
    split; [done|done|]. exists m. congruence.
Qed.

End visits.

End PullAlone.
