(* ===== verification/PullInsert.v ===== *)
(** Insertion through the pull-mode tree (src/src/tree/pull_based_b_plus_tree.h)
    by one client at a time: the runs of the context that works on the request,
    from its first read to its answer, change the blocks exactly as the
    sequential insertion does, and every run brings the answer nearer. *)
From Stdlib Require Import ZArith Lia.
From stdpp Require Import base list gmap sorting numbers functions.
From S2P Require Import Prelude KV Leaf Inner Store Tree TreeRep TreeFoot TreeInsert TreeSearch Barrier BarrierFrame PullState PullTree PullSafe PullAnswers TreeSpec PullSearch PullAlone.

Module PullInsert.
Import Barrier BarrierFrame Pull PullTree PullSafe PullAnswers PullSearch PullAlone.

Local Abbreviation frame := (InnerNode.InnerNode * nat)%type.
Local Abbreviation frame_id := (λ f : frame, InnerNode.self_rep_ f.1).
Local Abbreviation unmodified := (λ f : frame, InnerNode.modified_ f.1 = false).

(** ** The parents that wait to be flushed *)
Lemma next_modified_cases (stale fs : list frame) :
  Forall unmodified stale →
  (next_modified (rev (stale ++ fs)) = None ∧ Forall unmodified fs) ∨
  (∃ fs1 i t fs2, fs = fs1 ++ (i, t) :: fs2 ∧ Forall unmodified fs2 ∧ InnerNode.modified_ i = true ∧
     next_modified (rev (stale ++ fs)) = Some (i, rev (stale ++ fs1))).
Proof.
  intros Hs. induction fs as [|[i t] fs IH] using rev_ind.
  - left. split; [|done]. rewrite app_nil_r. induction stale as [|[i t] stale IH] using rev_ind; [done|].
    apply Forall_app in Hs as [Hs Hi]. apply Forall_cons_iff in Hi as [Hi _]. simpl in Hi.
    rewrite rev_app_distr. simpl. rewrite Hi. by apply IH.
  - rewrite app_assoc, rev_app_distr. simpl. destruct (InnerNode.modified_ i) eqn:Em.
    + right. exists fs, i, t, []. by split_and!.
    + destruct IH as [[E Hu]|(fs1 & i1 & t1 & fs2 & -> & Hu & Hm & E)].
      * left. split; [done|]. apply Forall_app. split; [done|]. by constructor.
      * right. exists fs1, i1, t1, (fs2 ++ [(i, t)]). rewrite <- app_assoc. split_and!; [done| |done|done].
        apply Forall_app. split; [done|]. by constructor.
Qed.

Section insertion.
Context {A : Type} `{!Allocator A} `{!AllocatorLaws A}.
Context (CAPACITY : nat) (junkE : list (Z * Z)) (junkK : list Z).
Context (Hpar : params_ok CAPACITY junkE junkK).
Local Abbreviation result := (node * option (node * Z) * tree_state A)%type.
Local Abbreviation pstate := (pstate A).
Local Abbreviation run := (run CAPACITY junkE junkK).
Local Abbreviation step := (step CAPACITY junkE junkK).
Local Abbreviation after := (after CAPACITY junkK).
Local Abbreviation unwind := (unwind CAPACITY junkK).
Local Abbreviation descends := (descends CAPACITY junkE junkK).
Implicit Types (s : pstate) (p q : nat) (T st : tree_state A) (res : result).

(** What the insertion into the tree does after that into its root: state 12,
    once both halves of a split root are written. *)
Definition finish res : option (tree_state A) :=
  let '(n, r, _) := res in
  let T := closed res in
  match r with
  | None => Some T
  | Some (rn, _) =>
      lkey ← node_leftmost_key n;
      rkey ← node_leftmost_key rn;
      let '(rep, a') := allocate (alloc T) in
      root ← InnerNode.create_root CAPACITY junkK rep lkey (node_self_rep n) rkey (node_self_rep rn);
      Some (close_at rep (NInner (InnerNode.mark_modified root)) (mk_state (blocks T) a' rep (depth_ T + 1)))
  end.

Lemma closed_alloc n r st : alloc (closed (n, r, st)) = alloc st.
Proof. destruct r as [[rn b]|]; simpl; by rewrite ?close_alloc. Qed.
Lemma closed_root n r st : root_ (closed (n, r, st)) = root_ st.
Proof. destruct r as [[rn b]|]; simpl; by rewrite ?close_root. Qed.
Lemma closed_depth n r st : depth_ (closed (n, r, st)) = depth_ st.
Proof. destruct r as [[rn b]|]; simpl; by rewrite ?close_depth. Qed.

Lemma close_elsewhere id n st (a : A) r d :
  close_at id n (mk_state (blocks st) a r d) = mk_state (blocks (close_at id n st)) a r d.
Proof. unfold close_at, ref_close. simpl. by destruct (node_modified n). Qed.

Lemma after_root f res res' : after f res = Some res' → root_ res'.2 = root_ res.2 ∧ depth_ res'.2 = depth_ res.2.
Proof.
  destruct f as [i target], res as [[child [[rchild bkey]|]] st0]; cbn [PullAlone.after].
  - destruct (_ <? _).
    + intros (i' & Hi & E)%bind_Some. simplify_eq. cbn [snd]. by rewrite ?closed_root, ?closed_depth, ?close_root, ?close_depth.
    + destruct (allocate _) as [rrep a']. intros ([[lt rt] b] & Hs & E)%bind_Some. simplify_eq. cbn [snd set_alloc root_ depth_].
      by rewrite ?closed_root, ?closed_depth, ?close_root, ?close_depth.
  - intros [= <-]. cbn [snd]. by rewrite ?closed_root, ?closed_depth, ?close_root, ?close_depth.
Qed.

Lemma unwind_root fs : ∀ res res', unwind fs res = Some res' → root_ res'.2 = root_ res.2 ∧ depth_ res'.2 = depth_ res.2.
Proof.
  induction fs as [|f fs IH]; simpl; intros res res'; [by intros [= <-]|].
  intros (res1 & E1 & E2)%bind_Some. apply after_root in E2 as [-> ->]. by apply IH.
Qed.

Lemma unwind_self fs res res' : unwind fs res = Some res' →
  node_self_rep res'.1.1 = match fs with [] => node_self_rep res.1.1 | f :: _ => frame_id f end.
Proof.
  destruct fs as [|f fs]; simpl; [by intros [= <-]|]. intros (res1 & E1 & E2)%bind_Some.
  destruct res' as [[n r] st]. by apply after_self in E2.
Qed.

(** Parents that were not modified are not written. *)
Lemma unwind_unmodified fs : ∀ n st,
  Forall unmodified fs → ∃ n' st', unwind fs (n, None, st) = Some (n', None, st') ∧
    closed (n', None, st') = closed (n, None, st).
Proof.
  induction fs as [|[i t] fs IH]; intros n st Hu; simpl; [by exists n, st|].
  apply Forall_cons_iff in Hu as [Hi Hu]. simpl in Hi. destruct (IH n st Hu) as (n1 & st1 & E & Hc).
  rewrite E. simpl in *. eexists _, _. split; [done|]. unfold close_at at 1, ref_close. simpl. by rewrite Hi.
Qed.

Lemma create_root_self rep lkey lrep rkey rrep root :
  InnerNode.create_root CAPACITY junkK rep lkey lrep rkey rrep = Some root → InnerNode.self_rep_ root = rep.
Proof.
  unfold InnerNode.create_root. intros (ks & _ & E)%bind_Some. apply bind_Some in E as (cs & _ & E).
  apply bind_Some in E as (ks' & _ & E). apply bind_Some in E as (cs' & _ & E). destruct (_ || _); [done|]. by simplify_eq.
Qed.

(** The ids of a path. *)
Lemma path_head st k id fs leaf : descends st k id fs leaf → head (path_ids fs leaf) = Some id.
Proof.
  destruct fs as [|[i1 t] fs]; simpl.
  - intros (_ & _ & b & _ & _ & <- & _). done.
  - intros (_ & _ & b & _ & i & index & c & _ & _ & _ & _ & <- & _). done.
Qed.

Lemma path_in_use st k fs leaf : ∀ id, descends st k id fs leaf → ∀ f, f ∈ fs → frame_id f ∈ in_use (alloc st).
Proof.
  induction fs as [|[i1 t] fs IH]; intros id Hd f; [by intros ?%elem_of_nil|].
  destruct Hd as (Hin & _ & b & _ & i & index & c & _ & _ & _ & _ & Hs & _ & _ & Hd).
  rewrite elem_of_cons. intros [->|Hf]; [simpl; by rewrite Hs|by eapply IH].
Qed.

(** The sequential insertion is the result at the leaf, carried back to the root. *)
Lemma insertion_finishes T k v fs leaf :
  descends T k (root_ T) fs leaf → depth_ T = S (length fs) →
  insert CAPACITY junkE junkK k v T = res0 ← leaf_result CAPACITY junkE k v leaf T; res ← unwind fs res0; finish res.
Proof using Hpar.
  intros Hd Hdep. destruct (descends_load _ _ _ _ _ _ _ _ Hd) as [n Hn]. unfold insert. rewrite Hn. cbn [mbind option_bind].
  rewrite (insert_ws_unwind CAPACITY junkE junkK Hpar T k v fs leaf (root_ T) (depth_ T) n Hd Hn) by lia.
  destruct (leaf_result CAPACITY junkE k v leaf T) as [res|] eqn:El; [|done]. cbn [mbind option_bind].
  destruct (unwind fs res) as [[[n' r] st']|] eqn:Eu; [|done]. cbn [mbind option_bind].
  destruct r as [[rn b]|].
  - unfold finish. rewrite closed_alloc. destruct (node_leftmost_key n'), (node_leftmost_key rn); [|done..]. cbn [mbind option_bind].
    destruct (allocate (alloc st')) as [rep a']. destruct (InnerNode.create_root _ _ _ _ _ _ _); [|done]. cbn [mbind option_bind].
    rewrite closed_depth. simpl. by rewrite !close_elsewhere.
  - simpl. assert (Hs : node_self_rep n' = root_ st'); [|by rewrite Hs].
    pose proof (unwind_root _ _ _ Eu) as [Hr _]. pose proof (unwind_self _ _ _ Eu) as Hself. simpl in Hr, Hself. rewrite Hr, Hself.
    destruct res as [[n0 r0] st0].
    assert (Hroot : root_ st0 = root_ T).
    { unfold leaf_result in El. destruct (allocate (alloc T)) as [rrep a']. apply bind_Some in El as ([l' [[rt b]|]] & _ & El); by simplify_eq. }
    simpl. rewrite Hroot. destruct fs as [|[i1 t] fs].
    + destruct Hd as (_ & _ & b & _ & _ & Hself' & Hwf). apply (leaf_result_facts CAPACITY junkE junkK) in El as (l' & -> & Hs' & _); [|done..]. simpl. congruence.
    + by destruct Hd as (_ & _ & b & _ & i & index & c & _ & _ & _ & _ & Hs & _).
Qed.

#[local] Arguments closed : simpl never.

(** ** The course of an insertion *)
Context (T0 : tree_state A) (k v : Z) (fs : list frame) (leaf : LeafNode.LeafNode) (final : result) (Tf : tree_state A).

(** The insertion of [(k, v)] into [T0] goes down the path [fs] to [leaf]; the
    sequential insertion returns [Tf]. *)
Record course : Prop := {
  co_path : descends T0 k (root_ T0) fs leaf;
  co_nodup : NoDup (path_ids fs leaf);
  co_depth : depth_ T0 = S (length fs);
  co_wf : alloc_wf (alloc T0);
  co_room : room (alloc T0) (S (S (length fs)));
  co_final : (res0 ← leaf_result CAPACITY junkE k v leaf T0; unwind fs res0) = Some final;
  co_finish : finish final = Some Tf }.
Hypothesis (Hco : course).

(** ** Down *)
(** The context reads node [id]; it has come through [fs1], [fs2] is left. *)
Record down (id : Z) (fs1 fs2 stale : list frame) (c : call_back_context) (d : insert_context) : Prop := {
  dn_split : fs = fs1 ++ fs2;
  dn_path : descends T0 k id fs2 leaf;
  dn_state : next_state c = 2%Z;
  dn_request : i_key d = k ∧ i_val d = v;
  dn_buffer : buffer_ d = blocks T0 !! id;
  dn_node : node_ref_ d = id ∧ refer_to_root_ d = false;
  dn_parents : pending_parent_nodes_ d = stale ++ fs1 ∧ Forall unmodified stale;
  dn_optimistic : optimistic_ d = true → stale = [] ∧ Forall unmodified fs1;
  dn_level : current_node_level_ d = Z.of_nat (S (length fs2));
  dn_tokens : ∃ ts ty, obtained_barriers_ c = ts ++ [mk_token id ty] ∧ (fs2 = [] → ty = WRITE_BARRIER) ∧
    ∀ t, t ∈ ts → barrier_id_ t ∈ frame_id <$> fs1 }.

(** The same in state 0, before the barrier is asked for. *)
Record above_node (id : Z) (fs1 fs2 stale : list frame) (c : call_back_context) (d : insert_context) : Prop := {
  ab_split : fs = fs1 ++ fs2;
  ab_path : descends T0 k id fs2 leaf;
  ab_ready : ready_for id T0 c d;
  ab_request : i_key d = k ∧ i_val d = v;
  ab_parents : pending_parent_nodes_ d = stale ++ fs1 ∧ Forall unmodified stale;
  ab_optimistic : optimistic_ d = true → stale = [] ∧ Forall unmodified fs1;
  ab_level : (if (node_ref_ d =? -1)%Z then Z.of_nat (depth_ T0) else current_node_level_ d) = Z.of_nat (S (length fs2));
  ab_leaf : next_visit_is_leaf_node_ d = (length fs2 =? 0);
  ab_tokens : ∀ t, t ∈ obtained_barriers_ c → barrier_id_ t ∈ frame_id <$> fs1 }.

Lemma entering_down id fs1 fs2 stale c d c' d' :
  above_node id fs1 fs2 stale c d → entering id T0 c d c' d' →
  down id fs1 fs2 stale c' d' ∧ optimistic_ d' = optimistic_ d.
Proof.
  intros [A1 A2 A3 A4 A5 A6 A7 A8 A9] [E1 -> [m Em]].
  destruct (entered_facts id T0 d) as (F1 & F2 & F3 & F4 & _ & _ & F7 & _ & F9 & F10). split; [|done].
  destruct A3 as [_ Hnode _ _ _ _]. split; rewrite ?F1, ?F2, ?F3, ?F4, ?F7, ?F9, ?F10; try done.
  exists (drop m (obtained_barriers_ c)), (visit_type d). split_and!; [done| |].
  - intros ->. unfold visit_type. rewrite A8. simpl. by rewrite andb_false_r.
  - intros t Ht. apply A9. rewrite <- (take_drop m (obtained_barriers_ c)). apply elem_of_app. by right.
Qed.

(** The visit of a node, from state 0. *)
Lemma visit_node fuel s0 j p c d s id fs1 fs2 stale :
  at_work s0 j T0 settled p c d s → above_node id fs1 fs2 stale c d →
  tp (run (S (S (S fuel))) p)
    (λ _ s', ∃ c' d', at_work s0 (j + 1) T0 settled p c' d' s' ∧ down id fs1 fs2 stale c' d' ∧ optimistic_ d' = optimistic_ d) s.
Proof.
  intros H Ha. eapply tp_mono; [eapply visit_insert; [exact H|apply Ha]|].
  intros _ s' (c' & d' & H' & He). exists c', d'. split; [done|]. by eapply entering_down.
Qed.

Lemma path_split fs1 fs2 id f :
  fs = fs1 ++ fs2 → descends T0 k id fs2 leaf → f ∈ fs1 → frame_id f ≠ id.
Proof using Hco.
  intros E Hd Hf Heq. pose proof (co_nodup Hco) as Hnd. unfold path_ids in Hnd. rewrite E, fmap_app, <- app_assoc in Hnd.
  apply list.NoDup_app in Hnd as (_ & Hnd & _). apply (Hnd (InnerNode.self_rep_ f.1)); [apply list_elem_of_fmap; by exists f|].
  pose proof (path_head _ _ _ _ _ Hd) as Hh. rewrite Heq. by apply head_Some_elem_of.
Qed.

(** State 2 at an inner node, on the way to its child. *)
Lemma down_inner id fs1 i1 target fs2 stale c d :
  down id fs1 ((i1, target) :: fs2) stale c d →
  ∃ b i index cid, buffer_ d = Some b ∧ deserialize CAPACITY junkE junkK b = Some (NInner i) ∧
    InnerNode.locate_child_index k i = Some index ∧ target = Z.to_nat (Z.max 0 index) ∧
    (if (index <? 0)%Z then InnerNode.set_left_boundary k i else Some i) = Some i1 ∧
    InnerNode.child_rep_ i1 !! target = Some cid ∧ InnerNode.modified_ i1 = (index <? 0)%Z ∧
    ∀ c' d', current_state c' = 0%Z → obtained_barriers_ c' = obtained_barriers_ c →
      d' = visit_child (pending_parent_nodes_ d ++ [(i1, target)]) cid (InnerNode.has_free_slot CAPACITY i1)
             (index <? 0)%Z (current_node_level_ d =? 2)%Z (current_node_level_ d - 1)%Z (set_last_state_1 false d) →
      (optimistic_ d = true → (index <? 0)%Z = false) →
      above_node cid (fs1 ++ [(i1, target)]) fs2 stale c' d'.
Proof using Hco.
  intros [D1 (Hin & H0 & b & Hb & i & index & cid & Hi & Hloc & Ht & Hi1 & Hself & Hmod & Hcid & Hd) D3 D4 D5 [D6 D7] [D8 D9] D10 D11 (ts & ty & Ets & _ & Hts)].
  rewrite Hb in D5. exists b, i, index, cid. split_and!; [done..|]. intros c' d' Hst Hob -> Hopt.
  assert (Esp : fs = (fs1 ++ [(i1, target)]) ++ fs2) by (by rewrite <- app_assoc).
  assert (Hids : ∀ t, t ∈ obtained_barriers_ c' → barrier_id_ t ∈ frame_id <$> (fs1 ++ [(i1, target)])).
  { intros t. rewrite Hob, Ets, fmap_app, !elem_of_app, list_elem_of_singleton. intros [Ht'| ->]; [left; by apply Hts|right].
    simpl. rewrite Hself. constructor. }
  assert (Hc0 : cid ∈ in_use (alloc T0) ∧ (0 ≤ cid)%Z) by (destruct fs2 as [|[i2 t2] fs2]; simpl in Hd; tauto).
  split; simpl; try done.
  - split; simpl; try done.
    + rewrite (proj2 (Z.eqb_neq cid (-1))); [done|lia].
    + intros t Hin'. apply Hids in Hin'. simpl in Hin'. apply list_elem_of_fmap in Hin' as (f & Ef & Hf).
      by apply (path_split _ _ _ _ Esp Hd Hf).
    + intros _. rewrite Hob, Ets, length_app. simpl. lia.
  - rewrite D8, <- app_assoc. done.
  - intros Ho. destruct (D10 Ho) as [-> Hu]. split; [done|]. apply Forall_app. split; [done|]. constructor; [|done].
    simpl. rewrite Hmod. by apply Hopt.
  - rewrite (proj2 (Z.eqb_neq cid (-1))) by lia. rewrite D11. simpl. lia.
  - rewrite D11. cbn [length]. apply eq_true_iff_eq. rewrite Z.eqb_eq, Nat.eqb_eq. lia.
Qed.

(** State 13: the second pass starts at the root. *)
Lemma restart_above id fs1 fs2 stale c d c' d' :
  down id fs1 fs2 stale c d → optimistic_ d = true → current_state c' = 0%Z → obtained_barriers_ c' = [] →
  d' = set_node_ref (-1) (restart false false false (depth_ T0 =? 1) (Z.of_nat (depth_ T0)) (set_last_state_1 false (set_last_state_1 false d))) →
  above_node (root_ T0) [] fs fs1 c' d'.
Proof using Hco.
  intros [D1 D2 D3 D4 D5 D6 [D8 D9] D10 D11 D12] Ho Hst Hob ->. destruct (D10 Ho) as [-> Hu].
  pose proof (co_path Hco) as Hp. split; simpl; try done.
  - split; simpl; try done; [|rewrite Hob; by intros t ?%elem_of_nil].
    destruct fs as [|[i2 t2] fs2']; simpl in Hp; tauto.
  - split; [|done]. by rewrite D8, app_nil_r.
  - by rewrite (co_depth Hco).
  - rewrite (co_depth Hco). by destruct (length fs).
  - rewrite Hob. by intros t ?%elem_of_nil.
Qed.

Lemma restart_step s0 j p c d d1 s id fs1 fs2 stale :
  down id fs1 fs2 stale c d → optimistic_ d = true →
  at_work s0 j T0 settled p (moved_on (set_next_state 13 c)) (set_last_state_1 false d) s →
  d1 = set_node_ref (-1) (restart false false false (depth_ T0 =? 1) (Z.of_nat (depth_ T0)) (set_last_state_1 false (set_last_state_1 false d))) →
  tp (step p) (λ o s', o = Again ∧ ∃ c', at_work s0 j T0 settled p c' d1 s' ∧ above_node (root_ T0) [] fs fs1 c' d1) s.
Proof using Hco.
  intros Hd Ho H ->. eapply to_step; [exact H|]. unfold insert_step. at_ H. simpl. unfold insert_state_13. at_ H. at_ H. at_ H.
  at_ H. at_ H. at_ H. at_ H. at_ H. split; [done|]. eexists. split; [exact H|].
  by eapply restart_above.
Qed.

(** ** Up *)
(** The result [res] at a node is written; the parents [fsu] are to be changed
    or flushed. *)
Record climb (fsu : list frame) res (d : insert_context) : Prop := {
  up_prefix : ∃ rest, fs = fsu ++ rest;
  up_unwind : unwind fsu res = Some final;
  up_request : i_key d = k ∧ i_val d = v;
  up_parents : ∃ stale, pending_parent_nodes_ d = stale ++ fsu ∧ Forall unmodified stale;
  up_split : match res.1.2 with
             | None => child_node_split_ d = false
             | Some (rn, b) => child_node_split_ d = true ∧ split_ d = Some (res.1.1, rn, b)
             end;
  up_alloc : alloc_wf (alloc (closed res)) ∧ room (alloc (closed res)) (S (length fsu));
  up_tree : root_ (closed res) = root_ T0 ∧ ∀ f, f ∈ fsu → frame_id f ∈ in_use (alloc (closed res)) }.

(** [j] of the writes of [res] have not completed. *)
Record up (fsu : list frame) res (j : nat) (c : call_back_context) (d : insert_context) : Prop := {
  up_climb : climb fsu res d;
  up_state : next_state c = match fsu, res.1.2 with [], Some _ => 12 | _, _ => 10 end%Z;
  up_count : write_back_completion_target_ d = write_back_completion_count_ d + j ∧ 1 ≤ j ≤ 2 }.

Lemma root_id fs1 fs2 id : fs = fs1 ++ fs2 → descends T0 k id fs2 leaf → (id =? root_ T0)%Z = (length fs1 =? 0).
Proof using Hco.
  intros E Hd. pose proof (path_head _ _ _ _ _ (co_path Hco)) as Hr.
  destruct fs1 as [|f fs1].
  - simpl in E. subst fs2. pose proof (path_head _ _ _ _ _ Hd) as Hh. rewrite Hr in Hh. simplify_eq. apply Z.eqb_refl.
  - simpl. apply Z.eqb_neq. intros ->. rewrite E in Hr. unfold path_ids in Hr. simpl in Hr. injection Hr as Hr.
    apply (path_split _ _ _ f E Hd); [constructor|done].
Qed.

Lemma descends_suffix st fs1 fs2 : ∀ id, descends st k id (fs1 ++ fs2) leaf → ∃ id', descends st k id' fs2 leaf.
Proof using.
  induction fs1 as [|[i1 t] fs1 IH]; intros id Hd; [by exists id|].
  destruct Hd as (_ & _ & b & _ & i & index & c & _ & _ & _ & _ & _ & _ & _ & Hd). by eapply IH.
Qed.

Lemma parent_is_root fs1 f rest : fs = fs1 ++ f :: rest → (frame_id f =? root_ T0)%Z = (length fs1 =? 0).
Proof using Hco.
  intros E. pose proof (co_path Hco) as Hp. rewrite E in Hp at 1. destruct (descends_suffix _ _ _ _ Hp) as [id' Hd].
  pose proof (path_head _ _ _ _ _ Hd) as Hh. unfold path_ids in Hh. simpl in Hh. injection Hh as Hh. rewrite Hh. by eapply root_id.
Qed.

(** The leaf is changed and written. *)
Lemma leaf_step s0 j p c d s id stale :
  at_work s0 j T0 settled p c d s → down id fs [] stale c d → current_state c = 2%Z →
  tp (step p) (λ o s',
    (o = Again ∧ optimistic_ d = true ∧ at_work s0 j T0 settled p (moved_on (set_next_state 13 c)) (set_last_state_1 false d) s') ∨
    (o ≠ Again ∧ ∃ res n c' d', at_work s0 (j + n) (closed res) settled p c' d' s' ∧ up fs res n c' d')) s.
Proof using Hco Hpar AllocatorLaws0.
  intros H [D1 D2 D3 [D4 D4'] D5 [D6 D7] [D8 D9] D10 D11 (ts & ty & Ets & Hty & Hts)] Hst.
  specialize (Hty eq_refl). subst ty. pose proof (root_id fs [] id D1 D2) as Hroot.
  destruct D2 as (Hin & H0 & b & Hb & Hleaf & Hself & Hwf). rewrite Hb in D5.
  eapply to_step; [exact H|]. unfold insert_step. at_ H. rewrite Hst. simpl. unfold insert_state_2. at_ H.
  apply tp_bind. eapply tp_require; [simpl; exact D5|]. apply tp_bind. eapply tp_require; [exact Hleaf|]. unfold insert_state_2_leaf.
  at_ H. at_ H. apply tp_bind, tp_assert; [simpl; by rewrite D11|]. rewrite Ets, last_snoc. apply tp_bind. eapply tp_require; [done|].
  apply tp_bind, tp_assert; [done|]. cbn [optimistic_ set_last_state_1].
  destruct (optimistic_ d && _) eqn:Eo.
  { apply andb_true_iff in Eo as [Eo _]. at_ H. at_ H. left. split_and!; [done|done|exact H]. }
  pose proof (co_final Hco) as Hfin. apply bind_Some in Hfin as ([[n r] st1] & Hres & Hun).
  destruct (leaf_result_facts CAPACITY junkE junkK Hpar k v leaf T0 n r st1 Hwf Hres) as (l' & -> & Hs' & Hm' & Hr).
  unfold leaf_result in Hres. destruct (allocate (alloc T0)) as [rrep a'] eqn:Ea. apply bind_Some in Hres as ([l0 r0] & Hins & Hres).
  cbn [i_key i_val set_last_state_1]. rewrite D4, D4'. apply tp_bind. eapply tp_require; [exact Hins|].
  destruct (allocate_fresh _ _ _ _ (co_wf Hco) (co_room Hco) Ea) as (Hf1 & Hf2 & Hf3 & Hf4 & Hf5).
  destruct r0 as [[rt bkey]|]; simplify_eq.
  - destruct Hr as (rt' & rrep' & a'' & [= <-] & [= <- <-] & _ & Hsr & Hmr).
    apply tp_bind. eapply (to_set_tree _ _ _ (set_alloc a' T0)); [exact H|by rewrite (w_tree _ _ _ _ _ _ _ _ H)|]. clear H. intros s1 H.
    at_ H. at_ H. apply tp_bind.
    change (LeafNode.self_rep_ leaf) with (node_self_rep (NLeaf leaf)).
    replace (node_ref_ _) with (node_self_rep (NLeaf l')) by (simpl; congruence).
    eapply (to_write _ _ _ _ _ _ _ _ _ _ H); [simpl; rewrite Hf3, Hs'; set_solver|done|]. clear H. intros s2 H. apply tp_bind.
    eapply (to_write _ _ _ _ _ _ _ _ (NLeaf rt) _ H); [rewrite close_alloc; simpl; rewrite Hf3; set_solver|done|]. clear H. intros s3 H.
    apply tp_ret. right. split; [done|]. eexists (NLeaf l', Some (NLeaf rt, bkey), set_alloc a' T0), 2, _, _.
    split; [rewrite <- Nat.add_assoc in H; exact H|].
    split; [|simpl; rewrite Hs'; change (node_self_rep (NLeaf leaf)) with (LeafNode.self_rep_ leaf) in Hroot; rewrite Hroot; by destruct fs|simpl; lia].
    split; rewrite ?closed_alloc, ?closed_root; try done.
    + exists []. by rewrite app_nil_r.
    + by exists stale.
    + split; [done|]. intros f Hf. simpl. rewrite Hf3. apply elem_of_union_r. by eapply path_in_use; [apply Hco|].
  - at_ H. at_ H. apply tp_bind. replace (node_ref_ _) with (node_self_rep (NLeaf l')) by (simpl; congruence).
    eapply (to_write _ _ _ _ _ _ _ _ _ _ H); [simpl; rewrite Hs'; set_solver|done|]. clear H. intros s2 H. apply tp_ret. right.
    split; [done|]. eexists (NLeaf l', None, T0), 1, _, _. split; [exact H|]. split; [|simpl; by destruct fs|simpl; lia].
    split; rewrite ?closed_alloc, ?closed_root; try done.
    + exists []. by rewrite app_nil_r.
    + by exists stale.
    + split; [apply Hco|]. eapply room_le; [|apply Hco]. lia.
    + split; [done|]. eapply path_in_use. apply Hco.
Qed.

(** An inner node is left for its child. *)
Lemma inner_step s0 j p c d s id fs1 f fs2 stale :
  at_work s0 j T0 settled p c d s → down id fs1 (f :: fs2) stale c d → current_state c = 2%Z →
  tp (step p) (λ o s', o = Again ∧
    ((optimistic_ d = true ∧ at_work s0 j T0 settled p (moved_on (set_next_state 13 c)) (set_last_state_1 false d) s') ∨
     ∃ cid c' d', at_work s0 j T0 settled p c' d' s' ∧ above_node cid (fs1 ++ [f]) fs2 stale c' d' ∧ optimistic_ d' = optimistic_ d)) s.
Proof using Hco.
  intros H Hd Hst. destruct f as [i1 target]. pose proof (dn_request _ _ _ _ _ _ Hd) as [Hk _].
  destruct (down_inner _ _ _ _ _ _ _ _ Hd) as (b & i & index & cid & Hb & Hi & Hloc & Ht & Hi1 & Hc & Hm & Hnext).
  eapply to_step; [exact H|]. unfold insert_step. at_ H. rewrite Hst. simpl. unfold insert_state_2. at_ H.
  apply tp_bind. eapply tp_require; [simpl; exact Hb|]. apply tp_bind. eapply tp_require; [exact Hi|]. unfold insert_state_2_inner.
  cbn [i_key set_last_state_1 optimistic_]. rewrite Hk. apply tp_bind. eapply tp_require; [exact Hloc|].
  destruct (_ && _) eqn:Eo.
  { apply andb_true_iff in Eo as [_ Eo]. at_ H. at_ H. split; [done|]. left. split; [done|exact H]. }
  rewrite <- Ht. apply tp_bind. eapply tp_require; [exact Hi1|]. apply tp_bind. eapply tp_require; [exact Hc|].
  at_ H. at_ H. split; [done|]. right. eexists cid, _, _. split; [exact H|]. split; [|done].
  apply Hnext; [done|done|done|]. intros E. rewrite E, andb_true_r in Eo. done.
Qed.

(** A run after the read of a node: on to the child, back to the root, or the
    leaf is changed. *)
Lemma run_down fuel s0 j p c d s id fs1 fs2 stale :
  at_work s0 j T0 settled p c d s → down id fs1 fs2 stale c d → current_state c = 2%Z →
  tp (run (5 + fuel) p) (λ _ s', ∃ n T c' d', at_work s0 (j + n) T settled p c' d' s' ∧
    ((∃ f id' fs2', fs2 = f :: fs2' ∧ n = 1 ∧ T = T0 ∧ down id' (fs1 ++ [f]) fs2' stale c' d' ∧ optimistic_ d' = optimistic_ d) ∨
     (optimistic_ d = true ∧ n = 1 ∧ T = T0 ∧ down (root_ T0) [] fs fs1 c' d' ∧ optimistic_ d' = false) ∨
     (∃ res, T = closed res ∧ up fs res n c' d'))) s.
Proof using Hco Hpar AllocatorLaws0.
  intros H Hd Hst.
  assert (Hagain : ∀ s1, optimistic_ d = true → at_work s0 j T0 settled p (moved_on (set_next_state 13 c)) (set_last_state_1 false d) s1 →
    tp (run (4 + fuel) p) (λ _ s', ∃ c' d', at_work s0 (j + 1) T0 settled p c' d' s' ∧ down (root_ T0) [] fs fs1 c' d' ∧ optimistic_ d' = false) s1).
  { intros s1 Ho H1. eapply alone_run_again; [by eapply restart_step|]. intros s2 (c2 & H2 & Ha).
    eapply tp_mono; [by eapply visit_node|]. done. }
  destruct fs2 as [|f fs2].
  - assert (fs1 = fs) as -> by (rewrite (dn_split _ _ _ _ _ _ Hd); by rewrite app_nil_r).
    change (5 + fuel) with (S (4 + fuel)). cbn [PullTree.run]. apply tp_bind.
    eapply tp_mono; [by eapply leaf_step|]. intros o s1 [(-> & Ho & H1)|(Hno & res & n & c' & d' & H1 & Hu)].
    + eapply tp_mono; [by apply Hagain|]. intros _ s2 (c2 & d2 & H2 & Hd2 & Ho2). exists 1, T0, c2, d2. split; [done|]. right. left. done.
    + assert (Hr : ∃ n T c' d', at_work s0 (j + n) T settled p c' d' s1 ∧
        ((∃ f id' fs2', [] = f :: fs2' ∧ n = 1 ∧ T = T0 ∧ down id' (fs ++ [f]) fs2' stale c' d' ∧ optimistic_ d' = optimistic_ d) ∨
         (optimistic_ d = true ∧ n = 1 ∧ T = T0 ∧ down (root_ T0) [] fs fs c' d' ∧ optimistic_ d' = false) ∨
         (∃ res, T = closed res ∧ up fs res n c' d'))) by (exists n, (closed res), c', d'; eauto 10).
      destruct o; [done|by apply tp_ret..].
  - eapply alone_run_again; [by eapply inner_step|]. intros s1 [[Ho H1]|(cid & c1 & d1' & H1 & Ha & Ho)].
    + eapply tp_mono; [by apply Hagain|]. intros _ s2 (c2 & d2 & H2 & Hd2 & Ho2). exists 1, T0, c2, d2. split; [done|]. right. left. done.
    + eapply tp_mono; [by eapply (visit_node (1 + fuel))|]. intros _ s2 (c2 & d2 & H2 & Hd2 & Ho2). exists 1, T0, c2, d2. split; [done|].
      left. exists f, cid, fs2. split_and!; [done..|congruence].
Qed.

(** The context has given everything back: state 11. *)
Record ended s0 p s' : Prop := {
  en_alone : alone settled p (manager s');
  en_mine : ∃ c d, ctxs s' !! p = Some c ∧ obtained_barriers_ c = [] ∧ datas s' !! p = Some (CInsert d);
  en_tree : tree s' = Tf;
  en_counts : pending_request_ s' = (pending_request_ s0 - 1)%Z ∧ free_context_slots_ s' = (free_context_slots_ s0 + 1)%Z;
  en_answers : answers s' = answers s0 ++ [Inserted k v] ∧ free_insert_contexts_ s' = p :: free_insert_contexts_ s0;
  en_rest : request_queue_ s' = request_queue_ s0 ∧ free_search_contexts_ s' = free_search_contexts_ s0 ∧
    admission_contexts_ s' = admission_contexts_ s0 ∧ blk_ready_contexts s' = blk_ready_contexts s0 ∧
    pending_contexts_ s' = pending_contexts_ s0 ∧ length (pending_ids_ s') = length (pending_ids_ s0);
  en_others : ∀ q, q ≠ p → ctxs s' !! q = ctxs s0 !! q ∧ datas s' !! q = datas s0 !! q }.

Lemma last_step s0 p c d s :
  at_work s0 0 Tf settled p c d s → current_state c = 11%Z → i_key d = k → i_val d = v →
  tp (step p) (λ o s', o ≠ Again ∧ ended s0 p s') s.
Proof using.
  intros H Hst Hk Hv. eapply to_step; [exact H|]. unfold insert_step. at_ H. rewrite Hst. simpl. unfold insert_state_11.
  at_ H. at_ H. at_ H. do 3 (apply tp_bind, tp_modify). apply tp_ret. split; [done|].
  destruct H as [W1 W2 W3 W4 (R1 & R2 & R3 & R4 & R5 & R6 & R7 & R8) [I1 I2] O L]. simpl in *. rewrite app_nil_r in I1. rewrite Hk, Hv.
  split; simpl; try done.
  - eexists _, _. split; [exact W2|]. split; [done|exact W3].
  - rewrite R2, R3. done.
  - by rewrite R7, R4.
  - split_and!; [done..|lia].
Qed.

(** State 9 after a split: the parent gets the new node, or is split too. *)
Lemma split_step s0 p c d s fsu n rn b st :
  at_work s0 0 (closed (n, Some (rn, b), st)) settled p c d s → climb fsu (n, Some (rn, b), st) d → fsu ≠ [] →
  tp (insert_state_9_split CAPACITY junkK p (set_last_state_1 false d)) (λ o s', o ≠ Again ∧
    ∃ fsu' res' n' c' d', length fsu' < length fsu ∧ at_work s0 n' (closed res') settled p c' d' s' ∧ up fsu' res' n' c' d') s.
Proof using Hco Hpar AllocatorLaws0.
  intros H [(rest & Hpre) Hun [Hk Hv] (stale & Hpar' & Hstale) [Hcs Hsp] [Hwf Hroom] [Hroot Hin]] Hne.
  simpl in Hsp. destruct (exists_last Hne) as (fsu' & [parent pos] & ->).
  rewrite unwind_app in Hun. apply bind_Some in Hun as (res' & Hone & Hun). simpl in Hone.
  assert (Hafter : after (parent, pos) (n, Some (rn, b), st) = Some res').
  { done. }
  unfold insert_state_9_split. cbn [pending_parent_nodes_ set_last_state_1]. rewrite Hpar', app_assoc, last_snoc.
  at_ H. apply tp_bind. eapply tp_require; [exact Hsp|]. cbn zeta. rewrite removelast_last.
  cbn [PullAlone.after] in Hafter.
  assert (Hrt : (root_ (closed (n, Some (rn, b), st)) =? InnerNode.self_rep_ parent)%Z = (length fsu' =? 0)).
  { rewrite Hroot, Z.eqb_sym. apply (parent_is_root fsu' (parent, pos) rest). by rewrite Hpre, <- app_assoc. }
  assert (Hself : InnerNode.self_rep_ parent ∈ in_use (alloc (closed (n, Some (rn, b), st)))).
  { apply (Hin (parent, pos)). apply elem_of_app. right. constructor. }
  assert (Hpre' : ∃ rest, fs = fsu' ++ rest) by (rewrite Hpre, <- app_assoc; eauto).
  rewrite length_app in Hroom |- *. simpl in Hroom |- *. rewrite closed_alloc in *.
  destruct (InnerNode.size_ parent <? CAPACITY).
  - apply bind_Some in Hafter as (i' & Hi' & [= <-]). destruct (insert_inner_node_facts _ _ _ _ _ Hi') as [Hs' Hm'].
    apply tp_bind. eapply tp_require; [exact Hi'|]. at_ H. at_ H. apply tp_bind.
    eapply (to_write _ _ _ _ _ _ _ _ (NInner i') _ H); [simpl; by rewrite Hs', closed_alloc|done|]. clear H. intros s1 H. apply tp_ret. split; [done|].
    eexists fsu', (NInner i', None, closed (n, Some (rn, b), st)), 1, _, _. split; [lia|]. split; [exact H|].
    split; [|simpl; by destruct fsu'|simpl; lia]. split; rewrite ?closed_alloc, ?closed_root; try done.
    + by exists stale.
    + split; [done|]. eapply room_le; [|exact Hroom]. lia.
    + rewrite <- Hroot. split; [by rewrite closed_root|]. intros f Hf. rewrite ?closed_alloc. apply Hin. set_solver.
  - destruct (allocate (alloc st)) as [rrep a'] eqn:Ea. apply bind_Some in Hafter as ([[lt rt] b'] & Hsi & [= <-]).
    destruct (split_insert_facts _ _ _ _ _ _ _ _ _ _ Hsi) as (Hsl & Hml & Hsr & Hmr).
    rewrite Nat.add_comm in Hroom. destruct (allocate_fresh _ _ _ _ Hwf Hroom Ea) as (Hf1 & Hf2 & Hf3 & Hf4 & Hf5).
    apply tp_bind. eapply (to_allocate _ _ _ _ _ _ _ _ _ _ _ H); [by rewrite closed_alloc|]. clear H. intros s1 H.
    apply tp_bind. eapply tp_require; [exact Hsi|]. cbn beta iota zeta. at_ H. at_ H. apply tp_bind.
    eapply (to_write _ _ _ _ _ _ _ _ (NInner lt) _ H); [simpl; rewrite Hsl, Hf3; set_solver|done|]. clear H. intros s2 H. apply tp_bind.
    eapply (to_write _ _ _ _ _ _ _ _ (NInner rt) _ H); [rewrite close_alloc; simpl; rewrite Hsr, Hf3; set_solver|done|]. clear H. intros s3 H.
    apply tp_ret. split; [done|]. eexists fsu', (NInner lt, Some (NInner rt, b'), set_alloc a' (closed (n, Some (rn, b), st))), 2, _, _. split; [lia|]. split; [exact H|].
    split; [|simpl; rewrite Hsl, Hrt; by destruct fsu'|simpl; lia]. split; rewrite ?closed_alloc, ?closed_root; try done.
    + by exists stale.
    + split; [simpl; by rewrite <- Hroot|]. intros f Hf. simpl. rewrite Hf3. apply elem_of_union_r, Hin. set_solver.
Qed.

(** State 9 without a split: the next modified parent is written, if any. *)
Lemma flush_step s0 p c d s fsu n st :
  at_work s0 0 (closed (n, None, st)) settled p c d s → climb fsu (n, None, st) d →
  tp (insert_state_9_flush p (set_last_state_1 false d)) (λ o s',
    (o ≠ Again ∧ ∃ fsu' res' c' d', length fsu' < length fsu ∧ at_work s0 1 (closed res') settled p c' d' s' ∧ up fsu' res' 1 c' d') ∨
    (o = Again ∧ ∃ c' d', at_work s0 0 Tf settled p c' d' s' ∧ current_state c' = 11%Z ∧ i_key d' = k ∧ i_val d' = v)) s.
Proof using Hco Hpar AllocatorLaws0.
  intros H [(rest & Hpre) Hun [Hk Hv] (stale & Hpar' & Hstale) Hcs [Hwf Hroom] [Hroot Hin]].
  unfold insert_state_9_flush. cbn [pending_parent_nodes_ set_last_state_1]. rewrite Hpar'.
  destruct (next_modified_cases stale fsu Hstale) as [[-> Hu]|(fs1 & i & t & fs2 & -> & Hu & Hm & ->)].
  - at_ H. at_ H. right. split; [done|].
    destruct (unwind_unmodified fsu n st Hu) as (n' & st' & E & Hc). rewrite E in Hun. injection Hun as Hf.
    pose proof (co_finish Hco) as Hfin. rewrite <- Hf in Hfin. simpl in Hfin. injection Hfin as Hfin. rewrite Hc in Hfin. rewrite Hfin in H.
    eexists _, _. split; [exact H|by split_and!].
  - rewrite unwind_app in Hun. apply bind_Some in Hun as (res' & Hone & Hun). simpl in Hone.
    destruct (unwind_unmodified fs2 n st Hu) as (n' & st' & E & Hc). rewrite E in Hone. simpl in Hone. rewrite Hc in Hone. injection Hone as <-.
    cbn beta iota zeta. at_ H. at_ H. apply tp_bind.
    eapply (to_write _ _ _ _ _ _ _ _ (NInner i) _ H); [|done|].
    { apply (Hin (i, t)). apply elem_of_app. right. constructor. }
    clear H. intros s1 H. apply tp_ret. left. split; [done|]. eexists fs1, (NInner i, None, closed (n, None, st)), _, _.
    rewrite length_app. simpl. split; [lia|]. split; [exact H|]. split; [|simpl; by destruct fs1|simpl; lia].
    split; rewrite ?(closed_alloc (NInner i)), ?(closed_root (NInner i)); try done.
    + exists ((i, t) :: fs2 ++ rest). by rewrite Hpre, <- app_assoc.
    + exists stale. simpl. by rewrite rev_involutive.
    + split; [done|]. eapply room_le; [|exact Hroom]. rewrite length_app. lia.
    + split; [done|]. intros f Hf. apply Hin. set_solver.
Qed.

(** State 12: the new root is written. *)
Lemma root_step s0 p c d s n rn b st :
  at_work s0 0 (closed (n, Some (rn, b), st)) settled p c d s → up [] (n, Some (rn, b), st) 1 c d → current_state c = 12%Z →
  tp (step p) (λ o s', o ≠ Again ∧ ∃ c' d', at_work s0 1 Tf settled p c' d' s' ∧ next_state c' = 11%Z ∧ i_key d' = k ∧ i_val d' = v) s.
Proof using Hco Hpar AllocatorLaws0.
  intros H [[_ Hun [Hk Hv] _ [Hcs Hsp] [Hwf Hroom] _] _ [Hcnt _]] Hst. simpl in Hsp, Hun. injection Hun as Hf.
  pose proof (co_finish Hco) as Hfin. rewrite <- Hf in Hfin. cbn [finish] in Hfin.
  apply bind_Some in Hfin as (lkey & Hl & Hfin). apply bind_Some in Hfin as (rkey & Hr & Hfin).
  destruct (allocate (alloc (closed (n, Some (rn, b), st)))) as [rep a'] eqn:Ea.
  apply bind_Some in Hfin as (root & Hroot & [= HTf]).
  destruct (allocate_fresh _ _ _ _ Hwf Hroom Ea) as (Hf1 & Hf2 & Hf3 & Hf4 & Hf5).
  eapply to_step; [exact H|]. unfold insert_step. at_ H. rewrite Hst. simpl. unfold insert_state_12. at_ H. at_ H.
  simpl. rewrite Hcnt, Nat.add_1_r, Nat.eqb_refl. apply tp_bind. eapply tp_require; [exact Hsp|]. cbn beta iota.
  apply tp_bind. eapply tp_require; [exact Hl|]. apply tp_bind. eapply tp_require; [exact Hr|].
  apply tp_bind. eapply (to_allocate _ _ _ _ _ _ _ _ _ _ _ H); [exact Ea|]. clear H. intros s1 H.
  apply tp_bind. eapply tp_require; [exact Hroot|]. cbn zeta. apply tp_bind.
  eapply (to_set_tree _ _ _ (mk_state (blocks (closed (n, Some (rn, b), st))) a' rep (depth_ (closed (n, Some (rn, b), st)) + 1)));
    [exact H|by rewrite (w_tree _ _ _ _ _ _ _ _ H)|]. clear H. intros s2 H. at_ H. at_ H. apply tp_bind.
  assert (Hsr : InnerNode.self_rep_ root = rep).
  { by eapply create_root_self. }
  subst rep.
  eapply (to_write _ _ _ _ _ _ _ _ (NInner (InnerNode.mark_modified root)) _ H); [simpl; rewrite Hf3; set_solver|done|].
  clear H. intros s3 H. apply tp_ret. split; [done|].
  simpl in H. rewrite HTf in H. eexists _, _. split; [exact H|by split_and!].
Qed.

(** ** Phases *)
(** The insertion is at most [m] completions of reads or writes from its end;
    [j] operations of the context are under way, and the tree is [T]. *)
Inductive phase : nat → nat → tree_state A → call_back_context → insert_context → Prop :=
  | ph_down id fs1 fs2 stale c d :
      down id fs1 fs2 stale c d →
      phase ((if optimistic_ d then S (length fs) else 0) + length fs2 + length fs + 3) 1 T0 c d
  | ph_up fsu res j c d : up fsu res j c d → phase (length fsu + 2) j (closed res) c d
  | ph_last c d : next_state c = 11%Z → i_key d = k → i_val d = v → phase 1 1 Tf c d.

(** What a run of the context leads to: the next phase, or the end. *)
Definition onward (m : nat) s0 p s' : Prop :=
  (∃ m' j T c d, m' < m ∧ at_work s0 j T settled p c d s' ∧ phase m' j T c d) ∨ ended s0 p s'.

(** A write has completed, another one has not. *)
Lemma count_step s0 p c d s fsu res j :
  at_work s0 0 (closed res) settled p c d s → up fsu res (S (S j)) c d → current_state c = next_state c →
  tp (step p) (λ o s', o ≠ Again ∧ ∃ d', at_work s0 0 (closed res) settled p c d' s' ∧ up fsu res (S j) c d') s.
Proof using Hco Hpar AllocatorLaws0.
  intros H [U1 U2 [U3 U4]] Hst. eapply to_step; [exact H|]. unfold insert_step. at_ H. rewrite Hst, U2.
  assert (Hup : up fsu res (S j) c (set_count (S (write_back_completion_count_ d)) (set_last_state_1 false d))).
  { split; [by destruct U1|done|]. simpl. lia. }
  assert (Hne : (S (write_back_completion_count_ d) =? write_back_completion_target_ d) = false) by (apply Nat.eqb_neq; lia).
  destruct fsu as [|f fsu]; [destruct res as [[n [[rn b]|]] st]|]; simpl; unfold insert_state_12, insert_state_10; at_ H; at_ H;
    cbn [write_back_completion_count_ write_back_completion_target_ set_count set_last_state_1]; rewrite Hne; apply tp_ret; (split; [done|]); (eexists; split; [exact H|done]).
Qed.

(** The last write of a node has completed. *)
Lemma up_run fuel s0 p c d s fsu res :
  at_work s0 0 (closed res) settled p c d s → up fsu res 1 c d → current_state c = next_state c →
  tp (run (3 + fuel) p) (λ _ s', onward (length fsu + 2) s0 p s') s.
Proof using Hco Hpar AllocatorLaws0.
  intros H U Hst. pose proof U as [U1 U2 [U3 _]]. rewrite U2 in Hst.
  destruct (decide (current_state c = 12%Z)) as [E12|Hn12].
  { destruct fsu as [|f fsu]; [|rewrite Hst in E12; done]. destruct res as [[n [[rn b]|]] st]; [|rewrite Hst in E12; done].
    apply (run_last _ _ _ _ _ _ (onward (length [] + 2) s0 p)). eapply tp_mono; [by eapply root_step|].
    intros o s' (Ho & c' & d' & H' & Hn & Hk & Hv). split; [done|]. left. exists 1, 1, Tf, c', d'. split; [simpl; lia|]. split; [done|]. by constructor. }
  assert (Hst' : current_state c = 10%Z) by (destruct fsu; [destruct res as [[n [[rn b]|]] st]|]; done).
  assert (Hfsu : fsu = [] → res.1.2 = None).
  { intros ->. destruct res as [[n [[rn b]|]] st]; [|done]. simpl in Hst. congruence. }
  set (d1 := set_count (S (write_back_completion_count_ d)) (set_last_state_1 false d)).
  eapply (alone_run_again _ _ _ _ _ _ (λ s1, at_work s0 0 (closed res) settled p (moved_on (set_next_state 9 c)) d1 s1)).
  { eapply to_step; [exact H|]. unfold insert_step. at_ H. rewrite Hst'. simpl. unfold insert_state_10. at_ H. at_ H.
    cbn [write_back_completion_count_ write_back_completion_target_ set_count set_last_state_1]. rewrite (proj2 (Nat.eqb_eq _ _)) by lia. at_ H. split; [done|exact H]. }
  intros s1 H1. assert (U1' : climb fsu res d1) by (by destruct U1).
  assert (Hstep : tp (step p) (λ o s', (o ≠ Again ∧ onward (length fsu + 2) s0 p s') ∨
    (o = Again ∧ ∃ c' d', at_work s0 0 Tf settled p c' d' s' ∧ current_state c' = 11%Z ∧ i_key d' = k ∧ i_val d' = v)) s1).
  { eapply to_step; [exact H1|]. unfold insert_step. at_ H1. simpl. unfold insert_state_9. at_ H1.
    destruct res as [[n [[rn b]|]] st]; pose proof (up_split _ _ _ U1') as Hs; simpl in Hs.
    - destruct Hs as [Hs _]. simpl. rewrite Hs. eapply tp_mono; [eapply split_step; [exact H1|exact U1'|]|].
      { intros ->. by specialize (Hfsu eq_refl). }
      intros o s' (Ho & fsu' & res' & n' & c' & d' & Hlt & H' & U'). left. split; [done|]. left. exists (length fsu' + 2), n', (closed res'), c', d'.
      split; [lia|]. split; [done|]. by constructor.
    - simpl. rewrite Hs. eapply tp_mono; [eapply flush_step; [exact H1|exact U1']|].
      intros o s' [(Ho & fsu' & res' & c' & d' & Hlt & H' & U')|[Ho HT]]; [|by right]. left. split; [done|]. left.
      exists (length fsu' + 2), 1, (closed res'), c', d'. split; [lia|]. split; [done|]. by constructor. }
  cbn [PullTree.run]. apply tp_bind. eapply tp_mono; [exact Hstep|]. intros o s2 [[Ho HT]|[-> (c' & d' & H' & Hc' & Hk' & Hv')]].
  - destruct o; [done|by apply tp_ret..].
  - apply (run_last _ _ _ _ _ _ (onward (length fsu + 2) s0 p)). eapply tp_mono; [by eapply last_step|]. intros o s3 [Ho He]. split; [done|]. by right.
Qed.

(** All operations of the context have completed: it runs once for each. *)
Lemma phase_runs fuel s0 m j T c d s p :
  at_work s0 0 T settled p c d s → phase m j T c d → current_state c = next_state c →
  tp (run_all CAPACITY junkE junkK (5 + fuel) (replicate j p)) (λ _ s', onward m s0 p s') s.
Proof using Hco Hpar AllocatorLaws0.
  intros H Hp. revert H. destruct Hp as [id fs1 fs2 stale c0 d0 Hd|fsu res j0 c0 d0 U|c0 d0 Hn Hk Hv]; intros H Hst.
  - cbn [replicate run_all]. rewrite (dn_state _ _ _ _ _ _ Hd) in Hst. apply tp_bind. eapply tp_mono; [by eapply run_down|].
    intros _ s' (n & T & c' & d' & H' & Hcase). apply tp_bind, tp_ret, tp_ret. left. simpl in H'.
    destruct Hcase as [(f & id' & fs2' & -> & -> & -> & Hd' & Ho')|[(Ho & -> & -> & Hd' & Ho')|(res & -> & U)]].
    + eexists _, _, _, c', d'. split; [|split; [exact H'|by eapply ph_down]]. rewrite Ho'. simpl. lia.
    + eexists _, _, _, c', d'. split; [|split; [exact H'|by eapply ph_down]]. rewrite Ho, Ho'. lia.
    + eexists _, _, _, c', d'. split; [|split; [exact H'|by eapply ph_up]]. destruct (optimistic_ d0); lia.
  - destruct j0 as [|j0]; [destruct U as [_ _ [_ ?]]; lia|]. revert d0 s H U. induction j0 as [|j0 IH]; intros d0 s H U.
    + cbn [replicate run_all]. apply tp_bind. eapply tp_mono; [by eapply (up_run (2 + fuel))|]. intros k1 s1 Ho. by apply tp_bind, tp_ret, tp_ret.
    + change (replicate (S (S j0)) p) with (p :: replicate (S j0) p). cbn [run_all]. apply tp_bind.
      eapply (tp_mono _ (λ _ s', ∃ d', at_work s0 0 (closed res) settled p c0 d' s' ∧ up fsu res (S j0) c0 d')).
      { apply (run_last _ _ _ _ _ _ (λ s', ∃ d', at_work s0 0 (closed res) settled p c0 d' s' ∧ up fsu res (S j0) c0 d')). by eapply count_step. }
      intros _ s1 (d1 & H1 & U1). apply tp_bind. eapply tp_mono; [by eapply IH|]. intros k1 s2 Ho. by apply tp_ret.
  - cbn [replicate run_all]. rewrite Hn in Hst. apply tp_bind. eapply (tp_mono _ (λ _ s', ended s0 p s')).
    { apply (run_last _ _ _ _ _ _ (ended s0 p)). by eapply last_step. }
    intros _ s' He. apply tp_bind, tp_ret, tp_ret. by right.
Qed.

End insertion.
End PullInsert.
