(* ===== verification/PullClient.v ===== *)
(** A client of the pull-mode tree (src/src/tree/pull_based_b_plus_tree.h) that
    submits one request at a time and waits in [sync] until it is answered: the
    answers are those of a map, and the blocks are those the sequential tree
    would have written. *)
From Stdlib Require Import ZArith Lia.
From stdpp Require Import base list gmap sorting numbers functions.
From S2P Require Import Prelude KV Leaf Inner Store Tree TreeRep TreeFoot TreeInsert TreeSearch Barrier BarrierFrame PullState PullTree PullSafe PullAnswers TreeSpec PullSearch PullAlone PullInsert.

Module PullClient.
Import Barrier BarrierFrame Pull PullTree PullSafe PullAnswers PullSearch PullAlone PullInsert.

(** ** Rounds of a machine with one insertion *)
Section rounds.
Context {A : Type} `{!Allocator A} `{!AllocatorLaws A}.
Context (CAPACITY : nat) (junkE : list (Z * Z)) (junkK : list Z).
Context (Hpar : params_ok CAPACITY junkE junkK).
Local Abbreviation pstate := (pstate A).
Local Abbreviation naive_round := (naive_round CAPACITY junkE junkK).
Implicit Types (s : pstate) (p q : nat) (T : tree_state A).

(** The queues of the machine may change under the context at work. *)
Lemma at_rebase s0 s0' k k' T δ p c d s s' :
  at_work s0 k T δ p c d s → manager s' = manager s → datas s' = datas s → tree s' = tree s →
  ctxs s0' = ctxs s0 → datas s0' = datas s0 →
  request_queue_ s' = request_queue_ s0' ∧ pending_request_ s' = pending_request_ s0' ∧
    free_context_slots_ s' = free_context_slots_ s0' ∧ free_insert_contexts_ s' = free_insert_contexts_ s0' ∧
    free_search_contexts_ s' = free_search_contexts_ s0' ∧ admission_contexts_ s' = admission_contexts_ s0' ∧
    answers s' = answers s0' ∧ blk_ready_contexts s' = blk_ready_contexts s0' →
  pending_contexts_ s' = pending_contexts_ s0' ++ replicate k' p →
  length (pending_ids_ s') = length (pending_ids_ s0') + k' →
  at_work s0' k' T δ p c d s'.
Proof.
  intros [H1 H2 H3 H4 H5 H6 H7 H8] Em Ed Et Ec0 Ed0 Hr Hp Hi. unfold ctxs in *. split; unfold ctxs; rewrite ?Em, ?Ed, ?Et, ?Ec0, ?Ed0; done.
Qed.

Context (T0 : tree_state A) (k v : Z) (fs : list (InnerNode.InnerNode * nat)) (leaf : LeafNode.LeafNode).
Context (final : node * option (node * Z) * tree_state A) (Tf : tree_state A).
Hypothesis (Hco : course CAPACITY junkE junkK T0 k v fs leaf final Tf).
Context (s0 : pstate) (p : nat).
Hypothesis (Hq0 : request_queue_ s0 = []) (Ha0 : admission_contexts_ s0 = []).

(** The context has [j] operations under way and is [a] times ready. *)
Definition working (a j : nat) T (c : call_back_context) (d : insert_context) s : Prop :=
  at_work (with_io [] [] (replicate a p) s0) j T settled p c d s.

(** Its operations are under way, or have completed. *)
Definition busy (ready : bool) (m : nat) s : Prop :=
  ∃ j T c d, phase CAPACITY junkE junkK T0 k v fs leaf final Tf m j T c d ∧
    if ready then working j 0 T c d s ∧ current_state c = next_state c else working 0 j T c d s.

Local Abbreviation ended := (ended k v Tf (with_io [] [] [] s0) p).

Lemma phase_next m j T c d :
  phase CAPACITY junkE junkK T0 k v fs leaf final Tf m j T c d → (0 ≤ next_state c)%Z ∧ 1 ≤ j ≤ 2.
Proof.
  intros [id fs1 fs2 stale c0 d0 Hd|fsu res j0 c0 d0 U|c0 d0 Hn Hk Hv].
  - rewrite (dn_state _ _ _ _ _ _ _ _ _ _ _ _ _ _ Hd). lia.
  - rewrite (up_state _ _ _ _ _ _ _ _ _ _ _ _ U). pose proof (up_count _ _ _ _ _ _ _ _ _ _ _ _ U) as [_ Hj]. split; [|done]. destruct fsu; [destruct res.1.2|]; lia.
  - rewrite Hn. lia.
Qed.

Lemma phase_moved m j T c c' d :
  phase CAPACITY junkE junkK T0 k v fs leaf final Tf m j T c d → next_state c' = next_state c →
  obtained_barriers_ c' = obtained_barriers_ c → phase CAPACITY junkE junkK T0 k v fs leaf final Tf m j T c' d.
Proof.
  destruct 1 as [id fs1 fs2 stale c0 d0 Hd|fsu res j0 c0 d0 U|c0 d0 Hn Hk Hv]; intros En Eo.
  - apply (ph_down _ _ _ _ _ _ _ _ _ _ id fs1 fs2 stale). destruct Hd. split; rewrite ?En, ?Eo; done.
  - constructor. destruct U. split; rewrite ?En; done.
  - constructor; congruence.
Qed.

(** ** Completion *)
Lemma completes j : ∀ n a T c d s,
  working a j T c d s → j ≤ n → (0 ≤ next_state c)%Z → (j = 0 → current_state c = next_state c) →
  tp (completion_loop n) (λ _ s', ∃ c', working (a + j) 0 T c' d s' ∧ next_state c' = next_state c ∧
    obtained_barriers_ c' = obtained_barriers_ c ∧ current_state c' = next_state c') s.
Proof using.
  induction j as [|j IH]; intros n a T c d s H Hjn Hn Hc.
  { exists 0, s. split; [|exists c; rewrite Nat.add_0_r; split_and!; auto]. pose proof (w_io _ _ _ _ _ _ _ _ H) as [Ep _]. simpl in Ep.
    destruct n as [|n]; cbn [completion_loop]; [done|]. cbv [mbind cmd_bind get]. by rewrite Ep. }
  destruct n as [|n]; [lia|]. cbn [completion_loop].
  do 2 (apply tp_bind, tp_get). pose proof (w_io _ _ _ _ _ _ _ _ H) as [Ep Ei]. simpl in Ep, Ei.
  assert (Ep' : pending_contexts_ s = replicate j p ++ [p]) by (rewrite Ep; apply (replicate_S_end j p)).
  rewrite Ep', last_snoc, removelast_last.
  destruct (exists_last (l := pending_ids_ s)) as (l & ty & El); [intros E; by rewrite E in Ei|].
  rewrite El, last_snoc, removelast_last. rewrite El, length_app in Ei. simpl in Ei.
  apply tp_bind. eapply tp_require; [done|]. apply tp_bind, tp_modify.
  match goal with |- tp _ _ ?x => set (s1 := x) end.
  assert (H1 : working a j T c d s1).
  { pose proof (w_rest _ _ _ _ _ _ _ _ H). eapply (at_rebase _ _ _ j); [exact H|done..|simpl; lia]. }
  apply tp_bind. unfold working in H1. eapply to_update; [exact H1|reflexivity|reflexivity|]. clear H1. intros s2 H2.
  apply tp_bind. eapply to_transition; [exact H2|simpl; lia|]. clear H2. intros s3 H3. apply tp_bind, tp_modify.
  match goal with |- tp _ _ ?x => set (s4 := x) end.
  match type of H3 with at_work _ _ _ _ _ ?c' _ _ => assert (H4 : working (a + 1) j T c' d s4) end.
  { pose proof (w_rest _ _ _ _ _ _ _ _ H3) as (R1 & R2 & R3 & R4 & R5 & R6 & R7 & R8). pose proof (w_io _ _ _ _ _ _ _ _ H3) as [I1 I2].
    eapply (at_rebase _ _ j j); [exact H3|done..| |done|done]. split_and!; try done. simpl in *. rewrite R8.
    by rewrite replicate_add. }
  apply tp_bind. eapply tp_mono; [eapply (IH n (a + 1)); [exact H4|lia|simpl; lia|done]|].
  intros x s5 (c5 & H5 & Hn5 & Ho5 & Hc5). apply tp_ret. exists c5. rewrite <- Nat.add_assoc in H5. by split_and!.
Qed.

Lemma process_completion_busy shuffle max m s :
  (∀ l, shuffle l ≡ₚ l) → max = 0 ∨ 2 ≤ max → busy false m s → tp (process_completion shuffle max) (λ _ s', busy true m s') s.
Proof using.
  intros Hsh Hmax (j & T & c & d & Hp & H). destruct (phase_next _ _ _ _ _ Hp) as [Hn Hj].
  pose proof (w_io _ _ _ _ _ _ _ _ H) as [Ep Ei]. simpl in Ep, Ei.
  assert (Es : shuffle (pending_contexts_ s) = replicate j p).
  { rewrite Ep. symmetry. apply replicate_Permutation. symmetry. apply Hsh. }
  unfold process_completion. apply tp_bind, tp_modify. rewrite Es. apply tp_bind, tp_get. simpl. rewrite length_replicate.
  eapply tp_mono.
  - eapply (completes j _ 0 T c d); [|destruct (Nat.eqb_spec max 0); lia|done|lia].
    pose proof (w_rest _ _ _ _ _ _ _ _ H). eapply (at_rebase _ _ _ j); [exact H|done..].
  - intros x s' (c' & H' & Hn' & Ho' & Hc'). exists j, T, c', d. split; [by eapply phase_moved|done].
Qed.

Lemma process_completion_none shuffle max s :
  (∀ l, shuffle l ≡ₚ l) → pending_contexts_ s = [] → tp (process_completion shuffle max) (λ _ s', s' = s) s.
Proof using.
  intros Hsh Hp. assert (E : shuffle [] = []) by (apply Permutation_nil_r, Hsh).
  unfold process_completion. apply tp_bind, tp_modify. rewrite Hp, E.
  assert (Es : with_io [] (pending_ids_ s) (blk_ready_contexts s) s = s) by (destruct s; simpl in *; by subst).
  rewrite Es. apply tp_bind, tp_get. rewrite Hp. exists 0, s. split; [|done].
  destruct (if max =? 0 then _ else _); [done|]. cbn [completion_loop]. cbv [mbind cmd_bind get]. by rewrite Hp.
Qed.

(** ** Rounds *)
Lemma blk_ready_busy fuel b m s :
  busy b m s →
  tp (process_blk_ready_context CAPACITY junkE junkK (5 + fuel) process_granularity true)
    (λ _ s', if b then (∃ m', m' < m ∧ busy false m' s') ∨ ended s' else busy false m s') s.
Proof using Hpar AllocatorLaws0 Hco.
  intros (j & T & c & d & Hp & H). unfold process_blk_ready_context. do 2 (apply tp_bind, tp_get).
  change (take_ready true process_granularity ?cs ?l) with (merge_sort (context_le cs) l, @nil nat). apply tp_bind, tp_modify.
  destruct b.
  - destruct H as [H Hc]. pose proof (w_rest _ _ _ _ _ _ _ _ H) as (R1 & R2 & R3 & R4 & R5 & R6 & R7 & R8).
    pose proof (w_io _ _ _ _ _ _ _ _ H) as [I1 I2]. simpl in R8.
    assert (Es : merge_sort (context_le (contexts (wd (manager s)))) (blk_ready_contexts s) = replicate j p).
    { rewrite R8. symmetry. apply replicate_Permutation. symmetry. apply merge_sort_Permutation. }
    rewrite Es. eapply tp_mono; [eapply (phase_runs _ _ _ Hpar _ _ _ _ _ _ _ Hco fuel (with_io [] [] [] s0)); [|exact Hp|exact Hc]|].
    + eapply (at_rebase _ _ _ 0); [exact H|done|done|done|done|done|by split_and!|done|done].
    + intros x s' [(m' & j' & T' & c' & d' & Hm & H' & Hp')|He]; [left|by right]. exists m'. split; [done|]. by exists j', T', c', d'.
  - pose proof (w_rest _ _ _ _ _ _ _ _ H) as (R1 & R2 & R3 & R4 & R5 & R6 & R7 & R8). simpl in R8. rewrite R8. simpl. apply tp_ret.
    exists j, T, c, d. split; [done|]. pose proof (w_io _ _ _ _ _ _ _ _ H) as [I1 I2]. eapply (at_rebase _ _ _ j); [exact H|done|done|done|done|done|by split_and!|done|done].
Qed.

(** The machine is busy, or the insertion has ended. *)
Definition result (b : bool) (m : nat) s : Prop := busy b m s ∨ ended s.

Lemma result_quiet b m s :
  result b m s → request_queue_ s = [] ∧ admission_contexts_ s = [] ∧ ready_contexts_ (wd (manager s)) = [].
Proof using Hq0 Ha0.
  intros [(j & T & c & d & _ & H)|He].
  - assert (H' : ∃ a j, working a j T c d s) by (destruct b; [destruct H|]; eauto). destruct H' as (a & j' & H').
    pose proof (w_rest _ _ _ _ _ _ _ _ H') as (R1 & _ & _ & _ & _ & R6 & _). simpl in *.
    split_and!; [congruence|congruence|apply H'].
  - destruct (en_rest _ _ _ _ _ _ He) as (R1 & _ & R3 & _). simpl in *. split_and!; [congruence|congruence|apply He].
Qed.

(** The rest of a round, after the contexts that were ready ran. *)
Lemma tail_busy fuel r m s :
  round_ok r → result false m s →
  tp (match r with
      | Naive f => _ ← process_completion f 0;
          _ ← process_barrier_ready_context CAPACITY junkE junkK fuel process_granularity true; mret tt
      | LatencyAware f b => _ ← process_barrier_ready_context CAPACITY junkE junkK fuel process_granularity true;
          if b then _ ← process_completion f probe_granularity; mret tt else mret tt
      end) (λ _ s', result (polls r) m s') s.
Proof using Hq0 Ha0.
  intros Hr H.
  assert (Hc : ∀ f max, (∀ l, f l ≡ₚ l) → max = 0 ∨ 2 ≤ max → tp (process_completion f max) (λ _ s', result true m s') s).
  { intros f max Hf Hmax. destruct H as [H|He].
    - eapply tp_mono; [by apply process_completion_busy|]. intros x s' H'. by left.
    - destruct (en_rest _ _ _ _ _ _ He) as (_ & _ & _ & _ & Ep & _). simpl in Ep.
      eapply tp_mono; [by apply process_completion_none|]. intros x s' ->. by right. }
  destruct (result_quiet _ _ _ H) as (_ & _ & Hrd).
  destruct r as [f|f b]; simpl in *; apply tp_bind.
  - eapply tp_mono; [apply Hc; [done|by left]|]. intros x s1 H1. apply tp_bind. destruct (result_quiet _ _ _ H1) as (_ & _ & Hrd1).
    eapply tp_mono; [by apply process_barrier_ready_none|]. intros y s2 ->. by apply tp_ret.
  - eapply tp_mono; [by apply process_barrier_ready_none|]. intros y s2 ->. destruct b; [|by apply tp_ret].
    apply tp_bind. eapply tp_mono; [apply Hc; [done|right; unfold probe_granularity; lia]|]. intros x s1 H1. by apply tp_ret.
Qed.

(** How far the insertion is from its end, counted in rounds that poll. *)
Definition left_over (b : bool) (m : nat) : nat := 2 * m + (if b then 0 else 1).

Lemma round_busy fuel r b m s :
  round_ok r → busy b m s →
  tp (do_round CAPACITY junkE junkK (5 + fuel) r) (λ _ s', ended s' ∨
    ∃ b' m', busy b' m' s' ∧ left_over b' m' ≤ left_over b m ∧ (polls r = true → left_over b' m' < left_over b m)) s.
Proof using Hq0 Ha0 Hpar AllocatorLaws0 Hco.
  intros Hr H. destruct (result_quiet b m s) as (Eq & Ea & _); [by left|].
  assert (Hstart : ∀ (C : cmd unit) Q,
    (∀ m' s', result false m' s' → (if b then m' < m else m' = m) → tp C Q s') →
    tp (_ ← admission process_granularity;
        _ ← process_new_context CAPACITY junkE junkK (5 + fuel) process_granularity;
        _ ← process_blk_ready_context CAPACITY junkE junkK (5 + fuel) process_granularity true; C) Q s).
  { intros C Q HQ. unfold admission. apply tp_bind, tp_bind, tp_get. eapply tp_mono; [by apply admission_none|]. intros x ? ->.
    apply tp_bind. eapply tp_mono; [by apply process_new_none|]. intros x' ? ->. apply tp_bind.
    eapply tp_mono; [by eapply blk_ready_busy|]. intros y s1 H1. destruct b.
    - destruct H1 as [(m' & Hm & H1)|He]; [by apply (HQ m'); [left|]|]. apply (HQ (m - 1)); [by right|].
      destruct H as (j & T & c & d & Hp & _). destruct Hp; lia.
    - by apply (HQ m); [left|]. }
  assert (Hend : ∀ m' s1, (if b then m' < m else m' = m) → result (polls r) m' s1 → ended s1 ∨
    ∃ b' m', busy b' m' s1 ∧ left_over b' m' ≤ left_over b m ∧ (polls r = true → left_over b' m' < left_over b m)).
  { intros m' s1 Hm [H1|He]; [|by left]. right. exists (polls r), m'. split; [done|]. unfold left_over. destruct b, (polls r); lia. }
  destruct r as [f|f b']; unfold do_round, naive_round, latency_aware_round; apply Hstart; intros m' s1 H1 Hm;
    (eapply tp_mono; [by eapply (tail_busy (5 + fuel) _ m' s1 Hr)|]); intros x s2 H2; by apply (Hend m').
Qed.

(** The round in which the request is admitted. *)
Lemma first_round fuel r s c d g :
  round_ok r → at_work (with_io [] [] [] (with_admission [p] g s0)) 0 T0 settled p c d s →
  above_node CAPACITY junkE junkK T0 k v fs leaf (root_ T0) [] fs [] c d → optimistic_ d = true →
  tp (_ ← process_new_context CAPACITY junkE junkK (5 + fuel) process_granularity;
      _ ← process_blk_ready_context CAPACITY junkE junkK (5 + fuel) process_granularity true;
      match r with
      | Naive f => _ ← process_completion f 0;
          _ ← process_barrier_ready_context CAPACITY junkE junkK (5 + fuel) process_granularity true; mret tt
      | LatencyAware f b => _ ← process_barrier_ready_context CAPACITY junkE junkK (5 + fuel) process_granularity true;
          if b then _ ← process_completion f probe_granularity; mret tt else mret tt
      end) (λ _ s', result (polls r) (3 * length fs + 4) s') s.
Proof using Hq0 Ha0 Hpar AllocatorLaws0 Hco.
  intros Hr H Ha Ho. pose proof (w_rest _ _ _ _ _ _ _ _ H) as (R1 & R2 & R3 & R4 & R5 & R6 & R7 & R8). pose proof (w_io _ _ _ _ _ _ _ _ H) as [I1 I2].
  simpl in *. apply tp_bind. unfold process_new_context. do 3 (apply tp_bind, tp_get). rewrite R6.
  change (take_ready false process_granularity ?cs ?l) with (l, @nil nat). apply tp_bind, tp_modify. cbn [run_all]. apply tp_bind.
  eapply tp_mono; [eapply (visit_node CAPACITY junkE junkK T0 k v fs leaf (2 + fuel) (with_io [] [] [] s0) 0); [|exact Ha]|].
  { eapply (at_rebase _ _ _ 0); [exact H|done|done|done|done|done|by split_and!|done|done]. }
  intros x s1 (c' & d' & H1 & Hd & Ho1). apply tp_bind, tp_ret, tp_ret. apply tp_bind.
  eapply tp_mono; [eapply (blk_ready_busy fuel false (3 * length fs + 4))|].
  - eexists 1, T0, c', d'. split; [|exact H1]. replace (3 * length fs + 4) with ((if optimistic_ d' then S (length fs) else 0) + length fs + length fs + 3)
      by (rewrite Ho1, Ho; lia). by eapply ph_down.
  - intros y s2 H2. eapply tail_busy; [done|by left].
Qed.

End rounds.

(** ** The client *)
Section client.
Context {A : Type} `{!Allocator A} `{!AllocatorLaws A}.
Context (CAPACITY : nat) (junkE : list (Z * Z)) (junkK : list Z).
Context (Hpar : params_ok CAPACITY junkE junkK).
Local Abbreviation pstate := (pstate A).
Local Abbreviation do_round := (do_round CAPACITY junkE junkK).
Implicit Types (s : pstate) (p q : nat) (T : tree_state A).

(** [sync]: the client sleeps while requests are pending; meanwhile the thread of
    the tree does the rounds [rs]. [None]: they are over and the client still
    waits. *)
Fixpoint sync (fuel : nat) (rs : list round) s : option pstate :=
  if (0 <? pending_request_ s)%Z then
    match rs with
    | [] => None
    | r :: rs' => '(_, s) ← do_round fuel r s; sync fuel rs' s
    end
  else Some s.

(** A client that waits for every request. *)
Fixpoint client (fuel : nat) (ops : list (request * list round)) s : option pstate :=
  match ops with
  | [] => Some s
  | (r, rs) :: ops' => '(_, s) ← asynchronous_with_callback r s; s ← sync fuel rs s; client fuel ops' s
  end.

(** No request is pending and every context is free. *)
Record quiet (n : nat) T (l : list answer) s : Prop := {
  qu_ok : manager_ok settled (manager s);
  qu_waits : ∀ q, waits q (manager s) = 0;
  qu_ready : ready_contexts_ (wd (manager s)) = [];
  qu_tokens : ∀ q c, ctxs s !! q = Some c → obtained_barriers_ c = [];
  qu_tree : tree s = T;
  qu_answers : answers s = l;
  qu_idle : request_queue_ s = [] ∧ pending_request_ s = 0%Z ∧ admission_contexts_ s = [] ∧ blk_ready_contexts s = [] ∧
    pending_contexts_ s = [] ∧ pending_ids_ s = [];
  qu_slots : free_context_slots_ s = Z.of_nat n;
  qu_inserts : length (free_insert_contexts_ s) = n ∧
    ∀ q, q ∈ free_insert_contexts_ s → ∃ c d, ctxs s !! q = Some c ∧ datas s !! q = Some (CInsert d);
  qu_searches : length (free_search_contexts_ s) = n ∧ NoDup (free_search_contexts_ s) ∧
    ∀ q, q ∈ free_search_contexts_ s → ∃ c d, ctxs s !! q = Some c ∧ datas s !! q = Some (CSearch d) }.

Lemma quiet_alone n T l s p : quiet n T l s → alone settled p (manager s).
Proof. intros [Q1 Q2 Q3 Q4 _ _ _ _ _ _]. split; [done..|]. intros q c _. apply Q4. Qed.

(** ** An insertion *)
(** The state of a machine that works on its only request with context [p]. *)
Definition admitted_by (rest : list nat) s : pstate :=
  with_admission [] (context_id_generator_ s + 1)
    (with_pools (free_context_slots_ s - 1) rest (free_search_contexts_ s) (with_requests [] 1 s)).

Lemma admit_insert n T0 l s p rest k v fs leaf final Tf :
  course CAPACITY junkE junkK T0 k v fs leaf final Tf →
  quiet n T0 l s → 0 < n → free_insert_contexts_ s = p :: rest →
  tp (admission process_granularity) (λ _ s', ∃ c d g,
      at_work (with_io [] [] [] (with_admission [p] g (admitted_by rest s))) 0 T0 settled p c d s' ∧
      above_node CAPACITY junkE junkK T0 k v fs leaf (root_ T0) [] fs [] c d ∧ optimistic_ d = true)
    (with_requests [INSERT_REQUEST k v] 1 s).
Proof.
  intros Hco HQ Hn Ef. pose proof HQ as [_ _ _ Q4 Q5 _ (I1 & I2 & I3 & I4 & I5 & I6) Q8 [_ Q9] _].
  destruct (Q9 p) as (c & d & Hc & Hd); [rewrite Ef; constructor|].
  unfold admission. apply tp_bind, tp_get. change process_granularity with (S 15). generalize 15. intros max. cbn [admission_loop].
  change (free_context_slots_ (with_requests _ _ s)) with (free_context_slots_ s). rewrite Q8.
  rewrite (proj2 (Z.eqb_neq _ _)) by lia. apply tp_bind.
  eexists (Some (INSERT_REQUEST k v)), _. split; [reflexivity|]. apply tp_bind. unfold admit_request. apply tp_bind, tp_get.
  apply tp_bind, tp_bind. set (s1 := with_pools (free_context_slots_ s) rest (free_search_contexts_ s) (with_requests [] 1 s)).
  exists p, s1. split; [unfold get_free_insert_context; simpl; by rewrite Ef|].
  assert (H1 : at_work (with_io [] [] [] s1) 0 T0 settled p c d s1).
  { split; simpl; try done; [by eapply quiet_alone|by rewrite I5, I6]. }
  at_ H1. at_ H1. at_ H1. apply tp_bind, tp_get. apply tp_bind. eapply to_update; [exact H1|reflexivity|reflexivity|]. clear H1. intros s2 H1.
  apply tp_bind, tp_modify, tp_modify. apply tp_bind.
  pose proof (w_rest _ _ _ _ _ _ _ _ H1) as (R1 & R2 & R3 & R4 & R5 & R6 & R7 & R8). pose proof (w_io _ _ _ _ _ _ _ _ H1) as [J1 J2]. simpl in *.
  eapply tp_mono; [by apply admission_none|]. intros x ? ->. apply tp_ret.
  eexists _, _, (context_id_generator_ s + 1)%Z. split.
  { eapply (at_rebase _ _ _ 0); [exact H1|done|done|done|done|done| |simpl; congruence|done].
    simpl. rewrite R3, R6, I3. by split_and!. }
  pose proof (co_path _ _ _ _ _ _ _ _ _ _ Hco) as Hp. pose proof (co_depth _ _ _ _ _ _ _ _ _ _ Hco) as Hdep. rewrite Q5.
  split; [|done]. split; simpl; try done.
  - split; simpl; try done; [destruct fs as [|[i2 t2] fs2]; simpl in Hp; tauto|].
    rewrite (Q4 p c Hc). by intros t ?%elem_of_nil.
  - by rewrite Hdep.
  - rewrite Hdep. by destruct (length fs).
  - rewrite (Q4 p c Hc). by intros t ?%elem_of_nil.
Qed.

Lemma insert_starts n T0 l s p rest k v fs leaf final Tf fuel r :
  course CAPACITY junkE junkK T0 k v fs leaf final Tf →
  quiet n T0 l s → 0 < n → free_insert_contexts_ s = p :: rest → round_ok r →
  tp (do_round (5 + fuel) r)
    (λ _ s', result CAPACITY junkE junkK T0 k v fs leaf final Tf (admitted_by rest s) p (polls r) (3 * length fs + 4) s')
    (with_requests [INSERT_REQUEST k v] 1 s).
Proof.
  intros Hco HQ Hn Ef Hr. destruct r as [f|f b]; unfold PullSearch.do_round, naive_round, latency_aware_round;
    (apply tp_bind; eapply tp_mono; [by eapply admit_insert|]); intros x s1 (c & d & g & H1 & Ha & Ho).
  - by apply (first_round CAPACITY junkE junkK Hpar T0 k v fs leaf final Tf Hco (admitted_by rest s) p eq_refl eq_refl fuel (Naive f) s1 c d g).
  - by apply (first_round CAPACITY junkE junkK Hpar T0 k v fs leaf final Tf Hco (admitted_by rest s) p eq_refl eq_refl fuel (LatencyAware f b) s1 c d g).
Qed.

Lemma sync_busy T0 k v fs leaf final Tf s0 p fuel rs :
  course CAPACITY junkE junkK T0 k v fs leaf final Tf →
  request_queue_ s0 = [] → admission_contexts_ s0 = [] → pending_request_ s0 = 1%Z →
  ∀ b m s, Forall round_ok rs →
  (busy CAPACITY junkE junkK T0 k v fs leaf final Tf s0 p b m s ∧ left_over b m ≤ polling rs ∨
   ended k v Tf (with_io [] [] [] s0) p s) →
  ∃ s', sync (5 + fuel) rs s = Some s' ∧ ended k v Tf (with_io [] [] [] s0) p s'.
Proof.
  intros Hco Hq Ha Hp. induction rs as [|r rs IH]; intros b m s Hrs [[H Hm]|He]; cbn [sync].
  2,4: destruct (en_counts _ _ _ _ _ _ He) as [E _]; simpl in E; rewrite E, Hp; by exists s.
  all: assert (E : pending_request_ s = 1%Z) by (destruct H as (j & T & c & d & _ & H); destruct b; [destruct H as [H _]|];
    pose proof (w_rest _ _ _ _ _ _ _ _ H) as (_ & R & _); simpl in R; congruence).
  all: rewrite E; change (0 <? 1)%Z with true; cbn iota.
  - exfalso. unfold left_over, polling in Hm. simpl in Hm. destruct H as (j & T & c & d & Hph & _). destruct Hph, b; lia.
  - apply Forall_cons_iff in Hrs as [Hr Hrs]. rewrite polling_cons in Hm.
    destruct (round_busy CAPACITY junkE junkK Hpar T0 k v fs leaf final Tf Hco s0 p Hq Ha fuel r b m s Hr H)
      as ([] & s1 & E1 & [He|(b' & m' & H1 & L1 & D1)]); rewrite E1; cbn [mbind option_bind].
    + apply (IH b m s1 Hrs). by right.
    + apply (IH b' m' s1 Hrs). left. split; [done|]. destruct (polls r); [specialize (D1 eq_refl)|]; lia.
Qed.

Lemma ended_quiet n T0 l s p rest k v Tf s' :
  quiet n T0 l s → free_insert_contexts_ s = p :: rest →
  ended k v Tf (with_io [] [] [] (admitted_by rest s)) p s' → quiet n Tf (l ++ [Inserted k v]) s'.
Proof.
  intros [Q1 Q2 Q3 Q4 Q5 Q6 (I1 & I2 & I3 & I4 & I5 & I6) Q8 [Q9 Q9'] (Q10 & Q11 & Q12)] Ef
    [[E1 E2 E3 E4] (c & d & Hc & Hob & Hd) E5 [E6 E7] [E8 E9] (R1 & R2 & R3 & R4 & R5 & R6) O]. simpl in *.
  assert (Hctx : ∀ q, (∃ c d, ctxs s !! q = Some c ∧ datas s !! q = Some (CInsert d)) → ∃ c d, ctxs s' !! q = Some c ∧ datas s' !! q = Some (CInsert d)).
  { intros q Hq. destruct (decide (q = p)) as [->|Hne]; [by exists c, d|]. destruct (O q Hne) as [-> ->]. done. }
  split; try done.
  - intros q c' Hq. destruct (decide (q = p)) as [->|Hne]; [congruence|]. by eapply E4.
  - by rewrite E8, Q6.
  - split_and!; try congruence; [rewrite E6; lia|]. by apply nil_length_inv.
  - rewrite E7. lia.
  - rewrite E9. split; [rewrite <- Q9, Ef; done|]. intros q Hq. apply Hctx, Q9'. by rewrite Ef.
  - rewrite R2. split_and!; [done|done|]. intros q Hq. destruct (Q12 q Hq) as (c' & d' & Hc' & Hd').
    destruct (decide (q = p)) as [->|Hne].
    + exfalso. destruct (Q9' p) as (c2 & d2 & _ & Hd2); [rewrite Ef; constructor|]. congruence.
    + destruct (O q Hne) as [-> ->]. by exists c', d'.
Qed.

(** The course of an insertion into a tree with room for it. *)
Lemma has_course T l ids k v q :
  tree_ok CAPACITY T l ids → room (alloc T) (depth_ T + 1 + q) →
  ∃ fs leaf final Tf, course CAPACITY junkE junkK T k v fs leaf final Tf ∧ insert CAPACITY junkE junkK k v T = Some Tf.
Proof using Hpar AllocatorLaws0.
  intros Hok Hroom. destruct (insert_ok CAPACITY junkE junkK Hpar k v T l ids q Hok Hroom) as (Tf & ids' & Hins & _).
  destruct Hok as (Hd & (f & Hrep) & Hnd & Hin & Hwf).
  destruct (rep_descends CAPACITY junkE junkK Hpar (depth_ T - 1) T k (root_ T) None None f (-1) l ids) as (fs & leaf & Hlen & Hde & Hnp & _); [done..|].
  assert (Hdep : depth_ T = S (length fs)) by lia.
  pose proof (insertion_finishes CAPACITY junkE junkK Hpar T k v fs leaf Hde Hdep) as Hfin. rewrite Hins in Hfin. symmetry in Hfin.
  apply bind_Some in Hfin as (res0 & E0 & Hfin). apply bind_Some in Hfin as (final & Ef & Hfin).
  exists fs, leaf, final, Tf. split; [|done]. split; try done; [|by rewrite E0].
  eapply room_le; [|exact Hroom]. lia.
Qed.

Lemma client_inserts n T l s L ids k v q fuel rs :
  quiet n T l s → 0 < n → tree_ok CAPACITY T L ids → room (alloc T) (depth_ T + 1 + q) →
  Forall round_ok rs → 6 * depth_ T + 3 ≤ polling rs →
  ∃ s' Tf, sync (5 + fuel) rs (with_requests [INSERT_REQUEST k v] 1 s) = Some s' ∧
    insert CAPACITY junkE junkK k v T = Some Tf ∧ quiet n Tf (l ++ [Inserted k v]) s'.
Proof using Hpar AllocatorLaws0.
  intros HQ Hn Hok Hroom Hrs Hlen. destruct (has_course T L ids k v q Hok Hroom) as (fs & leaf & final & Tf & Hco & Hins).
  pose proof (co_depth _ _ _ _ _ _ _ _ _ _ Hco) as Hdep.
  destruct (free_insert_contexts_ s) as [|p rest] eqn:Ef; [destruct (qu_inserts _ _ _ _ HQ) as [E _]; rewrite Ef in E; simpl in E; lia|].
  destruct rs as [|r rs]; [unfold polling in Hlen; simpl in Hlen; lia|]. apply Forall_cons_iff in Hrs as [Hr Hrs]. rewrite polling_cons in Hlen.
  destruct (insert_starts n T l s p rest k v fs leaf final Tf fuel r Hco HQ Hn Ef Hr) as ([] & s1 & E1 & H1).
  cbn [sync pending_request_ with_requests]. change (0 <? 1)%Z with true. cbn iota. rewrite E1. cbn [mbind option_bind].
  destruct (sync_busy T k v fs leaf final Tf (admitted_by rest s) p fuel rs Hco eq_refl eq_refl eq_refl (polls r) (3 * length fs + 4) s1 Hrs) as (s' & Es & He).
  { destruct H1 as [H1|H1]; [left|by right]. split; [done|]. unfold left_over. destruct (polls r); lia. }
  exists s', Tf. split_and!; [done|done|]. by eapply ended_quiet.
Qed.

(** ** A search *)
Section searches.
Context (n : nat) (T : tree_state A) (M : gmap Z Z) (l : list answer) (s0 : pstate).
Hypothesis (Hrep : represents CAPACITY T M) (Hn : 0 < n) (HQ : quiet n T l s0).
Local Abbreviation searching := (searching CAPACITY junkE junkK T (λ key, M !! key) n s0).

Lemma quiet_searching key wt : searching wt [] (with_requests [SEARCH_REQUEST key] 1 s0).
Proof using HQ Hn.
  destruct HQ as [Q1 Q2 Q3 Q4 Q5 Q6 (I1 & I2 & I3 & I4 & I5 & I6) Q8 [Q9 Q9'] (Q10 & Q11 & Q12)].
  assert (Ha : active [] (with_requests [SEARCH_REQUEST key] 1 s0) = []) by (unfold active; simpl; by rewrite I3, I4, I5).
  split; rewrite ?Ha; simpl; rewrite ?I3, ?I4, ?I5, ?I6; try done.
  - split; [done|]. split; [done|]. intros i. unfold held. apply sum_list_zero. intros q c Hq. unfold ntok. by rewrite (Q4 q c Hq).
  - by intros q ?%elem_of_nil.
  - by intros q ?%elem_of_nil.
  - intros q Hq. destruct (Q12 q Hq) as (c & d & Hc & Hd). exists c, d. split; [done|]. by eapply Q4.
  - by rewrite Q10.
  - intros r ->%list_elem_of_singleton. by exists key.
  - exists []. by rewrite app_nil_r.
  - split; [done|]. rewrite Ha. done.
Qed.

Lemma searched_quiet wt s :
  searching wt [] s → pending_request_ s = 0%Z → ∃ ks, quiet n T (l ++ ((λ key, Searched key (M !! key)) <$> ks)) s.
Proof using HQ Hn.
  intros [I1 (I2 & I2' & _) I3 I4 I5 I6 I7 I8 I9 I10 I11 [ks Hks] I13 (F1 & F2 & F3)] Hp. rewrite I11 in Hp.
  destruct HQ as [Q1 Q2 Q3 Q4 Q5 Q6 _ Q8 [Q9 Q9'] (Q10 & Q11 & Q12)].
  destruct (request_queue_ s) as [|r rq] eqn:Eq; [|simpl in Hp; lia].
  assert (Ea : active [] s = []) by (destruct (active [] s); [done|simpl in Hp; lia]).
  rewrite Ea in *. simpl in *. unfold active in Ea. apply app_nil in Ea as [_ Ea]. apply app_nil in Ea as [Ea Eb]. apply app_nil in Eb as [Eb Ec].
  exists ks. split; try done.
  - intros q c Hq. destruct (decide (q ∈ free_search_contexts_ s)) as [Hin|Hni].
    + destruct (I8 q Hin) as (c' & sc & [Hc' _] & Ho). congruence.
    + destruct (F3 q Hni) as [E _]. rewrite E in Hq. by eapply Q4.
  - by rewrite Hks, Q6.
  - split_and!; [done..|]. apply nil_length_inv. by rewrite I5, Ec.
  - rewrite I9. by rewrite I13.
  - rewrite F1. split; [done|]. intros q Hq. destruct (Q9' q Hq) as (c & d & Hc & Hd).
    assert (Hni : q ∉ free_search_contexts_ s).
    { rewrite F2. intros Hin. destruct (Q12 q Hin) as (c' & d' & _ & Hd'). congruence. }
    destruct (F3 q Hni) as [-> ->]. by exists c, d.
  - split_and!; [done|done|]. intros q Hq. destruct (I8 q Hq) as (c & sc & [Hc Hd] & _). by exists c, sc.
Qed.

Lemma sync_searching fuel rs : ∀ wt s,
  Forall round_ok rs → searching wt [] s → work (depth_ T - 1) wt [] s ≤ polling rs →
  ∃ s' wt', sync (3 + fuel) rs s = Some s' ∧ searching wt' [] s' ∧ pending_request_ s' = 0%Z.
Proof using Hpar AllocatorLaws0 Hrep Hn.
  pose proof (λ key, represents_leads CAPACITY junkE junkK Hpar T M key Hrep) as Hfind.
  induction rs as [|r rs IH]; intros wt s Hrs HI Hw; cbn [sync]; pose proof (si_pending _ _ _ _ _ _ _ _ _ _ HI) as Hp.
  - assert (H0 : pending_request_ s = 0%Z).
    { apply (no_work CAPACITY junkE junkK T (λ key, M !! key) (depth_ T - 1) n s0 Hfind wt s Hn HI). unfold polling in Hw. simpl in Hw. lia. }
    rewrite H0. by exists s, wt.
  - destruct (Z.ltb_spec 0 (pending_request_ s)) as [Hlt|Hge]; [|exists s, wt; split_and!; [done|done|lia]].
    apply Forall_cons_iff in Hrs as [Hr Hrs]. rewrite polling_cons in Hw.
    destruct (round_searching CAPACITY junkE junkK T (λ key, M !! key) (depth_ T - 1) n s0 Hfind fuel r wt s Hr Hn HI)
      as ([] & s1 & E1 & wt1 & H1 & W1 & D1).
    change (S (S (S fuel))) with (3 + fuel) in E1. rewrite E1. cbn [mbind option_bind]. apply (IH wt1 s1 Hrs H1).
    destruct (polls r); [specialize (D1 eq_refl Hlt)|]; lia.
Qed.

Lemma client_searches key fuel rs :
  Forall round_ok rs → 2 * (depth_ T + 2) ≤ polling rs →
  ∃ s' ks, sync (3 + fuel) rs (with_requests [SEARCH_REQUEST key] 1 s0) = Some s' ∧
    quiet n T (l ++ ((λ key, Searched key (M !! key)) <$> ks)) s'.
Proof using Hpar AllocatorLaws0 Hrep Hn HQ.
  intros Hrs Hlen. assert (Hd : 1 ≤ depth_ T) by (destruct Hrep as (L & ids & (Hd & _) & _); done).
  destruct (sync_searching fuel rs (λ _, 0) _ Hrs (quiet_searching key (λ _, 0))) as (s' & wt' & E & H' & P').
  { unfold work. destruct HQ as [_ _ _ _ _ _ (_ & _ & I3 & I4 & I5 & _) _ _ _]. unfold active. simpl. rewrite I3, I4, I5. simpl. lia. }
  destruct (searched_quiet wt' s' H' P') as [ks HQ']. by exists s', ks.
Qed.

End searches.

(** ** The specification *)
Definition spec_request (r : request) (M : gmap Z Z) : answer * gmap Z Z :=
  match r with
  | SEARCH_REQUEST key => (Searched key (M !! key), M)
  | INSERT_REQUEST key val => (Inserted key val, <[key := val]> M)
  end.
Fixpoint spec_requests (rs : list request) (M : gmap Z Z) : list answer * gmap Z Z :=
  match rs with
  | [] => ([], M)
  | r :: rs' => let '(a, M) := spec_request r M in let '(l, M) := spec_requests rs' M in (a :: l, M)
  end.

(** The trees the sequential operations make. *)
Definition vanilla_request (r : request) T : option (tree_state A) :=
  match r with SEARCH_REQUEST _ => Some T | INSERT_REQUEST key val => insert CAPACITY junkE junkK key val T end.
Fixpoint vanilla_requests (rs : list request) T : option (tree_state A) :=
  match rs with [] => Some T | r :: rs' => T ← vanilla_request r T; vanilla_requests rs' T end.

Lemma sync_reach n T fuel l rs : ∀ s s',
  reach CAPACITY junkE junkK n T l s → Forall round_ok rs → sync fuel rs s = Some s' →
  reach CAPACITY junkE junkK n T l s'.
Proof.
  induction rs as [|r rs IH]; intros s s' Hr Hrs; cbn [sync]; destruct (_ <? _)%Z; try done; [by intros [= <-]| |by intros [= <-]].
  apply Forall_cons_iff in Hrs as [Hok Hrs]. destruct (do_round fuel r s) as [[[] s1]|] eqn:E; [|done]. cbn [mbind option_bind].
  apply IH; [|done]. by eapply do_round_reach.
Qed.

(** The answers of a quiet machine are those to its requests. *)
Lemma quiet_answers n T0 T rs l s :
  reach CAPACITY junkE junkK n T0 rs s → quiet n T l s → rs ≡ₚ req_of_answer <$> l.
Proof.
  intros Hr HQ. destruct (reach_fine _ _ _ _ _ _ _ Hr) as [_ [G1 G2 _]]. destruct (qu_idle _ _ _ _ HQ) as (I1 & I2 & _).
  rewrite I1, I2 in *. destruct (flight s); [|simpl in G2; lia]. rewrite (qu_answers _ _ _ _ HQ) in G1. by rewrite !app_nil_r in G1.
Qed.

(** One request. *)
Lemma client_step n T0 T M l s past r rs q fuel :
  reach CAPACITY junkE junkK n T0 past s → quiet n T l s → 0 < n → represents CAPACITY T M →
  room (alloc T) (depth_ T + 1 + q) → Forall round_ok rs → 6 * depth_ T + 3 ≤ polling rs →
  ∃ s1 s' T', asynchronous_with_callback r s = Some (true, s1) ∧ sync (5 + fuel) rs s1 = Some s' ∧ vanilla_request r T = Some T' ∧
    reach CAPACITY junkE junkK n T0 (past ++ [r]) s' ∧ quiet n T' (l ++ [(spec_request r M).1]) s' ∧
    represents CAPACITY T' (spec_request r M).2 ∧ room (alloc T') q ∧ depth_ T' ≤ depth_ T + 1.
Proof using Hpar AllocatorLaws0.
  intros Hr HQ Hn Hrep Hroom Hrs Hlen. destruct (qu_idle _ _ _ _ HQ) as (Eq & Ep & _).
  set (s1 := with_requests [r] 1 s).
  assert (E1 : asynchronous_with_callback r s = Some (true, s1)).
  { unfold asynchronous_with_callback. cbv [mbind cmd_bind modify mret cmd_ret]. by rewrite Eq, Ep. }
  assert (Hr1 : reach CAPACITY junkE junkK n T0 (past ++ [r]) s1) by (by eapply reach_request).
  exists s1. destruct r as [key|key val].
  - destruct (client_searches n T M l s Hrep Hn HQ key (2 + fuel) rs Hrs) as (s' & ks & Es & HQ').
    { assert (Hd : 1 ≤ depth_ T) by (destruct Hrep as (L & ids & (Hd & _) & _); done). lia. }
    exists s', T. assert (Hr' : reach CAPACITY junkE junkK n T0 (past ++ [SEARCH_REQUEST key]) s') by (by eapply sync_reach).
    assert (Hks : ks = [key]).
    { pose proof (quiet_answers _ _ _ _ _ _ Hr' HQ') as G. rewrite fmap_app, (quiet_answers _ _ _ _ _ _ Hr HQ) in G.
      apply Permutation_app_inv_l in G. rewrite <- list_fmap_compose in G. apply Permutation_length_1_inv in G.
      destruct ks as [|key' [|]]; simpl in G; by simplify_eq. }
    subst ks. split_and!; try done; [|lia]. eapply room_le; [|exact Hroom]. lia.
  - destruct Hrep as (L & ids & Hok & HL) eqn:E. destruct (client_inserts n T l s L ids key val q fuel rs HQ Hn Hok Hroom Hrs Hlen) as (s' & Tf & Es & Hins & HQ').
    exists s', Tf. destruct (insert_represents CAPACITY junkE junkK Hpar key val T M q Hrep Hroom) as (Tf' & Hins' & H1 & H2 & H3).
    rewrite Hins in Hins'. simplify_eq. split_and!; try done. by eapply sync_reach.
Qed.

Lemma client_runs ops : ∀ n T0 T M l s past q fuel,
  reach CAPACITY junkE junkK n T0 past s → quiet n T l s → 0 < n → represents CAPACITY T M →
  room (alloc T) (length ops * (depth_ T + length ops + 1) + q) →
  Forall (λ op, Forall round_ok op.2 ∧ 6 * (depth_ T + length ops) + 3 ≤ polling op.2) ops →
  ∃ s' T', client (5 + fuel) ops s = Some s' ∧ vanilla_requests ops.*1 T = Some T' ∧
    quiet n T' (l ++ (spec_requests ops.*1 M).1) s' ∧
    represents CAPACITY T' (spec_requests ops.*1 M).2 ∧ room (alloc T') q.
Proof using Hpar AllocatorLaws0.
  induction ops as [|[r rs] ops IH]; intros n T0 T M l s past q fuel Hr HQ Hn Hrep Hroom Hops.
  { exists s, T. simpl. rewrite app_nil_r. by split_and!. }
  apply Forall_cons_iff in Hops as [[Hrs Hlen] Hops]. simpl in Hrs, Hlen.
  destruct (client_step n T0 T M l s past r rs (length ops * (depth_ T + length ops + 2) + q) fuel Hr HQ Hn Hrep) as
    (s1 & s2 & T1 & E1 & E2 & E3 & Hr2 & HQ2 & Hrep2 & Hroom2 & Hd2); [|done|lia|].
  { eapply room_le; [|exact Hroom]. simpl. nia. }
  destruct (IH n T0 T1 (spec_request r M).2 (l ++ [(spec_request r M).1]) s2 (past ++ [r]) q fuel Hr2 HQ2 Hn Hrep2) as
    (s3 & T3 & E4 & E5 & HQ3 & Hrep3 & Hroom3).
  { eapply room_le; [|exact Hroom2]. nia. }
  { eapply Forall_impl; [|exact Hops]. intros op [H1 H2]. split; [done|]. simpl in H2. lia. }
  exists s3, T3. cbn [client fmap list_fmap vanilla_requests spec_requests]. rewrite E1. cbn [mbind option_bind]. rewrite E2. cbn [fst]. rewrite E3. cbn [mbind option_bind].
  destruct (spec_request r M) as [a M1]. simpl in *. destruct (spec_requests ops.*1 M1) as [l1 M2]. simpl in *.
  rewrite <- app_assoc in HQ3. by split_and!.
Qed.

Lemma start_insert_at k i :
  i < k → concat (replicate k [CInsert new_insert_context; CSearch (mk_search 0 (-1) None)]) !! (2 * i)
    = Some (CInsert new_insert_context).
Proof.
  revert i. induction k as [|k IH]; intros i Hi; [lia|]. destruct i as [|i]; [done|].
  replace (2 * S i) with (S (S (2 * i))) by lia. simpl concat. cbn [lookup list_lookup app]. apply IH. lia.
Qed.

Lemma start_quiet n T : quiet n T [] (new_pull_tree n T).
Proof.
  pose proof (start_searching CAPACITY junkE junkK T (λ _, None) n (new_pull_tree n T) (λ _, 0) eq_refl) as HI.
  assert (Hlen : ∀ k, length (concat (replicate k [CInsert new_insert_context; CSearch (mk_search 0 (-1) None)])) = 2 * k).
  { induction k as [|k IH]; [done|]. simpl in *. lia. }
  destruct (si_readers _ _ _ _ _ _ _ _ _ _ HI) as (B1 & B2 & _). pose proof (si_nodup _ _ _ _ _ _ _ _ _ _ HI) as Hnd.
  split; try done.
  - intros q c. unfold ctxs. simpl. intros [-> _]%lookup_replicate. done.
  - simpl. rewrite length_rev, length_fmap, length_seq. split; [done|]. intros q Hq. rewrite <- Permutation_rev in Hq.
    apply list_elem_of_fmap in Hq as (i & -> & Hi). apply elem_of_seq in Hi. exists new_context, new_insert_context. split.
    + unfold ctxs. simpl. rewrite Hlen. apply lookup_replicate. split; [done|]. lia.
    + simpl. apply start_insert_at. lia.
  - split; [simpl; by rewrite length_rev, length_fmap, length_seq|]. split; [exact Hnd|].
    intros q Hq. destruct (si_free _ _ _ _ _ _ _ _ _ _ HI q Hq) as (c & sc & [Hc Hd] & _). by exists c, sc.
Qed.

(** C3: the pull-mode tree is a map. Start the schedulers on a tree that
    represents [M] and let a client submit any sequence of searches and
    insertions, each followed by [sync]; the tree has room for the new blocks.
    Whatever rounds of the two schedulers are done, in whatever order completions
    arrive, [6 * (depth + requests) + 3] rounds that poll let each [sync] return. The
    client sees the answers of the map, in the order of its requests; at the end
    the tree represents the final map, and its blocks, its root, its depth and its
    allocator are those that the sequential tree would have. Five calls of [run]
    per context and round are enough. *)
Theorem pull_client_refines n fuel T M ops q :
  represents CAPACITY T M → 0 < n → 5 ≤ fuel →
  room (alloc T) (length ops * (depth_ T + length ops + 1) + q) →
  Forall (λ op, Forall round_ok op.2 ∧ 6 * (depth_ T + length ops) + 3 ≤ polling op.2) ops →
  ∃ s, client fuel ops (new_pull_tree n T) = Some s ∧
    answers s = (spec_requests ops.*1 M).1 ∧ pending_request_ s = 0%Z ∧
    represents CAPACITY (tree s) (spec_requests ops.*1 M).2 ∧
    vanilla_requests ops.*1 T = Some (tree s) ∧ room (alloc (tree s)) q.
Proof using Hpar AllocatorLaws0.
  intros Hrep Hn Hf Hroom Hops. replace fuel with (5 + (fuel - 5)) by lia.
  destruct (client_runs ops n T T M [] (new_pull_tree n T) [] q (fuel - 5)) as (s & T' & E1 & E2 & HQ & H1 & H2);
    [constructor|apply start_quiet|done..|].
  exists s. rewrite (qu_tree _ _ _ _ HQ). split_and!; try done; [apply HQ|]. by destruct (qu_idle _ _ _ _ HQ) as (_ & ? & _).
Qed.

End client.

(** A tree of two levels: insertions that update a value, lower the left
    boundary and split leaves and an inner node, and searches between them. *)
Definition some_ops : list (request * list round) :=
  (λ r, (r, concat (replicate 130 [LatencyAware (@rev nat) false; LatencyAware (@rev nat) true]))) <$>
  ((λ i, INSERT_REQUEST i (i + 2)%Z) <$> [40; 5; 41; 42; 43; 44; 45; 46; 47; 48; 49; 51]%Z) ++
  (SEARCH_REQUEST <$> [5; 6; 40; 45; 90]%Z).

Lemma some_ops_ok : Forall (λ op, Forall round_ok op.2 ∧ 6 * (depth_ tree9 + length some_ops) + 3 ≤ polling op.2) some_ops.
Proof.
  apply Forall_fmap, Forall_forall. intros r _. cbn [snd]. split.
  - apply Forall_concat, Forall_replicate. repeat constructor; intros l; apply rev_ok.
  - apply Nat.leb_le. vm_compute. reflexivity.
Qed.

Lemma pull_client_refines_witness :
  ∃ s, client 4 junkE4 junkK4 5 some_ops (new_pull_tree 2 tree9) = Some s ∧
    answers s = (spec_requests some_ops.*1 map9).1 ∧ pending_request_ s = 0%Z ∧
    represents 4 (tree s) (spec_requests some_ops.*1 map9).2 ∧
    vanilla_requests 4 junkE4 junkK4 some_ops.*1 tree9 = Some (tree s) ∧ room (alloc (tree s)) 10.
Proof.
  apply (pull_client_refines 4 junkE4 junkK4 params4 2 5 tree9 map9 some_ops 10).
  - apply tree9_represents.
  - lia.
  - lia.
  - by apply room_concrete.
  - apply some_ops_ok.
Defined.

End PullClient.
