(* ===== verification/OptimizedTree.v ===== *)
(** The blocking operations on top of the pull-mode tree:
    src/src/tree/disk_optimized_b_plus_tree.h and
    src/src/tree/nvme_optimized_b_plus_tree.h. A call builds a request with a
    semaphore of its own, submits it, and spins on the semaphore, which the
    context of the request releases when it answers. One client calls at a
    time, so its answer is the next one the tree reports. *)
From Stdlib Require Import ZArith Lia.
From stdpp Require Import base list gmap sorting numbers functions.
From S2P Require Import Prelude KV Leaf Inner Store Tree TreeFoot Barrier PullState PullTree PullSafe PullAnswers TreeSpec PullSearch PullClient.

Module OptimizedTree.
Import Barrier Pull PullTree PullSafe PullAnswers PullSearch PullClient.

Section wrappers.
Context {A : Type} `{!Allocator A} `{!AllocatorLaws A}.
Context (CAPACITY : nat) (junkE : list (Z * Z)) (junkK : list Z).
Context (Hpar : params_ok CAPACITY junkE junkK).
Local Abbreviation pstate := (pstate A).
Local Abbreviation do_round := (do_round CAPACITY junkE junkK).
Local Abbreviation reach := (reach CAPACITY junkE junkK).
Implicit Types (s : pstate) (T : tree_state A) (rs : list round).

(** [while(!semaphore.try_lock()) usleep(1);]: the semaphore of the request is
    free once answer [n] was reported. The thread of the tree does the rounds
    [rs] meanwhile; [None]: they are over and the caller still spins. *)
Fixpoint await (fuel : nat) rs (n : nat) s : option (answer * pstate) :=
  match answers s !! n with
  | Some a => Some (a, s)
  | None =>
      match rs with
      | [] => None
      | r :: rs' => '(_, s) ← do_round fuel r s; await fuel rs' n s
      end
  end.

Definition call (fuel : nat) rs (r : request) s : option (answer * pstate) :=
  let n := length (answers s) in
  '(_, s) ← asynchronous_with_callback r s; await fuel rs n s.

(** [disk_optimized_b_plus_tree::search]: [None] in the result stands for
    [found == false]; the value is then left as it was. *)
Definition disk_search (fuel : nat) rs (key : Z) s : option (option Z * pstate) :=
  '(a, s) ← call fuel rs (SEARCH_REQUEST key) s;
  match a with Searched _ found => Some (found, s) | Inserted _ _ => None end.

Definition disk_insert (fuel : nat) rs (key value : Z) s : option pstate :=
  '(a, s) ← call fuel rs (INSERT_REQUEST key value) s; Some s.

(** [nvme_optimized_b_plus_tree::search] ends with
    [assert(!found || key == value)]. *)
Definition nvme_search (fuel : nat) rs (key : Z) s : option (option Z * pstate) :=
  '(found, s) ← disk_search fuel rs key s;
  match found with
  | Some value => if (key =? value)%Z then Some (found, s) else None
  | None => Some (found, s)
  end.

(** ** Calls *)
(** A sequence of calls, and the results of its searches. *)
Fixpoint calls (fuel : nat) (ops : list (request * list round)) s : option (list (option Z) * pstate) :=
  match ops with
  | [] => Some ([], s)
  | (SEARCH_REQUEST key, rs) :: ops' =>
      '(found, s) ← disk_search fuel rs key s; '(l, s) ← calls fuel ops' s; Some (found :: l, s)
  | (INSERT_REQUEST key value, rs) :: ops' => s ← disk_insert fuel rs key value s; calls fuel ops' s
  end.

Fixpoint spec_calls (rs : list request) (M : gmap Z Z) : list (option Z) * gmap Z Z :=
  match rs with
  | [] => ([], M)
  | SEARCH_REQUEST key :: rs' => let '(l, M') := spec_calls rs' M in ((M !! key) :: l, M')
  | INSERT_REQUEST key value :: rs' => spec_calls rs' (<[key := value]> M)
  end.

(** ** Waiting for the answer and waiting for no pending request *)
Lemma reach_counts n T l s :
  reach n T l s → (Z.of_nat (length (answers s)) + pending_request_ s = Z.of_nat (length l))%Z.
Proof.
  intros Hr. destruct (reach_fine _ _ _ _ _ _ _ Hr) as [_ [G1 G2 _]]. apply Permutation_length in G1.
  rewrite !length_app, length_fmap in G1. lia.
Qed.

Lemma await_sync n T fuel past r rs : ∀ s,
  reach n T (past ++ [r]) s → Forall round_ok rs →
  await fuel rs (length past) s = (s' ← sync CAPACITY junkE junkK fuel rs s; a ← answers s' !! length past; Some (a, s')).
Proof.
  induction rs as [|r0 rs IH]; intros s Hr Hrs; cbn [await sync]; pose proof (reach_counts _ _ _ _ Hr) as Hc;
    rewrite length_app in Hc; simpl in Hc; destruct (Z.ltb_spec 0 (pending_request_ s)) as [Hlt|Hge].
  - rewrite lookup_ge_None_2 by lia. done.
  - cbn [mbind option_bind]. destruct (lookup_lt_is_Some_2 (answers s) (length past)) as [a ->]; [lia|done].
  - rewrite lookup_ge_None_2 by lia. destruct (do_round fuel r0 s) as [[[] s1]|] eqn:E; [|done]. cbn [mbind option_bind].
    apply Forall_cons_iff in Hrs as [Hr0 Hrs]. apply IH; [|done]. by eapply do_round_reach.
  - cbn [mbind option_bind]. destruct (lookup_lt_is_Some_2 (answers s) (length past)) as [a ->]; [lia|done].
Qed.

(** One call of a machine that is quiet. *)
Lemma call_answers n T0 T M l s past r rs q fuel :
  reach n T0 past s → quiet n T l s → 0 < n → represents CAPACITY T M →
  room (alloc T) (depth_ T + 1 + q) → Forall round_ok rs → 6 * depth_ T + 3 ≤ polling rs →
  ∃ s' T', call (5 + fuel) rs r s = Some ((spec_request r M).1, s') ∧
    vanilla_request CAPACITY junkE junkK r T = Some T' ∧
    reach n T0 (past ++ [r]) s' ∧ quiet n T' (l ++ [(spec_request r M).1]) s' ∧
    represents CAPACITY T' (spec_request r M).2 ∧ room (alloc T') q ∧ depth_ T' ≤ depth_ T + 1.
Proof using Hpar AllocatorLaws0.
  intros Hr HQ Hn Hrep Hroom Hrs Hlen.
  destruct (client_step CAPACITY junkE junkK Hpar n T0 T M l s past r rs q fuel Hr HQ Hn Hrep Hroom Hrs Hlen)
    as (s1 & s' & T' & E1 & E2 & Hv & Hr' & HQ' & H1 & H2 & H3).
  exists s', T'. split_and!; try done. unfold call. rewrite E1. cbn [mbind option_bind].
  assert (El : length (answers s) = length past).
  { pose proof (reach_counts _ _ _ _ Hr) as Hc. destruct (qu_idle _ _ _ _ HQ) as (_ & Hp & _). lia. }
  rewrite El, (await_sync n T0 _ past r) by (done || by eapply reach_request). rewrite E2. cbn [mbind option_bind].
  rewrite (qu_answers _ _ _ _ HQ'), <- El, (qu_answers _ _ _ _ HQ), lookup_app_r, Nat.sub_diag by done. done.
Qed.

Lemma calls_run ops : ∀ n T0 T M l s past q fuel,
  reach n T0 past s → quiet n T l s → 0 < n → represents CAPACITY T M →
  room (alloc T) (length ops * (depth_ T + length ops + 1) + q) →
  Forall (λ op, Forall round_ok op.2 ∧ 6 * (depth_ T + length ops) + 3 ≤ polling op.2) ops →
  ∃ s' T', calls (5 + fuel) ops s = Some ((spec_calls ops.*1 M).1, s') ∧
    vanilla_requests CAPACITY junkE junkK ops.*1 T = Some T' ∧
    reach n T0 (past ++ ops.*1) s' ∧ quiet n T' (l ++ (spec_requests ops.*1 M).1) s' ∧
    represents CAPACITY T' (spec_calls ops.*1 M).2 ∧ room (alloc T') q ∧ depth_ T' ≤ depth_ T + length ops.
Proof using Hpar AllocatorLaws0.
  induction ops as [|[r rs] ops IH]; intros n T0 T M l s past q fuel Hr HQ Hn Hrep Hroom Hops.
  { exists s, T. simpl. rewrite !app_nil_r. split_and!; try done. lia. }
  apply Forall_cons_iff in Hops as [[Hrs Hlen] Hops]. simpl in Hrs, Hlen.
  destruct (call_answers n T0 T M l s past r rs (length ops * (depth_ T + length ops + 2) + q) fuel Hr HQ Hn Hrep) as
    (s1 & T1 & E1 & Ev & Hr1 & HQ1 & Hrep1 & Hroom1 & Hd1); [|done|lia|].
  { eapply room_le; [|exact Hroom]. simpl. nia. }
  destruct (IH n T0 T1 (spec_request r M).2 (l ++ [(spec_request r M).1]) s1 (past ++ [r]) q fuel Hr1 HQ1 Hn Hrep1)
    as (s2 & T2 & E2 & Ev2 & Hr2 & HQ2 & Hrep2 & Hroom2 & Hd2).
  { eapply room_le; [|exact Hroom1]. nia. }
  { eapply Forall_impl; [|exact Hops]. intros op [H1 H2]. split; [done|]. simpl in H2. lia. }
  rewrite <- app_assoc in Hr2, HQ2. exists s2, T2. cbn [fmap list_fmap vanilla_requests fst]. rewrite Ev. cbn [mbind option_bind].
  destruct r as [key|key value]; cbn [calls fmap list_fmap spec_calls spec_requests spec_request fst snd app] in *;
    unfold disk_search, disk_insert; rewrite E1; cbn [mbind option_bind]; rewrite E2; cbn [mbind option_bind];
    destruct (spec_calls ops.*1 _), (spec_requests ops.*1 _); split_and!; try done; simpl; lia.
Qed.

(** The blocking tree is a map. Start the schedulers on a tree that
    represents [M], with room for the new blocks, and let a client call
    [search] and [insert] of the disk-optimised tree in any order. Every call
    returns, whatever rounds the two schedulers do and in whatever order
    completions arrive, once [6 * (depth + calls) + 3] of the rounds poll. Each
    search returns what the map holds at that point, and the tree represents the
    final map. *)
Theorem optimized_tree_refines n fuel T M ops q :
  represents CAPACITY T M → 0 < n → 5 ≤ fuel →
  room (alloc T) (length ops * (depth_ T + length ops + 1) + q) →
  Forall (λ op, Forall round_ok op.2 ∧ 6 * (depth_ T + length ops) + 3 ≤ polling op.2) ops →
  ∃ s, calls fuel ops (new_pull_tree n T) = Some ((spec_calls ops.*1 M).1, s) ∧
    represents CAPACITY (tree s) (spec_calls ops.*1 M).2 ∧ room (alloc (tree s)) q.
Proof using Hpar AllocatorLaws0.
  intros Hrep Hn Hf Hroom Hops. replace fuel with (5 + (fuel - 5)) by lia.
  destruct (calls_run ops n T T M [] (new_pull_tree n T) [] q (fuel - 5)) as (s & T' & E & _ & _ & HQ & H1 & H2 & _);
    [constructor|by apply (start_quiet CAPACITY junkE junkK)|done..|].
  exists s. by rewrite (qu_tree _ _ _ _ HQ).
Qed.

(** The search of the NVMe-optimised tree is a search of a set. It returns
    what the disk-optimised search returns when the value of the key is the key
    itself, or the key is missing; for every other entry of the map its
    assertion fails. *)
Theorem nvme_search_asserts n fuel T M key rs :
  represents CAPACITY T M → 0 < n → 5 ≤ fuel → room (alloc T) (depth_ T + 1) →
  Forall round_ok rs → 6 * depth_ T + 3 ≤ polling rs →
  ∃ s, disk_search fuel rs key (new_pull_tree n T) = Some (M !! key, s) ∧
    nvme_search fuel rs key (new_pull_tree n T) =
      (if decide (M !! key = None ∨ M !! key = Some key) then Some (M !! key, s) else None).
Proof using Hpar AllocatorLaws0.
  intros Hrep Hn Hf Hroom Hrs Hlen. replace fuel with (5 + (fuel - 5)) by lia.
  destruct (call_answers n T T M [] (new_pull_tree n T) [] (SEARCH_REQUEST key) rs 0 (fuel - 5)) as (s & T' & E & _);
    [constructor|by apply (start_quiet CAPACITY junkE junkK)|done|done|by rewrite Nat.add_0_r|done|done|].
  exists s. unfold nvme_search, disk_search. rewrite E. cbn [mbind option_bind spec_request fst]. split; [done|].
  destruct (M !! key) as [v|]; [|by rewrite decide_True by (by left)].
  destruct (Z.eqb_spec key v) as [->|Hne]; [by rewrite decide_True by (by right)|].
  rewrite decide_False; [done|]. intros [?|?]; congruence.
Qed.

End wrappers.

Lemma optimized_tree_refines_witness :
  ∃ s, calls 4 junkE4 junkK4 5 some_ops (new_pull_tree 2 tree9) = Some ((spec_calls some_ops.*1 map9).1, s) ∧
    represents 4 (tree s) (spec_calls some_ops.*1 map9).2 ∧ room (alloc (tree s)) 10.
Proof.
  apply (optimized_tree_refines 4 junkE4 junkK4 params4 2 5 tree9 map9 some_ops 10).
  - apply tree9_represents.
  - lia.
  - lia.
  - by apply room_concrete.
  - apply some_ops_ok.
Defined.

(** The searches of that run, one of which misses. *)
Example optimized_tree_results :
  fst <$> calls 4 junkE4 junkK4 5 some_ops (new_pull_tree 2 tree9) = Some [Some 7; None; Some 42; Some 47; Some 91]%Z.
Proof. vm_compute. reflexivity. Qed.

(** The entry (40, 41) of the tree cannot be searched for. *)
Lemma nvme_search_asserts_witness :
  ∃ s, disk_search 4 junkE4 junkK4 5 some_rounds 40 (new_pull_tree 2 tree9) = Some (map9 !! 40%Z, s) ∧
    nvme_search 4 junkE4 junkK4 5 some_rounds 40 (new_pull_tree 2 tree9) =
      (if decide (map9 !! 40%Z = None ∨ map9 !! 40%Z = Some 40%Z) then Some (map9 !! 40%Z, s) else None).
Proof.
  apply (nvme_search_asserts 4 junkE4 junkK4 params4 2 5 tree9 map9 40 some_rounds).
  - apply tree9_represents.
  - lia.
  - lia.
  - by apply room_concrete.
  - apply some_rounds_ok.
  - apply Nat.leb_le. vm_compute. reflexivity.
Defined.

Example nvme_search_fails : nvme_search 4 junkE4 junkK4 5 some_rounds 40 (new_pull_tree 2 tree9) = None.
Proof. vm_compute. reflexivity. Qed.

End OptimizedTree.
