(* ===== verification/ProbeTimer.v ===== *)
(** When the latency-aware scheduler polls the device
    (src/src/tree/pull_based_b_plus_tree.h, [latency_aware_scheduler::run]): the
    delays since the last poll, in cycles of the time-stamp counter, and the
    number of operations the estimator expects to be ready. *)
From Stdlib Require Import ZArith Lia.
From stdpp Require Import base list gmap sorting numbers functions.
From S2P Require Import Prelude KV Leaf Inner Store Tree TreeFoot Barrier PullState PullTree PullAnswers TreeSpec PullSearch PullClient OptimizedTree.

Module ProbeTimer.
Import Barrier Pull PullTree PullAnswers PullSearch PullClient OptimizedTree.
Local Open Scope Z_scope.

Definition max_probe_delay_cycles : Z := 500000.
Definition min_probe_delay_cycles : Z := 50000.

(** The condition of the poll. The difference of the counters is an unsigned
    64-bit number. *)
Definition should_probe (now last_probe_tick estimated : Z) : bool :=
  let delay := (now - last_probe_tick) mod 2 ^ 64 in
  (min_probe_delay_cycles <=? delay) &&
  ((max_probe_delay_cycles <=? delay) || (Z.of_nat process_granularity <=? estimated)).

(** What a round reads from the counter and the estimator: the time at which it
    decides, the estimate, and the time at its end, after a poll if there is one;
    [order] is that of the completions. *)
Record timing := mk_timing { order : list nat → list nat; now : Z; estimated : Z; finish : Z }.

(** The rounds of the loop: [last_probe_tick] is set after each poll. *)
Fixpoint timed_rounds (last_probe_tick : Z) (l : list timing) : list round :=
  match l with
  | [] => []
  | t :: l' =>
      let probe := should_probe (now t) last_probe_tick (estimated t) in
      LatencyAware (order t) probe :: timed_rounds (if probe then finish t else last_probe_tick) l'
  end.

(** ** A clock *)
(** The counter runs, and no more than [g] cycles pass between the start of a
    round, its decision and its end. *)
Fixpoint clocked (g prev : Z) (l : list timing) : Prop :=
  match l with
  | [] => True
  | t :: l' => prev ≤ now t ≤ prev + g ∧ now t ≤ finish t ≤ now t + g ∧ finish t < 2 ^ 64 ∧ clocked g (finish t) l'
  end.

(** The end of the last round. *)
Fixpoint ends (start : Z) (l : list timing) : Z :=
  match l with [] => start | t :: l' => ends (finish t) l' end.

(** A poll takes place at least once in that many cycles. *)
Definition period (g : Z) : Z := max_probe_delay_cycles + 4 * g.

Lemma not_probed now0 last0 e :
  0 ≤ last0 ≤ now0 → now0 < 2 ^ 64 → should_probe now0 last0 e = false → now0 - last0 < max_probe_delay_cycles.
Proof.
  unfold should_probe, min_probe_delay_cycles, max_probe_delay_cycles. intros H1 H2. rewrite Z.mod_small by lia.
  destruct (Z.leb_spec 50000 (now0 - last0)), (Z.leb_spec 500000 (now0 - last0)); simpl; try done; lia.
Qed.

Lemma timed_cons t l last0 :
  polling (timed_rounds last0 (t :: l)) =
    ((if should_probe (now t) last0 (estimated t) then 1 else 0) +
     polling (timed_rounds (if should_probe (now t) last0 (estimated t) then finish t else last0) l))%nat.
Proof. apply polling_cons. Qed.

Lemma polls_since g l : ∀ last0 prev,
  0 ≤ g → 0 ≤ last0 ≤ prev → clocked g prev l → prev - last0 < max_probe_delay_cycles + 2 * g →
  ends prev l - last0 < (Z.of_nat (polling (timed_rounds last0 l)) + 1) * period g.
Proof.
  induction l as [|t l IH]; intros last0 prev Hg H0 Hc Hp; cbn [clocked ends] in *.
  { change (polling (timed_rounds last0 [])) with 0%nat. unfold period. lia. }
  destruct Hc as (C1 & C2 & C3 & Hc). rewrite timed_cons. destruct (should_probe _ _ _) eqn:E.
  - specialize (IH (finish t) (finish t) Hg ltac:(lia) Hc ltac:(unfold max_probe_delay_cycles; lia)). unfold period in *. nia.
  - apply not_probed in E; [|lia|lia]. specialize (IH last0 (finish t) Hg ltac:(lia) Hc ltac:(lia)). lia.
Qed.

Lemma polls_often g l last0 prev :
  0 ≤ g → 0 ≤ last0 ≤ prev → clocked g prev l →
  ends prev l - prev < (Z.of_nat (polling (timed_rounds last0 l)) + 1) * period g.
Proof.
  intros Hg H0 Hc. destruct l as [|t l]; cbn [clocked ends] in *.
  { change (polling (timed_rounds last0 [])) with 0%nat. unfold period, max_probe_delay_cycles. lia. }
  destruct Hc as (C1 & C2 & C3 & Hc). rewrite timed_cons. destruct (should_probe _ _ _) eqn:E.
  - pose proof (polls_since g l (finish t) (finish t) Hg ltac:(lia) Hc ltac:(unfold max_probe_delay_cycles; lia)).
    unfold period, max_probe_delay_cycles in *. nia.
  - apply not_probed in E; [|lia|lia]. pose proof (polls_since g l last0 (finish t) Hg ltac:(lia) Hc ltac:(lia)). lia.
Qed.

Lemma timed_rounds_ok l : ∀ last0, Forall (λ t, ∀ x, order t x ≡ₚ x) l → Forall round_ok (timed_rounds last0 l).
Proof. induction l as [|t l IH]; intros last0 Hl; [constructor|]. apply Forall_cons_iff in Hl as [Ht Hl]. constructor; [done|by apply IH]. Qed.

(** ** Calls in bounded time *)
(** A call, with the value of [last_probe_tick] and the time when it starts and
    what the rounds read until it returns. *)
Definition timed_call : Type := request * (Z * Z * list timing).

Definition rounds_of (op : timed_call) : request * list round :=
  let '(r, (last_probe_tick, _, l)) := op in (r, timed_rounds last_probe_tick l).

(** The clock of a call runs with steps of at most [g] for [n] periods. *)
Definition lasts (g : Z) (n : nat) (op : timed_call) : Prop :=
  let '(_, (last_probe_tick, start, l)) := op in
  0 ≤ last_probe_tick ≤ start ∧ clocked g start l ∧ Forall (λ t, ∀ x, order t x ≡ₚ x) l ∧
  Z.of_nat n * period g ≤ ends start l - start.

Lemma lasts_polls g n op : 0 ≤ g → lasts g n op → Forall round_ok (rounds_of op).2 ∧ (n ≤ polling (rounds_of op).2)%nat.
Proof.
  destruct op as [r [[last0 start] l]]. intros Hg (H1 & H2 & H3 & H4). simpl. split; [by apply timed_rounds_ok|].
  pose proof (polls_often g l last0 start Hg H1 H2). unfold period, max_probe_delay_cycles in *. nia.
Qed.

Section returns.
Context {A : Type} `{!Allocator A} `{!AllocatorLaws A}.
Context (CAPACITY : nat) (junkE : list (Z * Z)) (junkK : list Z).
Context (Hpar : params_ok CAPACITY junkE junkK).

(** C10: calls return in bounded time under the latency-aware scheduler. Let it
    decide by its counter and by any estimates when to poll; the counter runs
    from round to round in steps of at most [g] cycles. A call of the
    disk-optimised tree returns within [6 * (depth + calls) + 3] periods of
    [max_probe_delay_cycles + 4 * g] cycles, even if the estimator never expects
    an operation to be ready, and the searches return what the map holds. *)
Theorem latency_aware_returns n fuel (T : tree_state A) M ops g :
  represents CAPACITY T M → (0 < n)%nat → (5 ≤ fuel)%nat → 0 ≤ g →
  room (alloc T) (length ops * (depth_ T + length ops + 1)) →
  Forall (lasts g (6 * (depth_ T + length ops) + 3)) ops →
  ∃ s, calls CAPACITY junkE junkK fuel (rounds_of <$> ops) (new_pull_tree n T) = Some ((spec_calls ops.*1 M).1, s) ∧
    represents CAPACITY (tree s) (spec_calls ops.*1 M).2.
Proof using Hpar AllocatorLaws0.
  intros Hrep Hn Hf Hg Hroom Hops. replace fuel with (5 + (fuel - 5))%nat by lia.
  assert (E : (rounds_of <$> ops).*1 = ops.*1).
  { rewrite <- list_fmap_compose. apply list_fmap_ext. intros i [r [[a b] l]] _. done. }
  destruct (calls_run CAPACITY junkE junkK Hpar (rounds_of <$> ops) n T T M [] (new_pull_tree n T) [] 0 (fuel - 5)) as (s & T' & E1 & _ & _ & HQ & H1 & _).
  - constructor.
  - by apply (start_quiet CAPACITY junkE junkK).
  - done.
  - done.
  - rewrite length_fmap, Nat.add_0_r. done.
  - rewrite length_fmap. apply Forall_fmap. eapply Forall_impl; [|exact Hops]. intros op Hop. by apply (lasts_polls g).
  - rewrite E in *. exists s. by rewrite (qu_tree _ _ _ _ HQ).
Qed.

End returns.

(** A counter that advances by 10000 cycles, and an estimator that never expects
    anything. *)
Definition slow_clock (start : Z) (rounds : nat) : list timing :=
  (λ i, mk_timing (@rev nat) (start + 20000 * Z.of_nat i + 10000) 0 (start + 20000 * Z.of_nat i + 20000)) <$> seq 0 rounds.
Definition timed_ops : list timed_call :=
  [(INSERT_REQUEST 45 46, (0, 10 ^ 9, slow_clock (10 ^ 9) 1000)); (SEARCH_REQUEST 45, (2 * 10 ^ 9, 2 * 10 ^ 9, slow_clock (2 * 10 ^ 9) 1000))].

Lemma slow_clock_clocked n : ∀ k start, 0 ≤ start → start + 20000 * Z.of_nat (k + n) < 2 ^ 64 →
  clocked 10000 (start + 20000 * Z.of_nat k)
    ((λ i, mk_timing (@rev nat) (start + 20000 * Z.of_nat i + 10000) 0 (start + 20000 * Z.of_nat i + 20000)) <$> seq k n) ∧
  ends (start + 20000 * Z.of_nat k)
    ((λ i, mk_timing (@rev nat) (start + 20000 * Z.of_nat i + 10000) 0 (start + 20000 * Z.of_nat i + 20000)) <$> seq k n)
    = start + 20000 * Z.of_nat (k + n).
Proof.
  induction n as [|n IH]; intros k start H0 Hb; [simpl; rewrite Nat.add_0_r; done|].
  cbn [seq fmap list_fmap clocked ends now finish].
  replace (start + 20000 * Z.of_nat k + 20000) with (start + 20000 * Z.of_nat (S k)) by lia.
  destruct (IH (S k) start H0) as [H1 H2]; [lia|]. split; [split_and!; [lia..|done]|]. rewrite H2. lia.
Qed.

Lemma latency_aware_returns_witness :
  ∃ s, calls 4 junkE4 junkK4 5 (rounds_of <$> timed_ops) (new_pull_tree 2 tree9) = Some ((spec_calls timed_ops.*1 map9).1, s) ∧
    represents 4 (tree s) (spec_calls timed_ops.*1 map9).2.
Proof.
  apply (latency_aware_returns 4 junkE4 junkK4 params4 2 5 tree9 map9 timed_ops 10000).
  - apply tree9_represents.
  - lia.
  - lia.
  - lia.
  - by apply room_concrete.
  - assert (Hs : ∀ r last0 start, 0 ≤ last0 ≤ start → start ≤ 2 * 10 ^ 9 → lasts 10000 (6 * (2 + 2) + 3) (r, (last0, start, slow_clock start 1000))).
    { intros r last0 start Hl Hs. destruct (slow_clock_clocked 1000 0 start) as [H1 H2]; [lia|lia|].
      replace (start + 20000 * Z.of_nat 0) with start in H1, H2 by lia. split_and!; [lia|lia|exact H1| |].
      - apply Forall_fmap, Forall_forall. intros i _ l. apply rev_ok.
      - unfold slow_clock. rewrite H2. unfold period, max_probe_delay_cycles. lia. }
    assert (Ed : depth_ tree9 = 2%nat) by (vm_compute; reflexivity). rewrite Ed. change (length timed_ops) with 2%nat.
    unfold timed_ops. constructor; [|constructor; [|constructor]]; apply Hs; lia.
Defined.

End ProbeTimer.
