(* ===== verification/PullSession.v ===== *)
(** The life of a pull-mode tree: [init], calls, and [close] of
    src/src/tree/pull_based_b_plus_tree.h, with the thread that runs the
    scheduler until it terminates. *)
From Stdlib Require Import ZArith Lia.
From stdpp Require Import base list gmap sorting numbers functions.
From S2P Require Import Prelude KV Leaf Inner Store Tree TreeFoot TreeInsert TreeSearch TreeClose Barrier Alloc PullState PullTree PullAnswers TreeSpec PullSearch PullClient OptimizedTree.

Module PullSession.
Import Barrier Pull PullTree PullAnswers PullSearch PullClient OptimizedTree.

Section session.
Context {A : Type} `{!Allocator A} `{!AllocatorLaws A}.
Context (CAPACITY : nat) (junkE : list (Z * Z)) (junkK : list Z).
Context (Hpar : params_ok CAPACITY junkE junkK).
Local Abbreviation pstate := (pstate A).
Local Abbreviation do_round := (do_round CAPACITY junkE junkK).
Local Abbreviation insert := (insert CAPACITY junkE junkK).
Local Abbreviation vanilla_request := (vanilla_request CAPACITY junkE junkK).
Local Abbreviation vanilla_requests := (vanilla_requests CAPACITY junkE junkK).
Implicit Types (s : pstate) (T : tree_state A) (rs : list round) (m : gmap Z blk) (a : A).

(** [init]: the tree of one empty leaf on the blocks of the accessor, and the
    thread of the scheduler with its free contexts. *)
Definition init_pull (queue_length : nat) m a : pstate := new_pull_tree queue_length (init junkE m a).

(** [while (!terminated())] of the schedulers, in the rounds [rs]. [None]: the
    rounds are over and the loop still runs. *)
Fixpoint run_scheduler (fuel : nat) (flag : bool) rs s : option pstate :=
  if terminated flag s then Some s
  else match rs with
       | [] => None
       | r :: rs' => '(_, s) ← do_round fuel r s; run_scheduler fuel flag rs' s
       end.

(** [close] sets the terminate flag, joins the thread and closes the sequential
    tree below. *)
Definition close_pull (fuel : nat) rs s : option (pstate * tree_state A) :=
  s ← run_scheduler fuel true rs s; T ← close_tree CAPACITY junkE junkK (tree s); Some (s, T).

(** A session: blocking calls, a last request nobody waits for, and [close]. *)
Definition session (fuel queue_length : nat) m a (ops : list (request * list round)) (last : request) rs :
  option (list (option Z) * list answer * tree_state A) :=
  '(l, s) ← calls CAPACITY junkE junkK fuel ops (init_pull queue_length m a);
  '(_, s) ← asynchronous_with_callback last s;
  '(s, T) ← close_pull fuel rs s;
  Some (l, answers s, T).











End session.

(** Insertions that make a tree of two levels, a search, and an insertion that
    is still pending when the tree is closed. *)
Definition session_ops : list (request * list round) :=
  (λ r, (r, replicate 60 (Naive (@rev nat)))) <$>
  ((λ i, INSERT_REQUEST i (i * i)%Z) <$> [1; 3; 5; 2; 4]%Z) ++ (SEARCH_REQUEST <$> [4; 6]%Z).


Example session_results :
  (λ x, (x.1.1, length x.1.2, depth_ x.2)) <$>
    session 4 junkE4 junkK4 5 2 ∅ (mk_file Alloc.new_allocator) session_ops (INSERT_REQUEST 6 36) (replicate 60 (Naive (@rev nat)))
  = Some ([Some 16; None]%Z, 8, 2).
Proof. vm_compute. reflexivity. Qed.

End PullSession.
