(* ===== verification/Workload.v ===== *)
(** Clients of the trees: the interface BTree of src/src/tree/b_tree.h with the
    sequential, the concurrent and the pull-mode tree as its implementations, and
    the drivers of src/src/perf (insert.h, update.h, tree_operation_executor.h) that
    distribute tuples and operations over threads. A thread's operations are
    executed in its order; the threads interleave, one operation at a time. *)
From Stdlib Require Import ZArith Lia.
From stdpp Require Import base list gmap sorting numbers functions.
From S2P Require Import Prelude KV Leaf Inner Store Tree TreeFoot TreeInsert TreeSearch TreeSpec LockManager ConcurrentTree Barrier PullState PullTree PullAnswers PullSearch PullClient OptimizedTree.

(** ** The interface *)
(** The operations a client calls; [None] is a crash. *)
Class BTree (T : Type) := {
  bt_search : Z → T → option (option Z * T);
  bt_insert : Z → Z → T → option T }.

(** What an implementation promises: [holds t M n] is a tree that represents the
    map [M] and can take [n] more operations. *)
Class BTreeLaws (T : Type) `{!BTree T} := {
  holds : T → gmap Z Z → nat → Prop;
  law_search k t M n : holds t M (S n) → ∃ t', bt_search k t = Some (M !! k, t') ∧ holds t' M n;
  law_insert k v t M n : holds t M (S n) → ∃ t', bt_insert k v t = Some t' ∧ holds t' (<[k := v]> M) n }.

(** The tree on blocks: CAPACITY and the contents of fresh arrays. *)
Section vanilla.
Context {A : Type} `{!Allocator A} `{!AllocatorLaws A}.
Context (CAPACITY : nat) (junkE : list (Z * Z)) (junkK : list Z).
Context (Hpar : params_ok CAPACITY junkE junkK).

Definition vanilla_tree : BTree (tree_state A) := {|
  bt_search k st := v ← search CAPACITY junkE junkK k st; Some (v, st);
  bt_insert k v st := insert CAPACITY junkE junkK k v st |}.

Program Definition vanilla_laws : @BTreeLaws (tree_state A) vanilla_tree :=
  @Build_BTreeLaws _ vanilla_tree
    (λ st M n, represents CAPACITY st M ∧ room (alloc st) (n * (depth_ st + n + 1))) _ _.
Next Obligation.
  intros k st M n [Hrep Hroom]. simpl. rewrite (search_represents CAPACITY junkE junkK Hpar k st M Hrep). cbn [mbind option_bind].
  exists st. split_and!; [done|done|]. eapply room_le; [|exact Hroom]. nia.
Qed.
Next Obligation.
  intros k v st M n [Hrep Hroom]. simpl.
  destruct (insert_represents CAPACITY junkE junkK Hpar k v st M (n * (depth_ st + n + 2)) Hrep) as (st' & E & H1 & H2 & H3).
  { eapply room_le; [|exact Hroom]. nia. }
  exists st'. split_and!; [done|done|]. eapply room_le; [|exact H2]. nia.
Qed.

End vanilla.

(** The concurrent tree, with its lock manager. *)
Section concurrent.
Context {A : Type} `{!Allocator A} `{!AllocatorLaws A}.
Context (CAPACITY : nat) (junkE : list (Z * Z)) (junkK : list Z).
Context (Hpar : params_ok CAPACITY junkE junkK).
Import Locks.

Definition concurrent_tree : BTree (manager * tree_state A) := {|
  bt_search k t := '(v, m) ← concurrent_search CAPACITY junkE junkK k t.1 t.2; Some (v, (m, t.2));
  bt_insert k v t := concurrent_insert CAPACITY junkE junkK k v t.1 t.2 |}.

(** No lock is held between operations. *)
Definition no_locks (m : manager) : Prop := ∀ j, get_or_create j m = unlocked.

Program Definition concurrent_laws : @BTreeLaws (manager * tree_state A) concurrent_tree :=
  @Build_BTreeLaws _ concurrent_tree
    (λ t M n, no_locks t.1 ∧ represents CAPACITY t.2 M ∧ room (alloc t.2) (n * (depth_ t.2 + n + 1))) _ _.
Next Obligation.
  intros k [m st] M n (Hm & Hrep & Hroom). simpl in *. pose proof Hrep as (l & ids & Hok & Hl).
  destruct (concurrent_search_tree CAPACITY junkE junkK Hpar k m st l ids (M !! k) Hok) as (m' & E & Hs);
    [by intros|by apply search_represents|].
  rewrite E. cbn [mbind option_bind]. eexists. split; [done|]. split_and!; simpl; [|done|].
  - intros j. by rewrite (Hs j).
  - eapply room_le; [|exact Hroom]. nia.
Qed.
Next Obligation.
  intros k v [m st] M n (Hm & Hrep & Hroom). simpl in *. pose proof Hrep as (l & ids & Hok & Hl).
  destruct (insert_represents CAPACITY junkE junkK Hpar k v st M (n * (depth_ st + n + 2)) Hrep) as (st' & E & H1 & H2 & H3).
  { eapply room_le; [|exact Hroom]. nia. }
  destruct (concurrent_insert_tree CAPACITY junkE junkK Hpar k v m st st' l ids Hok) as (m' & E' & Hs); [by intros|done|].
  exists (m', st'). split; [done|]. split_and!; simpl; [|done|].
  - intros j. by rewrite (Hs j).
  - eapply room_le; [|exact H2]. nia.
Qed.

End concurrent.

(** The pull-mode tree behind the blocking calls: call number [i] runs while the
    scheduler does the rounds [sched i]. *)
Section pull.
Context {A : Type} `{!Allocator A} `{!AllocatorLaws A}.
Context (CAPACITY : nat) (junkE : list (Z * Z)) (junkK : list Z).
Context (Hpar : params_ok CAPACITY junkE junkK).
Context (queue_length : nat) (sched : nat → list PullSearch.round).
Hypothesis (Hqueue : 0 < queue_length) (Hsched : ∀ i, Forall PullSearch.round_ok (sched i)).
Import Pull PullAnswers PullSearch PullClient OptimizedTree.

Definition pull_tree : BTree (nat * pstate A) := {|
  bt_search k t := '(v, s) ← disk_search CAPACITY junkE junkK 5 (sched t.1) k t.2; Some (v, (S t.1, s));
  bt_insert k v t := s ← disk_insert CAPACITY junkE junkK 5 (sched t.1) k v t.2; Some (S t.1, s) |}.




End pull.

(** ** Drivers *)
Inductive operation := READ_OP (key : Z) | WRITE_OP (key val : Z).


Section drivers.
Context {T : Type} `{!BTree T}.

Fixpoint insert_building_block (tuples : list (Z * Z)) (t : T) : option T :=
  match tuples with [] => Some t | (k, v) :: tuples' => t ← bt_insert k v t; insert_building_block tuples' t end.

(** The values of the reads are returned too. *)
Fixpoint execute_operations (ops : list operation) (t : T) : option (list (option Z) * T) :=
  match ops with
  | [] => Some ([], t)
  | READ_OP key :: ops' => '(v, t) ← bt_search key t; '(l, t) ← execute_operations ops' t; Some (v :: l, t)
  | WRITE_OP key val :: ops' => t ← bt_insert key val t; execute_operations ops' t
  end.

End drivers.




Section laws.
Context {T : Type} `{!BTree T, !BTreeLaws T}.






End laws.

(** The pull-mode tree of one empty leaf, with rounds that reverse the order of
    the completions; two threads take turns. *)
Definition reversed (_ : nat) : list PullSearch.round := replicate 200 (PullSearch.LatencyAware (@rev nat) true).


Definition five_inserts : list (Z * Z) := [(30, 3); (10, 1); (40, 4); (20, 2); (50, 5)]%Z.
Definition three_run : list operation := [WRITE_OP 20 7; READ_OP 50; READ_OP 20]%Z.


(** The reads of that run on the three trees: the read of 20 finds the new value. *)
Example workload_vanilla :
  (t ← @insert_building_block _ (vanilla_tree 4 junkE4 junkK4) five_inserts tree0;
   fst <$> @execute_operations _ (vanilla_tree 4 junkE4 junkK4) three_run t) = Some [Some 5; Some 7]%Z.
Proof. vm_compute. reflexivity. Qed.
Example workload_concurrent :
  (t ← @insert_building_block _ (concurrent_tree 4 junkE4 junkK4) five_inserts (∅, tree0);
   fst <$> @execute_operations _ (concurrent_tree 4 junkE4 junkK4) three_run t) = Some [Some 5; Some 7]%Z.
Proof. vm_compute. reflexivity. Qed.
Example workload_pull :
  (t ← @insert_building_block _ (pull_tree 4 junkE4 junkK4 reversed) five_inserts (0, PullTree.new_pull_tree 2 tree0);
   fst <$> @execute_operations _ (pull_tree 4 junkE4 junkK4 reversed) three_run t) = Some [Some 5; Some 7]%Z.
Proof. vm_compute. reflexivity. Qed.
