(* ===== verification/IoTask.v ===== *)
(** Tasks of accesses to the device through one queue pair: the access patterns
    of src/src/perf/sequential_access.h and random_access.h, the asynchronous and
    synchronous operations of a queue pair (src/src/accessor/qpair_context.h) and
    [access] of src/src/perf/io_task.h.

    The device is not this program's code: when it is polled it completes the
    commands of its choice. [rand] is a parameter, the sequence of numbers the C
    library returns. [None] is a failed assertion, a division by zero, or a loop
    that still spins when the polls given to it are used up. *)
From Stdlib Require Import ZArith Lia.
From stdpp Require Import base list gmap sorting numbers.
From S2P Require Import Prelude.

Module IoTask.
Local Open Scope Z_scope.

Definition u64 (x : Z) : Z := x mod 2 ^ 64.

(** ** Access patterns *)
(** Every pattern keeps its bounds; a random one also [range_], a sequential one
    the next address. *)
Inductive access_pattern :=
  | sequential_access (min_ max_ cur_ : Z)
  | random_access (range_ min_ max_ : Z).

Definition new_sequential (min max : Z) : access_pattern := sequential_access min max min.
Definition new_random (min max : Z) : access_pattern := random_access (u64 (max - min)) min max.

(** The numbers [rand] returns and how many were drawn. *)
Record entropy := mk_entropy { rand_ : nat → Z; drawn : nat }.
Definition rand (e : entropy) : Z * entropy := (rand_ e (drawn e), mk_entropy (rand_ e) (S (drawn e))).

Definition next_sequential (min_ max_ cur_ : Z) : Z * access_pattern :=
  let cur := if max_ <=? cur_ then min_ else cur_ in (cur, sequential_access min_ max_ (u64 (cur + 1))).

Definition next_random (range_ min_ : Z) (e : entropy) : option (Z * entropy) :=
  let '(r, e) := rand e in if range_ =? 0 then None else Some (u64 (r mod range_ + min_), e).

Definition next_access (p : access_pattern) (e : entropy) : option (Z * access_pattern * entropy) :=
  match p with
  | sequential_access min_ max_ cur_ => Some (next_sequential min_ max_ cur_, e)
  | random_access range_ min_ max_ => '(lba, e) ← next_random range_ min_ e; Some (lba, p, e)
  end.

(** ** The queue pair *)
(** A callback sets the flag [is_complete] its parameter points to: [c_flag] is
    the name of that variable, [None] the null pointer. Commands are numbered. *)
Record command := mk_command { c_id : nat; c_write : bool; c_lba : Z; c_sectors : Z; c_flag : option nat }.

Record QPair := mk_qpair {
  free_slots_ : Z;
  completion_batch_size_ : Z;
  sector_size_ : Z;
  in_flight : list command;
  completed : list command;
  flags : gset nat }.

Definition new_qpair (sector_size queue_length : Z) : QPair :=
  mk_qpair queue_length (if queue_length / 8 <=? 4 then 4 else queue_length / 8) sector_size [] [] ∅.

(** What the device does when it is polled: the positions of the commands in
    flight that it completes, one after the other. *)
Definition poll : Type := list command → list nat.

Definition cb_function (i : nat) (qp : QPair) : QPair :=
  match in_flight qp !! i with
  | Some c =>
      mk_qpair (free_slots_ qp + 1) (completion_batch_size_ qp) (sector_size_ qp) (delete i (in_flight qp))
        (completed qp ++ [c]) (match c_flag c with Some v => {[v]} ∪ flags qp | None => flags qp end)
  | None => qp
  end.

(** At most [max_completions] commands, any number of them if it is 0. *)
Definition process_completions (max_completions : Z) (p : poll) (qp : QPair) : QPair :=
  let l := p (in_flight qp) in
  foldl (λ qp i, cb_function i qp) qp (if max_completions =? 0 then l else take (Z.to_nat max_completions) l).

(** [while (cond) process_completions(n);] with the polls [ps]; the polls that
    are left are returned. *)
Fixpoint spin (cond : QPair → bool) (n : Z) (ps : list poll) (qp : QPair) : option (QPair * list poll) :=
  if cond qp then
    match ps with [] => None | p :: ps' => spin cond n ps' (process_completions n p qp) end
  else Some (qp, ps).

(** The number of the next command. *)
Definition issued (qp : QPair) : nat := length (completed qp) + length (in_flight qp).

(** [bool is_complete = false] and its test in the loops. *)
Definition declare (v : nat) (qp : QPair) : QPair :=
  mk_qpair (free_slots_ qp) (completion_batch_size_ qp) (sector_size_ qp) (in_flight qp) (completed qp) (flags qp ∖ {[v]}).
Definition incomplete (v : nat) (qp : QPair) : bool := bool_decide (v ∉ flags qp).

(** The command goes to the device. *)
Definition submit (write : bool) (lba sectors : Z) (flag : option nat) (qp : QPair) : QPair :=
  mk_qpair (free_slots_ qp - 1) (completion_batch_size_ qp) (sector_size_ qp)
    (in_flight qp ++ [mk_command (issued qp) write lba sectors flag]) (completed qp) (flags qp).

(** [free_slots_ == 0]. *)
Definition full (qp : QPair) : bool := free_slots_ qp =? 0.

Definition asynchronous_write (size lba : Z) (flag : option nat) (ps : list poll) (qp : QPair) : option (QPair * list poll) :=
  '(qp, ps) ← spin full (completion_batch_size_ qp) ps qp;
  if sector_size_ qp =? 0 then None else Some (submit true lba (size / sector_size_ qp) flag qp, ps).

Definition asynchronous_read (size lba : Z) (flag : option nat) (ps : list poll) (qp : QPair) : option (QPair * list poll) :=
  if (sector_size_ qp =? 0) || negb ((0 <? size) && (size mod sector_size_ qp =? 0)) then None
  else
    '(qp, ps) ← spin full (completion_batch_size_ qp) ps qp;
    Some (submit false lba (size / sector_size_ qp) flag qp, ps).

(** The flag of a synchronous call is a variable of its own, named after its
    command; 0 is the flag of [access]. *)
Definition synchronous_write (size lba : Z) (ps : list poll) (qp : QPair) : option (QPair * list poll) :=
  let v := S (issued qp) in
  if sector_size_ qp =? 0 then None
  else spin (incomplete v) 0 ps (submit true lba (size / sector_size_ qp) (Some v) (declare v qp)).

Definition synchronous_read (size lba : Z) (ps : list poll) (qp : QPair) : option (QPair * list poll) :=
  let v := S (issued qp) in
  if sector_size_ qp =? 0 then None
  else spin full 0 ps (submit false lba (size / sector_size_ qp) (Some v) (declare v qp)).

(** ** A task *)
Inductive io_mode := synch | asynch.

Record task := mk_task { qpair : QPair; polls : list poll; pattern : access_pattern; random : entropy }.

(** The operation of one access. *)
Definition issue (mode : io_mode) (size lba : Z) (read last : bool) (ps : list poll) (qp : QPair) : option (QPair * list poll) :=
  match mode with
  | asynch =>
      let flag := if last then Some 0%nat else None in
      if read then asynchronous_read size lba flag ps qp else asynchronous_write size lba flag ps qp
  | synch => if read then synchronous_read size lba ps qp else synchronous_write size lba ps qp
  end.

(** The body of the loop: [rand() % 100 >= load] chooses a read. *)
Definition access_once (mode : io_mode) (size load : Z) (last : bool) (t : task) : option task :=
  let '(r, e) := rand (random t) in
  '(lba, p, e) ← next_access (pattern t) e;
  '(qp, ps) ← issue mode size lba (load <=? Z.rem r 100) last (polls t) (qpair t);
  Some (mk_task qp ps p e).

Fixpoint accesses (mode : io_mode) (size load : Z) (n : nat) (t : task) : option task :=
  match n with
  | O => Some t
  | S n' => t ← access_once mode size load (bool_decide (n' = 0%nat)) t; accesses mode size load n' t
  end.

Definition access (mode : io_mode) (size load : Z) (n : nat) (t : task) : option task :=
  t ← accesses mode size load n (mk_task (declare 0 (qpair t)) (polls t) (pattern t) (random t));
  match mode with
  | asynch =>
      '(qp, ps) ← spin (incomplete 0) 0 (polls t) (qpair t);
      Some (mk_task qp ps (pattern t) (random t))
  | synch => Some t
  end.

(** ** Patterns *)
(** The addresses of a new pattern, and whether access [k] writes: a random
    pattern draws a second number per access. *)
Definition pattern_ok (min max : Z) (p : access_pattern) : Prop :=
  0 ≤ min < max ∧ max < 2 ^ 64 ∧ (p = new_sequential min max ∨ p = new_random min max).
Definition address (p : access_pattern) (f : nat → Z) (k : nat) : Z :=
  match p with
  | sequential_access min max _ => min + Z.of_nat k mod (max - min)
  | random_access _ min max => min + f (2 * k + 1)%nat mod (max - min)
  end.
Definition writes (p : access_pattern) (f : nat → Z) (load : Z) (k : nat) : bool :=
  match p with
  | sequential_access _ _ _ => Z.rem (f k) 100 <? load
  | random_access _ _ _ => Z.rem (f (2 * k)%nat) 100 <? load
  end.

(** Pattern and generator after [k] accesses. *)
Definition pattern_at (p0 : access_pattern) (f : nat → Z) (k : nat) (p : access_pattern) (e : entropy) : Prop :=
  rand_ e = f ∧
  match p0 with
  | sequential_access min max _ =>
      drawn e = k ∧ ∃ cur, p = sequential_access min max cur ∧ min ≤ cur ≤ max ∧
        (if max <=? cur then min else cur) = min + Z.of_nat k mod (max - min)
  | random_access r min max => drawn e = (2 * k)%nat ∧ p = p0
  end.

Lemma pattern_next min max p0 f k p e :
  pattern_ok min max p0 → pattern_at p0 f k p e →
  ∃ p' e', next_access p (rand e).2 = Some (address p0 f k, p', e') ∧ pattern_at p0 f (S k) p' e'.
Proof.
  intros (H1 & H2 & [->| ->]) [He Hp]; simpl in *.
  - destruct Hp as (Hk & cur & -> & Hc & Hn). simpl. unfold next_sequential. rewrite Hn. eexists _, _. split; [done|]. split; [done|]. simpl.
    split; [lia|]. eexists. split; [done|]. unfold u64.
    pose proof (Z.mod_pos_bound (Z.of_nat k) (max - min) ltac:(lia)) as Hb. rewrite Z.mod_small by lia. split; [lia|].
    replace (Z.of_nat (S k)) with (Z.of_nat k + 1) by lia. rewrite <- (Z.add_mod_idemp_l (Z.of_nat k) 1) by lia.
    destruct (Z.leb_spec max (min + Z.of_nat k mod (max - min) + 1)) as [Hle|Hlt].
    + replace (Z.of_nat k mod (max - min) + 1) with (max - min) by lia. rewrite Z.mod_same by lia. lia.
    + rewrite (Z.mod_small (_ + 1)) by lia. lia.
  - destruct Hp as (Hk & ->). unfold next_access, next_random, new_random. simpl. unfold u64 in *. rewrite (Z.mod_small (max - min)) in * by lia.
    destruct (Z.eqb_spec (max - min) 0); [lia|]. eexists _, _. split.
    + pose proof (Z.mod_pos_bound (rand_ e (S (drawn e))) (max - min) ltac:(lia)) as Hb. rewrite Z.mod_small by lia.
      rewrite He in *. replace (k + (k + 0) + 1)%nat with (S (drawn e)) by lia. by rewrite Z.add_comm.
    + split; [done|]. simpl. split; [lia|done].
Qed.

Lemma pattern_writes min max p0 f k p e load :
  pattern_ok min max p0 → pattern_at p0 f k p e → (load <=? Z.rem (rand e).1 100) = negb (writes p0 f load k).
Proof.
  intros (_ & _ & [->| ->]) [He Hp]; simpl in *; [destruct Hp as (Hk & _)|destruct Hp as (Hk & _)]; rewrite He, Hk;
    by rewrite Z.leb_antisym.
Qed.

Lemma pattern_start min max p0 f : pattern_ok min max p0 → pattern_at p0 f 0 p0 (mk_entropy f 0).
Proof.
  intros (H1 & H2 & [->| ->]); (split; [done|]); simpl; [|done]. split; [done|]. exists min. split; [done|]. split; [lia|].
  destruct (Z.leb_spec max min); [lia|]. rewrite Z.mod_small; lia.
Qed.

Lemma address_bounds min max p0 f k : pattern_ok min max p0 → min ≤ address p0 f k < max.
Proof.
  intros (H1 & H2 & [->| ->]); unfold address, new_sequential, new_random;
    match goal with |- context [?x mod (max - min)] => pose proof (Z.mod_pos_bound x (max - min) ltac:(lia)) end; lia.
Qed.

(** ** The queue pair *)
(** The invariant: the slots that are not free are those of the commands in
    flight; the commands so far are those of [spec], and the flags of
    the completed commands are set. *)
Record qpair_ok (q sector : Z) (spec : nat → command) (n : nat) (qp : QPair) : Prop := {
  ok_slots : free_slots_ qp + Z.of_nat (length (in_flight qp)) = q;
  ok_sector : sector_size_ qp = sector;
  ok_batch : 0 < completion_batch_size_ qp;
  ok_commands : completed qp ++ in_flight qp ≡ₚ spec <$> seq 0 n;
  ok_flags : ∀ v, v ∈ flags qp ↔ ∃ c, c ∈ completed qp ∧ c_flag c = Some v }.

(** A poll that completes something when there is something to complete. *)
Definition productive (p : poll) : Prop := ∀ l, l ≠ [] → ∃ i rest, p l = i :: rest ∧ (i < length l)%nat.

Section qpair.
Context (q sector : Z) (spec : nat → command).
Local Abbreviation ok := (qpair_ok q sector spec).
Implicit Types (qp : QPair) (n : nat).

Lemma ok_issued n qp : ok n qp → issued qp = n.
Proof.
  intros [_ _ _ H _]. apply Permutation_length in H. rewrite length_app, length_fmap, length_seq in H. unfold issued. lia.
Qed.

Lemma cb_ok n i qp : ok n qp → ok n (cb_function i qp).
Proof.
  intros Hok. unfold cb_function. destruct (in_flight qp !! i) as [c|] eqn:E; [|done]. destruct Hok as [H1 H2 H3 H4 H5].
  split; simpl; try done.
  - rewrite length_delete by done. apply lookup_lt_Some in E. lia.
  - rewrite <- H4, <- app_assoc. apply Permutation_app_head. symmetry. by apply (delete_Permutation (in_flight qp) i c).
  - intros v. setoid_rewrite elem_of_app. setoid_rewrite list_elem_of_singleton. specialize (H5 v).
    destruct (c_flag c) eqn:Ec; [rewrite elem_of_union, elem_of_singleton|]; naive_solver.
Qed.

Lemma cb_completed i qp :
  (length (completed qp) ≤ length (completed (cb_function i qp)))%nat ∧
  ((i < length (in_flight qp))%nat → (length (completed qp) < length (completed (cb_function i qp)))%nat).
Proof.
  unfold cb_function. destruct (in_flight qp !! i) as [c|] eqn:E; simpl.
  - rewrite length_app. simpl. lia.
  - apply lookup_ge_None in E. lia.
Qed.

Lemma callbacks_ok l : ∀ n qp, ok n qp →
  ok n (foldl (λ qp i, cb_function i qp) qp l) ∧
  (length (completed qp) ≤ length (completed (foldl (λ qp i, cb_function i qp) qp l)))%nat.
Proof.
  induction l as [|i l IH]; intros n qp Hok; simpl; [done|]. destruct (IH n _ (cb_ok n i qp Hok)) as [H1 H2].
  split; [done|]. pose proof (cb_completed i qp). lia.
Qed.

Lemma process_ok n max p qp :
  ok n qp → productive p → 0 ≤ max → in_flight qp ≠ [] →
  ok n (process_completions max p qp) ∧
  (length (completed qp) < length (completed (process_completions max p qp)))%nat.
Proof.
  intros Hok Hp Hmax Hne. unfold process_completions. destruct (Hp _ Hne) as (i & rest & -> & Hi).
  assert (E : ∃ l, (if max =? 0 then i :: rest else take (Z.to_nat max) (i :: rest)) = i :: l).
  { destruct (Z.eqb_spec max 0); [by eexists|]. destruct (Z.to_nat max) eqn:Em; [lia|]. by eexists. }
  destruct E as [l ->]. simpl. destruct (callbacks_ok l n _ (cb_ok n i qp Hok)) as [H1 H2]. split; [done|].
  destruct (cb_completed i qp) as [_ H3]. specialize (H3 Hi). lia.
Qed.

(** A loop whose condition needs a command in flight ends, with a poll per
    command at most. *)
Lemma spin_ok cond max n ps : ∀ qp,
  ok n qp → 0 ≤ max → Forall productive ps →
  (∀ qp, ok n qp → cond qp = true → in_flight qp ≠ []) →
  (n ≤ length ps + length (completed qp))%nat →
  ∃ qp' ps', spin cond max ps qp = Some (qp', ps') ∧ ok n qp' ∧ cond qp' = false ∧ Forall productive ps' ∧
    (length ps + length (completed qp) ≤ length ps' + length (completed qp'))%nat ∧
    (cond qp = true → (length (completed qp) < length (completed qp'))%nat).
Proof.
  induction ps as [|p ps IH]; intros qp Hok Hmax Hps Hcond Hlen; cbn [spin]; destruct (cond qp) eqn:Ec;
    [|by eexists _, _; split_and!| |by eexists _, _; split_and!].
  - exfalso. apply (Hcond qp Hok Ec). pose proof (ok_issued _ _ Hok) as Hi. unfold issued in Hi. simpl in Hlen.
    apply nil_length_inv. lia.
  - apply Forall_cons_iff in Hps as [Hp Hps]. destruct (process_ok n max p qp Hok Hp Hmax (Hcond qp Hok Ec)) as [H1 H2].
    destruct (IH _ H1 Hmax Hps Hcond) as (qp' & ps' & E & H3 & H4 & H5 & H6 & H7); [simpl in Hlen; lia|].
    exists qp', ps'. split_and!; try done; [simpl; lia|]. intros _. destruct (cond (process_completions max p qp)) eqn:E'; [by etrans; [|apply H7]|].
    destruct ps; simpl in E; rewrite E' in E; by simplify_eq.
Qed.

Lemma full_in_flight n qp : 0 < q → ok n qp → full qp = true → in_flight qp ≠ [].
Proof. intros Hq [H1 _ _ _ _] Hf%Z.eqb_eq E. rewrite E in H1. simpl in H1. lia. Qed.

Lemma incomplete_in_flight v n k qp :
  c_flag (spec k) = Some v → (k < n)%nat → ok n qp → incomplete v qp = true → in_flight qp ≠ [].
Proof.
  intros Hk Hn [_ _ _ H4 H5] Hi%bool_decide_eq_true E. apply Hi, (H5 v). exists (spec k). split; [|done].
  rewrite E, app_nil_r in H4. rewrite H4. apply list_elem_of_fmap. exists k. split; [done|]. apply elem_of_seq. lia.
Qed.

Lemma qpair_submit_ok n w lba flag size qp :
  ok n qp → spec n = mk_command n w lba (size / sector) flag →
  ok (S n) (submit w lba (size / sector_size_ qp) flag qp).
Proof.
  intros Hok Hs. pose proof (ok_issued _ _ Hok) as Hi. destruct Hok as [H1 H2 H3 H4 H5].
  split; cbn [submit free_slots_ in_flight completed flags sector_size_ completion_batch_size_]; try done.
  - rewrite length_app. simpl. lia.
  - rewrite app_assoc, H4, seq_S, fmap_app, Hi, H2. cbn [fmap list_fmap Nat.add]. by rewrite Hs.
Qed.

Lemma declare_ok n v qp : ok n qp → (∀ k, (k < n)%nat → c_flag (spec k) ≠ Some v) → ok n (declare v qp).
Proof.
  intros [H1 H2 H3 H4 H5] Hv. split; simpl; try done. intros w. rewrite elem_of_difference, elem_of_singleton, H5. split; [by intros [? _]|].
  intros (c & Hc & Hw). split; [by exists c|]. intros ->.
  assert (Hin : c ∈ spec <$> seq 0 n) by (rewrite <- H4; by apply elem_of_app; left).
  apply list_elem_of_fmap in Hin as (k & -> & Hk). apply elem_of_seq in Hk. apply (Hv k); [lia|done].
Qed.

End qpair.

(** ** Tasks *)
(** The commands of a task: the flag of a synchronous call is its own variable,
    the last asynchronous one has the flag of [access]. *)
Definition spec_command (mode : io_mode) (p : access_pattern) (f : nat → Z) (size load sector : Z) (n k : nat) : command :=
  mk_command k (writes p f load k) (address p f k) (size / sector)
    (match mode with
     | synch => Some (S k)
     | asynch => if bool_decide (S k = n) then Some 0%nat else None
     end).

(** Between two accesses of a synchronous task there is a free slot, and the
    writes are complete. *)
Definition idle (mode : io_mode) (qp : QPair) : Prop :=
  match mode with
  | synch => 0 < free_slots_ qp ∧ ∀ c, c ∈ in_flight qp → c_write c = false
  | asynch => 0 ≤ free_slots_ qp
  end.

Section task.
Context (q sector size load min max : Z) (p0 : access_pattern) (f : nat → Z) (mode : io_mode) (n : nat).
Hypothesis (Hq : 0 < q) (Hsector : 0 < sector) (Hsize : 0 < size) (Hmod : size mod sector = 0) (Hpat : pattern_ok min max p0).
Local Abbreviation spec := (spec_command mode p0 f size load sector n).
Local Abbreviation ok := (qpair_ok q sector spec).

(** The slots in use never get more when commands complete. *)
Lemma spin_idle cond m ps qp qp' ps' :
  spin cond m ps qp = Some (qp', ps') →
  free_slots_ qp ≤ free_slots_ qp' ∧ ∀ c, c ∈ in_flight qp' → c ∈ in_flight qp.
Proof.
  assert (Hcb : ∀ i x, free_slots_ x ≤ free_slots_ (cb_function i x) ∧ ∀ c, c ∈ in_flight (cb_function i x) → c ∈ in_flight x).
  { intros i x. unfold cb_function. destruct (in_flight x !! i); [|done]. simpl. split; [lia|]. intros c'. by apply list_elem_of_delete_inv. }
  assert (Hf : ∀ l x, free_slots_ x ≤ free_slots_ (foldl (λ x i, cb_function i x) x l) ∧
    ∀ c, c ∈ in_flight (foldl (λ x i, cb_function i x) x l) → c ∈ in_flight x).
  { induction l as [|i l IH]; intros x; simpl; [done|]. destruct (IH (cb_function i x)), (Hcb i x). split; [lia|naive_solver]. }
  revert qp. induction ps as [|p ps IH]; intros qp; cbn [spin]; destruct (cond qp); try done; [by intros [= <- <-]| |by intros [= <- <-]].
  intros [H1 H2]%IH. unfold process_completions in *. destruct (Hf (if m =? 0 then p (in_flight qp) else take (Z.to_nat m) (p (in_flight qp))) qp) as [H3 H4].
  split; [lia|naive_solver].
Qed.

(** The commands so far are different ones. *)
Lemma commands_apart k qp c c' : ok k qp → c ∈ completed qp → c' ∈ in_flight qp → c_id c ≠ c_id c'.
Proof.
  intros [_ _ _ H4 _] Hc Hc'. assert (Hnd : NoDup (c_id <$> (completed qp ++ in_flight qp))).
  { rewrite H4, <- list_fmap_compose. erewrite (list_fmap_ext _ id), list_fmap_id; [apply NoDup_seq|done]. }
  rewrite fmap_app in Hnd. apply list.NoDup_app in Hnd as (_ & Hd & _). intros E.
  apply (Hd (c_id c)); [by apply list_elem_of_fmap_2|]. rewrite E. by apply list_elem_of_fmap_2.
Qed.

Lemma command_at k qp c : ok k qp → c ∈ completed qp ++ in_flight qp → c = spec (c_id c) ∧ (c_id c < k)%nat.
Proof.
  intros [_ _ _ H4 _]. rewrite H4. intros (i & -> & Hi)%list_elem_of_fmap. apply elem_of_seq in Hi. split; [done|simpl; lia].
Qed.

(** Only the last asynchronous command has the flag of [access]. *)
Lemma flag_pending k qp : mode = asynch → (k < n)%nat → ok k qp → 0%nat ∉ flags qp.
Proof.
  intros Hm Hk Hok H0. apply (ok_flags _ _ _ _ _ Hok) in H0 as (c & Hc & Hf).
  destruct (command_at k qp c Hok) as [E Hlt]; [by apply elem_of_app; left|]. rewrite E in Hf. simpl in Hf. rewrite Hm in Hf.
  by rewrite bool_decide_eq_false_2 in Hf by lia.
Qed.

(** Before access [k]. *)
Record at_access (k : nat) (t : task) : Prop := {
  aa_ok : ok k (qpair t);
  aa_idle : idle mode (qpair t);
  aa_pattern : pattern_at p0 f k (pattern t) (random t);
  aa_polls : Forall productive (polls t);
  aa_enough : (n ≤ length (polls t) + length (completed (qpair t)))%nat;
  aa_flag : mode = asynch → 0%nat ∉ flags (qpair t) }.

(** An operation that issues the command [spec k]. *)
Definition issues (k : nat) (qp : QPair) (ps : list poll) (r : option (QPair * list poll)) : Prop :=
  ∃ qp' ps', r = Some (qp', ps') ∧ ok (S k) qp' ∧ idle mode qp' ∧ Forall productive ps' ∧
    (length ps + length (completed qp) ≤ length ps' + length (completed qp'))%nat ∧ (mode = asynch → 0%nat ∉ flags qp').

Lemma asynch_issues k qp ps w :
  mode = asynch → (k < n)%nat → ok k qp → idle mode qp → Forall productive ps → (n ≤ length ps + length (completed qp))%nat →
  writes p0 f load k = w →
  issues k qp ps ('(qp, ps) ← spin full (completion_batch_size_ qp) ps qp;
    Some (submit w (address p0 f k) (size / sector_size_ qp) (if bool_decide (S k = n) then Some 0%nat else None) qp, ps)).
Proof using Hq Hsector Hsize Hmod Hpat.
  intros Hm Hk Hok Hid Hps Hlen Hw.
  destruct (spin_ok q sector spec full (completion_batch_size_ qp) k ps qp Hok) as (qp1 & ps1 & E & Hok1 & Hfull & Hps1 & Hl1 & _).
  { pose proof (ok_batch _ _ _ _ _ Hok). lia. }
  { done. }
  { intros x. by apply full_in_flight. }
  { lia. }
  rewrite E. cbn [mbind option_bind]. eexists _, ps1. split; [done|]. apply spin_idle in E as [Hfr _]. rewrite Hm in Hid. simpl in Hid.
  apply Z.eqb_neq in Hfull. split; [|split_and!].
  - apply qpair_submit_ok; [done|]. unfold spec_command. by rewrite Hm, Hw.
  - rewrite Hm. simpl. lia.
  - done.
  - done.
  - intros _. by apply (flag_pending k qp1).
Qed.

Lemma synch_issues k qp ps w cond :
  mode = synch → (k < n)%nat → ok k qp → idle mode qp → Forall productive ps → (n ≤ length ps + length (completed qp))%nat →
  writes p0 f load k = w → cond = (if w then incomplete (S k) else full) →
  issues k qp ps (spin cond 0 ps (submit w (address p0 f k) (size / sector_size_ qp) (Some (S k)) (declare (S k) qp))).
Proof using Hq Hsector Hsize Hmod Hpat.
  intros Hm Hk Hok Hid Hps Hlen Hw Hc. rewrite Hm in Hid. destruct Hid as [Hfree Hreads].
  assert (Hok0 : ok k (declare (S k) qp)).
  { apply declare_ok; [done|]. intros i Hi. simpl. rewrite Hm. intros [= ?]. lia. }
  assert (Hok1 : ok (S k) (submit w (address p0 f k) (size / sector_size_ qp) (Some (S k)) (declare (S k) qp))).
  { apply (qpair_submit_ok q sector spec k w _ _ _ (declare (S k) qp)); [done|]. unfold spec_command. by rewrite Hm, Hw. }
  destruct (spin_ok q sector spec cond 0 (S k) ps _ Hok1) as (qp2 & ps2 & E & Hok2 & Hcond & Hps2 & Hl2 & Hstrict); [done|done| |simpl; lia|].
  { intros x Hx. rewrite Hc. destruct w; [|by apply (full_in_flight q sector spec (S k))].
    apply (incomplete_in_flight q sector spec (S k) (S k) k); [|lia|done]. simpl. by rewrite Hm. }
  exists qp2, ps2. split; [done|]. split; [done|]. split; [|split; [done|split; [done|by rewrite Hm]]].
  rewrite Hm. apply spin_idle in E as [Hfr Hin]. simpl in Hfr, Hin. subst cond. split; simpl.
  - destruct w; [|apply Z.eqb_neq in Hcond; lia].
    assert (Hlt : (length (completed qp) < length (completed qp2))%nat).
    { apply Hstrict. apply bool_decide_eq_true. simpl. set_solver. }
    pose proof (ok_issued _ _ _ _ _ Hok) as H1. pose proof (ok_issued _ _ _ _ _ Hok2) as H2. unfold issued in H1, H2.
    destruct Hok as [Hs1 _ _ _ _], Hok2 as [Hs2 _ _ _ _]. lia.
  - intros c Hc2. specialize (Hin c Hc2). apply elem_of_app in Hin as [Hin|Hin%list_elem_of_singleton]; [by apply Hreads|].
    subst c. simpl. destruct w; [|done].
    apply bool_decide_eq_false in Hcond. apply dec_stable, (ok_flags _ _ _ _ _ Hok2) in Hcond as (c & Hcc & Hcf).
    destruct (command_at (S k) qp2 c Hok2) as [Ec _]; [by apply elem_of_app; left|]. rewrite Ec in Hcf. simpl in Hcf. rewrite Hm in Hcf.
    destruct (commands_apart _ _ _ _ Hok2 Hcc Hc2). simpl. rewrite (ok_issued _ _ _ _ _ Hok0). by simplify_eq.
Qed.

Lemma issue_issues k qp ps :
  (k < n)%nat → ok k qp → idle mode qp → Forall productive ps → (n ≤ length ps + length (completed qp))%nat →
  issues k qp ps (issue mode size (address p0 f k) (negb (writes p0 f load k)) (bool_decide (S k = n)) ps qp).
Proof using Hq Hsector Hsize Hmod Hpat.
  intros Hk Hok Hid Hps Hlen. pose proof (ok_sector _ _ _ _ _ Hok) as Hsec. pose proof (ok_issued _ _ _ _ _ Hok) as Hi.
  assert (H0 : (sector_size_ qp =? 0) = false) by (apply Z.eqb_neq; lia).
  assert (Hsz : (0 <? size) && (size mod sector_size_ qp =? 0) = true) by (rewrite Hsec, Hmod; by destruct (Z.ltb_spec 0 size); [|lia]).
  unfold issue. destruct mode eqn:Hm.
  - destruct (writes p0 f load k) eqn:Hw; simpl; [unfold synchronous_write|unfold synchronous_read]; rewrite H0, Hi; rewrite <- Hm in *;
      by eapply synch_issues.
  - destruct (writes p0 f load k) eqn:Hw; simpl; [unfold asynchronous_write|unfold asynchronous_read; rewrite H0, Hsz; simpl]; rewrite <- Hm in *.
    + destruct (asynch_issues k qp ps true) as (qp' & ps' & E & H); try done. exists qp', ps'. split; [|done].
      destruct (spin _ _ _ _) as [[qp1 ps1]|] eqn:Es; [|done]. cbn [mbind option_bind] in *.
      destruct (Z.eqb_spec (sector_size_ qp1) 0) as [Hz|]; [|done]. simplify_eq. destruct H as [[_ H _ _ _] _]. simpl in H. lia.
    + by eapply asynch_issues.
Qed.

Lemma access_once_ok k t :
  (k < n)%nat → at_access k t → ∃ t', access_once mode size load (bool_decide (S k = n)) t = Some t' ∧ at_access (S k) t'.
Proof using Hq Hsector Hsize Hmod Hpat.
  intros Hk [H1 H2 H3 H4 H5 H6]. unfold access_once. destruct (pattern_next _ _ _ _ _ _ _ Hpat H3) as (p' & e' & E & H3').
  pose proof (pattern_writes _ _ _ _ _ _ _ load Hpat H3) as Hw. destruct (rand (random t)) as [r e]. simpl in E, Hw.
  rewrite E, Hw. cbn [mbind option_bind].
  destruct (issue_issues k (qpair t) (polls t) Hk H1 H2 H4 H5) as (qp' & ps' & -> & G1 & G2 & G3 & G4 & G5). cbn [mbind option_bind].
  eexists. split; [done|]. split; simpl; try done. lia.
Qed.

Lemma accesses_ok j : ∀ k t,
  (k + j = n)%nat → at_access k t → ∃ t', accesses mode size load j t = Some t' ∧ at_access n t'.
Proof using Hq Hsector Hsize Hmod Hpat.
  induction j as [|j IH]; intros k t Hkj Ht; cbn [accesses].
  { exists t. split; [done|]. by replace n with k by lia. }
  destruct (access_once_ok k t) as (t1 & E & Ht1); [lia|done|].
  assert (Eb : bool_decide (j = 0%nat) = bool_decide (S k = n)) by (apply bool_decide_ext; lia).
  rewrite Eb, E. cbn [mbind option_bind]. apply (IH (S k)); [lia|done].
Qed.

(** What a task leaves behind. *)
Record finished (t : task) : Prop := {
  fi_ok : ok n (qpair t);
  fi_slot : 0 < free_slots_ (qpair t);
  fi_last : (0 < n)%nat → mode = asynch → spec (n - 1) ∈ completed (qpair t);
  fi_writes : mode = synch → ∀ c, c ∈ in_flight (qpair t) → c_write c = false }.

Lemma access_ok t :
  at_access 0 t → (0 < n)%nat → ∃ t', access mode size load n t = Some t' ∧ finished t'.
Proof using Hq Hsector Hsize Hmod Hpat.
  intros Ht Hn. unfold access. set (t0 := mk_task _ _ _ _).
  assert (Ht0 : at_access 0 t0).
  { destruct Ht as [H1 H2 H3 H4 H5 H6]. split; simpl; try done; [|set_solver]. apply declare_ok; [done|]. lia. }
  destruct (accesses_ok n 0 t0 ltac:(lia) Ht0) as (t1 & -> & [H1 H2 H3 H4 H5 H6]). cbn [mbind option_bind].
  assert (Hcase : mode = synch ∨ mode = asynch) by (destruct mode; auto). destruct Hcase as [Hm|Hm]; rewrite Hm in H2 |- *.
  { exists t1. split; [done|]. destruct H2 as [G1 G2]. split; [done|done| |done]. by rewrite Hm. }
  assert (Hflag : c_flag (spec (n - 1)) = Some 0%nat).
  { simpl. rewrite Hm. by rewrite bool_decide_eq_true_2 by lia. }
  destruct (spin_ok q sector spec (incomplete 0) 0 n (polls t1) (qpair t1)) as (qp & ps & -> & G1 & G2 & G3 & G4 & G5);
    [done|done|done| |done|].
  { intros x Hx. apply (incomplete_in_flight q sector spec 0 n (n - 1)); [done|lia|done]. }
  cbn [mbind option_bind]. eexists. split; [done|]. simpl in H2. split; cbn [qpair].
  - done.
  - specialize (G5 ltac:(apply bool_decide_eq_true; auto)). pose proof (ok_issued _ _ _ _ _ H1) as I1. pose proof (ok_issued _ _ _ _ _ G1) as I2.
    unfold issued in I1, I2. destruct H1 as [S1 _ _ _ _], G1 as [S2 _ _ _ _]. lia.
  - intros _ _. apply bool_decide_eq_false in G2. apply dec_stable, (ok_flags _ _ _ _ _ G1) in G2 as (c & Hc & Hcf).
    destruct (command_at n qp c G1) as [Ec Hlt]; [by apply elem_of_app; left|]. rewrite Ec in Hcf. simpl in Hcf. rewrite Hm in Hcf.
    case_bool_decide as Eid; [|done]. replace (n - 1)%nat with (c_id c) by lia. by rewrite <- Ec.
  - by rewrite Hm.
Qed.

End task.

(** a task of [n] accesses on a new queue pair returns, if the device
    completes something whenever it is polled while it has commands; [n] polls
    are enough. The device has then been given exactly the commands the pattern
    and the random numbers determine, one per access, with addresses inside the
    bounds; fewer than [queue_length] of them are still in flight. The last one
    of an asynchronous task is complete, and so is every write of a synchronous
    one. *)
Theorem io_task_completes (q sector size load min max : Z) p f mode n ps :
  0 < q → 0 < sector → 0 < size → size mod sector = 0 → pattern_ok min max p → (0 < n ≤ length ps)%nat → Forall productive ps →
  ∃ t, access mode size load n (mk_task (new_qpair sector q) ps p (mk_entropy f 0)) = Some t ∧
    completed (qpair t) ++ in_flight (qpair t) ≡ₚ spec_command mode p f size load sector n <$> seq 0 n ∧
    Forall (λ c, min ≤ c_lba c < max) (completed (qpair t) ++ in_flight (qpair t)) ∧
    Z.of_nat (length (in_flight (qpair t))) < q ∧
    (mode = asynch → spec_command mode p f size load sector n (n - 1) ∈ completed (qpair t)) ∧
    (mode = synch → ∀ c, c ∈ in_flight (qpair t) → c_write c = false).
Proof.
  intros Hq Hsec Hsize Hmod Hpat Hn Hps. set (t0 := mk_task _ _ _ _).
  assert (Ht0 : at_access q sector size load p f mode n 0 t0).
  { split; simpl; [split; simpl; try done; [lia| |set_solver]| |by eapply pattern_start|done|lia|set_solver].
    - destruct (Z.leb_spec (q / 8) 4); lia.
    - destruct mode; simpl; [split; [lia|set_solver]|lia]. }
  destruct (access_ok q sector size load min max p f mode n Hq Hsec Hsize Hmod Hpat t0 Ht0) as (t & E & [F1 F2 F3 F4]); [lia|].
  exists t. destruct F1 as [S1 _ _ S4 _]. split_and!; try done; [|lia|auto with lia].
  rewrite S4. apply Forall_fmap, Forall_forall. intros k _. simpl. by apply address_bounds.
Qed.

(** The device completes the command it was given last. *)
Definition newest : poll := λ l, [(length l - 1)%nat].

Lemma newest_productive : productive newest.
Proof. intros [|c l] Hl; [done|]. exists (length l), []. unfold newest. simpl. rewrite Nat.sub_0_r. split; [done|lia]. Qed.

Lemma io_task_completes_witness :
  ∃ t, access asynch 4096 50 20 (mk_task (new_qpair 512 8) (replicate 20 newest) (new_random 100 1000) (mk_entropy (λ i, 37 * Z.of_nat i) 0)) = Some t ∧
    completed (qpair t) ++ in_flight (qpair t) ≡ₚ spec_command asynch (new_random 100 1000) (λ i, 37 * Z.of_nat i) 4096 50 512 20 <$> seq 0 20 ∧
    Forall (λ c, 100 ≤ c_lba c < 1000) (completed (qpair t) ++ in_flight (qpair t)) ∧
    Z.of_nat (length (in_flight (qpair t))) < 8 ∧
    (asynch = asynch → spec_command asynch (new_random 100 1000) (λ i, 37 * Z.of_nat i) 4096 50 512 20 (20 - 1) ∈ completed (qpair t)) ∧
    (asynch = synch → ∀ c, c ∈ in_flight (qpair t) → c_write c = false).
Proof.
  apply (io_task_completes 8 512 4096 50 100 1000 (new_random 100 1000) (λ i, 37 * Z.of_nat i) asynch 20 (replicate 20 newest)).
  - lia.
  - lia.
  - lia.
  - reflexivity.
  - split; [lia|]. split; [lia|by right].
  - rewrite length_replicate. lia.
  - apply Forall_replicate, newest_productive.
Defined.

(** That task returns with seven commands in flight: [run_task] then frees the
    buffer they read and write. *)
Example io_task_frees_early :
  (λ t, length (in_flight (qpair t))) <$>
    access asynch 4096 50 20 (mk_task (new_qpair 512 8) (replicate 20 newest) (new_random 100 1000) (mk_entropy (λ i, 37 * Z.of_nat i) 0))
  = Some 7%nat.
Proof. vm_compute. reflexivity. Qed.

(** With a queue of one command nothing is left. *)
Example io_task_queue_of_one :
  (λ t, length (in_flight (qpair t))) <$>
    access synch 4096 50 20 (mk_task (new_qpair 512 1) (replicate 20 newest) (new_sequential 0 7) (mk_entropy (λ i, 37 * Z.of_nat i) 0))
  = Some 0%nat.
Proof. vm_compute. reflexivity. Qed.

(** An asynchronous task of no accesses never returns. *)
Theorem empty_task_spins sector q size load p e ps :
  access asynch size load 0 (mk_task (new_qpair sector q) ps p e) = None.
Proof.
  unfold access. cbn [accesses mbind option_bind polls qpair]. set (qp := declare 0 (new_qpair sector q)).
  assert (H : in_flight qp = [] ∧ 0%nat ∉ flags qp) by (split; [done|set_solver]). generalize dependent qp. intros qp H.
  assert (E : spin (incomplete 0) 0 ps qp = None); [|by rewrite E].
  revert qp H. induction ps as [|x ps IH]; intros qp [H1 H2]; cbn [spin]; unfold incomplete at 1; rewrite bool_decide_eq_true_2 by done; [done|].
  apply IH. unfold process_completions. simpl. generalize (x (in_flight qp)). intros l. induction l as [|i l IHl]; [done|].
  simpl. unfold cb_function at 2 4. rewrite H1. simpl. done.
Qed.

End IoTask.
