(* ===== verification/Zipf.v ===== *)
(** The generator of skewed keys of the benchmarks (src/src/utils/generator.h).
    Floating-point numbers are a parameter with their comparisons; the table of
    cumulated probabilities and the shuffled keys are what the constructor left
    behind, and [z] is the number [gen] draws. *)
From Stdlib Require Import ZArith Lia.
From stdpp Require Import base list sorting numbers.
From S2P Require Import Prelude.

Module Zipf.
Local Open Scope Z_scope.

(** The shuffled keys: the constructor shuffles all but the last, in an order
    of the C library's choice. *)
Definition shuffles_of (order : list Z → list Z) (keys : nat) : list Z :=
  let l := Z.of_nat <$> seq 0 keys in order (take (keys - 1) l) ++ drop (keys - 1) l.

Section generator.
Context {F : Type} (ltb eqb : F → F → bool).

Record ZipfGenerator := mk_zipf { n : Z; shuffles : list Z; sum_prob : list F }.

(** The loop of [gen]; [None] is an overflow of [l + r], an access outside
    [sum_prob], or that the fuel is used up. *)
Fixpoint gen_loop (fuel : nat) (z : F) (sum_prob : list F) (l r : Z) : option Z :=
  match fuel with
  | O => None
  | S fuel' =>
      if l <=? r then
        if 2 ^ 31 <=? l + r then None
        else
          let m := Z.shiftr (l + r) 1 in
          p ← sum_prob !! Z.to_nat m;
          if ltb p z then gen_loop fuel' z sum_prob (m + 1) r
          else if eqb p z then Some m
          else gen_loop fuel' z sum_prob l (m - 1)
      else Some l
  end.

(** [return shuffles[l]], which is undefined outside the array. *)
Definition gen (z : F) (g : ZipfGenerator) : option Z :=
  l ← gen_loop (S (Z.to_nat (n g))) z (sum_prob g) 0 (n g - 1);
  shuffles g !! Z.to_nat l.

(** ** The position found *)
(** The comparisons are those of a total order, as on the numbers that are not
    NaN. *)
Definition total_order : Prop :=
  (∀ x y, ltb x y = true → ltb y x = false) ∧
  (∀ x y w, ltb x y = true → ltb x w = true ∨ ltb w y = true) ∧
  ∀ x y, eqb x y = true ↔ ltb x y = false ∧ ltb y x = false.

Definition ascending (a : list F) : Prop :=
  ∀ i j x y, (i < j)%nat → a !! i = Some x → a !! j = Some y → ltb y x = false.

(** [z] falls into slot [l]: nothing before it is greater, nothing from it on is
    smaller; past the end, everything is smaller. *)
Definition slot (z : F) (a : list F) (l : nat) : Prop :=
  (l ≤ length a)%nat ∧ (∀ i x, (i < l)%nat → a !! i = Some x → ltb z x = false) ∧
  (∀ i x, (l ≤ i)%nat → a !! i = Some x → ltb x z = false) ∧
  (l = length a → ∀ i x, a !! i = Some x → ltb x z = true).

Hypothesis (Hord : total_order).

Lemma gen_loop_slot z a fuel : ∀ l r,
  ascending a → 0 ≤ l ≤ r + 1 → r < Z.of_nat (length a) → Z.of_nat (length a) ≤ 2 ^ 30 → r + 1 - l < Z.of_nat fuel →
  (∀ i x, (i < Z.to_nat l)%nat → a !! i = Some x → ltb x z = true) →
  (∀ i x, r < Z.of_nat i → a !! i = Some x → ltb z x = true) →
  ∃ m, gen_loop fuel z a l r = Some (Z.of_nat m) ∧ slot z a m.
Proof using Hord.
  destruct Hord as (Hasym & Hneg & Heq).
  induction fuel as [|fuel IH]; intros l r Ha Hl Hr Hlen Hf Hlow Hhigh; [lia|]. cbn [gen_loop].
  destruct (Z.leb_spec l r) as [Hle|Hgt].
  - destruct (Z.leb_spec (2 ^ 31) (l + r)); [lia|]. rewrite Z.shiftr_div_pow2 by lia. change (2 ^ 1) with 2. set (m := (l + r) / 2).
    assert (Hm : l ≤ m ≤ r) by (unfold m; split; [apply Z.div_le_lower_bound|apply Z.div_le_upper_bound]; lia).
    destruct (lookup_lt_is_Some_2 a (Z.to_nat m)) as [p Hp]; [lia|]. rewrite Hp. cbn [mbind option_bind].
    assert (Hbelow : ∀ i x, (i < Z.to_nat m)%nat → a !! i = Some x → ltb p x = false) by (intros i x Hi Hx; by apply (Ha i (Z.to_nat m))).
    assert (Habove : ∀ i x, (Z.to_nat m < i)%nat → a !! i = Some x → ltb x p = false) by (intros i x Hi Hx; by apply (Ha (Z.to_nat m) i)).
    destruct (ltb p z) eqn:E1; [|destruct (eqb p z) eqn:E2].
    + apply IH; try done; [lia|lia|]. intros i x Hi Hx. destruct (decide (i = Z.to_nat m)) as [->|Hne]; [congruence|].
      specialize (Hbelow i x ltac:(lia) Hx). destruct (Hneg _ _ x E1); congruence.
    + apply Heq in E2 as [_ E2]. exists (Z.to_nat m). split; [f_equal; lia|]. split; [lia|]. split; [|split; [|lia]].
      * intros i x Hi Hx. specialize (Hbelow i x Hi Hx). apply not_true_is_false. intros Hzx. destruct (Hneg _ _ p Hzx); congruence.
      * intros i x Hi Hx. destruct (decide (i = Z.to_nat m)) as [->|Hne]; [congruence|]. specialize (Habove i x ltac:(lia) Hx).
        apply not_true_is_false. intros Hxz. destruct (Hneg _ _ p Hxz); congruence.
    + assert (Ez : ltb z p = true). { apply not_false_is_true. intros Hz. by rewrite (proj2 (Heq p z)) in E2. }
      apply IH; try done; [lia|lia|lia|]. intros i x Hi Hx. destruct (decide (i = Z.to_nat m)) as [->|Hne]; [congruence|].
      specialize (Habove i x ltac:(lia) Hx). destruct (Hneg _ _ x Ez); congruence.
  - exists (Z.to_nat l). split; [f_equal; lia|]. split_and!; [lia| | |].
    + intros i x Hi Hx. apply Hasym. by apply (Hlow i).
    + intros i x Hi Hx. apply Hasym. apply (Hhigh i); [lia|done].
    + intros El i x Hx. apply (Hlow i); [|done]. apply lookup_lt_Some in Hx. lia.
Qed.

(** [gen] on an ascending table finds the slot of [z], and returns the key there;
    it reads outside the table of keys exactly when [z] is greater than every
    cumulated probability, which rounding makes possible. *)
Theorem gen_finds_slot z g :
  ascending (sum_prob g) → n g = Z.of_nat (length (sum_prob g)) → length (shuffles g) = length (sum_prob g) → 0 < n g ≤ 2 ^ 30 →
  (∃ l, slot z (sum_prob g) l ∧ gen z g = shuffles g !! l) ∧
  (gen z g = None ↔ ∀ x, x ∈ sum_prob g → ltb x z = true).
Proof using Hord.
  intros Ha Hn Hs Hb. unfold gen.
  destruct (gen_loop_slot z (sum_prob g) (S (Z.to_nat (n g))) 0 (n g - 1)) as (l & E & Hslot); try done; [lia..| | |].
  { intros i x Hi. lia. }
  { intros i x Hi Hx%lookup_lt_Some. lia. }
  rewrite E. cbn [mbind option_bind]. rewrite Nat2Z.id. split; [by exists l|]. destruct Hslot as (H1 & H2 & H3 & H4).
  rewrite lookup_ge_None, Hs. split.
  - intros Hl x (i & Hx)%list_elem_of_lookup_1. apply (H4 ltac:(lia) i x Hx).
  - intros Hall. destruct (decide (l < length (sum_prob g))%nat) as [Hlt|]; [|lia]. destruct (lookup_lt_is_Some_2 _ _ Hlt) as [x Hx].
    specialize (H3 l x ltac:(lia) Hx). rewrite (Hall x) in H3 by (by eapply list_elem_of_lookup_2). done.
Qed.

End generator.

(** A table whose last entry is below 1 because of rounding, in thousandths. *)
Example gen_outside :
  gen Z.ltb Z.eqb 1000 (mk_zipf 3 (shuffles_of (@rev Z) 3) [545; 818; 999]) = None ∧
  gen Z.ltb Z.eqb 700 (mk_zipf 3 (shuffles_of (@rev Z) 3) [545; 818; 999]) = Some 0 ∧
  gen Z.ltb Z.eqb 999 (mk_zipf 3 (shuffles_of (@rev Z) 3) [545; 818; 999]) = Some 2.
Proof. split_and!; reflexivity. Qed.

(** The most frequent keys are shuffled, but the last key always stays the least
    frequent one. *)
Theorem last_key_not_shuffled order keys :
  (∀ l, length (order l) = length l) → shuffles_of order (S keys) !! keys = Some (Z.of_nat keys).
Proof.
  intros Ho. unfold shuffles_of. rewrite Nat.sub_succ, Nat.sub_0_r, seq_S, fmap_app. simpl.
  assert (El : length (Z.of_nat <$> seq 0 keys) = keys) by (by rewrite length_fmap, length_seq).
  rewrite take_app_length', drop_app_length' by done.
  rewrite lookup_app_r; rewrite Ho, El; [|done]. by rewrite Nat.sub_diag.
Qed.

End Zipf.
