(* ===== verification/Sync.v ===== *)
(** The synchronisation primitives of src/src/utils/sync.h: the spin lock, the
    semaphore and the barrier.

    Threads are numbers and interleave at the granularity of the atomic
    instructions of the source: [tas], the store of [release], an operation of
    the semaphore, a section under the mutex of the barrier. *)
From Stdlib Require Import ZArith Lia.
From stdpp Require Import base list gmap numbers.
From S2P Require Import Prelude.

(** ** [SpinLock] *)
Module SpinLock.

(** [xchgb]: the old value of the lock, and the lock afterwards. *)
Definition tas (l : Z) : Z * Z := (l, 1%Z).
(** One iteration of the loop of [acquire]: the lock is ours, or we spin. *)
Definition acquire_once (l : Z) : bool * Z := let '(res, l') := tas l in ((res =? 0)%Z, l').
Definition try_lock (l : Z) : bool * Z := let '(res, l') := tas l in ((res =? 0)%Z, l').
Definition release (l : Z) : Z := 0%Z.
Definition fakelock (l : Z) : Z := if (l =? 0)%Z then 0%Z else 1%Z.
Definition getvalue (l : Z) : Z := 0%Z.

Section machine.
Context {D : Type}.

(** A critical section is a sequence of accesses to the data behind the lock. *)
Definition section := list (D → D).
Definition perform (c : section) (d : D) : D := foldl (λ d f, f d) d c.

(** A thread in [acquire] before section [c], or inside [c] with [rest] to do. *)
Inductive place := Spinning (c : section) | Inside (c rest : section).

Record state := mk_state { _l : Z; data : D; places : gmap nat place; finished : list (nat * section) }.

Inductive action := Acquire (t : nat) (c : section) | Spin (t : nat) | TryLock (t : nat) (c : section)
  | Access (t : nat) | Release (t : nat).

Definition exec (a : action) (s : state) : state :=
  match a with
  | Acquire t c =>
      match places s !! t with
      | None => mk_state (_l s) (data s) (<[t := Spinning c]> (places s)) (finished s)
      | Some _ => s
      end
  | Spin t =>
      match places s !! t with
      | Some (Spinning c) =>
          let '(ok, l) := acquire_once (_l s) in
          mk_state l (data s) (if ok then <[t := Inside c c]> (places s) else places s) (finished s)
      | _ => s
      end
  | TryLock t c =>
      match places s !! t with
      | None =>
          let '(ok, l) := try_lock (_l s) in
          mk_state l (data s) (if ok then <[t := Inside c c]> (places s) else places s) (finished s)
      | Some _ => s
      end
  | Access t =>
      match places s !! t with
      | Some (Inside c (f :: rest)) =>
          mk_state (_l s) (f (data s)) (<[t := Inside c rest]> (places s)) (finished s)
      | _ => s
      end
  | Release t =>
      match places s !! t with
      | Some (Inside c []) =>
          mk_state (release (_l s)) (data s) (delete t (places s)) (finished s ++ [(t, c)])
      | _ => s
      end
  end.

Definition run (l : list action) (s : state) : state := foldl (λ s a, exec a s) s l.
Definition start (d : D) : state := mk_state 0 d ∅ [].

(** The data after the sections in their order. *)
Definition in_order (d : D) (l : list (nat * section)) : D := foldl (λ d p, perform p.2 d) d l.

(** The lock is set when a thread is inside, and one thread is inside. *)
Record lock_ok (d0 : D) (s : state) : Prop := {
  l_value : _l s = 0%Z ∨ _l s = 1%Z;
  l_inside : _l s = 0%Z → ∀ t c rest, places s !! t ≠ Some (Inside c rest);
  l_one : ∀ t t' c c' rest rest', places s !! t = Some (Inside c rest) → places s !! t' = Some (Inside c' rest') → t = t';
  l_data : (∀ t c rest, places s !! t ≠ Some (Inside c rest)) → _l s = 0%Z ∧ data s = in_order d0 (finished s);
  l_during : ∀ t c rest, places s !! t = Some (Inside c rest) →
    ∃ before, c = before ++ rest ∧ data s = perform before (in_order d0 (finished s)) }.

(** A thread that gets the lock. *)
Lemma lock_taken d0 s t c :
  lock_ok d0 s → _l s = 0%Z → (∀ c rest, places s !! t ≠ Some (Inside c rest)) →
  lock_ok d0 (mk_state 1 (data s) (<[t := Inside c c]> (places s)) (finished s)).
Proof.
  intros [H1 H2 H3 H4 H5] Hl _. specialize (H2 Hl). destruct (H4 H2) as [_ Hd]. split; simpl.
  - by right.
  - done.
  - intros t1 t2 c1 c2 r1 r2 [[-> _]|[_ E1]]%lookup_insert_Some [[-> _]|[_ E2]]%lookup_insert_Some; [done|..];
      by edestruct H2.
  - intros Hn. by destruct (Hn t c c (lookup_insert_eq _ _ _)).
  - intros t1 c1 r1 [[-> E]|[_ E1]]%lookup_insert_Some; [|by edestruct H2]. simplify_eq. by exists [].
Qed.

(** A thread that is not inside comes, goes on spinning or changes nothing. *)
Lemma lock_waits d0 s l ps :
  lock_ok d0 s → (_l s ≠ 0%Z → l = 1%Z) → (_l s = 0%Z → l = 0%Z) →
  (∀ t c rest, ps !! t = Some (Inside c rest) ↔ places s !! t = Some (Inside c rest)) →
  lock_ok d0 (mk_state l (data s) ps (finished s)).
Proof.
  intros [H1 H2 H3 H4 H5] Hl1 Hl0 Hp. assert (Hll : l = _l s) by (destruct H1 as [E|E]; rewrite E in *; [by apply Hl0|by apply Hl1]).
  split; simpl; rewrite ?Hll; auto.
  - intros E t c rest. rewrite Hp. by apply H2.
  - intros t t' c c' r r'. rewrite !Hp. apply H3.
  - intros Hn. apply H4. intros t c rest. rewrite <- Hp. apply Hn.
  - intros t c rest. rewrite Hp. apply H5.
Qed.

Lemma inside_insert (ps : gmap nat place) t c :
  (∀ c' rest, ps !! t ≠ Some (Inside c' rest)) →
  ∀ t' c' rest, <[t := Spinning c]> ps !! t' = Some (Inside c' rest) ↔ ps !! t' = Some (Inside c' rest).
Proof.
  intros Hn t' c' rest. destruct (decide (t' = t)) as [->|Hne]; [|by rewrite lookup_insert_ne].
  rewrite lookup_insert_eq. split; [done|]. intros E. by destruct (Hn c' rest).
Qed.

Lemma spin_exec_ok d0 a s : lock_ok d0 s → lock_ok d0 (exec a s).
Proof.
  intros H. pose proof H as [H1 H2 H3 H4 H5]. destruct a as [t c|t|t c|t|t]; simpl.
  - destruct (places s !! t) eqn:Ht; [done|]. apply lock_waits; [done|by destruct H1|done|].
    apply inside_insert. by rewrite Ht.
  - destruct (places s !! t) as [[c|c rest]|] eqn:Ht; [|done..]. unfold acquire_once, tas.
    destruct (Z.eqb_spec (_l s) 0).
    + apply lock_taken; [done|done|by rewrite Ht].
    + by apply lock_waits.
  - destruct (places s !! t) eqn:Ht; [done|]. unfold try_lock, tas. destruct (Z.eqb_spec (_l s) 0); simpl.
    + apply lock_taken; [done|done|by rewrite Ht].
    + by apply lock_waits.
  - destruct (places s !! t) as [[c|c [|f rest]]|] eqn:Ht; [done..| |done]. split; simpl.
    + done.
    + intros E. by destruct (H2 E t c (f :: rest)).
    + intros t1 t2 c1 c2 r1 r2 [[-> _]|[_ E1]]%lookup_insert_Some [[-> _]|[_ E2]]%lookup_insert_Some;
        [done|by eapply H3|by symmetry; eapply H3|by eapply H3].
    + intros Hn. by destruct (Hn t c rest (lookup_insert_eq _ _ _)).
    + intros t1 c1 r1 [[-> E]|[Hne E1]]%lookup_insert_Some.
      * simplify_eq. destruct (H5 t1 c1 (f :: r1) Ht) as (before & -> & ->). exists (before ++ [f]).
        rewrite <- app_assoc. split; [done|]. unfold perform. by rewrite foldl_app.
      * destruct Hne. by eapply H3.
  - destruct (places s !! t) as [[c|c [|f rest]]|] eqn:Ht; [done| |done..].
    assert (Hn : ∀ t' c' r', delete t (places s) !! t' ≠ Some (Inside c' r')).
    { intros t' c' r' [Hne E]%lookup_delete_Some. apply Hne. by eapply H3. }
    destruct (H5 t c [] Ht) as (before & E & Hd). rewrite app_nil_r in E. subst before. split; simpl.
    + by left.
    + intros _. apply Hn.
    + intros t1 t2 c1 c2 r1 r2 E1. by destruct (Hn t1 c1 r1).
    + intros _. split; [done|]. unfold in_order. by rewrite foldl_app.
    + intros t1 c1 r1 E1. by destruct (Hn t1 c1 r1).
Qed.

Lemma run_ok d0 l : ∀ s, lock_ok d0 s → lock_ok d0 (run l s).
Proof. induction l as [|a l IH]; intros s H; [done|]. apply IH. by apply spin_exec_ok. Qed.

Lemma start_ok d0 : lock_ok d0 (start d0).
Proof. split; try done. by left. Qed.

End machine.
Arguments action : clear implicits.
Arguments state : clear implicits.
End SpinLock.

(** C30: The spin lock makes critical sections atomic. However threads acquire,
    try, spin, access the data behind the lock and release, at most one of them
    is inside a section; the data are what the sections that have finished make
    of the initial data, one after the other in the order of their releases,
    with the accesses of the section in progress on top; and when no thread is
    inside, the next test-and-set of a spinning thread gets the lock. *)
Theorem spin_lock_atomic {D} (d0 : D) (l : list (SpinLock.action D)) :
  let s := SpinLock.run l (SpinLock.start d0) in
  let committed := SpinLock.in_order d0 (SpinLock.finished s) in
  (∀ t t' c c' rest rest', SpinLock.places s !! t = Some (SpinLock.Inside c rest) →
     SpinLock.places s !! t' = Some (SpinLock.Inside c' rest') → t = t') ∧
  (∀ t c rest, SpinLock.places s !! t = Some (SpinLock.Inside c rest) →
     ∃ before, c = before ++ rest ∧ SpinLock.data s = SpinLock.perform before committed) ∧
  ((∀ t c rest, SpinLock.places s !! t ≠ Some (SpinLock.Inside c rest)) →
     SpinLock.data s = committed ∧
     ∀ t c, SpinLock.places s !! t = Some (SpinLock.Spinning c) →
       SpinLock.places (SpinLock.exec (SpinLock.Spin t) s) !! t = Some (SpinLock.Inside c c)).
Proof.
  intros s committed. destruct (SpinLock.run_ok d0 l _ (SpinLock.start_ok d0)) as [H1 H2 H3 H4 H5].
  split; [exact H3|]. split; [exact H5|]. intros Hn. destruct (H4 Hn) as [Hl Hd]. split; [done|]. intros t c Ht.
  cbn. rewrite Ht. unfold SpinLock.acquire_once, SpinLock.tas. fold s in Hl. rewrite Hl. cbn. apply lookup_insert_eq.
Qed.

(** ** [Semaphore] *)
(** The value of the semaphore is a parameter of every operation; [None] of
    [wait] is a thread that sleeps. *)
Module Semaphore.

Definition sem_post (v : Z) : Z := (v + 1)%Z.
Definition post (v : Z) : Z := sem_post v.
(** [post(times)]: the loop counts an int up. *)
Definition post_times (times : Z) (v : Z) : Z := Nat.iter (Z.to_nat times) post v.
Definition wait (v : Z) : option Z := if (0 <? v)%Z then Some (v - 1)%Z else None.
Definition try_wait (v : Z) : bool * Z := match wait v with Some v' => (true, v') | None => (false, v) end.
Definition timed_wait (millisecond : Z) (v : Z) : bool * Z := (false, v).
Definition set_value (value : Z) (v : Z) : Z := value.
Definition get_value (v : Z) : Z := v.

Inductive action := Post | PostTimes (n : Z) | Wait | TryWait.

(** The value, the posts and the waits that got through. *)
Definition exec (a : action) (s : Z * Z * Z) : Z * Z * Z :=
  let '(v, posts, passed) := s in
  match a with
  | Post => (post v, posts + 1, passed)%Z
  | PostTimes n => (post_times n v, posts + Z.max 0 n, passed)%Z
  | Wait => match wait v with Some v' => (v', posts, passed + 1)%Z | None => s end
  | TryWait => let '(ok, v') := try_wait v in (v', posts, if ok then (passed + 1)%Z else passed)
  end.

Lemma post_times_add n v : post_times n v = (v + Z.max 0 n)%Z.
Proof.
  unfold post_times. replace (Z.max 0 n) with (Z.of_nat (Z.to_nat n)) by lia.
  induction (Z.to_nat n) as [|k IH]; simpl; [lia|]. rewrite IH. unfold post, sem_post. lia.
Qed.

(** No wait gets through without a post or an initial slot, and a thread sleeps
    only when all of them are used up. *)
Lemma semaphore_counts init l :
  (0 ≤ init)%Z →
  let '(v, posts, passed) := foldl (λ s a, exec a s) (init, 0, 0)%Z l in
  (0 ≤ v)%Z ∧ v = (init + posts - passed)%Z ∧ (wait v = None ↔ passed = (init + posts)%Z).
Proof.
  intros Hi.
  assert (H : ∀ s, (0 ≤ s.1.1)%Z ∧ s.1.1 = (init + s.1.2 - s.2)%Z →
    let s' := foldl (λ s a, exec a s) s l in (0 ≤ s'.1.1)%Z ∧ s'.1.1 = (init + s'.1.2 - s'.2)%Z).
  { induction l as [|a l IH]; intros s Hs; [done|]. simpl. apply IH. destruct s as [[v p] w]. simpl in Hs.
    destruct a as [|n| |]; simpl; unfold try_wait, wait.
    - unfold post, sem_post. lia.
    - rewrite post_times_add. lia.
    - destruct (Z.ltb_spec 0 v); simpl; lia.
    - destruct (Z.ltb_spec 0 v); simpl; lia. }
  specialize (H (init, 0, 0)%Z). simpl in H.
  destruct (foldl _ (init, 0, 0)%Z l) as [[v p] w]. simpl in H. destruct H as [H1 H2]; [lia|].
  split_and!; [done|done|]. unfold wait. destruct (Z.ltb_spec 0 v); split; try done; lia.
Qed.

End Semaphore.

(** ** [Barrier] *)
Module SyncBarrier.

(** [waiting] are the threads in [pthread_cond_wait], [passed] those that have
    returned from [Arrive]. *)
Record Barrier := mk_barrier { m_nThreads : Z; m_nSyncCount : Z; waiting : list nat; passed : list nat }.

Definition new_barrier (nThreads : Z) : Barrier := mk_barrier nThreads 0 [] [].

Definition broadcast (b : Barrier) : Barrier :=
  mk_barrier (m_nThreads b) (m_nSyncCount b) [] (passed b ++ waiting b).

Definition RegisterOneThread (b : Barrier) : Barrier :=
  mk_barrier (m_nThreads b + 1) (m_nSyncCount b) (waiting b) (passed b).
Definition UnregisterOneThread (b : Barrier) : Barrier :=
  let b := mk_barrier (m_nThreads b - 1) (m_nSyncCount b) (waiting b) (passed b) in
  if (m_nThreads b <=? m_nSyncCount b)%Z then broadcast b else b.
Definition setEmpty (b : Barrier) : Barrier := mk_barrier 0 0 (waiting b) (passed b).
Definition reset (b : Barrier) : Barrier := mk_barrier (m_nThreads b) 0 (waiting b) (passed b).

Definition Arrive (t : nat) (b : Barrier) : Barrier :=
  let b := mk_barrier (m_nThreads b) (m_nSyncCount b + 1) (waiting b) (passed b) in
  if (m_nThreads b <=? m_nSyncCount b)%Z then
    let b := broadcast b in mk_barrier (m_nThreads b) (m_nSyncCount b) (waiting b) (passed b ++ [t])
  else mk_barrier (m_nThreads b) (m_nSyncCount b) (waiting b ++ [t]) (passed b).

(** POSIX lets [pthread_cond_wait] return without a signal; [Arrive] does not
    test again. *)
Definition wake_up (t : nat) (b : Barrier) : Barrier :=
  if bool_decide (t ∈ waiting b)
  then mk_barrier (m_nThreads b) (m_nSyncCount b) (filter (λ x, x ≠ t) (waiting b)) (passed b ++ [t]) else b.

Definition arrive_all (ts : list nat) (b : Barrier) : Barrier := foldl (λ b t, Arrive t b) b ts.

Lemma arrive_all_count ts : ∀ n k ws ps,
  let b := arrive_all ts (mk_barrier n k ws ps) in m_nThreads b = n ∧ m_nSyncCount b = (k + Z.of_nat (length ts))%Z.
Proof.
  induction ts as [|t ts IH]; intros n k ws ps; [simpl; split; [done|lia]|].
  assert (E : ∃ ws' ps', Arrive t (mk_barrier n k ws ps) = mk_barrier n (k + 1) ws' ps').
  { unfold Arrive. simpl. destruct (n <=? k + 1)%Z; by eexists _, _. }
  destruct E as (ws' & ps' & E). unfold arrive_all in *. simpl foldl. rewrite E.
  destruct (IH n (k + 1)%Z ws' ps') as [E1 E2]. rewrite E1, E2. split; [done|]. simpl length. lia.
Qed.

(** Threads that arrive at a new barrier, or at one that was reset when nobody
    waited, wait until the last one is there; then all have passed. *)
Lemma barrier_rendezvous n ps ts :
  (0 < n)%Z →
  let b := arrive_all ts (mk_barrier n 0 [] ps) in
  ((Z.of_nat (length ts) < n)%Z → waiting b = ts ∧ passed b = ps) ∧
  ((n ≤ Z.of_nat (length ts))%Z → waiting b = [] ∧ passed b = ps ++ ts).
Proof.
  intros Hn. unfold arrive_all. induction ts as [|t ts IH] using rev_ind; simpl; [split; [done|lia]|].
  rewrite foldl_app, length_app. simpl.
  set (b := foldl (λ b t, Arrive t b) (mk_barrier n 0 [] ps) ts) in *.
  assert (Hc : m_nThreads b = n ∧ m_nSyncCount b = Z.of_nat (length ts)).
  { apply arrive_all_count. }
  destruct Hc as [E1 E2], IH as [IH1 IH2]. unfold Arrive. simpl. rewrite E1, E2.
  destruct (Z.leb_spec n (Z.of_nat (length ts) + 1)); split; intros H0; try lia; simpl.
  - destruct (decide (n ≤ Z.of_nat (length ts))%Z) as [Hle|Hgt].
    + destruct (IH2 Hle) as [-> ->]. by rewrite app_nil_r, app_assoc.
    + destruct IH1 as [-> ->]; [lia|]. by rewrite app_assoc.
  - destruct IH1 as [-> ->]; [lia|done].
Qed.

(** Once open, the barrier stays open: the count is not reset, so a second
    round does not wait. [setEmpty], which a comment asks to call before the
    second round, forgets the number of threads, so nobody waits either. *)
Lemma second_round_open n ps ts t :
  (0 < n ≤ Z.of_nat (length ts))%Z →
  let b := arrive_all ts (mk_barrier n 0 [] ps) in
  waiting (Arrive t b) = [] ∧ waiting (Arrive t (setEmpty b)) = [].
Proof.
  intros Hn b. split; [|done]. unfold b.
  pose proof (barrier_rendezvous n ps (ts ++ [t])) as H. unfold arrive_all in *. rewrite foldl_app, length_app in H.
  simpl in H. destruct H as [_ H]; [lia|]. apply H. lia.
Qed.

(** A spurious wake-up lets a thread pass a barrier of two alone. *)
Example spurious_passes : passed (wake_up 1 (Arrive 1 (new_barrier 2))) = [1].
Proof. reflexivity. Qed.

End SyncBarrier.
