(* ===== verification/DedicatedAccessor.v ===== *)
(** The NVMe accessor with a queue pair per thread
    (src/src/blk/nvme_blk_thread_dediciated_accessor_.h) over the queue pairs of
    src/src/accessor/qpair_context.h and atomic_qpair_context.h: every thread
    reads and writes blocks synchronously through a shared block cache and the
    queue pair it was given, which it may share with other threads.

    A thread is a number; its buffer and the flag [is_complete] of its command
    are named by it. Threads interleave at the granularity of the critical
    sections of the source (the cache behind [cache_lock_], the table of queue
    pairs behind [qpairs_lock_], a queue pair behind its own lock); the device is
    not this program's code and performs the commands of a queue pair in any
    order. A step of a thread that has to spin changes nothing; [None] is an
    undefined access or an overflow of [allocation_cur]. Cycle counts are left
    out, the counts of reads and writes are kept. *)
From Stdlib Require Import ZArith Lia.
From stdpp Require Import base list gmap sorting numbers.
From S2P Require Import Prelude IndexedList Lru BlkCache Barrier Estimator Metrics NvmeAccessor SharedAccessor.

Module Dedicated.
Import Shared.

(** ** Queue pairs *)
(** [c_unit] is the buffer of a command that writes an evicted unit of the
    cache; other commands use the buffer of their thread. *)
Record command := mk_command {
  c_thread : nat; c_addr : Z; c_write : bool; c_unit : option nat; c_performed : bool }.

Record QPair := mk_qpair { free_slots_ : Z; lock_ : bool; commands : list command }.

Definition new_qpair (queue_length : Z) : QPair := mk_qpair queue_length false [].

(** ** Threads *)
(** Where a thread is: in [read] before the cache is asked, in [write] before
    the block is invalidated, looking for its queue pair, spinning for the lock
    of queue pair [q], waiting for its command, back in [read] before the cache
    is filled, back from the write of an evicted unit, or done. *)
Inductive phase := Lookup | Invalidate | FindQPair | Acquire (q : nat) | Wait (q : nat) | Fill | Free | Done.

#[global] Instance phase_eq_dec : EqDecision phase.
Proof. solve_decision. Defined.

(** [t_unit] is the evicted unit the thread writes back. *)
Record thread := mk_thread { t_call : io_request; t_unit : option BlkCache.cache_unit; t_phase : phase }.

Definition goto (p : phase) (th : thread) : thread := mk_thread (t_call th) (t_unit th) p.

(** The block the thread works on, and whether it writes it. *)
Definition job_addr (th : thread) : Z :=
  match t_unit th with Some u => BlkCache.u_id u | None => addr (t_call th) end.
Definition job_write (th : thread) : bool :=
  match t_unit th with Some _ => true | None => is_write (t_call th) end.

Section accessor.
Context {D : Type} (zero : D).

Record accessor := mk_dedicated {
  cache_ : BlkCache.blk_cache D;
  qpairs_ : list QPair;
  thread_to_qpair : gmap nat nat;
  allocation_cur : Z;
  reads_ : Z;
  writes_ : Z;
  device : gmap Z D;
  memory : gmap nat D;
  is_complete : gmap nat bool;
  threads : gmap nat thread;
  history : list (@event D) }.

Definition max_queue_pair : Z := 31.

(** [open]; the program opens queue pairs of length 1. *)
Definition open (capacity queue_length : Z) : accessor :=
  mk_dedicated (BlkCache.new_cache capacity) (replicate (Z.to_nat max_queue_pair) (new_qpair queue_length))
    ∅ 0 0 0 ∅ ∅ ∅ ∅ [].

Definition with_cache (c : BlkCache.blk_cache D) (s : accessor) : accessor :=
  mk_dedicated c (qpairs_ s) (thread_to_qpair s) (allocation_cur s) (reads_ s) (writes_ s) (device s) (memory s)
    (is_complete s) (threads s) (history s).
Definition with_table (m : gmap nat nat) (n : Z) (s : accessor) : accessor :=
  mk_dedicated (cache_ s) (qpairs_ s) m n (reads_ s) (writes_ s) (device s) (memory s)
    (is_complete s) (threads s) (history s).
Definition with_counts (r w : Z) (s : accessor) : accessor :=
  mk_dedicated (cache_ s) (qpairs_ s) (thread_to_qpair s) (allocation_cur s) r w (device s) (memory s)
    (is_complete s) (threads s) (history s).
Definition with_qpair (q : nat) (qp : QPair) (b : gmap nat bool) (s : accessor) : accessor :=
  mk_dedicated (cache_ s) (<[q := qp]> (qpairs_ s)) (thread_to_qpair s) (allocation_cur s) (reads_ s) (writes_ s)
    (device s) (memory s) b (threads s) (history s).
Definition with_data (d : gmap Z D) (m : gmap nat D) (s : accessor) : accessor :=
  mk_dedicated (cache_ s) (qpairs_ s) (thread_to_qpair s) (allocation_cur s) (reads_ s) (writes_ s) d m
    (is_complete s) (threads s) (history s).
Definition with_threads (ts : gmap nat thread) (h : list (@event D)) (s : accessor) : accessor :=
  mk_dedicated (cache_ s) (qpairs_ s) (thread_to_qpair s) (allocation_cur s) (reads_ s) (writes_ s) (device s) (memory s)
    (is_complete s) ts h.

Definition set_thread (t : nat) (th : thread) (s : accessor) : accessor :=
  with_threads (<[t := th]> (threads s)) (history s) s.

Definition count_job (th : thread) (s : accessor) : accessor :=
  if job_write th then with_counts (reads_ s) (writes_ s + 1) s else with_counts (reads_ s + 1) (writes_ s) s.

(** ** The table of queue pairs *)
Definition get_or_create_qpair (t : nat) (s : accessor) : option (nat * accessor) :=
  match thread_to_qpair s !! t with
  | Some q => Some (q, s)
  | None =>
      let q := Z.to_nat (Z.rem (allocation_cur s) max_queue_pair) in
      if (allocation_cur s + 1 <? 2 ^ 31)%Z then
        _ ← qpairs_ s !! q;
        Some (q, with_table (<[t := q]> (thread_to_qpair s)) (allocation_cur s + 1) s)
      else None
  end.

Definition deregister_thread (t : nat) (s : accessor) : accessor :=
  with_table (delete t (thread_to_qpair s)) (allocation_cur s) s.

(** ** [synchronous_read] and [synchronous_write] *)
(** The lock is taken and the command submitted. *)
Definition acquire (t : nat) (th : thread) (q : nat) (s : accessor) : option accessor :=
  qp ← qpairs_ s !! q;
  if lock_ qp then Some s
  else
    let c := mk_command t (job_addr th) (job_write th) (BlkCache.data <$> t_unit th) false in
    Some (set_thread t (goto (Wait q) th)
            (with_qpair q (mk_qpair (free_slots_ qp - 1) true (commands qp ++ [c]))
               (<[t := false]> (is_complete s)) s)).

(** The condition of the loop: a write waits for its flag, a read for a free
    slot. *)
Definition must_wait (t : nat) (th : thread) (qp : QPair) (s : accessor) : bool :=
  if job_write th then negb (default false (is_complete s !! t)) else (free_slots_ qp =? 0)%Z.

(** [cb_function], called for a command of the queue pair. *)
Definition cb_function (q : nat) (qp : QPair) (i : nat) (c : command) (s : accessor) : accessor :=
  with_qpair q (mk_qpair (free_slots_ qp + 1) (lock_ qp) (delete i (commands qp)))
    (<[c_thread c := true]> (is_complete s)) s.

(** The body of the loop: [process_completions] runs the callback of a command
    that was performed. *)
Definition poll (t i : nat) (s : accessor) : option accessor :=
  match threads s !! t with
  | Some th =>
      match t_phase th with
      | Wait q =>
          qp ← qpairs_ s !! q;
          if must_wait t th qp s then
            match commands qp !! i with
            | Some c => if c_performed c then Some (cb_function q qp i c s) else Some s
            | None => Some s
            end
          else Some s
      | _ => Some s
      end
  | None => Some s
  end.

(** The loop ends and the lock is released. *)
Definition leave (t : nat) (th : thread) (q : nat) (s : accessor) : option accessor :=
  qp ← qpairs_ s !! q;
  if must_wait t th qp s then Some s
  else
    let next := match t_unit th with Some _ => Free | None => if is_write (t_call th) then Done else Fill end in
    Some (set_thread t (goto next th)
            (count_job th (with_qpair q (mk_qpair (free_slots_ qp) false (commands qp)) (is_complete s) s))).

(** ** [read] and [write] *)
(** The block read goes into the cache; a dirty unit that leaves it is written
    back. *)
Definition fill (t : nat) (th : thread) (s : accessor) : option accessor :=
  d ← memory s !! t;
  '(evicted, c) ← BlkCache.write (addr (t_call th)) d false (cache_ s);
  let s := with_cache c s in
  match evicted with
  | Some u =>
      if BlkCache.dirty u then Some (set_thread t (mk_thread (t_call th) (Some u) Invalidate) s)
      else Some (set_thread t (goto Done th) s)
  | None => Some (set_thread t (goto Done th) s)
  end.

Definition step (t : nat) (s : accessor) : option accessor :=
  match threads s !! t with
  | None => Some s
  | Some th =>
      match t_phase th with
      | Lookup =>
          '(hit, c) ← BlkCache.read (addr (t_call th)) (cache_ s);
          let s := with_cache c s in
          match hit with
          | Some d => Some (set_thread t (goto Done th) (count_job th (with_data (device s) (<[t := d]> (memory s)) s)))
          | None => Some (set_thread t (goto FindQPair th) s)
          end
      | Invalidate =>
          '(_, c) ← BlkCache.invalidate (job_addr th) (cache_ s);
          Some (set_thread t (goto FindQPair th) (with_cache c s))
      | FindQPair => '(q, s) ← get_or_create_qpair t s; Some (set_thread t (goto (Acquire q) th) s)
      | Acquire q => acquire t th q s
      | Wait q => leave t th q s
      | Fill => fill t th s
      | Free =>
          u ← t_unit th;
          Some (set_thread t (mk_thread (t_call th) None Done) (with_cache (BlkCache.free_block (BlkCache.data u) (cache_ s)) s))
      | Done => Some s
      end
  end.

(** ** Callers and device *)
Definition calls (s : accessor) : list io_request := t_call <$> (map_to_list (threads s)).*2.

(** With [locked] a thread starts a call only when no call in progress conflicts
    with it, as the locks of the concurrent tree ensure. *)
Definition may_issue (locked : bool) (r : io_request) (s : accessor) : bool :=
  bool_decide (threads s !! r_thread r = None) && (negb locked || negb (existsb (conflict r) (calls s))).

Definition issue (locked : bool) (r : io_request) (d : D) (s : accessor) : accessor :=
  if may_issue locked r s then
    with_threads (<[r_thread r := mk_thread r None (if is_write r then Invalidate else Lookup)]> (threads s))
      (history s ++ [Issued r d]) (with_data (device s) (<[r_thread r := d]> (memory s)) s)
  else s.

Definition return_ (t : nat) (s : accessor) : option accessor :=
  match threads s !! t with
  | Some th =>
      match t_phase th with
      | Done => d ← memory s !! t; Some (with_threads (delete t (threads s)) (history s ++ [Returned t d]) s)
      | _ => Some s
      end
  | None => Some s
  end.

(** The device performs command [i] of queue pair [q]. *)
Definition perform (q i : nat) (s : accessor) : option accessor :=
  match qpairs_ s !! q with
  | None => Some s
  | Some qp =>
      match commands qp !! i with
      | Some (mk_command t a w u false) =>
          let s := with_qpair q (mk_qpair (free_slots_ qp) (lock_ qp) (<[i := mk_command t a w u true]> (commands qp)))
                     (is_complete s) s in
          if w then
            d ← match u with Some p => BlkCache.heap (cache_ s) !! p | None => memory s !! t end;
            Some (with_data (<[a := d]> (device s)) (memory s) s)
          else Some (with_data (device s) (<[t := default zero (device s !! a)]> (memory s)) s)
      | _ => Some s
      end
  end.

(** ** Interleavings *)
Inductive action :=
  | Issue (r : io_request) (d : D) | Step (t : nat) | Poll (t i : nat) | Perform (q i : nat) | Return (t : nat)
  | Deregister (t : nat).

Definition exec (locked : bool) (a : action) (s : accessor) : option accessor :=
  match a with
  | Issue r d => Some (issue locked r d s)
  | Step t => step t s
  | Poll t i => poll t i s
  | Perform q i => perform q i s
  | Return t => return_ t s
  | Deregister t => Some (deregister_thread t s)
  end.

Fixpoint exec_all (locked : bool) (l : list action) (s : accessor) : option accessor :=
  match l with [] => Some s | a :: l' => s ← exec locked a s; exec_all locked l' s end.

(** ** The invariant *)
Context `{!EqDecision D}.
Implicit Types (s : accessor) (t q : nat) (th : thread) (r : io_request) (m : gmap Z D) (c : BlkCache.blk_cache D).

















































End accessor.
Arguments action : clear implicits.
Arguments accessor : clear implicits.

End Dedicated.

Section claims.
Import Shared Dedicated.
Context {D : Type} `{!EqDecision D} (zero : D) (capacity : Z).



End claims.

(** ** Concrete runs *)
Import Shared.

(** Thread 1 writes block 5, then reads it twice. *)
Definition walk : list (Dedicated.action Z) :=
  let step := Dedicated.Step 1 in
  [Dedicated.Issue (mk_request 1 5 write_request) 77%Z; step; step; step; Dedicated.Perform 0 0;
   Dedicated.Poll 1 0; step; Dedicated.Return 1;
   Dedicated.Issue (mk_request 1 5 read_request) 0%Z; step; step; step; Dedicated.Perform 0 0;
   Dedicated.Poll 1 0; step; step; Dedicated.Return 1;
   Dedicated.Issue (mk_request 1 5 read_request) 0%Z; step; Dedicated.Return 1].

Example walk_result :
  (s ← Dedicated.exec_all 0%Z true walk (Dedicated.open 3 1);
   Some (Dedicated.history s, Dedicated.reads_ s, Dedicated.writes_ s, Dedicated.allocation_cur s)) =
  Some ([Issued (mk_request 1 5 write_request) 77%Z; Returned 1 77%Z; Issued (mk_request 1 5 read_request) 0%Z;
    Returned 1 77%Z; Issued (mk_request 1 5 read_request) 0%Z; Returned 1 77%Z], 2%Z, 1%Z, 1%Z).
Proof. vm_compute. reflexivity. Qed.




(** Without the discipline, a read that was performed before a write puts the
    old block into the cache after the write: later reads get it. *)
Example dedicated_stale_cache :
  (s ← Dedicated.exec_all 0%Z false
     [Dedicated.Issue (mk_request 1 5 read_request) 0%Z; Dedicated.Step 1; Dedicated.Step 1; Dedicated.Step 1; Dedicated.Perform 0 0;
      Dedicated.Issue (mk_request 2 5 write_request) 77%Z; Dedicated.Step 2; Dedicated.Step 2; Dedicated.Step 2; Dedicated.Perform 1 0;
      Dedicated.Poll 2 0; Dedicated.Step 2; Dedicated.Return 2;
      Dedicated.Poll 1 0; Dedicated.Step 1; Dedicated.Step 1; Dedicated.Return 1;
      Dedicated.Issue (mk_request 3 5 read_request) 0%Z; Dedicated.Step 3; Dedicated.Return 3] (Dedicated.open 3 1);
   Some (list.last (Dedicated.history s), Dedicated.device s !! 5%Z)) = Some (Some (Returned 3 0%Z), Some 77%Z).
Proof. vm_compute. reflexivity. Qed.

(** With more than one slot [synchronous_read] returns at once: the slot of the
    second command is free, and the buffer holds what it held before. *)
Example read_returns_early :
  (s ← Dedicated.exec_all 0%Z true
     [Dedicated.Issue (mk_request 1 5 write_request) 77%Z; Dedicated.Step 1; Dedicated.Step 1; Dedicated.Step 1;
      Dedicated.Perform 0 0; Dedicated.Poll 1 0; Dedicated.Step 1; Dedicated.Return 1;
      Dedicated.Issue (mk_request 1 5 read_request) 13%Z; Dedicated.Step 1; Dedicated.Step 1; Dedicated.Step 1;
      Dedicated.Step 1; Dedicated.Step 1; Dedicated.Return 1] (Dedicated.open 3 8);
   Some (list.last (Dedicated.history s), Dedicated.device s !! 5%Z)) = Some (Some (Returned 1 13%Z), Some 77%Z).
Proof. vm_compute. reflexivity. Qed.

(** A clean unit that leaves the cache keeps its buffer: after reads of three
    blocks a cache of one has three buffers, none of them free. *)
Example evicted_buffers_leak :
  (s ← Dedicated.exec_all 0%Z true
     ([5; 6; 7]%Z ≫= λ a, [Dedicated.Issue (mk_request 1 a read_request) 0%Z; Dedicated.Step 1; Dedicated.Step 1; Dedicated.Step 1;
        Dedicated.Perform 0 0; Dedicated.Poll 1 0; Dedicated.Step 1; Dedicated.Step 1; Dedicated.Return 1]) (Dedicated.open 1 1);
   Some (length (BlkCache.key_ (Dedicated.cache_ s)), BlkCache.free_blocks_ (Dedicated.cache_ s),
     BlkCache.next_ptr (Dedicated.cache_ s))) = Some (1, [], 3).
Proof. vm_compute. reflexivity. Qed.
