(* ===== verification/RwLock.v ===== *)
(** The lock classes that forward to a library: Lock of src/src/utils/sync.h (a
    pthread mutex) and rwlock of src/src/sync/rwlock.h (a boost shared mutex, as
    in the lock manager). An operation that would block, or that unlocks what is
    not locked, has no result. *)
From Stdlib Require Import ZArith Lia.
From stdpp Require Import base list gmap numbers.
From S2P Require Import Prelude LockManager.

Module Lock.
(** The mutex: locked or not. *)
Definition acquire (m : bool) : option bool := if m then None else Some true.
Definition try_acquire (m : bool) : bool * bool := if m then (false, m) else (true, true).
Definition release (m : bool) : option bool := if m then Some false else None.
End Lock.

Module RwLock.
Import Locks.

Definition attempt (f : shared_mutex → option shared_mutex) (m : shared_mutex) : bool * shared_mutex :=
  match f m with Some m' => (true, m') | None => (false, m) end.

Definition read_lock (m : shared_mutex) : option shared_mutex := lock_shared m.
Definition read_unlock (m : shared_mutex) : option shared_mutex := unlock_shared m.
Definition try_read_lock (m : shared_mutex) : bool * shared_mutex := attempt lock_shared m.
Definition write_lock (m : shared_mutex) : option shared_mutex := lock m.
Definition try_write_lock (m : shared_mutex) : bool * shared_mutex := attempt lock m.
Definition try_lock_upgrade (m : shared_mutex) : bool * shared_mutex := attempt lock_upgrade m.
Definition try_unlock_and_write_lock (m : shared_mutex) : bool * shared_mutex := attempt unlock_upgrade_and_lock m.

(** The operations of the class, with the result of those that return one. *)
Inductive op := ReadLock | ReadUnlock | TryReadLock | WriteLock | TryWriteLock | TryLockUpgrade | TryUnlockAndWriteLock.

Definition exec (o : op) (m : shared_mutex) : option (bool * shared_mutex) :=
  match o with
  | ReadLock => m ← read_lock m; Some (true, m)
  | ReadUnlock => m ← read_unlock m; Some (true, m)
  | TryReadLock => Some (try_read_lock m)
  | WriteLock => m ← write_lock m; Some (true, m)
  | TryWriteLock => Some (try_write_lock m)
  | TryLockUpgrade => Some (try_lock_upgrade m)
  | TryUnlockAndWriteLock => Some (try_unlock_and_write_lock m)
  end.

Fixpoint run (os : list op) (m : shared_mutex) : option (list bool * shared_mutex) :=
  match os with
  | [] => Some ([], m)
  | o :: os' => '(b, m) ← exec o m; '(bs, m) ← run os' m; Some (b :: bs, m)
  end.

(** A writer excludes readers, and an upgrade lock is one of the shared ones. *)
Definition wf (m : shared_mutex) : Prop :=
  (exclusive m = true → shared_count m = 0 ∧ upgrade m = false) ∧ (upgrade m = true → 0 < shared_count m).

Lemma lock_wf m m' : wf m → lock m = Some m' → wf m'.
Proof.
  intros [H1 H2]. unfold lock. destruct (exclusive m); [done|]. destruct (Nat.ltb_spec 0 (shared_count m)); [done|]. intros [= <-].
  split; simpl; [|intros Hu; specialize (H2 Hu); lia]. intros _. split; [done|]. destruct (upgrade m); [|done]. specialize (H2 eq_refl). lia.
Qed.

(** The upgrade lock is released by nothing but the step to the write lock: a
    read unlock may take it away only if it was the last shared lock. *)
Definition unlocks_upgrade (o : op) (m : shared_mutex) : Prop := o = ReadUnlock ∧ upgrade m = true ∧ shared_count m = 1.

Lemma exec_wf o m b m' : wf m → ¬ unlocks_upgrade o m → exec o m = Some (b, m') → wf m'.
Proof.
  intros Hwf Hnu E. pose proof Hwf as [H1 H2].
  destruct o; simpl in E; unfold read_lock, read_unlock, try_read_lock, write_lock, try_write_lock, try_lock_upgrade,
    try_unlock_and_write_lock, attempt in E.
  - unfold lock_shared in E. destruct (exclusive m) eqn:Ex; [done|]. simplify_eq/=. split; simpl; [done|lia].
  - unfold unlock_shared in E. destruct (shared_count m) as [|k] eqn:Es; [done|]. simplify_eq/=. split; simpl.
    + intros Hx. destruct (H1 Hx). lia.
    + intros Hu. destruct k; [|lia]. destruct Hnu. done.
  - unfold lock_shared in E. destruct (exclusive m) eqn:Ex; simplify_eq; [done|]. split; simpl; [done|lia].
  - destruct (lock m) as [m1|] eqn:El; [|done]. simplify_eq/=. by eapply lock_wf.
  - destruct (lock m) as [m1|] eqn:El; simplify_eq; [|done]. by eapply lock_wf.
  - unfold lock_upgrade in E. destruct (exclusive m || upgrade m) eqn:Ex; simplify_eq; [done|]. split; simpl; [done|lia].
  - unfold unlock_upgrade_and_lock in E. destruct (shared_count m) as [|[|k]] eqn:Es; simplify_eq; [done| |done].
    destruct (upgrade m); simplify_eq; [|done]. by split.
Qed.

(** A lock that is taken for writing stays so: the class has no operation that
    releases it. Every attempt fails, every other operation blocks or is undefined. *)
Theorem write_lock_is_final m os r :
  wf m → exclusive m = true → run os m = Some r → r = (replicate (length os) false, m) ∧
    Forall (λ o, o = TryReadLock ∨ o = TryWriteLock ∨ o = TryLockUpgrade ∨ o = TryUnlockAndWriteLock) os.
Proof.
  intros Hwf Hx. revert r. induction os as [|o os IH]; intros r; simpl; [by intros [= <-]|].
  assert (He : ∀ b m', exec o m = Some (b, m') → b = false ∧ m' = m ∧
    (o = TryReadLock ∨ o = TryWriteLock ∨ o = TryLockUpgrade ∨ o = TryUnlockAndWriteLock)).
  { destruct Hwf as [H1 _]. destruct (H1 Hx) as [Hs Hu]. intros b m'.
    destruct o; simpl; unfold read_lock, read_unlock, try_read_lock, write_lock, try_write_lock, try_lock_upgrade, try_unlock_and_write_lock, attempt,
      lock_shared, lock, unlock_shared, lock_upgrade, unlock_upgrade_and_lock; rewrite ?Hx, ?Hs; simpl; try done; intros [= <- <-]; tauto. }
  destruct (exec o m) as [[b m']|] eqn:E; [|done]. cbn [mbind option_bind]. destruct (He b m' eq_refl) as (-> & -> & Ho).
  destruct (run os m) as [[bs m']|]; [|done]. cbn [mbind option_bind]. intros [= <-]. destruct (IH _ eq_refl) as [Er Hf]. simplify_eq. by split; [|constructor].
Qed.

(** ** src/test/utils/rwlock_test.cc *)
Example SHARED :
  fst <$> run [TryReadLock; TryReadLock; TryReadLock; TryWriteLock; ReadUnlock; ReadUnlock; ReadUnlock; TryWriteLock; TryReadLock; TryWriteLock] unlocked
  = Some [true; true; true; false; true; true; true; true; false; false].
Proof. reflexivity. Qed.
Example READLOCK_IDEMPOTENT :
  fst <$> run [TryReadLock; TryReadLock; TryWriteLock; ReadUnlock; TryWriteLock; ReadUnlock; TryWriteLock] unlocked
  = Some [true; true; false; true; false; true; true].
Proof. reflexivity. Qed.
Example UPGRADE :
  fst <$> run [TryLockUpgrade; TryReadLock; TryUnlockAndWriteLock; ReadUnlock; TryUnlockAndWriteLock] unlocked
  = Some [true; true; false; true; true].
Proof. reflexivity. Qed.

End RwLock.
