(* ===== verification/ToString.v ===== *)
(** Printing: [toString] of the nodes (src/src/tree/leaf_node.h,
    src/src/tree/inner_node.h) and of the tree (src/src/tree/vanilla_b_plus_tree.h),
    and the unit tests of src/test that compare printed trees, nodes, locks and
    caches with what they should be, replayed on the model. *)
From Stdlib Require Import ZArith Lia.
From stdpp Require Import base list gmap sorting numbers strings pretty.
From S2P Require Import Prelude KV Leaf Inner Store Tree TreeRep TreeFoot TreeSearch Alloc TreeSpec LockManager Estimator IndexedList BlkCache.

Local Open Scope string_scope.

(** [if (i != last) ss << " "]. *)
Definition separator (i last : nat) : string := if bool_decide (i = last) then "" else " ".

Definition entry_string (e : Z * Z) : string := "(" +:+ pretty e.1 +:+ "," +:+ pretty e.2 +:+ ")".

Definition leaf_toString (n : LeafNode.LeafNode) : option string :=
  for_up 0 (LeafNode.size_ n) (λ i ss,
    e ← LeafNode.entries_ n !! i; Some (ss +:+ entry_string e +:+ separator i (LeafNode.size_ n - 1))) "".

Definition keys_to_string (n : InnerNode.InnerNode) : option string :=
  for_up 1 (InnerNode.size_ n - 1) (λ i ss,
    k ← InnerNode.key_ n !! i; Some (ss +:+ pretty k +:+ separator i (InnerNode.size_ n - 1))) "".

Section print.
Context {A : Type} `{!Allocator A} `{!AllocatorLaws A}.
Context (CAPACITY : nat) (junkE : list (Z * Z)) (junkK : list Z).
Context (Hpar : params_ok CAPACITY junkE junkK).
Local Abbreviation state := (tree_state A).
Local Abbreviation load := (load CAPACITY junkE junkK).
Local Abbreviation rep := (rep CAPACITY).
Implicit Types (st : state) (h fuel : nat).

(** [nodes_to_string] loads the children one after the other. *)
Fixpoint node_toString (fuel : nat) (n : node) (st : state) : option string :=
  match n with
  | NLeaf l => leaf_toString l
  | NInner i =>
      match fuel with
      | 0 => None
      | S fuel' =>
          key_string ← keys_to_string i;
          node_string ← for_up 0 (InnerNode.size_ i) (λ j ss,
            c ← InnerNode.child_rep_ i !! j; child ← load c st; s ← node_toString fuel' child st;
            Some (ss +:+ ("[" +:+ s +:+ "]") +:+ separator j (InnerNode.size_ i - 1))) "";
          Some (key_string +:+ " " +:+ node_string)
      end
  end.

Definition toString (st : state) : option string :=
  n ← load (root_ st) st; node_toString (depth_ st) n st.

(** ** What is printed *)
(** The shape of a tree, as a reader sees it. *)
Inductive shape := SLeaf (l : kv) | SNode (ks : list Z) (cs : list shape).

Fixpoint join (l : list string) : string :=
  match l with [] => "" | [x] => x | x :: l' => x +:+ " " +:+ join l' end.

Fixpoint render (s : shape) : string :=
  match s with
  | SLeaf l => join (entry_string <$> l)
  | SNode ks cs => join (pretty <$> tail ks) +:+ " " +:+ join ((λ c, "[" +:+ render c +:+ "]") <$> cs)
  end.

Fixpoint entries (s : shape) : kv :=
  match s with SLeaf l => l | SNode _ cs => concat (entries <$> cs) end.

(** The loops that print. *)
Lemma string_app_nil (s : string) : s +:+ "" = s.
Proof. induction s as [|c s IH]; [done|]. change (String c (s +:+ "") = String c s). by rewrite IH. Qed.
Lemma string_app_assoc (s1 s2 s3 : string) : (s1 +:+ s2) +:+ s3 = s1 +:+ (s2 +:+ s3).
Proof. induction s1 as [|c s1 IH]; [done|]. change (String c ((s1 +:+ s2) +:+ s3) = String c (s1 +:+ (s2 +:+ s3))). by rewrite IH. Qed.

Lemma print_loop (body : nat → string → option string) last xs : ∀ i ss,
  (∀ j x ss, xs !! j = Some x → body (i + j) ss = Some (ss +:+ x +:+ separator (i + j) last)) →
  (xs = [] ∨ i + length xs = S last) →
  for_up i (length xs) body ss = Some (ss +:+ join xs).
Proof.
  induction xs as [|x xs IH]; intros i ss Hb Hl; [simpl; by rewrite string_app_nil|]. cbn [length for_up].
  destruct Hl as [?|Hl]; [done|]. cbn [length] in Hl. pose proof (Hb 0 x ss eq_refl) as H0. rewrite Nat.add_0_r in H0. rewrite H0. cbn [mbind option_bind].
  rewrite IH.
  - f_equal. unfold separator. destruct xs as [|y xs].
    + rewrite bool_decide_eq_true_2 by (cbn [length] in Hl; lia). cbn [join]. by rewrite !string_app_nil.
    + rewrite bool_decide_eq_false_2 by (cbn [length] in Hl; lia). by rewrite !string_app_assoc.
  - intros j y ss' Hj. replace (i + 1 + j) with (i + S j) by lia. by apply Hb.
  - destruct xs; [by left|right]. lia.
Qed.

Lemma leaf_prints n : LeafNode.wf CAPACITY n → leaf_toString n = Some (join (entry_string <$> LeafNode.live n)).
Proof.
  intros Hwf. assert (Hlen : length (LeafNode.live n) = LeafNode.size_ n).
  { destruct Hwf as (H1 & H2 & _). unfold LeafNode.live. rewrite length_take. lia. }
  unfold leaf_toString. rewrite <- Hlen at 1. rewrite <- (length_fmap entry_string). rewrite (print_loop _ (LeafNode.size_ n - 1)); [done| |].
  - intros j x ss Hj. apply list_lookup_fmap_Some in Hj as (e & -> & He). unfold LeafNode.live in He. apply lookup_take_Some in He as [He _].
    simpl. by rewrite He.
  - rewrite length_fmap, Hlen. destruct (LeafNode.size_ n) eqn:E; [left|right; lia].
    by rewrite (nil_length_inv (LeafNode.live n)).
Qed.

Lemma keys_print i :
  InnerNode.wf CAPACITY i → InnerNode.live i ≠ [] → keys_to_string i = Some (join (pretty <$> tail (InnerNode.live i).*1)).
Proof.
  intros Hwf Hne. pose proof (InnerNode.inner_length_live CAPACITY i Hwf) as Hlen.
  assert (Ht : length (pretty (A := Z) <$> tail (InnerNode.live i).*1) = InnerNode.size_ i - 1).
  { rewrite length_fmap. destruct (InnerNode.live i); [done|]. simpl in *. rewrite length_fmap. lia. }
  unfold keys_to_string. rewrite <- Ht at 1. rewrite (print_loop _ (InnerNode.size_ i - 1)); [done| |].
  - intros j x ss Hj. apply list_lookup_fmap_Some in Hj as (k & -> & Hk). rewrite lookup_tail, list_lookup_fmap in Hk.
    apply fmap_Some in Hk as ([k' c] & Hk & ->). apply InnerNode.inner_live_lookup in Hk as (_ & Hk & _). simpl. by rewrite Hk.
  - destruct (InnerNode.live i) as [|e [|e' l]] eqn:El; [done|by left|right]. rewrite Ht. simpl in Hlen. lia.
Qed.

(** The subtree at a block is printed as some shape with its entries. *)
Lemma node_prints h : ∀ fuel st id lo hi f nx l ids n,
  (h ≤ fuel)%nat → rep h (blocks st) id lo hi f nx l ids → load id st = Some n →
  ∃ sh, node_toString fuel n st = Some (render sh) ∧ entries sh = l.
Proof using Hpar.
  induction h as [|h IH]; intros fuel st id lo hi f nx l ids n Hf Hrep Hload.
  { destruct (load_rep_0 CAPACITY junkE junkK Hpar _ _ _ _ _ _ _ _ _ Hrep Hload) as (_ & -> & _ & _ & _ & n0 & -> & Hwf & <- & _).
    exists (SLeaf (LeafNode.live n0)). split; [|done]. destruct fuel; by apply leaf_prints. }
  destruct (load_rep_S CAPACITY junkE junkK Hpar _ _ _ _ _ _ _ _ _ _ Hrep Hload)
    as (i & ids' & -> & Hwf & Hself & _ & _ & Hne & -> & H0 & Hw & HR).
  destruct fuel as [|fuel]; [lia|]. cbn [node_toString]. rewrite keys_print by done. cbn [mbind option_bind].
  assert (Hcs : ∃ cs, concat (entries <$> cs) = l ∧
    Forall2 (λ kc sh, ∃ child, load kc.2 st = Some child ∧ node_toString fuel child st = Some (render sh)) (InnerNode.live i) cs).
  { clear -IH HR Hpar Hf. revert f l ids' HR. induction (InnerNode.live i) as [|[k c] kcs IHk]; intros f l ids' HR.
    - destruct HR as (_ & -> & _). by exists [].
    - destruct HR as (mid & l1 & l2 & i1 & i2 & H1 & H2 & -> & ->). destruct (IHk _ _ _ H2) as (cs & <- & Hcs).
      destruct (rep_loadable CAPACITY junkE junkK Hpar _ _ _ _ _ _ _ _ _ H1) as [n Hn].
      destruct (IH fuel st c _ _ _ _ _ _ n ltac:(lia) H1 Hn) as (sh & Es & <-). exists (sh :: cs). split; [done|].
      constructor; [by exists n|done]. }
  destruct Hcs as (cs & El & Hcs). exists (SNode (InnerNode.live i).*1 cs). split; [|done].
  pose proof (InnerNode.inner_length_live CAPACITY i Hwf) as Hlen. pose proof (Forall2_length _ _ _ Hcs) as Hl2.
  assert (Hc : length ((λ c, "[" +:+ render c +:+ "]") <$> cs) = InnerNode.size_ i) by (rewrite length_fmap; lia).
  rewrite <- Hc at 1. rewrite (print_loop _ (InnerNode.size_ i - 1)); [done| |].
  - intros j x ss Hj. apply list_lookup_fmap_Some in Hj as (sh & -> & Hsh).
    destruct (Forall2_lookup_r _ _ _ _ _ Hcs Hsh) as ([k c] & Hkc & child & Hload' & Hs). cbn [snd] in Hload'.
    apply InnerNode.inner_live_lookup in Hkc as (_ & _ & Hkc). simpl. rewrite Hkc. cbn [mbind option_bind]. rewrite Hload'. cbn [mbind option_bind].
    by rewrite Hs.
  - right. rewrite Hc. destruct (InnerNode.live i); [done|]. simpl in Hlen. lia.
Qed.

(** Printing never fails on a tree, and the entries it shows are those of the map in
    ascending order. *)
Theorem toString_shows_entries st l ids :
  tree_ok CAPACITY st l ids → ∃ sh, toString st = Some (render sh) ∧ entries sh = l ∧ ksorted (keys l).
Proof using Hpar.
  intros Hok. pose proof (tree_ok_sorted _ _ _ _ Hok) as Hs. destruct Hok as (Hd & (f & Hrep) & _).
  unfold toString. destruct (rep_loadable CAPACITY junkE junkK Hpar _ _ _ _ _ _ _ _ _ Hrep) as [n Hn]. rewrite Hn. cbn [mbind option_bind].
  destruct (node_prints (depth_ st - 1) (depth_ st) st _ _ _ _ _ _ _ n ltac:(lia) Hrep Hn) as (sh & E & Hl). by exists sh.
Qed.

End print.

(** ** Unit tests *)
(** src/test/tree/b_plus_tree_test.cc, on the tree with blocks. *)
Section tests.
Local Open Scope Z_scope.

Definition printed (os : list op) : option string :=
  '(_, st) ← exec_ops 4 junkE4 junkK4 0 os tree0; toString 4 junkE4 junkK4 st.
Definition ins (l : list Z) : list op := (λ i, OInsert i i) <$> l.
Definition dels (l : list Z) : list op := ODelete <$> l.

Example InsertionTest :
  printed (ins [1; 3; 2; 6]) = Some "(1,1) (2,2) (3,3) (6,6)" ∧
  printed (ins [1; 3; 2; 6; 10]) = Some "3 [(1,1) (2,2)] [(3,3) (6,6) (10,10)]" ∧
  printed (ins [1; 3; 2; 6; 10; 9]) = Some "3 [(1,1) (2,2)] [(3,3) (6,6) (9,9) (10,10)]" ∧
  printed (ins [1; 3; 2; 6; 10; 9; 8]) = Some "3 8 [(1,1) (2,2)] [(3,3) (6,6)] [(8,8) (9,9) (10,10)]" ∧
  printed (ins [1; 3; 2; 6; 10; 9; 8; 7; 4; 5]) =
    Some "3 5 8 [(1,1) (2,2)] [(3,3) (4,4)] [(5,5) (6,6) (7,7)] [(8,8) (9,9) (10,10)]" ∧
  printed (ins [1; 3; 2; 6; 10; 9; 8; 7; 4; 5; 11; 12]) =
    Some "5 [3 [(1,1) (2,2)] [(3,3) (4,4)]] [8 10 [(5,5) (6,6) (7,7)] [(8,8) (9,9)] [(10,10) (11,11) (12,12)]]".
Proof. vm_compute. split_and!; reflexivity. Qed.

Example DeleteWithoutMergeTest :
  printed (ins [1; 2; 3; 4; 5; 6] ++ dels [4; 3]) = Some "3 [(1,1) (2,2)] [(5,5) (6,6)]".
Proof. vm_compute. reflexivity. Qed.

Example DeleteWithLeafNodeRebalancedAndMerged :
  let start := ins [1; 2; 3; 4; 5; 6; 7; 8] in
  printed (start ++ dels [4]) = Some "5 [(1,1) (2,2) (3,3)] [(5,5) (6,6) (7,7) (8,8)]" ∧
  printed (start ++ dels [4; 4; 0; 1; 3]) = Some "6 [(2,2) (5,5)] [(6,6) (7,7) (8,8)]" ∧
  printed (start ++ dels [4; 4; 0; 1; 3; 5; 6; 2]) = Some "(7,7) (8,8)" ∧
  printed (start ++ dels [4; 4; 0; 1; 3; 5; 6; 2; 7; 8]) = Some "".
Proof. vm_compute. split_and!; reflexivity. Qed.

Example DeleteWithInnerNodeRebalancedAndMerged :
  printed (ins (Z.of_nat <$> seq 1 16) ++ dels (rev (Z.of_nat <$> seq 1 16))) = Some "".
Proof. vm_compute. reflexivity. Qed.

(** src/test/tree/leaf_node_test.cc. *)
Definition leaf_of (CAPACITY : nat) (l : list (Z * Z)) : option LeafNode.LeafNode :=
  foldl (λ n e, n ← n; snd <$> LeafNode.insert CAPACITY e.1 e.2 n)
    (Some (LeafNode.create (replicate CAPACITY (0, 0)) 0)) l.

Example InsertionWithOverflow :
  (leaf_of 5 [(1, 1); (3, 2); (2, 5); (-1, 5); (6, 2)] ≫= leaf_toString) = Some "(-1,5) (1,1) (2,5) (3,2) (6,2)".
Proof. vm_compute. reflexivity. Qed.
Example InsertionAndUpdate : (leaf_of 5 [(1, 2); (1, 3)] ≫= leaf_toString) = Some "(1,3)".
Proof. vm_compute. reflexivity. Qed.
Example LeafSearch :
  (n ← leaf_of 5 [(1, 5); (5, 8); (-1, 222)]; Some (LeafNode.search 1 n, LeafNode.search 5 n, LeafNode.search (-1) n))
  = Some (Some (Some 5), Some (Some 8), Some (Some 222)).
Proof. vm_compute. reflexivity. Qed.
Example LeafUpdate :
  (n ← leaf_of 5 [(5, 5); (9, 10); (3, 100)]; '(a, n) ← LeafNode.update 5 100 n; '(b, n) ← LeafNode.update 3 20 n;
   '(c, n) ← LeafNode.update 9 44 n; s ← leaf_toString n; Some (a, b, c, s)) = Some (true, true, true, "(3,20) (5,100) (9,44)").
Proof. vm_compute. reflexivity. Qed.
Example LeafDelete :
  (n ← leaf_of 5 [(5, 5); (6, 6); (7, 7); (3, 3)]; '(a, _, n) ← LeafNode.delete_key 5 6 false n; s1 ← leaf_toString n;
   '(b, _, n) ← LeafNode.delete_key 5 6 false n; '(c, _, n) ← LeafNode.delete_key 5 3 false n; s2 ← leaf_toString n;
   '(d, _, n) ← LeafNode.delete_key 5 7 false n; s3 ← leaf_toString n; '(e, _, n) ← LeafNode.delete_key 5 5 false n; s4 ← leaf_toString n;
   Some ([a; b; c; d; e], [s1; s2; s3; s4]))
  = Some ([true; false; true; true; true], ["(3,3) (5,5) (7,7)"; "(5,5) (7,7)"; "(5,5)"; ""]).
Proof. vm_compute. reflexivity. Qed.
Definition split_of (key : Z) : option (string * string * Z) :=
  n ← leaf_of 4 [(3, 3); (4, 4); (6, 6); (5, 5)];
  '(l, r) ← LeafNode.insert_with_split_support 4 1 (replicate 4 (0, 0)) key key n;
  '(r, b) ← r; sl ← leaf_toString l; sr ← leaf_toString r; Some (sl, sr, b).
Example SplitInsertLeft : split_of 1 = Some ("(1,1) (3,3) (4,4)", "(5,5) (6,6)", 5).
Proof. vm_compute. reflexivity. Qed.
Example SplitInsertRight : split_of 7 = Some ("(3,3) (4,4)", "(5,5) (6,6) (7,7)", 5).
Proof. vm_compute. reflexivity. Qed.

(** src/test/sync/lock_manager_test.cc. *)
Example SHARED_WRITE :
  let '(s1, m) := Locks.try_get_read_lock 0 ∅ in let '(w1, m) := Locks.try_get_write_lock 0 m in let '(s2, m) := Locks.try_get_read_lock 0 m in
  (d1 ← s1; m ← Locks.release_lock d1 m; d2 ← s2; m ← Locks.release_lock d2 m;
   let '(w2, m) := Locks.try_get_write_lock 0 m in let '(s3, m) := Locks.try_get_read_lock 0 m in
   Some (bool_decide (w1 = None), bool_decide (w2 = None), bool_decide (s3 = None))) = Some (true, false, true).
Proof. vm_compute. reflexivity. Qed.

(** src/test/lru_cache_test.cc: the keys of the units in order of use. *)
Definition cached (c : BlkCache.blk_cache Z) : list Z := (λ e, BlkCache.u_id e.2) <$> BlkCache.key_ c.
Definition fill (n : nat) (c : BlkCache.blk_cache Z) : option (BlkCache.blk_cache Z) :=
  foldl (λ c i, c ← c; snd <$> BlkCache.write (Z.of_nat i) (Z.of_nat i) true c) (Some c) (seq 0 n).

Example EVIT :
  (c ← fill 2 (BlkCache.new_cache 2); '(u, c) ← BlkCache.write 2 7 true c; '(r, c) ← BlkCache.read 0 c;
   Some (option_map BlkCache.u_id u, cached c, r)) = Some (Some 0, [2; 1], None : option Z).
Proof. vm_compute. reflexivity. Qed.
Example INVALIDATE :
  (c0 ← fill 4 (BlkCache.new_cache 4); '(r1, c1) ← BlkCache.read 0 c0; '(r2, c2) ← BlkCache.read 2 c1;
   '(b, c3) ← BlkCache.invalidate 3 c2; '(u, c4) ← BlkCache.write 4 4 true c3; '(r3, c5) ← BlkCache.read 2 c4; '(r4, c6) ← BlkCache.read 1 c5;
   '(_, c7) ← BlkCache.write 2 20 true c6; '(r5, c8) ← BlkCache.read 2 c7;
   Some (cached <$> [c0; c1; c2; c3; c4; c5; c6; c7; c8], [r1; r2; r3; r4; r5], b, bool_decide (u = None)))
  = Some ([[3; 2; 1; 0]; [0; 3; 2; 1]; [2; 0; 3; 1]; [2; 0; 1]; [4; 2; 0; 1]; [2; 4; 0; 1]; [1; 2; 4; 0]; [2; 1; 4; 0]; [2; 1; 4; 0]],
          [Some 0; Some 2; Some 2; Some 1; Some 20], true, true).
Proof. vm_compute. reflexivity. Qed.

End tests.
